(* ===== verification/_CoqProject ===== *)
-Q . S2P
Prelude.v
Stubs.v
Drivers.v
Bitset.v
Model.v
Entries.v
Labrpc.v
Calls.v
CallsProof.v
Labgob.v
LabgobProof.v
Persister.v
Randstring.v
Iface.v
Tables.v
RaftConfig.v
Raft.v
RaftLogs.v
RaftNet.v
RaftRestart.v
RaftTester.v
RaftTesterProof.v
Clerks.v
ClerksProof.v
KvConfig.v
KvNet.v
KvHarness.v
KvPartition.v
ShardConfig.v
CtrlerConfig.v
CtrlerSim.v
ShardNet.v
ShardHarness.v
ShardReach.v
MapReduce.v
MapReduceProof.v
Coordinator.v
Timing.v
TimingProof.v
KvModel.v
Nodes.v
History.v
Search.v
SearchProof.v
Checker.v
Operations.v
Events.v
Locality.v
CheckerProof.v
Verdicts.v
Visualization.v
VisualizationProof.v
Page.v
PageLayout.v
PagePrep.v
PageDraw.v
PageProof.v
PagePicture.v
PageMouse.v
Porcupine.v
Html.v
Literal.v
HtmlProof.v
Pages.v
Rpc.v
HarnessCalls.v
ClerkNet.v
