(* ===== verification/Prelude.v ===== *)
(** * The Go code of the 6.824 labs, verified

    The Go module under
    src/content/posts/6.824/lab/lab_1_mapreduce/6.824/src/ holds: porcupine, a
    linearizability checker, with models/kv.go, the key-value store it checks
    against; labrpc, a simulated network of RPC servers, and labgob, the
    checks around its encoding; raft, kvraft, shardctrler and shardkv, each a
    server that the lab leaves to be written, with the persister, the clerks
    and the test harness (config.go) that come with it; mr, main and mrapps,
    the sequential MapReduce and its applications. Paths below are relative
    to that directory. The rest of the repository is a blog.

    How the parts interact: the harnesses start servers on labrpc's network,
    give each its ends and a persister, crash, restart and partition them;
    clerks call the servers through their ends; the tests record what clerks
    saw and have porcupine decide whether it is linearizable.

    ** Conventions (this file)

    Go code that can panic returns [result]: [Ret], [Panic] with its cause, or
    [OutOfFuel], for a loop cut off before it returned and for a call that
    blocks. [foldM] is a [for] loop, [l.[i]] and [l.[i <- x]] are checked
    indexing and assignment, [int64], [int32] and [uint64] wrap. Integers that
    cannot leave the range of their type (lengths, loop counters) are plain Z.
    Interfaces stand for what is promised and left open: [SortsBy] for package
    sort, [RangeOrder] for the order in which a map is ranged over. Random
    draws, names and the clock are arguments. A section under a mutex is one
    step, and the operations of a harness run one after the other. Objects
    that are shared and mutated live in explicit stores (the linked entries of
    porcupine, the byte arrays of persisters, server instances); the others
    are values.

    ** The checker

    - Bitset.v: porcupine/bitset.go. Model.v, Entries.v: model.go, and the
      entries that checker.go makes of a history. Nodes.v: its doubly linked
      list. Search.v: [checkSingle]. Checker.v: [checkParallel] and the entry
      points of porcupine.go, under a schedule of the goroutines.
      Visualization.v: [computeVisualizationData]. KvModel.v: models/kv.go.
    - History.v says what linearizable means; Operations.v and Events.v relate
      histories to the lists that are searched; Locality.v proves that a map
      is linearizable iff each of its keys is; SearchProof.v, CheckerProof.v,
      Verdicts.v and VisualizationProof.v prove the parts; Porcupine.v states
      the properties: the checker returns and its answer is the truth, for
      [KvModel] (C1) and any model (C2, C3), under every schedule and timeout
      (C4: the comments of porcupine.go fear false positives), its report can be drawn (C5); the search (C10), the dancing links
      (C11), bit sets as sets (C12), the locality of keys (C13), the types
      that [KvModel] takes (C14); an empty history blocks
      ([CheckOperations_empty_blocks]).
    - Fuel: [search_fuel] of a partition bounds the search, which visits a
      configuration once for each set of operations and state. The loops over
      the linked list and the bit set take the length of what they walk.

    ** The page

    visualization.go holds the page that shows a report, whose script is part
    of the program: it lays time out on an axis, draws the operations and
    their linearizations and answers the mouse.

    - Page.v: the script up to the layout. PageLayout.v proves what its scan
      computes, PagePrep.v what the passes before it do, and PageProof.v that
      for data that follows real time the layout meets its constraints and
      that nothing smaller does (C8).
    - PageDraw.v: the drawing and the event handlers. PagePicture.v: where
      points are drawn. PageMouse.v: the handlers implement a state of two
      views. Pages.v joins the page to the checker: what a report says is shown
      as long as doubles can tell its times apart ([times_fit], C6), and
      whatever the mouse does, the page shows one of the views (C9).
    - Html.v: how [Visualize] and [VisualizePath] put the data into the page,
      as the JSON of encoding/json; the template is an argument. Literal.v: a
      reader for JavaScript's literals, which reads back what was printed,
      numbers as the nearest doubles. HtmlProof.v: the page carries the
      report's data up to that and to UTF-8 (C7). The reader's fuel is the
      length of the text, which bounds its nesting.
    - Numbers on the page are doubles: times are rounded by [Number], and
      positions, sums of pixel sizes, are exact rationals with NaN apart.
      Loops run over lists; the inner ones count up to a given position.

    ** The network

    - Labrpc.v: labrpc.go, the network, servers and services, with
      encoding/gob as a parameter. Calls.v: [ClientEnd.Call], the accept loop
      and [processReq] as steps of any number of concurrent calls. CallsProof.v
      has the invariants, Rpc.v the properties C15 to C20: dispatch, at most
      one execution, what a true reply means and where the caller's reply
      comes from, no acknowledgement by a deleted server, success on a
      reliable network, progress.
    - ClerkNet.v: the clerks of Clerks.v as callers on this network (C21).
      HarnessCalls.v: the key-value harness on it, where a partition decides
      which calls can succeed (C22).
    - Labgob.v, LabgobProof.v: labgob.go (C23); fuel is the number of types,
      each of which is entered once.
    - Persister.v: raft/persister.go, over arrays so that sharing is visible;
      persisters cannot be told from pairs of byte strings (C24).
      Randstring.v: [randstring] of the four config.go.

    ** MapReduce

    - MapReduce.v: main/mrsequential.go, the hashing of mr/worker.go, the
      loading of main/mrworker.go and the applications of mrapps/, with runes
      and letters as parameters. MapReduceProof.v: the output of the reduce
      loop (C25), word count and the indexer (C26). Fuel is the number of
      intermediate pairs and one.
    - Timing.v, TimingProof.v: mrapps/mtiming.go, rtiming.go and jobcount.go,
      whose workers count each other through files, as steps of any number of
      workers (C27); process numbers of dead workers are not reused.
    - Coordinator.v: mr/coordinator.go, mr/rpc.go, the RPCs of mr/worker.go
      and main/mrcoordinator.go, over a machine of files and sockets.
      Drivers.v: the programs of main/ for labs that are not there, over
      whatever packages they call.

    ** The harnesses

    - Iface.v, Tables.v: the values that name ends and servers, loops that
      enable and make ends, and tables of ends.
    - Raft.v: raft/raft.go as the lab hands it out. RaftConfig.v: the servers,
      network and appliers of raft/config.go, for any Raft ([RaftOps]).
      RaftTester.v: what its tests ask ([checkOneLeader], [nCommitted], [wait],
      [one]), over an environment that moves between two steps ([Env]).
      RaftLogs.v: the appliers accept exactly safe histories (C28), also with
      snapshots (C29). RaftNet.v: which ends are enabled (C30). RaftRestart.v:
      persistence (C31). RaftTesterProof.v: what the tester's answers mean
      (C32 to C34): what a count saw while it looked, which still holds at the
      return when logs only grow ([KeepsLogs]), as in tests without snapshots.
      Fuel: [one] polls every 20 ms for two seconds at a time
      and gives up after ten, which bounds both loops.
    - Clerks.v: the clerks of shardctrler/client.go and shardkv/client.go over
      an environment ([ClerkEnv]). ClerksProof.v: what their answers mean
      ([kv_clerk_answers]) and that they settle (C35). They ask for ever: fuel
      is the number of rounds, and C35 says how many are enough.
    - KvConfig.v: kvraft/config.go for any service ([ServiceOps]), and
      kvraft/server.go. KvNet.v, KvHarness.v: its network. KvPartition.v: ends
      stay in order, [make_partition] isolates the leader (C36), whom a clerk
      can reach.
    - CtrlerConfig.v: shardctrler/config.go for any controllers
      ([CtrlerOps]). CtrlerSim.v: it does what KvConfig.v does (C37), so that
      what is proved there holds of it.
    - ShardConfig.v: shardkv/config.go for any servers ([ShardOps]), with
      shardctrler/server.go and shardkv/server.go. ShardNet.v, ShardHarness.v:
      its invariant. ShardReach.v: the servers' ends, those in the harness's
      rows and those that servers and clerks make with [make_end] (C38), the
      groups that are announced (C39) and for how many servers it works at all
      (C40).
    - Stubs.v: the messages, the clerk and the handlers that the labs leave
      to be written, as they are, and raft/util.go.

    Each theorem with hypotheses is applied to a sample by its witness.

    ** Not modelled

    The bodies that the labs leave to be written (Raft's elections and log,
    the handlers of kvraft, shardctrler and shardkv, what the MapReduce
    coordinator and worker do, kvraft's clerk) are modelled as the empty
    bodies that they are. The packages that the drivers under main/ call and
    the repository does not hold are arguments. Logging and
    processes, and the browser that runs the page (its DOM, its style sheet
    and the width of a text) are left out. encoding/gob, package sort, the
    random source and the clock are parameters. Functions that packages repeat
    ([randstring], [random_handles], [loadPlugin], [DPrintf], and [nrand],
    which is also called [makeSeed]) are not modelled for each. Memory
    exhaustion and the real-time cost of code are not considered. *)
From Stdlib Require Import ZArith Ascii Lia.
From stdpp Require Import base gmap sets list strings sorting pretty.

#[global] Open Scope Z_scope.

(** ** Outcomes of Go code

    A run either returns, panics (nil dereference, index out of range, failed
    type assertion, [panic], [log.Fatal]/[t.Fatal]), or has not finished
    within the given fuel. *)

Inductive panic :=
  | NilDeref
  | IndexOutOfRange
  | TypeAssertion
  | Panicked (msg : string)
  | Fatal (msg : string).

Inductive result (A : Type) :=
  | Ret (a : A)
  | Panic (p : panic)
  | OutOfFuel.
Arguments Ret {A} _.
Arguments Panic {A} _.
Arguments OutOfFuel {A}.

#[export] Instance panic_eq_dec : EqDecision panic.
Proof. solve_decision. Defined.
#[export] Instance result_eq_dec `{EqDecision A} : EqDecision (result A).
Proof. solve_decision. Defined.

#[export] Instance result_ret : MRet result := @Ret.
#[export] Instance result_bind : MBind result := λ A B f m,
  match m with
  | Ret a => f a
  | Panic p => Panic p
  | OutOfFuel => OutOfFuel
  end.
#[export] Instance result_fmap : FMap result := λ A B f m, m ≫= λ a, Ret (f a).

Lemma bind_ret_inv {A B} (m : result A) (f : A → result B) b :
  m ≫= f = Ret b → ∃ a, m = Ret a ∧ f a = Ret b.
Proof. destruct m; naive_solver. Qed.

(** [nonnil p] dereferences a pointer (or calls a function value): Go panics
    when it is nil. *)
Definition nonnil {A} (p : option A) : result A :=
  match p with Some a => Ret a | None => Panic NilDeref end.

Lemma nonnil_ret {A} (p : option A) a : nonnil p = Ret a ↔ p = Some a.
Proof. destruct p; naive_solver. Qed.

(** Left folds whose body can panic: Go's [for _, x := range l]. *)
Fixpoint foldM {A B} (f : A → B → result A) (a : A) (l : list B) : result A :=
  match l with
  | [] => Ret a
  | b :: l => f a b ≫= λ a', foldM f a' l
  end.

Lemma foldM_app {A B} (f : A → B → result A) a l1 l2 :
  foldM f a (l1 ++ l2) = foldM f a l1 ≫= λ a', foldM f a' l2.
Proof.
  revert a; induction l1 as [|b l1 IH]; intros a; simpl; [done|].
  destruct (f a b); simpl; auto.
Qed.

Lemma foldM_ext {A B} (f g : A → B → result A) a l :
  (∀ a b, b ∈ l → f a b = g a b) → foldM f a l = foldM g a l.
Proof.
  revert a. induction l as [|b l IH]; intros a Hfg; [done|]. cbn [foldM].
  rewrite Hfg by left. destruct (g a b); cbn [mbind result_bind]; [|done|done].
  apply IH. intros; apply Hfg; by right.
Qed.

(** A fold preserves an invariant that each of its steps preserves. *)
Lemma foldM_inv {A B} (f : A → B → result A) (P : list B → A → Prop) a l :
  P [] a →
  (∀ l1 b l2 a, l = l1 ++ b :: l2 → P l1 a → ∃ a', f a b = Ret a' ∧ P (l1 ++ [b]) a') →
  ∃ a', foldM f a l = Ret a' ∧ P l a'.
Proof.
  intros H0 Hs. induction l as [|b l IH] using rev_ind; simpl; [eauto|].
  destruct IH as (a1 & E1 & P1).
  { intros l1 b' l2 a2 -> ?. eapply Hs; [by rewrite <-(assoc_L (++))|done]. }
  rewrite foldM_app, E1; simpl.
  destruct (Hs l b [] a1) as (a2 & -> & ?); eauto.
Qed.

(** A property of the result of a fold that returns. *)
Lemma foldM_ret_inv {A B} (f : A → B → result A) (P : list B → A → Prop) a l a' :
  P [] a → (∀ l1 b a a', P l1 a → f a b = Ret a' → P (l1 ++ [b]) a') →
  foldM f a l = Ret a' → P l a'.
Proof.
  intros H0 Hs. revert a'. induction l as [|b l IH] using rev_ind; intros a'; [by intros [= <-]|].
  rewrite foldM_app. intros (a1 & E1 & E2)%bind_ret_inv. cbn [foldM] in E2.
  apply bind_ret_inv in E2 as (a2 & E2 & [= <-]). eauto.
Qed.

Lemma foldM_fuel {A B} (f : A → B → result A) a l :
  (∀ a b, f a b ≠ OutOfFuel) → foldM f a l ≠ OutOfFuel.
Proof.
  intros Hf. revert a. induction l as [|b l IH]; intros a; [done|]. cbn [foldM].
  specialize (Hf a b). destruct (f a b); cbn [mbind result_bind]; [apply IH|done|done].
Qed.

(** ** Slices: checked indexing and assignment *)

Declare Scope go_scope.
Delimit Scope go_scope with go.

(** [make([]T, n)], filled with [zero] *)
Definition go_make {A} (n : Z) (zero : A) : result (list A) :=
  if decide (0 ≤ n) then Ret (replicate (Z.to_nat n) zero) else Panic (Panicked "makeslice: len out of range").

Definition go_index {A} (l : list A) (i : Z) : result A :=
  if decide (0 ≤ i) then
    match l !! Z.to_nat i with Some x => Ret x | None => Panic IndexOutOfRange end
  else Panic IndexOutOfRange.

Definition go_update {A} (l : list A) (i : Z) (x : A) : result (list A) :=
  if decide (0 ≤ i < Z.of_nat (length l)) then Ret (<[Z.to_nat i := x]> l)
  else Panic IndexOutOfRange.

Notation "l .[ i ]" := (go_index l i)
  (at level 1, left associativity, format "l .[ i ]") : go_scope.
Notation "l .[ i <- x ]" := (go_update l i x)
  (at level 1, left associativity, format "l .[ i  <-  x ]") : go_scope.
#[global] Open Scope go_scope.

Lemma go_index_ret {A} (l : list A) i x :
  l.[i] = Ret x ↔ 0 ≤ i ∧ l !! Z.to_nat i = Some x.
Proof.
  unfold go_index. case_decide; [|split; [done|by intros [? _]]].
  destruct (l !! Z.to_nat i); naive_solver.
Qed.

Lemma go_index_in_range {A} (l : list A) i :
  0 ≤ i < Z.of_nat (length l) → ∃ x, l.[i] = Ret x.
Proof.
  intros Hi. destruct (lookup_lt_is_Some_2 l (Z.to_nat i)) as [x Hx]; [lia|].
  exists x. apply go_index_ret. split; [lia|done].
Qed.

Lemma go_index_panic {A} (l : list A) i :
  l.[i] = Panic IndexOutOfRange ↔ ¬ (0 ≤ i < Z.of_nat (length l)).
Proof.
  unfold go_index. case_decide; [|split; [lia|done]].
  destruct (l !! Z.to_nat i) eqn:E.
  - apply lookup_lt_Some in E. split; [done|lia].
  - apply lookup_ge_None in E. split; [lia|done].
Qed.

Lemma go_index_fuel {A} (l : list A) i : l.[i] ≠ OutOfFuel.
Proof. unfold go_index. case_decide; [|done]. by case_match. Qed.

Lemma go_update_ret {A} (l : list A) i x :
  0 ≤ i < Z.of_nat (length l) → l.[i <- x] = Ret (<[Z.to_nat i := x]> l).
Proof. intros. unfold go_update. by rewrite decide_True. Qed.

Lemma go_update_panic {A} (l : list A) i x :
  ¬ (0 ≤ i < Z.of_nat (length l)) → l.[i <- x] = Panic IndexOutOfRange.
Proof. intros. unfold go_update. by rewrite decide_False. Qed.

(** Ranging over the indices of a slice and reading it is ranging over its elements. *)
Lemma foldM_index {A B} (f : A → B → result A) (l : list B) a :
  foldM (λ a i, x ← l.[i]; f a x) a (seqZ 0 (Z.of_nat (length l))) = foldM f a l.
Proof.
  assert (∀ k pre, foldM (λ a i, x ← (pre ++ k).[i]; f a x) a
    (seqZ (Z.of_nat (length pre)) (Z.of_nat (length k))) = foldM f a k) as Hgen; [|apply (Hgen l [])].
  intros k. revert a. induction k as [|x k IH]; intros a pre; [done|].
  cbn [length]. rewrite Nat2Z.inj_succ, seqZ_cons by lia. cbn [foldM].
  assert ((pre ++ x :: k).[Z.of_nat (length pre)] = Ret x) as ->.
  { apply go_index_ret. split; [lia|]. rewrite Nat2Z.id. by apply list_lookup_middle. }
  cbn [mbind result_bind]. destruct (f a x) as [a'| |]; cbn [mbind result_bind]; [|done|done].
  specialize (IH a' (pre ++ [x])). rewrite <-(assoc_L (++)), length_app, Nat2Z.inj_add in IH. simpl in IH.
  rewrite Z.pred_succ. exact IH.
Qed.

(** ** Machine integers *)

Definition wrap (w : Z) (z : Z) : Z := z mod 2 ^ w.
Definition uint64 (z : Z) : Z := wrap 64 z.
(** Two's complement reading of the low [w] bits. *)
Definition swrap (w : Z) (z : Z) : Z := (z + 2 ^ (w - 1)) mod 2 ^ w - 2 ^ (w - 1).
Definition int32 (z : Z) : Z := swrap 32 z.
Definition int64 (z : Z) : Z := swrap 64 z.

Lemma uint64_range z : 0 ≤ uint64 z < 2 ^ 64.
Proof. apply Z.mod_pos_bound. lia. Qed.
Lemma uint64_small z : 0 ≤ z < 2 ^ 64 → uint64 z = z.
Proof. intros. by apply Z.mod_small. Qed.
Lemma swrap_small w z : 0 < w → - 2 ^ (w - 1) ≤ z < 2 ^ (w - 1) → swrap w z = z.
Proof.
  intros Hw Hz. unfold swrap.
  assert (2 ^ w = 2 * 2 ^ (w - 1)) as E.
  { rewrite <-Z.pow_succ_r by lia. f_equal. lia. }
  rewrite Z.mod_small; lia.
Qed.
Lemma swrap_range w z : 0 < w → - 2 ^ (w - 1) ≤ swrap w z < 2 ^ (w - 1).
Proof.
  intros Hw. unfold swrap.
  assert (2 ^ w = 2 * 2 ^ (w - 1)) as E.
  { rewrite <-Z.pow_succ_r by lia. f_equal. lia. }
  pose proof (Z.mod_pos_bound (z + 2 ^ (w - 1)) (2 ^ w)). lia.
Qed.

Lemma swrap_add w a b : 0 < w → swrap w (swrap w a + b) = swrap w (a + b).
Proof.
  intros Hw. unfold swrap. f_equal.
  replace ((a + 2 ^ (w - 1)) mod 2 ^ w - 2 ^ (w - 1) + b + 2 ^ (w - 1))
    with ((a + 2 ^ (w - 1)) mod 2 ^ w + b) by lia.
  rewrite Z.add_mod_idemp_l by lia. f_equal. lia.
Qed.

(** [strconv.Itoa] *)
Definition Itoa (n : Z) : string := pretty n.

(** A decimal digit, for what reads a number back. *)
Definition digit_value (c : ascii) : option Z :=
  let n := Z.of_N (N_of_ascii c) - 48 in if decide (0 ≤ n < 10) then Some n else None.

Lemma digit_value_char d : (d < 10)%N → digit_value (pretty_N_char d) = Some (Z.of_N d).
Proof. intros Hd. destruct d as [|p]; [done|]. do 4 (try (destruct p as [p|p|]; try reflexivity; try lia)). Qed.

Lemma go_starts x s : (0 < x)%N → ∃ c r d, pretty_N_go x s = String c r ∧ digit_value c = Some d.
Proof.
  revert s. induction (N.lt_wf_0 x) as [x _ IH]. intros s Hx. rewrite pretty_N_go_step by done.
  destruct (decide (x `div` 10 = 0)%N) as [->|Hd].
  - rewrite pretty_N_go_0. do 3 eexists. split; [done|]. apply digit_value_char, N.mod_lt. lia.
  - apply IH; [apply N.div_lt; lia|by apply N.neq_0_lt_0].
Qed.

(** Package time: durations in nanoseconds. *)
Definition Millisecond : Z := 1000000.
Definition Second : Z := 1000 * Millisecond.

(** ** Lists *)

(** [before l x y]: some occurrence of [x] precedes one of [y]. *)
Definition before {A} (l : list A) (x y : A) : Prop :=
  ∃ l1 l2 l3, l = l1 ++ x :: l2 ++ y :: l3.

Lemma before_cons_ne {A} (l : list A) z x y :
  x ≠ z → before (z :: l) x y ↔ before l x y.
Proof.
  intros Hne. split.
  - intros ([|? l1] & l2 & l3 & E); simplify_eq/=. by exists l1, l2, l3.
  - intros (l1 & l2 & l3 & ->). by exists (z :: l1), l2, l3.
Qed.
Lemma before_cons_eq {A} (l : list A) x y : y ∈ l → before (x :: l) x y.
Proof. intros (l1 & l2 & ->)%list_elem_of_split. by exists [], l1, l2. Qed.
Lemma before_elem_of {A} (l : list A) x y : before l x y → x ∈ l ∧ y ∈ l.
Proof. intros (l1 & l2 & l3 & ->). set_solver. Qed.

Lemma before_app_l {A} (l1 l2 : list A) x y : x ∈ l1 → y ∈ l2 → before (l1 ++ l2) x y.
Proof.
  intros (a & b & ->)%list_elem_of_split (c & d & ->)%list_elem_of_split.
  exists a, (b ++ c), d. by rewrite <-!(assoc_L (++)).
Qed.
Lemma before_total {A} (l : list A) x y : x ∈ l → y ∈ l → x = y ∨ before l x y ∨ before l y x.
Proof.
  intros (l1 & l2 & ->)%list_elem_of_split [Hy|[->|Hy]%elem_of_cons]%elem_of_app.
  - right. right. apply before_app_l; [done|left].
  - by left.
  - right. left. apply list_elem_of_split in Hy as (l3 & l4 & ->). by exists l1, l3, l4.
Qed.
Lemma before_NoDup_asym {A} (l : list A) x y : NoDup l → before l x y → ¬ before l y x.
Proof.
  intros Hnd (l1 & l2 & l3 & ->) (k1 & k2 & k3 & E). revert k1 E.
  induction l1 as [|a l1 IH]; intros [|b k1] E; injection E as -> E;
    simpl in Hnd; apply NoDup_cons in Hnd as [Hx Hnd].
  - set_solver.
  - apply Hx. rewrite E. set_solver.
  - set_solver.
  - by eapply IH.
Qed.
Lemma before_filter {A} (P : A → Prop) `{HP : !∀ x, Decision (P x)} (l : list A) x y :
  P x → P y → before l x y ↔ before (filter P l) x y.
Proof.
  intros Px Py. split.
  - intros (l1 & l2 & l3 & ->). exists (filter P l1), (filter P l2), (filter P l3).
    rewrite !filter_app, filter_cons_True, filter_app, filter_cons_True by done. done.
  - induction l as [|a l IH]; [by intros ([] & ? & ? & ?)|]. intros Hb.
    rewrite filter_cons in Hb. case_decide.
    + destruct Hb as ([|b l1] & l2 & l3 & E); injection E as -> E.
      * apply before_cons_eq. assert (y ∈ filter P l) as Hy by (rewrite E; set_solver).
        by apply list_elem_of_filter in Hy as [_ ?].
      * destruct IH as (k1 & k2 & k3 & ->); [rewrite E; by exists l1, l2, l3|].
        by exists (b :: k1), k2, k3.
    + destruct IH as (k1 & k2 & k3 & ->); [done|]. by exists (a :: k1), k2, k3.
Qed.

Lemma filter_nil_iff {A} (P : A → Prop) `{HP : !∀ x, Decision (P x)} (l : list A) :
  filter P l = [] ↔ ∀ x, x ∈ l → ¬ P x.
Proof.
  split.
  - intros E x Hx Px. assert (x ∈ filter P l) as Hin by (by apply list_elem_of_filter).
    rewrite E in Hin. by apply not_elem_of_nil in Hin.
  - intros Hl. induction l as [|x l IH]; [done|].
    rewrite filter_cons_False by (apply Hl; left). apply IH. intros; apply Hl; by right.
Qed.

Lemma sublist_le_filter {A} (P : A → Prop) `{HP : !∀ x, Decision (P x)} (l k : list A) :
  l `sublist_of` k → (∀ x, x ∈ l → P x) → (length l ≤ length (filter P k))%nat.
Proof.
  intros Hlk. induction Hlk as [|x l k Hlk IH|x l k Hlk IH]; intros Hl.
  - simpl. lia.
  - rewrite filter_cons_True by (apply Hl; left). simpl. apply le_n_S, IH. intros; apply Hl; by right.
  - rewrite filter_cons. specialize (IH Hl). case_decide; simpl; lia.
Qed.

Lemma filter_le_incl {A} (P : A → Prop) `{HP : !∀ x, Decision (P x)} (l k : list A) :
  NoDup k → (∀ x, x ∈ k → P x → x ∈ l) → (length (filter P k) ≤ length l)%nat.
Proof.
  intros Hnd Hin. apply submseteq_length, NoDup_submseteq; [by apply NoDup_filter|].
  intros x [? ?]%list_elem_of_filter. by apply Hin.
Qed.

Lemma filter_all {A} (P : A → Prop) `{HP : !∀ x, Decision (P x)} (l : list A) :
  (∀ x, x ∈ l → P x) → filter P l = l.
Proof.
  intros Hl. induction l as [|x l IH]; [done|].
  rewrite filter_cons_True by (apply Hl; left). f_equal. apply IH. intros; apply Hl; by right.
Qed.

Lemma filter_snd {A B} (P : B → Prop) `{HP : !∀ x, Decision (P x)}
    (Q : A * B → Prop) `{HQ : !∀ x, Decision (Q x)} (l : list (A * B)) :
  (∀ p, Q p ↔ P p.2) → (filter Q l).*2 = filter P l.*2.
Proof.
  intros HQP. induction l as [|[a b] l IH]; [done|]. rewrite filter_cons. csimpl.
  rewrite filter_cons. specialize (HQP (a, b)). simpl in HQP.
  destruct (decide (Q (a, b))), (decide (P b)); csimpl; rewrite IH; tauto.
Qed.

Lemma NoDup_fmap_count {A B} `{EqDecision B} (f : A → B) (l : list A) :
  (∀ y, (length (filter (λ x, f x = y) l) ≤ 1)%nat) → NoDup (f <$> l).
Proof.
  induction l as [|x l IH]; intros Hl; csimpl; [constructor|].
  apply NoDup_cons. split.
  - intros (x' & E & Hx')%list_elem_of_fmap. specialize (Hl (f x)).
    rewrite filter_cons_True in Hl by done. simpl in Hl.
    assert (x' ∈ filter (λ x0, f x0 = f x) l) as Hin by (by apply list_elem_of_filter).
    destruct (filter (λ x0, f x0 = f x) l); [by apply not_elem_of_nil in Hin|simpl in Hl; lia].
  - apply IH. intros y. specialize (Hl y). rewrite filter_cons in Hl.
    case_decide; simpl in *; lia.
Qed.

Lemma NoDup_fmap_eq {A B} (f : A → B) (l : list A) x y :
  NoDup (f <$> l) → x ∈ l → y ∈ l → f x = f y → x = y.
Proof.
  induction l as [|z l IH]; intros Hnd; [by intros ?%elem_of_nil|].
  rewrite fmap_cons in Hnd. apply NoDup_cons in Hnd as [Hz Hnd].
  intros [->|Hx]%elem_of_cons [->|Hy]%elem_of_cons E; [done| | |by apply IH].
  - destruct Hz. rewrite E. by apply list_elem_of_fmap_2.
  - destruct Hz. rewrite <-E. by apply list_elem_of_fmap_2.
Qed.

Lemma NoDup_app_ne {A} (l1 l2 : list A) x y :
  NoDup (l1 ++ l2) → x ∈ l1 → y ∈ l2 → x ≠ y.
Proof. intros (_ & H & _)%NoDup_app ? ? ->. by eapply H. Qed.

(** ** Package sort

    [sort.Sort] (and [sort.Slice], [sort.Strings]) promises a permutation of its
    argument in which no element is less than the one before it; the order of
    elements that compare equal is not specified. A client is proved against
    this interface; merge sort is one implementation of it. *)

Class SortsBy {A} (less : A → A → bool) (sort : list A → list A) : Prop := {
  sort_perm l : sort l ≡ₚ l;
  sort_ordered l : Sorted (λ a b, less b a = false) (sort l)
}.

(** What [Less] must satisfy: negated and flipped it is a total preorder. *)
Class WeakOrder {A} (less : A → A → bool) : Prop := {
  less_total a b : less a b = false ∨ less b a = false;
  less_trans a b c : less b a = false → less c b = false → less c a = false
}.

Section merge_sort_by.
Context {A} (less : A → A → bool).
Definition not_after (a b : A) : Prop := less b a = false.
#[export] Instance not_after_dec a b : Decision (not_after a b).
Proof. unfold not_after. apply _. Defined.

Definition sort_by (l : list A) : list A := merge_sort not_after l.

(** Neighbours end up in order even where [less] is not transitive. *)
Lemma sort_by_total : (∀ a b, less a b = false ∨ less b a = false) → SortsBy less sort_by.
Proof.
  intros Ht. assert (Total not_after) by (intros a b; destruct (Ht b a); tauto).
  split; intros l; [apply merge_sort_Permutation|apply Sorted_merge_sort; done].
Qed.

Context `{!WeakOrder less}.

Lemma sort_strongly sort `{!SortsBy less sort} l : StronglySorted (λ a b, less b a = false) (sort l).
Proof.
  apply Sorted_StronglySorted; [|apply sort_ordered].
  intros a b c ? ?. by eapply (less_trans a b c).
Qed.

#[export] Instance sort_by_SortsBy : SortsBy less sort_by.
Proof. apply sort_by_total, less_total. Qed.
End merge_sort_by.

(** The order of [sort.Strings]: byte-wise. *)
Definition string_less (a b : string) : bool := String.ltb a b.

Lemma string_less_le a b : string_less b a = false ↔ String.le a b.
Proof.
  unfold string_less, String.ltb, String.le, String.leb. rewrite (String.compare_antisym a b).
  destruct (String.compare b a); simpl; split; try done; by intros _.
Qed.

#[export] Instance string_less_WeakOrder : WeakOrder string_less.
Proof.
  split; intros *; rewrite !string_less_le.
  - destruct (total String.le a b); tauto.
  - intros ? ?. by transitivity b.
Qed.

(** ** Ranging over a map

    [for k := range m] visits the keys of a map in an unspecified order: a
    permutation of any fixed enumeration of them. *)

Class RangeOrder {K} (range : list K → list K) : Prop := range_perm l : range l ≡ₚ l.
#[export] Instance range_id {K} : RangeOrder (λ l : list K, l).
Proof. intros l. done. Qed.
#[export] Instance range_reverse {K} : RangeOrder (reverse (A := K)).
Proof. intros l. apply reverse_Permutation. Qed.

(** ** Automation *)

Create HintDb go discriminated.
#[export] Hint Resolve uint64_range : go.

(** Split a monadic equation [m ≫= f = Ret b] into its steps. *)
Ltac inv_ret :=
  repeat match goal with
  | H : mbind _ ?m = Ret _ |- _ =>
      let x := fresh "x" in let E := fresh "E" in
      apply bind_ret_inv in H as (x & E & H)
  | H : nonnil _ = Ret _ |- _ => apply nonnil_ret in H
  | H : Ret _ = Ret _ |- _ => injection H as H
  | H : Panic _ = Ret _ |- _ => discriminate H
  | H : OutOfFuel = Ret _ |- _ => discriminate H
  | H : mret _ = Ret _ |- _ => injection H as H
  end.
