(* ===== verification/Stubs.v ===== *)
(** What the labs leave to be written: the messages and the clerk of kvraft,
    and the handlers of kvraft, shardctrler and shardkv, which leave the reply
    as it is; and raft's debug printing, which is off. *)
From Stdlib Require Import ZArith Lia.
From stdpp Require Import base list strings.
From S2P Require Import Prelude.

(** ** kvraft/common.go *)

Abbreviation Err := string.
Definition OK : Err := "OK".
Definition ErrNoKey : Err := "ErrNoKey".
Definition ErrWrongLeader : Err := "ErrWrongLeader".

Record PutAppendArgs := mkPutAppendArgs { pa_Key : string; pa_Value : string; pa_Op : string }.
Record PutAppendReply := mkPutAppendReply { pr_Err : Err }.
Record GetArgs := mkGetArgs { ga_Key : string }.
Record GetReply := mkGetReply { gr_Err : Err; gr_Value : string }.

(** ** kvraft/client.go *)

Section clerk.
Context {End : Type}.
Record Clerk := mkClerk { servers : list End }.

Definition MakeClerk (servers : list End) : Clerk := mkClerk servers.
Definition Get (ck : Clerk) (key : string) : string := "".
Definition PutAppend (ck : Clerk) (key value op : string) : Clerk := ck.
Definition Put (ck : Clerk) (key value : string) : Clerk := PutAppend ck key value "Put".
Definition Append (ck : Clerk) (key value : string) : Clerk := PutAppend ck key value "Append".
End clerk.

(** [rand_Int max] is what [rand.Int] draws from [0, max). *)
Definition nrand (rand_Int : Z → Z) : Z := let max := Z.shiftl 1 62 in int64 (rand_Int max).

Lemma nrand_draws rand_Int : (∀ max, 0 < max → 0 ≤ rand_Int max < max) → nrand rand_Int = rand_Int (2^62) ∧ 0 ≤ nrand rand_Int < 2^62.
Proof.
  intros Hr. specialize (Hr (2^62) eq_refl). change (nrand rand_Int) with (int64 (rand_Int (2^62))).
  assert (int64 (rand_Int (2^62)) = rand_Int (2^62)) as -> by (apply swrap_small; lia). done.
Qed.

(** ** The handlers *)

Section handlers.
(** Servers and messages: the handlers look at none of them. *)
Context {server args reply : Type}.
Implicit Types (s : server) (a : args) (r : reply).

Definition KVServer_Get s a r : server * reply := (s, r).
Definition KVServer_PutAppend s a r : server * reply := (s, r).
Definition ShardCtrler_Join s a r : server * reply := (s, r).
Definition ShardCtrler_Leave s a r : server * reply := (s, r).
Definition ShardCtrler_Move s a r : server * reply := (s, r).
Definition ShardCtrler_Query s a r : server * reply := (s, r).
Definition ShardKV_Get s a r : server * reply := (s, r).
Definition ShardKV_PutAppend s a r : server * reply := (s, r).
End handlers.

(** ** raft/util.go *)

Definition Debug : bool := false.
(** [print] is [log.Printf]'s effect on the log. *)
Definition DPrintf {Log} (print : Log → Log) (log : Log) : Log := if Debug then print log else log.
