(* ===== verification/Drivers.v ===== *)
(** The programs of main/ for labs that the repository does not hold: diskvd,
    lockd, lockc, pbd, pbc and viewd. What they call of those labs' packages
    is an argument, over a [World] that they share.

    [Fatal] is a usage message and [os.Exit(1)]. A server's program then
    sleeps until it is killed; its [main] returns the world it sleeps in. *)
From Stdlib Require Import ZArith Lia Ascii.
From stdpp Require Import base list strings pretty.
From S2P Require Import Prelude.

(** ** strconv *)

Definition maxUint64 : Z := 2^64 - 1.
(** The loop of [ParseUint] in base 10: [None] is a syntax error; a value out
    of range ends it, whatever follows. *)
Fixpoint ParseUint_loop (n : Z) (s : string) : option Z :=
  match s with
  | "" => Some n
  | String c s =>
      d ← digit_value c;
      if decide (n >= maxUint64 / 10 + 1) then Some maxUint64
      else if decide (10 * n + d > maxUint64) then Some maxUint64
      else ParseUint_loop (10 * n + d) s
  end%string.
Definition ParseUint (s : string) : option Z := if decide (s = "") then None else ParseUint_loop 0 s.

(** The value of [strconv.ParseInt(s, 10, 64)] and of [strconv.Atoi(s)], for
    callers that do not look at the error: 0 where there is no number, the
    nearest bound where it is out of range. *)
Definition clamp (z : Z) : Z := Z.max (-2^63) (Z.min z (2^63 - 1)).
Definition ParseInt (s : string) : Z :=
  default 0 match s with
  | "" => None
  | String c r =>
      if decide (c = "+"%char) then clamp <$> ParseUint r
      else if decide (c = "-"%char) then (λ n, clamp (- n)) <$> ParseUint r
      else clamp <$> ParseUint s
  end%string.

Definition ParseBool (s : string) : bool := bool_decide (s ∈ ["1"; "t"; "T"; "TRUE"; "true"; "True"]).

(** ** diskvd *)

(** The variables of [main]. *)
Record diskvd := mkDiskvd {
  gid : Z; masters : list string; replicas : list string; me : Z; unreliable : bool; dir : string; restart : bool
}.
Definition diskvd_zero : diskvd := mkDiskvd (-1) [] [] (-1) false "" false.
Definition diskvd_usage : panic := Fatal "Usage: diskvd -g gid -m master... -s server... -i my-index -d dir".

Definition diskvd_flag (c : diskvd) (a0 a1 : string) : result diskvd :=
  if decide (a0 = "-g") then Ret (mkDiskvd (ParseInt a1) (masters c) (replicas c) (me c) (unreliable c) (dir c) (restart c))
  else if decide (a0 = "-m") then Ret (mkDiskvd (gid c) (masters c ++ [a1]) (replicas c) (me c) (unreliable c) (dir c) (restart c))
  else if decide (a0 = "-s") then Ret (mkDiskvd (gid c) (masters c) (replicas c ++ [a1]) (me c) (unreliable c) (dir c) (restart c))
  else if decide (a0 = "-i") then Ret (mkDiskvd (gid c) (masters c) (replicas c) (ParseInt a1) (unreliable c) (dir c) (restart c))
  else if decide (a0 = "-u") then Ret (mkDiskvd (gid c) (masters c) (replicas c) (me c) (ParseBool a1) (dir c) (restart c))
  else if decide (a0 = "-d") then Ret (mkDiskvd (gid c) (masters c) (replicas c) (me c) (unreliable c) a1 (restart c))
  else if decide (a0 = "-r") then Ret (mkDiskvd (gid c) (masters c) (replicas c) (me c) (unreliable c) (dir c) (ParseBool a1))
  else Panic diskvd_usage.

(** Two arguments at a time; one that is left over is not looked at. *)
Fixpoint diskvd_flags (c : diskvd) (args : list string) : result diskvd :=
  match args with
  | a0 :: a1 :: args => c ← diskvd_flag c a0 a1; diskvd_flags c args
  | _ => Ret c
  end.
Definition diskvd_incomplete (c : diskvd) : bool :=
  bool_decide (gid c < 0) || bool_decide (me c < 0) || bool_decide (Z.of_nat (length (masters c)) < 1) ||
  bool_decide (Z.of_nat (length (replicas c)) <= me c) || bool_decide (dir c = "").

Section diskvd_main.
Context {World server : Type}.
Context (StartServer : Z → list string → list string → Z → string → bool → World → result (server * World)).
Context (Setunreliable : server → bool → World → result World).
Definition diskvd_main (args : list string) (w : World) : result World :=
  c ← diskvd_flags diskvd_zero (drop 1 args);
  if diskvd_incomplete c then Panic diskvd_usage else
  '(srv, w) ← StartServer (gid c) (masters c) (replicas c) (me c) (dir c) (restart c) w;
  Setunreliable srv (unreliable c) w.
End diskvd_main.

(** ** lockd and lockc *)

Section lockservice.
Context {World clerk : Type} (StartServer : string → string → bool → World → result World).
Context (MakeClerk : string → string → World → clerk * World) (Lock Unlock : clerk → string → World → result (bool * World)).

Definition lockd_main (args : list string) (w : World) : result World :=
  match args with
  | [_; flag; primary; backup] =>
      if decide (flag = "-p") then StartServer primary backup true w
      else if decide (flag = "-b") then StartServer primary backup false w
      else Panic (Fatal "Usage: lockd -p|-b primaryport backupport")
  | _ => Panic (Fatal "Usage: lockd -p|-b primaryport backupport")
  end.

(** The reply is printed. *)
Definition lockc_main (args : list string) (w : World) : result (bool * World) :=
  match args with
  | [_; flag; primary; backup; lockname] =>
      let '(ck, w) := MakeClerk primary backup w in
      if decide (flag = "-l") then Lock ck lockname w
      else if decide (flag = "-u") then Unlock ck lockname w
      else Panic (Fatal "Usage: lockc -l|-u primaryport backupport lockname")
  | _ => Panic (Fatal "Usage: lockc -l|-u primaryport backupport lockname")
  end.
End lockservice.

(** ** viewd, pbd and pbc *)

Section pbservice.
Context {World clerk : Type} (StartViewServer : string → World → result World) (StartServer : string → string → World → result World).
Context (MakeClerk : string → string → World → clerk * World).
Context (Get : clerk → string → World → result (string * World)) (Put : clerk → string → string → World → result World).

Definition viewd_main (args : list string) (w : World) : result World :=
  match args with
  | [_; port] => StartViewServer port w
  | _ => Panic (Fatal "Usage: viewd port")
  end.

Definition pbd_main (args : list string) (w : World) : result World :=
  match args with
  | [_; viewport; myport] => StartServer viewport myport w
  | _ => Panic (Fatal "Usage: pbd viewport myport")
  end.

(** What is printed, if anything, and the world. *)
Definition pbc_main (args : list string) (w : World) : result (option string * World) :=
  match args with
  | [_; viewport; key] =>
      let '(ck, w) := MakeClerk viewport "" w in
      '(v, w) ← Get ck key w; Ret (Some v, w)
  | [_; viewport; key; value] =>
      let '(ck, w) := MakeClerk viewport "" w in
      w ← Put ck key value w; Ret (None, w)
  | _ => Panic (Fatal "Usage: pbc viewport key
       pbc viewport key value")
  end.
End pbservice.

(** ** What diskvd starts *)

Lemma ParseUint_loop_go x s : (0 < x)%N → Z.of_N x ≤ maxUint64 →
  ParseUint_loop 0 (pretty_N_go x s) = ParseUint_loop (Z.of_N x) s.
Proof.
  revert s. induction (N.lt_wf_0 x) as [x _ IH]. intros s Hx Hb. rewrite pretty_N_go_step by done.
  assert (x `mod` 10 < 10)%N as Hm by (apply N.mod_lt; lia).
  assert (ParseUint_loop (Z.of_N (x `div` 10)) (String (pretty_N_char (x `mod` 10)) s) = ParseUint_loop (Z.of_N x) s) as Hs.
  { cbn [ParseUint_loop]. rewrite digit_value_char by done. cbn [mbind option_bind].
    assert (10 * Z.of_N (x `div` 10) + Z.of_N (x `mod` 10) = Z.of_N x) as -> by (rewrite (N.div_mod x 10) at 3 by lia; lia).
    rewrite !decide_False; [done|lia|]. rewrite N2Z.inj_div.
    pose proof (Z.div_le_mono (Z.of_N x) maxUint64 10 ltac:(lia) Hb). change (Z.of_N 10) with 10. lia. }
  destruct (decide (x `div` 10 = 0)%N) as [E|Hd].
  - rewrite E in *. by rewrite pretty_N_go_0.
  - rewrite IH; [done|apply N.div_lt; lia|by apply N.neq_0_lt_0|]. pose proof (N.div_lt x 10). lia.
Qed.

Lemma ParseUint_Itoa p : Z.pos p ≤ maxUint64 → ParseUint (pretty_N_go (N.pos p) "") = Some (Z.pos p).
Proof.
  intros Hp. unfold ParseUint. rewrite decide_False.
  - by rewrite ParseUint_loop_go.
  - destruct (go_starts (N.pos p) "") as (c & r & d & -> & _); [lia|done].
Qed.

Lemma ParseInt_Itoa n : - 2^63 ≤ n < 2^63 → ParseInt (Itoa n) = n.
Proof.
  intros Hn. unfold Itoa. destruct n as [|p|p]; [done| |].
  - change (pretty (Z.pos p)) with (pretty_N_go (N.pos p) "").
    pose proof (ParseUint_Itoa p ltac:(unfold maxUint64; lia)) as Hp.
    destruct (go_starts (N.pos p) "") as (c & r & d & E & Hc); [lia|]. rewrite E in Hp |- *. unfold ParseInt.
    rewrite !decide_False by (intros ->; discriminate Hc). rewrite Hp. cbn. unfold clamp. lia.
  - change (ParseInt (String "-" (pretty_N_go (N.pos p) "")) = Z.neg p). unfold ParseInt.
    rewrite decide_False by done. rewrite decide_True by done.
    rewrite ParseUint_Itoa by (unfold maxUint64; lia). cbn. unfold clamp. lia.
Qed.

(** The command line for a configuration. *)
Definition bool_text (b : bool) : string := if b then "true" else "false".
Definition diskvd_args (c : diskvd) : list string :=
  ["-g"; Itoa (gid c)] ++ (masters c ≫= (λ m, ["-m"; m])) ++ (replicas c ≫= (λ s, ["-s"; s])) ++
  ["-i"; Itoa (me c); "-u"; bool_text (unreliable c); "-d"; dir c; "-r"; bool_text (restart c)].

Lemma diskvd_flags_masters c ms rest :
  diskvd_flags c ((ms ≫= (λ m, ["-m"; m])) ++ rest) =
  diskvd_flags (mkDiskvd (gid c) (masters c ++ ms) (replicas c) (me c) (unreliable c) (dir c) (restart c)) rest.
Proof.
  revert c. induction ms as [|m ms IH]; intros c; [by rewrite app_nil_r; destruct c|].
  etransitivity; [exact (IH (mkDiskvd (gid c) (masters c ++ [m]) (replicas c) (me c) (unreliable c) (dir c) (restart c)))|].
  cbn. by rewrite <-app_assoc.
Qed.
Lemma diskvd_flags_replicas c ss rest :
  diskvd_flags c ((ss ≫= (λ s, ["-s"; s])) ++ rest) =
  diskvd_flags (mkDiskvd (gid c) (masters c) (replicas c ++ ss) (me c) (unreliable c) (dir c) (restart c)) rest.
Proof.
  revert c. induction ss as [|m ss IH]; intros c; [by rewrite app_nil_r; destruct c|].
  etransitivity; [exact (IH (mkDiskvd (gid c) (masters c) (replicas c ++ [m]) (me c) (unreliable c) (dir c) (restart c)))|].
  cbn. by rewrite <-app_assoc.
Qed.

Definition startable (c : diskvd) : Prop :=
  0 ≤ gid c ∧ 0 ≤ me c < Z.of_nat (length (replicas c)) ∧ masters c ≠ [] ∧ dir c ≠ "".
Lemma startable_complete c : startable c ↔ diskvd_incomplete c = false.
Proof.
  unfold diskvd_incomplete, startable. rewrite !orb_false_iff, !bool_decide_eq_false.
  split; [intros (? & ? & Hm & ?); destruct (masters c); [done|]; simpl; split_and!; [lia|lia|lia|lia|done]|].
  intros ((((? & ?) & ?) & ?) & ?). split_and!; [lia..| |done]. by intros E; rewrite E in *.
Qed.

(** Any arguments lead to the usage message or to a server that can run: its
    index is that of one of the replicas. *)
Lemma diskvd_starts {World server} StartServer Setunreliable args (w : World) :
  diskvd_main (server := server) StartServer Setunreliable args w = Panic diskvd_usage ∨
  ∃ c, startable c ∧ diskvd_flags diskvd_zero (drop 1 args) = Ret c ∧
    diskvd_main StartServer Setunreliable args w =
      ('(srv, w) ← StartServer (gid c) (masters c) (replicas c) (me c) (dir c) (restart c) w; Setunreliable srv (unreliable c) w).
Proof.
  unfold diskvd_main.
  assert (∀ l c, diskvd_flags c l = Panic diskvd_usage ∨ ∃ c', diskvd_flags c l = Ret c') as Hf.
  { intros l. remember (length l) as n eqn:En. revert l En. induction (Nat.lt_wf_0 n) as [n _ IH]. intros l -> c.
    destruct l as [|a0 [|a1 l]]; [right; by eexists..|]. cbn [diskvd_flags].
    destruct (diskvd_flag c a0 a1) as [c'|p|] eqn:E; [apply (IH (length l)); simpl; lia| |]; unfold diskvd_flag in E;
      repeat case_decide; simplify_eq; by left. }
  destruct (Hf (drop 1 args) diskvd_zero) as [->|[c E]]; [by left|]. rewrite E. cbn [mbind result_bind].
  destruct (diskvd_incomplete c) eqn:Ei; [by left|]. right. exists c. split_and!; [by apply startable_complete|done|done].
Qed.

(** The command line written for a configuration starts exactly that. *)
Lemma diskvd_args_start {World server} StartServer Setunreliable name c (w : World) :
  startable c → gid c < 2^63 → me c < 2^63 →
  diskvd_main (server := server) StartServer Setunreliable (name :: diskvd_args c) w =
    ('(srv, w) ← StartServer (gid c) (masters c) (replicas c) (me c) (dir c) (restart c) w; Setunreliable srv (unreliable c) w).
Proof.
  intros Hc Hg Hm. unfold diskvd_main, diskvd_args. cbn [drop app].
  assert (diskvd_flags diskvd_zero ("-g" :: Itoa (gid c) :: (masters c ≫= (λ m, ["-m"; m])) ++ (replicas c ≫= (λ s, ["-s"; s])) ++
    ["-i"; Itoa (me c); "-u"; bool_text (unreliable c); "-d"; dir c; "-r"; bool_text (restart c)]) = Ret c) as ->.
  { destruct Hc as (Hg0 & Hm0 & _).
    change (diskvd_flags diskvd_zero ("-g" :: Itoa (gid c) :: ?l)) with (diskvd_flags (mkDiskvd (ParseInt (Itoa (gid c))) [] [] (-1) false "" false) l).
    rewrite diskvd_flags_masters, diskvd_flags_replicas. cbn [diskvd_flags]. unfold diskvd_flag.
    repeat (first [rewrite decide_False by done|rewrite decide_True by done]; cbn [mbind result_bind]).
    cbn. rewrite !ParseInt_Itoa by lia. by destruct c as [? ? ? ? [] ? []]. }
  cbn [mbind result_bind]. by apply startable_complete in Hc as ->.
Qed.

(** A number that is none is read as 0, which both [-g] and [-i] accept. *)
Example diskvd_bad_numbers : diskvd_main (server := unit) (World := list Z) (λ g _ _ i _ _ w, Ret (tt, g :: i :: w)) (λ _ _ w, Ret w)
  ["diskvd"; "-g"; "x1"; "-m"; "m"; "-s"; "s"; "-i"; "2nd"; "-d"; "/tmp"] [] = Ret [0; 0].
Proof. vm_compute. reflexivity. Qed.
