(* ===== verification/Bitset.v ===== *)
(** porcupine/bitset.go: fixed-capacity bit sets over 64-bit words.

    A [bitset] is the Go slice of words, each a [Z] in [0, 2^64). The mutating
    methods [set] and [clear] return the updated slice; they panic, as Go's
    slice indexing does, when the position is past the last word. [rep] is the
    abstract view, a finite set of positions, against which every method is
    specified. *)
From Stdlib Require Import ZArith Lia.
From stdpp Require Import base gmap sets list.
From S2P Require Import Prelude.

Abbreviation bitset := (list Z).

Definition newBitset (bits : Z) : bitset :=
  let extra := if decide (bits mod 64 ≠ 0) then 1 else 0 in
  let chunks := bits / 64 + extra in
  replicate (Z.to_nat chunks) 0.

(** [make] followed by [copy]: a fresh slice with the same words. *)
Definition clone (b : bitset) : bitset := take (length b) b.

Definition bitsetIndex (pos : Z) : Z * Z := (pos / 64, pos mod 64).

Definition set (b : bitset) (pos : Z) : result bitset :=
  let '(major, minor) := bitsetIndex pos in
  w ← b.[major]; b.[major <- Z.lor w (uint64 (Z.shiftl 1 minor))].

Definition clear (b : bitset) (pos : Z) : result bitset :=
  let '(major, minor) := bitsetIndex pos in
  w ← b.[major]; b.[major <- Z.ldiff w (uint64 (Z.shiftl 1 minor))].

Definition get (b : bitset) (pos : Z) : result bool :=
  let '(major, minor) := bitsetIndex pos in
  w ← b.[major]; Ret (bool_decide (Z.land w (uint64 (Z.shiftl 1 minor)) ≠ 0)).

(** math/bits.OnesCount64 *)
Definition OnesCount64 (v : Z) : Z :=
  Z.of_nat (length (filter (λ i, Z.testbit v i = true) (seqZ 0 64))).

Definition popcnt (b : bitset) : Z :=
  foldl (λ total v, total + OnesCount64 v) 0 b.

Definition hash (b : bitset) : Z :=
  foldl Z.lxor (uint64 (popcnt b)) b.

Fixpoint equals_from (b b2 : bitset) : bool :=
  match b, b2 with
  | x :: b, y :: b2 => if decide (x ≠ y) then false else equals_from b b2
  | _, _ => true
  end.

Definition equals (b b2 : bitset) : bool :=
  if decide (length b ≠ length b2) then false else equals_from b b2.

(** ** Abstract view *)

(** The bit at a position; [false] past the last word. *)
Definition bit (b : bitset) (pos : Z) : bool :=
  match b !! Z.to_nat (pos / 64) with
  | Some w => Z.testbit w (pos mod 64)
  | None => false
  end.

Definition word (w : Z) : Prop := 0 ≤ w < 2 ^ 64.

Definition chunks (n : Z) : Z := n / 64 + (if decide (n mod 64 ≠ 0) then 1 else 0).

(** [rep n b X]: the slice [b], made by [newBitset n], stands for the set [X]. *)
Record rep (n : Z) (b : bitset) (X : gset Z) : Prop := {
  rep_length : Z.of_nat (length b) = chunks n;
  rep_word : Forall word b;
  rep_bit : ∀ i, 0 ≤ i → bit b i = bool_decide (i ∈ X);
  rep_range : ∀ i, i ∈ X → 0 ≤ i < n
}.

Lemma chunks_bound n i : 0 ≤ i < n → 0 ≤ i / 64 < chunks n.
Proof.
  intros Hi. unfold chunks.
  pose proof (Z.div_mod n 64). pose proof (Z.mod_pos_bound n 64).
  pose proof (Z.div_mod i 64). pose proof (Z.mod_pos_bound i 64).
  case_decide; lia.
Qed.

Lemma minor_range pos : 0 ≤ pos mod 64 < 64.
Proof. apply Z.mod_pos_bound. lia. Qed.

Lemma mask_testbit pos j :
  0 ≤ j → Z.testbit (uint64 (Z.shiftl 1 (pos mod 64))) j = bool_decide (j = pos mod 64).
Proof.
  intros Hj. pose proof (minor_range pos).
  assert (uint64 (Z.shiftl 1 (pos mod 64)) = 2 ^ (pos mod 64)) as ->.
  { rewrite Z.shiftl_1_l. apply uint64_small. split; [lia|]. apply Z.pow_lt_mono_r; lia. }
  rewrite Z.pow2_bits_eqb by lia.
  destruct (Z.eqb_spec (pos mod 64) j); symmetry; [apply bool_decide_eq_true|apply bool_decide_eq_false]; lia.
Qed.

Lemma word_testbit_high w j : word w → 64 ≤ j → Z.testbit w j = false.
Proof.
  intros [? ?] ?. destruct (decide (w = 0)) as [->|]; [apply Z.bits_0|].
  apply Z.bits_above_log2; [lia|]. pose proof (Z.log2_lt_pow2 w 64). lia.
Qed.

Lemma word_of_bits w : 0 ≤ w → (∀ j, 64 ≤ j → Z.testbit w j = false) → word w.
Proof.
  intros Hw Hb. split; [done|]. destruct (decide (w < 2 ^ 64)); [done|exfalso].
  assert (0 < w) by lia.
  assert (64 ≤ Z.log2 w) by (apply Z.log2_le_pow2; lia).
  pose proof (Z.bit_log2 w). rewrite Hb in *; naive_solver.
Qed.

(** Two slices of words with the same length and the same bits are equal. *)
Lemma bitset_ext b b' :
  Forall word b → Forall word b' → length b = length b' →
  (∀ i, 0 ≤ i → bit b i = bit b' i) → b = b'.
Proof.
  intros Hw Hw' Hlen Hbit. apply list_eq_same_length with (length b); [done..|].
  intros k x y Hk Hx Hy. apply Z.bits_inj'. intros j Hj.
  rewrite Forall_forall in Hw, Hw'.
  destruct (decide (j < 64)).
  - specialize (Hbit (64 * Z.of_nat k + j)). unfold bit in Hbit.
    replace ((64 * Z.of_nat k + j) / 64) with (Z.of_nat k) in Hbit
      by (apply Z.div_unique with j; lia).
    replace ((64 * Z.of_nat k + j) mod 64) with j in Hbit
      by (apply Z.mod_unique with (Z.of_nat k); lia).
    rewrite Nat2Z.id, Hx, Hy in Hbit. apply Hbit. lia.
  - rewrite !word_testbit_high; [done| |lia| |lia];
      [apply Hw'|apply Hw]; by eapply list_elem_of_lookup_2.
Qed.

(** Writing one word in place. *)
Lemma bit_insert b k w i :
  0 ≤ i → (Z.to_nat k < length b)%nat → 0 ≤ k →
  bit (<[Z.to_nat k := w]> b) i =
    if decide (i / 64 = k) then Z.testbit w (i mod 64) else bit b i.
Proof.
  intros Hi Hk Hk0. unfold bit. assert (0 ≤ i / 64) by (apply Z.div_pos; lia).
  case_decide as E.
  - subst k. by rewrite list_lookup_insert_eq.
  - rewrite list_lookup_insert_ne by lia. done.
Qed.

Section word_update.
(** [set] and [clear] both replace the word of [pos] by a bitwise function
    of that word and the mask. *)
Context (f : Z → Z → Z) (fb : bool → bool → bool).
Hypothesis f_bits : ∀ w m j, Z.testbit (f w m) j = fb (Z.testbit w j) (Z.testbit m j).
Hypothesis f_pos : ∀ w m, 0 ≤ w → 0 ≤ m → 0 ≤ f w m.
Hypothesis fb_false : ∀ x, fb x false = x.

Let upd (b : bitset) (pos : Z) : result bitset :=
  w ← b.[pos / 64]; b.[pos / 64 <- f w (uint64 (Z.shiftl 1 (pos mod 64)))].

Lemma word_update_spec b pos :
  0 ≤ pos → pos / 64 < Z.of_nat (length b) → Forall word b →
  ∃ b', upd b pos = Ret b' ∧ length b' = length b ∧ Forall word b' ∧
    ∀ i, 0 ≤ i → bit b' i = if decide (i = pos) then fb (bit b i) true else bit b i.
Proof.
  intros Hpos Hlt Hw. assert (0 ≤ pos / 64) by (apply Z.div_pos; lia).
  destruct (go_index_in_range b (pos / 64)) as [w E]; [lia|].
  unfold upd. rewrite E. simpl. rewrite go_update_ret by lia.
  apply go_index_ret in E as [_ E].
  eexists; split; [done|]. rewrite length_insert. split; [done|].
  assert (word w) as Hword by (rewrite Forall_forall in Hw; eapply Hw, list_elem_of_lookup_2, E).
  pose proof (uint64_range (Z.shiftl 1 (pos mod 64))).
  split.
  - apply Forall_insert; [done|]. apply word_of_bits; [apply f_pos; [apply Hword|lia]|].
    intros j Hj. rewrite f_bits, mask_testbit by lia.
    rewrite bool_decide_false by (pose proof (minor_range pos); lia).
    rewrite fb_false. by apply word_testbit_high.
  - intros i Hi. rewrite bit_insert by lia. case_decide as Ei.
    + rewrite f_bits, mask_testbit by apply minor_range.
      assert (bit b i = Z.testbit w (i mod 64)) as -> by (unfold bit; by rewrite Ei, E).
      case_decide as Ei2; [subst; by rewrite bool_decide_true|].
      rewrite bool_decide_false; [by rewrite fb_false|].
      pose proof (Z.div_mod i 64). pose proof (Z.div_mod pos 64). lia.
    + rewrite decide_False by naive_solver. done.
Qed.
End word_update.

Lemma rep_index_ok n b X pos : rep n b X → 0 ≤ pos < n → pos / 64 < Z.of_nat (length b).
Proof. intros Hr Hp. rewrite (rep_length _ _ _ Hr). by apply chunks_bound. Qed.

Lemma newBitset_rep n : 0 ≤ n → rep n (newBitset n) ∅.
Proof.
  intros Hn. unfold newBitset. assert (0 ≤ chunks n) as Hc.
  { unfold chunks. pose proof (Z.div_pos n 64). case_decide; lia. }
  fold (chunks n). split.
  - rewrite length_replicate. lia.
  - apply Forall_replicate. unfold word; lia.
  - intros i _. unfold bit. destruct (replicate _ _ !! _) eqn:E; [|done].
    apply lookup_replicate in E as [-> _]. by rewrite Z.bits_0.
  - set_solver.
Qed.

Lemma clone_eq b : clone b = b.
Proof. apply firstn_all. Qed.

Lemma set_rep n b X pos :
  rep n b X → 0 ≤ pos < n → ∃ b', set b pos = Ret b' ∧ rep n b' ({[pos]} ∪ X).
Proof.
  intros Hr Hp.
  destruct (word_update_spec Z.lor orb) with (b := b) (pos := pos) as (b' & E & Hl & Hw & Hb).
  - intros. apply Z.lor_spec.
  - intros. by apply Z.lor_nonneg.
  - intros []; done.
  - lia.
  - by eapply rep_index_ok.
  - apply Hr.
  - exists b'. split; [done|]. split; [|done| |].
    + rewrite Hl. apply Hr.
    + intros i Hi. rewrite Hb, (rep_bit _ _ _ Hr) by done. case_decide.
      * rewrite orb_true_r. symmetry. apply bool_decide_true. set_solver.
      * apply bool_decide_ext. set_solver.
    + intros i [->%elem_of_singleton|Hi]%elem_of_union; [done|by apply Hr].
Qed.

Lemma clear_rep n b X pos :
  rep n b X → 0 ≤ pos < n → ∃ b', clear b pos = Ret b' ∧ rep n b' (X ∖ {[pos]}).
Proof.
  intros Hr Hp.
  destruct (word_update_spec Z.ldiff (λ x y, x && negb y)) with (b := b) (pos := pos)
    as (b' & E & Hl & Hw & Hb).
  - intros. apply Z.ldiff_spec.
  - intros. apply Z.ldiff_nonneg. tauto.
  - intros []; done.
  - lia.
  - by eapply rep_index_ok.
  - apply Hr.
  - exists b'. split; [done|]. split; [|done| |].
    + rewrite Hl. apply Hr.
    + intros i Hi. rewrite Hb, (rep_bit _ _ _ Hr) by done. case_decide.
      * rewrite andb_false_r. symmetry. apply bool_decide_false. set_solver.
      * apply bool_decide_ext. set_solver.
    + intros i. pose proof (rep_range _ _ _ Hr i). set_solver.
Qed.

Lemma get_rep n b X pos :
  rep n b X → 0 ≤ pos < n → get b pos = Ret (bool_decide (pos ∈ X)).
Proof.
  intros Hr Hp. assert (0 ≤ pos / 64) by (apply Z.div_pos; lia).
  destruct (go_index_in_range b (pos / 64)) as [w E].
  { split; [done|]. by eapply rep_index_ok. }
  unfold get. simpl. rewrite E. simpl. f_equal.
  rewrite <-(rep_bit _ _ _ Hr) by lia. apply go_index_ret in E as [_ E].
  unfold bit. rewrite E. destruct (Z.testbit w (pos mod 64)) eqn:Ebit.
  - apply bool_decide_true. intros E0. apply (f_equal (λ z, Z.testbit z (pos mod 64))) in E0.
    rewrite Z.land_spec, mask_testbit, Ebit, Z.bits_0 in E0 by apply minor_range.
    by rewrite bool_decide_true in E0.
  - apply bool_decide_false. apply dec_stable. intros Hne. apply Hne. intros E0.
    apply E0. apply Z.bits_inj'. intros j Hj. rewrite Z.land_spec, mask_testbit, Z.bits_0 by done.
    case_bool_decide; [subst; by rewrite Ebit|apply andb_false_r].
Qed.

Lemma equals_from_spec b b2 : length b = length b2 → equals_from b b2 = true ↔ b = b2.
Proof.
  revert b2; induction b as [|x b IH]; intros [|y b2] Hl; simplify_eq/=; [done|].
  case_decide; [naive_solver|]. rewrite IH by done. naive_solver.
Qed.

Lemma equals_spec b b2 : equals b b2 = true ↔ b = b2.
Proof.
  unfold equals. destruct (decide (length b ≠ length b2)) as [Hl|Hl].
  { split; [discriminate|]. intros ->. by destruct Hl. }
  apply equals_from_spec. by apply dec_stable.
Qed.

Lemma rep_inj n b b' X : rep n b X → rep n b' X → b = b'.
Proof.
  intros H1 H2. apply bitset_ext; [apply H1|apply H2| |].
  - pose proof (rep_length _ _ _ H1). pose proof (rep_length _ _ _ H2). lia.
  - intros i Hi. by rewrite (rep_bit _ _ _ H1), (rep_bit _ _ _ H2).
Qed.

Lemma rep_fun n b X X' : rep n b X → rep n b X' → X = X'.
Proof.
  intros H1 H2. apply set_eq. intros i.
  pose proof (rep_range _ _ _ H1 i) as R1. pose proof (rep_range _ _ _ H2 i) as R2.
  pose proof (rep_bit _ _ _ H1 i) as B1. pose proof (rep_bit _ _ _ H2 i) as B2.
  split; intros Hi.
  - rewrite B1 in B2 by (apply R1; done). rewrite bool_decide_true in B2 by done.
    symmetry in B2. apply bool_decide_eq_true in B2; [done|]. apply R1. done.
  - rewrite B2 in B1 by (apply R2; done). rewrite bool_decide_true in B1 by done.
    symmetry in B1. apply bool_decide_eq_true in B1; [done|]. apply R2. done.
Qed.

Lemma rep_equals n b b' X X' : rep n b X → rep n b' X' → equals b b' = true ↔ X = X'.
Proof.
  intros H1 H2. rewrite equals_spec. split; [intros <-; by eapply rep_fun|].
  intros <-. by eapply rep_inj.
Qed.

Lemma lxor_word x y : word x → word y → word (Z.lxor x y).
Proof.
  intros Hx Hy. apply word_of_bits; [apply Z.lxor_nonneg; split; intros _; [apply Hy|apply Hx]|].
  intros j Hj. by rewrite Z.lxor_spec, !word_testbit_high.
Qed.

Lemma hash_word b : Forall word b → word (hash b).
Proof.
  unfold hash. generalize (uint64_range (popcnt b)). generalize (uint64 (popcnt b)).
  induction b as [|w b IH]; intros z Hz Hw; [done|].
  inversion Hw; subst. simpl. apply IH; [by apply lxor_word|done].
Qed.

(** ** Counting *)

Lemma bit_snoc b w i : 0 ≤ i →
  bit (b ++ [w]) i = if decide (i / 64 = Z.of_nat (length b)) then Z.testbit w (i mod 64) else bit b i.
Proof.
  intros Hi. pose proof (Z.div_pos i 64 Hi). unfold bit. case_decide as E.
  - rewrite E, Nat2Z.id. by rewrite list_lookup_middle.
  - destruct (decide (Z.to_nat (i / 64) < length b)%nat).
    + by rewrite lookup_app_l.
    + rewrite lookup_app_r, (lookup_ge_None_2 b) by lia.
      destruct (_ - _)%nat eqn:Ed; [lia|done].
Qed.

Lemma length_filter_fmap {A B} (f : A → B) (P : B → Prop) `{HP : !∀ x, Decision (P x)}
    (Q : A → Prop) `{HQ : !∀ x, Decision (Q x)} (l : list A) :
  (∀ x, x ∈ l → P (f x) ↔ Q x) → length (filter P (f <$> l)) = length (filter Q l).
Proof.
  intros H. induction l as [|x l IH]; [done|]. csimpl. rewrite !filter_cons.
  rewrite (decide_ext (P (f x)) (Q x)) by (apply H; left).
  assert (length (filter P (f <$> l)) = length (filter Q l)) as IH' by (apply IH; intros; apply H; by right).
  case_decide; csimpl; by rewrite IH'.
Qed.

Lemma popcnt_bits b :
  popcnt b = Z.of_nat (length (filter (λ i, bit b i = true) (seqZ 0 (64 * Z.of_nat (length b))))).
Proof.
  induction b as [|w b IH] using rev_ind; [done|].
  unfold popcnt in *. rewrite foldl_app, IH. simpl.
  rewrite length_app, Nat2Z.inj_add, Z.mul_add_distr_l. simpl (64 * Z.of_nat (length [w])).
  rewrite seqZ_app, filter_app, length_app, Nat2Z.inj_add by lia. f_equal.
  - f_equal. rewrite <-(list_fmap_id (seqZ _ _)) at 2. symmetry.
    apply length_filter_fmap. intros i Hi%elem_of_seqZ. simpl.
    rewrite bit_snoc, decide_False; [done| |lia].
    intros E. pose proof (Z.div_lt_upper_bound i 64 (Z.of_nat (length b))). lia.
  - unfold OnesCount64. f_equal. rewrite Z.add_0_l, <-(Z.add_0_r (64 * _)), <-fmap_add_seqZ.
    symmetry. apply length_filter_fmap. intros j Hj%elem_of_seqZ.
    rewrite bit_snoc by lia.
    replace ((64 * Z.of_nat (length b) + j) / 64) with (Z.of_nat (length b))
      by (apply (Z.div_unique_pos _ _ _ j); lia).
    replace ((64 * Z.of_nat (length b) + j) mod 64) with j
      by (apply (Z.mod_unique_pos _ _ (Z.of_nat (length b))); lia).
    by rewrite decide_True.
Qed.

(** [popcnt] is the number of elements. *)
Lemma rep_popcnt n b X : 0 ≤ n → rep n b X → popcnt b = Z.of_nat (size X).
Proof.
  intros Hn [Hl _ Hb Hr]. rewrite popcnt_bits. f_equal.
  rewrite <-(size_list_to_set (C := gset Z)) by (apply NoDup_filter, NoDup_seqZ).
  f_equal. apply set_eq. intros i. rewrite elem_of_list_to_set, list_elem_of_filter, elem_of_seqZ. split.
  - intros [Hi Hin]. rewrite Hb in Hi by lia. by apply bool_decide_eq_true in Hi.
  - intros Hi. pose proof (Hr i Hi) as Hin. rewrite Hb, bool_decide_eq_true by lia. split; [done|].
    pose proof (chunks_bound n i Hin). rewrite Hl. pose proof (Z.mul_div_le i 64).
    pose proof (Z.div_mod i 64). pose proof (Z.mod_pos_bound i 64). lia.
Qed.
