(* ===== verification/Model.v ===== *)
(** porcupine/model.go: operations, events, the user-supplied sequential model
    and the defaults [fillDefault] (checker.go) puts in its nil fields.

    Go's [interface{}] values are an abstract type: [Val] for inputs and
    outputs, [State] for the states of the sequential model. A nil function
    field is [None]. [Step] and [Partition] run user code that may panic (type
    assertions), hence return a [result]. *)
From Stdlib Require Import ZArith.
From stdpp Require Import base list strings.
From S2P Require Import Prelude.

(** fmt's [%v] verb on a value of type [V]; its text is fmt's business. *)
Class Format (V : Type) := format_v : V → string.

Section types.
Context {Val : Type}.

Record Operation := mkOperation {
  ClientId : Z;
  Input : Val;
  Call : Z;
  Output : Val;
  Return : Z
}.

Inductive EventKind := CallEvent | ReturnEvent.

Record Event := mkEvent {
  ev_ClientId : Z;
  ev_Kind : EventKind;
  ev_Value : Val;
  ev_Id : Z
}.

Inductive CheckResult := Unknown | Ok | Illegal.
End types.
Arguments Operation : clear implicits.
Arguments Event : clear implicits.

#[export] Instance EventKind_eq_dec : EqDecision EventKind.
Proof. solve_decision. Defined.
#[export] Instance CheckResult_eq_dec : EqDecision CheckResult.
Proof. solve_decision. Defined.
#[export] Instance Operation_eq_dec `{EqDecision Val} : EqDecision (Operation Val).
Proof. solve_decision. Defined.

Record Model (Val State : Type) := mkModel {
  Partition : option (list (Operation Val) → result (list (list (Operation Val))));
  PartitionEvent : option (list (Event Val) → list (list (Event Val)));
  Init : State;
  Step : State → Val → Val → result (bool * State);
  Equal : option (State → State → bool);
  DescribeOperation : option (Val → Val → result string);
  DescribeState : option (State → string)
}.
Arguments mkModel {Val State}.
Arguments Partition {Val State}.
Arguments PartitionEvent {Val State}.
Arguments Init {Val State}.
Arguments Step {Val State}.
Arguments Equal {Val State}.
Arguments DescribeOperation {Val State}.
Arguments DescribeState {Val State}.

Section defaults.
Context {Val State : Type}.

Definition NoPartition (history : list (Operation Val)) : result (list (list (Operation Val))) :=
  Ret [history].

Definition NoPartitionEvent (history : list (Event Val)) : list (list (Event Val)) :=
  [history].

(** [state1 == state2] on the comparable dynamic types [State] stands for. *)
Definition ShallowEqual `{EqDecision State} (state1 state2 : State) : bool :=
  bool_decide (state1 = state2).

Definition DefaultDescribeOperation `{Format Val} (input output : Val) : result string :=
  Ret ((format_v input +:+ " -> ") +:+ format_v output).

Definition DefaultDescribeState `{Format State} (state : State) : string :=
  format_v state.

Definition fillDefault `{EqDecision State, Format Val, Format State}
    (model : Model Val State) : Model Val State :=
  {| Partition := Some (default NoPartition (Partition model));
     PartitionEvent := Some (default NoPartitionEvent (PartitionEvent model));
     Init := Init model;
     Step := Step model;
     Equal := Some (default ShallowEqual (Equal model));
     DescribeOperation := Some (default DefaultDescribeOperation (DescribeOperation model));
     DescribeState := Some (default DefaultDescribeState (DescribeState model)) |}.
End defaults.
