(* ===== verification/Entries.v ===== *)
(** porcupine/checker.go, the entry lists: [makeEntries] from operations,
    [renumber] and [convertEntries] from events. *)
From Stdlib Require Import ZArith Lia.
From stdpp Require Import base gmap sets list sorting.
From S2P Require Import Prelude Model.

Inductive entryKind := callEntry | returnEntry.
#[export] Instance entryKind_eq_dec : EqDecision entryKind.
Proof. solve_decision. Defined.

Record entry (Val : Type) := mkEntry {
  kind : entryKind;
  value : Val;
  id : Z;
  time : Z;
  clientId : Z
}.
Arguments mkEntry {Val}.
Arguments kind {Val}.
Arguments value {Val}.
Arguments id {Val}.
Arguments time {Val}.
Arguments clientId {Val}.
#[export] Instance entry_eq_dec `{EqDecision Val} : EqDecision (entry Val).
Proof. solve_decision. Defined.

Section entries.
Context {Val : Type}.
Implicit Types (history : list (Operation Val)) (events : list (Event Val)).

(** [byTime.Less] on the two elements compared. *)
Definition byTime_Less (a b : entry Val) : bool := bool_decide (time a < time b).

(** The loop of [makeEntries]: two entries per operation, [id] counting up. *)
Fixpoint operation_entries (id : Z) history : list (entry Val) :=
  match history with
  | [] => []
  | elem :: history =>
      mkEntry callEntry (Input elem) id (Call elem) (ClientId elem) ::
      mkEntry returnEntry (Output elem) id (Return elem) (ClientId elem) ::
      operation_entries (id + 1) history
  end.

Definition makeEntries (sort : list (entry Val) → list (entry Val)) history
    : list (entry Val) :=
  sort (operation_entries 0 history).

(** One iteration of [renumber]: the events so far, the map of new numbers
    and the next free number. *)
Definition renumber_step (acc : list (Event Val) * gmap Z Z * Z) (v : Event Val)
    : list (Event Val) * gmap Z Z * Z :=
  let '(e, m, id) := acc in
  match m !! ev_Id v with
  | Some r => (e ++ [mkEvent (ev_ClientId v) (ev_Kind v) (ev_Value v) r], m, id)
  | None => (e ++ [mkEvent (ev_ClientId v) (ev_Kind v) (ev_Value v) id],
             <[ev_Id v := id]> m, id + 1)
  end.

Definition renumber events : list (Event Val) :=
  (foldl renumber_step ([], ∅, 0) events).1.1.

Definition convertEntry (i : nat) (elem : Event Val) : entry Val :=
  let kind := match ev_Kind elem with ReturnEvent => returnEntry | CallEvent => callEntry end in
  mkEntry kind (ev_Value elem) (ev_Id elem) (int64 (Z.of_nat i)) (ev_ClientId elem).

Definition convertEntries events : list (entry Val) := imap convertEntry events.
End entries.

#[export] Instance byTime_WeakOrder {Val} : WeakOrder (@byTime_Less Val).
Proof.
  unfold byTime_Less. split; intros *; rewrite !bool_decide_eq_false; lia.
Qed.
