(* ===== verification/Labrpc.v ===== *)
(** labrpc/labrpc.go: the simulated network.

    The network, its servers and the calls in flight are one state; a step is
    what one goroutine does between two points where others can interfere
    (a lock, a channel, a timer, the handler). Random draws and timer firings
    are part of the step's label. The values of [interface{}] are an abstract
    type [V], the objects behind the RPC handlers a [World], and encoding/gob
    is given by three functions: what it writes for a value (and whether it
    reports an error), what decoding leaves in a variable, and zero values. *)
From Stdlib Require Import ZArith Lia Ascii.
From stdpp Require Import base gmap list strings.
From S2P Require Import Prelude.

(** encoding/gob and reflect, as labrpc uses them. *)
Record Gob (V rtype : Type) := mkGob {
  gob_encode : V → list Z * bool;
  gob_decode : list Z → V → V * bool;
  gob_zero : rtype → V
}.
Arguments mkGob {V rtype}.
Arguments gob_encode {V rtype}.
Arguments gob_decode {V rtype}.
Arguments gob_zero {V rtype}.

(** Pointers to servers. *)
Abbreviation ptr := nat.

Section labrpc.
Context {name : Type} `{Countable name}.
Context {V rtype World : Type}.

(** ** Messages *)

Record reqMsg := mkReqMsg {
  req_endname : name;
  svcMeth : string;
  argsType : rtype;
  req_args : list Z
}.

Record replyMsg := mkReplyMsg { rep_ok : bool; rep_reply : list Z }.

(** ** Services *)

(** reflect.Method of a receiver; [In(2)] is the reply argument, [m_Func] the
    method applied to the receiver, the arguments and the reply variable. *)
Record Method := mkMethod {
  m_Name : string;
  m_PkgPath : string;
  m_NumIn : Z;
  m_In2Ptr : bool;
  m_NumOut : Z;
  m_In2Elem : rtype;
  m_Func : World → V → V → result (World * V)
}.

Record Service := mkService { svc_name : string; svc_methods : gmap string Method }.

Definition suitable (method : Method) : bool :=
  negb (negb (bool_decide (m_PkgPath method = "")) ||
        negb (bool_decide (m_NumIn method = 3)) ||
        negb (m_In2Ptr method) ||
        negb (bool_decide (m_NumOut method = 0))).

(** [typeName] is the receiver's type name, [typ_methods] its method set. *)
Definition MakeService (typeName : string) (typ_methods : list Method) : Service :=
  mkService typeName
    (foldl (λ methods method,
       if suitable method then <[m_Name method := method]> methods else methods) ∅ typ_methods).

Definition Service_dispatch (gob : Gob V rtype) (svc : Service) (methname : string) (req : reqMsg)
    (w : World) : result (World * replyMsg) :=
  match svc_methods svc !! methname with
  | Some method =>
      let args := (gob_decode gob (req_args req) (gob_zero gob (argsType req))).1 in
      let replyv := gob_zero gob (m_In2Elem method) in
      '(w, replyv) ← m_Func method w args replyv;
      Ret (w, mkReplyMsg true (gob_encode gob replyv).1)
  | None => Panic (Fatal "labrpc.Service.dispatch(): unknown method")
  end.

(** ** Servers *)

Record Server := mkServer { services : gmap string Service; srv_count : Z }.

Definition MakeServer : Server := mkServer ∅ 0.

Definition AddService (rs : Server) (svc : Service) : Server :=
  mkServer (<[svc_name svc := svc]> (services rs)) (srv_count rs).

(** strings.LastIndex(s, ".") *)
Fixpoint LastIndexDot (s : string) : Z :=
  match s with
  | EmptyString => -1
  | String c s =>
      let i := LastIndexDot s in
      if decide (i = -1) then if decide (c = "."%char) then 0 else -1 else i + 1
  end.

(** [s[lo:hi]] *)
Definition go_slice_string (s : string) (lo hi : Z) : result string :=
  if decide (0 ≤ lo ≤ hi ∧ hi ≤ Z.of_nat (String.length s)) then
    Ret (String.substring (Z.to_nat lo) (Z.to_nat (hi - lo)) s)
  else Panic IndexOutOfRange.

(** The part of [Server.dispatch] under the lock: count, split, look up. *)
Definition Server_lookup (rs : Server) (req : reqMsg) : result (Server * Service * string) :=
  let rs := mkServer (services rs) (int64 (srv_count rs + 1)) in
  let dot := LastIndexDot (svcMeth req) in
  serviceName ← go_slice_string (svcMeth req) 0 dot;
  methodName ← go_slice_string (svcMeth req) (dot + 1) (Z.of_nat (String.length (svcMeth req)));
  match services rs !! serviceName with
  | Some service => Ret (rs, service, methodName)
  | None => Panic (Fatal "labrpc.Server.dispatch(): unknown service")
  end.

(** ** The network *)

Record Network := mkNetwork {
  reliable : bool;
  longDelays : bool;
  longReordering : bool;
  ends : gmap name name;
  enabled : gmap name bool;
  servers : gmap name (option ptr);
  connections : gmap name (option name);
  net_done : bool;
  net_count : Z;
  net_bytes : Z
}.

Definition MakeNetwork : Network := mkNetwork true false false ∅ ∅ ∅ ∅ false 0 0.

Definition Cleanup (rn : Network) : result Network :=
  if net_done rn then Panic (Panicked "close of closed channel") else
  Ret (mkNetwork (reliable rn) (longDelays rn) (longReordering rn) (ends rn) (enabled rn)
         (servers rn) (connections rn) true (net_count rn) (net_bytes rn)).

Definition Reliable (rn : Network) (yes : bool) : Network :=
  mkNetwork yes (longDelays rn) (longReordering rn) (ends rn) (enabled rn)
    (servers rn) (connections rn) (net_done rn) (net_count rn) (net_bytes rn).

Definition LongReordering (rn : Network) (yes : bool) : Network :=
  mkNetwork (reliable rn) (longDelays rn) yes (ends rn) (enabled rn)
    (servers rn) (connections rn) (net_done rn) (net_count rn) (net_bytes rn).

Definition LongDelays (rn : Network) (yes : bool) : Network :=
  mkNetwork (reliable rn) yes (longReordering rn) (ends rn) (enabled rn)
    (servers rn) (connections rn) (net_done rn) (net_count rn) (net_bytes rn).

(** Reading a map of a missing key gives the zero value. *)
Definition is_enabled (rn : Network) (endname : name) : bool := default false (enabled rn !! endname).
Definition connection (rn : Network) (endname : name) : option name := connections rn !! endname ≫= λ s, s.
Definition registered (rn : Network) (servername : name) : option ptr := servers rn !! servername ≫= λ s, s.

Definition readEndnameInfo (rn : Network) (endname : name)
    : bool * option name * option ptr * bool * bool :=
  let servername := connection rn endname in
  (is_enabled rn endname, servername, servername ≫= registered rn, reliable rn, longReordering rn).

Definition isServerDead (rn : Network) (endname servername : name) (server : option ptr) : bool :=
  if decide (is_enabled rn endname = false ∨ registered rn servername ≠ server) then true else false.

(** The returned [*ClientEnd] is identified by its name: its channels are the
    network's. *)
Definition MakeEnd (rn : Network) (endname : name) : result Network :=
  match ends rn !! endname with
  | Some _ => Panic (Fatal "MakeEnd: already exists")
  | None =>
      Ret (mkNetwork (reliable rn) (longDelays rn) (longReordering rn)
             (<[endname := endname]> (ends rn)) (<[endname := false]> (enabled rn))
             (servers rn) (<[endname := None]> (connections rn))
             (net_done rn) (net_count rn) (net_bytes rn))
  end.

Definition set_server (rn : Network) (servername : name) (rs : option ptr) : Network :=
  mkNetwork (reliable rn) (longDelays rn) (longReordering rn) (ends rn) (enabled rn)
    (<[servername := rs]> (servers rn)) (connections rn) (net_done rn) (net_count rn) (net_bytes rn).

Definition AddServer (rn : Network) (servername : name) (rs : ptr) : Network :=
  set_server rn servername (Some rs).

Definition DeleteServer (rn : Network) (servername : name) : Network :=
  set_server rn servername None.

Definition Connect (rn : Network) (endname servername : name) : Network :=
  mkNetwork (reliable rn) (longDelays rn) (longReordering rn) (ends rn) (enabled rn)
    (servers rn) (<[endname := Some servername]> (connections rn))
    (net_done rn) (net_count rn) (net_bytes rn).

Definition Enable (rn : Network) (endname : name) (enabled' : bool) : Network :=
  mkNetwork (reliable rn) (longDelays rn) (longReordering rn) (ends rn)
    (<[endname := enabled']> (enabled rn)) (servers rn) (connections rn)
    (net_done rn) (net_count rn) (net_bytes rn).

Definition Server_GetCount (rs : Server) : Z := srv_count rs.

(** A deleted server is a nil [*Server], whose [GetCount] dereferences it. *)
Definition GetCount (store : gmap ptr Server) (rn : Network) (servername : name) : result Z :=
  svr ← nonnil (registered rn servername);
  rs ← nonnil (store !! svr);
  Ret (Server_GetCount rs).

Definition GetTotalCount (rn : Network) : Z := net_count rn.
Definition GetTotalBytes (rn : Network) : Z := net_bytes rn.

(** [atomic.AddInt32(&rn.count, 1)] and [atomic.AddInt64(&rn.bytes, n)]. *)
Definition add_count (rn : Network) : Network :=
  mkNetwork (reliable rn) (longDelays rn) (longReordering rn) (ends rn) (enabled rn)
    (servers rn) (connections rn) (net_done rn) (int32 (net_count rn + 1)) (net_bytes rn).
Definition add_bytes (rn : Network) (n : nat) : Network :=
  mkNetwork (reliable rn) (longDelays rn) (longReordering rn) (ends rn) (enabled rn)
    (servers rn) (connections rn) (net_done rn) (net_count rn) (int64 (net_bytes rn + Z.of_nat n)).
End labrpc.
Arguments reqMsg : clear implicits.
Arguments Method : clear implicits.
Arguments Service : clear implicits.
Arguments Server : clear implicits.
Arguments Network name {_ _}.
