(* ===== verification/Calls.v ===== *)
(** labrpc/labrpc.go, the goroutines: [ClientEnd.Call], the network's accept
    loop and [processReq], step by step. *)
From Stdlib Require Import ZArith Lia.
From stdpp Require Import base gmap list strings.
From S2P Require Import Prelude Labrpc.

Section calls.
Context {name : Type} `{Countable name}.
Context {V rtype World : Type} (gob : Gob V rtype).
Abbreviation reqMsg := (reqMsg name rtype).
Abbreviation Service := (Service V rtype World).
Abbreviation Server := (Server V rtype World).
Abbreviation Network := (Network name).

(** What [processReq] keeps from [readEndnameInfo]. *)
Record route := mkRoute {
  r_servername : name;
  r_server : ptr;
  r_reliable : bool;
  r_longreordering : bool
}.

(** Where a call is: in [Call] until the network accepts it, then in
    [processReq] until a reply is sent, then back in [Call]. *)
Inductive phase :=
  | Sending
  | Accepted
  | Connected (r : route)
  | NoReply (ms : Z)
  | Waiting (r : route) (reply : option replyMsg) (serverDead : bool)
  | Delayed (ms : Z) (reply : replyMsg)
  | Replied (reply : replyMsg)
  | Returned (ok : bool).

(** The goroutine that runs [server.dispatch]. *)
Inductive handler :=
  | HIdle
  | HDispatch (server : ptr)
  | HMethod (service : Service) (methodName : string)
  | HReply (reply : replyMsg).

Record call := mkCall {
  c_req : reqMsg;
  c_phase : phase;
  c_handler : handler;
  c_reply : V
}.

Record state := mkState {
  s_net : Network;
  s_servers : gmap ptr Server;
  s_calls : gmap nat call;
  s_world : World
}.

Definition with_net (g : state) (rn : Network) : state := mkState rn (s_servers g) (s_calls g) (s_world g).
Definition with_call (g : state) (cid : nat) (c : call) : state :=
  mkState (s_net g) (s_servers g) (<[cid := c]> (s_calls g)) (s_world g).
Definition at_phase (c : call) (p : phase) : call := mkCall (c_req c) p (c_handler c) (c_reply c).
Definition at_handler (c : call) (h : handler) : call := mkCall (c_req c) (c_phase c) h (c_reply c).

(** Step labels; [cid] names a call, [r] and [i] are draws of [rand.Int] and
    [rand.Intn]. *)
Inductive event :=
  | ECall (cid : nat) (endname : name) (svcMeth : string) (argsType : rtype) (args reply : V)
  | EDone (cid : nat)
  | EAccept (cid : nat)
  | ERead (cid : nat) (r : Z)
  | EDispatch (cid : nat) (r : Z)
  | ELookup (cid : nat)
  | EMethod (cid : nat)
  | EReply (cid : nat)
  | ETick (cid : nat)
  | EFinish (cid : nat) (r i j : Z)
  | EFire (cid : nat)
  | EReturn (cid : nat)
  | EMakeEnd (endname : name)
  | EAddServer (servername : name) (rs : ptr)
  | EDeleteServer (servername : name)
  | EConnect (endname servername : name)
  | EEnable (endname : name) (yes : bool)
  | EReliable (yes : bool)
  | ELongReordering (yes : bool)
  | ELongDelays (yes : bool)
  | ECleanup.

(** A step that cannot be taken in this state. *)
Definition blocked {A} : result A := OutOfFuel.

Definition failure : replyMsg := mkReplyMsg false [].

(** [ClientEnd.Call], up to its first [select]. *)
Definition start_call (g : state) (cid : nat) (endname : name) (meth : string) (ty : rtype)
    (args reply : V) : result state :=
  match s_calls g !! cid, ends (s_net g) !! endname with
  | None, Some _ =>
      let '(bytes, err) := gob_encode gob args in
      if (err : bool) then Panic (Panicked "Encode") else
      Ret (with_call g cid (mkCall (mkReqMsg endname meth ty bytes) Sending HIdle reply))
  | _, _ => blocked
  end.

(** [processReq], from its start to the first timer. *)
Definition read_info (g : state) (cid : nat) (c : call) (r : Z) : result state :=
  let '(enabled, servername, server, reliable, longreordering) :=
    readEndnameInfo (s_net g) (req_endname (c_req c)) in
  match enabled, servername, server with
  | true, Some servername, Some server =>
      Ret (with_call g cid (at_phase c (Connected (mkRoute servername server reliable longreordering))))
  | _, _, _ =>
      let ms := if longDelays (s_net g) then Z.rem r 7000 else Z.rem r 100 in
      Ret (with_call g cid (at_phase c (NoReply ms)))
  end.

(** The random drop of the request, or the start of the handler goroutine. *)
Definition dispatch_or_drop (g : state) (cid : nat) (c : call) (rt : route) (r : Z) : state :=
  if decide (r_reliable rt = false ∧ Z.rem r 1000 < 100) then
    with_call g cid (at_phase c (Replied failure))
  else
    with_call g cid (at_phase (at_handler c (HDispatch (r_server rt))) (Waiting rt None false)).

(** [server.dispatch(req)]: under the server's lock, then the method. *)
Definition handler_lookup (g : state) (cid : nat) (c : call) (server : ptr) : result state :=
  rs ← nonnil (s_servers g !! server);
  '(rs, service, methodName) ← Server_lookup rs (c_req c);
  Ret (mkState (s_net g) (<[server := rs]> (s_servers g))
         (<[cid := at_handler c (HMethod service methodName)]> (s_calls g)) (s_world g)).

Definition handler_method (g : state) (cid : nat) (c : call) (service : Service) (methodName : string)
    : result state :=
  '(w, reply) ← Service_dispatch gob service methodName (c_req c) (s_world g);
  Ret (mkState (s_net g) (s_servers g) (<[cid := at_handler c (HReply reply)]> (s_calls g)) w).

(** After the loop: the final check and the reply. *)
Definition finish_req (g : state) (cid : nat) (c : call) (rt : route) (replyOK : option replyMsg)
    (r i j : Z) : state :=
  let serverDead := isServerDead (s_net g) (req_endname (c_req c)) (r_servername rt) (Some (r_server rt)) in
  match replyOK with
  | None => with_call g cid (at_phase c (Replied failure))
  | Some reply =>
      if serverDead then with_call g cid (at_phase c (Replied failure))
      else if decide (r_reliable rt = false ∧ Z.rem r 1000 < 100) then
        with_call g cid (at_phase c (Replied failure))
      else if decide (r_longreordering rt = true ∧ i < 600) then
        with_call g cid (at_phase c (Delayed (200 + j) reply))
      else
        with_call (with_net g (add_bytes (s_net g) (List.length (rep_reply reply)))) cid
          (at_phase c (Replied reply))
  end.

(** [ClientEnd.Call], from the reply on. *)
Definition return_call (g : state) (cid : nat) (c : call) (rep : replyMsg) : result state :=
  if rep_ok rep then
    let '(v, err) := gob_decode gob (rep_reply rep) (c_reply c) in
    if (err : bool) then Panic (Fatal "ClientEnd.Call(): decode reply") else
    Ret (with_call g cid (mkCall (c_req c) (Returned true) (c_handler c) v))
  else Ret (with_call g cid (at_phase c (Returned false))).

(** The steps of an existing call. *)
Definition call_step (g : state) (cid : nat) (c : call) (e : event) : result state :=
  match e, c_phase c with
  | EDone _, Sending =>
      if net_done (s_net g) then Ret (with_call g cid (at_phase c (Returned false))) else blocked
  | EAccept _, Sending =>
      let rn := add_bytes (add_count (s_net g)) (List.length (req_args (c_req c))) in
      Ret (with_call (with_net g rn) cid (at_phase c Accepted))
  | ERead _ r, Accepted => read_info g cid c r
  | EDispatch _ r, Connected rt => Ret (dispatch_or_drop g cid c rt r)
  | ELookup _, _ =>
      match c_handler c with HDispatch server => handler_lookup g cid c server | _ => blocked end
  | EMethod _, _ =>
      match c_handler c with HMethod service m => handler_method g cid c service m | _ => blocked end
  | EReply _, Waiting rt None false =>
      match c_handler c with
      | HReply reply => Ret (with_call g cid (at_phase c (Waiting rt (Some reply) false)))
      | _ => blocked
      end
  | ETick _, Waiting rt None false =>
      let dead := isServerDead (s_net g) (req_endname (c_req c)) (r_servername rt) (Some (r_server rt)) in
      Ret (with_call g cid (at_phase c (Waiting rt None dead)))
  | EFinish _ r i j, Waiting rt (Some reply) _ => Ret (finish_req g cid c rt (Some reply) r i j)
  | EFinish _ r i j, Waiting rt None true => Ret (finish_req g cid c rt None r i j)
  | EFire _, NoReply _ => Ret (with_call g cid (at_phase c (Replied failure)))
  | EFire _, Delayed _ reply =>
      Ret (with_call (with_net g (add_bytes (s_net g) (List.length (rep_reply reply)))) cid
             (at_phase c (Replied reply)))
  | EReturn _, Replied rep => return_call g cid c rep
  | _, _ => blocked
  end.

Definition event_call (e : event) : option nat :=
  match e with
  | EDone cid | EAccept cid | ERead cid _ | EDispatch cid _ | ELookup cid | EMethod cid
  | EReply cid | ETick cid | EFinish cid _ _ _ | EFire cid | EReturn cid => Some cid
  | _ => None
  end.

(** [rand.Int()] is not negative, [rand.Intn(n)] is in [0, n). *)
Definition draws_ok (e : event) : bool :=
  match e with
  | ERead _ r | EDispatch _ r => bool_decide (0 ≤ r)
  | EFinish _ r i j => bool_decide (0 ≤ r ∧ 0 ≤ i < 900 ∧ 0 ≤ j < 2000)
  | _ => true
  end.

Definition net_step (g : state) (e : event) : result state :=
  match e with
  | ECall cid endname meth ty args reply => start_call g cid endname meth ty args reply
  | EMakeEnd endname => rn ← MakeEnd (s_net g) endname; Ret (with_net g rn)
  | EAddServer s rs => Ret (with_net g (AddServer (s_net g) s rs))
  | EDeleteServer s => Ret (with_net g (DeleteServer (s_net g) s))
  | EConnect e s => Ret (with_net g (Connect (s_net g) e s))
  | EEnable e yes => Ret (with_net g (Enable (s_net g) e yes))
  | EReliable yes => Ret (with_net g (Reliable (s_net g) yes))
  | ELongReordering yes => Ret (with_net g (LongReordering (s_net g) yes))
  | ELongDelays yes => Ret (with_net g (LongDelays (s_net g) yes))
  | ECleanup => rn ← Cleanup (s_net g); Ret (with_net g rn)
  | _ => blocked
  end.

Definition step (g : state) (e : event) : result state :=
  if draws_ok e then
    match event_call e with
    | Some cid =>
        match s_calls g !! cid with Some c => call_step g cid c e | None => blocked end
    | None => net_step g e
    end
  else blocked.

Definition run (g : state) (events : list event) : result state := foldM step g events.
End calls.
Arguments call : clear implicits.
Arguments route : clear implicits.
Arguments phase : clear implicits.
Arguments handler : clear implicits.
Arguments event : clear implicits.
Arguments state name {_ _} V rtype World.
