(* ===== verification/CallsProof.v ===== *)
(** The transitions of a call, as a relation, and its invariants. *)
From Stdlib Require Import ZArith Lia.
From stdpp Require Import base gmap list strings.
From S2P Require Import Prelude Labrpc Calls.

Section proof.
Context {name : Type} `{Countable name}.
Context {V rtype World : Type} (gob : Gob V rtype).
Abbreviation call := (call name V rtype World).
Abbreviation state := (state name V rtype World).
Abbreviation event := (event name V rtype).
Implicit Types (g : state) (c : call) (e : event) (cid : nat) (rt : route name).

Abbreviation dead g c rt :=
  (isServerDead (s_net g) (req_endname (c_req c)) (r_servername rt) (Some (r_server rt))).

(** [trans g cid c e p h]: by [e], call [cid], which is [c], moves to phase [p]
    and its handler goroutine to [h]. *)
Inductive trans g cid c : event → phase name → handler V rtype World → Prop :=
  | T_done : c_phase c = Sending → net_done (s_net g) = true →
      trans g cid c (EDone cid) (Returned false) (c_handler c)
  | T_accept : c_phase c = Sending → trans g cid c (EAccept cid) Accepted (c_handler c)
  | T_connected r rt : c_phase c = Accepted → is_enabled (s_net g) (req_endname (c_req c)) = true →
      connection (s_net g) (req_endname (c_req c)) = Some (r_servername rt) →
      registered (s_net g) (r_servername rt) = Some (r_server rt) →
      r_reliable rt = reliable (s_net g) → r_longreordering rt = longReordering (s_net g) →
      trans g cid c (ERead cid r) (Connected rt) (c_handler c)
  | T_noreply r : c_phase c = Accepted →
      (is_enabled (s_net g) (req_endname (c_req c)) = false ∨
       connection (s_net g) (req_endname (c_req c)) ≫= registered (s_net g) = None) →
      trans g cid c (ERead cid r)
        (NoReply (if longDelays (s_net g) then Z.rem r 7000 else Z.rem r 100)) (c_handler c)
  | T_drop r rt : c_phase c = Connected rt → r_reliable rt = false →
      trans g cid c (EDispatch cid r) (Replied failure) (c_handler c)
  | T_dispatch r rt : c_phase c = Connected rt →
      trans g cid c (EDispatch cid r) (Waiting rt None false) (HDispatch (r_server rt))
  | T_lookup p svc m rs rs' : c_handler c = HDispatch p → s_servers g !! p = Some rs →
      Server_lookup rs (c_req c) = Ret (rs', svc, m) →
      trans g cid c (ELookup cid) (c_phase c) (HMethod svc m)
  | T_method svc m w reply : c_handler c = HMethod svc m →
      Service_dispatch gob svc m (c_req c) (s_world g) = Ret (w, reply) →
      trans g cid c (EMethod cid) (c_phase c) (HReply reply)
  | T_reply rt reply : c_phase c = Waiting rt None false → c_handler c = HReply reply →
      trans g cid c (EReply cid) (Waiting rt (Some reply) false) (c_handler c)
  | T_tick rt : c_phase c = Waiting rt None false →
      trans g cid c (ETick cid) (Waiting rt None (dead g c rt)) (c_handler c)
  | T_fail r i j rt reply d : c_phase c = Waiting rt reply d →
      (reply = None ∧ d = true ∨ dead g c rt = true ∨ r_reliable rt = false) →
      trans g cid c (EFinish cid r i j) (Replied failure) (c_handler c)
  | T_delay r i j rt reply d : c_phase c = Waiting rt (Some reply) d → dead g c rt = false →
      r_longreordering rt = true →
      trans g cid c (EFinish cid r i j) (Delayed (200 + j) reply) (c_handler c)
  | T_send r i j rt reply d : c_phase c = Waiting rt (Some reply) d → dead g c rt = false →
      trans g cid c (EFinish cid r i j) (Replied reply) (c_handler c)
  | T_timeout ms : c_phase c = NoReply ms → trans g cid c (EFire cid) (Replied failure) (c_handler c)
  | T_fire ms reply : c_phase c = Delayed ms reply →
      trans g cid c (EFire cid) (Replied reply) (c_handler c)
  | T_true reply : c_phase c = Replied reply → rep_ok reply = true →
      trans g cid c (EReturn cid) (Returned true) (c_handler c)
  | T_false reply : c_phase c = Replied reply → rep_ok reply = false →
      trans g cid c (EReturn cid) (Returned false) (c_handler c).

(** A call's step leaves the routing of the network and the other calls alone. *)
Definition same_routing g g' : Prop :=
  (∀ x, is_enabled (s_net g') x = is_enabled (s_net g) x) ∧
  (∀ x, registered (s_net g') x = registered (s_net g) x) ∧
  (∀ x, connection (s_net g') x = connection (s_net g) x) ∧
  net_done (s_net g') = net_done (s_net g).

(** The new state of the call, by the transition [tr]. *)
Tactic Notation "moves" open_constr(c') "by" tactic3(tr) :=
  exists c'; split_and!; [cbn [c_phase c_handler at_phase at_handler]; tr | reflexivity | reflexivity | unfold same_routing; split_and!; intros; reflexivity | intros; done].

Lemma read_info_trans g cid c r g' : c_phase c = Accepted → read_info g cid c r = Ret g' →
  ∃ c', trans g cid c (ERead cid r) (c_phase c') (c_handler c') ∧ c_req c' = c_req c ∧
    s_calls g' = <[cid := c']> (s_calls g) ∧ same_routing g g' ∧
    (c_phase c' ≠ Returned true → c_reply c' = c_reply c).
Proof.
  intros Ep. unfold read_info, readEndnameInfo. intros E.
  destruct (is_enabled (s_net g) (req_endname (c_req c))) eqn:En.
  2: { injection E as <-. moves (at_phase c (NoReply _)) by (apply T_noreply; auto). }
  destruct (connection (s_net g) (req_endname (c_req c))) as [s|] eqn:Ec; simpl in E.
  2: { injection E as <-. moves (at_phase c (NoReply _)) by (apply T_noreply; [done|right; by rewrite Ec]). }
  destruct (registered (s_net g) s) as [p|] eqn:Er; injection E as <-.
  - moves (at_phase c (Connected (mkRoute s p (reliable (s_net g)) (longReordering (s_net g))))) by (by apply T_connected).
  - moves (at_phase c (NoReply _)) by (apply T_noreply; [done|right; by rewrite Ec]).
Qed.

Lemma finish_req_trans g cid c rt reply d r i j : c_phase c = Waiting rt reply d →
  (reply = None → d = true) →
  ∃ c', trans g cid c (EFinish cid r i j) (c_phase c') (c_handler c') ∧ c_req c' = c_req c ∧
    s_calls (finish_req g cid c rt reply r i j) = <[cid := c']> (s_calls g) ∧
    same_routing g (finish_req g cid c rt reply r i j) ∧
    (c_phase c' ≠ Returned true → c_reply c' = c_reply c).
Proof.
  intros Ep Hd. unfold finish_req. destruct reply as [reply|].
  2: { moves (at_phase c (Replied failure)) by (eapply T_fail; eauto). }
  destruct (isServerDead _ _ _ _) eqn:Edead.
  { moves (at_phase c (Replied failure)) by (eapply T_fail; eauto). }
  case_decide as Hr; [moves (at_phase c (Replied failure)) by (eapply T_fail; [done|tauto])|].
  case_decide as Hl; [moves (at_phase c (Delayed _ reply)) by (eapply T_delay; [done|done|tauto])|].
  moves (at_phase c (Replied reply)) by (by eapply T_send).
Qed.

Lemma call_step_trans g cid c e g' :
  event_call e = Some cid → call_step gob g cid c e = Ret g' →
  ∃ c', trans g cid c e (c_phase c') (c_handler c') ∧ c_req c' = c_req c ∧
    s_calls g' = <[cid := c']> (s_calls g) ∧ same_routing g g' ∧
    (c_phase c' ≠ Returned true → c_reply c' = c_reply c).
Proof.
  intros He. destruct e; try discriminate He; injection He as ->; unfold call_step; intros E.
  - destruct (c_phase c) eqn:Ep; try discriminate E.
    destruct (net_done (s_net g)) eqn:En; [|done]. injection E as <-.
    moves (at_phase c (Returned false)) by (by apply T_done).
  - destruct (c_phase c) eqn:Ep; try discriminate E. injection E as <-.
    moves (at_phase c Accepted) by (by apply T_accept).
  - destruct (c_phase c) eqn:Ep; try discriminate E. by apply read_info_trans.
  - destruct (c_phase c) as [| |rt| | | | |] eqn:Ep; try discriminate E. unfold dispatch_or_drop in E.
    case_decide as Hd; injection E as <-.
    + moves (at_phase c (Replied failure)) by (eapply T_drop; [done|tauto]).
    + moves (at_phase (at_handler c (HDispatch (r_server rt))) (Waiting rt None false)) by (by apply T_dispatch).
  - destruct (c_handler c) as [|server| |] eqn:Eh; try (by destruct (c_phase c)).
    assert (handler_lookup g cid c server = Ret g') as E' by (by destruct (c_phase c)).
    unfold handler_lookup in E'. apply bind_ret_inv in E' as (rs & Ers & E').
    apply bind_ret_inv in E' as ([[rs' svc] m] & El & [= <-]).
    assert (s_servers g !! server = Some rs) as Es by (destruct (s_servers g !! server); [by injection Ers as <-|done]).
    moves (at_handler c (HMethod svc m)) by (by eapply T_lookup).
  - destruct (c_handler c) as [| |svc m|] eqn:Eh; try (by destruct (c_phase c)).
    assert (handler_method gob g cid c svc m = Ret g') as E' by (by destruct (c_phase c)).
    unfold handler_method in E'. apply bind_ret_inv in E' as ([w reply] & Ed & [= <-]).
    moves (at_handler c (HReply reply)) by (by eapply T_method).
  - destruct (c_phase c) as [| | | |rt [?|] []| | |] eqn:Ep; try discriminate E.
    destruct (c_handler c) as [| | |reply] eqn:Eh; try discriminate E. injection E as <-.
    moves (at_phase c (Waiting rt (Some reply) false)) by (by apply T_reply).
  - destruct (c_phase c) as [| | | |rt [?|] []| | |] eqn:Ep; try discriminate E. injection E as <-.
    moves (at_phase c (Waiting rt None _)) by (by apply T_tick).
  - destruct (c_phase c) as [| | | |rt reply d| | |] eqn:Ep; try discriminate E.
    assert (g' = finish_req g cid c rt reply r i j ∧ (reply = None → d = true)) as [-> Hd].
    { destruct reply; [by injection E|]. destruct d; [|done]. by injection E. }
    by eapply finish_req_trans.
  - destruct (c_phase c) as [| | |ms| |ms reply| |] eqn:Ep; try discriminate E; injection E as <-.
    + moves (at_phase c (Replied failure)) by (by eapply T_timeout).
    + moves (at_phase c (Replied reply)) by (by eapply T_fire).
  - destruct (c_phase c) as [| | | | | |reply|] eqn:Ep; try discriminate E. unfold return_call in E.
    destruct (rep_ok reply) eqn:Eok.
    + destruct (gob_decode gob (rep_reply reply) (c_reply c)) as [v []]; [done|]. injection E as <-.
      moves (mkCall (c_req c) (Returned true) (c_handler c) v) by (by eapply T_true).
    + injection E as <-. moves (at_phase c (Returned false)) by (by eapply T_false).
Qed.

Definition is_accept e : bool := match e with EAccept _ => true | _ => false end.

(** No call changes the network's flags, and only its acceptance the count. *)
Lemma call_step_flags g cid c e g' :
  event_call e = Some cid → call_step gob g cid c e = Ret g' →
  reliable (s_net g') = reliable (s_net g) ∧
  net_count (s_net g') = if is_accept e then int32 (net_count (s_net g) + 1) else net_count (s_net g).
Proof.
  intros He. unfold call_step, read_info, dispatch_or_drop, handler_lookup, handler_method, finish_req, return_call.
  intros E. destruct e; try discriminate He; destruct (c_phase c); try done;
    repeat match goal with
    | E : Ret _ = Ret _ |- _ => injection E as <-
    | E : mbind _ _ = Ret _ |- _ => apply bind_ret_inv in E as (? & _ & E)
    | E : (let '(_, _) := ?x in _) = Ret _ |- _ => destruct x
    | E : context [match ?x with _ => _ end] |- _ => destruct x; try discriminate E
    end; try (by split); repeat case_match; by split.
Qed.

Lemma step_count g e g' : step gob g e = Ret g' →
  net_count (s_net g') = if is_accept e then int32 (net_count (s_net g) + 1) else net_count (s_net g).
Proof.
  unfold step. destruct (draws_ok e); [|done]. destruct (event_call e) as [cid|] eqn:He.
  - destruct (s_calls g !! cid) as [c|]; [|done]. intros E. by eapply call_step_flags.
  - intros E. destruct e; try discriminate He; simpl in E |- *; try (by injection E as <-).
    + unfold start_call in E. destruct (s_calls g !! cid); [done|].
      destruct (ends (s_net g) !! endname); [|done]. destruct (gob_encode gob args) as [bytes []]; [done|].
      by injection E as <-.
    + apply bind_ret_inv in E as (rn & Em & [= <-]). unfold MakeEnd in Em.
      destruct (ends (s_net g) !! endname); [done|]. by injection Em as <-.
    + apply bind_ret_inv in E as (rn & Em & [= <-]). unfold Cleanup in Em.
      destruct (net_done (s_net g)); [done|]. by injection Em as <-.
Qed.

(** How one step changes one call. *)
Lemma step_call g e g' cid : step gob g e = Ret g' →
  (s_calls g' !! cid = s_calls g !! cid ∧ event_call e ≠ Some cid) ∨
  (∃ c, s_calls g !! cid = None ∧ event_call e = None ∧
     s_calls g' !! cid = Some c ∧ c_phase c = Sending ∧ c_handler c = HIdle) ∨
  (∃ c c', s_calls g !! cid = Some c ∧ event_call e = Some cid ∧ s_calls g' !! cid = Some c' ∧
     trans g cid c e (c_phase c') (c_handler c') ∧ c_req c' = c_req c ∧ same_routing g g' ∧
     (c_phase c' ≠ Returned true → c_reply c' = c_reply c)).
Proof.
  unfold step. destruct (draws_ok e); [|done]. destruct (event_call e) as [cid'|] eqn:He.
  - destruct (s_calls g !! cid') as [c|] eqn:Ec; [|done]. intros E.
    destruct (call_step_trans g cid' c e g' He E) as (c' & Ht & Hq & Hcalls & Hroute & Hv).
    destruct (decide (cid' = cid)) as [->|Hne].
    + right. right. exists c, c'. rewrite Hcalls, lookup_insert_eq. by split_and!.
    + left. rewrite Hcalls, lookup_insert_ne by done. split; congruence.
  - intros E. destruct e; try discriminate He; simpl in E; try (injection E as <-; by left).
    + unfold start_call in E. destruct (s_calls g !! cid0) eqn:E0; [done|].
      destruct (ends (s_net g) !! endname); [|done]. destruct (gob_encode gob args) as [bytes []]; [done|].
      injection E as <-. simpl. destruct (decide (cid0 = cid)) as [->|Hne].
      * right. left. rewrite lookup_insert_eq. by eexists.
      * left. by rewrite lookup_insert_ne.
    + apply bind_ret_inv in E as (rn & _ & [= <-]). by left.
    + apply bind_ret_inv in E as (rn & _ & [= <-]). by left.
Qed.

(** ** What the handler goroutine has done *)

Definition phase_ok (p : phase name) (h : handler V rtype World) : Prop :=
  match p with
  | Sending | Accepted | Connected _ | NoReply _ => h = HIdle
  | Waiting _ (Some reply) _ => h = HReply reply
  | Waiting _ None _ => h ≠ HIdle
  | Delayed _ reply => h = HReply reply
  | Replied reply => rep_ok reply = true → h = HReply reply
  | Returned ok => ok = true → ∃ reply, h = HReply reply
  end ∧ ∀ reply, h = HReply reply → rep_ok reply = true.

Lemma Service_dispatch_ok svc m (req : reqMsg name rtype) (w w' : World) reply :
  Service_dispatch gob svc m req w = Ret (w', reply) → rep_ok reply = true.
Proof.
  unfold Service_dispatch. destruct (svc_methods svc !! m); [|done]. intros E.
  by apply bind_ret_inv in E as ([w1 v] & _ & [= _ <-]).
Qed.

Lemma trans_ok g cid c e p h :
  phase_ok (c_phase c) (c_handler c) → trans g cid c e p h → phase_ok p h.
Proof.
  intros [Hi Hr] Ht. destruct Ht as [Ep|Ep|?? Ep|? Ep|?? Ep|?? Ep|????? Eh ??|???? Eh Ed|?? Ep Eh|? Ep|?????? Ep|?????? Ep
    |?????? Ep|? Ep|?? Ep|? Ep|? Ep]; try rewrite Ep in Hi; split; try done.
  - rewrite Eh in Hi. destruct (c_phase c) as [| | | |? []| | |]; try done.
    + intros Hok. by specialize (Hi Hok).
    + intros Hok. by destruct (Hi Hok).
  - rewrite Eh in Hi. destruct (c_phase c) as [| | | |? []| | |]; try done.
    + intros Hok. by specialize (Hi Hok).
    + intros Hok. by destruct (Hi Hok).
  - intros ? [= <-]. by eapply Service_dispatch_ok.
  - intros _. exists reply. by apply Hi.
Qed.

(** How often the handler of a call has run. *)
Definition is_method cid e : bool := match e with EMethod cid' => bool_decide (cid' = cid) | _ => false end.
Definition executions cid (events : list event) : nat :=
  List.length (List.filter (is_method cid) events).
Definition replied (h : handler V rtype World) : nat := match h with HReply _ => 1 | _ => 0 end.

Lemma trans_executions g cid c e p h :
  phase_ok (c_phase c) (c_handler c) → trans g cid c e p h →
  replied h = (replied (c_handler c) + if is_method cid e then 1 else 0)%nat.
Proof.
  intros [Hi _] Ht. destruct Ht as [Ep|Ep|?? Ep|? Ep|?? Ep|?? Ep|????? Eh ??|???? Eh Ed|?? Ep Eh|? Ep|?????? Ep|?????? Ep
    |?????? Ep|? Ep|?? Ep|? Ep|? Ep]; simpl; try lia; try (rewrite Ep in Hi).
  - by rewrite Hi.
  - by rewrite Eh.
  - rewrite Eh. by rewrite bool_decide_true.
Qed.

(** ** Traces *)

Lemma run_snoc g events e : run gob g (events ++ [e]) = (g' ← run gob g events; step gob g' e).
Proof. unfold run. rewrite foldM_app. destruct (foldM _ g events); simpl; [|done..]. by destruct (step gob a e). Qed.

Lemma executions_snoc cid events e :
  executions cid (events ++ [e]) = (executions cid events + if is_method cid e then 1 else 0)%nat.
Proof. unfold executions. rewrite List.filter_app, length_app. simpl. by destruct (is_method cid e). Qed.

Definition fresh g0 : Prop := s_calls g0 = ∅.

Lemma run_handlers g0 events g : fresh g0 → run gob g0 events = Ret g →
  ∀ cid, match s_calls g !! cid with
         | None => executions cid events = 0%nat
         | Some c => phase_ok (c_phase c) (c_handler c) ∧ executions cid events = replied (c_handler c)
         end.
Proof.
  intros H0. revert g. induction events as [|e events IH] using rev_ind; intros g E cid.
  { injection E as <-. by rewrite H0, lookup_empty. }
  rewrite run_snoc in E. apply bind_ret_inv in E as (g1 & E1 & E). specialize (IH g1 E1 cid).
  rewrite executions_snoc.
  destruct (step_call g1 e g cid E) as [[-> Hne]|[(c & Ec & He & -> & Ep & Eh)|(c & c' & Ec & He & -> & Ht & _)]].
  - assert (is_method cid e = false) as ->; [|by rewrite Nat.add_0_r].
    destruct e; try done. simpl in *. apply bool_decide_false. congruence.
  - rewrite Ec in IH. rewrite Ep, Eh, IH. split; [by split|]. by destruct e.
  - rewrite Ec in IH. destruct IH as [Hok Hex]. split; [by eapply trans_ok|].
    rewrite Hex. symmetry. by eapply trans_executions.
Qed.

(** The call's request was looked up on server [p], which gave [svc] and [m]. *)
Definition looked_up g0 events cid (req : reqMsg name rtype) (p : ptr) svc m : Prop :=
  ∃ pre post g rs rs', events = pre ++ ELookup cid :: post ∧ run gob g0 pre = Ret g ∧
    s_servers g !! p = Some rs ∧ Server_lookup rs req = Ret (rs', svc, m).

(** The handler found on server [p] ran on the world of its moment and gave [reply]. *)
Definition executed_by g0 events cid (req : reqMsg name rtype) (p : ptr) (reply : replyMsg) : Prop :=
  ∃ pre post g svc m w, events = pre ++ EMethod cid :: post ∧ run gob g0 pre = Ret g ∧
    looked_up g0 pre cid req p svc m ∧ Service_dispatch gob svc m req (s_world g) = Ret (w, reply).

Lemma looked_up_snoc g0 events cid req p svc m e :
  looked_up g0 events cid req p svc m → looked_up g0 (events ++ [e]) cid req p svc m.
Proof.
  intros (pre & post & g & rs & rs' & -> & Hrest). exists pre, (post ++ [e]), g, rs, rs'.
  by rewrite <-(assoc_L (++)).
Qed.

Lemma executed_by_snoc g0 events cid req p reply e :
  executed_by g0 events cid req p reply → executed_by g0 (events ++ [e]) cid req p reply.
Proof.
  intros (pre & post & g & svc & m & w & -> & Hrest). exists pre, (post ++ [e]), g, svc, m, w.
  by rewrite <-(assoc_L (++)).
Qed.

(** How far the handler of a call has got, on the server it was routed to. *)
Definition history g0 events cid c : Prop :=
  ∃ p, (∀ rt reply d, c_phase c = Waiting rt reply d → r_server rt = p) ∧
    match c_handler c with
    | HIdle => True
    | HDispatch server => server = p
    | HMethod svc m => looked_up g0 events cid (c_req c) p svc m
    | HReply reply => executed_by g0 events cid (c_req c) p reply
    end.

Lemma history_snoc g0 events cid c e : history g0 events cid c → history g0 (events ++ [e]) cid c.
Proof.
  intros (p & Hp & Hh). exists p. split; [done|].
  destruct (c_handler c); [done|done|by apply looked_up_snoc|by apply executed_by_snoc].
Qed.

Lemma trans_history g0 events g cid c c' e p h : run gob g0 events = Ret g →
  trans g cid c e p h → c_phase c' = p → c_handler c' = h → c_req c' = c_req c →
  history g0 events cid c → history g0 (events ++ [e]) cid c'.
Proof.
  intros Hrun Ht Ep' Eh' Hq Hh. pose proof (history_snoc g0 events cid c e Hh) as (q & Hp & Hh').
  assert (h = c_handler c → (∀ rt reply d, p = Waiting rt reply d → r_server rt = q) →
    history g0 (events ++ [e]) cid c') as Hkeep.
  { intros -> Hw. exists q. rewrite Ep', Eh', Hq. by split. }
  destruct Ht as [Ep|Ep|?? Ep|? Ep|?? Ep|?? Ep|srv svc m rs rs' Eh Es El|svc m w reply Eh Ed|?? Ep Eh|? Ep|?????? Ep
    |?????? Ep|?????? Ep|? Ep|?? Ep|? Ep|? Ep]; try (apply Hkeep; [done|intros; simplify_eq; by eauto]).
  - eexists. rewrite Ep', Eh'. split; [|done]. intros. by simplify_eq.
  - exists q. rewrite Ep', Eh', Hq. split; [done|]. destruct Hh as (q' & Hp0 & Hh0). rewrite Eh in Hh', Hh0.
    subst. exists events, [], g, rs, rs'. by split_and!.
  - destruct Hh as (q' & Hp0 & Hh0). rewrite Eh in Hh0. exists q'. rewrite Ep', Eh', Hq. split; [done|].
    exists events, [], g, svc, m, w. by split_and!.
Qed.

Lemma run_history g0 events g cid c : fresh g0 → run gob g0 events = Ret g →
  s_calls g !! cid = Some c → history g0 events cid c.
Proof.
  intros H0. revert g c. induction events as [|e events IH] using rev_ind; intros g c E Ec.
  { injection E as <-. by rewrite H0, lookup_empty in Ec. }
  rewrite run_snoc in E. apply bind_ret_inv in E as (g1 & E1 & E).
  destruct (step_call g1 e g cid E) as [[Esame _]|[(c0 & _ & _ & Ec' & Ep & Eh)|(c0 & c' & Ec0 & _ & Ec' & Ht & Hq & _)]].
  - rewrite Esame in Ec. by eapply history_snoc, IH.
  - assert (c0 = c) as -> by congruence. exists 0%nat. by rewrite Ep, Eh.
  - assert (c' = c) as -> by congruence. by eapply trans_history; [exact E1|exact Ht|..|eapply IH].
Qed.

(** The final check that let a positive reply through: the reply is what the
    handler gave, run once, on the server the call was routed to, which was
    still registered then, as the end was enabled. *)
Definition acknowledged g0 events cid (req : reqMsg name rtype) (reply : replyMsg) : Prop :=
  ∃ pre r i j post g c rt d, events = pre ++ EFinish cid r i j :: post ∧
    run gob g0 pre = Ret g ∧ s_calls g !! cid = Some c ∧ c_req c = req ∧
    c_phase c = Waiting rt (Some reply) d ∧ c_handler c = HReply reply ∧ executions cid pre = 1%nat ∧
    executed_by g0 pre cid req (r_server rt) reply ∧
    is_enabled (s_net g) (req_endname req) = true ∧
    registered (s_net g) (r_servername rt) = Some (r_server rt).

Lemma acknowledged_snoc g0 events cid req reply e :
  acknowledged g0 events cid req reply → acknowledged g0 (events ++ [e]) cid req reply.
Proof.
  intros (pre & r & i & j & post & g & c & rt & d & -> & Hrest).
  exists pre, r, i, j, (post ++ [e]), g, c, rt, d. by rewrite <-(assoc_L (++)).
Qed.

(** The phases of a call that has been, or will be, answered positively. *)
Definition positive (p : phase name) : Prop :=
  match p with Delayed _ _ | Returned true => True | Replied reply => rep_ok reply = true | _ => False end.

Lemma alive_registered rn endname servername server :
  isServerDead (name := name) rn endname servername server = false →
  is_enabled rn endname = true ∧ registered rn servername = server.
Proof.
  unfold isServerDead. case_decide as Hd; [done|]. intros _.
  split; [destruct (is_enabled rn endname); tauto|]. apply dec_stable. tauto.
Qed.

Lemma run_positive g0 events g cid c : fresh g0 → run gob g0 events = Ret g →
  s_calls g !! cid = Some c → positive (c_phase c) →
  ∃ reply, c_handler c = HReply reply ∧ acknowledged g0 events cid (c_req c) reply.
Proof.
  intros H0. revert g c. induction events as [|e events IH] using rev_ind; intros g c E Ec Hpos.
  { injection E as <-. by rewrite H0, lookup_empty in Ec. }
  rewrite run_snoc in E. apply bind_ret_inv in E as (g1 & E1 & E).
  pose proof (run_handlers g0 events g1 H0 E1 cid) as Hh.
  destruct (step_call g1 e g cid E) as [[Esame Hne]|[(c0 & Ec0 & _ & Ec' & Ep & _)|(c0 & c' & Ec0 & He & Ec' & Ht & Hq & _)]].
  - rewrite Esame in Ec. destruct (IH g1 c E1 Ec Hpos) as (reply & ? & ?). exists reply.
    split; [done|]. by apply acknowledged_snoc.
  - rewrite Ec' in Ec. injection Ec as <-. by rewrite Ep in Hpos.
  - rewrite Ec' in Ec. injection Ec as <-. rewrite Ec0 in Hh. destruct Hh as [[Hok _] Hex].
    assert (positive (c_phase c0) → c_handler c' = c_handler c0 →
      ∃ reply, c_handler c' = HReply reply ∧ acknowledged g0 (events ++ [e]) cid (c_req c') reply) as Hkeep.
    { intros Hp ->. rewrite Hq. destruct (IH g1 c0 E1 Ec0 Hp) as (reply & ? & ?). exists reply.
      split; [done|]. by apply acknowledged_snoc. }
    assert (∀ r i j rt reply d, e = EFinish cid r i j → c_phase c0 = Waiting rt (Some reply) d →
      dead g1 c0 rt = false → c_handler c' = c_handler c0 →
      ∃ reply, c_handler c' = HReply reply ∧ acknowledged g0 (events ++ [e]) cid (c_req c') reply) as Hnew.
    { intros r i j rt reply d -> Ep Hd ->. rewrite Ep in Hok. exists reply. split; [done|].
      apply alive_registered in Hd as [Hen Hreg]. rewrite Hok in Hex. rewrite Hq.
      destruct (run_history g0 events g1 cid c0 H0 E1 Ec0) as (p & Hp & Hh). rewrite Hok in Hh.
      rewrite <-(Hp _ _ _ Ep) in Hh. by exists events, r, i, j, [], g1, c0, rt, d. }
    clear Ec'. revert Hkeep Hnew Hpos Ht. generalize (c_phase c') (c_handler c').
    intros p h Hkeep Hnew Hpos Ht.
    destruct Ht as [Ep|Ep|?? Ep|? Ep|?? Ep|?? Ep|????? Eh ??|???? Eh Ed|?? Ep Eh|? Ep|?????? Ep|r i j rt reply d Ep Hd
      |r i j rt reply d Ep Hd|? Ep|?? Ep|? Ep Hrep|? Ep Hrep]; simpl in Hpos; try done.
    + rewrite Eh in Hok. destruct (c_phase c0) as [| | | |? []| | |[]]; try done.
      * by specialize (Hok Hpos).
      * by destruct (Hok eq_refl).
    + rewrite Eh in Hok. destruct (c_phase c0) as [| | | |? []| | |[]]; try done.
      * by specialize (Hok Hpos).
      * by destruct (Hok eq_refl).
    + by apply (Hnew r i j rt reply d).
    + by apply (Hnew r i j rt reply d).
    + apply Hkeep; [by rewrite Ep|done].
    + apply Hkeep; [by rewrite Ep|done].
Qed.

(** ** What the caller gets *)

(** The request and the reply variable of a call in flight; once it has
    returned true, the variable holds the decoded reply. *)
Definition holds (c : call) (req : reqMsg name rtype) (v0 : V) : Prop :=
  c_req c = req ∧
  match c_phase c with
  | Returned true => ∃ rep, c_handler c = HReply rep ∧ gob_decode gob (rep_reply rep) v0 = (c_reply c, false)
  | _ => c_reply c = v0
  end.

Lemma return_decodes g cid c rep g' :
  c_phase c = Replied rep → c_handler c = HReply rep → rep_ok rep = true → return_call gob g cid c rep = Ret g' →
  ∃ v, gob_decode gob (rep_reply rep) (c_reply c) = (v, false) ∧
    s_calls g' = <[cid := mkCall (c_req c) (Returned true) (c_handler c) v]> (s_calls g).
Proof.
  intros Ep Eh Hok. unfold return_call. rewrite Hok. destruct (gob_decode _ _ _) as [v []] eqn:Ed; [done|].
  intros [= <-]. exists v. by split.
Qed.
(** A call that returned true takes no further step. *)
Lemma returned_done g cid c e p h :
  phase_ok (c_phase c) (c_handler c) → c_phase c = Returned true → ¬ trans g cid c e p h.
Proof.
  intros [Hok _] Ep Ht. rewrite Ep in Hok. destruct (Hok eq_refl) as [rep Eh].
  destruct Ht; congruence.
Qed.

Lemma trans_returned g cid c e h :
  trans g cid c e (Returned true) h → c_phase c ≠ Returned true →
  e = EReturn cid ∧ ∃ rep, c_phase c = Replied rep ∧ rep_ok rep = true.
Proof. inversion 1; subst; try congruence. eauto. Qed.

Lemma step_holds g e g' cid c c' req v0 :
  step gob g e = Ret g' → s_calls g !! cid = Some c → phase_ok (c_phase c) (c_handler c) → holds c req v0 →
  s_calls g' !! cid = Some c' → holds c' req v0.
Proof.
  intros E Ec Hok [Hreq Hrep] Ec'.
  destruct (step_call g e g' cid E) as [[Esame _]|[(c0 & Ec0 & _)|(c0 & c1 & Ec0 & He & Ec1 & Ht & Hq & _ & Hv)]].
  - rewrite Esame in Ec'. replace c' with c by congruence. done.
  - congruence.
  - assert (c0 = c) as -> by congruence. assert (c1 = c') as -> by congruence. split; [congruence|].
    assert (c_phase c ≠ Returned true) as Hnot by (intros Ep; by eapply returned_done).
    assert (c_reply c = v0) as Hv0 by (destruct (c_phase c) as [| | | | | | |[]]; congruence).
    assert (c_phase c' ≠ Returned true → c_reply c' = v0) as Hold by (intros Hn; by rewrite Hv).
    destruct (c_phase c') as [| | | | | | |[]] eqn:Ep'; try (by apply Hold).
    apply trans_returned in Ht as (-> & rep & Ep & Hrok); [|done].
    assert (c_handler c = HReply rep) as Eh by (destruct Hok as [Hok _]; rewrite Ep in Hok; by apply Hok).
    unfold step in E. simpl in E. rewrite Ec in E. unfold call_step in E. rewrite Ep in E.
    destruct (return_decodes g cid c rep g' Ep Eh Hrok E) as (v & Hd & Hcalls).
    rewrite Hcalls, lookup_insert_eq in Ec'. injection Ec' as <-. exists rep. simpl. rewrite <-Hv0. by split.
Qed.

(** A call that starts in a step was made by it, with its arguments encoded. *)
Lemma start_holds g e g' cid c :
  step gob g e = Ret g' → s_calls g !! cid = None → s_calls g' !! cid = Some c →
  ∃ x meth ty args v0, e = ECall cid x meth ty args v0 ∧
    gob_encode gob args = ((gob_encode gob args).1, false) ∧ holds c (mkReqMsg x meth ty (gob_encode gob args).1) v0.
Proof.
  intros E En Ec. destruct (step_call g e g' cid E) as [[Esame _]|[(c0 & _ & He & _)|(c0 & c1 & Ec0 & _)]]; [congruence| |congruence].
  unfold step in E. rewrite He in E. destruct (draws_ok e); [|done]. destruct e; try discriminate He; simpl in E.
  all: try (injection E as <-; simpl in Ec; congruence).
  all: try (apply bind_ret_inv in E as (rn & _ & [= <-]); simpl in Ec; congruence).
  unfold start_call in E. destruct (s_calls g !! cid0) eqn:E0; [done|].
  destruct (ends (s_net g) !! endname); [|done]. destruct (gob_encode gob args) as [bytes []] eqn:Ee; [done|].
  injection E as <-. simpl in Ec. destruct (decide (cid0 = cid)) as [->|Hne].
  - rewrite lookup_insert_eq in Ec. injection Ec as <-. exists endname, svcMeth, argsType, args, reply.
    by rewrite Ee.
  - rewrite lookup_insert_ne in Ec by done. congruence.
Qed.

Lemma run_holds g0 events g cid c : fresh g0 → run gob g0 events = Ret g → s_calls g !! cid = Some c →
  ∃ x meth ty args v0, ECall cid x meth ty args v0 ∈ events ∧
    gob_encode gob args = ((gob_encode gob args).1, false) ∧ holds c (mkReqMsg x meth ty (gob_encode gob args).1) v0.
Proof.
  intros H0. revert g c. induction events as [|e events IH] using rev_ind; intros g c E Ec.
  { injection E as <-. by rewrite H0, lookup_empty in Ec. }
  rewrite run_snoc in E. apply bind_ret_inv in E as (g1 & E1 & E).
  destruct (s_calls g1 !! cid) as [c0|] eqn:Ec0.
  - destruct (IH g1 c0 E1 Ec0) as (x & meth & ty & args & v0 & Hin & He & Hh). exists x, meth, ty, args, v0.
    split_and!; [apply elem_of_app; by left|done|]. pose proof (run_handlers g0 events g1 H0 E1 cid) as Hok.
    rewrite Ec0 in Hok. by eapply step_holds; [exact E|exact Ec0|apply Hok|..].
  - destruct (start_holds g1 e g cid c E Ec0 Ec) as (x & meth & ty & args & v0 & -> & He & Hh).
    exists x, meth, ty, args, v0. split_and!; [|done..]. apply elem_of_app. right. by left.
Qed.
End proof.
