(* ===== verification/Labgob.v ===== *)
(** labgob/labgob.go: the checks wrapped around encoding/gob. *)
From Stdlib Require Import ZArith Lia.
From stdpp Require Import base gmap sets list strings.
From S2P Require Import Prelude.

(** ** Types *)

(** A [reflect.Type] is a name for a description; types may be recursive. *)
Abbreviation tid := nat.

Inductive kind :=
  | Struct (fields : list (string * tid))
  | Slice (elem : tid)
  | Array (elem : tid)
  | Ptr (elem : tid)
  | Map (key elem : tid)
  | OtherKind.

Record rtype := mkType { t_name : string; t_kind : kind }.

(** The package's variables: [errorCount], [checked], and what has been printed. *)
Record gobstate := mkGobState {
  errorCount : Z;
  checked : gset tid;
  printed : list string
}.

Section labgob.
Context (types : gmap tid rtype).
(** [unicode.IsUpper] of the first rune of a name. *)
Context (first_upper : string → bool).

Definition complain (st : gobstate) (f_name t_name : string) : gobstate :=
  mkGobState (int64 (errorCount st + 1)) (checked st)
    (printed st ++ ["labgob error: lower-case field " +:+ f_name +:+ " of " +:+ t_name]).

Fixpoint checkType (fuel : nat) (st : gobstate) (t : tid) : result gobstate :=
  match fuel with
  | O => OutOfFuel
  | S fuel =>
      ty ← nonnil (types !! t);
      if decide (t ∈ checked st) then Ret st else
      let st := mkGobState (errorCount st) ({[t]} ∪ checked st) (printed st) in
      match t_kind ty with
      | Struct fields =>
          foldM (λ st f,
            let st := if first_upper f.1 then st else complain st f.1 (t_name ty) in
            checkType fuel st f.2) st fields
      | Slice elem | Array elem | Ptr elem => checkType fuel st elem
      | Map key elem => st ← checkType fuel st elem; checkType fuel st key
      | OtherKind => Ret st
      end
  end.

(** [reflect.TypeOf] of a nil interface is nil, and has no kind. *)
Definition checkValue (fuel : nat) (st : gobstate) (t : option tid) : result gobstate :=
  t ← nonnil t; checkType fuel st t.

(** ** Values *)

(** A value as [checkDefault1] sees it; [zero] says whether a basic value
    equals its type's zero value. *)
Inductive gvalue :=
  | VStruct (fields : list (string * gvalue))
  | VPtr (target : option gvalue)
  | VBasic (typeName : string) (zero : bool)
  | VOther.

Definition warn (st : gobstate) (what : string) : gobstate :=
  mkGobState (int64 (errorCount st + 1)) (checked st)
    (if decide (errorCount st < 1) then
       printed st ++ ["labgob warning: Decoding into a non-default variable/field " +:+ what +:+ " may not work"]
     else printed st).

(** [name1] of a field inside [name]. *)
Definition field_name (name f : string) : string :=
  if decide (name ≠ "") then name +:+ "." +:+ f else f.

Fixpoint checkDefault1 (fuel : nat) (st : gobstate) (value : gvalue) (depth : Z) (name : string)
    : result gobstate :=
  match fuel with
  | O => OutOfFuel
  | S fuel =>
      if decide (depth > 3) then Ret st else
      match value with
      | VStruct fields =>
          foldM (λ st f, checkDefault1 fuel st f.2 (depth + 1) (field_name name f.1)) st fields
      | VPtr None => Ret st
      | VPtr (Some v) => checkDefault1 fuel st v (depth + 1) name
      | VBasic typeName zero =>
          if negb zero then Ret (warn st (if decide (name = "") then typeName else name)) else Ret st
      | VOther => Ret st
      end
  end.

(** [None] is the nil interface. The depth bound makes fuel 4 enough. *)
Definition checkDefault (st : gobstate) (value : option gvalue) : result gobstate :=
  match value with None => Ret st | Some v => checkDefault1 4 st v 1 "" end.

(** ** Encoders and decoders *)

(** gob's own work: what it returns for a value, its business. *)
Context {E : Type} (gob_call : E).

Definition Encode (fuel : nat) (st : gobstate) (t : option tid) : result (gobstate * E) :=
  st ← checkValue fuel st t; Ret (st, gob_call).
Definition EncodeValue (fuel : nat) (st : gobstate) (t : option tid) : result (gobstate * E) :=
  st ← checkValue fuel st t; Ret (st, gob_call).
Definition Decode (fuel : nat) (st : gobstate) (t : option tid) (v : option gvalue) : result (gobstate * E) :=
  st ← checkValue fuel st t; st ← checkDefault st v; Ret (st, gob_call).
Definition Register (fuel : nat) (st : gobstate) (t : option tid) : result (gobstate * E) :=
  st ← checkValue fuel st t; Ret (st, gob_call).
Definition RegisterName (fuel : nat) (st : gobstate) (name : string) (t : option tid) : result (gobstate * E) :=
  st ← checkValue fuel st t; Ret (st, gob_call).

(** ** The types a check reaches *)

Definition succs (k : kind) : list tid :=
  match k with
  | Struct fields => fields.*2
  | Slice e | Array e | Ptr e => [e]
  | Map k e => [e; k]
  | OtherKind => []
  end.

Definition succ (t u : tid) : Prop := ∃ ty, types !! t = Some ty ∧ u ∈ succs (t_kind ty).

(** Types only mention types. *)
Definition closed_types : Prop := ∀ t u, succ t u → is_Some (types !! u).

(** Lower-case fields of a type. *)
Definition lower_fields (t : tid) : nat :=
  match types !! t with
  | Some (mkType _ (Struct fields)) => length (filter (λ f, first_upper f.1 = false) fields)
  | _ => 0
  end.
Definition lowers (X : gset tid) : nat := sum_list (lower_fields <$> elements X).

Lemma lowers_union (X Y : gset tid) : X ## Y → lowers (X ∪ Y) = (lowers X + lowers Y)%nat.
Proof.
  intros Hd. unfold lowers. rewrite elements_disj_union by done.
  by rewrite fmap_app, sum_list_with_app.
Qed.
End labgob.
