(* ===== verification/LabgobProof.v ===== *)
(** [checkType] explores every type once; [checkDefault] warns once. *)
From Stdlib Require Import ZArith Lia.
From stdpp Require Import base gmap sets list strings.
From S2P Require Import Prelude Labgob.

Section types.
Context (types : gmap tid rtype) (first_upper : string → bool).
Hypothesis Hclosed : closed_types types.
Abbreviation succ := (succ types).
Abbreviation lowers := (lowers types first_upper).
Abbreviation lower_fields := (lower_fields types first_upper).
Abbreviation checkType := (checkType types first_upper).
Implicit Types (st : gobstate) (t u : tid) (N : gset tid) (roots : list tid).

Definition in_range st : Prop := int64 (errorCount st) = errorCount st.

(** From [st] to [st'] the types [N], all reachable from [roots], have been
    checked, with everything they mention; each lower-case field of theirs,
    and [extra] more, has been counted and printed. *)
Record explored st st' roots N (extra : nat) : Prop := {
  ex_checked : checked st' = checked st ∪ N;
  ex_new : N ## checked st;
  ex_roots t : t ∈ roots → t ∈ checked st';
  ex_closed u w : u ∈ N → succ u w → w ∈ checked st';
  ex_reach u : u ∈ N → ∃ t, t ∈ roots ∧ rtc succ t u;
  ex_count : errorCount st' = int64 (errorCount st + Z.of_nat (lowers N + extra));
  ex_printed : length (printed st') = (length (printed st) + (lowers N + extra))%nat
}.

Lemma int64_add a b : int64 (int64 a + b) = int64 (a + b).
Proof. apply swrap_add. lia. Qed.

Lemma int64_idem a : int64 (int64 a) = int64 a.
Proof. rewrite <-(Z.add_0_r (int64 a)), int64_add. by rewrite !Z.add_0_r. Qed.

Lemma explored_refl st : in_range st → explored st st [] ∅ 0.
Proof.
  intros Hr. split; try set_solver; simpl; try lia. by rewrite Z.add_0_r.
Qed.

Lemma explored_seq st st1 st2 r1 r2 N1 N2 x1 x2 :
  explored st st1 r1 N1 x1 → explored st1 st2 r2 N2 x2 →
  explored st st2 (r1 ++ r2) (N1 ∪ N2) (x1 + x2).
Proof.
  intros [C1 D1 R1 S1 P1 E1 L1] [C2 D2 R2 S2 P2 E2 L2].
  assert (lowers (N1 ∪ N2) = (lowers N1 + lowers N2)%nat) as El by (apply lowers_union; set_solver).
  split.
  - rewrite C2, C1. set_solver.
  - set_solver.
  - intros t [Ht|Ht]%elem_of_app; [rewrite C2; apply elem_of_union; left; by apply R1|by apply R2].
  - intros u w [Hu|Hu]%elem_of_union Hs; [rewrite C2; apply elem_of_union; left; by eapply S1|by eapply S2].
  - intros u [Hu|Hu]%elem_of_union; [destruct (P1 u Hu) as (t & ? & ?)|destruct (P2 u Hu) as (t & ? & ?)];
      exists t; rewrite elem_of_app; tauto.
  - rewrite E2, E1, int64_add, El. f_equal. lia.
  - rewrite L2, L1, El. lia.
Qed.

Lemma explored_range st st' roots N extra : explored st st' roots N extra → in_range st'.
Proof.
  unfold in_range. intros [_ _ _ _ _ -> _]. apply int64_idem.
Qed.

Definition left st : nat := size (dom types ∖ checked st).

Lemma explored_left st st' roots N extra : explored st st' roots N extra → (left st' ≤ left st)%nat.
Proof. intros [C _ _ _ _ _ _]. unfold left. rewrite C. apply subseteq_size. set_solver. Qed.

(** A fold each of whose steps explores from its own root. *)
Lemma explored_fold {B} (F : gobstate → B → result gobstate) (root : B → tid) (cost : B → nat) (l : list B) st m :
  in_range st → (left st ≤ m)%nat →
  (∀ st b, b ∈ l → in_range st → (left st ≤ m)%nat →
     ∃ st' N, F st b = Ret st' ∧ explored st st' [root b] N (cost b)) →
  ∃ st' N, foldM F st l = Ret st' ∧ explored st st' (root <$> l) N (sum_list (cost <$> l)).
Proof.
  intros Hr Hm HF. revert st Hr Hm. induction l as [|b l IH]; intros st Hr Hm.
  { exists st, ∅. split; [done|]. by apply explored_refl. }
  destruct (HF st b) as (st1 & N1 & E1 & X1); [left|done|done|].
  pose proof (explored_left _ _ _ _ _ X1) as Hl.
  destruct (IH) with (st := st1) as (st2 & N2 & E2 & X2).
  - intros st' b' Hb'. apply HF. by right.
  - by eapply explored_range.
  - lia.
  - exists st2, (N1 ∪ N2). simpl. rewrite E1. split; [done|].
    exact (explored_seq _ _ _ _ _ _ _ _ _ X1 X2).
Qed.

(** Entering a type: it is marked, then what it mentions is explored. *)
Lemma explored_enter st st' t ty N extra :
  types !! t = Some ty → t ∉ checked st →
  explored (mkGobState (errorCount st) ({[t]} ∪ checked st) (printed st)) st' (succs (t_kind ty)) N extra →
  extra = lower_fields t → explored st st' [t] ({[t]} ∪ N) 0.
Proof.
  intros Ety Hnew [C D R S P E L] ->. simpl in *.
  assert (lowers ({[t]} ∪ N) = (lower_fields t + lowers N)%nat) as El.
  { rewrite lowers_union by set_solver. f_equal. unfold Labgob.lowers. rewrite elements_singleton. simpl. lia. }
  split.
  - rewrite C. set_solver.
  - set_solver.
  - intros u ->%list_elem_of_singleton. rewrite C. set_solver.
  - intros u w [->%elem_of_singleton|Hu]%elem_of_union Hs; [|by eapply S].
    destruct Hs as (ty' & E' & Hw). simplify_eq. by apply R.
  - intros u [->%elem_of_singleton|Hu]%elem_of_union; exists t; (split; [apply list_elem_of_singleton; done|]).
    + apply rtc_refl.
    + destruct (P u Hu) as (w & Hw & Hrtc). eapply rtc_l; [|done]. by exists ty.
  - rewrite E, El. f_equal. lia.
  - rewrite L, El. lia.
Qed.

(** What the recursion promises of types entered with [fuel]. *)
Definition checks fuel : Prop := ∀ st t, is_Some (types !! t) → in_range st → (left st < fuel)%nat →
  ∃ st' N, checkType fuel st t = Ret st' ∧ explored st st' [t] N 0.

(** A type that has not been checked leaves less to check once it is marked. *)
Lemma left_marked st t : is_Some (types !! t) → t ∉ checked st →
  (left (mkGobState (errorCount st) ({[t]} ∪ checked st) (printed st)) < left st)%nat.
Proof.
  intros Ht%elem_of_dom Hin. unfold left. simpl. apply subset_size. split; [set_solver|]. intros Hs. set_solver.
Qed.

(** The types that a type mentions, one after the other. *)
Lemma check_all fuel st l : checks fuel → in_range st → (left st < fuel)%nat → (∀ u, u ∈ l → is_Some (types !! u)) →
  ∃ st' N, foldM (checkType fuel) st l = Ret st' ∧ explored st st' l N 0.
Proof.
  intros IH Hr Hf Hl. destruct (explored_fold (checkType fuel) (λ u, u) (λ _, 0%nat) l st (left st))
    as (st' & N & E & X); [done|done| |].
  - intros st1 u Hu Hr1 Hl1. apply IH; [by apply Hl|done|lia].
  - exists st', N. split; [done|]. rewrite list_fmap_id in X.
    replace (sum_list ((λ _, 0%nat) <$> l)) with 0%nat in X; [done|]. clear. by induction l.
Qed.

(** The fields of a struct, with a complaint about each in lower case. *)
Lemma check_fields fuel st name fields : checks fuel → in_range st → (left st < fuel)%nat →
  (∀ f, f ∈ fields → is_Some (types !! f.2)) →
  ∃ st' N, foldM (λ st f, checkType fuel (if first_upper f.1 then st else complain st f.1 name) f.2) st fields = Ret st' ∧
    explored st st' (snd <$> fields) N (sum_list ((λ f, if first_upper f.1 then 0 else 1)%nat <$> fields)).
Proof.
  intros IH Hr Hf Hfields. apply (explored_fold _ snd _ fields st (left st)); [done|done|].
  intros st1 [f u] Hu Hr1 Hl1. specialize (Hfields _ Hu). simpl in *. destruct (first_upper f) eqn:Ef.
  - apply IH; [done|done|lia].
  - destruct (IH (complain st1 f name) u) as (st' & N & E & [C D R S P Ec L]); [done|apply int64_idem|by unfold left, complain in *; simpl in *; lia|].
    exists st', N. split; [done|]. simpl in *. split; try done.
    + rewrite Ec, int64_add. f_equal. lia.
    + rewrite L, length_app. simpl. lia.
Qed.

Lemma lower_fields_struct t name fields : types !! t = Some (mkType name (Struct fields)) →
  sum_list ((λ f, if first_upper f.1 then 0 else 1)%nat <$> fields) = lower_fields t.
Proof.
  intros Ety. unfold Labgob.lower_fields. rewrite Ety. clear. induction fields as [|[f u] fields IH]; [done|].
  csimpl. rewrite filter_cons. simpl. destruct (first_upper f); simpl; [|f_equal]; exact IH.
Qed.

Lemma checkType_spec fuel : checks fuel.
Proof.
  induction fuel as [|fuel IH]; intros st t [[name k] Ety] Hr Hf; [lia|].
  cbn [Labgob.checkType]. rewrite Ety. cbn [nonnil mbind result_bind t_kind t_name]. case_decide as Hin.
  { exists st, ∅. split; [done|]. split; try set_solver; simpl; try lia. by rewrite Z.add_0_r. }
  set (st0 := mkGobState (errorCount st) ({[t]} ∪ checked st) (printed st)).
  assert (left st0 < fuel)%nat as Hf0 by (pose proof (left_marked st t (mk_is_Some _ _ Ety) Hin); unfold st0; lia).
  assert (∀ u, u ∈ succs k → is_Some (types !! u)) as Hsucc by (intros u Hu; apply (Hclosed t); by eexists).
  assert (∀ N st' extra, explored st0 st' (succs k) N extra → extra = lower_fields t → explored st st' [t] ({[t]} ∪ N) 0) as Henter.
  { intros N st' extra X. by apply (explored_enter st st' t (mkType name k)). }
  destruct k as [fields|e|e|e|k e|].
  2-4: destruct (IH st0 e) as (st' & N & E & X); [apply Hsucc; left|done..|]; exists st', ({[t]} ∪ N); split; [done|];
    apply (Henter _ _ _ X); unfold Labgob.lower_fields; by rewrite Ety.
  - destruct (check_fields fuel st0 name fields) as (st' & N & E & X); [done..| |].
    { intros f Hin'. apply Hsucc, list_elem_of_fmap. by exists f. }
    exists st', ({[t]} ∪ N). split; [exact E|]. by eapply Henter, lower_fields_struct.
  - destruct (check_all fuel st0 [e; k]) as (st' & N & E & X); [done..|].
    exists st', ({[t]} ∪ N). split.
    + simpl in E. destruct (checkType fuel st0 e) as [st1| |]; simpl in *; [by destruct (checkType fuel st1 k)|done..].
    + apply (Henter _ _ _ X). unfold Labgob.lower_fields. by rewrite Ety.
  - exists st0, ({[t]} ∪ ∅). split; [done|]. apply (Henter _ _ 0%nat); [by apply explored_refl|].
    unfold Labgob.lower_fields. by rewrite Ety.
Qed.
End types.

(** ** [checkDefault] *)

(** The non-zero basic values within [d] levels of [v], by their path. *)
Fixpoint leaves (d : nat) (name : string) (v : gvalue) : list string :=
  match d with
  | O => []
  | S d =>
      match v with
      | VStruct fields =>
          flat_map (λ f, leaves d (field_name name f.1) f.2) fields
      | VPtr (Some v) => leaves d name v
      | VBasic typeName false => [if decide (name = "") then typeName else name]
      | _ => []
      end
  end.

Definition warning (what : string) : string :=
  "labgob warning: Decoding into a non-default variable/field " +:+ what +:+ " may not work".

(** The state after warning about [ls]: all are counted, one printed. *)
Definition warned (st : gobstate) (ls : list string) : gobstate :=
  mkGobState (errorCount st + Z.of_nat (length ls)) (checked st)
    (if decide (errorCount st < 1) then printed st ++ (warning <$> take 1 ls) else printed st).

Lemma warned_nil st : warned st [] = st.
Proof. destruct st as [n c p]. unfold warned. simpl. rewrite Z.add_0_r, app_nil_r. by case_decide. Qed.

Lemma warned_app st l1 l2 : 0 ≤ errorCount st → warned (warned st l1) l2 = warned st (l1 ++ l2).
Proof.
  intros Hc. destruct l1 as [|x l1]; [by rewrite warned_nil|]. unfold warned at 1 3.
  unfold warned; simpl. rewrite length_app. repeat case_decide; try lia; f_equal; lia.
Qed.

Lemma checkDefault1_spec d st v name :
  0 ≤ errorCount st → errorCount st + Z.of_nat (length (leaves d name v)) < 2 ^ 63 → (d ≤ 3)%nat →
  checkDefault1 (S d) st v (4 - Z.of_nat d) name = Ret (warned st (leaves d name v)).
Proof.
  revert st v name. induction d as [|d IH]; intros st v name Hc Hb Hd.
  { simpl. by rewrite warned_nil. }
  remember (S d) as d' eqn:Ed. simpl. rewrite decide_False by lia. subst d'.
  replace (4 - Z.of_nat (S d) + 1) with (4 - Z.of_nat d) by lia.
  destruct v as [fields|[v|]|tn []|].
  - cbn [leaves] in *.
    revert st Hc Hb. induction fields as [|f fields IHf]; intros st Hc Hb; [by rewrite warned_nil|].
    simpl in Hb. rewrite length_app in Hb. cbn [foldM flat_map].
    rewrite (IH st f.2 (field_name name f.1)) by lia. cbn [mbind result_bind].
    rewrite IHf; [by rewrite warned_app|simpl; lia..].
  - cbn [leaves] in *. apply IH; [done|done|lia].
  - cbn [leaves]. by rewrite warned_nil.
  - cbn [leaves]. by rewrite warned_nil.
  - cbn [leaves negb] in *. unfold warn, warned. simpl in *.
    unfold int64. by rewrite swrap_small by lia.
  - cbn [leaves]. by rewrite warned_nil.
Qed.

(** ** The properties *)

(** The types checked so far, with all they mention. *)
Definition closed_checked (types : gmap tid rtype) (st : gobstate) : Prop :=
  ∀ u w, u ∈ checked st → Labgob.succ types u w → w ∈ checked st.

Section claims.
Context (types : gmap tid rtype) (first_upper : string → bool).

(** C23: [checkValue] terminates on every type, recursive ones included, and
    then exactly the types reachable from it have been added to those checked
    before; every lower-case field of a newly checked struct has been counted
    and reported, once: checking the same type again changes nothing. The nil
    interface has no type and panics. *)
Theorem checkValue_explores fuel st t :
  closed_types types → is_Some (types !! t) → closed_checked types st →
  int64 (errorCount st) = errorCount st → (size types < fuel)%nat →
  (∃ st' N, checkValue types first_upper fuel st (Some t) = Ret st' ∧
    checked st' = checked st ∪ N ∧ N ## checked st ∧ closed_checked types st' ∧
    (∀ u, u ∈ checked st' ↔ u ∈ checked st ∨ rtc (Labgob.succ types) t u) ∧
    errorCount st' = int64 (errorCount st + Z.of_nat (lowers types first_upper N)) ∧
    length (printed st') = (length (printed st) + lowers types first_upper N)%nat ∧
    checkValue types first_upper fuel st' (Some t) = Ret st') ∧
  checkValue types first_upper fuel st None = Panic NilDeref.
Proof.
  intros Hclosed [ty Ety] Hc Hr Hfuel. split; [|done].
  destruct (checkType_spec types first_upper Hclosed fuel st t) as (st' & N & E & [C D R S P Ec L]).
  { by eexists. }
  { done. }
  { assert (left types st ≤ size types)%nat; [|lia]. rewrite <-size_dom. apply subseteq_size. set_solver. }
  rewrite Nat.add_0_r in Ec, L.
  assert (closed_checked types st') as Hc'.
  { intros u w. rewrite C. intros [Hu|Hu]%elem_of_union Hs; [|rewrite <-C; by eapply S].
    apply elem_of_union. left. by eapply Hc. }
  exists st', N. split_and!; try done.
  - intros u. rewrite C, elem_of_union. split.
    + intros [Hu|Hu]; [by left|right]. destruct (P u Hu) as (t' & ->%list_elem_of_singleton & ?). done.
    + intros [Hu|Hu]; [by left|]. rewrite <-elem_of_union, <-C.
      assert (t ∈ checked st') as Ht by (by apply R; left). clear -Ht Hu Hc'.
      induction Hu as [|x y z Hs Hu IH]; [done|]. apply IH. by eapply Hc'.
  - destruct fuel as [|fuel']; [lia|]. unfold checkValue. cbn [nonnil mbind result_bind Labgob.checkType].
    rewrite Ety. cbn [nonnil mbind result_bind]. rewrite decide_True; [done|]. apply R. left.
Qed.

(** [checkDefault] counts every basic value, within three levels of
    structs and pointers, that is not its type's zero value, and prints a
    warning only for the first of them, naming its path, and only if nothing
    had been reported before. *)
Lemma checkDefault_warns_once st v :
  0 ≤ errorCount st → errorCount st + Z.of_nat (length (leaves 3 "" v)) < 2 ^ 63 →
  checkDefault st (Some v) = Ret (warned st (leaves 3 "" v)).
Proof. intros. by apply (checkDefault1_spec 3). Qed.
End claims.

(** A linked list type with a lower-case field, recursive through a pointer. *)
Definition list_types : gmap tid rtype :=
  {[ 0%nat := mkType "Node" (Struct [("Val", 1%nat); ("next", 2%nat)]);
     1%nat := mkType "int" OtherKind; 2%nat := mkType "" (Ptr 0%nat) ]}.
Definition ascii_upper (s : string) : bool :=
  match s with String c _ => bool_decide (65 ≤ Z.of_nat (Ascii.nat_of_ascii c) ≤ 90) | _ => false end.
Definition no_checks : gobstate := mkGobState 0 ∅ [].

Lemma list_types_closed : closed_types list_types.
Proof.
  intros t u (ty & Et & Hu). unfold list_types in Et.
  repeat (apply lookup_insert_Some in Et as [[<- <-]|[_ Et]];
    [simpl in Hu; repeat (apply elem_of_cons in Hu as [->|Hu]; [by eexists|]); by apply not_elem_of_nil in Hu|]).
  apply lookup_singleton_Some in Et as [<- <-]. simpl in Hu.
  repeat (apply elem_of_cons in Hu as [->|Hu]; [by eexists|]). by apply not_elem_of_nil in Hu.
Qed.

Lemma checkValue_explores_witness :
  checkValue list_types ascii_upper 4 no_checks None = Panic NilDeref ∧
  ∃ st' N, checkValue list_types ascii_upper 4 no_checks (Some 0%nat) = Ret st' ∧
    errorCount st' = int64 (0 + Z.of_nat (lowers list_types ascii_upper N)) ∧
    checkValue list_types ascii_upper 4 st' (Some 0%nat) = Ret st'.
Proof.
  destruct (checkValue_explores list_types ascii_upper 4 no_checks 0%nat) as [H1 H2].
  - apply list_types_closed.
  - vm_compute. by eexists.
  - intros u w Hu. by apply not_elem_of_empty in Hu.
  - reflexivity.
  - vm_compute. lia.
  - split; [exact H2|]. destruct H1 as (st' & N & E & _ & _ & _ & _ & Ec & _ & E').
    exists st', N. split; [exact E|]. split; [exact Ec|exact E'].
Defined.

Example checkDefault_warns_once_sample :
  checkDefault no_checks (Some (VPtr (Some (VStruct [("Term", VBasic "int" false); ("Ok", VBasic "bool" false)])))) =
    Ret (mkGobState 2 ∅ [warning "Term"]).
Proof.
  apply (checkDefault_warns_once no_checks (VPtr (Some (VStruct [("Term", VBasic "int" false); ("Ok", VBasic "bool" false)])))).
  - done.
  - done.
Defined.
