(* ===== verification/Persister.v ===== *)
(** raft/persister.go: the persisted Raft state and snapshot.

    Byte slices live in a memory of arrays, so that sharing is visible: [Copy]
    shares its arrays with the original, [SaveRaftState] and the others copy
    what they are given and what they hand out. The refinement theorem says
    that callers cannot tell: a persister behaves as a pair of values. *)
From Stdlib Require Import ZArith Lia.
From stdpp Require Import base gmap sets list.
From S2P Require Import Prelude.

Abbreviation loc := nat.
Abbreviation bytes := (list Z).
Abbreviation memory := (list bytes).

(** A nil slice is [None]. *)
Record Persister := mkPersister { raftstate : option loc; snapshot : option loc }.

Definition slice (mem : memory) (s : option loc) : bytes :=
  match s with Some l => default [] (mem !! l) | None => [] end.

Arguments slice : simpl never.

Definition MakePersister : Persister := mkPersister None None.

(** [make] and [copy]: a fresh array with the same bytes. *)
Definition clone (mem : memory) (orig : option loc) : memory * option loc :=
  (mem ++ [slice mem orig], Some (length mem)).

Definition Copy (ps : Persister) : Persister := mkPersister (raftstate ps) (snapshot ps).

Definition SaveRaftState (mem : memory) (ps : Persister) (state : option loc) : memory * Persister :=
  let '(mem, x) := clone mem state in (mem, mkPersister x (snapshot ps)).

Definition ReadRaftState (mem : memory) (ps : Persister) : memory * option loc :=
  clone mem (raftstate ps).

Definition RaftStateSize (mem : memory) (ps : Persister) : Z :=
  Z.of_nat (length (slice mem (raftstate ps))).

Definition SaveStateAndSnapshot (mem : memory) (ps : Persister) (state snap : option loc) : memory * Persister :=
  let '(mem, x) := clone mem state in
  let '(mem, y) := clone mem snap in (mem, mkPersister x y).

Definition ReadSnapshot (mem : memory) (ps : Persister) : memory * option loc :=
  clone mem (snapshot ps).

Definition SnapshotSize (mem : memory) (ps : Persister) : Z :=
  Z.of_nat (length (slice mem (snapshot ps))).

(** ** Programs that use persisters *)

(** A program holds slices in variables; it may overwrite bytes of any slice
    it holds, including those it has passed to or received from a persister. *)
Record world := mkWorld {
  w_mem : memory;
  w_ps : gmap nat Persister;
  w_vars : gmap nat (option loc)
}.

Inductive action :=
  | AMake (p : nat)
  | ACopy (p q : nat)
  | ASaveRaftState (p x : nat)
  | ASaveStateAndSnapshot (p x y : nat)
  | AReadRaftState (p x : nat)
  | AReadSnapshot (p x : nat)
  | ANew (x : nat) (b : bytes)
  | AAssign (x y : nat)
  | AWrite (x : nat) (i b : Z).

Definition var (w : world) (x : nat) : option loc := default None (w_vars w !! x).

(** [s[i] = b] *)
Definition write (mem : memory) (s : option loc) (i b : Z) : result memory :=
  x ← (slice mem s).[i <- b];
  Ret (match s with Some l => <[l := x]> mem | None => mem end).

(** Each action on the memory; unknown persisters are nil and dereferenced. *)
Definition act (w : world) (a : action) : result world :=
  match a with
  | AMake p => Ret (mkWorld (w_mem w) (<[p := MakePersister]> (w_ps w)) (w_vars w))
  | ACopy p q =>
      ps ← nonnil (w_ps w !! p);
      Ret (mkWorld (w_mem w) (<[q := Copy ps]> (w_ps w)) (w_vars w))
  | ASaveRaftState p x =>
      ps ← nonnil (w_ps w !! p);
      let '(mem, ps) := SaveRaftState (w_mem w) ps (var w x) in
      Ret (mkWorld mem (<[p := ps]> (w_ps w)) (w_vars w))
  | ASaveStateAndSnapshot p x y =>
      ps ← nonnil (w_ps w !! p);
      let '(mem, ps) := SaveStateAndSnapshot (w_mem w) ps (var w x) (var w y) in
      Ret (mkWorld mem (<[p := ps]> (w_ps w)) (w_vars w))
  | AReadRaftState p x =>
      ps ← nonnil (w_ps w !! p);
      let '(mem, s) := ReadRaftState (w_mem w) ps in
      Ret (mkWorld mem (w_ps w) (<[x := s]> (w_vars w)))
  | AReadSnapshot p x =>
      ps ← nonnil (w_ps w !! p);
      let '(mem, s) := ReadSnapshot (w_mem w) ps in
      Ret (mkWorld mem (w_ps w) (<[x := s]> (w_vars w)))
  | ANew x b => Ret (mkWorld (w_mem w ++ [b]) (w_ps w) (<[x := Some (length (w_mem w))]> (w_vars w)))
  | AAssign x y => Ret (mkWorld (w_mem w) (w_ps w) (<[x := var w y]> (w_vars w)))
  | AWrite x i b =>
      mem ← write (w_mem w) (var w x) i b; Ret (mkWorld mem (w_ps w) (w_vars w))
  end.

(** The specification: a persister is a pair of byte strings, a variable names
    an array shared only with other variables. *)
Record spec := mkSpec {
  s_mem : memory;
  s_ps : gmap nat (bytes * bytes);
  s_vars : gmap nat (option loc)
}.

Definition svar (w : spec) (x : nat) : bytes := slice (s_mem w) (default None (s_vars w !! x)).

Definition spec_act (w : spec) (a : action) : result spec :=
  match a with
  | AMake p => Ret (mkSpec (s_mem w) (<[p := ([], [])]> (s_ps w)) (s_vars w))
  | ACopy p q => v ← nonnil (s_ps w !! p); Ret (mkSpec (s_mem w) (<[q := v]> (s_ps w)) (s_vars w))
  | ASaveRaftState p x =>
      v ← nonnil (s_ps w !! p); Ret (mkSpec (s_mem w) (<[p := (svar w x, v.2)]> (s_ps w)) (s_vars w))
  | ASaveStateAndSnapshot p x y =>
      v ← nonnil (s_ps w !! p); Ret (mkSpec (s_mem w) (<[p := (svar w x, svar w y)]> (s_ps w)) (s_vars w))
  | AReadRaftState p x =>
      v ← nonnil (s_ps w !! p);
      Ret (mkSpec (s_mem w ++ [v.1]) (s_ps w) (<[x := Some (length (s_mem w))]> (s_vars w)))
  | AReadSnapshot p x =>
      v ← nonnil (s_ps w !! p);
      Ret (mkSpec (s_mem w ++ [v.2]) (s_ps w) (<[x := Some (length (s_mem w))]> (s_vars w)))
  | ANew x b => Ret (mkSpec (s_mem w ++ [b]) (s_ps w) (<[x := Some (length (s_mem w))]> (s_vars w)))
  | AAssign x y => Ret (mkSpec (s_mem w) (s_ps w) (<[x := default None (s_vars w !! y)]> (s_vars w)))
  | AWrite x i b =>
      mem ← write (s_mem w) (default None (s_vars w !! x)) i b; Ret (mkSpec mem (s_ps w) (s_vars w))
  end.

(** ** Refinement *)

(** [f] maps the arrays of the specification to those of the program that the
    program can reach through variables; no persister holds one of them. *)
Record sim (f : gmap loc loc) (w : world) (s : spec) : Prop := {
  sim_dom l : is_Some (f !! l) ↔ (l < length (s_mem s))%nat;
  sim_inj l l' k : f !! l = Some k → f !! l' = Some k → l = l';
  sim_mem l k : f !! l = Some k → ∃ b, s_mem s !! l = Some b ∧ w_mem w !! k = Some b;
  sim_vars x : w_vars w !! x = (λ o, o ≫= λ l, f !! l) <$> s_vars s !! x;
  sim_vars_ok x l : s_vars s !! x = Some (Some l) → is_Some (f !! l);
  sim_ps p : match w_ps w !! p, s_ps s !! p with
             | Some ps, Some v => slice (w_mem w) (raftstate ps) = v.1 ∧ slice (w_mem w) (snapshot ps) = v.2 ∧
                 ∀ k, raftstate ps = Some k ∨ snapshot ps = Some k →
                   (k < length (w_mem w))%nat ∧ ∀ l, f !! l ≠ Some k
             | None, None => True
             | _, _ => False
             end
}.

Lemma slice_app mem x k : (k < length mem)%nat → slice (mem ++ x) (Some k) = slice mem (Some k).
Proof. intros Hk. unfold slice. by rewrite lookup_app_l. Qed.

Lemma slice_new mem b : slice (mem ++ [b]) (Some (length mem)) = b.
Proof. unfold slice. by rewrite list_lookup_middle. Qed.

Lemma sim_range f w s l k : sim f w s → f !! l = Some k → (k < length (w_mem w))%nat.
Proof. intros Hs Hf. destruct (sim_mem _ _ _ Hs l k Hf) as (b & _ & Hk). by eapply lookup_lt_Some. Qed.

Lemma sim_var f w s x : sim f w s → slice (w_mem w) (var w x) = svar s x.
Proof.
  intros Hs. unfold var, svar. rewrite (sim_vars _ _ _ Hs).
  destruct (s_vars s !! x) as [[l|]|] eqn:E; simpl; try done.
  destruct (sim_vars_ok _ _ _ Hs x l E) as [k Hk]. rewrite Hk.
  destruct (sim_mem _ _ _ Hs l k Hk) as (b & Hb & Hb'). unfold slice. by rewrite Hb, Hb'.
Qed.

(** New arrays that only a persister will hold. *)
Lemma sim_grow f w s bs : sim f w s → sim f (mkWorld (w_mem w ++ bs) (w_ps w) (w_vars w)) s.
Proof.
  intros Hs. pose proof (λ l k, sim_range f w s l k Hs) as Hr. destruct Hs as [Hd Hi Hm Hv Hvo Hp]. split; try done.
  - intros l k Hf. destruct (Hm l k Hf) as (b & ? & Hb). exists b. split; [done|]. simpl.
    rewrite lookup_app_l; [done|]. by eapply lookup_lt_Some.
  - intros p. specialize (Hp p). simpl. destruct (w_ps w !! p) as [[r n]|], (s_ps s !! p) as [v|]; try done.
    simpl in *. destruct Hp as (H1 & H2 & H3).
    assert (∀ o, (∀ k, o = Some k → (k < length (w_mem w))%nat) → slice (w_mem w ++ bs) o = slice (w_mem w) o) as Hsl.
    { intros [k|] Ho; [|done]. apply slice_app. by apply Ho. }
    rewrite !Hsl by (intros k ->; apply H3; tauto). split_and!; [done..|].
    intros k Hk. destruct (H3 k Hk). rewrite length_app. split; [lia|done].
Qed.

(** A persister is made to hold arrays no variable names. *)
Lemma sim_store f w s p r n v1 v2 : sim f w s →
  slice (w_mem w) r = v1 → slice (w_mem w) n = v2 →
  (∀ k, r = Some k ∨ n = Some k → (k < length (w_mem w))%nat ∧ ∀ l, f !! l ≠ Some k) →
  sim f (mkWorld (w_mem w) (<[p := mkPersister r n]> (w_ps w)) (w_vars w))
    (mkSpec (s_mem s) (<[p := (v1, v2)]> (s_ps s)) (s_vars s)).
Proof.
  intros [Hd Hi Hm Hv Hvo Hp] <- <- H3. split; try done. intros q. simpl.
  destruct (decide (p = q)) as [->|Hne]; [by rewrite !lookup_insert_eq|].
  rewrite !lookup_insert_ne by done. apply Hp.
Qed.

(** A fresh array on both sides, put in a variable. *)
Lemma sim_fresh f w s x b : sim f w s →
  sim (<[length (s_mem s) := length (w_mem w)]> f)
    (mkWorld (w_mem w ++ [b]) (w_ps w) (<[x := Some (length (w_mem w))]> (w_vars w)))
    (mkSpec (s_mem s ++ [b]) (s_ps s) (<[x := Some (length (s_mem s))]> (s_vars s))).
Proof.
  intros Hs. pose proof (λ l k, sim_range f w s l k Hs) as Hr.
  pose proof (sim_ps _ _ _ (sim_grow f w s [b] Hs)) as Hp'.
  assert (f !! length (s_mem s) = None) as Hfn.
  { apply eq_None_not_Some. intros ?%(sim_dom _ _ _ Hs). lia. }
  destruct Hs as [Hd Hi Hm Hv Hvo Hp]. split; simpl.
  - intros l. rewrite lookup_insert_is_Some, Hd, length_app. simpl. lia.
  - intros l l' k [[<- <-]|[_ H1]]%lookup_insert_Some [[<- E]|[_ H2]]%lookup_insert_Some; [done|..].
    + apply Hr in H2. lia.
    + subst. apply Hr in H1. lia.
    + by eapply Hi.
  - intros l k [[<- <-]|[_ H1]]%lookup_insert_Some.
    + exists b. by rewrite !list_lookup_middle.
    + destruct (Hm l k H1) as (c & H2 & H3). exists c.
      rewrite !lookup_app_l; [done|by eapply lookup_lt_Some..].
  - intros y. destruct (decide (x = y)) as [->|Hne].
    + rewrite !lookup_insert_eq. simpl. by rewrite lookup_insert_eq.
    + rewrite !lookup_insert_ne, Hv by done. destruct (s_vars s !! y) as [[l|]|] eqn:E; simpl; try done.
      rewrite lookup_insert_ne; [done|]. intros <-. destruct (Hvo y _ E) as [? ?]. congruence.
  - intros y l. destruct (decide (x = y)) as [->|Hne].
    + rewrite lookup_insert_eq. intros [= <-]. by rewrite lookup_insert_eq.
    + rewrite lookup_insert_ne by done. intros E. apply lookup_insert_is_Some.
      destruct (decide (length (s_mem s) = l)); [by left|right]. split; [done|by eapply Hvo].
  - intros p. specialize (Hp' p). specialize (Hp p). simpl in *.
    destruct (w_ps w !! p) as [ps|], (s_ps s !! p) as [v|]; try done.
    destruct Hp' as (H1 & H2 & H3), Hp as (_ & _ & H4). split_and!; [done..|].
    intros k Hk. destruct (H4 k Hk) as [Hlt Hl]. split; [rewrite length_app; lia|].
    intros l [[_ <-]|[_ E]]%lookup_insert_Some; [lia|by eapply Hl].
Qed.

Lemma sim_write f w s x i b : sim f w s →
  match write (w_mem w) (var w x) i b, write (s_mem s) (default None (s_vars s !! x)) i b with
  | Ret m, Ret m' => sim f (mkWorld m (w_ps w) (w_vars w)) (mkSpec m' (s_ps s) (s_vars s))
  | Panic p, Panic p' => p = p'
  | _, _ => False
  end.
Proof.
  intros Hs. pose proof (sim_var f w s x Hs) as Hx. unfold svar in Hx. unfold write. rewrite Hx.
  destruct (slice (s_mem s) (default None (s_vars s !! x))).[i <- b] as [c| |] eqn:Ec; simpl; [|done|].
  2: { unfold go_update in Ec. by case_decide. }
  unfold var. rewrite (sim_vars _ _ _ Hs). destruct (s_vars s !! x) as [[l|]|] eqn:E; simpl; [|by destruct w, s..].
  destruct (sim_vars_ok _ _ _ Hs x l E) as [k Hk]. rewrite Hk.
  destruct Hs as [Hd Hi Hm Hv Hvo Hp]. split; simpl; try done.
  - intros l'. rewrite length_insert. apply Hd.
  - intros l' k' Hk'. destruct (decide (l = l')) as [<-|Hne].
    + assert (k' = k) as -> by congruence. destruct (Hm l k Hk) as (d & H1%lookup_lt_Some & H2%lookup_lt_Some). exists c.
      by rewrite !list_lookup_insert_eq.
    + assert (k ≠ k') by (intros <-; by eapply Hne, Hi). rewrite !list_lookup_insert_ne by done. by apply Hm.
  - intros p. specialize (Hp p). destruct (w_ps w !! p) as [[r n]|], (s_ps s !! p) as [v|]; try done. simpl in *.
    destruct Hp as (H1 & H2 & H3).
    assert (∀ o, (∀ k', o = Some k' → k' ≠ k) → slice (<[k := c]> (w_mem w)) o = slice (w_mem w) o) as Hsl.
    { intros [k'|] Ho; [|done]. unfold slice. rewrite list_lookup_insert_ne; [done|]. intros E'. by eapply Ho. }
    rewrite !Hsl by (intros k' Ho ->; destruct (H3 k) as [_ Hn]; [by auto|by eapply Hn]).
    split_and!; [done..|]. rewrite length_insert. apply H3.
Qed.

(** One action. *)
Lemma sim_act f w s a : sim f w s →
  match act w a, spec_act s a with
  | Ret w', Ret s' => ∃ f', sim f' w' s'
  | Panic p, Panic p' => p = p'
  | _, _ => False
  end.
Proof.
  intros Hs. destruct a as [p|p q|p x|p x y|p x|p x|x b|x y|x i b]; simpl.
  - exists f. apply sim_store; [done..|]. naive_solver.
  - pose proof (sim_ps _ _ _ Hs p) as Hp. destruct (w_ps w !! p) as [[r n]|], (s_ps s !! p) as [[v1 v2]|]; try done.
    simpl in *. destruct Hp as (H1 & H2 & H3). exists f. by apply sim_store.
  - pose proof (sim_ps _ _ _ Hs p) as Hp. destruct (w_ps w !! p) as [[r n]|], (s_ps s !! p) as [[v1 v2]|]; try done.
    simpl in *. destruct Hp as (H1 & H2 & H3). exists f.
    apply (sim_store f (mkWorld (w_mem w ++ [slice (w_mem w) (var w x)]) (w_ps w) (w_vars w)));
      simpl; [by apply sim_grow|rewrite slice_new; by apply (sim_var f)| |].
    + destruct n as [n|]; [|done]. rewrite slice_app; [done|]. apply H3. by right.
    + intros k [[= <-]| ->]; rewrite length_app; simpl.
      * split; [lia|]. intros l Hl. pose proof (sim_range f w s l _ Hs Hl). lia.
      * destruct (H3 k) as [? ?]; [by right|]. split; [lia|done].
  - pose proof (sim_ps _ _ _ Hs p) as Hp. destruct (w_ps w !! p) as [[r n]|], (s_ps s !! p) as [[v1 v2]|]; try done.
    simpl in *. destruct Hp as (H1 & H2 & H3). exists f.
    rewrite <-(sim_var f w s x Hs), <-(sim_var f w s y Hs).
    set (b := slice (w_mem w) (var w x)).
    assert (slice (w_mem w ++ [b]) (var w y) = slice (w_mem w) (var w y)) as ->.
    { unfold var. rewrite (sim_vars _ _ _ Hs). destruct (s_vars s !! y) as [[l|]|] eqn:E; simpl; try done.
      destruct (sim_vars_ok _ _ _ Hs y l E) as [k Hk]. rewrite Hk. apply slice_app. by eapply sim_range. }
    apply (sim_store f (mkWorld ((w_mem w ++ [b]) ++ [slice (w_mem w) (var w y)]) (w_ps w) (w_vars w))); simpl.
    + rewrite <-(assoc_L (++)). by apply sim_grow.
    + rewrite slice_app by (rewrite length_app; simpl; lia). apply slice_new.
    + rewrite slice_new. done.
    + intros k [[= <-]|[= <-]]; rewrite !length_app; simpl; (split; [lia|]);
        intros l Hl; pose proof (sim_range f w s l _ Hs Hl); lia.
  - pose proof (sim_ps _ _ _ Hs p) as Hp. destruct (w_ps w !! p) as [[r n]|], (s_ps s !! p) as [[v1 v2]|]; try done.
    simpl in *. destruct Hp as (-> & _ & _). eexists. by apply sim_fresh.
  - pose proof (sim_ps _ _ _ Hs p) as Hp. destruct (w_ps w !! p) as [[r n]|], (s_ps s !! p) as [[v1 v2]|]; try done.
    simpl in *. destruct Hp as (_ & -> & _). eexists. by apply sim_fresh.
  - eexists. by apply sim_fresh.
  - exists f. destruct Hs as [Hd Hi Hm Hv Hvo Hp]. split; try done; simpl.
    + intros z. destruct (decide (x = z)) as [->|Hne]; [|rewrite !lookup_insert_ne by done; apply Hv].
      rewrite !lookup_insert_eq. unfold var. rewrite Hv. simpl. by destruct (s_vars s !! y) as [[]|].
    + intros z l. destruct (decide (x = z)) as [->|Hne]; [|rewrite lookup_insert_ne by done; apply Hvo].
      rewrite lookup_insert_eq. destruct (s_vars s !! y) eqn:E; simpl; [|done]. intros [= ->]. by eapply Hvo.
  - pose proof (sim_write f w s x i b Hs) as Hw.
    destruct (write (w_mem w) (var w x) i b), (write (s_mem s) (default None (s_vars s !! x)) i b); simpl; try done.
    by exists f.
Qed.

Definition empty_world : world := mkWorld [] ∅ ∅.
Definition empty_spec : spec := mkSpec [] ∅ ∅.

Lemma sim_empty : sim ∅ empty_world empty_spec.
Proof.
  split; simpl; try done.
  - intros l. rewrite lookup_empty. split; [by intros []|lia].
Qed.

(** C24: persisters are isolated: in every program that makes, copies, saves
    to and reads from persisters, and that goes on to overwrite the slices it
    passed in or was given back, each persister behaves as a pair of values of
    its own: it panics where the specification does, and otherwise what it
    reads back, and the sizes it reports, are those of the last save, a copied
    persister included. *)
Theorem persister_refines_values actions :
  match foldM act empty_world actions, foldM spec_act empty_spec actions with
  | Ret w, Ret s =>
      (∀ x, slice (w_mem w) (var w x) = svar s x) ∧
      ∀ p ps v, w_ps w !! p = Some ps → s_ps s !! p = Some v →
        let '(mem, r) := ReadRaftState (w_mem w) ps in
        let '(mem', n) := ReadSnapshot (w_mem w) ps in
        slice mem r = v.1 ∧ slice mem' n = v.2 ∧
        RaftStateSize (w_mem w) ps = Z.of_nat (length v.1) ∧
        SnapshotSize (w_mem w) ps = Z.of_nat (length v.2)
  | Panic p, Panic p' => p = p'
  | _, _ => False
  end.
Proof.
  assert (∀ actions f w s, sim f w s →
    match foldM act w actions, foldM spec_act s actions with
    | Ret w, Ret s => ∃ f, sim f w s
    | Panic p, Panic p' => p = p'
    | _, _ => False
    end) as Hsim.
  { clear actions. intros actions. induction actions as [|a actions IH]; intros f w s Hs; simpl; [by exists f|].
    pose proof (sim_act f w s a Hs) as Ha. destruct (act w a), (spec_act s a); simpl; try done.
    destruct Ha as [f' Hs']. by eapply IH. }
  specialize (Hsim actions ∅ empty_world empty_spec sim_empty).
  destruct (foldM act empty_world actions) as [w| |], (foldM spec_act empty_spec actions) as [s| |]; try done.
  destruct Hsim as [f Hs]. split; [intros x; by apply (sim_var f)|].
  intros p ps v E E'. pose proof (sim_ps _ _ _ Hs p) as Hp. rewrite E, E' in Hp. destruct Hp as (<- & <- & _).
  unfold ReadRaftState, ReadSnapshot, clone. rewrite !slice_new. done.
Qed.
