(* ===== verification/Randstring.v ===== *)
(** [randstring] of the four config.go: random bytes in base64's URL alphabet,
    cut to length. The bytes [crand.Read] draws are an argument. *)
From Stdlib Require Import ZArith Lia Ascii.
From stdpp Require Import base list strings.
From S2P Require Import Prelude.

(** ** encoding/base64's URLEncoding *)

Definition alphabet : string := "ABCDEFGHIJKLMNOPQRSTUVWXYZabcdefghijklmnopqrstuvwxyz0123456789-_".
Definition b64_char (v : Z) : ascii := default "="%char (String.get (Z.to_nat v) alphabet).

Definition sextet (v k : Z) : ascii := b64_char (Z.land (Z.shiftr v k) 63).

(** Three bytes make four characters; what is left over is padded. *)
Fixpoint EncodeToString (src : list Z) : list ascii :=
  match src with
  | a :: b :: c :: src =>
      let v := Z.lor (Z.lor (Z.shiftl a 16) (Z.shiftl b 8)) c in
      sextet v 18 :: sextet v 12 :: sextet v 6 :: sextet v 0 :: EncodeToString src
  | [a; b] =>
      let v := Z.lor (Z.shiftl a 16) (Z.shiftl b 8) in
      [sextet v 18; sextet v 12; sextet v 6; "="%char]
  | [a] =>
      let v := Z.shiftl a 16 in
      [sextet v 18; sextet v 12; "="%char; "="%char]
  | [] => []
  end.

(** [s[0:n]] *)
Definition go_prefix (s : list ascii) (n : Z) : result (list ascii) :=
  if decide (0 ≤ n ≤ Z.of_nat (length s)) then Ret (take (Z.to_nat n) s) else Panic IndexOutOfRange.

(** [read k] is what [crand.Read] puts into [k] bytes. *)
Definition randstring (read : Z → list Z) (n : Z) : result string :=
  _ ← go_make (2 * n) 0;
  s ← go_prefix (EncodeToString (read (2 * n))) n;
  Ret (String.string_of_list_ascii s).

(** ** What it draws *)

Definition is_byte (b : Z) : Prop := 0 ≤ b < 256.

Definition b64_value (c : ascii) : Z :=
  let n := Z.of_N (N_of_ascii c) in
  if decide (65 ≤ n ≤ 90) then n - 65 else if decide (97 ≤ n ≤ 122) then n - 71
  else if decide (48 ≤ n ≤ 57) then n + 4 else if decide (n = 45) then 62 else 63.

Lemma b64_value_char v : 0 ≤ v < 64 → b64_value (b64_char v) = v.
Proof.
  intros Hv. assert (Forall (λ v, b64_value (b64_char v) = v) (seqZ 0 64)) as Hall.
  { apply (bool_decide_unpack _). vm_compute. exact I. }
  rewrite Forall_forall in Hall. apply Hall, elem_of_seqZ. lia.
Qed.

Lemma sextet_value v k : 0 ≤ k → b64_value (sextet v k) = (v / 2^k) mod 64.
Proof.
  intros Hk. unfold sextet. change 63 with (Z.ones 6). rewrite Z.land_ones, Z.shiftr_div_pow2 by lia.
  apply b64_value_char, Z.mod_pos_bound. lia.
Qed.

Lemma join_bytes a b c : is_byte a → is_byte b → is_byte c →
  Z.lor (Z.lor (Z.shiftl a 16) (Z.shiftl b 8)) c = a * 65536 + b * 256 + c.
Proof.
  unfold is_byte. intros Ha Hb Hc. rewrite !Z.shiftl_mul_pow2 by lia.
  assert (∀ x y k, 0 ≤ k → 0 ≤ y < 2^k → Z.lor (x * 2^k) y = x * 2^k + y) as Hor.
  { intros x y k Hk Hy. rewrite <-Z.add_lor_land. enough (Z.land (x * 2^k) y = 0) by lia.
    apply Z.bits_inj_0. intros i. rewrite Z.land_spec. destruct (decide (i < k)).
    - destruct (decide (i < 0)); [by rewrite Z.testbit_neg_r by lia|]. by rewrite Z.mul_pow2_bits_low by lia.
    - rewrite (Z.testbit_eqb y) by lia. rewrite Z.div_small; [by rewrite andb_false_r|].
      split; [lia|]. eapply Z.lt_le_trans; [apply Hy|]. apply Z.pow_le_mono_r; lia. }
  rewrite (Hor a (b * 2^8) 16) by lia.
  replace (a * 2^16 + b * 2^8) with ((a * 256 + b) * 2^8) by lia. rewrite Hor by lia. lia.
Qed.

(** Four characters give back the three bytes. *)
Lemma sextets_bytes a b c a' b' c' (v := Z.lor (Z.lor (Z.shiftl a 16) (Z.shiftl b 8)) c)
    (v' := Z.lor (Z.lor (Z.shiftl a' 16) (Z.shiftl b' 8)) c') :
  is_byte a → is_byte b → is_byte c → is_byte a' → is_byte b' → is_byte c' →
  sextet v 18 = sextet v' 18 → sextet v 12 = sextet v' 12 → sextet v 6 = sextet v' 6 → sextet v 0 = sextet v' 0 →
  a = a' ∧ b = b' ∧ c = c'.
Proof.
  intros Ha Hb Hc Ha' Hb' Hc' E3%(f_equal b64_value) E2%(f_equal b64_value) E1%(f_equal b64_value) E0%(f_equal b64_value).
  rewrite !sextet_value in * by lia. subst v v'. rewrite !join_bytes in * by done. unfold is_byte in *.
  assert (∀ x y, 0 ≤ x < 2^24 → x / 2^18 mod 64 = y / 2^18 mod 64 → 0 ≤ y < 2^24 → x / 2^12 mod 64 = y / 2^12 mod 64 →
    x / 2^6 mod 64 = y / 2^6 mod 64 → x / 2^0 mod 64 = y / 2^0 mod 64 → x = y) as Hinj.
  { intros x y. rewrite !Z.pow_0_r, !Z.div_1_r. change (2^24) with 16777216. change (2^18) with 262144.
    change (2^12) with 4096. change (2^6) with 64. intros. Z.div_mod_to_equations. lia. }
  apply Hinj in E3; lia.
Qed.

Lemma encode_length src : (length src ≤ length (EncodeToString src))%nat.
Proof.
  induction src as [src IH] using (induction_ltof1 _ (@length Z)); unfold ltof in IH.
  destruct src as [|a [|b [|c src]]]; simpl; try lia. specialize (IH src). simpl in IH. lia.
Qed.

(** Four characters at a time. *)
Lemma take_encode k src src' :
  Forall is_byte src → Forall is_byte src' → (3 * k ≤ length src)%nat → (3 * k ≤ length src')%nat →
  take (4 * k) (EncodeToString src) = take (4 * k) (EncodeToString src') ↔ take (3 * k) src = take (3 * k) src'.
Proof.
  revert src src'. induction k as [|k IH]; intros src src' Hs Hs' Hl Hl'; [done|].
  replace (4 * S k)%nat with (4 + 4 * k)%nat by lia. replace (3 * S k)%nat with (3 + 3 * k)%nat in * by lia.
  destruct src as [|a [|b [|c src]]]; [simpl in Hl; lia..|].
  destruct src' as [|a' [|b' [|c' src']]]; [simpl in Hl'; lia..|].
  repeat match goal with H : Forall is_byte (_ :: _) |- _ => apply Forall_cons in H as [? H] end.
  simpl in Hl, Hl'. specialize (IH src src' Hs Hs' ltac:(lia) ltac:(lia)).
  cbn [EncodeToString Nat.add take]. split.
  - intros E. injection E as E3 E2 E1 E0 E. apply IH in E.
    destruct (sextets_bytes a b c a' b' c') as (-> & -> & ->); [done..|]. by rewrite E.
  - intros [= -> -> -> E]. apply IH in E. by rewrite E.
Qed.

Lemma string_length_list l : String.length (String.string_of_list_ascii l) = length l.
Proof. induction l; simpl; congruence. Qed.

(** The name for [n] characters: it is drawn from the alphabet, has that
    length, and two draws of [4 k] characters give the same name exactly when
    their first [3 k] bytes agree. *)
Lemma randstring_draws read read' k :
  (∀ n, 0 ≤ n → Forall is_byte (read n) ∧ Z.of_nat (length (read n)) = n) →
  (∀ n, 0 ≤ n → Forall is_byte (read' n) ∧ Z.of_nat (length (read' n)) = n) → 0 ≤ k →
  ∃ s s', randstring read (4 * k) = Ret s ∧ randstring read' (4 * k) = Ret s' ∧
    Z.of_nat (String.length s) = 4 * k ∧
    (s = s' ↔ take (Z.to_nat (3 * k)) (read (8 * k)) = take (Z.to_nat (3 * k)) (read' (8 * k))).
Proof.
  intros Hr Hr' Hk. destruct (Hr (8 * k)) as [Hb Hl]; [lia|]. destruct (Hr' (8 * k)) as [Hb' Hl']; [lia|].
  unfold randstring, go_make, go_prefix. rewrite (decide_True (P := 0 ≤ 2 * (4 * k))) by lia. cbn [mbind result_bind].
  replace (2 * (4 * k)) with (8 * k) by lia.
  pose proof (encode_length (read (8 * k))). pose proof (encode_length (read' (8 * k))).
  rewrite !decide_True by lia. cbn [mbind result_bind]. do 2 eexists. split_and!; [done|done| |].
  - rewrite string_length_list, length_take. lia.
  - replace (Z.to_nat (4 * k)) with (4 * Z.to_nat k)%nat by lia. replace (Z.to_nat (3 * k)) with (3 * Z.to_nat k)%nat by lia.
    rewrite <-(take_encode (Z.to_nat k)); [|done|done|lia|lia]. split; [|by intros ->].
    intros E%(f_equal String.list_ascii_of_string). by rewrite !String.list_ascii_of_string_of_list_ascii in E.
Qed.

Example randstring_draws_sample :
  ∃ s s', randstring (λ n, replicate (Z.to_nat n) 7) (4 * 5) = Ret s ∧
    randstring (λ n, replicate (Z.to_nat n) 251) (4 * 5) = Ret s' ∧
    Z.of_nat (String.length s) = 20 ∧ s = "BwcHBwcHBwcHBwcHBwcH" ∧ s ≠ s'.
Proof.
  assert (∀ b n, is_byte b → 0 ≤ n →
    Forall is_byte (replicate (Z.to_nat n) b) ∧ Z.of_nat (length (replicate (Z.to_nat n) b)) = n) as Hrep.
  { intros b n Hb Hn. rewrite length_replicate. split; [by apply Forall_replicate|lia]. }
  destruct (randstring_draws (λ n, replicate (Z.to_nat n) 7) (λ n, replicate (Z.to_nat n) 251) 5)
    as (s & s' & E & E' & Hl & Hs).
  - intros n Hn. by apply Hrep.
  - intros n Hn. by apply Hrep.
  - lia.
  - exists s, s'. split_and!; [exact E|exact E'|exact Hl| |].
    + vm_compute in E. by injection E as <-.
    + rewrite Hs. vm_compute. congruence.
Defined.
