(* ===== verification/Iface.v ===== *)
(** The values of [interface{}] the test harnesses pass around: nothing, ints
    and strings. They name the ends and servers of a network and are the
    commands of the Raft tests. Loops that enable many ends are stated once
    here. *)
From Stdlib Require Import ZArith Lia.
From stdpp Require Import base gmap sets list strings pretty.
From S2P Require Import Prelude Labrpc.

Inductive iface := Nil | Int (z : Z) | Str (s : string).

#[export] Instance iface_eq_dec : EqDecision iface.
Proof. solve_decision. Defined.
Definition iface_split (v : iface) : unit + (Z + string) :=
  match v with Nil => inl () | Int z => inr (inl z) | Str s => inr (inr s) end.
Definition iface_join (v : unit + (Z + string)) : iface :=
  match v with inl _ => Nil | inr (inl z) => Int z | inr (inr s) => Str s end.
Lemma iface_join_split v : iface_join (iface_split v) = v.
Proof. by destruct v. Qed.
#[export] Instance iface_countable : Countable iface := inj_countable' iface_split iface_join iface_join_split.

#[export] Instance Str_inj : Inj (=) (=) Str.
Proof. intros a b. congruence. Qed.

(** [fmt]'s %v. *)
Definition show_iface (v : iface) : string :=
  match v with Nil => "<nil>" | Int z => pretty z | Str s => s end.

Abbreviation net := (Network iface).

(** ** Loops over ends *)

(** [for j := range js { rn.Enable(endname(j), b) }], where [endname(j)] may
    panic, or be skipped ([None]). *)
Definition enable_loop (endname : Z → result (option string)) (b : bool) (rn : net) (js : list Z) : result net :=
  foldM (λ rn j,
    e ← endname j;
    Ret (match e with Some e => Enable rn (Str e) b | None => rn end)) rn js.

(** [rn'] is [rn] but for what may differ in which ends are enabled. *)
Definition same_wiring (rn rn' : net) : Prop :=
  ends rn' = ends rn ∧ servers rn' = servers rn ∧ connections rn' = connections rn ∧
  reliable rn' = reliable rn ∧ longDelays rn' = longDelays rn ∧ longReordering rn' = longReordering rn ∧
  net_done rn' = net_done rn ∧ net_count rn' = net_count rn ∧ net_bytes rn' = net_bytes rn.

#[export] Instance same_wiring_preorder : PreOrder same_wiring.
Proof.
  unfold same_wiring. split; [done|]. intros x y z (?&?&?&?&?&?&?&?&?) (?&?&?&?&?&?&?&?&?).
  split_and!; congruence.
Qed.

(** The ends that [E] describes are enabled (or disabled), and nothing else happens. *)
Definition enables (rn rn' : net) (E : string → Prop) (b : bool) : Prop :=
  (∀ e, is_enabled rn' (Str e) = true ↔
     if b then E e ∨ is_enabled rn (Str e) = true else ¬ E e ∧ is_enabled rn (Str e) = true) ∧
  same_wiring rn rn'.

Lemma enables_two rn rn1 rn2 E1 E2 b :
  enables rn rn1 E1 b → enables rn1 rn2 E2 b → enables rn rn2 (λ e, E1 e ∨ E2 e) b.
Proof.
  intros (He1 & Hs1) (He2 & Hs2). split; [|by etransitivity].
  intros e. rewrite He2. specialize (He1 e). destruct b; tauto.
Qed.

Lemma enables_iff rn rn' E E' b : (∀ e, E e ↔ E' e) → enables rn rn' E b → enables rn rn' E' b.
Proof. intros HE (He & Hs). split; [|done]. intros e. rewrite He. specialize (HE e). destruct b; tauto. Qed.

Lemma is_enabled_Enable (rn : net) e b e' :
  is_enabled (Enable rn e b) e' = if decide (e = e') then b else is_enabled rn e'.
Proof. unfold is_enabled; simpl. rewrite lookup_insert. by case_decide. Qed.

Lemma enable_loop_ret endname b rn js rn' :
  enable_loop endname b rn js = Ret rn' →
  enables rn rn' (λ e, ∃ j, j ∈ js ∧ endname j = Ret (Some e)) b.
Proof.
  unfold enable_loop. revert rn. induction js as [|j js IH]; intros rn; cbn [foldM].
  { intros [= <-]. split; [|done]. intros e. destruct b; split; try tauto.
    - by intros [(j & ?%elem_of_nil & _)|?].
    - intros ?. split; [|done]. by intros (j & ?%elem_of_nil & _). }
  destruct (endname j) as [x| |] eqn:Ej; cbn [mbind result_bind]; [|done|done]. intros Hr.
  eapply enables_iff, enables_two, IH, Hr; cycle 1.
  - instantiate (1 := λ e, x = Some e). split; [|by destruct x].
    intros e. destruct x as [x|]; [rewrite is_enabled_Enable; case_decide as E|]; destruct b; naive_solver.
  - intros e. cbv beta. split.
    + intros [->|(j' & ? & ?)]; [exists j|exists j']; (split; [|done]); [by left|by right].
    + intros (j' & [->|?]%elem_of_cons & He); [left; congruence|right; eauto].
Qed.

Lemma enable_loop_total endname b rn js :
  (∀ j, j ∈ js → ∃ e, endname j = Ret e) → ∃ rn', enable_loop endname b rn js = Ret rn'.
Proof.
  unfold enable_loop. revert rn. induction js as [|j js IH]; intros rn Hall; cbn [foldM]; [eauto|].
  destruct (Hall j) as [e ->]; [by left|]. simpl. apply IH. intros; apply Hall; by right.
Qed.

(** ** Loops that make ends *)

(** A new end for the server called [t], enabled if [on]: ends start disabled. *)
Definition new_end (on : bool) (rn : net) (e : string) (t : iface) : result net :=
  rn ← MakeEnd rn (Str e);
  let rn := Connect rn (Str e) t in
  Ret (if on then Enable rn (Str e) true else rn).

(** Ends named by [f] for the servers called [t]. *)
Definition open_ends (f : Z → string) (t : Z → iface) (on : bool) (rn : net) (js : list Z) : result net :=
  foldM (λ rn j, new_end on rn (f j) (t j)) rn js.

Lemma new_end_ret on rn e t rn' :
  new_end on rn e t = Ret rn' →
  ends rn !! Str e = None ∧ servers rn' = servers rn ∧
  is_Some (ends rn' !! Str e) ∧ is_enabled rn' (Str e) = on ∧ connection rn' (Str e) = Some t ∧
  (∀ e', e' ≠ e → ends rn' !! Str e' = ends rn !! Str e' ∧ is_enabled rn' (Str e') = is_enabled rn (Str e') ∧
                  connection rn' (Str e') = connection rn (Str e')).
Proof.
  unfold new_end, MakeEnd. intros Hr. destruct (ends rn !! Str e) eqn:Hfree; [done|].
  cbn [mbind result_bind] in Hr. injection Hr as <-.
  unfold is_enabled, connection. destruct on; simpl; rewrite !lookup_insert_eq; (split_and!; [done..|by eexists|done|done|]);
    intros e' Hne; rewrite !lookup_insert_ne by congruence; done.
Qed.

Lemma open_ends_ret f t on rn js rn' :
  open_ends f t on rn js = Ret rn' →
  NoDup (f <$> js) ∧ servers rn' = servers rn ∧
  (∀ j, j ∈ js → ends rn !! Str (f j) = None) ∧
  (∀ j, j ∈ js → is_Some (ends rn' !! Str (f j)) ∧ is_enabled rn' (Str (f j)) = on ∧
                 connection rn' (Str (f j)) = Some (t j)) ∧
  (∀ e, e ∉ f <$> js → ends rn' !! Str e = ends rn !! Str e ∧ is_enabled rn' (Str e) = is_enabled rn (Str e) ∧
                       connection rn' (Str e) = connection rn (Str e)).
Proof.
  unfold open_ends. revert rn. induction js as [|j js IH]; intros rn; cbn [foldM].
  { intros [= <-]. split_and!; try done; [constructor| |]; by intros j ?%elem_of_nil. }
  intros Hr. apply bind_ret_inv in Hr as (rn1 & (Hfree & Hs1 & Hnew & Hon & Hto & Hold)%new_end_ret & Hr).
  destruct (IH _ Hr) as (Hnd & Hs & Hnone & Hin & Hout); clear IH Hr.
  assert (f j ∉ f <$> js) as Hj.
  { intros (j' & E & Hj')%list_elem_of_fmap. specialize (Hnone j' Hj'). rewrite <-E in Hnone. rewrite Hnone in Hnew. by destruct Hnew. }
  destruct (Hout _ Hj) as (He & Hen & Hc).
  split_and!; [by constructor|congruence| | |].
  - intros j' [->|Hj']%elem_of_cons; [done|]. assert (f j' ≠ f j) as Hne by (intros E; apply Hj; rewrite <-E; by apply list_elem_of_fmap_2).
    destruct (Hold _ Hne) as [<- _]. by apply Hnone.
  - intros j' [->|Hj']%elem_of_cons; [rewrite He, Hen, Hc; eauto|by apply Hin].
  - intros e [Hne Hej]%not_elem_of_cons. destruct (Hout e Hej) as (-> & -> & ->). by apply Hold.
Qed.
