(* ===== verification/Tables.v ===== *)
(** Tables of ends: who has an end for whom. The test harnesses keep rows of
    the names of ends, a row per server or clerk; a table is sound when each
    of its ends was made, leads where its row says, and has a name of its own. *)
From Stdlib Require Import ZArith Lia.
From stdpp Require Import base gmap sets list strings.
From S2P Require Import Prelude Labrpc Iface.

(** The end [e] was made and leads to [t]. *)
Definition leads (rn : net) (e : string) (t : iface) : Prop :=
  is_Some (ends rn !! Str e) ∧ connection rn (Str e) = Some t.

Lemma leads_same rn rn' e t :
  ends rn' !! Str e = ends rn !! Str e → connection rn' (Str e) = connection rn (Str e) → leads rn e t → leads rn' e t.
Proof. unfold leads. by intros -> ->. Qed.

Lemma go_index_lt {A} (l : list A) i x : l.[i] = Ret x → 0 ≤ i < Z.of_nat (length l).
Proof. intros [? ?%lookup_lt_Some]%go_index_ret. lia. Qed.

Lemma some_fmap_ret (m : result string) e : Some <$> m = Ret (Some e) ↔ m = Ret e.
Proof. destruct m; simpl; naive_solver. Qed.

(** New ends leave the others alone. *)
Lemma open_ends_keep f t on rn js rn' :
  open_ends f t on rn js = Ret rn' →
  servers rn' = servers rn ∧ (∀ e u, leads rn e u → leads rn' e u) ∧
  (∀ e u, leads rn e u → is_enabled rn' (Str e) = is_enabled rn (Str e)).
Proof.
  intros (_ & Hs & Hnone & _ & Hout)%open_ends_ret.
  assert (∀ e u, leads rn e u → e ∉ f <$> js) as Hold.
  { intros e u [[x Hx] _] (i & -> & Hi)%list_elem_of_fmap. rewrite Hnone in Hx; done. }
  split_and!; [done| |]; intros e u Hl; destruct (Hout e (Hold e u Hl)) as (? & ? & ?); [|done].
  by eapply leads_same.
Qed.

Section tables.
Context {O : Type} `{EqDecision O} (target : O → Z → iface).
Implicit Types (T : O → Z → result string).

(** [T o j] is the name of the end that [o] has for the server it numbers [j]. *)
Record table T (rn : net) : Prop := {
  tb_leads o j e : T o j = Ret e → leads rn e (target o j);
  tb_distinct o j o' j' e : T o j = Ret e → T o' j' = Ret e → o = o' ∧ j = j'
}.

(** Soundness survives what does not touch the ends of the table. *)
Lemma table_same T T' rn rn' :
  table T rn → (∀ o j e, T' o j = Ret e → T o j = Ret e) →
  (∀ e t, leads rn e t → leads rn' e t) → table T' rn'.
Proof.
  intros [Hl Hd] HT Hrn. split.
  - intros o j e ?%HT. by apply Hrn, Hl.
  - intros o j o' j' e ?%HT ?%HT. by eapply Hd.
Qed.

Lemma wiring_leads rn rn' e t : same_wiring rn rn' → leads rn e t → leads rn' e t.
Proof. intros (He & _ & Hc & _). apply leads_same; [|unfold connection]; by rewrite ?He, ?Hc. Qed.

(** [o] gets a new row of [k] ends. *)
Lemma table_open T T' rn rn' o row draw k on :
  table T rn → open_ends draw (target o) on rn (seqZ 0 k) = Ret rn' →
  (∀ j e, row.[j] = Ret e → 0 ≤ j < k ∧ e = draw j) →
  (∀ o' j, T' o' j = if decide (o = o') then row.[j] else T o' j) →
  table T' rn' ∧ servers rn' = servers rn ∧
  (∀ j e, row.[j] = Ret e → is_enabled rn' (Str e) = on) ∧
  (∀ o' j e, T o' j = Ret e → is_enabled rn' (Str e) = is_enabled rn (Str e)).
Proof.
  intros [Hl Hd] (Hnd & Hs & Hnone & Hin & Hout)%open_ends_ret Hrow HT.
  assert (∀ j e, row.[j] = Ret e → j ∈ seqZ 0 k ∧ e = draw j) as Hdraw.
  { intros j e [? ?]%Hrow. split; [apply elem_of_seqZ; lia|done]. }
  assert (∀ o' j e, T o' j = Ret e → e ∉ draw <$> seqZ 0 k) as Hold.
  { intros o' j e He (i & -> & Hi)%list_elem_of_fmap. destruct (Hl _ _ _ He) as [[x Hx] _].
    rewrite Hnone in Hx; done. }
  split_and!; [split|done|..].
  - intros o' j e. rewrite HT. case_decide as Eo; [|intros He].
    + subst. intros [Hj ->]%Hdraw. destruct (Hin j Hj) as (? & _ & ?). done.
    + destruct (Hout e (Hold _ _ _ He)) as (? & _ & ?). eapply leads_same; [done..|]. by apply Hl.
  - intros o1 j1 o2 j2 e. rewrite !HT. case_decide as E1; case_decide as E2.
    + intros [Hj1 Ee1]%Hdraw [Hj2 Ee2]%Hdraw. split; [congruence|].
      apply (NoDup_fmap_eq draw (seqZ 0 k)); congruence.
    + intros [Hj1 ->]%Hdraw He2. destruct (Hold _ _ _ He2). by apply list_elem_of_fmap_2.
    + intros He1 [Hj2 ->]%Hdraw. destruct (Hold _ _ _ He1). by apply list_elem_of_fmap_2.
    + apply Hd.
  - intros j e [Hj ->]%Hdraw. by apply Hin.
  - intros o' j e He. by apply (Hout e (Hold _ _ _ He)).
Qed.
End tables.
