(* ===== verification/RaftConfig.v ===== *)
(** raft/config.go, the Raft test harness: its state, the servers it starts,
    crashes, connects and disconnects, and the goroutines that check what the
    servers apply.

    The Raft implementation under test is a parameter ([RaftOps]): raft.go
    declares it and leaves its body to be written. *)
From Stdlib Require Import ZArith Lia.
From stdpp Require Import base gmap sets list strings pretty.
From S2P Require Import Prelude Labrpc Persister Iface.

(** ** State *)

(** Raft instances. *)
Abbreviation rid := nat.

(** The persisters and the byte slices they hold. *)
Record heap := mkHeap { h_mem : memory; h_ps : gmap ptr Persister }.

Record ApplyMsg := mkApplyMsg {
  CommandValid : bool;
  Command : iface;
  CommandIndex : Z;
  SnapshotValid : bool;
  Snapshot : bytes;
  SnapshotTerm : Z;
  SnapshotIndex : Z
}.

Record config := mkConfig {
  cfg_net : net;
  cfg_n : Z;
  cfg_rafts : list (option rid);
  cfg_applyErr : list string;
  cfg_connected : list bool;
  cfg_saved : list (option ptr);
  cfg_endnames : list (option (list string));
  cfg_logs : list (option (gmap Z iface));
  cfg_start : Z;
  cfg_t0 : Z;
  cfg_rpcs0 : Z;
  cfg_cmds0 : Z;
  cfg_bytes0 : Z;
  cfg_maxIndex : Z;
  cfg_maxIndex0 : Z
}.

Definition set_net (c : config) (rn : net) : config :=
  mkConfig rn (cfg_n c) (cfg_rafts c) (cfg_applyErr c) (cfg_connected c) (cfg_saved c) (cfg_endnames c) (cfg_logs c)
    (cfg_start c) (cfg_t0 c) (cfg_rpcs0 c) (cfg_cmds0 c) (cfg_bytes0 c) (cfg_maxIndex c) (cfg_maxIndex0 c).
Definition set_rafts (c : config) (l : list (option rid)) : config :=
  mkConfig (cfg_net c) (cfg_n c) l (cfg_applyErr c) (cfg_connected c) (cfg_saved c) (cfg_endnames c) (cfg_logs c)
    (cfg_start c) (cfg_t0 c) (cfg_rpcs0 c) (cfg_cmds0 c) (cfg_bytes0 c) (cfg_maxIndex c) (cfg_maxIndex0 c).
Definition set_connected (c : config) (l : list bool) : config :=
  mkConfig (cfg_net c) (cfg_n c) (cfg_rafts c) (cfg_applyErr c) l (cfg_saved c) (cfg_endnames c) (cfg_logs c)
    (cfg_start c) (cfg_t0 c) (cfg_rpcs0 c) (cfg_cmds0 c) (cfg_bytes0 c) (cfg_maxIndex c) (cfg_maxIndex0 c).
Definition set_saved (c : config) (l : list (option ptr)) : config :=
  mkConfig (cfg_net c) (cfg_n c) (cfg_rafts c) (cfg_applyErr c) (cfg_connected c) l (cfg_endnames c) (cfg_logs c)
    (cfg_start c) (cfg_t0 c) (cfg_rpcs0 c) (cfg_cmds0 c) (cfg_bytes0 c) (cfg_maxIndex c) (cfg_maxIndex0 c).
Definition set_endnames (c : config) (l : list (option (list string))) : config :=
  mkConfig (cfg_net c) (cfg_n c) (cfg_rafts c) (cfg_applyErr c) (cfg_connected c) (cfg_saved c) l (cfg_logs c)
    (cfg_start c) (cfg_t0 c) (cfg_rpcs0 c) (cfg_cmds0 c) (cfg_bytes0 c) (cfg_maxIndex c) (cfg_maxIndex0 c).
Definition set_logs (c : config) (l : list (option (gmap Z iface))) (maxIndex : Z) : config :=
  mkConfig (cfg_net c) (cfg_n c) (cfg_rafts c) (cfg_applyErr c) (cfg_connected c) (cfg_saved c) (cfg_endnames c) l
    (cfg_start c) (cfg_t0 c) (cfg_rpcs0 c) (cfg_cmds0 c) (cfg_bytes0 c) maxIndex (cfg_maxIndex0 c).
Definition set_begin (c : config) (t0 rpcs0 bytes0 cmds0 maxIndex0 : Z) : config :=
  mkConfig (cfg_net c) (cfg_n c) (cfg_rafts c) (cfg_applyErr c) (cfg_connected c) (cfg_saved c) (cfg_endnames c) (cfg_logs c)
    (cfg_start c) t0 rpcs0 cmds0 bytes0 (cfg_maxIndex c) maxIndex0.

(** ** Connectivity *)

(** [cfg.endnames[i][j]]; a nil slice has length 0. *)
Definition endname (cfg : config) (i j : Z) : result string :=
  row ← (cfg_endnames cfg).[i]; (default [] row).[j].

Definition setunreliable (cfg : config) (unrel : bool) : config :=
  set_net cfg (Reliable (cfg_net cfg) (negb unrel)).
Definition setlongreordering (cfg : config) (longrel : bool) : config :=
  set_net cfg (LongReordering (cfg_net cfg) longrel).
Definition rpcTotal (cfg : config) : Z := GetTotalCount (cfg_net cfg).
Definition bytesTotal (cfg : config) : Z := GetTotalBytes (cfg_net cfg).

Definition rpcCount {V rtype World} (store : gmap ptr (Server V rtype World)) (cfg : config) (server : Z) : result Z :=
  GetCount store (cfg_net cfg) (Int server).

Definition connect (cfg : config) (i : Z) : result config :=
  connected ← (cfg_connected cfg).[i <- true];
  let cfg := set_connected cfg connected in
  rn ← enable_loop (λ j, c ← connected.[j]; if c : bool then Some <$> endname cfg i j else Ret None)
         true (cfg_net cfg) (seqZ 0 (cfg_n cfg));
  rn ← enable_loop (λ j, c ← connected.[j]; if c : bool then Some <$> endname cfg j i else Ret None)
         true rn (seqZ 0 (cfg_n cfg));
  Ret (set_net cfg rn).

Definition disconnect (cfg : config) (i : Z) : result config :=
  connected ← (cfg_connected cfg).[i <- false];
  let cfg := set_connected cfg connected in
  rn ← enable_loop (λ j, row ← (cfg_endnames cfg).[i];
                         if row is Some _ then Some <$> endname cfg i j else Ret None)
         false (cfg_net cfg) (seqZ 0 (cfg_n cfg));
  rn ← enable_loop (λ j, row ← (cfg_endnames cfg).[j];
                         if row is Some _ then Some <$> endname cfg j i else Ret None)
         false rn (seqZ 0 (cfg_n cfg));
  Ret (set_net cfg rn).

(** ** What the servers apply *)

Definition map_of (l : option (gmap Z iface)) : gmap Z iface := default ∅ l.

(** [logs[i][k] = v] on a nil map panics. *)
Definition log_write (l : option (gmap Z iface)) (k : Z) (v : iface) : result (option (gmap Z iface)) :=
  match l with
  | Some l => Ret (Some (<[k := v]> l))
  | None => Panic (Panicked "assignment to entry in nil map")
  end.

Definition mismatch (i j : Z) (m : ApplyMsg) (old : iface) : string :=
  "commit index=" +:+ pretty (CommandIndex m) +:+ " server=" +:+ pretty i +:+ " " +:+ show_iface (Command m) +:+
  " != server=" +:+ pretty j +:+ " " +:+ show_iface old.

(** The loop that compares the message with every log. *)
Definition checkLogs_err (cfg : config) (i : Z) (m : ApplyMsg) : result string :=
  foldM (λ err_msg j,
    logj ← (cfg_logs cfg).[j];
    match map_of logj !! CommandIndex m with
    | Some old =>
        if decide (old ≠ Command m) then
          (* log.Printf shows both logs *)
          (cfg_logs cfg).[i] ≫= λ _, Ret (mismatch i j m old)
        else Ret err_msg
    | None => Ret err_msg
    end) "" (seqZ 0 (Z.of_nat (length (cfg_logs cfg)))).

Definition checkLogs (cfg : config) (i : Z) (m : ApplyMsg) : result (config * string * bool) :=
  err_msg ← checkLogs_err cfg i m;
  logi ← (cfg_logs cfg).[i];
  let prevok := bool_decide (is_Some (map_of logi !! int64 (CommandIndex m - 1))) in
  logi ← log_write logi (CommandIndex m) (Command m);
  logs ← (cfg_logs cfg).[i <- logi];
  Ret (set_logs cfg logs (if decide (CommandIndex m > cfg_maxIndex cfg) then CommandIndex m else cfg_maxIndex cfg),
       err_msg, prevok).

(** A valid command: check it, and die if it is wrong. [log.Fatalf] ends the
    process, so that [cfg.applyErr[i]] is never assigned. *)
Definition apply_command (cfg : config) (i : Z) (m : ApplyMsg) : result config :=
  '(cfg, err_msg, prevok) ← checkLogs cfg i m;
  let err_msg := if decide (CommandIndex m > 1 ∧ prevok = false)
                 then "server " +:+ pretty i +:+ " apply out of order " +:+ pretty (CommandIndex m) else err_msg in
  if decide (err_msg ≠ "") then Panic (Fatal ("apply error: " +:+ err_msg)) else Ret cfg.

(** One message read by [applier]. *)
Definition applier (cfg : config) (i : Z) (m : ApplyMsg) : result config :=
  if CommandValid m then apply_command cfg i m else Ret cfg.

(** ** The Raft implementation *)

(** What the harness calls, on an instance or nil; [R] is the implementation's
    own state. *)
Record RaftOps (R : Type) := mkRaftOps {
  raft_Make : list string → Z → ptr → heap → R → result (rid * heap * R);
  raft_Kill : rid → heap → R → result (heap * R);
  raft_GetState : option rid → R → result (Z * bool * R);
  raft_Start : option rid → iface → R → result (Z * Z * bool * R);
  raft_CondInstallSnapshot : option rid → Z → Z → bytes → R → result (bool * R);
  raft_Snapshot : option rid → Z → bytes → R → result R
}.
Arguments mkRaftOps {R}.
Arguments raft_Make {R}.
Arguments raft_Kill {R}.
Arguments raft_GetState {R}.
Arguments raft_Start {R}.
Arguments raft_CondInstallSnapshot {R}.
Arguments raft_Snapshot {R}.

(** The harness, the persisters, the labrpc servers it has made (each serves
    one Raft) and the implementation. *)
Record world (R : Type) := mkWorld {
  w_cfg : config;
  w_heap : heap;
  w_srvs : gmap ptr rid;
  w_raft : R
}.
Arguments mkWorld {R}.
Arguments w_cfg {R}.
Arguments w_heap {R}.
Arguments w_srvs {R}.
Arguments w_raft {R}.

Definition SnapShotInterval : Z := 10.

Section raft.
Context {R : Type} (raft : RaftOps R).
Abbreviation world := (world R).

Definition with_cfg (w : world) (cfg : config) : world := mkWorld cfg (w_heap w) (w_srvs w) (w_raft w).
Definition with_heap (w : world) (h : heap) : world := mkWorld (w_cfg w) h (w_srvs w) (w_raft w).

Section snapshots.
(** labgob: what is written for a value, and the int read back. *)
Context (encode : iface → bytes) (decode_int : bytes → option Z).

(** One message read by [applierSnap], whose [lastApplied] is passed along. *)
Definition applierSnap (w : world) (lastApplied : Z) (i : Z) (m : ApplyMsg) : result (world * Z) :=
  let cfg := w_cfg w in
  if SnapshotValid m then
    rf ← (cfg_rafts cfg).[i];
    '(installed, r) ← raft_CondInstallSnapshot raft rf (SnapshotTerm m) (SnapshotIndex m) (Snapshot m) (w_raft w);
    let w := mkWorld cfg (w_heap w) (w_srvs w) r in
    if installed : bool then
      match decode_int (Snapshot m) with
      | None => Panic (Fatal "decode error")
      | Some v =>
          logs ← (cfg_logs cfg).[i <- Some {[ SnapshotIndex m := Int v ]}];
          Ret (with_cfg w (set_logs cfg logs (cfg_maxIndex cfg)), SnapshotIndex m)
      end
    else Ret (w, lastApplied)
  else if decide (CommandValid m = true ∧ CommandIndex m > lastApplied) then
    cfg ← apply_command cfg i m;
    let w := with_cfg w cfg in
    let lastApplied := CommandIndex m in
    if decide (Z.rem (int64 (CommandIndex m + 1)) SnapShotInterval = 0) then
      rf ← (cfg_rafts cfg).[i];
      r ← raft_Snapshot raft rf (CommandIndex m) (encode (Command m)) (w_raft w);
      Ret (mkWorld (w_cfg w) (w_heap w) (w_srvs w) r, lastApplied)
    else Ret (w, lastApplied)
  else Ret (w, lastApplied).
End snapshots.

(** ** Crashing and starting a server *)

(** [new(Persister)]: a pointer no one holds. *)
Definition alloc (h : heap) (ps : Persister) : ptr * heap :=
  let p := fresh (dom (h_ps h)) in (p, mkHeap (h_mem h) (<[p := ps]> (h_ps h))).

(** [cfg.saved[i] = cfg.saved[i].Copy()], when it is not nil. *)
Definition copy_saved (w : world) (i : Z) : result world :=
  sv ← (cfg_saved (w_cfg w)).[i];
  match sv with
  | None => Ret w
  | Some p =>
      ps ← nonnil (h_ps (w_heap w) !! p);
      let '(q, h) := alloc (w_heap w) (Copy ps) in
      saved ← (cfg_saved (w_cfg w)).[i <- Some q];
      Ret (mkWorld (set_saved (w_cfg w) saved) h (w_srvs w) (w_raft w))
  end.

Definition kill_raft (w : world) (i : Z) : result world :=
  rf ← (cfg_rafts (w_cfg w)).[i];
  match rf with
  | None => Ret w
  | Some rf =>
      '(h, r) ← raft_Kill raft rf (w_heap w) (w_raft w);
      rafts ← (cfg_rafts (w_cfg w)).[i <- None];
      Ret (mkWorld (set_rafts (w_cfg w) rafts) h (w_srvs w) r)
  end.

(** The last part of [crash1]: read the persister, save it in a new one. *)
Definition resave (w : world) (i : Z) : result world :=
  sv ← (cfg_saved (w_cfg w)).[i];
  match sv with
  | None => Ret w
  | Some p =>
      let h := w_heap w in
      ps ← nonnil (h_ps h !! p);
      let '(mem, raftlog) := ReadRaftState (h_mem h) ps in
      let '(mem, snapshot) := ReadSnapshot mem ps in
      let '(q, h) := alloc (mkHeap mem (h_ps h)) (mkPersister None None) in
      saved ← (cfg_saved (w_cfg w)).[i <- Some q];
      let '(mem, ps) := SaveStateAndSnapshot (h_mem h) (mkPersister None None) raftlog snapshot in
      Ret (mkWorld (set_saved (w_cfg w) saved) (mkHeap mem (<[q := ps]> (h_ps h))) (w_srvs w) (w_raft w))
  end.

Definition crash1 (w : world) (i : Z) : result world :=
  cfg ← disconnect (w_cfg w) i;
  let w := with_cfg w (set_net cfg (DeleteServer (cfg_net cfg) (Int i))) in
  w ← copy_saved w i;
  w ← kill_raft w i;
  resave w i.

(** [MakeEnd] and [Connect] for each new end of server [i]. *)
Definition make_ends (cfg : config) (i : Z) : result config :=
  rn ← foldM (λ rn j,
    e ← endname cfg i j;
    rn ← MakeEnd rn (Str e);
    Ret (Connect rn (Str e) (Int j))) (cfg_net cfg) (seqZ 0 (cfg_n cfg));
  Ret (set_net cfg rn).

(** [draw j] is the [j]-th random name. *)
Definition start1 (draw : Z → string) (w : world) (i : Z) : result world :=
  w ← crash1 w i;
  let cfg := w_cfg w in
  blank ← go_make (cfg_n cfg) "";
  row ← foldM (λ row j, row.[j <- draw j]) blank (seqZ 0 (cfg_n cfg));
  endnames ← (cfg_endnames cfg).[i <- Some row];
  cfg ← make_ends (set_endnames cfg endnames) i;
  let w := with_cfg w cfg in
  sv ← (cfg_saved cfg).[i];
  w ← match sv with
      | Some _ => copy_saved w i
      | None =>
          let '(q, h) := alloc (w_heap w) MakePersister in
          saved ← (cfg_saved cfg).[i <- Some q];
          Ret (mkWorld (set_saved cfg saved) h (w_srvs w) (w_raft w))
      end;
  sv ← (cfg_saved (w_cfg w)).[i];
  p ← nonnil sv;
  '(rf, h, r) ← raft_Make raft row i p (w_heap w) (w_raft w);
  rafts ← (cfg_rafts (w_cfg w)).[i <- Some rf];
  let cfg := set_rafts (w_cfg w) rafts in
  let srv := fresh (dom (w_srvs w)) in
  Ret (mkWorld (set_net cfg (AddServer (cfg_net cfg) (Int i) srv)) h (<[srv := rf]> (w_srvs w)) r).

(** ** The life of a test *)

(** The servers [i] from 0: a fresh log each, started, then connected. *)
Definition start_servers (draws : Z → Z → string) (w : world) : result world :=
  foldM (λ w i,
    logs ← (cfg_logs (w_cfg w)).[i <- Some ∅];
    start1 (draws i) (with_cfg w (set_logs (w_cfg w) logs (cfg_maxIndex (w_cfg w)))) i)
    w (seqZ 0 (cfg_n (w_cfg w))).

Definition connect_servers (w : world) : result world :=
  cfg ← foldM connect (w_cfg w) (seqZ 0 (cfg_n (w_cfg w)));
  Ret (with_cfg w cfg).

(** [now] is the time, [r] the implementation before the test. The choice
    between [applier] and [applierSnap] is which of them reads the messages. *)
Definition make_config (draws : Z → Z → string) (n : Z) (unreliable : bool) (now : Z) (r : R) : result world :=
  applyErr ← go_make n "";
  rafts ← go_make n None;
  connected ← go_make n false;
  saved ← go_make n None;
  endnames ← go_make n None;
  logs ← go_make n None;
  let cfg := mkConfig MakeNetwork n rafts applyErr connected saved endnames logs now 0 0 0 0 0 0 in
  let cfg := setunreliable cfg unreliable in
  let cfg := set_net cfg (LongDelays (cfg_net cfg) true) in
  w ← start_servers draws (mkWorld cfg (mkHeap [] ∅) ∅ r);
  connect_servers w.

Definition checkTimeout (cfg : config) (failed : bool) (now : Z) : result unit :=
  if decide (failed = false ∧ now - cfg_start cfg > 120 * 1000000000)
  then Panic (Fatal "test took longer than 120 seconds") else Ret ().

Definition cleanup (w : world) (failed : bool) (now : Z) : result world :=
  w ← foldM (λ w i,
    rf ← (cfg_rafts (w_cfg w)).[i];
    match rf with
    | Some rf => '(h, r) ← raft_Kill raft rf (w_heap w) (w_raft w); Ret (mkWorld (w_cfg w) h (w_srvs w) r)
    | None => Ret w
    end) w (seqZ 0 (Z.of_nat (length (cfg_rafts (w_cfg w)))));
  rn ← Cleanup (cfg_net (w_cfg w));
  checkTimeout (w_cfg w) failed now ≫= λ _, Ret (with_cfg w (set_net (w_cfg w) rn)).

(** The Maximum log size across all servers. *)
Definition LogSize (w : world) : result Z :=
  foldM (λ logsize i,
    sv ← (cfg_saved (w_cfg w)).[i];
    p ← nonnil sv;
    ps ← nonnil (h_ps (w_heap w) !! p);
    let n := RaftStateSize (h_mem (w_heap w)) ps in
    Ret (if decide (n > logsize) then n else logsize)) 0 (seqZ 0 (cfg_n (w_cfg w))).
End raft.

Definition begin (cfg : config) (now : Z) : config :=
  set_begin cfg now (rpcTotal cfg) (bytesTotal cfg) 0 (cfg_maxIndex cfg).

(** What [end] prints: time, servers, RPCs, bytes and agreements. *)
Definition end_ (cfg : config) (failed : bool) (now : Z) : result (option (Z * Z * Z * Z * Z)) :=
  checkTimeout cfg failed now ≫= λ _,
  Ret (if failed then None
       else Some (now - cfg_t0 cfg, cfg_n cfg, int64 (rpcTotal cfg - cfg_rpcs0 cfg),
                  int64 (bytesTotal cfg - cfg_bytes0 cfg), int64 (cfg_maxIndex cfg - cfg_maxIndex0 cfg))).
