(* ===== verification/Raft.v ===== *)
(** raft/raft.go: the Raft peer as the lab hands it out, with the bodies still
    to be written; and with it, the harness running on it. *)
From Stdlib Require Import ZArith Lia.
From stdpp Require Import base gmap sets list strings pretty.
From S2P Require Import Prelude Labrpc Persister Iface RaftConfig.

(** A peer; its ends are known by their names. *)
Record Raft := mkRaft {
  rf_peers : list string;
  rf_persister : ptr;
  rf_me : Z;
  rf_dead : Z
}.

(** All peers, by pointer. *)
Abbreviation peers_t := (gmap rid Raft).

(** The return values of the unwritten methods. *)
Definition GetState (rf : option rid) (s : peers_t) : result (Z * bool * peers_t) := Ret (0, false, s).

Definition CondInstallSnapshot (rf : option rid) (lastIncludedTerm lastIncludedIndex : Z) (snapshot : bytes)
    (s : peers_t) : result (bool * peers_t) := Ret (true, s).

Definition Snapshot (rf : option rid) (index : Z) (snapshot : bytes) (s : peers_t) : result peers_t := Ret s.

Definition Start (rf : option rid) (command : iface) (s : peers_t) : result (Z * Z * bool * peers_t) :=
  let index := -1 in
  let term := -1 in
  let isLeader := true in
  Ret (index, term, isLeader, s).

Definition Kill (rf : option rid) (s : peers_t) : result peers_t :=
  p ← nonnil rf;
  r ← nonnil (s !! p);
  Ret (<[p := mkRaft (rf_peers r) (rf_persister r) (rf_me r) 1]> s).

Definition killed (rf : option rid) (s : peers_t) : result bool :=
  p ← nonnil rf;
  r ← nonnil (s !! p);
  Ret (bool_decide (rf_dead r = 1)).

(** [ticker] does nothing until the peer is killed: one turn of its loop. *)
Definition ticker_turn (rf : option rid) (s : peers_t) : result bool :=
  k ← killed rf s; Ret (negb k).

(** [readPersist] reads nothing yet, whatever it is given. *)
Definition readPersist (rf : option rid) (data : bytes) (s : peers_t) : result peers_t := Ret s.

(** [rf.peers[server].Call("Raft.RequestVote", args, reply)], given [Call]. *)
Definition sendRequestVote {A} (Call : string → string → A) (rf : option rid) (server : Z) (s : peers_t) : result A :=
  p ← nonnil rf;
  r ← nonnil (s !! p);
  e ← (rf_peers r).[server];
  Ret (Call e "Raft.RequestVote").

Definition Make (peers : list string) (me : Z) (persister : ptr) (h : heap) (s : peers_t)
    : result (rid * heap * peers_t) :=
  let rf := fresh (dom s) in
  let s := <[rf := mkRaft peers persister me 0]> s in
  ps ← nonnil (h_ps h !! persister);
  let '(mem, data) := ReadRaftState (h_mem h) ps in
  s ← readPersist (Some rf) (slice mem data) s;
  Ret (rf, mkHeap mem (h_ps h), s).

Definition raft_skeleton : RaftOps peers_t := {|
  raft_Make := Make;
  raft_Kill rf h s := s ← Kill (Some rf) s; Ret (h, s);
  raft_GetState := GetState;
  raft_Start := Start;
  raft_CondInstallSnapshot := CondInstallSnapshot;
  raft_Snapshot := Snapshot
|}.

(** ** A test of three servers *)

(** Distinct names for the ends. *)
Definition digit (i : Z) : string :=
  default "?" (["0"; "1"; "2"; "3"; "4"; "5"; "6"; "7"; "8"; "9"] !! Z.to_nat i).
Definition sample_names (i j : Z) : string := digit i +:+ digit j.

Definition get {A} (m : result A) (d : A) : A := match m with Ret a => a | _ => d end.
Definition returns {A} (m : result A) : bool := match m with Ret _ => true | _ => false end.
Lemma get_ret {A} (m : result A) d : returns m = true → m = Ret (get m d).
Proof. by destruct m. Qed.

Definition no_world : world peers_t :=
  mkWorld (mkConfig MakeNetwork 0 [] [] [] [] [] [] 0 0 0 0 0 0 0) (mkHeap [] ∅) ∅ ∅.
Definition three : world peers_t := get (make_config raft_skeleton sample_names 3 false 0 ∅) no_world.

Example three_rafts : cfg_rafts (w_cfg three) = [Some 0; Some 1; Some 2]%nat.
Proof. vm_compute. reflexivity. Qed.
Example three_connected : cfg_connected (w_cfg three) = [true; true; true].
Proof. vm_compute. reflexivity. Qed.
