(* ===== verification/RaftLogs.v ===== *)
(** What the appliers of the Raft harness accept: the logs they build, and the
    theorems about raft/config.go's checkLogs, applier and applierSnap. *)
From Stdlib Require Import ZArith Lia.
From stdpp Require Import base gmap sets list strings pretty.
From S2P Require Import Prelude Labrpc Persister Iface Raft RaftConfig.

(** The log of server [i]. *)
Definition log_of (cfg : config) (i : Z) : gmap Z iface :=
  match cfg_logs cfg !! Z.to_nat i with Some l => map_of l | None => ∅ end.

Definition server_of (cfg : config) (i : Z) : Prop := 0 ≤ i < Z.of_nat (length (cfg_logs cfg)).

(** Every log has been made. *)
Definition logs_made (cfg : config) : Prop := Forall is_Some (cfg_logs cfg).

(** No log has another value where the message has its command. *)
Definition agrees (cfg : config) (m : ApplyMsg) : Prop :=
  ∀ j old, server_of cfg j → log_of cfg j !! CommandIndex m = Some old → old = Command m.

Lemma log_of_index cfg i : server_of cfg i → ∃ l, (cfg_logs cfg).[i] = Ret l ∧ map_of l = log_of cfg i.
Proof.
  intros Hi. destruct (go_index_in_range (cfg_logs cfg) i Hi) as [l El]. exists l. split; [done|].
  apply go_index_ret in El as [_ El]. unfold log_of. by rewrite El.
Qed.

(** The server has the command before it, unless it is the first. *)
Definition in_sequence (cfg : config) (i : Z) (m : ApplyMsg) : Prop :=
  CommandIndex m > 1 → is_Some (log_of cfg i !! (CommandIndex m - 1)).

#[export] Instance in_sequence_dec cfg i m : Decision (in_sequence cfg i m).
Proof. unfold in_sequence. apply _. Defined.

Lemma checkLogs_err_spec cfg i m :
  server_of cfg i → ∃ e, checkLogs_err cfg i m = Ret e ∧ (e = "" ↔ agrees cfg m).
Proof.
  intros Hi. unfold checkLogs_err.
  match goal with |- context [foldM ?f] => edestruct (foldM_inv f (λ js e, e = "" ↔ ∀ j old, j ∈ js → log_of cfg j !! CommandIndex m = Some old → old = Command m)
    "" (seqZ 0 (Z.of_nat (length (cfg_logs cfg))))) as (e & -> & He) end; cycle 2.
  - exists e. split; [done|]. rewrite He. unfold agrees, server_of. split; intros Ha j old Hj.
    + apply Ha, elem_of_seqZ. lia.
    + apply Ha. apply elem_of_seqZ in Hj. lia.
  - split; [|done]. by intros _ j old ?%elem_of_nil.
  - intros l1 j l2 e Hl He. cbv beta in *.
    assert (j ∈ seqZ 0 (Z.of_nat (length (cfg_logs cfg)))) as Hj by (rewrite Hl; set_solver).
    apply elem_of_seqZ in Hj. destruct (log_of_index cfg j) as (lg & Elg & Hlg); [unfold server_of; lia|].
    destruct (log_of_index cfg i Hi) as (lgi & Elgi & _).
    rewrite Elg; cbn [mbind result_bind]. rewrite Hlg.
    destruct (log_of cfg j !! CommandIndex m) as [old|] eqn:Eold; [case_decide as Hne|].
    + rewrite Elgi. eexists. split; [done|]. split; [done|]. intros Hall. destruct Hne. eapply Hall; [|done]. set_solver.
    + eexists. split; [done|]. rewrite He. split; intros Hall j' old' Hj'.
      * apply elem_of_app in Hj' as [?|[->|?%elem_of_nil]%elem_of_cons]; [by apply Hall|congruence|done].
      * apply Hall. set_solver.
    + eexists. split; [done|]. rewrite He. split; intros Hall j' old' Hj'.
      * apply elem_of_app in Hj' as [?|[->|?%elem_of_nil]%elem_of_cons]; [by apply Hall|congruence|done].
      * apply Hall. set_solver.
Qed.

(** [cfg] with the message entered in the log of [i]. *)
Definition entered (cfg : config) (i : Z) (m : ApplyMsg) : config :=
  set_logs cfg (<[Z.to_nat i := Some (<[CommandIndex m := Command m]> (log_of cfg i))]> (cfg_logs cfg))
    (if decide (CommandIndex m > cfg_maxIndex cfg) then CommandIndex m else cfg_maxIndex cfg).

Definition is_int (z : Z) : Prop := - 2 ^ 63 ≤ z < 2 ^ 63.

(** A command is entered if it agrees with every log and follows the one
    before it; else the process dies. *)
Lemma apply_command_spec cfg i m :
  server_of cfg i → logs_made cfg → is_int (CommandIndex m) →
  agrees cfg m ∧ in_sequence cfg i m ∧ apply_command cfg i m = Ret (entered cfg i m) ∨
  ¬ (agrees cfg m ∧ in_sequence cfg i m) ∧
    ∃ e, apply_command cfg i m = Panic (Fatal ("apply error: " +:+ e)) ∧ e ≠ "".
Proof.
  intros Hi Hmade Hint. unfold apply_command, checkLogs.
  destruct (checkLogs_err_spec cfg i m Hi) as (e & -> & He); cbn [mbind result_bind].
  destruct (log_of_index cfg i Hi) as (lg & Elg & Hlg). rewrite Elg; cbn [mbind result_bind].
  assert (is_Some lg) as [l ->].
  { apply go_index_ret in Elg as [_ Elg]. eapply Forall_lookup in Elg; [|done]. done. }
  change (l = log_of cfg i) in Hlg. change (map_of (Some l)) with l. subst l.
  cbn [log_write mbind result_bind].
  rewrite go_update_ret by done. cbn [mbind result_bind]. fold (entered cfg i m).
  assert (CommandIndex m > 1 ∧ bool_decide (is_Some (log_of cfg i !! int64 (CommandIndex m - 1))) = false
          ↔ ¬ in_sequence cfg i m) as Hseq.
  { unfold in_sequence. destruct (decide (CommandIndex m > 1)) as [Hgt|]; [|tauto].
    assert (int64 (CommandIndex m - 1) = CommandIndex m - 1) as ->.
    { unfold is_int in Hint. apply swrap_small; lia. }
    rewrite bool_decide_eq_false. tauto. }
  destruct (decide (CommandIndex m > 1 ∧ bool_decide (is_Some (log_of cfg i !! int64 (CommandIndex m - 1))) = false)) as [Hc|Hc].
  - right. apply Hseq in Hc. split; [by intros [_ ?]|]. rewrite decide_True by done. eauto.
  - assert (in_sequence cfg i m) as Hs by (by apply dec_stable; intros Hs; apply Hc, Hseq).
    destruct (decide (e = "")) as [Hemp|Hne].
    + left. rewrite decide_False by (by intros ?). split_and!; [by apply He|done..].
    + right. rewrite decide_True by done. split; [by intros [?%He _]|eauto].
Qed.

Lemma log_of_entered cfg i m j : server_of cfg i → server_of cfg j →
  log_of (entered cfg i m) j = if decide (i = j) then <[CommandIndex m := Command m]> (log_of cfg i) else log_of cfg j.
Proof.
  unfold server_of, log_of at 1, entered. simpl. intros Hi Hj. case_decide as E.
  - subst j. rewrite list_lookup_insert_eq by lia. done.
  - rewrite list_lookup_insert_ne by lia. done.
Qed.

Lemma entered_servers cfg i m j : server_of (entered cfg i m) j ↔ server_of cfg j.
Proof. unfold server_of, entered; simpl. by rewrite length_insert. Qed.
Lemma entered_made cfg i m : logs_made cfg → logs_made (entered cfg i m).
Proof. intros Hm. unfold logs_made, entered; simpl. apply Forall_insert; [done|eauto]. Qed.

(** ** applier *)

(** What the servers applied, in the order the appliers read it. *)
Abbreviation applied := (list (Z * ApplyMsg)).

Definition appliers (cfg : config) (msgs : applied) : result config :=
  foldM (λ cfg x, applier cfg x.1 x.2) cfg msgs.

(** Server [i] applied [v] at index [k]. *)
Definition committed (msgs : applied) (i k : Z) (v : iface) : Prop :=
  ∃ m, (i, m) ∈ msgs ∧ CommandValid m = true ∧ CommandIndex m = k ∧ Command m = v.

(** No index has two commands, and every server applies index [k > 1] only
    after index [k - 1]. *)
Definition consistent (msgs : applied) : Prop :=
  (∀ i j k v v', committed msgs i k v → committed msgs j k v' → v = v') ∧
  (∀ pre i m post, msgs = pre ++ (i, m) :: post → CommandValid m = true → CommandIndex m > 1 →
     ∃ v, committed pre i (CommandIndex m - 1) v).

Definition messages_ok (cfg : config) (msgs : applied) : Prop :=
  Forall (λ x, server_of cfg x.1 ∧ is_int (CommandIndex x.2)) msgs.

(** The logs hold what was applied. *)
Record logged (cfg0 cfg : config) (msgs : applied) : Prop := {
  lg_made : logs_made cfg;
  lg_servers i : server_of cfg i ↔ server_of cfg0 i;
  lg_log i k v : server_of cfg i → log_of cfg i !! k = Some v ↔ committed msgs i k v;
  lg_max : cfg_maxIndex cfg = foldl (λ a x, if CommandValid x.2 then Z.max a (CommandIndex x.2) else a) (cfg_maxIndex cfg0) msgs
}.

Lemma committed_app msgs msgs' i k v : committed (msgs ++ msgs') i k v ↔ committed msgs i k v ∨ committed msgs' i k v.
Proof.
  unfold committed. split.
  - intros (m & [?|?]%elem_of_app & ?); eauto.
  - intros [(m & ? & ?)|(m & ? & ?)]; exists m; rewrite elem_of_app; tauto.
Qed.
Lemma committed_one i m j k v :
  committed [(i, m)] j k v ↔ j = i ∧ CommandValid m = true ∧ CommandIndex m = k ∧ Command m = v.
Proof.
  unfold committed. split.
  - intros (m' & [[= -> ->]|?%elem_of_nil]%elem_of_cons & ?); [done|done].
  - intros (-> & ?). exists m. split; [by left|done].
Qed.

Lemma consistent_init msgs x : consistent (msgs ++ [x]) → consistent msgs.
Proof.
  intros [Ha Hs]. split.
  - intros i j k v v' ? ?. eapply (Ha i j k); apply committed_app; eauto.
  - intros pre i m post ->. apply (Hs pre i m (post ++ [x])). by rewrite <-(assoc_L (++)).
Qed.

Lemma committed_server cfg0 cfg msgs i k v :
  logged cfg0 cfg msgs → messages_ok cfg0 msgs → committed msgs i k v → server_of cfg i.
Proof.
  intros Hlg Hok (m & Hm & _). apply (lg_servers _ _ _ Hlg). by apply (proj1 (Forall_forall _ _) Hok (i, m)).
Qed.

Lemma snoc_split {A} (pre post : list A) x msgs y :
  msgs ++ [y] = pre ++ x :: post → (msgs = pre ∧ y = x) ∨ ∃ post', msgs = pre ++ x :: post'.
Proof.
  destruct post as [|z post _] using rev_ind; intros E.
  - apply app_inj_tail in E. tauto.
  - rewrite app_comm_cons, (assoc_L (++)) in E. apply app_inj_tail in E as [-> _]. eauto.
Qed.

(** One more command keeps the history consistent exactly when it agrees with
    the logs and is in sequence. *)
Lemma consistent_snoc cfg0 cfg msgs i m :
  logged cfg0 cfg msgs → messages_ok cfg0 msgs → server_of cfg i → consistent msgs → CommandValid m = true →
  consistent (msgs ++ [(i, m)]) ↔ agrees cfg m ∧ in_sequence cfg i m.
Proof.
  intros Hlg Hok Hi [Ha Hs] Hv. pose proof (lg_log _ _ _ Hlg) as Hlog.
  pose proof (λ j k v, committed_server cfg0 cfg msgs j k v Hlg Hok) as Hsrv. split.
  - intros [Ha' Hs']. split.
    + intros j old Hj Hold. apply (Ha' j i (CommandIndex m)); apply committed_app.
      * left. by apply Hlog.
      * right. by apply committed_one.
    + intros Hgt. destruct (Hs' msgs i m []) as [v Hc]; [done..|]. exists v. by apply Hlog.
  - intros [Hag Hsq]. split.
    + intros j j' k v v' [Hj|(-> & _ & <- & <-)%committed_one]%committed_app
        [Hj'|(-> & _ & E & E')%committed_one]%committed_app; try congruence; [by eapply Ha| |].
      * rewrite <-E'. apply (Hag j); [by eapply Hsrv|]. rewrite E. apply Hlog; [by eapply Hsrv|done].
      * symmetry. apply (Hag j'); [by eapply Hsrv|]. apply Hlog; [by eapply Hsrv|done].
    + intros pre i' m' post [[-> [= -> ->]]|(post' & ->)]%snoc_split Hv' Hgt; [|by eapply Hs].
      destruct (Hsq Hgt) as [v Hvv]. exists v. by apply Hlog.
Qed.

(** Messages that are not commands do not count. *)
Lemma consistent_skip msgs i m : CommandValid m = false → consistent msgs → consistent (msgs ++ [(i, m)]).
Proof.
  intros Hv [Ha Hs]. split.
  - intros j j' k v v' [Hj|(_ & ? & _)%committed_one]%committed_app [Hj'|(_ & ? & _)%committed_one]%committed_app;
      [by eapply Ha|congruence..].
  - intros pre i' m' post [[-> [= -> ->]]|(post' & ->)]%snoc_split; [congruence|by eapply Hs].
Qed.

Lemma logged_skip cfg0 cfg msgs i m :
  CommandValid m = false → logged cfg0 cfg msgs → logged cfg0 cfg (msgs ++ [(i, m)]).
Proof.
  intros Hv Hlg. split; try apply Hlg.
  - intros j k v Hj. rewrite (lg_log _ _ _ Hlg) by done. rewrite committed_app, committed_one, Hv.
    split; [by left|]. by intros [?|(_ & ? & _)].
  - rewrite foldl_app. simpl. rewrite Hv. apply Hlg.
Qed.

Lemma logged_entered cfg0 cfg msgs i m :
  logged cfg0 cfg msgs → server_of cfg i → agrees cfg m → CommandValid m = true →
  logged cfg0 (entered cfg i m) (msgs ++ [(i, m)]).
Proof.
  intros Hlg Hi Hag Hv. split.
  - apply entered_made, Hlg.
  - intros j. rewrite entered_servers. apply (lg_servers _ _ _ Hlg).
  - intros j k v Hj. apply (proj1 (entered_servers cfg i m j)) in Hj. rewrite log_of_entered by done. rewrite committed_app, committed_one, Hv.
    case_decide as E; [subst j|].
    + rewrite lookup_insert. case_decide as E; [subst k|].
      * rewrite <-(lg_log _ _ _ Hlg) by done. split; [intros [= <-]; by right|].
        intros [Hold|(_ & _ & _ & <-)]; [|done]. f_equal. symmetry. by apply (Hag i).
      * rewrite (lg_log _ _ _ Hlg) by done. split; [by left|]. by intros [?|(_ & _ & ? & _)].
    + rewrite (lg_log _ _ _ Hlg) by done. split; [by left|]. intros [?|(? & _)]; [done|congruence].
  - rewrite foldl_app. simpl. rewrite Hv, <-(lg_max _ _ _ Hlg). case_decide; lia.
Qed.

Lemma appliers_spec cfg0 msgs :
  logged cfg0 cfg0 [] → messages_ok cfg0 msgs →
  (consistent msgs ∧ ∃ cfg, appliers cfg0 msgs = Ret cfg ∧ logged cfg0 cfg msgs) ∨
  (¬ consistent msgs ∧ ∃ e, appliers cfg0 msgs = Panic (Fatal ("apply error: " +:+ e))).
Proof.
  intros H0. induction msgs as [|[i m] msgs IH] using rev_ind; intros Hok.
  { left. split; [|by exists cfg0]. split; [by intros ????? (? & ?%elem_of_nil & _)|]. by intros []. }
  apply Forall_app in Hok as [Hok [[Hi Hint] _]%Forall_cons]. unfold appliers in *. rewrite foldM_app.
  destruct (IH Hok) as [(Hc & cfg & -> & Hlg)|(Hno & e & ->)]; cbn [mbind result_bind foldM fst snd] in *; last first.
  { right. split; [by intros ?%consistent_init|by exists e]. }
  apply (lg_servers _ _ _ Hlg) in Hi. unfold applier. destruct (CommandValid m) eqn:Hv; cbn [mbind result_bind]; last first.
  { left. split; [by apply consistent_skip|]. eexists. split; [done|by apply logged_skip]. }
  rewrite (consistent_snoc cfg0 cfg) by done.
  destruct (apply_command_spec cfg i m) as [(Hag & Hsq & ->)|(Hno & e & -> & _)]; [done|apply Hlg|done| |].
  - left. split; [done|]. eexists. split; [done|by apply logged_entered].
  - right. split; [done|by exists e].
Qed.

(** The state of a test with [n] servers when it starts. *)
Definition no_logs (cfg : config) : Prop := Forall (λ l, l = Some ∅) (cfg_logs cfg).

Lemma no_logs_logged cfg : no_logs cfg → logged cfg cfg [].
Proof.
  intros Hn. split; [|done| |done].
  - eapply Forall_impl; [exact Hn|]. by intros ? ->.
  - intros i k v Hi. unfold log_of. split.
    + destruct (cfg_logs cfg !! Z.to_nat i) as [l|] eqn:El; [|by rewrite lookup_empty].
      pose proof (Forall_lookup_1 _ _ _ _ Hn El) as Hl. cbv beta in Hl. rewrite Hl. simpl. by rewrite lookup_empty.
    + by intros (m & ?%elem_of_nil & _).
Qed.

(** C28: the appliers are a checker of state machine safety: fed, in any
    interleaving, what the servers apply, they accept exactly the histories
    in which no index is given two commands and every server applies in
    order; the logs then hold what was applied, and [maxIndex] its largest
    index. On any other history the process dies of an apply error. *)
Theorem appliers_accept cfg0 msgs :
  no_logs cfg0 → messages_ok cfg0 msgs →
  (consistent msgs → ∃ cfg, appliers cfg0 msgs = Ret cfg ∧
     (∀ i k v, server_of cfg0 i → log_of cfg i !! k = Some v ↔ committed msgs i k v) ∧
     cfg_maxIndex cfg =
       foldl (λ a x, if CommandValid x.2 then Z.max a (CommandIndex x.2) else a) (cfg_maxIndex cfg0) msgs) ∧
  (¬ consistent msgs → ∃ e, appliers cfg0 msgs = Panic (Fatal ("apply error: " +:+ e))).
Proof.
  intros Hn Hok. destruct (appliers_spec cfg0 msgs (no_logs_logged _ Hn) Hok) as [(Hc & cfg & Er & Hlg)|[Hno ?]].
  - split; [|done]. intros _. exists cfg. split; [done|]. split; [|apply Hlg].
    intros i k v Hi. apply (lg_log _ _ _ Hlg). by apply (lg_servers _ _ _ Hlg).
  - split; [done|]. by intros _.
Qed.

(** ** applierSnap *)

Section snapshots.
Context {R : Type} (raft : RaftOps R) (encode : iface → bytes) (decode_int : bytes → option Z).
Abbreviation world := (world R).

(** The appliers of all servers, with the [lastApplied] of each. *)
Definition snap_appliers (w : world) (lasts : gmap Z Z) (msgs : applied) : result (world * gmap Z Z) :=
  foldM (λ s x,
    '(w, last) ← applierSnap raft encode decode_int s.1 (default 0 (s.2 !! x.1)) x.1 x.2;
    Ret (w, <[x.1 := last]> s.2)) (w, lasts) msgs.

(** A snapshot that some server is told to install. *)
Definition installed (msgs : applied) (k : Z) (v : iface) : Prop :=
  ∃ i m z, (i, m) ∈ msgs ∧ SnapshotValid m = true ∧ SnapshotIndex m = k ∧ decode_int (Snapshot m) = Some z ∧ v = Int z.

(** Snapshots hold the command of the index they are for. *)
Definition honest (msgs : applied) : Prop :=
  (∀ m k v, installed msgs k v → m ∈ msgs.*2 → CommandValid m = true → CommandIndex m = k → Command m = v) ∧
  (∀ k v v', installed msgs k v → installed msgs k v' → v = v') ∧
  (∀ k v, installed msgs k v → 0 ≤ k).

(** A log without gaps that ends at [last]. *)
Definition is_run (l : gmap Z iface) (last : Z) : Prop :=
  0 ≤ last ∧ ∃ a, 0 ≤ a ≤ last + 1 ∧ ∀ k, is_Some (l !! k) ↔ a ≤ k ≤ last.

(** What holds between messages of a history [msgs]. *)
Record snap_inv (msgs : applied) (cfg : config) (lasts : gmap Z Z) : Prop := {
  si_made : logs_made cfg;
  si_from i k v : server_of cfg i → log_of cfg i !! k = Some v →
    installed msgs k v ∨ ∃ j, committed msgs j k v;
  si_agree i j k v v' : server_of cfg i → server_of cfg j →
    log_of cfg i !! k = Some v → log_of cfg j !! k = Some v' → v = v';
  si_run i : server_of cfg i → is_run (log_of cfg i) (default 0 (lasts !! i))
}.

(** Only the log of [i] changes, to [l], and [lastApplied] with it. *)
Lemma snap_inv_update msgs cfg lasts i l mx last :
  snap_inv msgs cfg lasts → server_of cfg i →
  (∀ k v, l !! k = Some v → installed msgs k v ∨ ∃ j, committed msgs j k v) →
  (∀ j k v v', server_of cfg j → j ≠ i → l !! k = Some v → log_of cfg j !! k = Some v' → v = v') →
  is_run l last →
  snap_inv msgs (set_logs cfg (<[Z.to_nat i := Some l]> (cfg_logs cfg)) mx) (<[i := last]> lasts).
Proof.
  intros Hinv Hi Hfrom Hag Hrun. set (cfg' := set_logs _ _ _).
  assert (∀ j, server_of cfg' j ↔ server_of cfg j) as Hsrv by (intros j; unfold server_of; simpl; by rewrite length_insert).
  assert (∀ j, server_of cfg j → log_of cfg' j = if decide (i = j) then l else log_of cfg j) as Hlog.
  { unfold server_of in *. intros j Hj. unfold log_of at 1; simpl. case_decide as E.
    - subst j. by rewrite list_lookup_insert_eq by lia.
    - by rewrite list_lookup_insert_ne by lia. }
  split.
  - apply Forall_insert; [apply Hinv|eauto].
  - intros j k v Hj%Hsrv. rewrite Hlog by done. case_decide; [apply Hfrom|by apply (si_from _ _ _ Hinv)].
  - intros j j' k v v' Hj%Hsrv Hj'%Hsrv. rewrite !Hlog by done.
    case_decide as E; case_decide as E'; [congruence|by apply Hag| |by apply (si_agree _ _ _ Hinv)].
    intros ? ?. symmetry. by eapply (Hag j).
  - intros j Hj%Hsrv. rewrite Hlog by done. rewrite lookup_insert. case_decide; [done|]. by apply (si_run _ _ _ Hinv).
Qed.

Lemma snap_inv_last msgs cfg lasts i last :
  last = default 0 (lasts !! i) → snap_inv msgs cfg lasts → snap_inv msgs cfg (<[i := last]> lasts).
Proof.
  intros -> Hinv. split; try apply Hinv. intros j Hj. rewrite lookup_insert.
  case_decide as E; [subst j|]; by apply (si_run _ _ _ Hinv).
Qed.

Lemma snap_inv_command msgs cfg lasts i m :
  snap_inv msgs cfg lasts → server_of cfg i → (i, m) ∈ msgs → CommandValid m = true →
  CommandIndex m > default 0 (lasts !! i) → agrees cfg m → in_sequence cfg i m →
  snap_inv msgs (entered cfg i m) (<[i := CommandIndex m]> lasts).
Proof.
  intros Hinv Hi Hm Hv Hgt Hag Hsq. apply snap_inv_update; [done|done|..].
  - intros k v. rewrite lookup_insert. case_decide as E; [|by apply (si_from _ _ _ Hinv)].
    intros [= <-]. right. exists i, m. done.
  - intros j k v v' Hj Hne. rewrite lookup_insert. case_decide as E.
    + intros [= <-] Hv'. subst k. symmetry. by apply (Hag j).
    + by apply (si_agree _ _ _ Hinv).
  - destruct (si_run _ _ _ Hinv i Hi) as (Hla & a & Ha & Hdom). set (la := default 0 (lasts !! i)) in *.
    destruct (decide (CommandIndex m = la + 1)) as [E|Hne].
    + split; [lia|]. exists a. split; [lia|]. intros k. rewrite lookup_insert. case_decide as E'; [subst k|].
      * split; [lia|eauto].
      * rewrite Hdom. lia.
    + exfalso. assert (is_Some (log_of cfg i !! (CommandIndex m - 1))) as Hp by (apply Hsq; lia).
      apply Hdom in Hp. lia.
Qed.

Lemma snap_inv_install msgs cfg lasts i m z mx :
  snap_inv msgs cfg lasts → honest msgs → server_of cfg i → (i, m) ∈ msgs → SnapshotValid m = true →
  decode_int (Snapshot m) = Some z →
  snap_inv msgs (set_logs cfg (<[Z.to_nat i := Some {[ SnapshotIndex m := Int z ]}]> (cfg_logs cfg)) mx)
    (<[i := SnapshotIndex m]> lasts).
Proof.
  intros Hinv (Hh1 & Hh2 & Hh3) Hi Hm Hv Hz.
  assert (installed msgs (SnapshotIndex m) (Int z)) as Hin by (exists i, m, z; done).
  apply snap_inv_update; [done|done|..].
  - intros k v [<- <-]%lookup_singleton_Some. by left.
  - intros j k v v' Hj Hne [<- <-]%lookup_singleton_Some Hv'.
    destruct (si_from _ _ _ Hinv j _ _ Hj Hv') as [Hin'|(j' & m' & Hm' & Hc & Hk & <-)]; [by eapply Hh2|].
    symmetry. apply (Hh1 _ _ _ Hin); [|done|done]. apply list_elem_of_fmap. by exists (j', m').
  - apply Hh3 in Hin. split; [done|]. exists (SnapshotIndex m). split; [lia|]. intros k.
    rewrite lookup_singleton. case_decide; split; intros Hk; try lia; [eauto|by destruct Hk].
Qed.

(** A valid snapshot or a fresh command changes one log; anything else, none. *)
Lemma applierSnap_inv msgs w lasts i m w' last' :
  snap_inv msgs (w_cfg w) lasts → honest msgs → server_of (w_cfg w) i → is_int (CommandIndex m) → (i, m) ∈ msgs →
  applierSnap raft encode decode_int w (default 0 (lasts !! i)) i m = Ret (w', last') →
  snap_inv msgs (w_cfg w') (<[i := last']> lasts) ∧ length (cfg_logs (w_cfg w')) = length (cfg_logs (w_cfg w)).
Proof.
  intros Hinv Hh Hi Hint Hm. unfold applierSnap. destruct (SnapshotValid m) eqn:Hv.
  - intros Hr. inv_ret. destruct x0 as [inst r]. destruct inst; [|injection Hr as <- <-; split; [|done];
      by apply snap_inv_last].
    destruct (decode_int (Snapshot m)) as [z|] eqn:Hz; [|done]. inv_ret.
    rewrite go_update_ret in E1 by done. simplify_eq. simpl.
    split; [by apply snap_inv_install|by rewrite length_insert].
  - case_decide as Hc; [|intros [= <- <-]; split; [by apply snap_inv_last|done]]. destruct Hc as [Hcv Hgt].
    destruct (apply_command_spec (w_cfg w) i m) as [(Hag & Hsq & ->)|(_ & e & -> & _)]; [done|apply Hinv|done| |done].
    cbn [mbind result_bind]. intros Hr.
    assert (w_cfg w' = entered (w_cfg w) i m ∧ last' = CommandIndex m) as [-> ->].
    { case_decide; inv_ret; by simplify_eq/=. }
    split; [by apply snap_inv_command|]. simpl. by rewrite length_insert.
Qed.

Lemma installed_app msgs msgs' k v : installed msgs k v → installed (msgs ++ msgs') k v.
Proof. intros (i & m & z & Hm & ?). exists i, m, z. rewrite elem_of_app. tauto. Qed.

Lemma snap_inv_more msgs msgs' cfg lasts : snap_inv msgs cfg lasts → snap_inv (msgs ++ msgs') cfg lasts.
Proof.
  intros Hinv. split; try apply Hinv. intros i k v Hi Hk.
  destruct (si_from _ _ _ Hinv i k v Hi Hk) as [?|[j ?]].
  - left. by apply installed_app.
  - right. exists j. apply committed_app. by left.
Qed.

Lemma honest_init msgs msgs' : honest (msgs ++ msgs') → honest msgs.
Proof.
  intros (H1 & H2 & H3). split_and!.
  - intros m k v Hin Hm. eapply H1; [by apply installed_app|]. rewrite fmap_app. set_solver.
  - intros k v v' ? ?. eapply H2; by apply installed_app.
  - intros k v ?. eapply H3; by apply installed_app.
Qed.

Lemma snap_appliers_inv w0 msgs w lasts :
  no_logs (w_cfg w0) → messages_ok (w_cfg w0) msgs → honest msgs →
  snap_appliers w0 ∅ msgs = Ret (w, lasts) →
  snap_inv msgs (w_cfg w) lasts ∧ length (cfg_logs (w_cfg w)) = length (cfg_logs (w_cfg w0)).
Proof.
  intros Hn. revert w lasts. induction msgs as [|[i m] msgs IH] using rev_ind; intros w lasts Hok Hh.
  - intros [= <- <-]. split; [|done]. pose proof (no_logs_logged _ Hn) as Hlg.
    assert (∀ i k v, server_of (w_cfg w0) i → log_of (w_cfg w0) i !! k = Some v → False) as Hemp.
    { intros i k v Hi (m & ?%elem_of_nil & _)%(lg_log _ _ _ Hlg); done. }
    split; [apply Hlg|..].
    + intros i k v Hi ?. by edestruct Hemp.
    + intros i j k v v' Hi _ ?. by edestruct Hemp.
    + intros i Hi. split; [done|]. exists 1. split; [done|]. intros k. rewrite lookup_empty. cbn.
      split; [intros [v ?]; by edestruct Hemp|lia].
  - unfold snap_appliers in *. rewrite foldM_app. cbn [foldM]. intros Hr. inv_ret. destruct x as [w1 l1].
    apply Forall_app in Hok as [Hok [[Hi Hint] _]%Forall_cons]. simpl in Hi, Hint.
    destruct (IH w1 l1 Hok (honest_init _ _ Hh) E) as [Hinv Hlen]. cbn [fst snd] in Hr.
    inv_ret. match goal with p : _ * Z |- _ => destruct p as [w2 last] end. simplify_eq/=.
    unfold server_of in Hi. rewrite <-Hlen in Hi. rewrite <-Hlen.
    eapply applierSnap_inv; [by apply snap_inv_more|done|done|done| |exact E1].
    apply elem_of_app. right. by left.
Qed.

(** C29: with snapshots, as long as the snapshots servers are told to install
    hold the command of their index, the appliers keep the logs of all servers
    in agreement and every log a run of indices without gaps that ends at the
    server's [lastApplied], whatever the interleaving and whichever snapshots
    Raft declines to install. *)
Theorem snapshot_logs_agree w0 msgs w lasts :
  no_logs (w_cfg w0) → messages_ok (w_cfg w0) msgs → honest msgs →
  snap_appliers w0 ∅ msgs = Ret (w, lasts) →
  (∀ i j k v v', server_of (w_cfg w0) i → server_of (w_cfg w0) j →
     log_of (w_cfg w) i !! k = Some v → log_of (w_cfg w) j !! k = Some v' → v = v') ∧
  (∀ i, server_of (w_cfg w0) i → is_run (log_of (w_cfg w) i) (default 0 (lasts !! i))).
Proof.
  intros Hn Hok Hh Hr. destruct (snap_appliers_inv _ _ _ _ Hn Hok Hh Hr) as [Hinv Hlen].
  assert (∀ i, server_of (w_cfg w0) i → server_of (w_cfg w) i) as Hs by (intros i; unfold server_of; by rewrite Hlen).
  split.
  - intros i j k v v' ?%Hs ?%Hs. by apply (si_agree _ _ _ Hinv).
  - intros i ?%Hs. by apply (si_run _ _ _ Hinv).
Qed.
End snapshots.

(** ** Samples *)

Definition command (k : Z) (v : iface) : ApplyMsg := mkApplyMsg true v k false [] 0 0.
Definition snap (k z : Z) : ApplyMsg := mkApplyMsg false Nil 0 true [z] 1 k.

Definition good_history : applied :=
  [(0, command 1 (Int 5)); (1, command 1 (Int 5)); (1, command 2 (Str "x"))].
(** Server 2 learns index 1 from a snapshot and goes on from there. *)
Definition snap_history : applied :=
  [(0, command 1 (Int 5)); (2, snap 1 5); (0, command 2 (Int 6)); (2, command 2 (Int 6)); (2, command 1 (Int 5))].

Definition one_int (b : bytes) : option Z := match b with [z] => Some z | _ => None end.
Definition put_int (v : iface) : bytes := match v with Int z => [z] | _ => [] end.

(** Three servers, not yet started. *)
Definition idle : world peers_t :=
  mkWorld (mkConfig MakeNetwork 3 [None; None; None] [""; ""; ""] [false; false; false] [None; None; None]
    [None; None; None] [Some ∅; Some ∅; Some ∅] 0 0 0 0 0 0 0) (mkHeap [] ∅) ∅ ∅.

Lemma idle_no_logs : no_logs (w_cfg idle).
Proof. repeat constructor. Qed.

Lemma committed_cons x msgs i k v :
  committed (x :: msgs) i k v ↔
    (i = x.1 ∧ CommandValid x.2 = true ∧ CommandIndex x.2 = k ∧ Command x.2 = v) ∨ committed msgs i k v.
Proof. destruct x as [j m]. change ((j, m) :: msgs) with ([(j, m)] ++ msgs). by rewrite committed_app, committed_one. Qed.

Lemma committed_nil i k v : ¬ committed [] i k v.
Proof. by intros (m & ?%elem_of_nil & _). Qed.

Lemma installed_cons decode x msgs k v :
  installed decode (x :: msgs) k v →
    (SnapshotValid x.2 = true ∧ SnapshotIndex x.2 = k ∧ ∃ z, decode (Snapshot x.2) = Some z ∧ v = Int z) ∨
    installed decode msgs k v.
Proof.
  intros (i & m & z & [<-|Hm]%elem_of_cons & Hv & Hk & Hz & ->); simpl; [left; eauto|].
  right. exists i, m, z. done.
Qed.
Lemma installed_nil decode k v : ¬ installed decode [] k v.
Proof. by intros (i & m & z & ?%elem_of_nil & _). Qed.

(** Go through the messages of a concrete history. *)
Ltac history :=
  repeat match goal with
  | H : committed [] _ _ _ |- _ => by apply committed_nil in H
  | H : committed (_ :: _) _ _ _ |- _ => apply committed_cons in H as [(? & ? & ? & ?)|H]
  | H : installed _ [] _ _ |- _ => by apply installed_nil in H
  | H : installed _ (_ :: _) _ _ |- _ => apply installed_cons in H as [(? & ? & ? & ? & ?)|H]
  | H : _ ∈ [] |- _ => by apply elem_of_nil in H
  | H : _ ∈ _ :: _ |- _ => apply elem_of_cons in H as [?|H]
  end.

Lemma good_history_consistent : consistent good_history.
Proof.
  split.
  - intros i j k v v' H1 H2. unfold good_history in *. history; simplify_eq/=; done.
  - intros pre i m post E Hv Hgt. unfold good_history in E. destruct pre as [|? [|? [|? [|? ?]]]]; simplify_eq/=; try lia.
    exists (Int 5). apply committed_cons; right; apply committed_cons; by left.
Qed.

Lemma snap_history_honest : honest one_int snap_history.
Proof.
  unfold snap_history. split_and!.
  - intros m k v Hi Hm Hv Hk. cbn in Hm. history; simplify_eq/=; done.
  - intros k v v' H1 H2. history; simplify_eq/=; done.
  - intros k v H1. history; simplify_eq/=; done.
Qed.

Lemma appliers_accept_witness :
  ∃ cfg, appliers (w_cfg idle) good_history = Ret cfg ∧
    (∀ i k v, server_of (w_cfg idle) i → log_of cfg i !! k = Some v ↔ committed good_history i k v) ∧
    cfg_maxIndex cfg = 2.
Proof.
  apply (appliers_accept (w_cfg idle) good_history idle_no_logs).
  - repeat constructor; done.
  - exact good_history_consistent.
Defined.

Definition snap_result : world peers_t * gmap Z Z :=
  get (snap_appliers raft_skeleton put_int one_int idle ∅ snap_history) (idle, ∅).
Lemma snap_result_ret : snap_appliers raft_skeleton put_int one_int idle ∅ snap_history = Ret snap_result.
Proof. apply get_ret. vm_compute. reflexivity. Qed.

Lemma snapshot_logs_agree_witness :
  log_of (w_cfg snap_result.1) 2 = {[1 := Int 5; 2 := Int 6]} ∧
  (∀ i j k v v', server_of (w_cfg idle) i → server_of (w_cfg idle) j →
     log_of (w_cfg snap_result.1) i !! k = Some v → log_of (w_cfg snap_result.1) j !! k = Some v' → v = v') ∧
  (∀ i, server_of (w_cfg idle) i → is_run (log_of (w_cfg snap_result.1) i) (default 0 (snap_result.2 !! i))).
Proof.
  split; [vm_compute; reflexivity|].
  apply (snapshot_logs_agree raft_skeleton put_int one_int idle snap_history).
  - exact idle_no_logs.
  - repeat constructor; done.
  - exact snap_history_honest.
  - rewrite <-surjective_pairing. exact snap_result_ret.
Defined.
