(* ===== verification/RaftNet.v ===== *)
(** The network under the Raft harness: which ends are enabled, where they
    lead and which instance answers, through every sequence of starts,
    crashes, connections and disconnections. *)
From Stdlib Require Import ZArith Lia.
From stdpp Require Import base gmap sets list strings.
From S2P Require Import Prelude Labrpc Persister Iface Tables Raft RaftConfig.

(** Server [i] is on the net. *)
Definition up (cfg : config) (i : Z) : Prop := (cfg_connected cfg).[i] = Ret true.

Definition in_range (cfg : config) (i : Z) : Prop := 0 ≤ i < cfg_n cfg.

(** Server [i] has been started at least once: it has a row of ends. *)
Definition started (cfg : config) (i : Z) : Prop := ∃ row, (cfg_endnames cfg).[i] = Ret (Some row).

(** Invariant of the harness and its network. *)
Record wired (cfg : config) : Prop := {
  wd_connected : length (cfg_connected cfg) = Z.to_nat (cfg_n cfg);
  wd_endnames : length (cfg_endnames cfg) = Z.to_nat (cfg_n cfg);
  wd_rows i row : (cfg_endnames cfg).[i] = Ret (Some row) → length row = Z.to_nat (cfg_n cfg);
  wd_up i : up cfg i → started cfg i;
  wd_enabled e : is_enabled (cfg_net cfg) (Str e) = true ↔ ∃ i j, endname cfg i j = Ret e ∧ up cfg i ∧ up cfg j;
  wd_leads i j e : endname cfg i j = Ret e →
    is_Some (ends (cfg_net cfg) !! Str e) ∧ connection (cfg_net cfg) (Str e) = Some (Int j);
  wd_distinct i j i' j' e : endname cfg i j = Ret e → endname cfg i' j' = Ret e → i = i' ∧ j = j'
}.

Lemma endname_ret cfg i j e :
  endname cfg i j = Ret e ↔ ∃ row, (cfg_endnames cfg).[i] = Ret (Some row) ∧ row.[j] = Ret e.
Proof.
  unfold endname. split.
  - intros Hr. inv_ret. destruct x as [row|]; [eauto|]. simpl in Hr. apply go_index_ret in Hr as [_ ?]. done.
  - by intros (row & -> & ?).
Qed.

Lemma go_index_update {A} (l l' : list A) i x j :
  l.[i <- x] = Ret l' → l'.[j] = if decide (i = j) then Ret x else l.[j].
Proof.
  unfold go_update. case_decide as Hi; [|done]. intros [= <-]. case_decide as E.
  - subst j. apply go_index_ret. split; [lia|]. rewrite list_lookup_insert_eq by lia. done.
  - unfold go_index. case_decide; [|done]. rewrite list_lookup_insert_ne by lia. done.
Qed.

Lemma go_update_length {A} (l l' : list A) i x : l.[i <- x] = Ret l' → length l' = length l.
Proof. unfold go_update. case_decide; [|done]. intros [= <-]. by rewrite length_insert. Qed.

Lemma endname_range cfg i j e : wired cfg → endname cfg i j = Ret e → in_range cfg i ∧ in_range cfg j.
Proof.
  intros Hw (row & Hrow & He)%endname_ret. pose proof (go_index_lt _ _ _ Hrow) as Hi.
  apply go_index_lt in He. rewrite (wd_rows _ Hw _ _ Hrow) in He. rewrite (wd_endnames _ Hw) in Hi.
  unfold in_range. lia.
Qed.

Lemma up_range cfg i : wired cfg → up cfg i → in_range cfg i.
Proof. intros Hw ?%go_index_lt. rewrite (wd_connected _ Hw) in *. unfold in_range. lia. Qed.

Lemma endname_total cfg i j : wired cfg → started cfg i → in_range cfg j → ∃ e, endname cfg i j = Ret e.
Proof.
  intros Hw [row Hrow] Hj. destruct (go_index_in_range row j) as [e He].
  - rewrite (wd_rows _ Hw _ _ Hrow). unfold in_range in Hj. lia.
  - exists e. apply endname_ret. eauto.
Qed.

(** ** connect and disconnect *)

(** The ends of a row and of a column. *)
Definition row_end cfg (i : Z) (P : Z → Prop) (e : string) : Prop := ∃ j, in_range cfg j ∧ P j ∧ endname cfg i j = Ret e.
Definition column_end cfg (i : Z) (P : Z → Prop) (e : string) : Prop := ∃ j, in_range cfg j ∧ P j ∧ endname cfg j i = Ret e.

Lemma when_ret (m : result bool) (f : result string) e :
  (c ← m; if c : bool then Some <$> f else Ret None) = Ret (Some e) ↔ m = Ret true ∧ f = Ret e.
Proof. destruct m as [[]| |], f; simpl; naive_solver. Qed.
Lemma when_row_ret {A} (m : result (option A)) (f : result string) e :
  (row ← m; if row is Some _ then Some <$> f else Ret None) = Ret (Some e) ↔ (∃ row, m = Ret (Some row)) ∧ f = Ret e.
Proof. destruct m as [[]| |], f; simpl; naive_solver. Qed.

Lemma connect_ret cfg i cfg' :
  connect cfg i = Ret cfg' →
  ∃ conn rn, (cfg_connected cfg).[i <- true] = Ret conn ∧ cfg' = set_net (set_connected cfg conn) rn ∧
    enables (cfg_net cfg) rn (λ e, row_end cfg i (λ j, conn.[j] = Ret true) e ∨
                                   column_end cfg i (λ j, conn.[j] = Ret true) e) true.
Proof.
  unfold connect. intros Hr. inv_ret. exists x, x1. split_and!; [done|done|].
  apply enable_loop_ret in E0, E1. eapply enables_iff, enables_two; [|exact E0|exact E1].
  intros e. cbv beta. unfold row_end, column_end, in_range.
  setoid_rewrite when_ret. setoid_rewrite elem_of_seqZ. done.
Qed.

Lemma disconnect_ret cfg i cfg' :
  disconnect cfg i = Ret cfg' →
  ∃ conn rn, (cfg_connected cfg).[i <- false] = Ret conn ∧ cfg' = set_net (set_connected cfg conn) rn ∧
    enables (cfg_net cfg) rn (λ e, row_end cfg i (λ _, True) e ∨ column_end cfg i (λ _, True) e) false.
Proof.
  unfold disconnect. intros Hr. inv_ret. exists x, x1. split_and!; [done|done|].
  apply enable_loop_ret in E0, E1. eapply enables_iff, enables_two; [|exact E0|exact E1].
  intros e. cbv beta. unfold row_end, column_end, in_range.
  setoid_rewrite when_row_ret. setoid_rewrite elem_of_seqZ.
  setoid_rewrite endname_ret. simpl. split; intros [(j & Hj & ?)|(j & Hj & ?)].
  - left. exists j. split; [lia|]. tauto.
  - right. exists j. split; [lia|]. tauto.
  - left. exists j. split; [lia|]. naive_solver.
  - right. exists j. split; [lia|]. naive_solver.
Qed.

(** Changing which servers are up, and the enabled ends with it, keeps the rest. *)
Lemma wired_update cfg conn rn :
  wired cfg → length conn = length (cfg_connected cfg) → same_wiring (cfg_net cfg) rn →
  (∀ i, conn.[i] = Ret true → started cfg i) →
  (∀ e, is_enabled rn (Str e) = true ↔ ∃ i j, endname cfg i j = Ret e ∧ conn.[i] = Ret true ∧ conn.[j] = Ret true) →
  wired (set_net (set_connected cfg conn) rn).
Proof.
  intros Hw Hlen (Hends & _ & Hconns & _) Hup He. split; try apply Hw.
  - simpl. rewrite Hlen. apply Hw.
  - exact Hup.
  - exact He.
  - intros i j e Hij. unfold connection. simpl. rewrite Hends, Hconns. by apply (wd_leads _ Hw i j).
Qed.

Lemma connect_wired cfg i cfg' :
  wired cfg → started cfg i → connect cfg i = Ret cfg' →
  wired cfg' ∧ (∀ j, up cfg' j ↔ j = i ∨ up cfg j).
Proof.
  intros Hw Hst (conn & rn & Hconn & -> & He & Hs)%connect_ret.
  assert (∀ j, conn.[j] = Ret true ↔ j = i ∨ up cfg j) as Hup.
  { intros j. rewrite (go_index_update _ _ _ _ j Hconn). unfold up. case_decide; naive_solver. }
  split; [|done]. apply wired_update; [done|by eapply go_update_length|done|..].
  - intros j [->|?]%Hup; [done|by apply (wd_up _ Hw)].
  - intros e. rewrite He, (wd_enabled _ Hw). unfold row_end, column_end.
    assert (conn.[i] = Ret true) as Hi by (apply Hup; by left). split.
    + intros [[(j & _ & ? & ?)|(j & _ & ? & ?)]|(a & b & ? & ? & ?)]; [by exists i, j|by exists j, i|].
      exists a, b. rewrite !Hup. auto.
    + intros (a & b & Hab & Ha & Hb). destruct (endname_range _ _ _ _ Hw Hab) as [Hra Hrb].
      destruct (decide (a = i)) as [->|Hai]; [left; left; by exists b|].
      destruct (decide (b = i)) as [->|Hbi]; [left; right; by exists a|].
      right. exists a, b. apply Hup in Ha as [?|?], Hb as [?|?]; done.
Qed.

Lemma disconnect_wired cfg i cfg' :
  wired cfg → disconnect cfg i = Ret cfg' → wired cfg' ∧ (∀ j, up cfg' j ↔ j ≠ i ∧ up cfg j).
Proof.
  intros Hw (conn & rn & Hconn & -> & He & Hs)%disconnect_ret.
  assert (∀ j, conn.[j] = Ret true ↔ j ≠ i ∧ up cfg j) as Hup.
  { intros j. rewrite (go_index_update _ _ _ _ j Hconn). unfold up. case_decide; naive_solver. }
  split; [|done]. apply wired_update; [done|by eapply go_update_length|done|..].
  - intros j [_ ?]%Hup. by apply (wd_up _ Hw).
  - intros e. rewrite He, (wd_enabled _ Hw). unfold row_end, column_end. split.
    + intros (Hno & a & b & Hab & Ha & Hb). exists a, b. rewrite !Hup.
      destruct (endname_range _ _ _ _ Hw Hab) as [Hra Hrb].
      split_and!; [done| |done| |done]; intros ->; apply Hno; [left; by exists b|right; by exists a].
    + intros (a & b & Hab & [Hai Ha]%Hup & [Hbi Hb]%Hup). split; [|by exists a, b].
      intros [(j & _ & _ & Hj)|(j & _ & _ & Hj)]; by destruct (wd_distinct _ Hw _ _ _ _ _ Hab Hj).
Qed.

(** On a wired harness [connect] and [disconnect] never panic. *)
Lemma connect_total cfg i :
  wired cfg → in_range cfg i → started cfg i → ∃ cfg', connect cfg i = Ret cfg'.
Proof.
  intros Hw Hi Hst. unfold connect.
  assert (0 ≤ i < Z.of_nat (length (cfg_connected cfg))) as Hi'.
  { rewrite (wd_connected _ Hw). unfold in_range in Hi. lia. }
  rewrite go_update_ret by done. cbn [mbind result_bind].
  set (conn := <[Z.to_nat i := true]> (cfg_connected cfg)).
  assert (∀ j, in_range cfg j → ∃ c : bool, conn.[j] = Ret c ∧ (c = true → started cfg j)) as Hconn.
  { intros j Hj. pose proof (go_index_update _ _ _ _ j (go_update_ret _ _ true Hi')) as Hx. fold conn in Hx. rewrite Hx.
    case_decide; [subst j; eauto|]. destruct (go_index_in_range (cfg_connected cfg) j) as [c Hc].
    - rewrite (wd_connected _ Hw). unfold in_range in Hj. lia.
    - exists c. split; [done|]. intros ->. by apply (wd_up _ Hw). }
  edestruct (enable_loop_total) as [rn1 ->]; [|cbn [mbind result_bind];
    edestruct (enable_loop_total) as [rn2 ->]; [|cbn [mbind result_bind]; eauto]].
  all: intros j Hj%elem_of_seqZ; simpl in Hj; (destruct (Hconn j) as (c & -> & Hc); [unfold in_range; lia|]);
    cbn [mbind result_bind]; destruct c; [|eauto].
  - destruct (endname_total cfg i j Hw Hst) as [e He]; [unfold in_range; lia|].
    exists (Some e). unfold endname in *. simpl. by rewrite He.
  - destruct (endname_total cfg j i Hw (Hc eq_refl) Hi) as [e He].
    exists (Some e). unfold endname in *. simpl. by rewrite He.
Qed.

Lemma disconnect_total cfg i : wired cfg → in_range cfg i → ∃ cfg', disconnect cfg i = Ret cfg'.
Proof.
  intros Hw Hi. unfold disconnect.
  assert (0 ≤ i < Z.of_nat (length (cfg_connected cfg))) as Hi'.
  { rewrite (wd_connected _ Hw). unfold in_range in Hi. lia. }
  rewrite go_update_ret by done. cbn [mbind result_bind].
  assert (∀ j, in_range cfg j → ∃ row, (cfg_endnames cfg).[j] = Ret row) as Hrow.
  { intros j Hj. apply go_index_in_range. rewrite (wd_endnames _ Hw). unfold in_range in Hj. lia. }
  edestruct (enable_loop_total) as [rn1 ->]; [|cbn [mbind result_bind];
    edestruct (enable_loop_total) as [rn2 ->]; [|cbn [mbind result_bind]; eauto]].
  all: intros j Hj%elem_of_seqZ; simpl in *.
  - destruct (Hrow i Hi) as [[row|] Er]; rewrite Er; cbn [mbind result_bind]; [|eauto].
    destruct (endname_total cfg i j Hw) as [e He]; [by exists row|unfold in_range; lia|].
    exists (Some e). unfold endname in *. simpl. by rewrite He.
  - destruct (Hrow j) as [[row|] Er]; [unfold in_range; lia| |]; rewrite Er; cbn [mbind result_bind]; [|eauto].
    destruct (endname_total cfg j i Hw) as [e He]; [by exists row|done|].
    exists (Some e). unfold endname in *. simpl. by rewrite He.
Qed.

(** ** New ends *)

(** The loop of [make_ends] on ends named by [f]. *)
Definition new_ends (f : Z → string) (rn : net) (js : list Z) : result net := open_ends f Int false rn js.

Lemma go_make_ret {A} n (x : A) l : go_make n x = Ret l → l = replicate (Z.to_nat n) x.
Proof. unfold go_make. case_decide; [by intros [= <-]|done]. Qed.

Lemma fill_row (draw : Z → string) (n : Z) row :
  foldM (λ row j, row.[j <- draw j]) (replicate (Z.to_nat n) "") (seqZ 0 n) = Ret row →
  length row = Z.to_nat n ∧ ∀ j, 0 ≤ j < n → row.[j] = Ret (draw j).
Proof.
  intros Hr.
  destruct (foldM_inv (λ row j, row.[j <- draw j])
    (λ js row, length row = Z.to_nat n ∧ ∀ j, j ∈ js → row.[j] = Ret (draw j))
    (replicate (Z.to_nat n) "") (seqZ 0 n)) as (row' & Hr' & Hlen & Hrow).
  - split; [apply length_replicate|]. by intros j ?%elem_of_nil.
  - intros l1 j l2 r Hl [Hlen Hrow]. assert (j ∈ seqZ 0 n) as Hj%elem_of_seqZ by (rewrite Hl; set_solver).
    assert (0 ≤ j < Z.of_nat (length r)) as Hjr by lia.
    eexists. split; [by apply go_update_ret|]. split; [by rewrite length_insert|].
    intros j' Hj'. rewrite (go_index_update _ _ _ _ j' (go_update_ret _ _ _ Hjr)).
    case_decide as E; [by subst|]. apply Hrow. set_solver.
  - assert (row' = row) as -> by congruence. split; [done|]. intros j Hj. apply Hrow, elem_of_seqZ. lia.
Qed.

(** A fresh row of ends for a server that is down. *)
Lemma new_row_wired cfg i draw row endnames rn :
  wired cfg → ¬ up cfg i → length row = Z.to_nat (cfg_n cfg) →
  (∀ j, in_range cfg j → row.[j] = Ret (draw j)) →
  (cfg_endnames cfg).[i <- Some row] = Ret endnames →
  new_ends draw (cfg_net cfg) (seqZ 0 (cfg_n cfg)) = Ret rn →
  wired (set_net (set_endnames cfg endnames) rn).
Proof.
  intros Hw Hdown Hlen Hrow Hupd (Hnd & _ & Hnone & Hin & Hout)%open_ends_ret.
  set (cfg' := set_net _ _).
  assert (∀ j, (cfg_endnames cfg').[j] = if decide (i = j) then Ret (Some row) else (cfg_endnames cfg).[j]) as Hrows
    by (intros j; exact (go_index_update _ _ _ _ j Hupd)).
  assert (∀ e, e ∈ draw <$> seqZ 0 (cfg_n cfg) ↔ ∃ j, in_range cfg j ∧ e = draw j) as Hdraws.
  { intros e. rewrite list_elem_of_fmap. setoid_rewrite elem_of_seqZ. unfold in_range.
    split; intros (j & ? & ?); exists j; split; (done || lia). }
  assert (∀ a b e, endname cfg' a b = Ret e ↔
    (a = i ∧ in_range cfg b ∧ e = draw b) ∨ (a ≠ i ∧ endname cfg a b = Ret e)) as Hends.
  { intros a b e. rewrite !endname_ret, Hrows. case_decide as E.
    - subst a. split; [intros (r & [= <-] & He)|intros [(_ & Hb & ->)|[? _]]; [|done]; exists row; auto].
      assert (in_range cfg b) as Hb by (unfold in_range; apply go_index_lt in He; lia).
      left. rewrite Hrow in He by done. split_and!; congruence.
    - split; [intros ?; right; split; congruence|]. intros [[? _]|[_ ?]]; congruence. }
  assert (∀ a b e, a ≠ i → endname cfg a b = Ret e → e ∉ draw <$> seqZ 0 (cfg_n cfg)) as Hold.
  { intros a b e Ha He (j & -> & Hj)%list_elem_of_fmap. destruct (wd_leads _ Hw _ _ _ He) as [[x Hx] _].
    rewrite Hnone in Hx; done. }
  split; try apply Hw.
  - simpl. erewrite go_update_length by exact Hupd. apply Hw.
  - intros j r. rewrite Hrows. case_decide; [by intros [= <-]|apply (wd_rows _ Hw)].
  - intros j Hj. unfold started. rewrite Hrows. case_decide; [eauto|by apply (wd_up _ Hw)].
  - intros e. setoid_rewrite Hends. change (up cfg') with (up cfg). simpl.
    destruct (decide (e ∈ draw <$> seqZ 0 (cfg_n cfg))) as [He|He].
    + pose proof He as (j & -> & Hj)%list_elem_of_fmap. destruct (Hin j Hj) as (_ & -> & _). split; [done|].
      intros (a & b & [(-> & _)|[Ha Hab]] & ? & ?); [done|]. by destruct (Hold _ _ _ Ha Hab).
    + destruct (Hout e He) as (_ & -> & _). rewrite (wd_enabled _ Hw). split; intros (a & b & Hab & Ha & Hb).
      * exists a, b. split; [|done]. right. split; [by intros ->|done].
      * destruct Hab as [(-> & _)|[_ Hab]]; [done|by exists a, b].
  - intros a b e [(-> & Hb & ->)|[Ha Hab]]%Hends; simpl.
    + destruct (Hin b) as (? & _ & ?); [apply elem_of_seqZ; unfold in_range in Hb; lia|done].
    + destruct (Hout e (Hold _ _ _ Ha Hab)) as (-> & _ & ->). by apply (wd_leads _ Hw a b).
  - intros a b a' b' e [(-> & Hb & ->)|[Ha Hab]]%Hends [(-> & Hb' & E)|[Ha' Hab']]%Hends.
    + split; [done|]. unfold in_range in *. apply (NoDup_fmap_eq draw (seqZ 0 (cfg_n cfg))); try done; apply elem_of_seqZ; lia.
    + destruct (Hold _ _ _ Ha' Hab'). apply Hdraws. eauto.
    + destruct (Hold _ _ _ Ha Hab). apply Hdraws. eauto.
    + by eapply (wd_distinct _ Hw).
Qed.

(** ** crash1 and start1 *)

Section servers.
Context {R : Type} (raft : RaftOps R).
Abbreviation world := (world R).

(** The network, and who is on it, are the same. *)
Definition same_net (cfg cfg' : config) : Prop :=
  cfg_net cfg' = cfg_net cfg ∧ cfg_n cfg' = cfg_n cfg ∧ cfg_connected cfg' = cfg_connected cfg ∧
  cfg_endnames cfg' = cfg_endnames cfg ∧ cfg_logs cfg' = cfg_logs cfg.

#[export] Instance same_net_preorder : PreOrder same_net.
Proof.
  split; [done|]. intros x y z (?&?&?&?&?) (?&?&?&?&?). unfold same_net. split_and!; congruence.
Qed.

(** The [wired] invariant looks at nothing else. *)
Lemma wired_same cfg cfg' :
  cfg_n cfg' = cfg_n cfg → cfg_connected cfg' = cfg_connected cfg → cfg_endnames cfg' = cfg_endnames cfg →
  ends (cfg_net cfg') = ends (cfg_net cfg) → connections (cfg_net cfg') = connections (cfg_net cfg) →
  enabled (cfg_net cfg') = enabled (cfg_net cfg) → wired cfg → wired cfg'.
Proof.
  intros En Ec Ee Hends Hconns Hen Hw.
  assert (endname cfg' = endname cfg) as Eend by (unfold endname; by rewrite Ee).
  assert (up cfg' = up cfg) as Eup by (unfold up; by rewrite Ec).
  assert (started cfg' = started cfg) as Est by (unfold started; by rewrite Ee).
  split; rewrite ?En, ?Ec, ?Ee, ?Eend, ?Eup, ?Est; try apply Hw.
  - unfold is_enabled. rewrite Hen. apply Hw.
  - unfold connection. rewrite Hends, Hconns. apply Hw.
Qed.

Lemma same_net_wired cfg cfg' : same_net cfg cfg' → wired cfg → wired cfg'.
Proof. intros (En & ? & ? & ? & _). apply wired_same; by rewrite ?En. Qed.

Lemma copy_saved_same (w w' : world) i :
  copy_saved w i = Ret w' →
  same_net (w_cfg w) (w_cfg w') ∧ cfg_rafts (w_cfg w') = cfg_rafts (w_cfg w) ∧ w_srvs w' = w_srvs w.
Proof.
  unfold copy_saved. intros Hr. inv_ret. destruct x; [|by injection Hr as <-]. inv_ret. simpl in Hr. inv_ret.
  by subst.
Qed.

Lemma resave_same (w w' : world) i :
  resave w i = Ret w' →
  same_net (w_cfg w) (w_cfg w') ∧ cfg_rafts (w_cfg w') = cfg_rafts (w_cfg w) ∧ w_srvs w' = w_srvs w.
Proof.
  unfold resave. intros Hr. inv_ret. destruct x; [|by injection Hr as <-]. inv_ret. simpl in Hr. inv_ret.
  by subst.
Qed.

Lemma kill_raft_same w i w' :
  kill_raft raft w i = Ret w' →
  same_net (w_cfg w) (w_cfg w') ∧ w_srvs w' = w_srvs w ∧
  ∀ j, (cfg_rafts (w_cfg w')).[j] = if decide (i = j) then Ret None else (cfg_rafts (w_cfg w)).[j].
Proof.
  unfold kill_raft. intros Hr. inv_ret. destruct x as [rf|].
  - inv_ret. destruct x as [h r]. inv_ret. subst. split_and!; [done..|].
    intros j. exact (go_index_update _ _ _ _ j E1).
  - injection Hr as <-. split_and!; [done..|]. intros j. case_decide; [by subst|done].
Qed.

(** Requests for server [i] reach its current instance, if it has one. *)
Definition routed (w : world) (i : Z) : Prop :=
  match (cfg_rafts (w_cfg w)).[i] with
  | Ret (Some rf) => ∃ p, registered (cfg_net (w_cfg w)) (Int i) = Some p ∧ w_srvs w !! p = Some rf
  | _ => registered (cfg_net (w_cfg w)) (Int i) = None
  end.

Record harness (w : world) : Prop := {
  hs_wired : wired (w_cfg w);
  hs_routed i : in_range (w_cfg w) i → routed w i
}.

Lemma registered_set (rn : net) i s j :
  registered (set_server rn (Int i) s) (Int j) = if decide (i = j) then s else registered rn (Int j).
Proof.
  unfold registered; simpl. rewrite lookup_insert. destruct (decide (i = j)) as [->|].
  - by rewrite decide_True.
  - rewrite decide_False by congruence. done.
Qed.

Lemma crash1_harness w i w' :
  harness w → crash1 raft w i = Ret w' →
  harness w' ∧ cfg_n (w_cfg w') = cfg_n (w_cfg w) ∧ cfg_endnames (w_cfg w') = cfg_endnames (w_cfg w) ∧
  (∀ j, up (w_cfg w') j ↔ j ≠ i ∧ up (w_cfg w) j) ∧ registered (cfg_net (w_cfg w')) (Int i) = None.
Proof.
  intros [Hw Hrt] Hr. unfold crash1 in Hr. inv_ret.
  destruct (disconnect_wired _ _ _ Hw E) as [Hw1 Hup1].
  apply disconnect_ret in E as (conn & rn & _ & -> & _ & (_ & Hsrv & _)).
  destruct (copy_saved_same _ _ _ E0) as (Hs1 & Hr1 & Hv1); clear E0.
  destruct (kill_raft_same _ _ _ E1) as (Hs2 & Hv2 & Hr2); clear E1.
  destruct (resave_same _ _ _ Hr) as (Hs3 & Hr3 & Hv3); clear Hr.
  set (cfg1 := set_net _ (DeleteServer _ _)) in *.
  assert (same_net cfg1 (w_cfg w')) as Hs by (etransitivity; [exact Hs1|etransitivity; done]).
  assert (wired cfg1) as Hw2 by (by eapply wired_same, Hw1).
  clear Hs1 Hs2 Hs3. pose proof (same_net_wired _ _ Hs Hw2) as Hw3. destruct Hs as (En & Enn & Ec & Ee & _).
  assert (∀ j, registered (cfg_net (w_cfg w')) (Int j) =
    if decide (i = j) then None else registered (cfg_net (w_cfg w)) (Int j)) as Hreg.
  { intros j. rewrite En. unfold cfg1, DeleteServer; simpl. rewrite registered_set.
    case_decide; [done|]. unfold registered. by rewrite Hsrv. }
  split_and!; [split; [done|]|done..| |].
  - intros j Hj. unfold routed. rewrite Hreg, Hr3, Hr2, Hv3, Hv2, Hv1, Hr1. case_decide; [done|].
    apply Hrt. unfold in_range in *. by rewrite Enn in Hj.
  - intros j. rewrite <-Hup1. unfold up. by rewrite Ec.
  - rewrite Hreg. by rewrite decide_True.
Qed.

(** The persister that [start1] passes on: neither branch touches the network. *)
Lemma fresh_persister_same (w w' : world) i (sv : option ptr) :
  match sv with
  | Some _ => copy_saved w i
  | None =>
      let '(q, h) := alloc (w_heap w) MakePersister in
      saved ← (cfg_saved (w_cfg w)).[i <- Some q];
      Ret (mkWorld (set_saved (w_cfg w) saved) h (w_srvs w) (w_raft w))
  end = Ret w' →
  same_net (w_cfg w) (w_cfg w') ∧ cfg_rafts (w_cfg w') = cfg_rafts (w_cfg w) ∧ w_srvs w' = w_srvs w.
Proof.
  destruct sv; [apply copy_saved_same|]. simpl. intros Hr. inv_ret. by subst.
Qed.

(** Making the ends of server [i], whose row is [row]. *)
Lemma make_ends_ret draw cfg i row endnames cfg' :
  length row = Z.to_nat (cfg_n cfg) → (∀ j, 0 ≤ j < cfg_n cfg → row.[j] = Ret (draw j)) →
  (cfg_endnames cfg).[i <- Some row] = Ret endnames →
  make_ends (set_endnames cfg endnames) i = Ret cfg' →
  ∃ rn, new_ends draw (cfg_net cfg) (seqZ 0 (cfg_n cfg)) = Ret rn ∧ cfg' = set_net (set_endnames cfg endnames) rn.
Proof.
  intros Hlen Hrow Hupd Hr. unfold make_ends in Hr. inv_ret. exists x. split; [|done].
  rewrite <-E. apply foldM_ext. intros rn j Hj%elem_of_seqZ. simpl in Hj.
  assert (endname (set_endnames cfg endnames) i j = Ret (draw j)) as ->; [|done].
  apply endname_ret. exists row. split; [|apply Hrow; lia]. simpl.
  rewrite (go_index_update _ _ _ _ i Hupd). by rewrite decide_True.
Qed.

Lemma start1_harness draw w i w' :
  harness w → start1 raft draw w i = Ret w' →
  harness w' ∧ cfg_n (w_cfg w') = cfg_n (w_cfg w) ∧ (∀ j, up (w_cfg w') j ↔ j ≠ i ∧ up (w_cfg w) j) ∧
  (∀ j, started (w_cfg w') j ↔ j = i ∨ started (w_cfg w) j).
Proof.
  intros Hh Hr. unfold start1 in Hr. inv_ret.
  rename x into w1, x0 into blank, x1 into row, x2 into endnames, x3 into cfg2, x5 into w3.
  destruct (crash1_harness _ _ _ Hh E) as ([Hw1 Hrt1] & En1 & Ee1 & Hup1 & _); clear E Hh.
  assert (blank = replicate (Z.to_nat (cfg_n (w_cfg w1))) "") as ->.
  { unfold go_make in E0. case_decide; [by injection E0|done]. }
  destruct (fill_row _ _ _ E1) as [Hlen Hrow]; clear E0 E1.
  destruct (make_ends_ret draw _ _ _ _ _ Hlen Hrow E2 E3) as (rn & Hnew & ->); clear E3.
  assert (¬ up (w_cfg w1) i) as Hdown by (rewrite Hup1; tauto).
  pose proof (new_row_wired _ _ _ _ _ _ Hw1 Hdown Hlen Hrow E2 Hnew) as Hw2.
  apply open_ends_ret in Hnew as (_ & Hsrv & _).
  destruct (fresh_persister_same (with_cfg w1 (set_net (set_endnames (w_cfg w1) endnames) rn)) w3 i x4 E5) as (Hs & Hr3 & Hv3); clear E4 E5.
  destruct x8 as [[rf h] r]. inv_ret. match goal with H : _.[i <- Some rf] = Ret _ |- _ => rename H into Hrafts end. subst w'. simpl in *.
  pose proof (same_net_wired _ _ Hs Hw2) as Hw3. destruct Hs as (En3 & Enn3 & Ec3 & Ee3 & _). simpl in *.
  split_and!; [split| | |].
  - eapply wired_same, Hw3; done.
  - intros j Hj. unfold routed. simpl. unfold AddServer. rewrite registered_set.
    rewrite (go_index_update _ _ _ _ j Hrafts). case_decide as Ej.
    + eexists. split; [done|]. apply lookup_insert_eq.
    + rewrite En3, Hr3. assert (routed w1 j) as Hj1.
      { apply Hrt1. unfold in_range in *. simpl in Hj. lia. }
      unfold routed in Hj1. unfold registered in *. rewrite Hsrv. simpl in *.
      destruct ((cfg_rafts (w_cfg w1)).[j]) as [[rf'|]| |]; [|done..].
      destruct Hj1 as (p & ? & Hp). exists p. split; [done|].
      rewrite lookup_insert_ne; [by rewrite Hv3|]. intros <-.
      apply (is_fresh (dom (w_srvs w3))). rewrite Hv3 in *. apply elem_of_dom. by exists rf'.
  - congruence.
  - intros j. rewrite <-Hup1. unfold up. simpl. by rewrite Ec3.
  - intros j. unfold started. simpl. rewrite Ee3, (go_index_update _ _ _ _ j E2), Ee1.
    case_decide; naive_solver.
Qed.

(** ** Tests *)

(** What a test does to the servers; [draw] are the names [start1] draws. *)
Inductive server_op :=
  | OpConnect (i : Z)
  | OpDisconnect (i : Z)
  | OpCrash (i : Z)
  | OpStart (draw : Z → string) (i : Z).

Definition server_step (w : world) (op : server_op) : result world :=
  match op with
  | OpConnect i => cfg ← connect (w_cfg w) i; Ret (with_cfg w cfg)
  | OpDisconnect i => cfg ← disconnect (w_cfg w) i; Ret (with_cfg w cfg)
  | OpCrash i => crash1 raft w i
  | OpStart draw i => start1 raft draw w i
  end.

(** Every server has been started. *)
Definition all_started (w : world) : Prop := ∀ i, in_range (w_cfg w) i → started (w_cfg w) i.

Lemma harness_with_cfg w cfg :
  harness w → wired cfg → cfg_n cfg = cfg_n (w_cfg w) → cfg_rafts cfg = cfg_rafts (w_cfg w) →
  servers (cfg_net cfg) = servers (cfg_net (w_cfg w)) → harness (with_cfg w cfg).
Proof.
  intros [_ Hrt] Hw En Er Es. split; [done|]. intros i Hi. unfold routed, registered, in_range in *.
  simpl in *. rewrite Er, Es. apply Hrt. by rewrite <-En.
Qed.

(** [i] can be connected when it is in range: else the slices are too short. *)
Lemma connect_range cfg i cfg' : wired cfg → connect cfg i = Ret cfg' → in_range cfg i.
Proof.
  intros Hw (conn & rn & Hc & _)%connect_ret. unfold go_update in Hc. case_decide as Hi; [|done].
  rewrite (wd_connected _ Hw) in Hi. unfold in_range. lia.
Qed.

Lemma connect_harness w i cfg :
  harness w → started (w_cfg w) i → connect (w_cfg w) i = Ret cfg →
  harness (with_cfg w cfg) ∧ cfg_n cfg = cfg_n (w_cfg w) ∧ cfg_endnames cfg = cfg_endnames (w_cfg w).
Proof.
  intros Hh Hst Hr. destruct (connect_wired _ _ _ (hs_wired _ Hh) Hst Hr) as [Hw _].
  apply connect_ret in Hr as (conn & rn & _ & -> & _ & _ & Hs & _).
  split; [by apply harness_with_cfg|done].
Qed.

Lemma server_step_harness w op w' :
  harness w → all_started w → server_step w op = Ret w' → harness w' ∧ all_started w'.
Proof.
  intros Hh Hst Hr. unfold all_started in *. destruct op as [i|i|i|draw i]; simpl in Hr.
  - inv_ret. subst. assert (started (w_cfg w) i) as Hi by (eapply Hst, connect_range; [apply Hh|done]).
    destruct (connect_harness _ _ _ Hh Hi E) as (Hh' & En & Ee). split; [done|].
    unfold in_range, started in *. simpl. by rewrite En, Ee.
  - inv_ret. subst. destruct (disconnect_wired _ _ _ (hs_wired _ Hh) E) as [Hw _].
    apply disconnect_ret in E as (conn & rn & _ & -> & _ & _ & Hs & _).
    split; [by apply harness_with_cfg|done].
  - destruct (crash1_harness _ _ _ Hh Hr) as (Hh' & En & Ee & _). split; [done|].
    unfold in_range, started in *. by rewrite En, Ee.
  - destruct (start1_harness _ _ _ _ Hh Hr) as (Hh' & En & _ & Hs). split; [done|].
    intros j Hj. apply Hs. right. apply Hst. unfold in_range in *. by rewrite <-En.
Qed.

Lemma server_steps_harness w ops w' :
  harness w → all_started w → foldM server_step w ops = Ret w' → harness w' ∧ all_started w'.
Proof.
  revert w. induction ops as [|op ops IH]; intros w Hh Hst; cbn [foldM]; [by intros [= <-]|].
  intros Hr. inv_ret. destruct (server_step_harness _ _ _ Hh Hst E) as [??]. by eapply IH.
Qed.

(** The state of [make_config] before any server is started. *)
Lemma initial_harness w :
  cfg_connected (w_cfg w) = replicate (Z.to_nat (cfg_n (w_cfg w))) false →
  cfg_endnames (w_cfg w) = replicate (Z.to_nat (cfg_n (w_cfg w))) None →
  cfg_rafts (w_cfg w) = replicate (Z.to_nat (cfg_n (w_cfg w))) None →
  enabled (cfg_net (w_cfg w)) = ∅ → servers (cfg_net (w_cfg w)) = ∅ → harness w.
Proof.
  intros Hc He Hr Hen Hs.
  assert (∀ A (x : A) k i y, (replicate k x).[i] = Ret y → y = x) as Hrep.
  { intros A x k i y [_ Hy]%go_index_ret. by apply lookup_replicate in Hy as [-> _]. }
  assert (∀ i row, (cfg_endnames (w_cfg w)).[i] ≠ Ret (Some row)) as Hno.
  { intros i row Hi. rewrite He in Hi. apply Hrep in Hi. done. }
  assert (∀ i j e, endname (w_cfg w) i j ≠ Ret e) as Hnone.
  { intros i j e (row & Hrow & _)%endname_ret. by eapply Hno. }
  split; [split|].
  - rewrite Hc. apply length_replicate.
  - rewrite He. apply length_replicate.
  - intros i row Hrow. by destruct (Hno i row).
  - intros i Hi. unfold up in Hi. rewrite Hc in Hi. apply Hrep in Hi. done.
  - intros e. unfold is_enabled. rewrite Hen, lookup_empty. split; [done|].
    intros (i & j & Hij & _). by destruct (Hnone i j e).
  - intros i j e Hij. by destruct (Hnone i j e).
  - intros i j i' j' e Hij. by destruct (Hnone i j e).
  - intros i Hi. unfold routed, registered. rewrite Hs, Hr, lookup_empty.
    destruct ((replicate _ _).[i]) as [rf| |] eqn:E; [|done..]. apply Hrep in E. by subst rf.
Qed.

Lemma start_servers_harness draws w w' :
  harness w → start_servers raft draws w = Ret w' → harness w' ∧ all_started w' ∧ cfg_n (w_cfg w') = cfg_n (w_cfg w).
Proof.
  intros Hh Hr. unfold start_servers in Hr.
  assert (∀ js w1, (∀ w2, foldM (λ w i,
      logs ← (cfg_logs (w_cfg w)).[i <- Some ∅];
      start1 raft (draws i) (with_cfg w (set_logs (w_cfg w) logs (cfg_maxIndex (w_cfg w)))) i) w1 js = Ret w2 →
    harness w1 → harness w2 ∧ cfg_n (w_cfg w2) = cfg_n (w_cfg w1) ∧
    ∀ i, i ∈ js ∨ started (w_cfg w1) i → started (w_cfg w2) i)) as Hloop.
  { clear. induction js as [|i js IH]; intros w1 w2; cbn [foldM].
    - intros [= ->] Hh. split_and!; [done..|]. by intros i [?%elem_of_nil|?].
    - intros Hr Hh. inv_ret.
      eassert (harness (with_cfg w1 _)) as Hh1; [|destruct (start1_harness _ _ _ _ Hh1 E) as (Hh' & En & _ & Hst)].
      { apply harness_with_cfg; [done| |done..]. eapply wired_same, Hh; done. }
      destruct (IH _ _ Hr Hh') as (? & En' & Hst'). split_and!; [done| |].
      + by rewrite En', En.
      + intros j Hj. apply Hst'. rewrite Hst. rewrite elem_of_cons in Hj. naive_solver. }
  destruct (Hloop _ _ _ Hr Hh) as (Hh' & En & Hst). split_and!; [done| |done].
  intros i Hi. apply Hst. left. apply elem_of_seqZ. unfold in_range in Hi. rewrite En in Hi. lia.
Qed.

Lemma connect_servers_harness w w' :
  harness w → all_started w → connect_servers w = Ret w' → harness w' ∧ all_started w'.
Proof.
  intros Hh Hst Hr. unfold connect_servers in Hr. inv_ret. subst w'. revert x E.
  assert (∀ js cfg, harness (with_cfg w cfg) → all_started (with_cfg w cfg) → ∀ cfg',
    foldM connect cfg js = Ret cfg' → harness (with_cfg w cfg') ∧ all_started (with_cfg w cfg')) as Hloop.
  { clear Hh Hst. induction js as [|i js IH]; intros cfg Hh Hst cfg'; cbn [foldM]; [by intros [= <-]|].
    intros Hr. inv_ret. destruct (server_step_harness (with_cfg w cfg) (OpConnect i) (with_cfg w x)) as [? ?]; [done..| |by eapply IH].
    simpl. by rewrite E. }
  intros cfg' E. eapply Hloop, E; by destruct w.
Qed.

Lemma make_config_harness draws n unreliable now r w :
  make_config raft draws n unreliable now r = Ret w → harness w ∧ all_started w.
Proof.
  intros Hr. unfold make_config, go_make in Hr. case_decide as Hn; [|done]. cbn [mbind result_bind] in Hr.
  inv_ret. eapply start_servers_harness in E as (Hh & Hst & _); [|by apply initial_harness].
  by eapply connect_servers_harness.
Qed.

(** C30: the harness controls the network exactly: after any test of starts,
    crashes, connections and disconnections, an end is enabled if and only if
    it is a current end between two servers that are both on the net; the end
    of [i] for [j] leads to [j], where the current instance answers, or
    nothing while [j] is down; ends of earlier instances stay disabled. And
    the next [connect] or [disconnect] succeeds and changes who is on the net
    as it should. *)
Theorem raft_wiring draws n unreliable now r w0 ops w :
  make_config raft draws n unreliable now r = Ret w0 → foldM server_step w0 ops = Ret w →
  let cfg := w_cfg w in
  (∀ e, is_enabled (cfg_net cfg) (Str e) = true ↔ ∃ i j, endname cfg i j = Ret e ∧ up cfg i ∧ up cfg j) ∧
  (∀ i j, in_range cfg i → in_range cfg j →
     ∃ e, endname cfg i j = Ret e ∧ connection (cfg_net cfg) (Str e) = Some (Int j)) ∧
  (∀ i, in_range cfg i → routed w i) ∧
  (∀ i, in_range cfg i →
     (∃ cfg', connect cfg i = Ret cfg' ∧ ∀ j, up cfg' j ↔ j = i ∨ up cfg j) ∧
     (∃ cfg', disconnect cfg i = Ret cfg' ∧ ∀ j, up cfg' j ↔ j ≠ i ∧ up cfg j)).
Proof.
  intros [Hh0 Hst0]%make_config_harness Hr. destruct (server_steps_harness _ _ _ Hh0 Hst0 Hr) as [[Hw Hrt] Hst].
  cbv zeta. split_and!; [apply Hw| |done|].
  - intros i j Hi Hj. destruct (endname_total _ i j Hw (Hst i Hi) Hj) as [e He].
    exists e. split; [done|]. by apply (wd_leads _ Hw _ _ _ He).
  - intros i Hi. split.
    + destruct (connect_total _ i Hw Hi (Hst i Hi)) as [cfg' E]. exists cfg'. split; [done|].
      by apply (connect_wired _ _ _ Hw (Hst i Hi) E).
    + destruct (disconnect_total _ i Hw Hi) as [cfg' E]. exists cfg'. split; [done|].
      by apply (disconnect_wired _ _ _ Hw E).
Qed.
End servers.

(** ** A sample *)

(** Two servers; the first crashes and comes back, the second leaves. *)
Definition pair_world : world peers_t := get (make_config raft_skeleton sample_names 2 false 0 ∅) no_world.
Definition sample_ops : list server_op := [OpCrash 0; OpStart (λ j, "n" +:+ digit j) 0; OpConnect 0; OpDisconnect 1].
Definition restarted : world peers_t := get (foldM (server_step raft_skeleton) pair_world sample_ops) no_world.

Lemma pair_world_ret : make_config raft_skeleton sample_names 2 false 0 ∅ = Ret pair_world.
Proof. apply get_ret. vm_compute. reflexivity. Qed.
Lemma restarted_ret : foldM (server_step raft_skeleton) pair_world sample_ops = Ret restarted.
Proof. apply get_ret. vm_compute. reflexivity. Qed.
#[local] Opaque pair_world restarted.

Lemma raft_wiring_witness :
  cfg_rafts (w_cfg restarted) = [Some 2; Some 1]%nat ∧
  (∀ e, is_enabled (cfg_net (w_cfg restarted)) (Str e) = true ↔
     ∃ i j, endname (w_cfg restarted) i j = Ret e ∧ up (w_cfg restarted) i ∧ up (w_cfg restarted) j).
Proof.
  split; [vm_compute; reflexivity|].
  by destruct (raft_wiring raft_skeleton _ _ _ _ _ _ _ _ pair_world_ret restarted_ret) as (Hends & _).
Defined.
