(* ===== verification/RaftRestart.v ===== *)
(** What survives a crash in the Raft harness: the persister that [start1]
    hands to a new instance. *)
From Stdlib Require Import ZArith Lia.
From stdpp Require Import base gmap sets list strings.
From S2P Require Import Prelude Labrpc Persister Iface Raft RaftConfig RaftNet.

(** What a persister holds. *)
Definition content (h : heap) (p : ptr) : option (bytes * bytes) :=
  (λ ps, (slice (h_mem h) (raftstate ps), slice (h_mem h) (snapshot ps))) <$> h_ps h !! p.

(** Slices point into the memory. *)
Definition heap_ok (h : heap) : Prop :=
  ∀ p ps l, h_ps h !! p = Some ps → raftstate ps = Some l ∨ snapshot ps = Some l → (l < length (h_mem h))%nat.

(** [h'] has all of [h], unchanged. *)
Definition extends (h h' : heap) : Prop := ∀ p v, content h p = Some v → content h' p = Some v.

#[export] Instance extends_preorder : PreOrder extends.
Proof. split; [by intros h p v|]. intros h1 h2 h3 H1 H2 p v ?. by apply H2, H1. Qed.

Lemma content_Some h p v : content h p = Some v →
  ∃ ps, h_ps h !! p = Some ps ∧ v = (slice (h_mem h) (raftstate ps), slice (h_mem h) (snapshot ps)).
Proof. unfold content. intros (ps & ? & ?)%fmap_Some. eauto. Qed.

Lemma content_dom h p v : content h p = Some v → p ∈ dom (h_ps h).
Proof. intros (ps & ? & _)%content_Some. apply elem_of_dom. by exists ps. Qed.

Lemma slice_grow mem x s :
  (∀ l, s = Some l → (l < length mem)%nat) → slice (mem ++ x) s = slice mem s.
Proof. intros Hs. destruct s as [l|]; [|done]. unfold slice. rewrite lookup_app_l; [done|by apply Hs]. Qed.

(** Growing the memory, and setting a persister that is not there yet. *)
Lemma extends_grow h x : heap_ok h → extends h (mkHeap (h_mem h ++ x) (h_ps h)) ∧ heap_ok (mkHeap (h_mem h ++ x) (h_ps h)).
Proof.
  intros Hok. split.
  - intros p v (ps & Hp & ->)%content_Some. unfold content; simpl. rewrite Hp; simpl.
    rewrite !slice_grow; [done|intros l Hl; eapply Hok; eauto..].
  - intros p ps l Hp Hl. simpl. rewrite length_app. specialize (Hok p ps l Hp Hl). lia.
Qed.

Lemma extends_insert h q ps :
  heap_ok h → q ∉ dom (h_ps h) → (∀ l, raftstate ps = Some l ∨ snapshot ps = Some l → (l < length (h_mem h))%nat) →
  let h' := mkHeap (h_mem h) (<[q := ps]> (h_ps h)) in
  extends h h' ∧ heap_ok h' ∧ content h' q = Some (slice (h_mem h) (raftstate ps), slice (h_mem h) (snapshot ps)).
Proof.
  intros Hok Hq Hps h'. split_and!.
  - intros p v Hp. assert (p ≠ q) as Hne by (intros ->; by apply Hq; eapply content_dom).
    unfold content in *. simpl. by rewrite lookup_insert_ne.
  - intros p ps' l. simpl. rewrite lookup_insert. case_decide; [by intros [= <-]; apply Hps|apply Hok].
  - unfold content. simpl. by rewrite lookup_insert_eq.
Qed.

Lemma alloc_fresh h ps q h' : alloc h ps = (q, h') → q ∉ dom (h_ps h) ∧ h' = mkHeap (h_mem h) (<[q := ps]> (h_ps h)).
Proof. unfold alloc. intros [= <- <-]. split; [apply is_fresh|done]. Qed.

Section restart.
Context {R : Type} (raft : RaftOps R).
Abbreviation world := (world R).

(** [saved[i]] names a persister, made since [h0], that holds [v]. *)
Definition holds (h0 : heap) (w : world) (i : Z) (v : bytes * bytes) : Prop :=
  heap_ok (w_heap w) ∧ (∀ p, p ∈ dom (h_ps h0) → p ∈ dom (h_ps (w_heap w))) ∧
  ∃ q, (cfg_saved (w_cfg w)).[i] = Ret (Some q) ∧ q ∉ dom (h_ps h0) ∧ content (w_heap w) q = Some v.

Lemma copy_saved_content (w w' : world) i p v :
  heap_ok (w_heap w) → (cfg_saved (w_cfg w)).[i] = Ret (Some p) → content (w_heap w) p = Some v →
  copy_saved w i = Ret w' → extends (w_heap w) (w_heap w') ∧ holds (w_heap w) w' i v.
Proof.
  intros Hok Hp Hv Hr. unfold copy_saved in Hr. rewrite Hp in Hr. cbn [mbind result_bind] in Hr. inv_ret.
  destruct (alloc (w_heap w) (Copy x)) as [q h] eqn:Ha. inv_ret. subst w'.
  apply alloc_fresh in Ha as [Hq ->]. apply content_Some in Hv as (ps & Hps & ->).
  assert (x = ps) as -> by congruence.
  destruct (extends_insert (w_heap w) q (Copy ps) Hok Hq) as (Hext & Hok' & Hc).
  { intros l Hl. by apply (Hok p ps l). }
  split; [done|]. split; [done|]. simpl. split.
  - intros p' Hp'. rewrite dom_insert. set_solver.
  - exists q. split; [|done]. rewrite (go_index_update _ _ _ _ i E0). by rewrite decide_True.
Qed.

Lemma resave_content (w w' : world) i p v :
  heap_ok (w_heap w) → (cfg_saved (w_cfg w)).[i] = Ret (Some p) → content (w_heap w) p = Some v →
  resave w i = Ret w' → extends (w_heap w) (w_heap w') ∧ holds (w_heap w) w' i v.
Proof.
  intros Hok Hp Hv Hr. unfold resave in Hr. rewrite Hp in Hr. cbn [mbind result_bind] in Hr. inv_ret.
  apply content_Some in Hv as (ps & Hps & ->). assert (x = ps) as -> by congruence.
  set (h := w_heap w) in *. clearbody h.
  set (a := slice (h_mem h) (raftstate ps)). set (b := slice (h_mem h) (snapshot ps)).
  assert (∀ s y, s = raftstate ps ∨ s = snapshot ps → slice (h_mem h ++ y) s = slice (h_mem h) s) as Hgrow.
  { intros s y Hs. apply slice_grow. intros l ->. apply (Hok p ps l Hps). naive_solver. }
  unfold ReadRaftState, ReadSnapshot, SaveStateAndSnapshot, clone in Hr. cbv zeta in Hr.
  rewrite Hgrow in Hr by tauto. fold a b in Hr.
  destruct (alloc _ _) as [q h1] eqn:Ha. apply alloc_fresh in Ha as [Hq ->]. simpl in Hr, Hq. inv_ret. subst w'.
  rewrite insert_insert_eq. simpl.
  rewrite (slice_app _ [_] (length (h_mem h))), slice_new by (rewrite !length_app; simpl; lia).
  rewrite (slice_app _ [_]), (slice_new (h_mem h ++ [a])) by (rewrite !length_app; simpl; lia).
  rewrite <-!(assoc_L (++)). simpl. set (y := [a; b; a; b]).
  destruct (extends_grow h y Hok) as [Hx1 Hok1]. set (h1 := mkHeap (h_mem h ++ y) (h_ps h)) in *.
  set (ps' := mkPersister _ _).
  destruct (extends_insert h1 q ps' Hok1 Hq) as (Hx2 & Hok2 & Hc).
  { intros l. simpl. rewrite !length_app. simpl. intros [[= <-]|[= <-]]; lia. }
  split; [by etransitivity|]. split; [done|]. split.
  - intros p' Hp'. simpl. rewrite dom_insert. set_solver.
  - exists q. simpl. rewrite (go_index_update _ _ _ _ i E0), decide_True by done. split_and!; [done..|].
    etransitivity; [exact Hc|]. unfold slice. simpl. rewrite !length_app. simpl.
    rewrite !lookup_app_r by lia.
    replace (length (h_mem h) + 2 - length (h_mem h))%nat with 2%nat by lia.
    replace (length (h_mem h) + 3 - length (h_mem h))%nat with 3%nat by lia. done.
Qed.

(** What an instance may still do to persisters while it dies: write the one
    it was given, and make new ones. *)
Definition kill_local (old : ptr) : Prop := ∀ rf h r h' r',
  raft_Kill raft rf h r = Ret (h', r') → heap_ok h →
  heap_ok h' ∧ (∀ p, p ∈ dom (h_ps h) → p ∈ dom (h_ps h')) ∧
  (∀ p v, p ≠ old → content h p = Some v → content h' p = Some v).

Lemma holds_mono h0 h1 w i v :
  (∀ p, p ∈ dom (h_ps h0) → p ∈ dom (h_ps h1)) → holds h1 w i v → holds h0 w i v.
Proof. intros Hd (Hok & Hd1 & q & ? & ? & ?). split; [done|]. split; [by auto|].
  exists q. split_and!; [done| |done]. intros Hin. by apply Hd in Hin.
Qed.

Lemma disconnect_saved cfg i cfg' : disconnect cfg i = Ret cfg' → cfg_saved cfg' = cfg_saved cfg.
Proof. intros (conn & rn & _ & -> & _)%disconnect_ret. done. Qed.

Lemma kill_raft_content (w w' : world) i old h0 v :
  kill_local old → old ∈ dom (h_ps h0) → holds h0 w i v → kill_raft raft w i = Ret w' → holds h0 w' i v.
Proof.
  intros Hkill Hold (Hok & Hd & q & Hq & Hnew & Hc) Hr. unfold kill_raft in Hr. inv_ret.
  destruct x as [rf|]; [|injection Hr as <-; split; [done|]; split; [done|by exists q]]. inv_ret. destruct x as [h r]. inv_ret. subst w'.
  destruct (Hkill _ _ _ _ _ E0 Hok) as (Hok' & Hd' & Hc'). split; [done|]. simpl. split; [by auto|].
  exists q. split_and!; [done..|]. apply Hc'; [|done]. intros ->. done.
Qed.

(** After a crash [saved[i]] is a new persister with what was there before. *)
Lemma crash1_content (w w' : world) i p v :
  kill_local p → heap_ok (w_heap w) → (cfg_saved (w_cfg w)).[i] = Ret (Some p) → content (w_heap w) p = Some v →
  crash1 raft w i = Ret w' → holds (w_heap w) w' i v.
Proof.
  intros Hkill Hok Hp Hv Hr. unfold crash1 in Hr. inv_ret. rename x into cfg, x0 into w1, x1 into w2.
  apply disconnect_saved in E.
  apply copy_saved_content with (p := p) (v := v) in E0 as [_ Hh1]; [|done|simpl; congruence|done].
  pose proof (kill_raft_content _ _ _ _ _ _ Hkill (content_dom _ _ _ Hv) Hh1 E1) as (Hok2 & Hd2 & q & Hq & _ & Hc).
  destruct (resave_content _ _ _ _ _ Hok2 Hq Hc Hr) as [_ Hh3]. by eapply holds_mono.
Qed.

(** C31: crash and restart keep the persisted state: whatever the old instance
    still writes to its own persister while it dies, [start1] hands the new
    instance a persister that holds the state and the snapshot saved when the
    crash began, and which no one held before. *)
Theorem restart_keeps_state draw w i p v w' :
  kill_local p → heap_ok (w_heap w) → (cfg_saved (w_cfg w)).[i] = Ret (Some p) → content (w_heap w) p = Some v →
  start1 raft draw w i = Ret w' →
  ∃ row q h r rf h' r', raft_Make raft row i q h r = Ret (rf, h', r') ∧
    content h q = Some v ∧ q ∉ dom (h_ps (w_heap w)) ∧
    w_heap w' = h' ∧ w_raft w' = r' ∧ (cfg_rafts (w_cfg w')).[i] = Ret (Some rf) ∧
    (cfg_saved (w_cfg w')).[i] = Ret (Some q).
Proof.
  intros Hkill Hok Hp Hv Hr. unfold start1 in Hr. inv_ret.
  rename x into w1, x1 into row, x2 into endnames, x3 into cfg2, x5 into w3.
  destruct (crash1_content _ _ _ _ _ Hkill Hok Hp Hv E) as (Hok1 & Hd1 & q1 & Hq1 & Hn1 & Hc1); clear E E0 E1 E2.
  unfold make_ends in E3. inv_ret. subst cfg2. simpl in E4. rewrite Hq1 in E4. injection E4 as <-.
  apply copy_saved_content with (p := q1) (v := v) in E5 as [_ (Hok3 & Hd3 & q & Hq & Hn & Hc)]; [|done..].
  rewrite Hq in E6. injection E6 as <-. injection E7 as <-.
  destruct x8 as [[rf h] r]. inv_ret. match goal with H : _.[i <- Some rf] = Ret _ |- _ => rename H into Hrafts end.
  subst w'. exists row, q, (w_heap w3), (w_raft w3), rf, h, r. split_and!; try done; simpl.
  - intros Hin. apply Hn, Hd1, Hin.
  - rewrite (go_index_update _ _ _ _ i Hrafts). by rewrite decide_True.
Qed.
End restart.

Lemma skeleton_kill_local p : kill_local raft_skeleton p.
Proof. intros rf h r h' r' Hk Hok. simpl in Hk. inv_ret. by simplify_eq. Qed.

(** [pair_world] after server 0 has persisted something. *)
Definition with_saved : world peers_t :=
  mkWorld (set_saved (w_cfg pair_world) [Some 0%nat; None])
    (mkHeap [[1; 2]; [3]] {[0%nat := mkPersister (Some 0%nat) (Some 1%nat)]}) (w_srvs pair_world) (w_raft pair_world).
Definition again : world peers_t := get (start1 raft_skeleton (λ j, "n" +:+ digit j) with_saved 0) no_world.
Lemma again_ret : start1 raft_skeleton (λ j, "n" +:+ digit j) with_saved 0 = Ret again.
Proof. apply get_ret. vm_compute. reflexivity. Qed.
#[local] Opaque again.

Lemma restart_keeps_state_witness :
  ∃ row q h r rf h' r', raft_Make raft_skeleton row 0 q h r = Ret (rf, h', r') ∧
    content h q = Some ([1; 2], [3]) ∧ q ∉ dom (h_ps (w_heap with_saved)) ∧
    w_heap again = h' ∧ w_raft again = r' ∧ (cfg_rafts (w_cfg again)).[0] = Ret (Some rf) ∧
    (cfg_saved (w_cfg again)).[0] = Ret (Some q).
Proof.
  apply (restart_keeps_state raft_skeleton (λ j, "n" +:+ digit j) with_saved 0 0%nat ([1; 2], [3]) again).
  - apply skeleton_kill_local.
  - intros p ps l Hp. simpl in Hp. apply lookup_singleton_Some in Hp as [<- <-].
    intros [[= <-]|[= <-]]; simpl; lia.
  - vm_compute. reflexivity.
  - vm_compute. reflexivity.
  - exact again_ret.
Defined.
