(* ===== verification/RaftTester.v ===== *)
(** raft/config.go, what the test goroutine asks of the servers: who leads,
    which term, how many have committed an entry, and whether an agreement is
    reached in time.

    While the test goroutine runs, so do the servers and the appliers: between
    two of its steps the rest of the system moves. The environment is an
    interface ([Env]); what is promised of it is a second one ([EnvLaws]). *)
From Stdlib Require Import ZArith Lia.
From stdpp Require Import base gmap sets list strings pretty.
From S2P Require Import Prelude Labrpc Persister Iface RaftConfig RaftLogs.

(** ** The environment *)

(** [env_run] lets the others run; [env_now] is the clock in nanoseconds. *)
Class Env (W : Type) := {
  env_cfg : W → config;
  env_now : W → Z;
  env_run : W → W;
  env_sleep : Z → W → W;
  env_rand : W → Z * W;
  env_GetState : option rid → W → result (Z * bool * W);
  env_Start : option rid → iface → W → result (Z * Z * bool * W)
}.

(** What a step of the test goroutine does to the world. *)
Inductive moves `{Env W} : W → W → Prop :=
  | mv_run w : moves w (env_run w)
  | mv_sleep d w : moves w (env_sleep d w)
  | mv_rand w : moves w (env_rand w).2
  | mv_GetState rf w t b w' : env_GetState rf w = Ret (t, b, w') → moves w w'
  | mv_Start rf cmd w index t b w' : env_Start rf cmd w = Ret (index, t, b, w') → moves w w'.

(** The worlds that may come after a world. *)
Definition later `{Env W} : W → W → Prop := rtc moves.

(** Time does not run backwards, servers are not added, a sleep lasts, and
    the calls of a Raft return. *)
Class EnvLaws W `{Env W} : Prop := {
  moves_now w w' : moves w w' → env_now w ≤ env_now w';
  moves_rafts w w' : moves w w' → length (cfg_rafts (env_cfg w')) = length (cfg_rafts (env_cfg w));
  sleep_time d w : env_now w + d ≤ env_now (env_sleep d w);
  GetState_returns rf w : env_GetState rf w ≠ OutOfFuel;
  Start_returns rf cmd w : env_Start rf cmd w ≠ OutOfFuel
}.

(** In a test without snapshots the appliers only add entries; [applierSnap]
    replaces the log of a server whenever a snapshot is installed. *)
Class KeepsLogs W `{Env W} : Prop :=
  moves_logs w w' i k v : moves w w' → log_of (env_cfg w) i !! k = Some v → log_of (env_cfg w') i !! k = Some v.

Section tester.
Context {W : Type} `{Env W}.

(** ** Leaders and terms *)

(** [leaders[term] = append(leaders[term], i)] *)
Definition add_leader (leaders : gmap Z (list Z)) (term i : Z) : gmap Z (list Z) :=
  <[term := default [] (leaders !! term) ++ [i]]> leaders.

(** One turn of the loop over the servers. *)
Definition poll_server (s : gmap Z (list Z) * W) (i : Z) : result (gmap Z (list Z) * W) :=
  let '(leaders, w) := s in
  let w := env_run w in
  c ← (cfg_connected (env_cfg w)).[i];
  if c : bool then
    rf ← (cfg_rafts (env_cfg w)).[i];
    '(term, leader, w) ← env_GetState rf w;
    Ret (if leader : bool then add_leader leaders term i else leaders, w)
  else Ret (leaders, w).

Definition poll (w : W) : result (gmap Z (list Z) * W) :=
  foldM poll_server (∅, w) (seqZ 0 (cfg_n (env_cfg w))).

Definition two_leaders (term : Z) (l : list Z) : string :=
  "term " +:+ pretty term +:+ " has " +:+ pretty (Z.of_nat (length l)) +:+ " (>1) leaders".

(** The range over the map, in the order [range] visits it. *)
Definition last_term (leaders : gmap Z (list Z)) (terms : list Z) : result Z :=
  foldM (λ lastTermWithLeader term,
    let l := default [] (leaders !! term) in
    if decide (Z.of_nat (length l) > 1) then Panic (Fatal (two_leaders term l))
    else Ret (if decide (term > lastTermWithLeader) then term else lastTermWithLeader)) (-1) terms.

Fixpoint checkOneLeader_loop (range : list Z → list Z) (iters : nat) (w : W) : result (Z * W) :=
  match iters with
  | O => Panic (Fatal "expected one leader, got none")
  | S iters =>
      let '(r, w) := env_rand w in
      let w := env_sleep ((450 + Z.rem r 100) * Millisecond) w in
      '(leaders, w) ← poll w;
      lastTermWithLeader ← last_term leaders (range (map_to_list leaders).*1);
      if decide (leaders ≠ ∅) then
        leader ← (default [] (leaders !! lastTermWithLeader)).[0]; Ret (leader, w)
      else checkOneLeader_loop range iters w
  end.

Definition checkOneLeader (range : list Z → list Z) (w : W) : result (Z * W) := checkOneLeader_loop range 10 w.

Definition checkTerms (w : W) : result (Z * W) :=
  foldM (λ s i,
    let '(term, w) := s in
    let w := env_run w in
    c ← (cfg_connected (env_cfg w)).[i];
    if c : bool then
      rf ← (cfg_rafts (env_cfg w)).[i];
      '(xterm, _, w) ← env_GetState rf w;
      if decide (term = -1) then Ret (xterm, w)
      else if decide (term ≠ xterm) then Panic (Fatal "servers disagree on term") else Ret (term, w)
    else Ret (term, w)) (-1, w) (seqZ 0 (cfg_n (env_cfg w))).

Definition checkNoLeader (w : W) : result W :=
  foldM (λ w i,
    let w := env_run w in
    c ← (cfg_connected (env_cfg w)).[i];
    if c : bool then
      rf ← (cfg_rafts (env_cfg w)).[i];
      '(_, is_leader, w) ← env_GetState rf w;
      if is_leader : bool
      then Panic (Fatal ("expected no leader, but " +:+ pretty i +:+ " claims to be leader")) else Ret w
    else Ret w) w (seqZ 0 (cfg_n (env_cfg w))).

(** ** Agreement *)

Definition no_match (index : Z) (cmd cmd1 : iface) : string :=
  "committed values do not match: index " +:+ pretty index +:+ ", " +:+ show_iface cmd +:+ ", " +:+ show_iface cmd1.

Definition count_server (index : Z) (s : Z * iface * W) (i : Z) : result (Z * iface * W) :=
  let '(count, cmd, w) := s in
  let w := env_run w in
  err ← (cfg_applyErr (env_cfg w)).[i];
  if decide (err ≠ "") then Panic (Fatal err) else
  logi ← (cfg_logs (env_cfg w)).[i];
  match map_of logi !! index with
  | Some cmd1 =>
      if decide (count > 0 ∧ cmd ≠ cmd1) then Panic (Fatal (no_match index cmd cmd1))
      else Ret (count + 1, cmd1, w)
  | None => Ret (count, cmd, w)
  end.

Definition nCommitted (index : Z) (w : W) : result (Z * iface * W) :=
  foldM (count_server index) (0, Nil, w) (seqZ 0 (Z.of_nat (length (cfg_rafts (env_cfg w))))).

(** Has some server moved past [startTerm]? *)
Fixpoint moved_on (startTerm : Z) (servers : list Z) (w : W) : result (bool * W) :=
  match servers with
  | [] => Ret (false, w)
  | i :: servers =>
      let w := env_run w in
      rf ← (cfg_rafts (env_cfg w)).[i];
      '(t, _, w) ← env_GetState rf w;
      if decide (t > startTerm) then Ret (true, w) else moved_on startTerm servers w
  end.

(** [None]: the loop is over; [Some]: the value to return from inside it. *)
Fixpoint wait_loop (iters : nat) (index n startTerm to : Z) (w : W) : result (option iface * W) :=
  match iters with
  | O => Ret (None, w)
  | S iters =>
      '(nd, _, w) ← nCommitted index w;
      if decide (nd >= n) then Ret (None, w) else
      let w := env_sleep to w in
      let to := if decide (to < Second) then to * 2 else to in
      if decide (startTerm > -1) then
        '(moved, w) ← moved_on startTerm (seqZ 0 (Z.of_nat (length (cfg_rafts (env_cfg w))))) w;
        if moved : bool then Ret (Some (Int (-1)), w) else wait_loop iters index n startTerm to w
      else wait_loop iters index n startTerm to w
  end.

Definition wait (index n startTerm : Z) (w : W) : result (iface * W) :=
  '(early, w) ← wait_loop 30 index n startTerm (10 * Millisecond) w;
  match early with
  | Some v => Ret (v, w)
  | None =>
      '(nd, cmd, w) ← nCommitted index w;
      if decide (nd < n)
      then Panic (Fatal ("only " +:+ pretty nd +:+ " decided for index " +:+ pretty index +:+ "; wanted " +:+ pretty n))
      else Ret (cmd, w)
  end.

(** [one]: try all the servers from the one after [starts]; stop at the first
    that takes the command. *)
Fixpoint try_servers (cmd : iface) (n : Z) (turns : nat) (starts : Z) (w : W) : result (Z * Z * W) :=
  match turns with
  | O => Ret (starts, -1, w)
  | S turns =>
      let starts := Z.rem (starts + 1) n in
      let w := env_run w in
      c ← (cfg_connected (env_cfg w)).[starts];
      rf ← (if c : bool then (cfg_rafts (env_cfg w)).[starts] else Ret None);
      match rf with
      | Some _ =>
          '(index1, _, ok, w) ← env_Start rf cmd w;
          if ok : bool then Ret (starts, index1, w) else try_servers cmd n turns starts w
      | None => try_servers cmd n turns starts w
      end
  end.

(** Wait up to two seconds from [t1]; the bool says that [index] is returned. *)
Fixpoint await_commit (fuel : nat) (cmd : iface) (expectedServers index t1 : Z) (w : W) : result (bool * W) :=
  match fuel with
  | O => OutOfFuel
  | S fuel =>
      let w := env_run w in
      if decide (env_now w - t1 < 2 * Second) then
        '(nd, cmd1, w) ← nCommitted index w;
        if decide ((nd > 0 ∧ nd >= expectedServers) ∧ cmd1 = cmd) then Ret (true, w)
        else await_commit fuel cmd expectedServers index t1 (env_sleep (20 * Millisecond) w)
      else Ret (false, w)
  end.

Definition no_agreement (cmd : iface) : string := "one(" +:+ show_iface cmd +:+ ") failed to reach agreement".

Fixpoint one_loop (fuel : nat) (cmd : iface) (expectedServers : Z) (retry : bool) (t0 starts : Z) (w : W)
    : result (Z * W) :=
  match fuel with
  | O => OutOfFuel
  | S fuel =>
      let w := env_run w in
      if decide (env_now w - t0 < 10 * Second) then
        let n := cfg_n (env_cfg w) in
        '(starts, index, w) ← try_servers cmd n (Z.to_nat n) starts w;
        if decide (index ≠ -1) then
          let t1 := env_now w in
          '(committed, w) ← await_commit 101 cmd expectedServers index t1 w;
          if committed : bool then Ret (index, w)
          else if retry then one_loop fuel cmd expectedServers retry t0 starts w
          else Panic (Fatal (no_agreement cmd))
        else one_loop fuel cmd expectedServers retry t0 starts (env_sleep (50 * Millisecond) w)
      else Panic (Fatal (no_agreement cmd))
  end.

Definition one (cmd : iface) (expectedServers : Z) (retry : bool) (w : W) : result (Z * W) :=
  one_loop 201 cmd expectedServers retry (env_now w) 0 w.
End tester.
