(* ===== verification/RaftTesterProof.v ===== *)
(** Theorems about the questions the Raft tester asks. *)
From Stdlib Require Import ZArith Lia.
From stdpp Require Import base gmap sets list strings pretty.
From S2P Require Import Prelude Labrpc Persister Iface Raft RaftConfig RaftLogs RaftTester.

Section tester.
Context {W : Type} `{EnvLaws W}.

#[export] Instance later_preorder : PreOrder (later (W := W)) := rtc_po.

Lemma move_later w w' : moves w w' → later w w'.
Proof. apply rtc_once. Qed.
Lemma env_run_later w : later w (env_run w).
Proof. apply move_later, mv_run. Qed.
Lemma sleep_later d w : later w (env_sleep d w).
Proof. apply move_later, mv_sleep. Qed.
Lemma rand_later w : later w (env_rand w).2.
Proof. apply move_later, mv_rand. Qed.
Lemma GetState_later rf w t b w' : env_GetState rf w = Ret (t, b, w') → later w w'.
Proof. intros E. by eapply move_later, mv_GetState. Qed.
Lemma Start_later rf cmd w index t b w' : env_Start rf cmd w = Ret (index, t, b, w') → later w w'.
Proof. intros E. by eapply move_later, mv_Start. Qed.

Lemma lt_now w w' : later w w' → env_now w ≤ env_now w'.
Proof. induction 1 as [|w1 w2 w3 Hm%moves_now _ IH]; lia. Qed.
Lemma lt_rafts w w' : later w w' → length (cfg_rafts (env_cfg w')) = length (cfg_rafts (env_cfg w)).
Proof. induction 1 as [|w1 w2 w3 Hm%moves_rafts _ IH]; congruence. Qed.
Lemma lt_logs `{!KeepsLogs W} w w' i k v :
  later w w' → log_of (env_cfg w) i !! k = Some v → log_of (env_cfg w') i !! k = Some v.
Proof. induction 1 as [|w1 w2 w3 Hm _ IH]; [done|]. intros Hk. by eapply IH, moves_logs. Qed.

(** ** nCommitted *)

(** [P] held at some moment from [w] to [w']. *)
Definition sometime (w w' : W) (P : config → Prop) : Prop := ∃ u, later w u ∧ later u w' ∧ P (env_cfg u).

Lemma sometime_wider (w0 w w' w1 : W) (P : config → Prop) :
  later w0 w → later w' w1 → sometime w w' P → sometime w0 w1 P.
Proof. intros Hl1 Hl2 (u & ? & ? & ?). exists u. split_and!; [by etransitivity..|done]. Qed.

(** The servers [js] were looked at from [w] to [w']: [count] of them had [v]
    at [index] in their log when their turn came, the others nothing. *)
Definition seen_among (js : list Z) (index : Z) (w w' : W) (v : iface) (count : Z) : Prop :=
  later w w' ∧ ∃ hs, hs `sublist_of` js ∧ count = Z.of_nat (length hs) ∧
    (∀ i, i ∈ hs → sometime w w' (λ cfg, log_of cfg i !! index = Some v)) ∧
    (∀ i, i ∈ js → i ∈ hs ∨ sometime w w' (λ cfg, log_of cfg i !! index = None)).
Definition seen (index : Z) (w w' : W) (v : iface) (count : Z) : Prop :=
  seen_among (seqZ 0 (Z.of_nat (length (cfg_rafts (env_cfg w))))) index w w' v count.

(** The servers whose log has [v] at [index]. *)
Definition holders (w : W) (index : Z) (v : iface) : list Z :=
  filter (λ i, log_of (env_cfg w) i !! index = Some v) (seqZ 0 (Z.of_nat (length (cfg_rafts (env_cfg w))))).

Lemma seen_earlier index w0 w w' v count : later w0 w → seen index w w' v count → seen index w0 w' v count.
Proof.
  intros Hl (Hl' & hs & Hsub & Hc & Hin & Hout). split; [by etransitivity|]. exists hs.
  rewrite <-(lt_rafts _ _ Hl). split_and!; [done..| |].
  - intros i Hi. by eapply sometime_wider, Hin.
  - intros i [?|?]%Hout; [by left|right]. by apply (sometime_wider w0 w w' w').
Qed.

(** When logs only grow, the servers counted still have it. *)
Lemma seen_holders `{!KeepsLogs W} index w w' v count :
  seen index w w' v count → count ≤ Z.of_nat (length (holders w' index v)).
Proof.
  intros (Hl & hs & Hsub & -> & Hin & _). apply inj_le. unfold holders. rewrite (lt_rafts _ _ Hl).
  apply sublist_le_filter; [done|]. intros i (u & _ & Hu & Hv)%Hin. by eapply lt_logs.
Qed.

Lemma go_index_log_of cfg i l : (cfg_logs cfg).[i] = Ret l → map_of l = log_of cfg i.
Proof. intros [_ E]%go_index_ret. unfold log_of. by rewrite E. Qed.

Lemma count_server_seen index w js s i s' :
  seen_among js index w s.2 s.1.2 s.1.1 → count_server index s i = Ret s' →
  seen_among (js ++ [i]) index w s'.2 s'.1.2 s'.1.1.
Proof.
  destruct s as [[count cmd] w1]. intros (Hl & hs & Hsub & Hc & Hin & Hout) Hr. simpl in *. subst count. inv_ret.
  case_decide; [done|]. inv_ret. apply go_index_log_of in E0. rewrite E0 in Hr.
  pose proof (env_run_later w1) as Hrun. set (w2 := env_run w1) in *.
  assert (later w w2) as Hl2 by (by etransitivity).
  assert (∀ P, sometime w w1 P → sometime w w2 P) as Hwide by (intros P; by apply sometime_wider).
  destruct (log_of (env_cfg w2) i !! index) as [cmd1|] eqn:Hi.
  - case_decide as Hne; [done|]. injection Hr as <-. simpl. split; [done|]. exists (hs ++ [i]). split_and!.
    + by apply sublist_app.
    + rewrite length_app. simpl. lia.
    + intros i' [Hi'|[->|?%elem_of_nil]%elem_of_cons]%elem_of_app; [|by exists w2|done].
      assert (cmd1 = cmd) as ->; [|by apply Hwide, Hin].
      destruct (decide (cmd1 = cmd)); [done|]. destruct Hne. destruct hs; [by apply elem_of_nil in Hi'|].
      split; [simpl; lia|congruence].
    + intros i' [[?|?]%Hout|[->|?%elem_of_nil]%elem_of_cons]%elem_of_app; [left|right|left|done]; [|by apply Hwide|];
        apply elem_of_app; [by left|right; by left].
  - injection Hr as <-. simpl. split; [done|]. exists hs. split_and!; [by apply sublist_inserts_r|done| |].
    + intros i' Hi'. by apply Hwide, Hin.
    + intros i' [[?|?]%Hout|[->|?%elem_of_nil]%elem_of_cons]%elem_of_app; [by left|right; by apply Hwide|right; by exists w2|done].
Qed.

Lemma nCommitted_seen index w count cmd w' :
  nCommitted index w = Ret (count, cmd, w') → seen index w w' cmd count.
Proof.
  intros Hr. eapply (foldM_ret_inv _ (λ js s, seen_among js index w s.2 s.1.2 s.1.1)) in Hr; [done| |].
  - split; [done|]. exists []. by split_and!; [..|intros i ?%elem_of_nil|intros i ?%elem_of_nil].
  - intros. by eapply count_server_seen.
Qed.

Lemma nCommitted_later index w count cmd w' : nCommitted index w = Ret (count, cmd, w') → later w w'.
Proof. by intros [? _]%nCommitted_seen. Qed.

Lemma nCommitted_fuel index w : nCommitted index w ≠ OutOfFuel.
Proof.
  apply foldM_fuel. intros [[count cmd] w1] i. simpl. unfold go_index.
  repeat (case_decide || case_match || cbn [mbind result_bind]); done.
Qed.

(** Split a step of a function that must not run out of fuel. *)
Ltac fuel_step :=
  cbv zeta;
  match goal with
  | |- context [mbind _ (go_index ?l ?i)] => destruct (go_index l i) eqn:?; cbn [mbind result_bind];
        [|done|exfalso; eapply go_index_fuel; eassumption]
  | |- context [mbind _ (nCommitted ?i ?w)] =>
      destruct (nCommitted i w) as [[[??]?]| |] eqn:?; cbn [mbind result_bind];
        [|done|exfalso; eapply nCommitted_fuel; eassumption]
  | |- context [mbind _ (env_GetState ?rf ?w)] =>
      destruct (env_GetState rf w) as [[[??]?]| |] eqn:?; cbn [mbind result_bind];
        [|done|exfalso; eapply GetState_returns; eassumption]
  | |- context [mbind _ (env_Start ?rf ?c ?w)] =>
      destruct (env_Start rf c w) as [[[[??]?]?]| |] eqn:?; cbn [mbind result_bind];
        [|done|exfalso; eapply Start_returns; eassumption]
  | |- context [decide ?P] => destruct (decide P); cbn [mbind result_bind]; try done
  end.

(** ** wait *)

(** Between [w] and [w'] some instance reported a term past [startTerm]. *)
Definition seen_past (startTerm : Z) (w w' : W) : Prop := ∃ i rf t b w1 w2,
  later w w1 ∧ (cfg_rafts (env_cfg w1)).[i] = Ret rf ∧ env_GetState rf w1 = Ret (t, b, w2) ∧
  t > startTerm ∧ later w2 w'.

Lemma seen_past_earlier startTerm w0 w w' : later w0 w → seen_past startTerm w w' → seen_past startTerm w0 w'.
Proof. intros Hl (i & rf & t & b & w1 & w2 & ? & ?). exists i, rf, t, b, w1, w2. split; [by etransitivity|done]. Qed.

Lemma moved_on_ret startTerm servers w b w' :
  moved_on startTerm servers w = Ret (b, w') → later w w' ∧ (b = true → seen_past startTerm w w').
Proof.
  revert w. induction servers as [|i servers IH]; intros w; cbn [moved_on]; [by intros [= <- <-]|].
  intros Hr. inv_ret. destruct x0 as [[t ld] w2]. pose proof (env_run_later w) as Hl1.
  pose proof (GetState_later _ _ _ _ _ E0) as Hl2. case_decide.
  - injection Hr as <- <-. split; [by etransitivity|]. intros _. exists i, x, t, ld, (env_run w), w2. by split_and!.
  - destruct (IH _ Hr) as [Hl Hs]. assert (later w w2) by (by etransitivity).
    split; [by etransitivity|]. intros Hb. eapply seen_past_earlier; eauto.
Qed.

Lemma moved_on_fuel startTerm servers w : moved_on startTerm servers w ≠ OutOfFuel.
Proof.
  revert w. induction servers as [|i servers IH]; intros w; cbn [moved_on]; [done|].
  fuel_step; fuel_step. case_decide; [done|apply IH].
Qed.

Lemma wait_loop_ret iters index n startTerm to w r w' :
  wait_loop iters index n startTerm to w = Ret (r, w') →
  later w w' ∧ (∀ v, r = Some v → v = Int (-1) ∧ startTerm > -1 ∧ seen_past startTerm w w').
Proof.
  revert w to. induction iters as [|iters IH]; intros w to; cbn [wait_loop]; [by intros [= <- <-]|].
  intros Hr. inv_ret. destruct x as [[nd cmd] w1]. apply nCommitted_later in E. rename E into Hl1.
  case_decide; [injection Hr as <- <-; by split|].
  assert (later w (env_sleep to w1)) as Hl2 by (etransitivity; [exact Hl1|apply sleep_later]).
  set (to' := if decide (to < Second) then to * 2 else to) in *. case_decide.
  - inv_ret. destruct x as [b w2]. apply moved_on_ret in E as [Hl3 Hb]. destruct b.
    + injection Hr as <- <-. split; [by etransitivity|]. intros v [= <-]. split_and!; [done..|].
      eapply seen_past_earlier; [exact Hl2|by apply Hb].
    + destruct (IH _ _ Hr) as [Hl Hs]. assert (later w w2) by (by etransitivity).
      split; [by etransitivity|]. intros v (? & ? & ?)%Hs. split_and!; [done..|]. by eapply seen_past_earlier.
  - destruct (IH _ _ Hr) as [Hl Hs]. split; [by etransitivity|].
    intros v (? & ? & ?)%Hs. split_and!; [done..|]. by eapply seen_past_earlier.
Qed.

Lemma wait_loop_fuel iters index n startTerm to w : wait_loop iters index n startTerm to w ≠ OutOfFuel.
Proof.
  revert w to. induction iters as [|iters IH]; intros w to; cbn [wait_loop]; [done|].
  fuel_step. destruct (decide (_ >= n)); [done|]. set (to' := if decide (to < Second) then _ else _).
  destruct (decide (startTerm > -1)); [|apply IH]. match goal with |- context [moved_on ?a ?b ?c] => pose proof (moved_on_fuel a b c) end.
  destruct (moved_on _ _ _) as [[[] ?]| |]; cbn [mbind result_bind]; [done|apply IH|done|done].
Qed.

(** C32: [wait] returns or fails the test, and what it returns means: either
    a value that at least [n] servers had in their logs at [index] when its last
    count looked at them, while the others had nothing there (so that, in a test
    whose logs only grow, at least [n] still have it); or -1, because [startTerm]
    was given and some server reported a later term. *)
Theorem wait_agrees index n startTerm w :
  wait index n startTerm w ≠ OutOfFuel ∧
  ∀ v w', wait index n startTerm w = Ret (v, w') →
    (∃ w1 count, later w w1 ∧ seen index w1 w' v count ∧ n ≤ count ∧
       (KeepsLogs W → n ≤ Z.of_nat (length (holders w' index v)))) ∨
    later w w' ∧ v = Int (-1) ∧ startTerm > -1 ∧ seen_past startTerm w w'.
Proof.
  unfold wait. split.
  - pose proof (wait_loop_fuel 30 index n startTerm (10 * Millisecond) w) as Hf.
    destruct (wait_loop _ _ _ _ _ _) as [[[v|] w1]| |]; cbn [mbind result_bind]; try done.
    fuel_step. by fuel_step.
  - intros v w' Hr. inv_ret. destruct x as [r w1]. apply wait_loop_ret in E as [Hl1 Hs]. destruct r as [v'|].
    + injection Hr as -> ->. right. split; [done|]. by apply Hs.
    + inv_ret. destruct x as [[nd cmd] w2]. apply nCommitted_seen in E.
      case_decide; [done|]. injection Hr as -> ->. left. exists w1, nd. split_and!; [done..|lia|].
      intros ?. apply seen_holders in E. lia.
Qed.

(** ** one *)

(** Between [w] and [w'] a connected server took [cmd] for [index]. *)
Definition taken (cmd : iface) (index : Z) (w w' : W) : Prop := ∃ i rf term w1 w2,
  later w w1 ∧ (cfg_connected (env_cfg w1)).[i] = Ret true ∧ (cfg_rafts (env_cfg w1)).[i] = Ret (Some rf) ∧
  env_Start (Some rf) cmd w1 = Ret (index, term, true, w2) ∧ later w2 w'.

Lemma taken_wider cmd index w0 w w' w1 : later w0 w → later w' w1 → taken cmd index w w' → taken cmd index w0 w1.
Proof.
  intros Hl1 Hl2 (i & rf & t & u1 & u2 & ? & ? & ? & ? & ?). exists i, rf, t, u1, u2.
  split_and!; try done; by etransitivity.
Qed.

Lemma try_servers_ret cmd n turns starts w starts' index w' :
  try_servers cmd n turns starts w = Ret (starts', index, w') →
  later w w' ∧ (index ≠ -1 → taken cmd index w w').
Proof.
  revert starts w. induction turns as [|turns IH]; intros starts w; cbn [try_servers]; [by intros [= <- <- <-]|].
  set (s := Z.rem (starts + 1) n). pose proof (env_run_later w) as Hl1. intros Hr. inv_ret.
  destruct x0 as [rf|]; inv_ret.
  - destruct x0 as [[[index1 term] ok] w2]. pose proof (Start_later _ _ _ _ _ _ _ E1) as Hl2.
    destruct ok.
    + injection Hr as <- <- <-. split; [by etransitivity|]. intros _. destruct x; [|done].
      exists s, rf, term, (env_run w), w2. by split_and!.
    + destruct (IH _ _ Hr) as [Hl Ht]. assert (later w w2) by (by etransitivity).
      split; [by etransitivity|]. intros Hi. by eapply taken_wider, Ht.
  - destruct (IH _ _ Hr) as [Hl Ht]. split; [by etransitivity|]. intros Hi. by eapply taken_wider, Ht.
Qed.

Lemma try_servers_fuel cmd n turns starts w : try_servers cmd n turns starts w ≠ OutOfFuel.
Proof.
  revert starts w. induction turns as [|turns IH]; intros starts w; cbn [try_servers]; [done|].
  set (s := Z.rem (starts + 1) n). fuel_step.
  assert ((if a : bool then (cfg_rafts (env_cfg (env_run w))).[s] else Ret None) ≠ OutOfFuel) as Hrf
    by (destruct a; [apply go_index_fuel|done]).
  destruct (if a then _ else _) as [[rf|]| |]; cbn [mbind result_bind]; [|apply IH|done|done].
  fuel_step. case_match; [done|apply IH].
Qed.

(** From [w] to [w'], enough servers, and one at least, were seen with [cmd]
    at [index], and none with anything else. *)
Definition agreed (cmd : iface) (expected index : Z) (w w' : W) : Prop :=
  ∃ count, seen index w w' cmd count ∧ 1 ≤ count ∧ expected ≤ count.

Lemma agreed_earlier cmd expected index w0 w w' :
  later w0 w → agreed cmd expected index w w' → agreed cmd expected index w0 w'.
Proof. intros Hl (count & ? & ?). exists count. split; [by eapply seen_earlier|done]. Qed.

Lemma await_commit_ret fuel cmd expected index t1 w b w' :
  await_commit fuel cmd expected index t1 w = Ret (b, w') →
  later w w' ∧ if b then agreed cmd expected index w w' else t1 + 2 * Second ≤ env_now w'.
Proof.
  revert w. induction fuel as [|fuel IH]; intros w; cbn [await_commit]; [done|].
  pose proof (env_run_later w) as Hl1. case_decide as Ht.
  - intros Hr. inv_ret. destruct x as [[nd cmd1] w1]. apply nCommitted_seen in E. rename E into Hs. pose proof (proj1 Hs) as Hl2.
    assert (later w w1) as Hl3 by (by etransitivity). case_decide as Hd.
    + destruct Hd as [? ->]. injection Hr as <- <-. split; [done|]. eapply agreed_earlier; [exact Hl1|].
      exists nd. split; [done|lia].
    + pose proof (sleep_later (20 * Millisecond) w1) as Hl4. destruct (IH _ Hr) as [Hl Hb].
      assert (later w (env_sleep (20 * Millisecond) w1)) by (by etransitivity). split; [by etransitivity|].
      destruct b; [by eapply agreed_earlier|done].
  - intros [= <- <-]. split; [done|lia].
Qed.

Lemma await_commit_fuel fuel cmd expected index t1 w :
  2 * Second - (Z.of_nat fuel - 1) * (20 * Millisecond) ≤ env_now w - t1 → (1 ≤ fuel)%nat →
  await_commit fuel cmd expected index t1 w ≠ OutOfFuel.
Proof.
  revert w. induction fuel as [|fuel IH]; intros w Ht Hf; cbn [await_commit]; [lia|].
  pose proof (lt_now _ _ (env_run_later w)). destruct (decide (_ < _)) as [Hlt|]; [|done].
  destruct (nCommitted _ _) as [[[nd cmd1] w1]| |] eqn:E; cbn [mbind result_bind];
    [|done|exfalso; eapply nCommitted_fuel; eassumption].
  apply nCommitted_later, lt_now in E. rename E into Hl2. destruct (decide (_ ∧ _)); [done|].
  pose proof (sleep_time (20 * Millisecond) w1). apply IH; unfold Second, Millisecond in *; lia.
Qed.

Lemma one_loop_ret fuel cmd expected retry t0 starts w index w' :
  one_loop fuel cmd expected retry t0 starts w = Ret (index, w') →
  index ≠ -1 ∧ ∃ w1, taken cmd index w w1 ∧ agreed cmd expected index w1 w'.
Proof.
  revert starts w. induction fuel as [|fuel IH]; intros starts w; cbn [one_loop]; [done|].
  pose proof (env_run_later w) as Hl1. case_decide; [|done]. intros Hr. inv_ret. destruct x as [[starts1 index1] w1].
  apply try_servers_ret in E as [Hl2 Ht]. assert (later w w1) as Hl3 by (by etransitivity). case_decide as Hi.
  - inv_ret. destruct x as [b w2]. apply await_commit_ret in E as [Hl4 Hb].
    assert (later w w2) as Hl5 by (by etransitivity). destruct b; [|destruct retry; [|done]].
    + injection Hr as <- <-. split; [done|]. exists w1. split; [|done]. eapply taken_wider, Ht; done.
    + destruct (IH _ _ Hr) as (? & u & Hu & ?). split; [done|]. exists u. split; [|done]. by eapply taken_wider, Hu.
  - assert (later w (env_sleep (50 * Millisecond) w1)) as Hl4 by (etransitivity; [exact Hl3|apply sleep_later]).
    destruct (IH _ _ Hr) as (? & u & Hu & ?). split; [done|]. exists u. split; [|done]. by eapply taken_wider, Hu.
Qed.

Lemma one_loop_fuel fuel cmd expected retry t0 starts w :
  10 * Second - (Z.of_nat fuel - 1) * (50 * Millisecond) ≤ env_now w - t0 → (1 ≤ fuel)%nat →
  one_loop fuel cmd expected retry t0 starts w ≠ OutOfFuel.
Proof.
  revert starts w. induction fuel as [|fuel IH]; intros starts w Ht Hf; cbn [one_loop]; [lia|].
  pose proof (lt_now _ _ (env_run_later w)). destruct (decide (_ < _)) as [Hlt|]; [|done].
  destruct (try_servers _ _ _ _ _) as [[[starts1 index] w1]| |] eqn:E; cbn [mbind result_bind];
    [|done|exfalso; eapply try_servers_fuel; eassumption].
  apply try_servers_ret in E as [Hl2%lt_now _]. destruct (decide (index ≠ -1)).
  - destruct (await_commit _ _ _ _ _ _) as [[b w2]| |] eqn:E; cbn [mbind result_bind]; [|done|].
    + apply await_commit_ret in E as [Hl3%lt_now Hb]. destruct b; [done|]. destruct retry; [|done].
      apply IH; unfold Second, Millisecond in *; lia.
    + destruct (await_commit_fuel 101 cmd expected index (env_now w1) w1); [unfold Second, Millisecond; lia|lia|done].
  - pose proof (sleep_time (50 * Millisecond) w1). apply IH; unfold Second, Millisecond in *; lia.
Qed.

(** C33: [one] returns or fails the test within its ten seconds, and when it
    returns an index, a connected server accepted the command for that index
    during the call, and after that a count saw the command there in the logs of
    at least [expectedServers] servers (and one), each when it looked at it, and
    nothing in the logs of the others. In a test whose logs only grow these
    servers have it when [one] returns; an installed snapshot may replace a log
    in between. *)
Theorem one_agrees cmd expectedServers retry w :
  one cmd expectedServers retry w ≠ OutOfFuel ∧
  ∀ index w', one cmd expectedServers retry w = Ret (index, w') →
    index ≠ -1 ∧
    ∃ w1, taken cmd index w w1 ∧ agreed cmd expectedServers index w1 w' ∧
      (KeepsLogs W → 1 ≤ Z.of_nat (length (holders w' index cmd)) ∧
                     expectedServers ≤ Z.of_nat (length (holders w' index cmd))).
Proof.
  split.
  - apply one_loop_fuel; unfold Second, Millisecond; lia.
  - unfold one. intros index w' Hr. apply one_loop_ret in Hr as (Hi & w1 & Ht & Ha).
    split; [done|]. exists w1. split; [exact Ht|]. split; [exact Ha|]. intros ?. destruct Ha as (count & Hs%seen_holders & ? & ?). lia.
Qed.

(** ** checkOneLeader *)

(** What the servers claim when they are polled: who leads, in which term. *)
Definition claim_server (s : list (Z * Z) * W) (i : Z) : result (list (Z * Z) * W) :=
  let '(cl, w) := s in
  let w := env_run w in
  c ← (cfg_connected (env_cfg w)).[i];
  if c : bool then
    rf ← (cfg_rafts (env_cfg w)).[i];
    '(term, leader, w) ← env_GetState rf w;
    Ret (if leader : bool then cl ++ [(i, term)] else cl, w)
  else Ret (cl, w).

Definition claims (w : W) : result (list (Z * Z) * W) :=
  foldM claim_server ([], w) (seqZ 0 (cfg_n (env_cfg w))).

(** The map that [checkOneLeader] makes of the claims. *)
Definition by_term (cl : list (Z * Z)) : gmap Z (list Z) := foldl (λ m p, add_leader m p.2 p.1) ∅ cl.

Definition claimants (cl : list (Z * Z)) (term : Z) : list Z := (filter (λ p, p.2 = term) cl).*1.

Lemma by_term_snoc cl i t : by_term (cl ++ [(i, t)]) = add_leader (by_term cl) t i.
Proof. unfold by_term. by rewrite foldl_app. Qed.

Lemma by_term_lookup cl t : default [] (by_term cl !! t) = claimants cl t ∧ (by_term cl !! t = None ↔ claimants cl t = []).
Proof.
  induction cl as [|[i t'] cl [IHl IHn]] using rev_ind; [done|].
  rewrite by_term_snoc. unfold add_leader, claimants in *. rewrite filter_app, filter_cons, filter_nil, fmap_app. simpl.
  rewrite lookup_insert. destruct (decide (t' = t)) as [->|Hne]; simpl.
  - rewrite IHl. split; [done|]. split; [done|]. intros E. by apply app_nil in E as [_ ?].
  - by rewrite app_nil_r.
Qed.

Lemma poll_claims w : poll w = '(cl, w') ← claims w; Ret (by_term cl, w').
Proof.
  unfold poll, claims. change ∅ with (by_term []). generalize (@nil (Z * Z)) at 1 2. generalize w at 1 3.
  induction (seqZ 0 (cfg_n (env_cfg w))) as [|i js IH]; intros w1 cl; cbn [foldM]; [done|].
  unfold poll_server at 2, claim_server at 2.
  destruct ((cfg_connected _).[i]) as [[]| |]; cbn [mbind result_bind]; [|apply IH|done|done].
  destruct ((cfg_rafts _).[i]) as [rf| |]; cbn [mbind result_bind]; [|done|done].
  destruct (env_GetState _ _) as [[[t l] w2]| |]; cbn [mbind result_bind]; [|done|done].
  destruct l; [rewrite <-by_term_snoc|]; apply IH.
Qed.

Lemma claims_later w cl w' : claims w = Ret (cl, w') → later w w'.
Proof.
  intros Hr. eapply (foldM_ret_inv _ (λ _ s, later w s.2)) in Hr; [done|done|].
  intros _ i [cl1 w1] [cl2 w2] Hl Hs. simpl in *. inv_ret. pose proof (env_run_later w1) as Hl1.
  assert (later w (env_run w1)) by (by etransitivity).
  destruct x; inv_ret; [|by simplify_eq]. destruct x0 as [[t l] w3]. simplify_eq.
  etransitivity; [done|]. by eapply GetState_later.
Qed.

Lemma claims_fuel w : claims w ≠ OutOfFuel.
Proof.
  apply foldM_fuel. intros [cl w1] i. unfold claim_server. fuel_step. destruct a; [|done]. fuel_step. by fuel_step.
Qed.

(** [l] is the only claimant of the latest term. *)
Definition elected (cl : list (Z * Z)) (l : Z) : Prop :=
  ∃ t, (l, t) ∈ cl ∧ ∀ i t', (i, t') ∈ cl → t' < t ∨ (i = l ∧ t' = t).

(** No term has two claimants. *)
Definition single (cl : list (Z * Z)) : Prop := ∀ t, (length (claimants cl t) ≤ 1)%nat.

Lemma claimants_elem cl i t : i ∈ claimants cl t ↔ (i, t) ∈ cl.
Proof.
  unfold claimants. rewrite list_elem_of_fmap. split.
  - intros ([i' t'] & -> & [E ?]%list_elem_of_filter). simpl in *. by subst.
  - intros ?. exists (i, t). split; [done|]. by apply list_elem_of_filter.
Qed.

(** The first of [terms] with two claimants. *)
Definition first_clash (cl : list (Z * Z)) (terms : list Z) : option Z :=
  head (filter (λ t, (1 < length (claimants cl t))%nat) terms).

Lemma first_clash_some cl terms t : first_clash cl terms = Some t → t ∈ terms ∧ (1 < length (claimants cl t))%nat.
Proof.
  unfold first_clash. intros E. enough (t ∈ filter (λ t, (1 < length (claimants cl t))%nat) terms) as
    [? ?]%list_elem_of_filter by done. destruct (filter _ terms); [done|]. injection E as ->. left.
Qed.

Lemma first_clash_none cl terms :
  first_clash cl terms = None ↔ ∀ t, t ∈ terms → (length (claimants cl t) ≤ 1)%nat.
Proof.
  unfold first_clash. split.
  - intros E t Ht. destruct (decide (1 < length (claimants cl t))%nat) as [Hlt|]; [|lia].
    assert (t ∈ filter (λ t, (1 < length (claimants cl t))%nat) terms) as Hin by (by apply list_elem_of_filter).
    destruct (filter _ terms); [by apply elem_of_nil in Hin|done].
  - intros Hall. destruct (filter _ terms) as [|t l] eqn:E; [done|].
    assert (t ∈ filter (λ t, (1 < length (claimants cl t))%nat) terms) as [Hlt Hin]%list_elem_of_filter
      by (rewrite E; left). specialize (Hall t Hin). lia.
Qed.

(** The loop over the terms. *)
Lemma last_term_spec cl terms :
  match last_term (by_term cl) terms with
  | Ret t => first_clash cl terms = None ∧ (∀ t', t' ∈ terms → t' ≤ t) ∧ (t = -1 ∨ t ∈ terms) ∧ -1 ≤ t
  | Panic p => ∃ t, first_clash cl terms = Some t ∧ p = Fatal (two_leaders t (claimants cl t))
  | OutOfFuel => False
  end.
Proof.
  unfold last_term, first_clash. induction terms as [|t0 terms IH] using rev_ind.
  - split; [done|]. split; [by intros t' ?%elem_of_nil|]. split; [by left|done].
  - rewrite foldM_app, filter_app, filter_cons, filter_nil. cbn [foldM].
    destruct (foldM _ _ terms) as [t|p|]; cbn [mbind result_bind]; [| |done].
    2: { destruct IH as (t & Ht & ->). exists t. split; [|done]. by destruct (filter _ terms). }
    destruct IH as (Hno & Hall & Ht & Hge). destruct (by_term_lookup cl t0) as [-> _].
    assert (filter (λ t, (1 < length (claimants cl t))%nat) terms = []) as -> by (by destruct (filter _ terms)).
    destruct (decide (Z.of_nat _ > 1)) as [Hgt|Hle]; cbn [mbind result_bind].
    + exists t0. by rewrite decide_True by lia.
    + rewrite decide_False by lia. split; [done|]. split_and!.
      * intros t' [Ht'%Hall|[->|?%elem_of_nil]%elem_of_cons]%elem_of_app; [case_decide; lia|case_decide; lia|done].
      * case_decide; [right; set_solver|]. destruct Ht; [by left|right; set_solver].
      * case_decide; lia.
Qed.

Lemma terms_elem (range : list Z → list Z) `{!RangeOrder range} cl t :
  t ∈ range (map_to_list (by_term cl)).*1 ↔ ∃ i, (i, t) ∈ cl.
Proof.
  rewrite (range_perm (range := range)). rewrite list_elem_of_fmap. setoid_rewrite <-claimants_elem.
  destruct (by_term_lookup cl t) as [Hd Hn]. split.
  - intros ([t' l] & -> & Hl%elem_of_map_to_list). simpl in *. rewrite Hl in Hd, Hn. simpl in Hd. subst l.
    destruct (claimants cl t') as [|i ?]; [discriminate (proj2 Hn eq_refl)|]. exists i. by left.
  - intros [i Hi]. destruct (by_term cl !! t) as [l|] eqn:E.
    + exists (t, l). split; [done|]. by apply elem_of_map_to_list.
    + rewrite (proj1 Hn eq_refl) in Hi. by apply elem_of_nil in Hi.
Qed.

Lemma by_term_empty cl : by_term cl = ∅ ↔ cl = [].
Proof.
  split; [|by intros ->]. intros E. destruct cl as [|[i t] cl]; [done|].
  destruct (by_term_lookup ((i, t) :: cl) t) as [_ Hn]. rewrite E in Hn.
  assert (i ∈ claimants ((i, t) :: cl) t) as Hi by (apply claimants_elem; left).
  rewrite (proj1 Hn (lookup_empty _)) in Hi. by apply elem_of_nil in Hi.
Qed.

(** What a round makes of its claims. *)
Definition decide_round (range : list Z → list Z) (cl : list (Z * Z)) : result Z :=
  last ← last_term (by_term cl) (range (map_to_list (by_term cl)).*1);
  (default [] (by_term cl !! last)).[0].

(** The first term with two claimants, in the order the map is ranged over. *)
Definition clash (range : list Z → list Z) (cl : list (Z * Z)) : option Z :=
  first_clash cl (range (map_to_list (by_term cl)).*1).

Lemma clash_none (range : list Z → list Z) `{!RangeOrder range} cl : clash range cl = None ↔ single cl.
Proof.
  unfold clash. rewrite first_clash_none. split; [|by auto]. intros Hall t.
  destruct (claimants cl t) as [|i l] eqn:E; [simpl; lia|]. rewrite <-E. apply Hall, (terms_elem range). exists i.
  apply claimants_elem. rewrite E. left.
Qed.

Lemma elected_unique cl l l' : elected cl l → elected cl l' → l = l'.
Proof.
  intros (t & Hl & Hall) (t' & Hl' & Hall').
  destruct (Hall _ _ Hl') as [?|[-> _]]; [|done]. destruct (Hall' _ _ Hl) as [?|[-> _]]; [lia|done].
Qed.

(** In the loop the latest term is the one of the elected. *)
Lemma latest_elected cl t : (∀ i t', (i, t') ∈ cl → t' ≤ t) → single cl → (∃ i, (i, t) ∈ cl) →
  ∃ l, (claimants cl t).[0] = Ret l ∧ elected cl l.
Proof.
  intros Hle Hs [i Hi]. pose proof Hi as Hi'. apply claimants_elem in Hi'. specialize (Hs t).
  destruct (claimants cl t) as [|l [|? ?]] eqn:E; [by apply elem_of_nil in Hi'| |simpl in Hs; lia].
  exists l. split; [done|]. apply list_elem_of_singleton in Hi' as ->. exists t. split; [done|].
  intros i' t' Hit. specialize (Hle _ _ Hit). destruct (decide (t' = t)) as [->|]; [right|left; lia].
  apply claimants_elem in Hit. rewrite E in Hit. by apply list_elem_of_singleton in Hit as ->.
Qed.

Lemma decide_round_spec (range : list Z → list Z) `{!RangeOrder range} cl :
  cl ≠ [] → (∀ i t, (i, t) ∈ cl → 0 ≤ t) →
  match decide_round range cl with
  | Ret l => single cl ∧ elected cl l
  | Panic p => ∃ t, clash range cl = Some t ∧ p = Fatal (two_leaders t (claimants cl t))
  | OutOfFuel => False
  end.
Proof.
  intros Hne Hpos. unfold decide_round. pose proof (last_term_spec cl (range (map_to_list (by_term cl)).*1)) as Hs.
  destruct (last_term _ _) as [t|p|]; cbn [mbind result_bind]; [|done|done].
  destruct Hs as (Hno%(clash_none range) & Hall & Ht & Hge). destruct (by_term_lookup cl t) as [-> _].
  assert (∀ i t', (i, t') ∈ cl → t' ≤ t) as Hle by (intros i t' ?; apply Hall, (terms_elem range); by exists i).
  destruct (latest_elected cl t Hle Hno) as (l & -> & ?); [|done].
  destruct Ht as [->|Ht%(terms_elem range)]; [|done]. destruct cl as [|[i0 t0] cl]; [done|].
  specialize (Hle i0 t0 ltac:(left)). specialize (Hpos i0 t0 ltac:(left)). lia.
Qed.

Lemma decide_round_ret (range : list Z → list Z) `{!RangeOrder range} cl l :
  cl ≠ [] → (∀ i t, (i, t) ∈ cl → 0 ≤ t) → decide_round range cl = Ret l ↔ single cl ∧ elected cl l.
Proof.
  intros Hne Hpos. pose proof (decide_round_spec range cl Hne Hpos) as Hs. split.
  - intros E. by rewrite E in Hs.
  - intros [Hsg He]. destruct (decide_round range cl) as [l'|p|]; [|exfalso|done].
    + f_equal. apply (elected_unique cl); [apply Hs|done].
    + destruct Hs as (t & Ht & _). by rewrite (proj2 (clash_none range cl) Hsg) in Ht.
Qed.

Lemma decide_round_panic (range : list Z → list Z) `{!RangeOrder range} cl reason :
  cl ≠ [] → (∀ i t, (i, t) ∈ cl → 0 ≤ t) →
  decide_round range cl = Panic reason ↔ ∃ t, clash range cl = Some t ∧ reason = Fatal (two_leaders t (claimants cl t)).
Proof.
  intros Hne Hpos. pose proof (decide_round_spec range cl Hne Hpos) as Hs. split.
  - intros E. by rewrite E in Hs.
  - intros (t & Ht & ->). destruct (decide_round range cl) as [l'|p|]; [exfalso| |done].
    + destruct Hs as [Hsg _]. by rewrite (proj2 (clash_none range cl) Hsg) in Ht.
    + destruct Hs as (t' & Ht' & ->). by assert (t' = t) as -> by congruence.
Qed.

(** The state in which a round of [checkOneLeader] polls. *)
Definition rested (w : W) : W :=
  let '(r, w) := env_rand w in env_sleep ((450 + Z.rem r 100) * Millisecond) w.

Lemma checkOneLeader_round (range : list Z → list Z) iters w :
  checkOneLeader_loop range (S iters) w =
    '(cl, w1) ← claims (rested w);
    if decide (cl = []) then checkOneLeader_loop range iters w1
    else l ← decide_round range cl; Ret (l, w1).
Proof.
  cbn [checkOneLeader_loop]. unfold rested. destruct (env_rand w) as [r w0]. rewrite poll_claims.
  destruct (claims _) as [[cl w1]| |]; cbn [mbind result_bind]; [|done|done]. unfold decide_round.
  destruct (decide (cl = [])) as [->|Hne].
  - unfold by_term. simpl. rewrite map_to_list_empty. simpl.
    pose proof (last_term_spec [] (range [])) as Hs. change (by_term []) with (∅ : gmap Z (list Z)) in Hs.
    destruct (last_term _ _) as [t|p|]; cbn [mbind result_bind]; [by rewrite decide_False by auto| |done].
    destruct Hs as (t & [_ Hlen]%first_clash_some & _). cbn in Hlen. lia.
  - destruct (last_term _ _); cbn [mbind result_bind]; [|done|done].
    rewrite decide_True by (by intros ?%by_term_empty). done.
Qed.

Lemma rested_later w : later w (rested w).
Proof.
  unfold rested. pose proof (rand_later w). destruct (env_rand w) as [r w1].
  etransitivity; [done|apply sleep_later].
Qed.

Lemma decide_round_fuel range cl : decide_round range cl ≠ OutOfFuel.
Proof.
  unfold decide_round. pose proof (last_term_spec cl (range (map_to_list (by_term cl)).*1)) as Hs.
  destruct (last_term _ _); cbn [mbind result_bind]; [apply go_index_fuel|done|done].
Qed.

(** In [k] rounds from [w] to [w'] nobody claimed to lead. *)
Inductive quiet : nat → W → W → Prop :=
  | quiet_0 w : quiet 0 w w
  | quiet_S k w w1 w' : claims (rested w) = Ret ([], w1) → quiet k w1 w' → quiet (S k) w w'.

(** The loop ends in the first round with claims, or runs out of rounds. *)
Lemma loop_ret range iters w l w' :
  checkOneLeader_loop range iters w = Ret (l, w') ↔
  ∃ k u cl, (k < iters)%nat ∧ quiet k w u ∧ claims (rested u) = Ret (cl, w') ∧ cl ≠ [] ∧ decide_round range cl = Ret l.
Proof.
  revert w. induction iters as [|iters IH]; intros w.
  { split; [done|]. intros (k & _ & _ & Hk & _). lia. }
  rewrite checkOneLeader_round. split.
  - destruct (claims (rested w)) as [[cl w1]| |] eqn:Ec; cbn [mbind result_bind]; [|done|done]. case_decide as Hcl.
    + subst cl. intros (k & u & cl & Hk & Hq & Hu)%IH. exists (S k), u, cl. split; [lia|]. split; [by eapply quiet_S|exact Hu].
    + intros Hr. inv_ret. simplify_eq. exists 0%nat, w, cl. split_and!; [lia|constructor|done..].
  - intros (k & u & cl & Hk & Hq & Hcl & Hne & Hd). destruct Hq as [w|k w w1 u Ec Hq].
    + rewrite Hcl. cbn [mbind result_bind]. by rewrite decide_False, Hd.
    + rewrite Ec. cbn [mbind result_bind]. rewrite decide_True by done. apply IH. exists k, u, cl.
      split_and!; [lia|done..].
Qed.

Lemma loop_panic range iters w reason :
  checkOneLeader_loop range iters w = Panic reason ↔
  (reason = Fatal "expected one leader, got none" ∧ ∃ w', quiet iters w w') ∨
  ∃ k u, (k < iters)%nat ∧ quiet k w u ∧
    (claims (rested u) = Panic reason ∨
     ∃ cl w', claims (rested u) = Ret (cl, w') ∧ cl ≠ [] ∧ decide_round range cl = Panic reason).
Proof.
  revert w. induction iters as [|iters IH]; intros w.
  { split; [intros [= <-]; left; split; [done|]; exists w; constructor|].
    intros [[-> _]|(k & u & Hk & _)]; [done|lia]. }
  rewrite checkOneLeader_round. split.
  - destruct (claims (rested w)) as [[cl w1]| |] eqn:Ec; cbn [mbind result_bind].
    + case_decide as Hcl.
      * subst cl. intros [(-> & w' & Hq)|(k & u & Hk & Hq & Hu)]%IH.
        -- left. split; [done|]. exists w'. by eapply quiet_S.
        -- right. exists (S k), u. split; [lia|]. split; [by eapply quiet_S|exact Hu].
      * intros Hr. right. exists 0%nat, w. split_and!; [lia|constructor|]. right. exists cl, w1. split_and!; [done..|].
        destruct (decide_round range cl); cbn [mbind result_bind] in Hr; congruence.
    + intros [= <-]. right. exists 0%nat, w. split_and!; [lia|constructor|by left].
    + done.
  - intros [(-> & w' & Hq)|(k & u & Hk & Hq & Hu)].
    + inversion Hq as [|? ? w1 ? Ec Hq']; subst. rewrite Ec. cbn [mbind result_bind]. rewrite decide_True by done.
      apply IH. left. split; [done|]. by exists w'.
    + destruct Hq as [w|k w w1 u Ec Hq].
      * destruct Hu as [->|(cl & w' & -> & Hne & Hd)]; [done|]. cbn [mbind result_bind]. by rewrite decide_False, Hd.
      * rewrite Ec. cbn [mbind result_bind]. rewrite decide_True by done. apply IH. right. exists k, u.
        split_and!; [lia|done..].
Qed.

Lemma loop_fuel range iters w : checkOneLeader_loop range iters w ≠ OutOfFuel.
Proof.
  revert w. induction iters as [|iters IH]; intros w; [done|].
  rewrite checkOneLeader_round. pose proof (claims_fuel (rested w)).
  destruct (claims _) as [[cl w1]| |]; cbn [mbind result_bind]; [|done|done]. case_decide; [apply IH|].
  pose proof (decide_round_fuel range cl). by destruct (decide_round _ _).
Qed.

(** C34: [checkOneLeader] polls the servers up to ten times, each time after
    its random pause, and decides by the first poll in which some server claims
    to lead. It returns [l] exactly when in that poll no term has two claimants
    and [l] is the one of the latest term. It fails the test exactly when that
    poll has two claimants of one term, which is what it then reports, or when
    none of the ten polls had any ("expected one leader, got none"), or when
    the poll itself fails. *)
Theorem checkOneLeader_decides (range : list Z → list Z) `{!RangeOrder range} w :
  (∀ w1 cl w2 i t, claims w1 = Ret (cl, w2) → (i, t) ∈ cl → 0 ≤ t) →
  checkOneLeader range w ≠ OutOfFuel ∧
  (∀ l w', checkOneLeader range w = Ret (l, w') ↔
     ∃ k u cl, (k < 10)%nat ∧ quiet k w u ∧ claims (rested u) = Ret (cl, w') ∧ single cl ∧ elected cl l) ∧
  (∀ reason, checkOneLeader range w = Panic reason ↔
     (reason = Fatal "expected one leader, got none" ∧ ∃ w', quiet 10 w w') ∨
     ∃ k u, (k < 10)%nat ∧ quiet k w u ∧
       (claims (rested u) = Panic reason ∨
        ∃ cl w' t, claims (rested u) = Ret (cl, w') ∧ clash range cl = Some t ∧
          reason = Fatal (two_leaders t (claimants cl t)))) ∧
  (∀ cl, (clash range cl = None ↔ single cl) ∧
         (∀ t, clash range cl = Some t → (1 < length (claimants cl t))%nat)).
Proof.
  intros Hpos. unfold checkOneLeader. split; [apply loop_fuel|]. split_and!.
  - intros l w'. rewrite loop_ret. split.
    + intros (k & u & cl & ? & ? & Hcl & Hne & Hd). exists k, u, cl.
      apply (decide_round_ret range) in Hd as [? ?]; [by split_and!|done|intros i t; by eapply Hpos].
    + intros (k & u & cl & ? & ? & Hcl & Hs & He). exists k, u, cl.
      assert (cl ≠ []) by (intros ->; destruct He as (t & ?%elem_of_nil & _); done).
      split_and!; [done..|]. apply (decide_round_ret range); [done|intros i t; by eapply Hpos|done].
  - intros reason. rewrite loop_panic.
    assert (∀ u, (∃ cl w', claims (rested u) = Ret (cl, w') ∧ cl ≠ [] ∧ decide_round range cl = Panic reason) ↔
      ∃ cl w' t, claims (rested u) = Ret (cl, w') ∧ clash range cl = Some t ∧
        reason = Fatal (two_leaders t (claimants cl t))) as Heq; [|by setoid_rewrite Heq].
    intros u. split.
    + intros (cl & w' & Hcl & Hne & Hd).
      apply (decide_round_panic range) in Hd as (t & ? & ?); [by exists cl, w', t|done|intros i t'; by eapply Hpos].
    + intros (cl & w' & t & Hcl & Ht & Hr). exists cl, w'.
      assert (cl ≠ []) by (intros ->; apply first_clash_some in Ht as [_ Ht]; cbn in Ht; lia).
      split_and!; [done..|]. apply (decide_round_panic range); [done|intros i t'; by eapply Hpos|by exists t].
  - intros cl. split; [by apply (clash_none range)|]. intros t Ht. by eapply first_clash_some.
Qed.
End tester.

(** ** A sample environment *)

(** Server 0 leads term 1 and commits at once whatever it is given. *)
Record toy := mkToy { toy_cfg : config; toy_now : Z }.

Definition toy_start (rf : option rid) (cmd : iface) (w : toy) : result (Z * Z * bool * toy) :=
  if decide (rf = Some 0%nat) then
    let k := cfg_maxIndex (toy_cfg w) + 1 in
    Ret (k, 1, true,
         mkToy (set_logs (toy_cfg w) ((λ l, Some (map_of l ∪ {[ k := cmd ]})) <$> cfg_logs (toy_cfg w)) k) (toy_now w))
  else Ret (-1, 1, false, w).

#[export] Instance toy_env : Env toy := {|
  env_cfg := toy_cfg;
  env_now := toy_now;
  env_run w := w;
  env_sleep d w := mkToy (toy_cfg w) (toy_now w + Z.max 0 d);
  env_rand w := (7, w);
  env_GetState rf w := Ret (1, bool_decide (rf = Some 0%nat), w);
  env_Start := toy_start
|}.

Lemma toy_moves (w w' : toy) : moves w w' →
  toy_now w ≤ toy_now w' ∧ length (cfg_rafts (toy_cfg w')) = length (cfg_rafts (toy_cfg w)) ∧
  ∀ i k v, log_of (toy_cfg w) i !! k = Some v → log_of (toy_cfg w') i !! k = Some v.
Proof.
  destruct 1 as [w|d w|w|rf w t b w' E|rf cmd w index t b w' E]; simpl in *; simplify_eq; try done.
  - split; [lia|done].
  - unfold toy_start in *. case_decide; simplify_eq; [|done]. split_and!; simpl; [lia|done|].
    intros i k v. unfold log_of. simpl. rewrite list_lookup_fmap.
    destruct (cfg_logs (toy_cfg w) !! Z.to_nat i) as [l|]; simpl; [|done]. intros Hk. by apply lookup_union_Some_l.
Qed.

#[export] Instance toy_laws : EnvLaws toy.
Proof.
  split; try (by intros w w' (? & ? & _)%toy_moves); intros; simpl in *; [lia|done|].
  unfold toy_start. by case_decide.
Qed.

#[export] Instance toy_keeps : KeepsLogs toy.
Proof. intros w w' i k v Hm. by apply toy_moves. Qed.

Definition toy0 : toy :=
  mkToy (mkConfig MakeNetwork 3 [Some 0; Some 1; Some 2]%nat [""; ""; ""] [true; true; true] [None; None; None]
    [None; None; None] [Some ∅; Some ∅; Some ∅] 0 0 0 0 0 0 0) 0.

Definition toy_one : Z * toy := get (one (Int 42) 3 false toy0) (0, toy0).
Definition toy_wait : iface * toy := get (wait 1 3 (-1) toy_one.2) (Nil, toy0).

Lemma one_agrees_witness :
  toy_one.1 = 1 ∧ holders toy_one.2 1 (Int 42) = [0; 1; 2] ∧
  ∃ w1, taken (Int 42) 1 toy0 w1 ∧ agreed (Int 42) 3 1 w1 toy_one.2.
Proof.
  split; [vm_compute; reflexivity|]. split; [vm_compute; reflexivity|].
  destruct (proj2 (one_agrees (Int 42) 3 false toy0) 1 toy_one.2) as (_ & w1 & Ht & Ha & _); [vm_compute; reflexivity|].
  exists w1. split; [exact Ht|exact Ha].
Defined.

Lemma wait_agrees_witness :
  toy_wait.1 = Int 42 ∧ wait 1 3 (-1) toy_one.2 ≠ OutOfFuel ∧
  ∃ w1 count, later toy_one.2 w1 ∧ seen 1 w1 toy_wait.2 (Int 42) count ∧ 3 ≤ count.
Proof.
  split; [vm_compute; reflexivity|]. destruct (wait_agrees 1 3 (-1) toy_one.2) as [Hf Hr]. split; [exact Hf|].
  destruct (Hr (Int 42) toy_wait.2) as [(w1 & count & Hl & Hs & Hc & _)|(_ & Heq & _)].
  - vm_compute. reflexivity.
  - exists w1, count. split_and!; [exact Hl|exact Hs|exact Hc].
  - discriminate Heq.
Defined.

Lemma toy_terms (w1 : toy) cl w2 i t : claims w1 = Ret (cl, w2) → (i, t) ∈ cl → 0 ≤ t.
Proof.
  intros Hc Hin. assert (∀ p, p ∈ (cl, w2).1 → 0 ≤ p.2) as Hall; [|exact (Hall (i, t) Hin)].
  revert Hc. apply (foldM_ret_inv _ (λ _ s, ∀ p, p ∈ s.1 → 0 ≤ p.2)).
  - by intros p ?%elem_of_nil.
  - intros _ j [c1 u1] [c2 u2] Hc1 Hs. unfold claim_server in Hs. inv_ret. destruct x; inv_ret; [|by simplify_eq].
    simpl in *. simplify_eq. case_bool_decide; [|done].
    intros p [?|[->|?%elem_of_nil]%elem_of_cons]%elem_of_app; [by apply Hc1|done|done].
Qed.

(** Nobody is connected. *)
Definition toy_off : toy :=
  mkToy (mkConfig MakeNetwork 1 [Some 0]%nat [""] [false] [None] [None] [Some ∅] 0 0 0 0 0 0 0) 0.
Definition toy_at (w : toy) (k : nat) : toy := mkToy (toy_cfg w) (toy_now w + Z.of_nat k * (457 * Millisecond)).

Lemma toy_off_round n :
  claims (rested (mkToy (toy_cfg toy_off) n)) = Ret ([], mkToy (toy_cfg toy_off) (n + 457 * Millisecond)).
Proof. reflexivity. Qed.

Lemma toy_off_quiet k m : quiet k (toy_at toy_off m) (toy_at toy_off (m + k)).
Proof.
  revert m. induction k as [|k IH]; intros m; [rewrite Nat.add_0_r; constructor|].
  apply quiet_S with (toy_at toy_off (S m)); [|replace (m + S k)%nat with (S m + k)%nat by lia; apply IH].
  unfold toy_at. rewrite toy_off_round. do 3 f_equal. unfold Millisecond. lia.
Qed.

Lemma checkOneLeader_decides_witness :
  checkOneLeader (λ l, l) toy0 = Ret (0, mkToy (toy_cfg toy0) (457 * Millisecond)) ∧
  checkOneLeader (λ l, l) toy_off = Panic (Fatal "expected one leader, got none").
Proof.
  split.
  - apply (checkOneLeader_decides (λ l : list Z, l) toy0 toy_terms). exists 0%nat, toy0, [(0, 1)].
    split_and!; [lia|constructor|vm_compute; reflexivity| |].
    + intros t. unfold claimants. rewrite filter_cons. case_decide; simpl; lia.
    + exists 1. split; [left|]. intros i t' [[= -> ->]|?%elem_of_nil]%elem_of_cons; [by right|done].
  - apply (checkOneLeader_decides (λ l : list Z, l) toy_off toy_terms). left. split; [reflexivity|].
    exists (toy_at toy_off 10). exact (toy_off_quiet 10 0).
Defined.
