(* ===== verification/Clerks.v ===== *)
(** shardctrler/client.go and common.go, shardkv/client.go and common.go: the
    clerks of the shard controller and of the sharded key/value service.

    A clerk runs against an environment: the calls it makes on its ends, the
    ends it makes, and sleeping. The network and the servers are behind it. *)
From Stdlib Require Import ZArith Lia Ascii.
From stdpp Require Import base gmap sets list strings.
From S2P Require Import Prelude.

(** ** Messages *)

Definition NShards : Z := 10.

Record Config := mkConfig { Num : Z; Shards : list Z; Groups : gmap Z (list string) }.

(** The zero value: config 0, all shards at group 0, no groups. *)
Definition Config_zero : Config := mkConfig 0 (replicate (Z.to_nat NShards) 0) ∅.

Definition OK : string := "OK".
Definition ErrNoKey : string := "ErrNoKey".
Definition ErrWrongGroup : string := "ErrWrongGroup".
Definition ErrWrongLeader : string := "ErrWrongLeader".

Record JoinArgs := mkJoinArgs { ja_Servers : gmap Z (list string) }.
Record LeaveArgs := mkLeaveArgs { la_GIDs : list Z }.
Record MoveArgs := mkMoveArgs { ma_Shard : Z; ma_GID : Z }.
Record QueryArgs := mkQueryArgs { qa_Num : Z }.
Record JoinReply := mkJoinReply { jr_WrongLeader : bool; jr_Err : string }.
Record LeaveReply := mkLeaveReply { lr_WrongLeader : bool; lr_Err : string }.
Record MoveReply := mkMoveReply { mr_WrongLeader : bool; mr_Err : string }.
Record QueryReply := mkQueryReply { qr_WrongLeader : bool; qr_Err : string; qr_Config : Config }.

Record PutAppendArgs := mkPutAppendArgs { pa_Key : string; pa_Value : string; pa_Op : string }.
Record PutAppendReply := mkPutAppendReply { pr_Err : string }.
Record GetArgs := mkGetArgs { ga_Key : string }.
Record GetReply := mkGetReply { gr_Err : string; gr_Value : string }.

(** ** The environment of a clerk *)

(** Ends are known by their names. A call returns its bool, what is in the
    reply variable, and the world after it. *)
Class ClerkEnv (W : Type) := {
  call_Query : string → QueryArgs → W → result (bool * QueryReply * W);
  call_Join : string → JoinArgs → W → result (bool * JoinReply * W);
  call_Leave : string → LeaveArgs → W → result (bool * LeaveReply * W);
  call_Move : string → MoveArgs → W → result (bool * MoveReply * W);
  call_Get : string → GetArgs → W → result (bool * GetReply * W);
  call_PutAppend : string → PutAppendArgs → W → result (bool * PutAppendReply * W);
  clerk_sleep : Z → W → W
}.

Section clerks.
Context {W : Type} `{ClerkEnv W}.

(** ** The controller's clerk *)

Section ask.
Context {Reply : Type} (call : string → W → result (bool * Reply * W)) (wrongLeader : Reply → bool).

(** [for _, srv := range ck.servers]: the first reply that is not of a wrong leader. *)
Fixpoint try_each (servers : list string) (w : W) : result (option Reply * W) :=
  match servers with
  | [] => Ret (None, w)
  | srv :: servers =>
      '(ok, reply, w) ← call srv w;
      if (ok : bool) && Bool.eqb (wrongLeader reply) false then Ret (Some reply, w) else try_each servers w
  end.

(** The endless loop around it; each turn takes one unit of fuel. *)
Fixpoint ask (fuel : nat) (servers : list string) (w : W) : result (Reply * W) :=
  match fuel with
  | O => OutOfFuel
  | S fuel =>
      '(reply, w) ← try_each servers w;
      match reply with
      | Some reply => Ret (reply, w)
      | None => ask fuel servers (clerk_sleep (100 * Millisecond) w)
      end
  end.
End ask.

Record Clerk := mkClerk { ck_servers : list string }.

Definition MakeClerk (servers : list string) : Clerk := mkClerk servers.

Definition Query (fuel : nat) (ck : Clerk) (num : Z) (w : W) : result (Config * W) :=
  let args := mkQueryArgs num in
  '(reply, w) ← ask (λ srv, call_Query srv args) qr_WrongLeader fuel (ck_servers ck) w;
  Ret (qr_Config reply, w).

Definition Join (fuel : nat) (ck : Clerk) (servers : gmap Z (list string)) (w : W) : result W :=
  let args := mkJoinArgs servers in
  '(_, w) ← ask (λ srv, call_Join srv args) jr_WrongLeader fuel (ck_servers ck) w; Ret w.

Definition Leave (fuel : nat) (ck : Clerk) (gids : list Z) (w : W) : result W :=
  let args := mkLeaveArgs gids in
  '(_, w) ← ask (λ srv, call_Leave srv args) lr_WrongLeader fuel (ck_servers ck) w; Ret w.

Definition Move (fuel : nat) (ck : Clerk) (shard gid : Z) (w : W) : result W :=
  let args := mkMoveArgs shard gid in
  '(_, w) ← ask (λ srv, call_Move srv args) mr_WrongLeader fuel (ck_servers ck) w; Ret w.

(** ** The key/value clerk *)

Definition key2shard (key : string) : Z :=
  let shard := match key with EmptyString => 0 | String c _ => Z.of_N (N_of_ascii c) end in
  Z.rem shard NShards.

(** [make_end] turns a server name into an end. *)
Record KVClerk := mkKVClerk {
  kc_sm : Clerk;
  kc_config : Config;
  kc_make_end : string → W → result (string * W)
}.

Definition MakeKVClerk (ctrlers : list string) (make_end : string → W → result (string * W)) : KVClerk :=
  mkKVClerk (MakeClerk ctrlers) Config_zero make_end.

Definition with_config (ck : KVClerk) (c : Config) : KVClerk := mkKVClerk (kc_sm ck) c (kc_make_end ck).

Section try_group.
Context {Reply : Type} (call : string → W → result (bool * Reply * W)).
Context (err : Reply → string) (done : string → bool).

(** Ask each server of the group for the shard: until one is [done], or says
    that the group is the wrong one. *)
Fixpoint try_group (make_end : string → W → result (string * W)) (servers : list string) (w : W)
    : result (option Reply * W) :=
  match servers with
  | [] => Ret (None, w)
  | name :: servers =>
      '(srv, w) ← make_end name w;
      '(ok, reply, w) ← call srv w;
      if (ok : bool) && done (err reply) then Ret (Some reply, w)
      else if (ok : bool) && bool_decide (err reply = ErrWrongGroup) then Ret (None, w)
      else try_group make_end servers w
  end.

(** One turn of the loop: the group that has the shard, by the clerk's config. *)
Definition try_shard (ck : KVClerk) (key : string) (w : W) : result (option Reply * W) :=
  gid ← (Shards (kc_config ck)).[key2shard key];
  match Groups (kc_config ck) !! gid with
  | Some servers => try_group (kc_make_end ck) servers w
  | None => Ret (None, w)
  end.

(** [qfuel] bounds each [Query] inside. *)
Fixpoint ask_shard (fuel qfuel : nat) (ck : KVClerk) (key : string) (w : W) : result (Reply * KVClerk * W) :=
  match fuel with
  | O => OutOfFuel
  | S fuel =>
      '(reply, w) ← try_shard ck key w;
      match reply with
      | Some reply => Ret (reply, ck, w)
      | None =>
          let w := clerk_sleep (100 * Millisecond) w in
          '(c, w) ← Query qfuel (kc_sm ck) (-1) w;
          ask_shard fuel qfuel (with_config ck c) key w
      end
  end.
End try_group.

Definition Get (fuel qfuel : nat) (ck : KVClerk) (key : string) (w : W) : result (string * KVClerk * W) :=
  let args := mkGetArgs key in
  '(reply, ck, w) ← ask_shard (λ srv, call_Get srv args) gr_Err
                      (λ err, bool_decide (err = OK) || bool_decide (err = ErrNoKey)) fuel qfuel ck key w;
  Ret (gr_Value reply, ck, w).

Definition PutAppend (fuel qfuel : nat) (ck : KVClerk) (key value op : string) (w : W) : result (KVClerk * W) :=
  let args := mkPutAppendArgs key value op in
  '(_, ck, w) ← ask_shard (λ srv, call_PutAppend srv args) pr_Err (λ err, bool_decide (err = OK)) fuel qfuel ck key w;
  Ret (ck, w).

Definition Put (fuel qfuel : nat) (ck : KVClerk) (key value : string) (w : W) : result (KVClerk * W) :=
  PutAppend fuel qfuel ck key value "Put" w.
Definition Append (fuel qfuel : nat) (ck : KVClerk) (key value : string) (w : W) : result (KVClerk * W) :=
  PutAppend fuel qfuel ck key value "Append" w.
End clerks.
Arguments KVClerk : clear implicits.
