(* ===== verification/ClerksProof.v ===== *)
(** Theorems about the clerks: what an answer means, when a clerk keeps
    trying, and that it settles on a healthy service. *)
From Stdlib Require Import ZArith Lia Ascii.
From stdpp Require Import base gmap sets list strings.
From S2P Require Import Prelude Clerks.

Section clerks.
Context {W : Type} `{ClerkEnv W}.

(** ** Rounds of questions *)

Section ask.
Context {Reply : Type} (call : string → W → result (bool * Reply * W)) (wrongLeader : Reply → bool).

(** In turn, every server's call fails or the server is no leader. *)
Inductive refuse : list string → W → W → Prop :=
  | refuse_nil w : refuse [] w w
  | refuse_cons srv servers w ok reply w1 w2 :
      call srv w = Ret (ok, reply, w1) → ok = false ∨ wrongLeader reply = true →
      refuse servers w1 w2 → refuse (srv :: servers) w w2.

(** Some server answers, after those before it refused. *)
Definition answer (servers : list string) (w : W) (reply : Reply) (w' : W) : Prop := ∃ l1 srv l2 w1,
  servers = l1 ++ srv :: l2 ∧ refuse l1 w w1 ∧ call srv w1 = Ret (true, reply, w') ∧ wrongLeader reply = false.

(** [n] rounds in which all refuse, each followed by a pause. *)
Inductive rounds (servers : list string) : nat → W → W → Prop :=
  | rounds_0 w : rounds servers 0 w w
  | rounds_S n w w1 w2 :
      refuse servers w w1 → rounds servers n (clerk_sleep (100 * Millisecond) w1) w2 → rounds servers (S n) w w2.

Lemma answer_cons srv servers w ok reply w1 r w' :
  call srv w = Ret (ok, reply, w1) → ok = false ∨ wrongLeader reply = true →
  answer servers w1 r w' → answer (srv :: servers) w r w'.
Proof.
  intros Hc Hno (l1 & s & l2 & w2 & -> & Hr & Hs). exists (srv :: l1), s, l2, w2.
  split; [done|]. split; [by econstructor|done].
Qed.

Lemma refuse_cons_inv srv servers w w' : refuse (srv :: servers) w w' →
  ∃ ok reply w1, call srv w = Ret (ok, reply, w1) ∧ (ok = false ∨ wrongLeader reply = true) ∧ refuse servers w1 w'.
Proof. inversion 1; subst. eauto 10. Qed.

Lemma answer_cons_inv srv servers w r w' : answer (srv :: servers) w r w' →
  (call srv w = Ret (true, r, w') ∧ wrongLeader r = false) ∨
  ∃ ok reply w1, call srv w = Ret (ok, reply, w1) ∧ (ok = false ∨ wrongLeader reply = true) ∧ answer servers w1 r w'.
Proof.
  intros ([|s l1] & s' & l2 & w2 & [= -> ->] & Hr & Hs & Hw).
  - inversion Hr; subst. by left.
  - apply refuse_cons_inv in Hr as (ok & reply & w1 & ? & ? & ?). right. exists ok, reply, w1.
    split_and!; [done..|]. by exists l1, s', l2, w2.
Qed.

Lemma try_each_ret servers w r w' :
  try_each call wrongLeader servers w = Ret (r, w') ↔
  match r with Some reply => answer servers w reply w' | None => refuse servers w w' end.
Proof.
  revert w. induction servers as [|srv servers IH]; intros w; cbn [try_each].
  { split; [intros [= <- <-]; constructor|].
    destruct r; [by intros ([] & ? & ? & ? & ? & _)|]. by inversion 1. }
  split.
  - intros Hr. inv_ret. destruct x as [[ok reply] w1]. destruct (ok && eqb (wrongLeader reply) false) eqn:Hg.
    + apply andb_true_iff in Hg as [-> Hg%eqb_prop]. injection Hr as <- <-.
      exists [], srv, servers, w. split_and!; [done|constructor|done..].
    + assert (ok = false ∨ wrongLeader reply = true) as Hno by (destruct ok, (wrongLeader reply); auto).
      apply IH in Hr. destruct r; [by eapply answer_cons|by econstructor].
  - assert (∀ ok reply w1, call srv w = Ret (ok, reply, w1) → ok = false ∨ wrongLeader reply = true →
      try_each call wrongLeader servers w1 = Ret (r, w') →
      ('(ok, reply, w) ← call srv w;
       if (ok : bool) && eqb (wrongLeader reply) false then Ret (Some reply, w)
       else try_each call wrongLeader servers w) = Ret (r, w')) as Hskip.
    { intros ok reply w1 -> Hno Ht. cbn [mbind result_bind].
      assert (ok && eqb (wrongLeader reply) false = false) as -> by (destruct Hno as [->| ->]; [done|apply andb_false_r]). done. }
    destruct r as [reply|].
    + intros [[-> Hw]|(ok & rep & w1 & Hc & Hno & Ha)]%answer_cons_inv.
      * cbn [mbind result_bind]. by rewrite Hw.
      * eapply Hskip; [done..|]. by apply IH.
    + intros (ok & rep & w1 & Hc & Hno & Ha)%refuse_cons_inv. eapply Hskip; [done..|]. by apply IH.
Qed.

Lemma ask_ret fuel servers w reply w' :
  ask call wrongLeader fuel servers w = Ret (reply, w') ↔
  ∃ n w1, (n < fuel)%nat ∧ rounds servers n w w1 ∧ answer servers w1 reply w'.
Proof.
  revert w. induction fuel as [|fuel IH]; intros w; cbn [ask].
  { split; [done|]. intros (n & w1 & ? & _). lia. }
  split.
  - intros Hr. inv_ret. destruct x as [[r|] w1]; apply try_each_ret in E.
    + injection Hr as <- <-. exists 0%nat, w. split_and!; [lia|constructor|done].
    + apply IH in Hr as (n & w2 & ? & ? & ?). exists (S n), w2. split_and!; [lia|by econstructor|done].
  - intros (n & w1 & Hn & Hr & Ha). destruct Hr as [w|n w w1 w2 Href Hr].
    + apply (try_each_ret servers w (Some reply)) in Ha as ->. done.
    + apply (try_each_ret servers w None) in Href as ->. cbn [mbind result_bind].
      apply IH. exists n, w2. split_and!; [lia|done..].
Qed.

(** The same for a call whose reply carries nothing. *)
Lemma ask_void fuel servers w w' :
  ('(_, w) ← ask call wrongLeader fuel servers w; Ret w) = Ret w' ↔
  ∃ n w1 reply, (n < fuel)%nat ∧ rounds servers n w w1 ∧ answer servers w1 reply w'.
Proof.
  split.
  - intros Hr. inv_ret. destruct x as [reply w1]. apply ask_ret in E as (n & w2 & ? & ? & ?). simplify_eq. eauto 10.
  - intros (n & w1 & reply & Hn & Hr & Ha). by rewrite (proj2 (ask_ret _ _ _ _ _) (ex_intro _ n (ex_intro _ w1 (conj Hn (conj Hr Ha))))).
Qed.

Lemma ask_fuel fuel servers w :
  (∀ srv w, call srv w ≠ OutOfFuel) →
  ask call wrongLeader fuel servers w = OutOfFuel ↔ ∃ w', rounds servers fuel w w'.
Proof.
  intros Hcall. assert (∀ w, try_each call wrongLeader servers w ≠ OutOfFuel) as Htry.
  { clear -Hcall. induction servers as [|srv servers IH]; intros w; cbn [try_each]; [done|].
    specialize (Hcall srv w). destruct (call srv w) as [[[ok reply] w1]| |]; cbn [mbind result_bind]; [|done|done].
    by case_match. }
  revert w. induction fuel as [|fuel IH]; intros w; cbn [ask].
  { split; [|done]. intros _. exists w. constructor. }
  destruct (try_each call wrongLeader servers w) as [[[r|] w1]|p|] eqn:E; cbn [mbind result_bind]; [| | |by destruct (Htry w)].
  - split; [done|]. intros [w' Hr]. inversion Hr as [|? ? w2 ? Href]; subst.
    apply (try_each_ret servers w None) in Href. congruence.
  - apply try_each_ret in E as Href. rewrite IH. split; intros [w' Hr]; exists w'; [by econstructor|].
    inversion Hr as [|? ? w2 ? Href' Hr']; subst. apply (try_each_ret servers w None) in Href'.
    by replace w1 with w2 by congruence.
  - split; [done|]. intros [w' Hr]. inversion Hr as [|? ? w2 ? Href]; subst.
    apply (try_each_ret servers w None) in Href. congruence.
Qed.
End ask.

(** ** The controller's clerk *)

(** The controller's clerk keeps asking, and believes only leaders: a
    Query returns exactly when, after some number [n] of rounds in which every
    server failed or was no leader, a server answered, and then it returns
    that server's config; Join, Leave and Move return exactly then too; and
    none of them ever gives up: it is still asking after [fuel] such rounds. *)
Lemma controller_clerk_asks fuel ck w :
  (∀ num c w', Query fuel ck num w = Ret (c, w') ↔ ∃ n w1 reply,
     (n < fuel)%nat ∧ rounds (λ srv, call_Query srv (mkQueryArgs num)) qr_WrongLeader (ck_servers ck) n w w1 ∧
     answer (λ srv, call_Query srv (mkQueryArgs num)) qr_WrongLeader (ck_servers ck) w1 reply w' ∧ c = qr_Config reply) ∧
  (∀ servers w', Join fuel ck servers w = Ret w' ↔ ∃ n w1 reply,
     (n < fuel)%nat ∧ rounds (λ srv, call_Join srv (mkJoinArgs servers)) jr_WrongLeader (ck_servers ck) n w w1 ∧
     answer (λ srv, call_Join srv (mkJoinArgs servers)) jr_WrongLeader (ck_servers ck) w1 reply w') ∧
  (∀ gids w', Leave fuel ck gids w = Ret w' ↔ ∃ n w1 reply,
     (n < fuel)%nat ∧ rounds (λ srv, call_Leave srv (mkLeaveArgs gids)) lr_WrongLeader (ck_servers ck) n w w1 ∧
     answer (λ srv, call_Leave srv (mkLeaveArgs gids)) lr_WrongLeader (ck_servers ck) w1 reply w') ∧
  (∀ shard gid w', Move fuel ck shard gid w = Ret w' ↔ ∃ n w1 reply,
     (n < fuel)%nat ∧ rounds (λ srv, call_Move srv (mkMoveArgs shard gid)) mr_WrongLeader (ck_servers ck) n w w1 ∧
     answer (λ srv, call_Move srv (mkMoveArgs shard gid)) mr_WrongLeader (ck_servers ck) w1 reply w') ∧
  (∀ num, (∀ srv w, call_Query srv (mkQueryArgs num) w ≠ OutOfFuel) →
     Query fuel ck num w = OutOfFuel ↔
     ∃ w', rounds (λ srv, call_Query srv (mkQueryArgs num)) qr_WrongLeader (ck_servers ck) fuel w w').
Proof.
  split_and!; intros *; try apply ask_void; unfold Query.
  - split.
    + intros Hr. inv_ret. destruct x as [reply w1]. apply ask_ret in E as (n & w2 & ? & ? & ?). simplify_eq.
      exists n, w2, reply. done.
    + intros (n & w1 & reply & Hn & Hr & Ha & ->).
      by rewrite (proj2 (ask_ret _ _ _ _ _ _ _) (ex_intro _ n (ex_intro _ w1 (conj Hn (conj Hr Ha))))).
  - intros Hcall. rewrite <-(ask_fuel _ qr_WrongLeader fuel (ck_servers ck) w Hcall).
    by destruct (ask _ _ _ _ _) as [[]| |].
Qed.

(** ** The key/value clerk *)

Lemma key2shard_range key : 0 ≤ key2shard key < NShards.
Proof. unfold key2shard, NShards. destruct key as [|c key]; [done|]. apply Z.rem_bound_pos; lia. Qed.

(** The controller said so: [c] was the config of a reply from a leader. *)
Definition told (ctrlers : list string) (c : Config) : Prop := ∃ srv w reply w',
  srv ∈ ctrlers ∧ call_Query srv (mkQueryArgs (-1)) w = Ret (true, reply, w') ∧
  qr_WrongLeader reply = false ∧ c = qr_Config reply.

Lemma Query_told fuel ck w c w' : Query fuel ck (-1) w = Ret (c, w') → told (ck_servers ck) c.
Proof.
  intros (n & w1 & reply & _ & _ & (l1 & srv & l2 & w2 & -> & _ & Hc & Hw) & ->)%(proj1 (controller_clerk_asks fuel ck w)).
  exists srv, w2, reply, w'. split_and!; [set_solver|done..].
Qed.

Section try_group.
Context {Reply : Type} (call : string → W → result (bool * Reply * W)).
Context (err : Reply → string) (done : string → bool).

(** The reply came from a server of the group that [config] gives the key. *)
Definition from_group (make_end : string → W → result (string * W)) (config : Config) (key : string)
    (reply : Reply) (w' : W) : Prop := ∃ gid servers name srv w1 w2,
  (Shards config).[key2shard key] = Ret gid ∧ Groups config !! gid = Some servers ∧ name ∈ servers ∧
  make_end name w1 = Ret (srv, w2) ∧ call srv w2 = Ret (true, reply, w') ∧ done (err reply) = true.

Lemma try_group_ret make_end servers w reply w' :
  try_group call err done make_end servers w = Ret (Some reply, w') →
  ∃ name srv w1 w2, name ∈ servers ∧ make_end name w1 = Ret (srv, w2) ∧
    call srv w2 = Ret (true, reply, w') ∧ done (err reply) = true.
Proof.
  revert w. induction servers as [|name servers IH]; intros w; cbn [try_group]; [by intros [=]|].
  intros Hr. inv_ret. destruct x as [srv w1]. inv_ret. destruct x as [[ok r] w2].
  destruct (ok && done (err r)) eqn:Hg; [|case_match; [by simplify_eq|]].
  - simplify_eq. apply andb_true_iff in Hg as [-> Hd]. exists name, srv, w, w1. split_and!; [by left|by trivial..].
  - destruct (IH _ Hr) as (name' & srv' & u1 & u2 & ? & ?). exists name', srv', u1, u2. split; [by right|by trivial].
Qed.

Lemma ask_shard_ret fuel qfuel ck key w reply ck' w' :
  ask_shard call err done fuel qfuel ck key w = Ret (reply, ck', w') →
  from_group (kc_make_end ck) (kc_config ck') key reply w' ∧
  (kc_config ck' = kc_config ck ∨ told (ck_servers (kc_sm ck)) (kc_config ck')).
Proof.
  revert ck w. induction fuel as [|fuel IH]; intros ck w; cbn [ask_shard]; [by intros [=]|].
  intros Hr. inv_ret. destruct x as [[r|] w1].
  - simplify_eq. split; [|by left]. unfold try_shard in E. inv_ret.
    destruct (Groups (kc_config ck') !! x) as [servers|] eqn:Eg; [|by simplify_eq].
    apply try_group_ret in E as (name & srv & u1 & u2 & ? & ? & ? & ?).
    exists x, servers, name, srv, u1, u2. by split_and!.
  - inv_ret. destruct x as [c w2]. apply Query_told in E0. destruct (IH _ _ Hr) as [Hf Hc]. split; [exact Hf|].
    right. destruct Hc as [->|Hc]; [exact E0|exact Hc].
Qed.

(** *** On a healthy service *)

(** The controller's servers, when leaders, answer [c], and one always does. *)
Definition healthy_controller (ctrlers : list string) (c : Config) : Prop :=
  (∀ srv w, srv ∈ ctrlers → ∃ ok reply w', call_Query srv (mkQueryArgs (-1)) w = Ret (ok, reply, w') ∧
     (ok = true → qr_WrongLeader reply = false → qr_Config reply = c)) ∧
  ∃ srv, srv ∈ ctrlers ∧ ∀ w, ∃ reply w',
     call_Query srv (mkQueryArgs (-1)) w = Ret (true, reply, w') ∧ qr_WrongLeader reply = false.

(** The servers of a group do not disown the shard, give [good] replies when
    done, and one is always done. *)
Definition healthy_group (make_end : string → W → result (string * W)) (servers : list string)
    (good : Reply → Prop) : Prop :=
  (∀ name w, name ∈ servers → ∃ srv w1, make_end name w = Ret (srv, w1) ∧
     ∃ ok reply w2, call srv w1 = Ret (ok, reply, w2) ∧
       (ok = true → err reply ≠ ErrWrongGroup ∧ (done (err reply) = true → good reply))) ∧
  ∃ name, name ∈ servers ∧ ∀ w srv w1, make_end name w = Ret (srv, w1) →
     ∃ reply w2, call srv w1 = Ret (true, reply, w2) ∧ done (err reply) = true.

Lemma try_group_healthy make_end servers good w :
  healthy_group make_end servers good →
  ∃ reply w', try_group call err done make_end servers w = Ret (Some reply, w') ∧ good reply.
Proof.
  intros [Hall (best & Hbest & Hdone)]. revert w. induction servers as [|name servers IH]; intros w; cbn [try_group].
  { by apply elem_of_nil in Hbest. }
  destruct (Hall name w) as (srv & w1 & Hm & ok & r & w2 & Hc & Hr); [by left|]. rewrite Hm. cbn [mbind result_bind].
  rewrite Hc. cbn [mbind result_bind]. destruct (ok && done (err r)) eqn:Hg.
  - apply andb_true_iff in Hg as [-> Hd]. exists r, w2. split; [by trivial|]. by apply Hr.
  - assert (ok && bool_decide (err r = ErrWrongGroup) = false) as ->.
    { destruct ok; [|by trivial]. apply bool_decide_eq_false. by apply Hr. }
    apply IH; [intros; apply Hall; by right|]. apply elem_of_cons in Hbest as [->|?]; [|by trivial].
    destruct (Hdone w srv w1 Hm) as (r' & w2' & Hc' & Hd). rewrite Hc in Hc'. injection Hc' as -> -> ->.
    simpl in Hg. rewrite Hd in Hg. discriminate Hg.
Qed.

Lemma ask_healthy ctrlers c w :
  healthy_controller ctrlers c →
  ∃ w', Query 1 (MakeClerk ctrlers) (-1) w = Ret (c, w').
Proof.
  intros [Hall (best & Hbest & Hdone)]. unfold Query. cbn [ask ck_servers MakeClerk].
  assert (∃ reply w', try_each (λ srv, call_Query srv (mkQueryArgs (-1))) qr_WrongLeader ctrlers w = Ret (Some reply, w') ∧
    qr_Config reply = c) as (reply & w' & -> & Hc); [|exists w'; cbn [mbind result_bind]; by rewrite Hc].
  revert w. induction ctrlers as [|srv ctrlers IH]; intros w; cbn [try_each]; [by apply elem_of_nil in Hbest|].
  destruct (Hall srv w) as (ok & r & w1 & Hc & Hr); [by left|]. rewrite Hc. cbn [mbind result_bind].
  destruct (ok && Bool.eqb (qr_WrongLeader r) false) eqn:Hg.
  - apply andb_true_iff in Hg as [-> Hg%Bool.eqb_prop]. exists r, w1. split; [by trivial|]. by apply Hr.
  - apply IH; [intros; apply Hall; by right|]. apply elem_of_cons in Hbest as [->|?]; [|by trivial].
    destruct (Hdone w) as (r' & w2' & Hc' & Hd). rewrite Hc in Hc'. injection Hc' as -> -> ->.
    simpl in Hg. rewrite Hd in Hg. discriminate Hg.
Qed.

(** With the config in hand, or none yet, one refresh is enough. *)
Lemma ask_shard_healthy ctrlers make_end config c gid servers good key w :
  healthy_controller ctrlers c → (Shards c).[key2shard key] = Ret gid → Groups c !! gid = Some servers → healthy_group make_end servers good →
  config = c ∨ config = Config_zero →
  ∃ reply ck' w', ask_shard call err done 2 1 (mkKVClerk (MakeClerk ctrlers) config make_end) key w = Ret (reply, ck', w') ∧
    kc_config ck' = c ∧ good reply.
Proof.
  intros Hctrl Hgid Hsrv Hgrp Hconf.
  assert (∀ w fuel, ∃ reply w', ask_shard call err done (S fuel) 1 (mkKVClerk (MakeClerk ctrlers) c make_end) key w =
    Ret (reply, mkKVClerk (MakeClerk ctrlers) c make_end, w') ∧ good reply) as Hnow.
  { intros w0 fuel. cbn [ask_shard]. unfold try_shard. simpl kc_config. rewrite Hgid. cbn [mbind result_bind]. rewrite Hsrv. simpl kc_make_end.
    destruct (try_group_healthy _ _ _ w0 Hgrp) as (reply & w' & -> & Hg). exists reply, w'. by split. }
  destruct Hconf as [->| ->].
  - destruct (Hnow w 1%nat) as (reply & w' & -> & Hg). by exists reply, (mkKVClerk (MakeClerk ctrlers) c make_end), w'.
  - cbn [ask_shard]. set (fresh_ck := mkKVClerk (MakeClerk ctrlers) Config_zero make_end).
    assert (try_shard call err done fresh_ck key w = Ret (None, w)) as ->.
    { unfold try_shard. assert ((Shards (kc_config fresh_ck)).[key2shard key] = Ret 0) as ->; [|by trivial].
      apply go_index_ret. pose proof (key2shard_range key) as Hr. split; [lia|].
      apply (lookup_replicate_2 (Z.to_nat NShards)). lia. }
    cbn [mbind result_bind].
    destruct (ask_healthy ctrlers c (clerk_sleep (100 * Millisecond) w) Hctrl) as [w1 Hq]. simpl kc_sm. rewrite Hq.
    cbn [mbind result_bind]. destruct (Hnow w1 0%nat) as (reply & w' & Ha & Hg).
    by exists reply, (mkKVClerk (MakeClerk ctrlers) c make_end), w'.
Qed.
End try_group.

(** ** What every call keeps, a clerk keeps

    [P] holds of the world before a clerk's operation, and every call it can
    make keeps it: then it holds before the call that gave the answer. *)

Section kept.
Context (P : W → Prop) (Hsleep : ∀ d w, P w → P (clerk_sleep d w)).

Definition keeps {Reply} (call : string → W → result (bool * Reply * W)) : Prop :=
  ∀ srv w ok reply w', P w → call srv w = Ret (ok, reply, w') → P w'.

(** The answer [reply] of a call to one of the servers. *)
Definition answered {Reply} (call : string → W → result (bool * Reply * W)) (servers : list string)
    (reply : Reply) (w' : W) : Prop :=
  ∃ srv w1, srv ∈ servers ∧ P w1 ∧ call srv w1 = Ret (true, reply, w').

Section calls.
Context {Reply : Type} (call : string → W → result (bool * Reply * W)) (Hcall : keeps call).

Lemma answered_cons srv servers reply w' : answered call servers reply w' → answered call (srv :: servers) reply w'.
Proof. intros (s & w1 & ? & ?). exists s, w1. split; [by right|done]. Qed.

Lemma try_each_kept wrongLeader servers w r w' :
  P w → try_each call wrongLeader servers w = Ret (r, w') →
  P w' ∧ ∀ reply, r = Some reply → answered call servers reply w' ∧ wrongLeader reply = false.
Proof.
  revert w. induction servers as [|srv servers IH]; intros w Hw; cbn [try_each]; [by intros [= <- <-]|].
  intros Hr. inv_ret. destruct x as [[ok reply] w1]. pose proof (Hcall _ _ _ _ _ Hw E) as Hw1.
  destruct (ok && eqb (wrongLeader reply) false) eqn:Hg.
  - apply andb_true_iff in Hg as [-> Hg%eqb_prop]. injection Hr as <- <-. split; [done|]. intros ? [= <-].
    split; [|done]. exists srv, w. split; [by left|done].
  - destruct (IH _ Hw1 Hr) as [Hw' Ha]. split; [done|]. intros rep Hrep. destruct (Ha rep Hrep).
    split; [by apply answered_cons|done].
Qed.

Lemma ask_kept wrongLeader fuel servers w reply w' :
  P w → ask call wrongLeader fuel servers w = Ret (reply, w') →
  P w' ∧ answered call servers reply w' ∧ wrongLeader reply = false.
Proof.
  revert w. induction fuel as [|fuel IH]; intros w Hw; cbn [ask]; [done|]. intros Hr. inv_ret.
  destruct x as [r w1]. destruct (try_each_kept _ _ _ _ _ Hw E) as [Hw1 Ha]. destruct r as [r|].
  - simplify_eq. split; [done|]. by apply Ha.
  - eapply IH, Hr. by apply Hsleep.
Qed.
End calls.

Lemma Query_kept fuel ck num w c w' :
  (∀ num, keeps (λ srv, call_Query srv (mkQueryArgs num))) → P w → Query fuel ck num w = Ret (c, w') →
  P w' ∧ ∃ reply, answered (λ srv, call_Query srv (mkQueryArgs num)) (ck_servers ck) reply w' ∧
    qr_WrongLeader reply = false ∧ c = qr_Config reply.
Proof.
  intros Hk Hw Hr. unfold Query in Hr. inv_ret. destruct x as [reply w1]. simplify_eq.
  destruct (ask_kept _ (Hk num) _ _ _ _ _ _ Hw E) as (? & ? & ?). split; [done|]. by exists reply.
Qed.

Section groups.
Context {Reply : Type} (call : string → W → result (bool * Reply * W)) (Hcall : keeps call).
Context (err : Reply → string) (done : string → bool) (make_end : string → W → result (string * W)).
Context (Hmake : ∀ name w srv w', P w → make_end name w = Ret (srv, w') → P w').

(** The answer came from an end made for the server [name]. *)
Definition answered_by (name : string) (reply : Reply) (w' : W) : Prop :=
  ∃ srv w1 w2, P w1 ∧ make_end name w1 = Ret (srv, w2) ∧ P w2 ∧ call srv w2 = Ret (true, reply, w').

Lemma try_group_kept servers w r w' :
  P w → try_group call err done make_end servers w = Ret (r, w') →
  P w' ∧ ∀ reply, r = Some reply → ∃ name, name ∈ servers ∧ answered_by name reply w' ∧ done (err reply) = true.
Proof.
  revert w. induction servers as [|name servers IH]; intros w Hw; cbn [try_group]; [by intros [= <- <-]|].
  intros Hr. inv_ret. destruct x as [srv w1]. pose proof (Hmake _ _ _ _ Hw E) as Hw1. inv_ret. destruct x as [[ok rep] w2].
  pose proof (Hcall _ _ _ _ _ Hw1 E0) as Hw2. destruct (ok && done (err rep)) eqn:Hg; [|case_match].
  - apply andb_true_iff in Hg as [-> Hd]. simplify_eq. split; [by trivial|]. intros ? [= <-].
    exists name. split_and!; [by left| |by trivial]. by exists srv, w, w1.
  - simplify_eq. split; [by trivial|discriminate].
  - destruct (IH _ Hw2 Hr) as [Hw' Ha]. split; [by trivial|]. intros reply Hrep. destruct (Ha reply Hrep) as (n & ? & ?).
    exists n. split; [by right|by trivial].
Qed.
End groups.
End kept.

(** The same, where what holds of the world goes with the clerk's config: a
    config that a leader of the controller hands out may replace it. *)
Section config_kept.
Context (I : Config → W → Prop) (Hsleep : ∀ c d w, I c w → I c (clerk_sleep d w)).
Context {Reply : Type} (call : string → W → result (bool * Reply * W)) (Hcall : ∀ c, keeps (I c) call).
Context (err : Reply → string) (done : string → bool) (make_end : string → W → result (string * W)).
Context (Hmake : ∀ c name w srv w', I c w → make_end name w = Ret (srv, w') → I c w').
Context (HQuery : ∀ c num, keeps (I c) (λ srv, call_Query srv (mkQueryArgs num))).
Context (ctrlers : list string).
Context (Hnew : ∀ c reply w', answered (I c) (λ srv, call_Query srv (mkQueryArgs (-1))) ctrlers reply w' →
  qr_WrongLeader reply = false → I (qr_Config reply) w').

Lemma try_shard_kept ck key w r w' : kc_make_end ck = make_end → I (kc_config ck) w →
  try_shard call err done ck key w = Ret (r, w') →
  I (kc_config ck) w' ∧ ∀ reply, r = Some reply → ∃ gid servers name, (Shards (kc_config ck)).[key2shard key] = Ret gid ∧
    Groups (kc_config ck) !! gid = Some servers ∧ name ∈ servers ∧
    answered_by (I (kc_config ck)) call make_end name reply w' ∧ done (err reply) = true.
Proof.
  intros Hck Hw Hr. unfold try_shard in Hr. inv_ret. rewrite Hck in Hr.
  destruct (Groups (kc_config ck) !! x) as [servers|] eqn:Eg; [|by simplify_eq].
  destruct (try_group_kept _ _ (Hcall _) err done make_end (Hmake _) _ _ _ _ Hw Hr) as [Hw' Ha]. split; [exact Hw'|].
  intros reply Hrep. destruct (Ha reply Hrep) as (name & ? & ? & ?). by exists x, servers, name.
Qed.

Lemma ask_shard_kept fuel qfuel ck key w reply ck' w' :
  kc_make_end ck = make_end → ck_servers (kc_sm ck) = ctrlers → I (kc_config ck) w →
  ask_shard call err done fuel qfuel ck key w = Ret (reply, ck', w') →
  I (kc_config ck') w' ∧ ∃ gid servers name, (Shards (kc_config ck')).[key2shard key] = Ret gid ∧
    Groups (kc_config ck') !! gid = Some servers ∧ name ∈ servers ∧
    answered_by (I (kc_config ck')) call make_end name reply w' ∧ done (err reply) = true.
Proof.
  revert ck w. induction fuel as [|fuel IH]; intros ck w Hck Hsm Hw; cbn [ask_shard]; [by intros [=]|].
  intros Hr. inv_ret. destruct x as [r w1]. destruct (try_shard_kept _ _ _ _ _ Hck Hw E) as [Hw1 Ha]. destruct r as [r|].
  - simplify_eq. split; [exact Hw1|]. by apply Ha.
  - inv_ret. destruct x as [c w2].
    destruct (Query_kept _ (Hsleep _) _ _ _ _ _ _ (HQuery _) (Hsleep _ _ _ Hw1) E0) as (_ & rep & Han & Hl & ->).
    eapply IH, Hr; [done|done|]. apply (Hnew (kc_config ck)); [by rewrite Hsm in Han|done].
Qed.
End config_kept.

(** What the key/value clerk's answers mean: the value a Get returns, and
    the success a Put or Append returns on, came in a reply to a call on an
    end made for a server of the group that has the key's shard, under the
    config the clerk ends with; and that config is the one it had, or one a
    leader of the controller gave it. *)
Lemma kv_clerk_answers fuel qfuel ck key w :
  (∀ v ck' w', Get fuel qfuel ck key w = Ret (v, ck', w') →
     ∃ reply, v = gr_Value reply ∧
       from_group (λ srv, call_Get srv (mkGetArgs key)) gr_Err
         (λ err, bool_decide (err = OK) || bool_decide (err = ErrNoKey)) (kc_make_end ck) (kc_config ck') key reply w' ∧
       (kc_config ck' = kc_config ck ∨ told (ck_servers (kc_sm ck)) (kc_config ck'))) ∧
  (∀ value op ck' w', PutAppend fuel qfuel ck key value op w = Ret (ck', w') →
     ∃ reply, from_group (λ srv, call_PutAppend srv (mkPutAppendArgs key value op)) pr_Err
         (λ err, bool_decide (err = OK)) (kc_make_end ck) (kc_config ck') key reply w' ∧
       (kc_config ck' = kc_config ck ∨ told (ck_servers (kc_sm ck)) (kc_config ck'))).
Proof.
  split; intros *.
  - unfold Get. intros Hr. inv_ret. destruct x as [[reply ck1] w1]. simplify_eq. exists reply. split; [done|].
    by apply ask_shard_ret in E.
  - unfold PutAppend. intros Hr. inv_ret. destruct x as [[reply ck1] w1]. simplify_eq. exists reply.
    by apply ask_shard_ret in E.
Qed.

(** C35: on a healthy service the key/value clerk settles: if the controller's
    leaders agree on a config in which the key's shard has a group, and that
    group's servers own the shard and answer Gets of the key with [v], then a
    Get by a new clerk, or by one with that config, returns [v] after at most
    one refresh; Put and Append return likewise. *)
Theorem kv_clerk_settles ctrlers make_end config c gid servers key w :
  healthy_controller ctrlers c → (Shards c).[key2shard key] = Ret gid → Groups c !! gid = Some servers →
  config = c ∨ config = Config_zero →
  (∀ v, healthy_group (λ srv, call_Get srv (mkGetArgs key)) gr_Err
          (λ err, bool_decide (err = OK) || bool_decide (err = ErrNoKey)) make_end servers (λ reply, gr_Value reply = v) →
     ∃ ck' w', Get 2 1 (mkKVClerk (MakeClerk ctrlers) config make_end) key w = Ret (v, ck', w') ∧ kc_config ck' = c) ∧
  (∀ value op, healthy_group (λ srv, call_PutAppend srv (mkPutAppendArgs key value op)) pr_Err
          (λ err, bool_decide (err = OK)) make_end servers (λ _, True) →
     ∃ ck' w', PutAppend 2 1 (mkKVClerk (MakeClerk ctrlers) config make_end) key value op w = Ret (ck', w') ∧
       kc_config ck' = c).
Proof.
  intros Hctrl Hgid Hsrv Hconf. split; intros * Hgrp.
  - destruct (ask_shard_healthy _ _ _ _ _ _ _ _ _ _ _ w Hctrl Hgid Hsrv Hgrp Hconf) as (reply & ck' & w' & E & Hc & Hg).
    exists ck', w'. unfold Get. rewrite E. cbn [mbind result_bind]. by rewrite Hg.
  - destruct (ask_shard_healthy _ _ _ _ _ _ _ _ _ _ _ w Hctrl Hgid Hsrv Hgrp Hconf) as (reply & ck' & w' & E & Hc & _).
    exists ck', w'. unfold PutAppend. by rewrite E.
Qed.
End clerks.

(** ** A sample service *)

(** One controller that leads among two; group 100 has all shards, and its
    second server leads. The world is the clock. *)
Definition one_group : Config := mkConfig 1 (replicate 10 100) {[100 := ["s0"; "s1"]]}.

#[export] Instance sample_service : ClerkEnv Z := {|
  call_Query srv args w :=
    Ret (true, if decide (srv = "c1") then mkQueryReply false OK one_group else mkQueryReply true "" Config_zero, w);
  call_Join srv args w := Ret (bool_decide (srv = "c1"), mkJoinReply false OK, w);
  call_Leave srv args w := Ret (bool_decide (srv = "c1"), mkLeaveReply false OK, w);
  call_Move srv args w := Ret (bool_decide (srv = "c1"), mkMoveReply false OK, w);
  call_Get srv args w :=
    Ret (true, if decide (srv = "end-s1") then mkGetReply OK "value" else mkGetReply ErrWrongLeader "", w);
  call_PutAppend srv args w :=
    Ret (true, if decide (srv = "end-s1") then mkPutAppendReply OK else mkPutAppendReply ErrWrongLeader, w);
  clerk_sleep d w := w + d
|}.

Definition sample_make_end (name : string) (w : Z) : result (string * Z) := Ret ("end-" +:+ name, w).
Definition sample_clerk : KVClerk Z := MakeKVClerk ["c0"; "c1"] sample_make_end.

Lemma sample_controller : healthy_controller ["c0"; "c1"] one_group.
Proof.
  split.
  - intros srv w Hs. simpl. eexists _, _, _. split; [reflexivity|]. by case_decide.
  - exists "c1". split; [set_solver|]. intros w. simpl. eexists _, _. by split.
Qed.

Lemma sample_group :
  healthy_group (λ srv, call_Get srv (mkGetArgs "k")) gr_Err (λ err, bool_decide (err = OK) || bool_decide (err = ErrNoKey))
    sample_make_end ["s0"; "s1"] (λ reply, gr_Value reply = "value").
Proof.
  split.
  - intros name w Hn. eexists _, _. split; [reflexivity|]. simpl. eexists _, _, _. split; [reflexivity|].
    intros _. case_decide; (split; [discriminate|]); done.
  - exists "s1". split; [set_solver|]. intros w srv w1 [= <- <-]. simpl. eexists _, _. by split.
Qed.

Lemma kv_clerk_settles_witness :
  ∃ ck' w', Get 2 1 sample_clerk "k" 0 = Ret ("value", ck', w') ∧ kc_config ck' = one_group.
Proof.
  apply (kv_clerk_settles ["c0"; "c1"] sample_make_end Config_zero one_group 100 ["s0"; "s1"] "k" 0).
  - exact sample_controller.
  - reflexivity.
  - reflexivity.
  - by right.
  - exact sample_group.
Defined.

Example kv_clerk_answers_sample :
  ∃ reply, "value" = gr_Value reply ∧
    from_group (λ srv, call_Get srv (mkGetArgs "k")) gr_Err (λ err, bool_decide (err = OK) || bool_decide (err = ErrNoKey))
      sample_make_end one_group "k" reply (100 * Millisecond) ∧
    (one_group = Config_zero ∨ told ["c0"; "c1"] one_group).
Proof.
  apply (proj1 (kv_clerk_answers 2 1 sample_clerk "k" 0) "value" (with_config sample_clerk one_group)).
  vm_compute. reflexivity.
Defined.
