(* ===== verification/KvConfig.v ===== *)
(** kvraft/config.go, the test harness of the key/value service: its servers,
    its clerks' ends and the partitions it sets up; and kvraft/server.go, the
    server as the lab hands it out.

    The service under test is a parameter ([ServiceOps]). Names that
    [randstring] draws and numbers that [rand.Intn] draws are arguments. *)
From Stdlib Require Import ZArith Lia.
From stdpp Require Import base gmap sets list strings pretty.
From S2P Require Import Prelude Labrpc Persister Iface RaftConfig Raft.

(** Service instances and clerks. *)
Abbreviation sid := nat.
Abbreviation clerk := nat.

Record ServiceOps (S : Type) := mkServiceOps {
  svc_Start : list string → Z → ptr → Z → heap → S → result (sid * heap * S);
  svc_Kill : sid → heap → S → result (heap * S);
  svc_GetState : sid → S → result (Z * bool * S)
}.
Arguments mkServiceOps {S}.
Arguments svc_Start {S}.
Arguments svc_Kill {S}.
Arguments svc_GetState {S}.

Record kvconfig := mkKvConfig {
  kv_net : net;
  kv_n : Z;
  kv_kvservers : list (option sid);
  kv_saved : list (option ptr);
  kv_endnames : list (option (list string));
  kv_clerks : gmap clerk (list string);
  kv_nextClientId : Z;
  kv_maxraftstate : Z;
  kv_start : Z;
  kv_t0 : Z;
  kv_rpcs0 : Z;
  kv_ops : Z
}.

Definition kv_with_net (c : kvconfig) (rn : net) : kvconfig :=
  mkKvConfig rn (kv_n c) (kv_kvservers c) (kv_saved c) (kv_endnames c) (kv_clerks c) (kv_nextClientId c)
    (kv_maxraftstate c) (kv_start c) (kv_t0 c) (kv_rpcs0 c) (kv_ops c).
Definition kv_with_servers (c : kvconfig) (l : list (option sid)) : kvconfig :=
  mkKvConfig (kv_net c) (kv_n c) l (kv_saved c) (kv_endnames c) (kv_clerks c) (kv_nextClientId c)
    (kv_maxraftstate c) (kv_start c) (kv_t0 c) (kv_rpcs0 c) (kv_ops c).
Definition kv_with_saved (c : kvconfig) (l : list (option ptr)) : kvconfig :=
  mkKvConfig (kv_net c) (kv_n c) (kv_kvservers c) l (kv_endnames c) (kv_clerks c) (kv_nextClientId c)
    (kv_maxraftstate c) (kv_start c) (kv_t0 c) (kv_rpcs0 c) (kv_ops c).
Definition kv_with_endnames (c : kvconfig) (l : list (option (list string))) : kvconfig :=
  mkKvConfig (kv_net c) (kv_n c) (kv_kvservers c) (kv_saved c) l (kv_clerks c) (kv_nextClientId c)
    (kv_maxraftstate c) (kv_start c) (kv_t0 c) (kv_rpcs0 c) (kv_ops c).
Definition kv_with_clerks (c : kvconfig) (m : gmap clerk (list string)) (next : Z) : kvconfig :=
  mkKvConfig (kv_net c) (kv_n c) (kv_kvservers c) (kv_saved c) (kv_endnames c) m next
    (kv_maxraftstate c) (kv_start c) (kv_t0 c) (kv_rpcs0 c) (kv_ops c).
Definition kv_with_stats (c : kvconfig) (t0 rpcs0 ops : Z) : kvconfig :=
  mkKvConfig (kv_net c) (kv_n c) (kv_kvservers c) (kv_saved c) (kv_endnames c) (kv_clerks c) (kv_nextClientId c)
    (kv_maxraftstate c) (kv_start c) t0 rpcs0 ops.

(** ** Who can talk to whom *)

(** [cfg.endnames[i][j]] *)
Definition kv_endname (cfg : kvconfig) (i j : Z) : result string :=
  row ← (kv_endnames cfg).[i]; (default [] row).[j].

Definition connectUnlocked (cfg : kvconfig) (i : Z) (to : list Z) : result kvconfig :=
  rn ← enable_loop (λ j, t ← to.[j]; Some <$> kv_endname cfg i t) true (kv_net cfg) (seqZ 0 (Z.of_nat (length to)));
  rn ← enable_loop (λ j, t ← to.[j]; Some <$> kv_endname cfg t i) true rn (seqZ 0 (Z.of_nat (length to)));
  Ret (kv_with_net cfg rn).

(** The second loop tests [endnames[j]] where it uses [endnames[from[j]]]. *)
Definition disconnectUnlocked (cfg : kvconfig) (i : Z) (from : list Z) : result kvconfig :=
  rn ← enable_loop (λ j, row ← (kv_endnames cfg).[i];
                         if row is Some _ then f ← from.[j]; Some <$> kv_endname cfg i f else Ret None)
         false (kv_net cfg) (seqZ 0 (Z.of_nat (length from)));
  rn ← enable_loop (λ j, row ← (kv_endnames cfg).[j];
                         if row is Some _ then f ← from.[j]; Some <$> kv_endname cfg f i else Ret None)
         false rn (seqZ 0 (Z.of_nat (length from)));
  Ret (kv_with_net cfg rn).

(** The lock taken around them changes nothing here: each is one step. *)
Definition kv_connect (cfg : kvconfig) (i : Z) (to : list Z) : result kvconfig := connectUnlocked cfg i to.
Definition kv_disconnect (cfg : kvconfig) (i : Z) (from : list Z) : result kvconfig := disconnectUnlocked cfg i from.

Definition All (cfg : kvconfig) : result (list Z) :=
  all ← go_make (kv_n cfg) 0;
  foldM (λ all i, all.[i <- i]) all (seqZ 0 (kv_n cfg)).

Definition ConnectAll (cfg : kvconfig) : result kvconfig :=
  foldM (λ cfg i, all ← All cfg; connectUnlocked cfg i all) cfg (seqZ 0 (kv_n cfg)).

(** One side of [partition]: cut its servers from [others], join them up. *)
Definition partition_side (cfg : kvconfig) (side others : list Z) : result kvconfig :=
  foldM (λ cfg i,
    p ← side.[i];
    cfg ← disconnectUnlocked cfg p others;
    connectUnlocked cfg p side) cfg (seqZ 0 (Z.of_nat (length side))).

Definition partition (cfg : kvconfig) (p1 p2 : list Z) : result kvconfig :=
  cfg ← partition_side cfg p1 p2; partition_side cfg p2 p1.

(** ** Clerks *)

(** [draw i] is [rand.Intn(i + 1)]. *)
Definition random_handles (draw : Z → Z) (kvh : list string) : result (list string) :=
  foldM (λ sa i,
    let j := draw i in
    x ← sa.[i]; y ← sa.[j];
    sa ← sa.[i <- y]; sa.[j <- x]) kvh (seqZ 0 (Z.of_nat (length kvh))).

Definition client_loop (cfg : kvconfig) (ck : clerk) (js : list Z) (b : bool) : result kvconfig :=
  let endnames := default [] (kv_clerks cfg !! ck) in
  rn ← enable_loop (λ j, t ← js.[j]; Some <$> endnames.[t]) b (kv_net cfg) (seqZ 0 (Z.of_nat (length js)));
  Ret (kv_with_net cfg rn).

Definition ConnectClientUnlocked (cfg : kvconfig) (ck : clerk) (to : list Z) : result kvconfig :=
  client_loop cfg ck to true.
Definition DisconnectClientUnlocked (cfg : kvconfig) (ck : clerk) (from : list Z) : result kvconfig :=
  client_loop cfg ck from false.
Definition ConnectClient (cfg : kvconfig) (ck : clerk) (to : list Z) : result kvconfig :=
  ConnectClientUnlocked cfg ck to.
Definition DisconnectClient (cfg : kvconfig) (ck : clerk) (from : list Z) : result kvconfig :=
  DisconnectClientUnlocked cfg ck from.

(** A row of new names, and an end for each, connected to server [j]. *)
Definition new_row (draw : Z → string) (cfg : kvconfig) : result (list string) :=
  blank ← go_make (kv_n cfg) "";
  foldM (λ row j, row.[j <- draw j]) blank (seqZ 0 (kv_n cfg)).
Definition row_ends (cfg : kvconfig) (row : list string) : result kvconfig :=
  rn ← foldM (λ rn j,
    e ← row.[j];
    rn ← MakeEnd rn (Str e);
    Ret (Connect rn (Str e) (Int j))) (kv_net cfg) (seqZ 0 (kv_n cfg));
  Ret (kv_with_net cfg rn).

(** Returns the clerk and the order of its ends. *)
Definition makeClient (draw : Z → string) (shuffle : Z → Z) (cfg : kvconfig) (to : list Z)
    : result (kvconfig * clerk * list string) :=
  endnames ← new_row draw cfg;
  cfg ← row_ends cfg endnames;
  handles ← random_handles shuffle endnames;
  let ck := fresh (dom (kv_clerks cfg)) in
  let cfg := kv_with_clerks cfg (<[ck := endnames]> (kv_clerks cfg)) (int64 (kv_nextClientId cfg + 1)) in
  cfg ← ConnectClientUnlocked cfg ck to;
  Ret (cfg, ck, handles).

(** [os.Remove] of the names touches files, not the network. *)
Definition deleteClient (cfg : kvconfig) (ck : clerk) : kvconfig :=
  kv_with_clerks cfg (delete ck (kv_clerks cfg)) (kv_nextClientId cfg).

(** ** Servers *)

Record kvworld (S : Type) := mkKvWorld {
  kw_cfg : kvconfig;
  kw_heap : heap;
  kw_srvs : gmap ptr sid;
  kw_impl : S
}.
Arguments mkKvWorld {S}.
Arguments kw_cfg {S}.
Arguments kw_heap {S}.
Arguments kw_srvs {S}.
Arguments kw_impl {S}.

Section service.
Context {S : Type} (svc : ServiceOps S).
Abbreviation world := (kvworld S).

Definition kw_with_cfg (w : world) (cfg : kvconfig) : world := mkKvWorld cfg (kw_heap w) (kw_srvs w) (kw_impl w).

(** [cfg.saved[i] = cfg.saved[i].Copy()], when it is not nil. *)
Definition kv_copy_saved (w : world) (i : Z) : result world :=
  sv ← (kv_saved (kw_cfg w)).[i];
  match sv with
  | None => Ret w
  | Some p =>
      ps ← nonnil (h_ps (kw_heap w) !! p);
      let '(q, h) := alloc (kw_heap w) (Copy ps) in
      saved ← (kv_saved (kw_cfg w)).[i <- Some q];
      Ret (mkKvWorld (kv_with_saved (kw_cfg w) saved) h (kw_srvs w) (kw_impl w))
  end.

Definition ShutdownServer (w : world) (i : Z) : result world :=
  all ← All (kw_cfg w);
  cfg ← disconnectUnlocked (kw_cfg w) i all;
  let cfg := kv_with_net cfg (DeleteServer (kv_net cfg) (Int i)) in
  w ← kv_copy_saved (kw_with_cfg w cfg) i;
  kv ← (kv_kvservers (kw_cfg w)).[i];
  match kv with
  | None => Ret w
  | Some kv =>
      '(h, s) ← svc_Kill svc kv (kw_heap w) (kw_impl w);
      servers ← (kv_kvservers (kw_cfg w)).[i <- None];
      Ret (mkKvWorld (kv_with_servers (kw_cfg w) servers) h (kw_srvs w) s)
  end.

Definition StartServer (draw : Z → string) (w : world) (i : Z) : result world :=
  let cfg := kw_cfg w in
  row ← new_row draw cfg;
  endnames ← (kv_endnames cfg).[i <- Some row];
  cfg ← row_ends (kv_with_endnames cfg endnames) row;
  let w := kw_with_cfg w cfg in
  sv ← (kv_saved cfg).[i];
  w ← match sv with
      | Some _ => kv_copy_saved w i
      | None =>
          let '(q, h) := alloc (kw_heap w) MakePersister in
          saved ← (kv_saved cfg).[i <- Some q];
          Ret (mkKvWorld (kv_with_saved cfg saved) h (kw_srvs w) (kw_impl w))
      end;
  sv ← (kv_saved (kw_cfg w)).[i];
  p ← nonnil sv;
  '(kv, h, s) ← svc_Start svc row i p (kv_maxraftstate (kw_cfg w)) (kw_heap w) (kw_impl w);
  servers ← (kv_kvservers (kw_cfg w)).[i <- Some kv];
  let cfg := kv_with_servers (kw_cfg w) servers in
  let srv := fresh (dom (kw_srvs w)) in
  Ret (mkKvWorld (kv_with_net cfg (AddServer (kv_net cfg) (Int i) srv)) h (<[srv := kv]> (kw_srvs w)) s).

(** [kvservers[i].rf] dereferences a nil server. *)
Fixpoint find_leader (w : world) (servers : list Z) : result (bool * Z * world) :=
  match servers with
  | [] => Ret (false, 0, w)
  | i :: servers =>
      kv ← (kv_kvservers (kw_cfg w)).[i];
      kv ← nonnil kv;
      '(_, is_leader, s) ← svc_GetState svc kv (kw_impl w);
      let w := mkKvWorld (kw_cfg w) (kw_heap w) (kw_srvs w) s in
      if is_leader : bool then Ret (true, i, w) else find_leader w servers
  end.

Definition Leader (w : world) : result (bool * Z * world) := find_leader w (seqZ 0 (kv_n (kw_cfg w))).

(** The loop of [make_partition]: [l] apart, the servers fill [p1], then [p2]. *)
Definition place_server (l : Z) (s : list Z * list Z * Z) (i : Z) : result (list Z * list Z * Z) :=
  let '(p1, p2, j) := s in
  if decide (i ≠ l) then
    let len := Z.of_nat (length p1) in
    if decide (j < len) then p1 ← p1.[j <- i]; Ret (p1, p2, j + 1)
    else p2 ← p2.[j - len <- i]; Ret (p1, p2, j + 1)
  else Ret (p1, p2, j).

Definition split_servers (n l : Z) : result (list Z * list Z) :=
  p1 ← go_make (Z.quot n 2 + 1) 0;
  p2 ← go_make (Z.quot n 2) 0;
  '(p1, p2, _) ← foldM (place_server l) (p1, p2, 0) (seqZ 0 n);
  p2 ← p2.[Z.of_nat (length p2) - 1 <- l];
  Ret (p1, p2).

Definition make_partition (w : world) : result (list Z * list Z * world) :=
  '(_, l, w) ← Leader w;
  '(p1, p2) ← split_servers (kv_n (kw_cfg w)) l;
  Ret (p1, p2, w).

(** ** The life of a test *)

Definition kv_make_config (draws : Z → Z → string) (n : Z) (unreliable : bool) (maxraftstate now : Z) (s : S)
    : result world :=
  kvservers ← go_make n None;
  saved ← go_make n None;
  endnames ← go_make n None;
  let cfg := mkKvConfig MakeNetwork n kvservers saved endnames ∅ (int64 (n + 1000)) maxraftstate now 0 0 0 in
  w ← foldM (λ w i, StartServer (draws i) w i) (mkKvWorld cfg (mkHeap [] ∅) ∅ s) (seqZ 0 n);
  cfg ← ConnectAll (kw_cfg w);
  Ret (kw_with_cfg w (kv_with_net cfg (Reliable (kv_net cfg) (negb unreliable)))).

Definition kv_checkTimeout (cfg : kvconfig) (failed : bool) (now : Z) : result unit :=
  if decide (failed = false ∧ now - kv_start cfg > 120 * Second)
  then Panic (Fatal "test took longer than 120 seconds") else Ret ().

Definition kv_cleanup (w : world) (failed : bool) (now : Z) : result world :=
  w ← foldM (λ w i,
    kv ← (kv_kvservers (kw_cfg w)).[i];
    match kv with
    | Some kv => '(h, s) ← svc_Kill svc kv (kw_heap w) (kw_impl w); Ret (mkKvWorld (kw_cfg w) h (kw_srvs w) s)
    | None => Ret w
    end) w (seqZ 0 (Z.of_nat (length (kv_kvservers (kw_cfg w)))));
  rn ← Cleanup (kv_net (kw_cfg w));
  kv_checkTimeout (kw_cfg w) failed now ≫= λ _, Ret (kw_with_cfg w (kv_with_net (kw_cfg w) rn)).

(** The largest [size] of the saved persisters. *)
Definition max_size (size : memory → Persister → Z) (w : world) : result Z :=
  foldM (λ m i,
    sv ← (kv_saved (kw_cfg w)).[i];
    p ← nonnil sv;
    ps ← nonnil (h_ps (kw_heap w) !! p);
    let n := size (h_mem (kw_heap w)) ps in
    Ret (if decide (n > m) then n else m)) 0 (seqZ 0 (kv_n (kw_cfg w))).

Definition kv_LogSize (w : world) : result Z := max_size RaftStateSize w.
Definition kv_SnapshotSize (w : world) : result Z := max_size SnapshotSize w.
End service.

Definition kv_rpcTotal (cfg : kvconfig) : Z := GetTotalCount (kv_net cfg).

Definition kv_begin (cfg : kvconfig) (now : Z) : kvconfig := kv_with_stats cfg now (kv_rpcTotal cfg) 0.

Definition op (cfg : kvconfig) : kvconfig := kv_with_stats cfg (kv_t0 cfg) (kv_rpcs0 cfg) (int32 (kv_ops cfg + 1)).

(** What [end] prints: time, servers, RPCs and operations. *)
Definition kv_end (cfg : kvconfig) (failed : bool) (now : Z) : result (option (Z * Z * Z * Z)) :=
  kv_checkTimeout cfg failed now ≫= λ _,
  Ret (if failed then None
       else Some (now - kv_t0 cfg, kv_n cfg, int64 (kv_rpcTotal cfg - kv_rpcs0 cfg), kv_ops cfg)).

(** ** The server as the lab hands it out *)

Record KVServer := mkKVServer { ks_me : Z; ks_rf : rid; ks_dead : Z; ks_maxraftstate : Z }.

(** All servers, and the peers under them. *)
Record kvpeers := mkKvPeers { kp_servers : gmap sid KVServer; kp_rafts : gmap rid Raft }.

(** [labgob.Register(Op{})] finds nothing to complain of in an empty struct. *)
Definition StartKVServer (servers : list string) (me : Z) (persister : ptr) (maxraftstate : Z) (h : heap) (s : kvpeers)
    : result (sid * heap * kvpeers) :=
  '(rf, h, rafts) ← Make servers me persister h (kp_rafts s);
  let kv := fresh (dom (kp_servers s)) in
  Ret (kv, h, mkKvPeers (<[kv := mkKVServer me rf 0 maxraftstate]> (kp_servers s)) rafts).

Definition KVServer_Kill (kv : sid) (s : kvpeers) : result kvpeers :=
  k ← nonnil (kp_servers s !! kv);
  rafts ← Kill (Some (ks_rf k)) (kp_rafts s);
  Ret (mkKvPeers (<[kv := mkKVServer (ks_me k) (ks_rf k) 1 (ks_maxraftstate k)]> (kp_servers s)) rafts).

Definition KVServer_killed (kv : sid) (s : kvpeers) : result bool :=
  k ← nonnil (kp_servers s !! kv); Ret (bool_decide (ks_dead k = 1)).

Definition kv_skeleton : ServiceOps kvpeers := {|
  svc_Start := StartKVServer;
  svc_Kill kv h s := s ← KVServer_Kill kv s; Ret (h, s);
  svc_GetState kv s :=
    k ← nonnil (kp_servers s !! kv);
    '(t, l, rafts) ← GetState (Some (ks_rf k)) (kp_rafts s); Ret (t, l, mkKvPeers (kp_servers s) rafts)
|}.
