(* ===== verification/KvNet.v ===== *)
(** The network under the key/value harness: partitions and clerks' ends. *)
From Stdlib Require Import ZArith Lia.
From stdpp Require Import base gmap sets list strings.
From S2P Require Import Prelude Labrpc Persister Iface Tables Raft RaftConfig RaftNet KvConfig.

Definition kv_in (cfg : kvconfig) (i : Z) : Prop := 0 ≤ i < kv_n cfg.

(** Who makes calls: the servers and the clerks. *)
Definition owner : Type := Z + clerk.
Definition end_of (cfg : kvconfig) (o : owner) (j : Z) : result string :=
  match o with inl i => kv_endname cfg i j | inr ck => (default [] (kv_clerks cfg !! ck)).[j] end.

(** The ends of a harness: a row for each server that was started and for each
    clerk, made and connected, all with different names. *)
Record named (cfg : kvconfig) : Prop := {
  nm_length : length (kv_endnames cfg) = Z.to_nat (kv_n cfg);
  nm_rows i row : (kv_endnames cfg).[i] = Ret (Some row) → length row = Z.to_nat (kv_n cfg);
  nm_clerks ck row : kv_clerks cfg !! ck = Some row → length row = Z.to_nat (kv_n cfg);
  nm_table : table (λ _, Int) (end_of cfg) (kv_net cfg)
}.

Lemma nm_distinct cfg : named cfg → ∀ o j o' j' e, end_of cfg o j = Ret e → end_of cfg o' j' = Ret e → o = o' ∧ j = j'.
Proof. intros Hn. apply (nm_table _ Hn). Qed.
Lemma nm_leads cfg : named cfg → ∀ o j e, end_of cfg o j = Ret e → leads (kv_net cfg) e (Int j).
Proof. intros Hn. apply (nm_table _ Hn). Qed.

Definition has_row (cfg : kvconfig) (i : Z) : Prop := ∃ row, (kv_endnames cfg).[i] = Ret (Some row).
Definition all_rows (cfg : kvconfig) : Prop := ∀ i, kv_in cfg i → has_row cfg i.

Lemma kv_endname_ret cfg i j e :
  kv_endname cfg i j = Ret e ↔ ∃ row, (kv_endnames cfg).[i] = Ret (Some row) ∧ row.[j] = Ret e.
Proof.
  unfold kv_endname. split.
  - intros Hr. inv_ret. destruct x as [row|]; [eauto|]. simpl in Hr. by apply go_index_ret in Hr as [_ ?].
  - by intros (row & -> & ?).
Qed.

Lemma kv_endname_in cfg i j e : named cfg → kv_endname cfg i j = Ret e → kv_in cfg i ∧ kv_in cfg j.
Proof.
  intros Hn (row & Hrow & He)%kv_endname_ret. pose proof (go_index_lt _ _ _ Hrow) as Hi.
  apply go_index_lt in He. rewrite (nm_rows _ Hn _ _ Hrow) in He. rewrite (nm_length _ Hn) in Hi.
  unfold kv_in. lia.
Qed.

Lemma kv_endname_total cfg i j : named cfg → has_row cfg i → kv_in cfg j → ∃ e, kv_endname cfg i j = Ret e.
Proof.
  intros Hn [row Hrow] Hj. destruct (go_index_in_range row j) as [e He].
  - rewrite (nm_rows _ Hn _ _ Hrow). unfold kv_in in Hj. lia.
  - exists e. apply kv_endname_ret. eauto.
Qed.

(** [named] does not depend on which ends are enabled. *)
Lemma named_same cfg cfg' :
  kv_n cfg' = kv_n cfg → kv_endnames cfg' = kv_endnames cfg → kv_clerks cfg' = kv_clerks cfg →
  (∀ e t, leads (kv_net cfg) e t → leads (kv_net cfg') e t) → named cfg → named cfg'.
Proof.
  intros En Ee Ec Hnet Hn.
  assert (end_of cfg' = end_of cfg) as E by (unfold end_of, kv_endname; by rewrite Ee, Ec).
  split; rewrite ?En, ?Ee, ?Ec, ?E; try apply Hn. eapply table_same, Hnet; [apply Hn|done].
Qed.

Lemma named_wiring cfg rn : same_wiring (kv_net cfg) rn → named cfg → named (kv_with_net cfg rn).
Proof. intros Hw. apply named_same; [done..|]. intros e t. by apply wiring_leads. Qed.

(** ** connectUnlocked and disconnectUnlocked *)

(** The ends between [i] and the servers of [l]. *)
Definition between (cfg : kvconfig) (i : Z) (l : list Z) (e : string) : Prop :=
  ∃ t, t ∈ l ∧ (kv_endname cfg i t = Ret e ∨ kv_endname cfg t i = Ret e).

Lemma ranged_elem {A} (l : list A) x : (∃ j, j ∈ seqZ 0 (Z.of_nat (length l)) ∧ l.[j] = Ret x) ↔ x ∈ l.
Proof.
  rewrite list_elem_of_lookup. split.
  - intros (j & _ & [_ ?]%go_index_ret). eauto.
  - intros [k Hk]. exists (Z.of_nat k). pose proof (lookup_lt_Some _ _ _ Hk). split; [apply elem_of_seqZ; lia|].
    apply go_index_ret. split; [lia|]. by rewrite Nat2Z.id.
Qed.

(** An index [j] of [l], its element [t], and the end that [f] names for [t]. *)
Lemma loop_ends (l : list Z) (f : Z → result string) e :
  (∃ j, j ∈ seqZ 0 (Z.of_nat (length l)) ∧ (t ← l.[j]; Some <$> f t) = Ret (Some e)) ↔ ∃ t, t ∈ l ∧ f t = Ret e.
Proof.
  split.
  - intros (j & Hj & Hr). inv_ret. exists x. split; [by apply ranged_elem; eauto|by apply some_fmap_ret].
  - intros (t & (j & Hj & Ht)%ranged_elem & Hf). exists j. split; [done|]. rewrite Ht; simpl. by apply some_fmap_ret.
Qed.

Lemma connectUnlocked_ret cfg i to cfg' :
  connectUnlocked cfg i to = Ret cfg' →
  ∃ rn, cfg' = kv_with_net cfg rn ∧ enables (kv_net cfg) rn (between cfg i to) true.
Proof.
  unfold connectUnlocked. intros Hr. inv_ret. exists x0. split; [done|].
  apply enable_loop_ret in E, E0. eapply enables_iff, enables_two; [|exact E|exact E0].
  intros e. cbv beta. rewrite !loop_ends. unfold between. naive_solver.
Qed.

Lemma connectUnlocked_total cfg i to :
  named cfg → all_rows cfg → kv_in cfg i → (∀ t, t ∈ to → kv_in cfg t) → ∃ cfg', connectUnlocked cfg i to = Ret cfg'.
Proof.
  intros Hn Hrows Hi Hto. unfold connectUnlocked.
  edestruct enable_loop_total as [rn1 ->]; [|cbn [mbind result_bind];
    edestruct enable_loop_total as [rn2 ->]; [|cbn [mbind result_bind]; eauto]].
  all: intros j Hj%elem_of_seqZ; destruct (go_index_in_range to j) as [t Ht]; [lia|]; rewrite Ht; cbn [mbind result_bind];
    assert (kv_in cfg t) as Htin by (apply Hto; apply go_index_ret in Ht as [_ ?]; by eapply list_elem_of_lookup_2).
  - destruct (kv_endname_total cfg i t Hn (Hrows i Hi) Htin) as [e ->]. by exists (Some e).
  - destruct (kv_endname_total cfg t i Hn (Hrows t Htin) Hi) as [e ->]. by exists (Some e).
Qed.

(** When every server has a row and [from] is no longer than the servers are
    many, the guard on [endnames[j]] never skips anything. *)
Lemma disconnectUnlocked_ret cfg i from cfg' :
  named cfg → all_rows cfg → kv_in cfg i → Z.of_nat (length from) ≤ kv_n cfg →
  disconnectUnlocked cfg i from = Ret cfg' →
  ∃ rn, cfg' = kv_with_net cfg rn ∧ enables (kv_net cfg) rn (between cfg i from) false.
Proof.
  intros Hn Hrows Hi Hlen. unfold disconnectUnlocked. intros Hr. inv_ret. exists x0. split; [done|].
  apply enable_loop_ret in E, E0. eapply enables_iff, enables_two; [|exact E|exact E0].
  intros e. cbv beta. destruct (Hrows i Hi) as [row Hrow]. rewrite Hrow. cbn [mbind result_bind].
  rewrite loop_ends.
  assert ((∃ j, j ∈ seqZ 0 (Z.of_nat (length from)) ∧
    (row ← (kv_endnames cfg).[j]; if row is Some _ then f ← from.[j]; Some <$> kv_endname cfg f i else Ret None) =
      Ret (Some e)) ↔ ∃ t, t ∈ from ∧ kv_endname cfg t i = Ret e) as ->; [|unfold between; naive_solver].
  clear Hr. rewrite <-loop_ends. split; intros (j & Hj & Hr); exists j; (split; [done|]);
    (destruct (Hrows j) as [row' Hrow']; [apply elem_of_seqZ in Hj; unfold kv_in; lia|]);
    rewrite Hrow' in *; cbn [mbind result_bind] in *; done.
Qed.

Lemma disconnectUnlocked_total cfg i from :
  named cfg → all_rows cfg → kv_in cfg i → Z.of_nat (length from) ≤ kv_n cfg → (∀ t, t ∈ from → kv_in cfg t) →
  ∃ cfg', disconnectUnlocked cfg i from = Ret cfg'.
Proof.
  intros Hn Hrows Hi Hlen Hfrom. unfold disconnectUnlocked.
  edestruct enable_loop_total as [rn1 ->]; [|cbn [mbind result_bind];
    edestruct enable_loop_total as [rn2 ->]; [|cbn [mbind result_bind]; eauto]].
  all: intros j Hj%elem_of_seqZ.
  - destruct (Hrows i Hi) as [row ->]. cbn [mbind result_bind].
    destruct (go_index_in_range from j) as [t Ht]; [lia|]. rewrite Ht. cbn [mbind result_bind].
    destruct (kv_endname_total cfg i t Hn (Hrows i Hi)) as [e ->]; [|by exists (Some e)].
    apply Hfrom. apply go_index_ret in Ht as [_ ?]. by eapply list_elem_of_lookup_2.
  - destruct (Hrows j) as [row ->]; [unfold kv_in; lia|]. cbn [mbind result_bind].
    destruct (go_index_in_range from j) as [t Ht]; [lia|]. rewrite Ht. cbn [mbind result_bind].
    assert (kv_in cfg t) as Htin by (apply Hfrom; apply go_index_ret in Ht as [_ ?]; by eapply list_elem_of_lookup_2).
    destruct (kv_endname_total cfg t i Hn (Hrows t Htin) Hi) as [e ->]. by exists (Some e).
Qed.

(** On an end of the servers, [between] is about the pair it joins. *)
Lemma between_end cfg a b e p l :
  named cfg → kv_endname cfg a b = Ret e → between cfg p l e ↔ (a = p ∧ b ∈ l) ∨ (b = p ∧ a ∈ l).
Proof.
  intros Hn He. split.
  - intros (t & Ht & [Hp|Hp]); destruct (nm_distinct _ Hn (inl _) _ (inl _) _ _ He Hp) as [[= ->] ->]; auto.
  - intros [[-> ?]|[-> ?]]; eexists; eauto.
Qed.

(** ** partition *)

(** After the servers in [part] of one side are done, the pair [a], [b] is
    joined, cut, or as it was. *)
Definition joined (side others part : list Z) (a b : Z) (before : Prop) : Prop :=
  (a ∈ side ∧ b ∈ side ∧ (a ∈ part ∨ b ∈ part)) ∨
  (¬ ((a ∈ part ∧ b ∈ others) ∨ (b ∈ part ∧ a ∈ others)) ∧ before).

(** The network [rn'] treats every pair of servers by [P], the other ends as [rn]. *)
Definition rewired (cfg : kvconfig) (rn rn' : net) (P : Z → Z → Prop → Prop) : Prop :=
  same_wiring rn rn' ∧
  (∀ a b e, kv_endname cfg a b = Ret e →
     is_enabled rn' (Str e) = true ↔ P a b (is_enabled rn (Str e) = true)) ∧
  (∀ e, (∀ a b, kv_endname cfg a b ≠ Ret e) → is_enabled rn' (Str e) = true ↔ is_enabled rn (Str e) = true).

Lemma joined_step (side others part : list Z) p a b (before : Prop) :
  p ∈ side → (∀ x, x ∈ side → x ∈ others → False) → (∀ x, x ∈ part → x ∈ side) →
  ((a = p ∧ b ∈ side) ∨ (b = p ∧ a ∈ side)) ∨
  (¬ ((a = p ∧ b ∈ others) ∨ (b = p ∧ a ∈ others)) ∧ joined side others part a b before) ↔
  joined side others (part ++ [p]) a b before.
Proof.
  intros Hp Hdis Hpart. unfold joined. rewrite !elem_of_app, !list_elem_of_singleton.
  pose proof (Hdis a). pose proof (Hdis b). pose proof (Hpart a). pose proof (Hpart b).
  destruct (decide (a = p)) as [->|Ha], (decide (b = p)) as [->|Hb]; tauto.
Qed.

Lemma between_not_end cfg e p l : (∀ a b, kv_endname cfg a b ≠ Ret e) → ¬ between cfg p l e.
Proof. intros Hno (t & _ & [?|?]); by eapply Hno. Qed.

Lemma partition_side_spec cfg side others :
  named cfg → all_rows cfg → (∀ x, x ∈ side → kv_in cfg x) → (∀ x, x ∈ others → kv_in cfg x) →
  (∀ x, x ∈ side → x ∈ others → False) → Z.of_nat (length others) ≤ kv_n cfg →
  ∃ rn, partition_side cfg side others = Ret (kv_with_net cfg rn) ∧
    rewired cfg (kv_net cfg) rn (joined side others side).
Proof.
  intros Hn Hrows Hside Hothers Hdis Hlen. unfold partition_side.
  rewrite (foldM_index (λ cfg p, cfg ← disconnectUnlocked cfg p others; connectUnlocked cfg p side)).
  destruct (foldM_inv (λ cfg p, cfg ← disconnectUnlocked cfg p others; connectUnlocked cfg p side)
    (λ part c, ∃ rn, c = kv_with_net cfg rn ∧ rewired cfg (kv_net cfg) rn (joined side others part)) cfg side)
    as (c & -> & rn & -> & Hrn).
  - exists (kv_net cfg). split; [by destruct cfg|]. split; [done|]. split; [|done].
    intros a b e He. unfold joined. split; [intros ?; right; split; [|done]|intros [(_ & _ & [?%elem_of_nil|?%elem_of_nil])|[_ ?]]; done].
    by intros [[?%elem_of_nil _]|[?%elem_of_nil _]].
  - intros part p rest c Hsplit (rn & -> & Hw & Hends & Hrest).
    assert (p ∈ side) as Hp by (rewrite Hsplit; set_solver).
    assert (∀ x, x ∈ part → x ∈ side) as Hpart by (rewrite Hsplit; set_solver).
    pose proof (named_wiring _ _ Hw Hn) as Hn1. set (c := kv_with_net cfg rn) in *.
    assert (all_rows c) as Hrows1 by exact Hrows. assert (kv_in c p) as Hpin by (by apply Hside).
    destruct (disconnectUnlocked_total c p others Hn1 Hrows1 Hpin Hlen Hothers) as [c1 E1].
    destruct (disconnectUnlocked_ret _ _ _ _ Hn1 Hrows1 Hpin Hlen E1) as (rn1 & -> & He1 & Hw1).
    rewrite E1. cbn [mbind result_bind].
    pose proof (named_wiring c _ Hw1 Hn1) as Hn2. set (c1 := kv_with_net c rn1) in *.
    destruct (connectUnlocked_total c1 p side Hn2 Hrows1 Hpin Hside) as [c2 E2].
    destruct (connectUnlocked_ret _ _ _ _ E2) as (rn2 & -> & He2 & Hw2).
    exists (kv_with_net c1 rn2). split; [done|]. exists rn2. split; [done|]. split; [|split].
    + etransitivity; [exact Hw|]. etransitivity; [exact Hw1|exact Hw2].
    + intros a b e He. rewrite He2. change (kv_net c1) with rn1. rewrite He1. change (kv_net c) with rn. cbv iota.
      rewrite (between_end c1 a b e p side Hn2 He), (between_end c a b e p others Hn1 He).
      rewrite (Hends a b e He). by apply joined_step.
    + intros e Hno. pose proof (between_not_end c1 e p side Hno). pose proof (between_not_end c e p others Hno).
      rewrite He2. change (kv_net c1) with rn1. rewrite He1. change (kv_net c) with rn. cbv iota.
      rewrite (Hrest e Hno). tauto.
  - by exists rn.
Qed.

(** The servers of the two sides are apart, and each side is together. *)
Definition apart (p1 p2 : list Z) (a b : Z) (before : Prop) : Prop :=
  (a ∈ p1 ∧ b ∈ p1) ∨ (a ∈ p2 ∧ b ∈ p2) ∨ (¬ ((a ∈ p1 ∨ a ∈ p2) ∧ (b ∈ p1 ∨ b ∈ p2)) ∧ before).

Lemma partition_spec cfg p1 p2 :
  named cfg → all_rows cfg → (∀ x, x ∈ p1 → kv_in cfg x) → (∀ x, x ∈ p2 → kv_in cfg x) →
  (∀ x, x ∈ p1 → x ∈ p2 → False) → Z.of_nat (length p1) ≤ kv_n cfg → Z.of_nat (length p2) ≤ kv_n cfg →
  ∃ rn, partition cfg p1 p2 = Ret (kv_with_net cfg rn) ∧ rewired cfg (kv_net cfg) rn (apart p1 p2).
Proof.
  intros Hn Hrows H1 H2 Hdis Hl1 Hl2. unfold partition.
  destruct (partition_side_spec cfg p1 p2) as (rn1 & -> & Hw1 & He1 & Hr1); [done..|]. cbn [mbind result_bind].
  destruct (partition_side_spec (kv_with_net cfg rn1) p2 p1) as (rn2 & -> & Hw2 & He2 & Hr2);
    [by apply named_wiring|done|done|done|by eauto|done|].
  exists rn2. split; [done|]. split; [by etransitivity|]. split.
  - intros a b e He. rewrite (He2 a b e He). simpl. unfold joined, apart. rewrite (He1 a b e He). unfold joined.
    pose proof (Hdis a). pose proof (Hdis b). destruct (decide (a ∈ p1)), (decide (a ∈ p2)), (decide (b ∈ p1)), (decide (b ∈ p2)); tauto.
  - intros e Hno. rewrite (Hr2 e Hno). simpl. by apply Hr1.
Qed.
