(* ===== verification/KvHarness.v ===== *)
(** Tests of the key/value service: that every run of the harness keeps its
    ends in order, how [make_partition] splits the servers, and which servers
    a clerk can reach. *)
From Stdlib Require Import ZArith Lia.
From stdpp Require Import base gmap sets list strings.
From S2P Require Import Prelude Labrpc Persister Iface Tables Raft RaftConfig RaftNet KvConfig KvNet.

(** ** New rows of ends *)

Lemma new_row_ret draw cfg row :
  new_row draw cfg = Ret row →
  length row = Z.to_nat (kv_n cfg) ∧ ∀ j, 0 ≤ j < kv_n cfg → row.[j] = Ret (draw j).
Proof.
  unfold new_row, go_make. case_decide; [|done]. cbn [mbind result_bind]. apply fill_row.
Qed.

Lemma row_ends_ret draw cfg row cfg' :
  (∀ j, 0 ≤ j < kv_n cfg → row.[j] = Ret (draw j)) → row_ends cfg row = Ret cfg' →
  ∃ rn, new_ends draw (kv_net cfg) (seqZ 0 (kv_n cfg)) = Ret rn ∧ cfg' = kv_with_net cfg rn.
Proof.
  intros Hrow Hr. unfold row_ends in Hr. inv_ret. exists x. split; [|done].
  rewrite <-E. apply foldM_ext. intros rn j Hj%elem_of_seqZ. rewrite Hrow by lia. done.
Qed.

(** The owner [o] gets a new row. *)
Lemma new_owner cfg cfg' o draw row rn :
  named cfg → length row = Z.to_nat (kv_n cfg) → (∀ j, 0 ≤ j < kv_n cfg → row.[j] = Ret (draw j)) →
  new_ends draw (kv_net cfg) (seqZ 0 (kv_n cfg)) = Ret rn →
  (∀ o' j, end_of cfg' o' j = if decide (o = o') then row.[j] else end_of cfg o' j) →
  table (λ _, Int) (end_of cfg') rn ∧
  (∀ j e, row.[j] = Ret e → is_enabled rn (Str e) = false) ∧
  (∀ o' j e, end_of cfg o' j = Ret e → is_enabled rn (Str e) = is_enabled (kv_net cfg) (Str e)).
Proof.
  intros Hn Hlen Hrow Hnew Hends.
  edestruct (table_open (λ _, Int) (end_of cfg) (end_of cfg')) as (Ht & _ & Hoff & Hsame); [apply Hn|exact Hnew| |exact Hends|done].
  intros j e He. pose proof (go_index_lt _ _ _ He). split; [lia|]. rewrite Hrow in He by lia. congruence.
Qed.

(** A row for server [i]. *)
Lemma server_row cfg i draw row endnames rn :
  named cfg → length row = Z.to_nat (kv_n cfg) → (∀ j, 0 ≤ j < kv_n cfg → row.[j] = Ret (draw j)) →
  (kv_endnames cfg).[i <- Some row] = Ret endnames →
  new_ends draw (kv_net cfg) (seqZ 0 (kv_n cfg)) = Ret rn →
  let cfg' := kv_with_net (kv_with_endnames cfg endnames) rn in
  named cfg' ∧ ∀ j, has_row cfg' j ↔ j = i ∨ has_row cfg j.
Proof.
  intros Hn Hlen Hrow Hupd Hnew cfg'.
  assert (∀ j, (kv_endnames cfg').[j] = if decide (i = j) then Ret (Some row) else (kv_endnames cfg).[j]) as Hrows
    by (intros j; exact (go_index_update _ _ _ _ j Hupd)).
  destruct (new_owner cfg cfg' (inl i) draw row rn) as (Ht & _); [done..| |].
  { intros [i'|ck] j; simpl; [|done]. unfold kv_endname. rewrite Hrows. repeat case_decide; congruence || done. }
  split; [split; try apply Hn|]; [| |exact Ht|].
  - simpl. rewrite (go_update_length _ _ _ _ Hupd). apply Hn.
  - intros j r. rewrite Hrows. case_decide; [by intros [= <-]|apply (nm_rows _ Hn)].
  - intros j. unfold has_row. rewrite Hrows. case_decide; naive_solver.
Qed.

(** A row for a new clerk. *)
Lemma clerk_row cfg ck draw row next rn :
  named cfg → length row = Z.to_nat (kv_n cfg) → (∀ j, 0 ≤ j < kv_n cfg → row.[j] = Ret (draw j)) →
  new_ends draw (kv_net cfg) (seqZ 0 (kv_n cfg)) = Ret rn →
  let cfg' := kv_with_clerks (kv_with_net cfg rn) (<[ck := row]> (kv_clerks cfg)) next in
  named cfg' ∧
  (∀ j e, row.[j] = Ret e → is_enabled rn (Str e) = false) ∧
  (∀ o' j e, end_of cfg o' j = Ret e → is_enabled rn (Str e) = is_enabled (kv_net cfg) (Str e)).
Proof.
  intros Hn Hlen Hrow Hnew cfg'.
  destruct (new_owner cfg cfg' (inr ck) draw row rn) as (Ht & Hoff & Hsame); [done..| |].
  { intros [i'|ck'] j; simpl; [done|]. rewrite lookup_insert. repeat case_decide; congruence || done. }
  split; [|done]. split; try apply Hn; [|exact Ht].
  intros ck' r. simpl. rewrite lookup_insert. case_decide; [by intros [= <-]|apply (nm_clerks _ Hn)].
Qed.

(** ** Clerks' ends *)

Lemma client_loop_ret cfg ck js b cfg' :
  client_loop cfg ck js b = Ret cfg' →
  ∃ rn, cfg' = kv_with_net cfg rn ∧
    enables (kv_net cfg) rn (λ e, ∃ t, t ∈ js ∧ end_of cfg (inr ck) t = Ret e) b.
Proof.
  unfold client_loop. intros Hr. inv_ret. exists x. split; [done|].
  apply enable_loop_ret in E. eapply enables_iff, E. intros e. cbv beta. apply loop_ends.
Qed.

Lemma client_loop_total cfg ck row js b :
  named cfg → kv_clerks cfg !! ck = Some row → (∀ t, t ∈ js → kv_in cfg t) → ∃ cfg', client_loop cfg ck js b = Ret cfg'.
Proof.
  intros Hn Hck Hjs. unfold client_loop. rewrite Hck. simpl default.
  edestruct enable_loop_total as [rn ->]; [|cbn [mbind result_bind]; eauto].
  intros j Hj%elem_of_seqZ. destruct (go_index_in_range js j) as [t Ht]; [lia|]. rewrite Ht. cbn [mbind result_bind].
  assert (kv_in cfg t) as Htin by (apply Hjs; apply go_index_ret in Ht as [_ ?]; by eapply list_elem_of_lookup_2).
  destruct (go_index_in_range row t) as [e ->]; [|by exists (Some e)].
  rewrite (nm_clerks _ Hn _ _ Hck). unfold kv_in in Htin. lia.
Qed.

Lemma swap_perm {A} (l : list A) i j x y :
  l !! i = Some x → l !! j = Some y → <[j := x]> (<[i := y]> l) ≡ₚ l.
Proof.
  intros Hx Hy. pose proof (lookup_lt_Some _ _ _ Hx). pose proof (lookup_lt_Some _ _ _ Hy).
  apply Permutation_inj. split; [by rewrite !length_insert|].
  exists (λ k, if decide (k = i) then j else if decide (k = j) then i else k). split.
  - intros a b. repeat case_decide; congruence.
  - intros k. repeat case_decide; subst.
    + destruct (decide (i = j)) as [->|]; [rewrite list_lookup_insert_eq by (by rewrite length_insert); congruence|].
      rewrite list_lookup_insert_ne, list_lookup_insert_eq by done. done.
    + rewrite list_lookup_insert_eq by (by rewrite length_insert). done.
    + by rewrite !list_lookup_insert_ne.
Qed.

Lemma random_handles_perm draw l l' : random_handles draw l = Ret l' → l' ≡ₚ l.
Proof.
  unfold random_handles. apply (foldM_ret_inv _ (λ _ sa, sa ≡ₚ l)); [done|].
  intros _ i sa sa' Hp Hr. inv_ret. rewrite <-Hp.
  apply go_index_ret in E as [Hi Hx], E0 as [Hj Hy].
  pose proof (lookup_lt_Some _ _ _ Hx). pose proof (lookup_lt_Some _ _ _ Hy).
  rewrite go_update_ret in E1 by lia. inv_ret. subst x1. rewrite go_update_ret in Hr by (rewrite length_insert; lia).
  injection Hr as <-. by apply swap_perm.
Qed.

(** [makeClient] gives the clerk a row of its own, shuffled, and enables the
    ends for the servers in [to]. *)
Lemma makeClient_ret draw shuffle cfg to cfg' ck handles :
  named cfg → makeClient draw shuffle cfg to = Ret (cfg', ck, handles) →
  named cfg' ∧ kv_clerks cfg !! ck = None ∧ kv_n cfg' = kv_n cfg ∧ kv_endnames cfg' = kv_endnames cfg ∧
  (∀ j, kv_in cfg j → ∃ e, end_of cfg' (inr ck) j = Ret e ∧ e ∈ handles ∧
     (is_enabled (kv_net cfg') (Str e) = true ↔ j ∈ to)) ∧
  (∀ e, e ∈ handles → ∃ j, kv_in cfg j ∧ end_of cfg' (inr ck) j = Ret e) ∧ NoDup handles ∧
  (∀ o j e, end_of cfg o j = Ret e → end_of cfg' o j = Ret e ∧
     is_enabled (kv_net cfg') (Str e) = is_enabled (kv_net cfg) (Str e)).
Proof.
  intros Hn Hr. unfold makeClient in Hr. inv_ret. simplify_eq.
  rename x into row.
  apply new_row_ret in E as [Hlen Hrow]. eapply row_ends_ret in E0 as (rn & Hnew & ->); [|done].
  apply random_handles_perm in E1. simpl kv_clerks in *. simpl kv_nextClientId in *. set (ck := fresh (dom (kv_clerks cfg))) in *.
  assert (kv_clerks cfg !! ck = None) as Hck by (apply not_elem_of_dom, is_fresh).
  destruct (clerk_row cfg ck draw row (int64 (kv_nextClientId cfg + 1)) rn) as (Hn1 & Hoff & Hsame); [done..|].
  set (cfg1 := kv_with_clerks (kv_with_net cfg rn) _ _) in *.
  apply client_loop_ret in E2 as (rn2 & -> & He2 & Hw2).
  pose proof (named_wiring cfg1 rn2 Hw2 Hn1) as Hn2.
  assert (∀ j, end_of cfg1 (inr ck) j = row.[j]) as Hown by (intros j; simpl; by rewrite lookup_insert_eq).
  split_and!; [done..| | | |].
  - intros j Hj. destruct (go_index_in_range row j) as [e He]; [unfold kv_in in Hj; lia|].
    exists e. change (end_of (kv_with_net cfg1 rn2)) with (end_of cfg1). rewrite Hown. split; [done|]. split.
    + rewrite E1. apply ranged_elem. eexists. split; [|done]. apply elem_of_seqZ. unfold kv_in in Hj. lia.
    + simpl. rewrite He2. change (kv_net cfg1) with rn. rewrite (Hoff _ _ He). split; [|].
      * intros [(t & Ht & Et)|?]; [|done]. by destruct (nm_distinct _ Hn1 (inr ck) j (inr ck) t e) as [_ ->]; [by rewrite Hown|..].
      * intros Hjt. left. exists j. by rewrite Hown.
  - intros e He. rewrite E1 in He. apply ranged_elem in He as (j & Hj%elem_of_seqZ & He).
    exists j. change (end_of (kv_with_net cfg1 rn2)) with (end_of cfg1). rewrite Hown. split; [unfold kv_in; lia|done].
  - rewrite E1. apply NoDup_alt. intros a b e Ha Hb.
    destruct (nm_distinct _ Hn1 (inr ck) (Z.of_nat a) (inr ck) (Z.of_nat b) e) as [_ ?]; [| |lia];
      rewrite Hown; apply go_index_ret; (split; [lia|]); by rewrite Nat2Z.id.
  - intros o j e He. assert (o ≠ inr ck) as Ho.
    { intros ->. simpl in He. rewrite Hck in He. by apply go_index_lt in He; simpl in He; lia. }
    assert (end_of cfg1 o j = Ret e) as He1.
    { destruct o as [i|ck']; [done|]. simpl in *. rewrite lookup_insert_ne; [done|congruence]. }
    split; [done|]. simpl. apply eq_true_iff_eq. rewrite He2. change (kv_net cfg1) with rn. rewrite (Hsame _ _ _ He).
    split; [|tauto]. intros [(t & Ht & Et)|?]; [|done]. by destruct (nm_distinct _ Hn1 _ _ _ _ _ He1 Et).
Qed.

Lemma named_delete cfg ck : named cfg → named (deleteClient cfg ck).
Proof.
  intros Hn. assert (∀ o j e, end_of (deleteClient cfg ck) o j = Ret e → end_of cfg o j = Ret e) as Hold.
  { intros [i|ck'] j e; [done|]. simpl. destruct (decide (ck = ck')) as [->|].
    - rewrite lookup_delete_eq. simpl. intros ?%go_index_lt. simpl in *. lia.
    - by rewrite lookup_delete_ne. }
  split; try apply Hn.
  - intros ck' row. simpl. intros [_ ?]%lookup_delete_Some. by eapply (nm_clerks _ Hn).
  - by eapply table_same; [apply Hn|exact Hold|].
Qed.

(** ** Servers *)

Section service.
Context {S : Type} (svc : ServiceOps S).
Abbreviation world := (kvworld S).

(** All of the configuration but the saved persisters. *)
Definition same_but_saved (w w' : world) : Prop :=
  (∃ saved, kw_cfg w' = kv_with_saved (kw_cfg w) saved) ∧ kw_srvs w' = kw_srvs w.

Lemma kv_copy_saved_same (w w' : world) i : kv_copy_saved w i = Ret w' → same_but_saved w w'.
Proof.
  unfold kv_copy_saved. intros Hr. inv_ret. destruct x; simpl in Hr.
  - inv_ret. subst. split; [by eexists|done].
  - injection Hr as <-. split; [|done]. exists (kv_saved (kw_cfg w)). by destruct (kw_cfg w).
Qed.

(** Requests for server [i] reach its current instance, if it has one. *)
Definition kv_routed (w : world) (i : Z) : Prop :=
  match (kv_kvservers (kw_cfg w)).[i] with
  | Ret (Some kv) => ∃ p, registered (kv_net (kw_cfg w)) (Int i) = Some p ∧ kw_srvs w !! p = Some kv
  | _ => registered (kv_net (kw_cfg w)) (Int i) = None
  end.

(** The invariant of a test. *)
Record kv_wired (w : world) : Prop := {
  kv_named : named (kw_cfg w);
  kv_reaches i : kv_in (kw_cfg w) i → kv_routed w i
}.

(** Changes that the invariant does not see. *)
Lemma kv_wired_cfg (w : world) cfg :
  kv_wired w → named cfg → kv_n cfg = kv_n (kw_cfg w) → kv_kvservers cfg = kv_kvservers (kw_cfg w) →
  servers (kv_net cfg) = servers (kv_net (kw_cfg w)) → kv_wired (kw_with_cfg w cfg).
Proof.
  intros [_ Hrt] Hn En Er Es. split; [done|]. intros i Hi. unfold kv_routed, registered, kv_in in *. simpl in *.
  rewrite Er, Es. apply Hrt. by rewrite <-En.
Qed.

(** What becomes of the rows of servers and the ends of the others. *)
Definition rows_kept (cfg cfg' : kvconfig) : Prop :=
  kv_n cfg' = kv_n cfg ∧ ∀ j, has_row cfg j → has_row cfg' j.

#[export] Instance rows_kept_preorder : PreOrder rows_kept.
Proof. split; [done|]. intros x y z [E1 H1] [E2 H2]. split; [congruence|auto]. Qed.

Lemma disconnectUnlocked_wiring cfg i from cfg' :
  disconnectUnlocked cfg i from = Ret cfg' → ∃ rn, cfg' = kv_with_net cfg rn ∧ same_wiring (kv_net cfg) rn.
Proof.
  unfold disconnectUnlocked. intros Hr. inv_ret. exists x0. split; [done|].
  apply enable_loop_ret in E as [_ ?], E0 as [_ ?]. by etransitivity.
Qed.

Lemma connectUnlocked_wiring cfg i to cfg' :
  connectUnlocked cfg i to = Ret cfg' → ∃ rn, cfg' = kv_with_net cfg rn ∧ same_wiring (kv_net cfg) rn.
Proof. intros (rn & -> & _ & ?)%connectUnlocked_ret. eauto. Qed.

Lemma ShutdownServer_wired w i w' :
  kv_wired w → ShutdownServer svc w i = Ret w' →
  kv_wired w' ∧ rows_kept (kw_cfg w) (kw_cfg w') ∧
  ((kv_kvservers (kw_cfg w')).[i] = Ret None ∧ registered (kv_net (kw_cfg w')) (Int i) = None).
Proof.
  intros [Hn Hrt] Hr. unfold ShutdownServer in Hr. inv_ret. clear E. rename E0 into E, E1 into Ec.
  apply disconnectUnlocked_wiring in E as (rn & -> & Hw). pose proof (named_wiring _ _ Hw Hn) as Hn1.
  apply kv_copy_saved_same in Ec as [[saved Ec] Ev]. simpl in Ec, Ev.
  set (cfg1 := kv_with_net (kv_with_net (kw_cfg w) rn) (DeleteServer rn (Int i))) in *.
  assert (named cfg1) as Hn2 by (by eapply named_same, Hn1).
  assert (∀ j, registered (kv_net cfg1) (Int j) = if decide (i = j) then None else registered (kv_net (kw_cfg w)) (Int j)) as Hreg.
  { intros j. simpl. unfold DeleteServer. rewrite registered_set. case_decide; [done|].
    unfold registered. by destruct Hw as (_ & -> & _). }
  assert (named (kv_with_saved cfg1 saved)) as Hn3 by (by eapply named_same, Hn2).
  destruct x2 as [kv|]; inv_ret;
    [match goal with H : svc_Kill _ _ _ _ = Ret ?p |- _ => destruct p as [h s]; clear H end; inv_ret|].
  - match goal with H : _.[i <- None] = Ret _ |- _ => rename H into Hupd end.
    subst w'. rewrite Ec in *. simpl in *. pose proof (go_index_update _ _ _ _ i Hupd) as Hi.
    rewrite decide_True in Hi by done. split_and!; [split|done|done..|].
    + by eapply named_same, Hn3.
    + intros j Hj. unfold kv_routed. simpl. rewrite Ev, (go_index_update _ _ _ _ j Hupd). rewrite (Hreg j).
      case_decide; [done|]. by apply Hrt.
    + rewrite Hreg. by rewrite decide_True.
  - simplify_eq. rewrite Ec in *. split_and!; [split|done|done..|].
    + by rewrite Ec.
    + rewrite Ec. intros j Hj. unfold kv_routed. rewrite Ec, Ev. change (kv_net (kv_with_saved cfg1 saved)) with (kv_net cfg1).
      rewrite (Hreg j). simpl. case_decide as Eij.
      * subst j. simpl in *. destruct ((kv_kvservers (kw_cfg w)).[i]) as [[]| |] eqn:Ekv; congruence.
      * by apply Hrt.
    + change (kv_net (kv_with_saved cfg1 saved)) with (kv_net cfg1). rewrite (Hreg i). by rewrite decide_True.
Qed.

(** The persister that [StartServer] passes on: neither branch touches the rest. *)
Lemma kv_persister_same (w w' : world) i (sv : option ptr) :
  match sv with
  | Some _ => kv_copy_saved w i
  | None =>
      let '(q, h) := alloc (kw_heap w) MakePersister in
      saved ← (kv_saved (kw_cfg w)).[i <- Some q];
      Ret (mkKvWorld (kv_with_saved (kw_cfg w) saved) h (kw_srvs w) (kw_impl w))
  end = Ret w' → same_but_saved w w'.
Proof.
  destruct sv; [apply kv_copy_saved_same|]. simpl. intros Hr. inv_ret. subst. split; [by eexists|done].
Qed.

Lemma StartServer_wired draw w i w' :
  kv_wired w → StartServer svc draw w i = Ret w' →
  kv_wired w' ∧ kv_n (kw_cfg w') = kv_n (kw_cfg w) ∧
  (∀ j, has_row (kw_cfg w') j ↔ j = i ∨ has_row (kw_cfg w) j).
Proof.
  intros [Hn Hrt] Hr. unfold StartServer in Hr. inv_ret.
  rename x into row, x0 into endnames, x1 into cfg1, x3 into w2.
  apply new_row_ret in E as [Hlen Hrow]. eapply row_ends_ret in E1 as (rn & Hnew & ->); [|done].
  pose proof (server_row _ _ _ _ _ _ Hn Hlen Hrow E0 Hnew) as [Hn1 Hrows]. cbv zeta in *.
  apply open_ends_ret in Hnew as (_ & Hsrv & _).
  set (cfg1 := kv_with_net (kv_with_endnames (kw_cfg w) endnames) rn) in *.
  apply (kv_persister_same (kw_with_cfg w cfg1)) in E3 as [[saved Ec] Ev]. simpl in Ec, Ev.
  match goal with H : svc_Start _ _ _ _ _ _ _ = Ret ?p |- _ => destruct p as [[kv h] s]; clear H end.
  inv_ret. match goal with H : _.[i <- Some kv] = Ret _ |- _ => rename H into Hupd end. subst w'.
  simpl in *. rewrite Ec, ?Ev in *. simpl in *. split_and!; [split|done|done].
  - by eapply named_same, Hn1.
  - intros j Hj. unfold kv_routed. simpl. unfold AddServer. rewrite registered_set.
    rewrite (go_index_update _ _ _ _ j Hupd). case_decide as Eij.
    + eexists. split; [done|]. apply lookup_insert_eq.
    + pose proof (Hrt j Hj) as Hj1. unfold kv_routed in Hj1. unfold registered in *. rewrite Hsrv.
      destruct ((kv_kvservers (kw_cfg w)).[j]) as [[kv'|]| |]; [|done..].
      destruct Hj1 as (p & ? & Hp). exists p. split; [done|]. rewrite lookup_insert_ne; [done|].
      intros <-. apply (is_fresh (dom (kw_srvs w))). apply elem_of_dom. by exists kv'.
Qed.

(** ** Tests *)

(** Only which ends are enabled changed. *)
Definition net_only (cfg cfg' : kvconfig) : Prop :=
  ∃ rn, cfg' = kv_with_net cfg rn ∧ same_wiring (kv_net cfg) rn.

#[export] Instance net_only_preorder : PreOrder net_only.
Proof.
  split.
  - intros cfg. exists (kv_net cfg). by destruct cfg.
  - intros a b c (rn1 & -> & H1) (rn2 & -> & H2). exists rn2. split; [done|]. by etransitivity.
Qed.

Lemma foldM_net_only {A} (f : kvconfig → A → result kvconfig) cfg l cfg' :
  (∀ cfg a cfg', f cfg a = Ret cfg' → net_only cfg cfg') → foldM f cfg l = Ret cfg' → net_only cfg cfg'.
Proof.
  intros Hf. apply (foldM_ret_inv _ (λ _ c, net_only cfg c)); [done|]. intros _ a c c' Hc Hr. etransitivity; eauto.
Qed.

Lemma partition_net_only cfg p1 p2 cfg' : partition cfg p1 p2 = Ret cfg' → net_only cfg cfg'.
Proof.
  assert (∀ cfg side others cfg', partition_side cfg side others = Ret cfg' → net_only cfg cfg') as Hside.
  { clear. intros cfg side others cfg'. apply foldM_net_only. intros c i c' Hr. inv_ret.
    etransitivity; [by eapply disconnectUnlocked_wiring|by eapply connectUnlocked_wiring]. }
  unfold partition. intros Hr. inv_ret. etransitivity; by eapply Hside.
Qed.

Lemma ConnectAll_net_only cfg cfg' : ConnectAll cfg = Ret cfg' → net_only cfg cfg'.
Proof. apply foldM_net_only. intros c i c' Hr. inv_ret. by eapply connectUnlocked_wiring. Qed.

Lemma net_only_wired w cfg :
  kv_wired w → net_only (kw_cfg w) cfg → kv_wired (kw_with_cfg w cfg) ∧ rows_kept (kw_cfg w) cfg.
Proof.
  intros Hw (rn & -> & Hs). split; [|done].
  apply kv_wired_cfg; [done|apply named_wiring; [done|apply Hw]|done|done|apply Hs].
Qed.

(** What a test does to the service; [draw] and [shuffle] are what is drawn at
    random. *)
Inductive kv_op :=
  | KvConnectAll
  | KvConnect (i : Z) (to : list Z)
  | KvDisconnect (i : Z) (from : list Z)
  | KvPartition (p1 p2 : list Z)
  | KvMakeClient (draw : Z → string) (shuffle : Z → Z) (to : list Z)
  | KvDeleteClient (ck : clerk)
  | KvConnectClient (ck : clerk) (to : list Z)
  | KvDisconnectClient (ck : clerk) (from : list Z)
  | KvShutdown (i : Z)
  | KvStart (draw : Z → string) (i : Z).

Definition kv_step (w : world) (o : kv_op) : result world :=
  match o with
  | KvConnectAll => kw_with_cfg w <$> ConnectAll (kw_cfg w)
  | KvConnect i to => kw_with_cfg w <$> kv_connect (kw_cfg w) i to
  | KvDisconnect i from => kw_with_cfg w <$> kv_disconnect (kw_cfg w) i from
  | KvPartition p1 p2 => kw_with_cfg w <$> partition (kw_cfg w) p1 p2
  | KvMakeClient draw shuffle to =>
      '(cfg, _, _) ← makeClient draw shuffle (kw_cfg w) to; Ret (kw_with_cfg w cfg)
  | KvDeleteClient ck => Ret (kw_with_cfg w (deleteClient (kw_cfg w) ck))
  | KvConnectClient ck to => kw_with_cfg w <$> ConnectClient (kw_cfg w) ck to
  | KvDisconnectClient ck from => kw_with_cfg w <$> DisconnectClient (kw_cfg w) ck from
  | KvShutdown i => ShutdownServer svc w i
  | KvStart draw i => StartServer svc draw w i
  end.

Lemma fmap_net_only w (m : result kvconfig) w' :
  kv_wired w → kw_with_cfg w <$> m = Ret w' → (∀ cfg, m = Ret cfg → net_only (kw_cfg w) cfg) →
  kv_wired w' ∧ rows_kept (kw_cfg w) (kw_cfg w').
Proof. intros Hw Hr Hm. destruct m as [cfg| |]; [|done..]. injection Hr as <-. by apply net_only_wired, Hm. Qed.

Lemma makeClient_servers draw shuffle cfg to cfg' ck handles :
  makeClient draw shuffle cfg to = Ret (cfg', ck, handles) →
  kv_kvservers cfg' = kv_kvservers cfg ∧ servers (kv_net cfg') = servers (kv_net cfg).
Proof.
  unfold makeClient. intros Hr. inv_ret. simplify_eq. apply new_row_ret in E as [_ Hrow].
  eapply row_ends_ret in E0 as (rn & (_ & Hs & _)%open_ends_ret & ->); [|done].
  apply client_loop_ret in E2 as (rn2 & -> & _ & _ & Hs2 & _). simpl in *. by rewrite Hs2, Hs.
Qed.

Lemma kv_step_wired w o w' :
  kv_wired w → kv_step w o = Ret w' → kv_wired w' ∧ rows_kept (kw_cfg w) (kw_cfg w').
Proof.
  intros Hw Hr. destruct o as [|i to|i from|p1 p2|draw shuffle to|ck|ck to|ck from|i|draw i]; simpl in Hr.
  - eapply fmap_net_only; eauto using ConnectAll_net_only.
  - eapply fmap_net_only; eauto using connectUnlocked_wiring. intros. by eapply connectUnlocked_wiring.
  - eapply fmap_net_only; eauto. intros. by eapply disconnectUnlocked_wiring.
  - eapply fmap_net_only; eauto using partition_net_only.
  - inv_ret. destruct x as [[cfg ck] handles]. inv_ret. subst w'.
    destruct (makeClient_ret _ _ _ _ _ _ _ (kv_named _ Hw) E) as (Hn & _ & En & Ee & _).
    apply makeClient_servers in E as [Er Es]. split; [by apply kv_wired_cfg|].
    split; [done|]. intros j. unfold has_row. simpl. by rewrite Ee.
  - injection Hr as <-. split; [|done]. apply kv_wired_cfg; [done|apply named_delete, Hw|done..].
  - eapply fmap_net_only; eauto. intros cfg (rn & -> & _ & Hs)%client_loop_ret. by exists rn.
  - eapply fmap_net_only; eauto. intros cfg (rn & -> & _ & Hs)%client_loop_ret. by exists rn.
  - by destruct (ShutdownServer_wired _ _ _ Hw Hr) as (? & ? & _).
  - destruct (StartServer_wired _ _ _ _ Hw Hr) as (? & ? & Hrows). split; [done|]. split; [done|].
    intros j ?. apply Hrows. by right.
Qed.

Lemma kv_steps_wired w ops w' :
  kv_wired w → foldM kv_step w ops = Ret w' → kv_wired w' ∧ rows_kept (kw_cfg w) (kw_cfg w').
Proof.
  intros Hw. apply (foldM_ret_inv _ (λ _ w', kv_wired w' ∧ rows_kept (kw_cfg w) (kw_cfg w'))); [done|].
  intros _ o w1 w2 [Hw1 Hk1] Hr. destruct (kv_step_wired _ _ _ Hw1 Hr). split; [done|]. by etransitivity.
Qed.

Lemma kv_initial_wired (w : world) :
  kv_endnames (kw_cfg w) = replicate (Z.to_nat (kv_n (kw_cfg w))) None →
  kv_kvservers (kw_cfg w) = replicate (Z.to_nat (kv_n (kw_cfg w))) None →
  kv_clerks (kw_cfg w) = ∅ → servers (kv_net (kw_cfg w)) = ∅ → kv_wired w.
Proof.
  intros He Hr Hc Hs.
  assert (∀ A (x : A) k i y, (replicate k x).[i] = Ret y → y = x) as Hrep.
  { intros A x k i y [_ Hy]%go_index_ret. by apply lookup_replicate in Hy as [-> _]. }
  assert (∀ o j e, end_of (kw_cfg w) o j ≠ Ret e) as Hnone.
  { intros [i|ck] j e; simpl.
    - intros (row & Hrow & _)%kv_endname_ret. rewrite He in Hrow. by apply Hrep in Hrow.
    - rewrite Hc, lookup_empty. simpl. intros ?%go_index_lt. simpl in *. lia. }
  split; [split|].
  - rewrite He. apply length_replicate.
  - intros i row Hrow. rewrite He in Hrow. by apply Hrep in Hrow.
  - intros ck row. by rewrite Hc, lookup_empty.
  - split; intros o j; intros * Hij; by destruct (Hnone o j e).
  - intros i Hi. unfold kv_routed, registered. rewrite Hs, Hr, lookup_empty.
    destruct ((replicate _ _).[i]) as [rf| |] eqn:E; [|done..]. apply Hrep in E. by subst rf.
Qed.

Lemma kv_make_config_wired draws n unreliable maxraftstate now s w :
  kv_make_config svc draws n unreliable maxraftstate now s = Ret w →
  kv_wired w ∧ all_rows (kw_cfg w) ∧ kv_n (kw_cfg w) = n.
Proof.
  intros Hr. unfold kv_make_config, go_make in Hr. case_decide as Hn; [|done]. cbn [mbind result_bind] in Hr.
  inv_ret. subst w. set (w0 := mkKvWorld _ _ _ _) in *.
  assert (kv_wired w0) as Hw0 by (by apply kv_initial_wired).
  assert (kv_wired x ∧ kv_n (kw_cfg x) = n ∧ ∀ j, j ∈ seqZ 0 n → has_row (kw_cfg x) j) as (Hw & En & Hrows).
  { revert E. apply (foldM_ret_inv _ (λ js w, kv_wired w ∧ kv_n (kw_cfg w) = n ∧ ∀ j, j ∈ js → has_row (kw_cfg w) j)).
    - split_and!; [done..|]. by intros j ?%elem_of_nil.
    - intros js i w1 w2 (Hw1 & En1 & Hr1) E. destruct (StartServer_wired _ _ _ _ Hw1 E) as (Hw2 & En2 & Hr2).
      split_and!; [done|congruence|]. intros j [Hj|Hj%list_elem_of_singleton]%elem_of_app; apply Hr2; auto. }
  apply ConnectAll_net_only in E0. destruct (net_only_wired _ _ Hw E0) as [Hw1 [En1 Hk1]].
  split_and!.
  - apply (kv_wired_cfg (kw_with_cfg x x0)); [done|by eapply named_same, Hw1|done..].
  - intros i Hi. unfold has_row. simpl. apply Hk1, Hrows. apply elem_of_seqZ. unfold kv_in in Hi. simpl in Hi. lia.
  - simpl. congruence.
Qed.
End service.
