(* ===== verification/KvPartition.v ===== *)
(** What the tests of the key/value service rely on: the ends between servers
    and clerks, [make_partition], [partition] and [makeClient]. *)
From Stdlib Require Import ZArith Lia.
From stdpp Require Import base gmap sets list strings.
From S2P Require Import Prelude Labrpc Persister Iface Tables Raft RaftConfig RaftNet KvConfig KvNet KvHarness.

(** ** split_servers *)

(** The servers other than [l] among [js], in order. *)
Definition others (l : Z) (js : list Z) : list Z := filter (λ i, i ≠ l) js.

Lemma fill_next (pre : list Z) k i :
  (0 < k)%nat → <[length pre := i]> (pre ++ replicate k 0) = (pre ++ [i]) ++ replicate (k - 1) 0.
Proof.
  intros Hk. destruct k as [|k]; [lia|]. rewrite insert_app_r_alt, Nat.sub_diag by lia.
  simpl. rewrite Nat.sub_0_r. by rewrite <-(assoc_L (++)).
Qed.

Lemma place_server_ret l js p1 p2 i k :
  p1 ++ p2 = others l js ++ replicate k 0 → (0 < k)%nat →
  ∃ p1' p2', place_server l (p1, p2, Z.of_nat (length (others l js))) i =
               Ret (p1', p2', Z.of_nat (length (others l (js ++ [i])))) ∧
    length p1' = length p1 ∧ length p2' = length p2 ∧
    p1' ++ p2' = others l (js ++ [i]) ++ replicate (length p1 + length p2 - length (others l (js ++ [i]))) 0.
Proof.
  intros Heq Hk. pose proof (f_equal length Heq) as Hlen. rewrite !length_app, length_replicate in Hlen.
  unfold place_server, others in *. rewrite filter_app. destruct (decide (i ≠ l)) as [Hi|Hi].
  - rewrite filter_cons_True, filter_nil by done. rewrite length_app. simpl length.
    set (pre := filter _ js) in *.
    assert (length p1 + length p2 - (length pre + 1) = k - 1)%nat as -> by lia. rewrite <-fill_next, <-Heq by done.
    destruct (decide (Z.of_nat (length pre) < Z.of_nat (length p1))) as [Hlt|Hge].
    + rewrite go_update_ret by lia. cbn [mbind result_bind]. rewrite Nat2Z.id.
      exists (<[length pre := i]> p1), p2. rewrite length_insert, insert_app_l by lia.
      split_and!; [|done..]. repeat f_equal. lia.
    + rewrite go_update_ret by lia. cbn [mbind result_bind].
      exists p1, (<[(length pre - length p1)%nat := i]> p2). rewrite length_insert, insert_app_r_alt by lia.
      split_and!; [|done..].
      assert (Z.to_nat (Z.of_nat (length pre) - Z.of_nat (length p1)) = (length pre - length p1)%nat) as -> by lia.
      repeat f_equal. lia.
  - rewrite filter_cons_False by tauto. rewrite filter_nil, app_nil_r. exists p1, p2.
    split_and!; [done..|]. rewrite Heq. do 2 f_equal. lia.
Qed.

Lemma others_length l n : 0 ≤ l < n → length (others l (seqZ 0 n)) = Z.to_nat (n - 1).
Proof.
  intros Hl. unfold others.
  assert (l ∈ seqZ 0 n) as Hin by (apply elem_of_seqZ; lia).
  pose proof (NoDup_seqZ 0 n) as Hnd. apply list_elem_of_split in Hin as (a & b & E).
  rewrite E in Hnd |- *. pose proof (f_equal length E) as Hlen. rewrite length_seqZ, length_app in Hlen. simpl in Hlen.
  apply NoDup_app in Hnd as (_ & Ha & [Hb _]%NoDup_cons).
  rewrite filter_app, filter_cons_False by tauto.
  rewrite (filter_all _ a), (filter_all _ b), length_app; [lia| |].
  - intros x Hx ->. done.
  - intros x Hx ->. apply (Ha l Hx). left.
Qed.

(** The servers but [l], then, for an even [n], a slot that is never filled, then [l]. *)
Lemma split_servers_ret n l :
  2 ≤ n → 0 ≤ l < n →
  ∃ p1 p2, split_servers n l = Ret (p1, p2) ∧
    length p1 = Z.to_nat (n / 2 + 1) ∧ length p2 = Z.to_nat (n / 2) ∧
    p1 ++ p2 = others l (seqZ 0 n) ++ replicate (Z.to_nat (1 - n mod 2)) 0 ++ [l].
Proof.
  intros Hn Hl. unfold split_servers, go_make. rewrite Z.quot_div_nonneg by lia.
  pose proof (Z.div_mod n 2 ltac:(lia)) as Hdm. pose proof (Z.mod_pos_bound n 2 ltac:(lia)).
  set (h := n / 2) in *. rewrite !decide_True by lia. cbn [mbind result_bind].
  set (z1 := replicate (Z.to_nat (h + 1)) 0). set (z2 := replicate (Z.to_nat h) 0).
  destruct (foldM_inv (place_server l) (λ js s, ∃ p1 p2,
      s = (p1, p2, Z.of_nat (length (others l js))) ∧ length p1 = Z.to_nat (h + 1) ∧ length p2 = Z.to_nat h ∧
      p1 ++ p2 = others l js ++ replicate (Z.to_nat (h + 1) + Z.to_nat h - length (others l js)) 0)
    (z1, z2, 0) (seqZ 0 n)) as (s & -> & p1 & p2 & -> & Hl1 & Hl2 & Heq).
  - exists z1, z2. unfold z1, z2. rewrite !length_replicate. split_and!; [done..|].
    simpl. by rewrite <-replicate_add, Nat.sub_0_r.
  - intros js i rest s Hsplit (p1 & p2 & -> & Hl1 & Hl2 & Heq).
    assert (length (others l js) ≤ Z.to_nat (n - 1))%nat as Hle.
    { rewrite <-(others_length l n) by done. rewrite Hsplit. unfold others. rewrite filter_app, length_app. lia. }
    destruct (place_server_ret l js p1 p2 i _ Heq) as (p1' & p2' & E & E1 & E2 & E3); [lia|].
    eexists. split; [exact E|]. exists p1', p2'. split_and!; [done|lia|lia|]. by rewrite E3, Hl1, Hl2.
  - cbn [mbind result_bind]. rewrite others_length in Heq by done.
    assert (Z.to_nat (h + 1) + Z.to_nat h - Z.to_nat (n - 1) = Z.to_nat (1 - n mod 2) + 1)%nat as Ek by lia.
    rewrite Ek, replicate_add, (assoc_L (++)) in Heq. simpl in Heq.
    rewrite go_update_ret by lia. cbn [mbind result_bind].
    exists p1, (<[Z.to_nat (Z.of_nat (length p2) - 1) := l]> p2). split_and!; [done|done|by rewrite length_insert|].
    set (pre := others l (seqZ 0 n) ++ _) in *. pose proof (f_equal length Heq) as Hlen.
    rewrite !length_app in Hlen. simpl in Hlen.
    assert (Z.to_nat (Z.of_nat (length p2) - 1) = length pre - length p1)%nat as -> by lia.
    rewrite <-insert_app_r_alt, Heq, insert_app_r_alt, Nat.sub_diag by lia. simpl.
    unfold pre. by rewrite <-(assoc_L (++)).
Qed.

(** With four servers, server 0 is on both sides. *)
Lemma split_servers_even : split_servers 4 1 = Ret ([0; 2; 3], [0; 1]).
Proof. vm_compute. reflexivity. Qed.

(** With an odd number of servers nothing is left over. *)
Lemma split_servers_odd n l p1 p2 :
  3 ≤ n → Z.odd n = true → 0 ≤ l < n → split_servers n l = Ret (p1, p2) →
  p1 ++ p2 ≡ₚ seqZ 0 n ∧ Z.of_nat (length p1) = n / 2 + 1 ∧ Z.of_nat (length p2) = n / 2 ∧ l ∈ p2.
Proof.
  intros Hn Hodd Hl Hr. destruct (split_servers_ret n l) as (q1 & q2 & E & Hl1 & Hl2 & Heq); [lia..|].
  rewrite Hr in E. injection E as <- <-. rewrite Zodd_mod in Hodd. apply Z.eqb_eq in Hodd. rewrite Hodd in Heq. simpl in Heq.
  assert (0 < n / 2) by (apply Z.div_str_pos; lia).
  split_and!; [|lia|lia|].
  - rewrite Heq. apply NoDup_Permutation; [|apply NoDup_seqZ|].
    + apply NoDup_app. split_and!; [apply NoDup_filter, NoDup_seqZ| |apply NoDup_singleton].
      by intros x [? _]%list_elem_of_filter ->%list_elem_of_singleton.
    + intros x. unfold others. rewrite elem_of_app, list_elem_of_filter, list_elem_of_singleton, elem_of_seqZ.
      destruct (decide (x = l)); intuition lia.
  - destruct p2 as [|y p2] using rev_ind; [simpl in Hl2; lia|].
    rewrite (assoc_L (++)) in Heq. apply app_inj_tail in Heq as [_ ->]. apply elem_of_app. right. by apply list_elem_of_singleton.
Qed.

Section service.
Context {S : Type} (svc : ServiceOps S).
Abbreviation world := (kvworld S).

(** [Leader] asks the servers in turn; none of them being leader, it says 0. *)
Lemma find_leader_ret (w : world) l found i w' :
  find_leader svc w l = Ret (found, i, w') →
  kw_cfg w' = kw_cfg w ∧
  if found then i ∈ l ∧ ∃ kv s s' t, (kv_kvservers (kw_cfg w)).[i] = Ret (Some kv) ∧ svc_GetState svc kv s = Ret (t, true, s')
  else i = 0.
Proof.
  revert w. induction l as [|k l IH]; intros w Hr; simpl in Hr; [by injection Hr as <- <- <-|].
  inv_ret. subst. destruct x1 as [[t is_leader] s]. destruct is_leader; simplify_eq.
  - split; [done|]. split; [left|]. by exists x0, (kw_impl w), s, t.
  - apply IH in Hr as [Ec Hi]. simpl in *. split; [done|]. destruct found; [|done].
    destruct Hi as [? ?]. split; [by right|done].
Qed.

(** What [make_partition] answers, and what [partition] does with it. *)
Lemma make_partition_spec (w : world) p1 p2 w' :
  named (kw_cfg w) → all_rows (kw_cfg w) → 3 ≤ kv_n (kw_cfg w) → Z.odd (kv_n (kw_cfg w)) = true →
  make_partition svc w = Ret (p1, p2, w') →
  kw_cfg w' = kw_cfg w ∧
  (∃ found l, Leader svc w = Ret (found, l, w') ∧ l ∈ p2 ∧
     (found = true → ∃ kv s s' t, (kv_kvservers (kw_cfg w)).[l] = Ret (Some kv) ∧ svc_GetState svc kv s = Ret (t, true, s'))) ∧
  p1 ++ p2 ≡ₚ seqZ 0 (kv_n (kw_cfg w)) ∧ Z.of_nat (length p1) = kv_n (kw_cfg w) / 2 + 1 ∧
  (∀ x, x ∈ p1 ∨ x ∈ p2 ↔ kv_in (kw_cfg w) x) ∧
  ∃ rn, partition (kw_cfg w) p1 p2 = Ret (kv_with_net (kw_cfg w) rn) ∧
    rewired (kw_cfg w) (kv_net (kw_cfg w)) rn (apart p1 p2).
Proof.
  intros Hn Hrows Hn3 Hodd Hmp.
  unfold make_partition in Hmp. inv_ret. destruct x as [[found l] w1]. inv_ret. destruct x as [q1 q2]. simplify_eq.
  rename E0 into Hsplit. pose proof E as Hlead. unfold Leader in E. apply find_leader_ret in E as [Ec Hl]. rewrite Ec in *.
  assert (0 ≤ l < kv_n (kw_cfg w)) as Hlr.
  { destruct found; [destruct Hl as [?%elem_of_seqZ _]; lia|lia]. }
  destruct (split_servers_odd _ _ _ _ Hn3 Hodd Hlr Hsplit) as (Hperm & Hl1 & Hl2 & Hin).
  assert (kv_n (kw_cfg w) / 2 < kv_n (kw_cfg w)) by (apply Z.div_lt; lia).
  assert (∀ x, x ∈ p1 ∨ x ∈ p2 ↔ kv_in (kw_cfg w) x) as Hall.
  { intros x. rewrite <-elem_of_app, Hperm, elem_of_seqZ. done. }
  assert (NoDup (p1 ++ p2)) as (_ & Hdis & _)%NoDup_app by (rewrite Hperm; apply NoDup_seqZ).
  destruct (partition_spec (kw_cfg w) p1 p2) as (rn & Hp & Hrw);
    [done|done|intros; apply Hall; by left|intros; apply Hall; by right|exact Hdis|lia|lia|].
  split_and!; [done| |done|done|done|by exists rn].
  exists found, l. split_and!; [done..|]. intros ->. by destruct Hl.
Qed.

(** Every state of a test has the invariant, with a row for each server. *)
Lemma kv_run_wired draws n unreliable maxraftstate now s w0 ops w :
  kv_make_config svc draws n unreliable maxraftstate now s = Ret w0 → foldM (kv_step svc) w0 ops = Ret w →
  kv_wired w ∧ all_rows (kw_cfg w) ∧ kv_n (kw_cfg w) = n.
Proof.
  intros (Hw0 & Hrows0 & En0)%kv_make_config_wired Hr. destruct (kv_steps_wired _ _ _ _ Hw0 Hr) as [Hw [En Hk]].
  split_and!; [done| |congruence]. intros i Hi. apply Hk, Hrows0. unfold kv_in in *. by rewrite <-En.
Qed.

(** No run of a test confuses the ends: whatever it starts, shuts down,
    connects, partitions and whichever clerks it makes and deletes, every
    server and every clerk has an end for each server that leads there, all of
    them with different names, and requests to a server reach its current
    instance, or nothing after it was shut down. *)
Lemma kv_ends_kept draws n unreliable maxraftstate now s w0 ops w :
  kv_make_config svc draws n unreliable maxraftstate now s = Ret w0 → foldM (kv_step svc) w0 ops = Ret w →
  let cfg := kw_cfg w in
  (∀ i j, kv_in cfg i → kv_in cfg j → ∃ e, kv_endname cfg i j = Ret e ∧ leads (kv_net cfg) e (Int j)) ∧
  (∀ ck row j, kv_clerks cfg !! ck = Some row → kv_in cfg j → ∃ e, row.[j] = Ret e ∧ leads (kv_net cfg) e (Int j)) ∧
  (∀ o j o' j' e, end_of cfg o j = Ret e → end_of cfg o' j' = Ret e → o = o' ∧ j = j') ∧
  (∀ i, kv_in cfg i → kv_routed w i).
Proof.
  intros (Hw0 & Hrows0 & _)%kv_make_config_wired Hr. destruct (kv_steps_wired _ _ _ _ Hw0 Hr) as [[Hn Hrt] [En Hk]].
  cbv zeta. split_and!; [| |apply Hn|done].
  - intros i j Hi Hj. destruct (kv_endname_total _ i j Hn) as [e He]; [|done|].
    + apply Hk, Hrows0. unfold kv_in in *. by rewrite <-En.
    + exists e. split; [done|]. by apply (nm_leads _ Hn (inl i)).
  - intros ck row j Hck Hj. destruct (go_index_in_range row j) as [e He].
    + rewrite (nm_clerks _ Hn _ _ Hck). unfold kv_in in Hj. lia.
    + exists e. split; [done|]. apply (nm_leads _ Hn (inr ck)). simpl. by rewrite Hck.
Qed.

(** C36: with an odd number of servers, [make_partition] splits them all into
    a majority and a minority with the leader in the minority, and
    [partition], from any state a test has reached, then lets two servers
    talk exactly when they are on the same side; the ends of the clerks stay
    as they were. *)
Theorem partition_isolates_leader draws n unreliable maxraftstate now s w0 ops w p1 p2 w' :
  kv_make_config svc draws n unreliable maxraftstate now s = Ret w0 → foldM (kv_step svc) w0 ops = Ret w →
  3 ≤ n → Z.odd n = true → make_partition svc w = Ret (p1, p2, w') →
  (∃ found l, Leader svc w = Ret (found, l, w') ∧ l ∈ p2 ∧
     (found = true → ∃ kv s s' t, (kv_kvservers (kw_cfg w)).[l] = Ret (Some kv) ∧ svc_GetState svc kv s = Ret (t, true, s'))) ∧
  p1 ++ p2 ≡ₚ seqZ 0 n ∧ Z.of_nat (length p1) = n / 2 + 1 ∧
  ∃ cfg, partition (kw_cfg w') p1 p2 = Ret cfg ∧
    (∀ i j, 0 ≤ i < n → 0 ≤ j < n → ∃ e, kv_endname cfg i j = Ret e ∧
       (is_enabled (kv_net cfg) (Str e) = true ↔ (i ∈ p1 ∧ j ∈ p1) ∨ (i ∈ p2 ∧ j ∈ p2))) ∧
    (∀ ck j e, end_of (kw_cfg w) (inr ck) j = Ret e →
       is_enabled (kv_net cfg) (Str e) = true ↔ is_enabled (kv_net (kw_cfg w)) (Str e) = true).
Proof.
  intros Hmk Hr Hn3 Hodd Hmp. destruct (kv_run_wired _ _ _ _ _ _ _ _ _ Hmk Hr) as ([Hn _] & Hrows & <-).
  destruct (make_partition_spec w p1 p2 w' Hn Hrows Hn3 Hodd Hmp)
    as (-> & Hlead & Hperm & Hl1 & Hall & rn & Hp & Hw & Hends & Hrest).
  split_and!; [done|done|done|]. eexists. split; [exact Hp|]. split.
  - intros i j Hi Hj. destruct (kv_endname_total _ i j Hn) as [e He]; [by apply Hrows|done|].
    exists e. split; [done|]. simpl. rewrite (Hends _ _ _ He). unfold apart. apply Hall in Hi, Hj. tauto.
  - intros ck j e He. apply Hrest. intros a b Hab. by destruct (nm_distinct _ Hn (inl a) b (inr ck) j e Hab He).
Qed.

(** A clerk of [makeClient] is given one end for each server and no
    other, in whatever order is drawn; it can reach the servers in [to] and
    no others, and no other end of the test changes. *)
Lemma client_reaches draws n unreliable maxraftstate now s w0 ops w draw shuffle to cfg ck handles :
  kv_make_config svc draws n unreliable maxraftstate now s = Ret w0 → foldM (kv_step svc) w0 ops = Ret w →
  makeClient draw shuffle (kw_cfg w) to = Ret (cfg, ck, handles) →
  (∀ j, 0 ≤ j < n → ∃ e, end_of cfg (inr ck) j = Ret e ∧ e ∈ handles ∧ leads (kv_net cfg) e (Int j) ∧
     (is_enabled (kv_net cfg) (Str e) = true ↔ j ∈ to)) ∧
  (∀ e, e ∈ handles → ∃ j, 0 ≤ j < n ∧ end_of cfg (inr ck) j = Ret e) ∧ NoDup handles ∧
  (∀ o j e, end_of (kw_cfg w) o j = Ret e → end_of cfg o j = Ret e ∧
     is_enabled (kv_net cfg) (Str e) = is_enabled (kv_net (kw_cfg w)) (Str e)).
Proof.
  intros (Hw0 & _ & En0)%kv_make_config_wired Hr Hmk. destruct (kv_steps_wired _ _ _ _ Hw0 Hr) as [[Hn _] [En _]].
  destruct (makeClient_ret _ _ _ _ _ _ _ Hn Hmk) as (Hn' & _ & En' & _ & Hown & Hback & Hnd & Hrest).
  assert (n = kv_n (kw_cfg w)) as -> by congruence. split_and!; [|done|done|done].
  intros j Hj. destruct (Hown j Hj) as (e & He & Hin & Hen). exists e. split_and!; [done..| |done]. by apply (nm_leads _ Hn' (inr ck)).
Qed.
End service.

(** ** A sample *)

(** Three servers; one is restarted, and a clerk may talk to the last two. *)
Definition no_kv_world : kvworld kvpeers :=
  mkKvWorld (mkKvConfig MakeNetwork 0 [] [] [] ∅ 0 0 0 0 0 0) (mkHeap [] ∅) ∅ (mkKvPeers ∅ ∅).
Definition three_kv : kvworld kvpeers :=
  get (kv_make_config kv_skeleton sample_names 3 false (-1) 0 (mkKvPeers ∅ ∅)) no_kv_world.
Definition sample_kv_ops : list kv_op := [KvShutdown 1; KvStart (λ j, "n" +:+ digit j) 1; KvConnectAll].
Definition restarted_kv : kvworld kvpeers := get (foldM (kv_step kv_skeleton) three_kv sample_kv_ops) no_kv_world.
Definition split_kv : list Z * list Z * kvworld kvpeers := get (make_partition kv_skeleton restarted_kv) ([], [], no_kv_world).
Definition rotate (i : Z) : Z := i / 2.
Definition with_clerk : kvconfig * clerk * list string :=
  get (makeClient (λ j, "c" +:+ digit j) rotate (kw_cfg restarted_kv) [1; 2]) (kw_cfg no_kv_world, 0%nat, []).

Lemma three_kv_ret : kv_make_config kv_skeleton sample_names 3 false (-1) 0 (mkKvPeers ∅ ∅) = Ret three_kv.
Proof. apply get_ret. vm_compute. reflexivity. Qed.
Lemma restarted_kv_ret : foldM (kv_step kv_skeleton) three_kv sample_kv_ops = Ret restarted_kv.
Proof. apply get_ret. vm_compute. reflexivity. Qed.

Lemma split_kv_ret : make_partition kv_skeleton restarted_kv = Ret split_kv.
Proof. apply get_ret. vm_compute. reflexivity. Qed.
Lemma with_clerk_ret : makeClient (λ j, "c" +:+ digit j) rotate (kw_cfg restarted_kv) [1; 2] = Ret with_clerk.
Proof. apply get_ret. vm_compute. reflexivity. Qed.
#[local] Opaque three_kv restarted_kv split_kv with_clerk.

Example kv_ends_kept_sample :
  kv_kvservers (kw_cfg restarted_kv) = [Some 0; Some 3; Some 2]%nat ∧
  ∃ e, kv_endname (kw_cfg restarted_kv) 1 2 = Ret e ∧ leads (kv_net (kw_cfg restarted_kv)) e (Int 2).
Proof.
  assert (kv_n (kw_cfg restarted_kv) = 3) as En by (vm_compute; reflexivity).
  split; [vm_compute; reflexivity|].
  destruct (kv_ends_kept kv_skeleton _ _ _ _ _ _ _ _ _ three_kv_ret restarted_kv_ret) as (Hends & _).
  apply Hends; unfold kv_in; rewrite En; lia.
Defined.

Lemma partition_isolates_leader_witness :
  split_kv.1 = ([1; 2], [0]) ∧
  ∃ cfg, partition (kw_cfg split_kv.2) [1; 2] [0] = Ret cfg ∧
    (∀ i j, 0 ≤ i < 3 → 0 ≤ j < 3 → ∃ e, kv_endname cfg i j = Ret e ∧
       (is_enabled (kv_net cfg) (Str e) = true ↔ (i ∈ [1; 2] ∧ j ∈ [1; 2]) ∨ (i ∈ [0] ∧ j ∈ [0]))) ∧
    (∀ ck j e, end_of (kw_cfg restarted_kv) (inr ck) j = Ret e →
       is_enabled (kv_net cfg) (Str e) = true ↔ is_enabled (kv_net (kw_cfg restarted_kv)) (Str e) = true).
Proof.
  assert (split_kv.1 = ([1; 2], [0])) as Hsides by (vm_compute; reflexivity). split; [exact Hsides|].
  destruct (partition_isolates_leader kv_skeleton _ _ _ _ _ _ _ _ _ [1; 2] [0] split_kv.2 three_kv_ret restarted_kv_ret)
    as (_ & _ & _ & Hparts); [lia|reflexivity| |exact Hparts].
  rewrite <-Hsides, <-surjective_pairing. exact split_kv_ret.
Defined.

Example client_reaches_sample :
  with_clerk.2 = ["c1"; "c2"; "c0"] ∧ NoDup with_clerk.2 ∧
  (∃ e, end_of with_clerk.1.1 (inr with_clerk.1.2) 1 = Ret e ∧ e ∈ with_clerk.2 ∧ leads (kv_net with_clerk.1.1) e (Int 1) ∧
     (is_enabled (kv_net with_clerk.1.1) (Str e) = true ↔ 1 ∈ [1; 2])).
Proof.
  split; [vm_compute; reflexivity|].
  destruct (client_reaches kv_skeleton _ _ _ _ _ _ _ _ _ (λ j, "c" +:+ digit j) rotate [1; 2]
    with_clerk.1.1 with_clerk.1.2 with_clerk.2 three_kv_ret restarted_kv_ret) as (Hreach & _ & Hnd & _).
  - rewrite <-!surjective_pairing. exact with_clerk_ret.
  - split; [exact Hnd|]. apply Hreach. lia.
Defined.
