(* ===== verification/ShardConfig.v ===== *)
(** shardkv/config.go, the test harness of the sharded key/value service:
    three shard controllers, three groups of [n] servers, and clerks that find
    the groups through the controllers; and the two servers as the lab hands
    them out, shardctrler/server.go and shardkv/server.go.

    The services under test are a parameter ([ShardOps]). Names that
    [randstring] draws are arguments. *)
From Stdlib Require Import ZArith Lia.
From stdpp Require Import base gmap sets list strings pretty.
From S2P Require Import Prelude Labrpc Persister Iface Raft RaftConfig Clerks KvConfig.

(** Instances of group servers and of controllers. *)
Abbreviation kvid := nat.
Abbreviation scid := nat.

(** [func(servername string) *labrpc.ClientEnd], over the network it closes
    over and a name drawn for the end. *)
Definition end_maker : Type := string → string → net → result net.

(** A group server is given its peers' ends, its number, its persister,
    [maxraftstate], its group, the controllers' ends and [make_end]. *)
Record ShardOps (S : Type) := mkShardOps {
  shard_Start : list string → Z → ptr → Z → Z → list string → end_maker → heap → S → result (kvid * heap * S);
  shard_Kill : kvid → heap → S → result (heap * S);
  ctrler_Start : list string → Z → ptr → heap → S → result (scid * heap * S);
  ctrler_Kill : scid → heap → S → result (heap * S)
}.
Arguments mkShardOps {S}.
Arguments shard_Start {S}.
Arguments shard_Kill {S}.
Arguments ctrler_Start {S}.
Arguments ctrler_Kill {S}.

Record group := mkGroup {
  gid : Z;
  g_servers : list (option kvid);
  g_saved : list (option ptr);
  g_endnames : list (list string);
  g_mendnames : list (list string)
}.

Definition g_with_servers (g : group) l : group := mkGroup (gid g) l (g_saved g) (g_endnames g) (g_mendnames g).
Definition g_with_saved (g : group) l : group := mkGroup (gid g) (g_servers g) l (g_endnames g) (g_mendnames g).
Definition g_with_names (g : group) l m : group := mkGroup (gid g) (g_servers g) (g_saved g) l m.

(** [cfg.groups] holds pointers; nothing else points to a group. *)
Record sconfig := mkSConfig {
  sh_net : net;
  sh_start : Z;
  sh_nctrlers : Z;
  sh_ctrlerservers : list (option scid);
  sh_mck : option Clerk;
  sh_ngroups : Z;
  sh_n : Z;
  sh_groups : list (option group);
  sh_clerks : gmap clerk (list string);
  sh_nextClientId : Z;
  sh_maxraftstate : Z
}.

Definition sh_with_net (c : sconfig) (rn : net) : sconfig :=
  mkSConfig rn (sh_start c) (sh_nctrlers c) (sh_ctrlerservers c) (sh_mck c) (sh_ngroups c) (sh_n c) (sh_groups c)
    (sh_clerks c) (sh_nextClientId c) (sh_maxraftstate c).
Definition sh_with_groups (c : sconfig) (l : list (option group)) : sconfig :=
  mkSConfig (sh_net c) (sh_start c) (sh_nctrlers c) (sh_ctrlerservers c) (sh_mck c) (sh_ngroups c) (sh_n c) l
    (sh_clerks c) (sh_nextClientId c) (sh_maxraftstate c).
Definition sh_with_ctrlers (c : sconfig) (l : list (option scid)) (mck : option Clerk) : sconfig :=
  mkSConfig (sh_net c) (sh_start c) (sh_nctrlers c) l mck (sh_ngroups c) (sh_n c) (sh_groups c)
    (sh_clerks c) (sh_nextClientId c) (sh_maxraftstate c).
Definition sh_with_clerks (c : sconfig) (m : gmap clerk (list string)) (next : Z) : sconfig :=
  mkSConfig (sh_net c) (sh_start c) (sh_nctrlers c) (sh_ctrlerservers c) (sh_mck c) (sh_ngroups c) (sh_n c)
    (sh_groups c) m next (sh_maxraftstate c).

(** [cfg.groups[gi]], dereferenced, and what is written through it. *)
Definition the_group (cfg : sconfig) (gi : Z) : result group := (sh_groups cfg).[gi] ≫= nonnil.
Definition put_group (cfg : sconfig) (gi : Z) (gg : group) : result sconfig :=
  groups ← (sh_groups cfg).[gi <- Some gg]; Ret (sh_with_groups cfg groups).

(** ** Names *)

Definition ctrlername (i : Z) : string := "ctrler" +:+ pretty i.
Definition servername (gid i : Z) : string := "server-" +:+ pretty gid +:+ "-" +:+ pretty i.

(** The closure that the harness gives to clerks and group servers: a new end
    for a server's name, enabled, in no row of the harness. *)
Definition make_end : end_maker := λ name servername rn, new_end true rn name (Str servername).

(** A row of [k] ends, named as they are made: [names] is as long as the code allocates it. *)
Definition draw_ends (draw : Z → string) (k : Z) (names : list string) (rn : net) : result (list string * net) :=
  foldM (λ '(names, rn) j,
    names ← names.[j <- draw j];
    e ← names.[j];
    rn ← make_end e (ctrlername j) rn;
    Ret (names, rn)) (names, rn) (seqZ 0 k).

(** ** Clerks *)

(** The clerk gets the ends and [make_end]; the harness keeps the ends' names. *)
Definition sh_makeClient (draw : Z → string) (cfg : sconfig) : result (sconfig * clerk) :=
  blank ← go_make (sh_n cfg) "";
  '(endnames, rn) ← draw_ends draw (sh_nctrlers cfg) blank (sh_net cfg);
  let ck := fresh (dom (sh_clerks cfg)) in
  Ret (sh_with_clerks (sh_with_net cfg rn) (<[ck := endnames]> (sh_clerks cfg)) (int64 (sh_nextClientId cfg + 1)), ck).

(** [os.Remove] of the names touches files, not the network. *)
Definition sh_deleteClient (cfg : sconfig) (ck : clerk) : sconfig :=
  sh_with_clerks cfg (delete ck (sh_clerks cfg)) (sh_nextClientId cfg).

(** Ends to the controllers whose names nobody keeps. *)
Definition ctrler_ends (draw : Z → string) (cfg : sconfig) : result (list string * sconfig) :=
  rn ← foldM (λ rn j, make_end (draw j) (ctrlername j) rn) (sh_net cfg) (seqZ 0 (sh_nctrlers cfg));
  Ret (draw <$> seqZ 0 (sh_nctrlers cfg), sh_with_net cfg rn).

Definition shardclerk (draw : Z → string) (cfg : sconfig) : result (Clerk * sconfig) :=
  '(ends, cfg) ← ctrler_ends draw cfg; Ret (MakeClerk ends, cfg).

(** The groups that [joinm] announces, each with the names of its servers. *)
Definition join_groups (cfg : sconfig) (gis : list Z) : result (gmap Z (list string)) :=
  foldM (λ m g,
    gg ← the_group cfg g;
    blank ← go_make (sh_n cfg) "";
    servernames ← foldM (λ names i, names.[i <- servername (gid gg) i]) blank (seqZ 0 (sh_n cfg));
    Ret (<[gid gg := servernames]> m)) ∅ gis.

Definition leave_groups (cfg : sconfig) (gis : list Z) : result (list Z) :=
  foldM (λ gids g, gg ← the_group cfg g; Ret (gids ++ [gid gg])) [] gis.

(** [fuel] is the controller clerk's. *)
Section controller.
Context {W : Type} `{ClerkEnv W}.

Definition joinm (fuel : nat) (cfg : sconfig) (gis : list Z) (w : W) : result W :=
  m ← join_groups cfg gis; mck ← nonnil (sh_mck cfg); Join fuel mck m w.
Definition join (fuel : nat) (cfg : sconfig) (gi : Z) (w : W) : result W := joinm fuel cfg [gi] w.

Definition leavem (fuel : nat) (cfg : sconfig) (gis : list Z) (w : W) : result W :=
  gids ← leave_groups cfg gis; mck ← nonnil (sh_mck cfg); Leave fuel mck gids w.
Definition leave (fuel : nat) (cfg : sconfig) (gi : Z) (w : W) : result W := leavem fuel cfg [gi] w.
End controller.

(** ** Servers *)

Record sworld (S : Type) := mkSWorld {
  sw_cfg : sconfig;
  sw_heap : heap;
  sw_srvs : gmap ptr (kvid + scid);
  sw_impl : S
}.
Arguments mkSWorld {S}.
Arguments sw_cfg {S}.
Arguments sw_heap {S}.
Arguments sw_srvs {S}.
Arguments sw_impl {S}.

Section services.
Context {S : Type} (ops : ShardOps S).
Abbreviation world := (sworld S).

Definition sw_with_cfg (w : world) (cfg : sconfig) : world := mkSWorld cfg (sw_heap w) (sw_srvs w) (sw_impl w).

(** Register a new server under [name]. *)
Definition add_server (w : world) (name : string) (inst : kvid + scid) : world :=
  let srv := fresh (dom (sw_srvs w)) in
  mkSWorld (sh_with_net (sw_cfg w) (AddServer (sh_net (sw_cfg w)) (Str name) srv)) (sw_heap w)
    (<[srv := inst]> (sw_srvs w)) (sw_impl w).

(** [gg.saved[i] = gg.saved[i].Copy()], when it is not nil; when it is, a new
    persister if [make]. *)
Definition sh_save (make : bool) (w : world) (gi i : Z) : result world :=
  gg ← the_group (sw_cfg w) gi;
  sv ← (g_saved gg).[i];
  match sv with
  | Some p =>
      ps ← nonnil (h_ps (sw_heap w) !! p);
      let '(q, h) := alloc (sw_heap w) (Copy ps) in
      saved ← (g_saved gg).[i <- Some q];
      cfg ← put_group (sw_cfg w) gi (g_with_saved gg saved);
      Ret (mkSWorld cfg h (sw_srvs w) (sw_impl w))
  | None =>
      if make then
        let '(q, h) := alloc (sw_heap w) MakePersister in
        saved ← (g_saved gg).[i <- Some q];
        cfg ← put_group (sw_cfg w) gi (g_with_saved gg saved);
        Ret (mkSWorld cfg h (sw_srvs w) (sw_impl w))
      else Ret w
  end.

Definition sh_ShutdownServer (w : world) (gi i : Z) : result world :=
  gg ← the_group (sw_cfg w) gi;
  rn ← enable_loop (λ j, row ← (g_endnames gg).[i]; Some <$> row.[j]) false (sh_net (sw_cfg w))
         (seqZ 0 (Z.of_nat (length (g_servers gg))));
  mrow ← (g_mendnames gg).[i];
  rn ← enable_loop (λ j, Some <$> mrow.[j]) false rn (seqZ 0 (Z.of_nat (length mrow)));
  let cfg := sh_with_net (sw_cfg w) (DeleteServer rn (Str (servername (gid gg) i))) in
  w ← sh_save false (sw_with_cfg w cfg) gi i;
  gg ← the_group (sw_cfg w) gi;
  kv ← (g_servers gg).[i];
  match kv with
  | None => Ret w
  | Some kv =>
      '(h, s) ← shard_Kill ops kv (sw_heap w) (sw_impl w);
      servers ← (g_servers gg).[i <- None];
      cfg ← put_group (sw_cfg w) gi (g_with_servers gg servers);
      Ret (mkSWorld cfg h (sw_srvs w) s)
  end.

Definition ShutdownGroup (w : world) (gi : Z) : result world :=
  foldM (λ w i, sh_ShutdownServer w gi i) w (seqZ 0 (sh_n (sw_cfg w))).

(** The ends of server [i] of group [gi]: to its peers, and to the controllers. *)
Definition server_ends (draw mdraw : Z → string) (cfg : sconfig) (gi i : Z) : result (list string * list string * sconfig) :=
  gg ← the_group cfg gi;
  blank ← go_make (sh_n cfg) "";
  row ← foldM (λ row j, row.[j <- draw j]) blank (seqZ 0 (sh_n cfg));
  endnames ← (g_endnames gg).[i <- row];
  rn ← foldM (λ rn j, e ← row.[j]; make_end e (servername (gid gg) j) rn) (sh_net cfg) (seqZ 0 (sh_n cfg));
  blank ← go_make (sh_nctrlers cfg) "";
  _ ← (g_mendnames gg).[i <- blank];
  '(mrow, rn) ← draw_ends mdraw (sh_nctrlers cfg) blank rn;
  mendnames ← (g_mendnames gg).[i <- mrow];
  cfg ← put_group (sh_with_net cfg rn) gi (g_with_names gg endnames mendnames);
  Ret (row, mrow, cfg).

Definition sh_StartServer (draw mdraw : Z → string) (w : world) (gi i : Z) : result world :=
  '(row, mrow, cfg) ← server_ends draw mdraw (sw_cfg w) gi i;
  w ← sh_save true (sw_with_cfg w cfg) gi i;
  gg ← the_group (sw_cfg w) gi;
  sv ← (g_saved gg).[i];
  p ← nonnil sv;
  '(kv, h, s) ← shard_Start ops row i p (sh_maxraftstate (sw_cfg w)) (gid gg) mrow make_end (sw_heap w) (sw_impl w);
  servers ← (g_servers gg).[i <- Some kv];
  cfg ← put_group (sw_cfg w) gi (g_with_servers gg servers);
  Ret (add_server (mkSWorld cfg h (sw_srvs w) s) (servername (gid gg) i) (inl kv)).

Definition StartGroup (draw mdraw : Z → Z → string) (w : world) (gi : Z) : result world :=
  foldM (λ w i, sh_StartServer (draw i) (mdraw i) w gi i) w (seqZ 0 (sh_n (sw_cfg w))).

Definition StartCtrlerserver (draw : Z → string) (w : world) (i : Z) : result world :=
  '(ends, cfg) ← ctrler_ends draw (sw_cfg w);
  let '(p, h) := alloc (sw_heap w) MakePersister in
  '(sc, h, s) ← ctrler_Start ops ends i p h (sw_impl w);
  ctrlers ← (sh_ctrlerservers cfg).[i <- Some sc];
  Ret (add_server (mkSWorld (sh_with_ctrlers cfg ctrlers (sh_mck cfg)) h (sw_srvs w) s) (ctrlername i) (inr sc)).

(** ** The life of a test *)

Definition sh_checkTimeout (cfg : sconfig) (failed : bool) (now : Z) : result unit :=
  if decide (failed = false ∧ now - sh_start cfg > 120 * Second)
  then Panic (Fatal "test took longer than 120 seconds") else Ret ().

Definition sh_cleanup (w : world) (failed : bool) (now : Z) : result world :=
  w ← foldM ShutdownGroup w (seqZ 0 (sh_ngroups (sw_cfg w)));
  w ← foldM (λ w i,
    sc ← (sh_ctrlerservers (sw_cfg w)).[i];
    sc ← nonnil sc;
    '(h, s) ← ctrler_Kill ops sc (sw_heap w) (sw_impl w);
    Ret (mkSWorld (sw_cfg w) h (sw_srvs w) s)) w (seqZ 0 (sh_nctrlers (sw_cfg w)));
  rn ← Cleanup (sh_net (sw_cfg w));
  sh_checkTimeout (sw_cfg w) failed now ≫= λ _, Ret (sw_with_cfg w (sh_with_net (sw_cfg w) rn)).

(** No server's log may outgrow eight times [maxraftstate]. *)
Definition check_log (w : world) (gi i : Z) : result unit :=
  let mx := sh_maxraftstate (sw_cfg w) in
  gg ← the_group (sw_cfg w) gi;
  sv ← (g_saved gg).[i];
  p ← nonnil sv;
  ps ← nonnil (h_ps (sw_heap w) !! p);
  let raft := RaftStateSize (h_mem (sw_heap w)) ps in
  let snap := Z.of_nat (length (slice (ReadSnapshot (h_mem (sw_heap w)) ps).1 (ReadSnapshot (h_mem (sw_heap w)) ps).2)) in
  if decide (mx >= 0 ∧ raft > int64 (8 * mx)) then
    Panic (Fatal ("persister.RaftStateSize() " +:+ pretty raft +:+ ", but maxraftstate " +:+ pretty mx))
  else if decide (mx < 0 ∧ snap > 0) then Panic (Fatal "maxraftstate is -1, but snapshot is non-empty!")
  else Ret ().

Definition checklogs (w : world) : result unit :=
  foldM (λ _ gi, foldM (λ _ i, check_log w gi i) () (seqZ 0 (sh_n (sw_cfg w)))) () (seqZ 0 (sh_ngroups (sw_cfg w))).

(** A group with nothing started, then its servers. *)
Definition make_group (draw mdraw : Z → Z → Z → string) (w : world) (gi : Z) : result world :=
  let cfg := sw_cfg w in
  servers ← go_make (sh_n cfg) None;
  saved ← go_make (sh_n cfg) None;
  endnames ← go_make (sh_n cfg) [];
  mendnames ← go_make (sh_nctrlers cfg) [];
  cfg ← put_group cfg gi (mkGroup (100 + gi) servers saved endnames mendnames);
  foldM (λ w i, sh_StartServer (draw gi i) (mdraw gi i) w gi i) (sw_with_cfg w cfg) (seqZ 0 (sh_n cfg)).

(** [cdraw], [kdraw], [draw] and [mdraw] name the ends of the controllers, of
    the controllers' clerk, and of the group servers. *)
Definition sh_make_config (cdraw : Z → Z → string) (kdraw : Z → string) (draw mdraw : Z → Z → Z → string)
    (n : Z) (unreliable : bool) (maxraftstate now : Z) (s : S) : result world :=
  ctrlers ← go_make 3 None;
  let cfg := mkSConfig MakeNetwork now 3 ctrlers None 0 0 [] ∅ 0 maxraftstate in
  w ← foldM (λ w i, StartCtrlerserver (cdraw i) w i) (mkSWorld cfg (mkHeap [] ∅) ∅ s) (seqZ 0 3);
  '(mck, cfg) ← shardclerk kdraw (sw_cfg w);
  groups ← go_make 3 None;
  let cfg := mkSConfig (sh_net cfg) (sh_start cfg) (sh_nctrlers cfg) (sh_ctrlerservers cfg) (Some mck) 3 n groups
               ∅ 0 (sh_maxraftstate cfg) in
  w ← foldM (make_group draw mdraw) (sw_with_cfg w cfg) (seqZ 0 3);
  let cfg := sh_with_clerks (sw_cfg w) ∅ (int64 (n + 1000)) in
  Ret (sw_with_cfg w (sh_with_net cfg (Reliable (sh_net cfg) (negb unreliable)))).
End services.

(** ** The servers as the lab hands them out *)

Record ShardCtrler := mkShardCtrler { sc_me : Z; sc_rf : rid; sc_configs : list Config }.
Record ShardKV := mkShardKV {
  sk_me : Z;
  sk_rf : rid;
  sk_make_end : end_maker;
  sk_gid : Z;
  sk_ctrlers : list string;
  sk_maxraftstate : Z
}.

(** All instances, and the peers under them. *)
Record shardpeers := mkShardPeers {
  sp_ctrlers : gmap scid ShardCtrler;
  sp_servers : gmap kvid ShardKV;
  sp_rafts : gmap rid Raft
}.

(** [labgob.Register(Op{})] finds nothing to complain of in an empty struct. *)
Definition ctrler_StartServer (servers : list string) (me : Z) (persister : ptr) (h : heap) (s : shardpeers)
    : result (scid * heap * shardpeers) :=
  '(rf, h, rafts) ← Make servers me persister h (sp_rafts s);
  let sc := fresh (dom (sp_ctrlers s)) in
  Ret (sc, h, mkShardPeers (<[sc := mkShardCtrler me rf [Config_zero]]> (sp_ctrlers s)) (sp_servers s) rafts).

Definition ShardCtrler_Kill (sc : scid) (s : shardpeers) : result shardpeers :=
  c ← nonnil (sp_ctrlers s !! sc);
  rafts ← Kill (Some (sc_rf c)) (sp_rafts s);
  Ret (mkShardPeers (sp_ctrlers s) (sp_servers s) rafts).

Definition ShardCtrler_Raft (sc : scid) (s : shardpeers) : result rid :=
  c ← nonnil (sp_ctrlers s !! sc); Ret (sc_rf c).

Definition shardkv_StartServer (servers : list string) (me : Z) (persister : ptr) (maxraftstate gid : Z)
    (ctrlers : list string) (make_end : end_maker) (h : heap) (s : shardpeers) : result (kvid * heap * shardpeers) :=
  '(rf, h, rafts) ← Make servers me persister h (sp_rafts s);
  let kv := fresh (dom (sp_servers s)) in
  Ret (kv, h, mkShardPeers (sp_ctrlers s) (<[kv := mkShardKV me rf make_end gid ctrlers maxraftstate]> (sp_servers s)) rafts).

Definition ShardKV_Kill (kv : kvid) (s : shardpeers) : result shardpeers :=
  k ← nonnil (sp_servers s !! kv);
  rafts ← Kill (Some (sk_rf k)) (sp_rafts s);
  Ret (mkShardPeers (sp_ctrlers s) (sp_servers s) rafts).

Definition shard_skeleton : ShardOps shardpeers := {|
  shard_Start := shardkv_StartServer;
  shard_Kill kv h s := s ← ShardKV_Kill kv s; Ret (h, s);
  ctrler_Start := ctrler_StartServer;
  ctrler_Kill sc h s := s ← ShardCtrler_Kill sc s; Ret (h, s)
|}.
