(* ===== verification/CtrlerConfig.v ===== *)
(** shardctrler/config.go, the test harness of the shard controller, for any
    controllers ([CtrlerOps]); names and shuffles that are drawn at random are
    arguments. The file is a copy of kvraft/config.go without [maxraftstate]
    and the statistics: [as_kv] puts its states in the other harness, where
    CtrlerSim.v shows every operation to do the same. *)
From Stdlib Require Import ZArith Lia.
From stdpp Require Import base gmap sets list strings.
From S2P Require Import Prelude Labrpc Persister Iface RaftConfig Raft KvConfig ShardConfig.

(** What the harness asks of controllers, in a state of all of them. *)
Record CtrlerOps (S : Type) := mkCtrlerOps {
  ct_Start : list string → Z → ptr → heap → S → result (scid * heap * S);
  ct_Kill : scid → heap → S → result (heap * S);
  ct_GetState : scid → S → result (Z * bool * S)
}.
Arguments mkCtrlerOps {S}.
Arguments ct_Start {S}.
Arguments ct_Kill {S}.
Arguments ct_GetState {S}.

Record ctconfig := mkCtConfig {
  ct_net : net;
  ct_n : Z;
  ct_servers : list (option scid);
  ct_saved : list (option ptr);
  ct_endnames : list (option (list string));
  ct_clerks : gmap clerk (list string);
  ct_nextClientId : Z;
  ct_start : Z
}.

Definition ct_with_net (c : ctconfig) (rn : net) : ctconfig :=
  mkCtConfig rn (ct_n c) (ct_servers c) (ct_saved c) (ct_endnames c) (ct_clerks c) (ct_nextClientId c) (ct_start c).
Definition ct_with_servers (c : ctconfig) (l : list (option scid)) : ctconfig :=
  mkCtConfig (ct_net c) (ct_n c) l (ct_saved c) (ct_endnames c) (ct_clerks c) (ct_nextClientId c) (ct_start c).
Definition ct_with_saved (c : ctconfig) (l : list (option ptr)) : ctconfig :=
  mkCtConfig (ct_net c) (ct_n c) (ct_servers c) l (ct_endnames c) (ct_clerks c) (ct_nextClientId c) (ct_start c).
Definition ct_with_endnames (c : ctconfig) (l : list (option (list string))) : ctconfig :=
  mkCtConfig (ct_net c) (ct_n c) (ct_servers c) (ct_saved c) l (ct_clerks c) (ct_nextClientId c) (ct_start c).
Definition ct_with_clerks (c : ctconfig) (m : gmap clerk (list string)) (next : Z) : ctconfig :=
  mkCtConfig (ct_net c) (ct_n c) (ct_servers c) (ct_saved c) (ct_endnames c) m next (ct_start c).

(** ** Who can talk to whom *)

(** [cfg.endnames[i][j]] *)
Definition ct_endname (cfg : ctconfig) (i j : Z) : result string :=
  row ← (ct_endnames cfg).[i]; (default [] row).[j].

Definition ct_connectUnlocked (cfg : ctconfig) (i : Z) (to : list Z) : result ctconfig :=
  rn ← enable_loop (λ j, t ← to.[j]; Some <$> ct_endname cfg i t) true (ct_net cfg) (seqZ 0 (Z.of_nat (length to)));
  rn ← enable_loop (λ j, t ← to.[j]; Some <$> ct_endname cfg t i) true rn (seqZ 0 (Z.of_nat (length to)));
  Ret (ct_with_net cfg rn).
Definition ct_connect (cfg : ctconfig) (i : Z) (to : list Z) : result ctconfig := ct_connectUnlocked cfg i to.

(** As in kvraft, the second loop tests [endnames[j]], not [endnames[from[j]]]. *)
Definition ct_disconnectUnlocked (cfg : ctconfig) (i : Z) (from : list Z) : result ctconfig :=
  rn ← enable_loop (λ j, row ← (ct_endnames cfg).[i];
                         if row is Some _ then f ← from.[j]; Some <$> ct_endname cfg i f else Ret None)
         false (ct_net cfg) (seqZ 0 (Z.of_nat (length from)));
  rn ← enable_loop (λ j, row ← (ct_endnames cfg).[j];
                         if row is Some _ then f ← from.[j]; Some <$> ct_endname cfg f i else Ret None)
         false rn (seqZ 0 (Z.of_nat (length from)));
  Ret (ct_with_net cfg rn).
Definition ct_disconnect (cfg : ctconfig) (i : Z) (from : list Z) : result ctconfig := ct_disconnectUnlocked cfg i from.

Definition ct_All (cfg : ctconfig) : result (list Z) :=
  all ← go_make (ct_n cfg) 0;
  foldM (λ all i, all.[i <- i]) all (seqZ 0 (ct_n cfg)).

Definition ct_ConnectAll (cfg : ctconfig) : result ctconfig :=
  foldM (λ cfg i, all ← ct_All cfg; ct_connectUnlocked cfg i all) cfg (seqZ 0 (ct_n cfg)).

(** The two loops of [partition]. *)
Definition ct_partition_side (cfg : ctconfig) (side others : list Z) : result ctconfig :=
  foldM (λ cfg i,
    p ← side.[i];
    cfg ← ct_disconnectUnlocked cfg p others;
    ct_connectUnlocked cfg p side) cfg (seqZ 0 (Z.of_nat (length side))).
Definition ct_partition (cfg : ctconfig) (p1 p2 : list Z) : result ctconfig :=
  cfg ← ct_partition_side cfg p1 p2; ct_partition_side cfg p2 p1.

(** ** Clerks *)

(** [draw i] is [rand.Intn(i + 1)]. *)
Definition ct_random_handles (draw : Z → Z) (kvh : list string) : result (list string) :=
  foldM (λ sa i,
    let j := draw i in
    x ← sa.[i]; y ← sa.[j];
    sa ← sa.[i <- y]; sa.[j <- x]) kvh (seqZ 0 (Z.of_nat (length kvh))).

Definition ct_ConnectClientUnlocked (cfg : ctconfig) (ck : clerk) (to : list Z) : result ctconfig :=
  let endnames := default [] (ct_clerks cfg !! ck) in
  rn ← enable_loop (λ j, t ← to.[j]; Some <$> endnames.[t]) true (ct_net cfg) (seqZ 0 (Z.of_nat (length to)));
  Ret (ct_with_net cfg rn).
Definition ct_ConnectClient (cfg : ctconfig) (ck : clerk) (to : list Z) : result ctconfig :=
  ct_ConnectClientUnlocked cfg ck to.

Definition ct_DisconnectClientUnlocked (cfg : ctconfig) (ck : clerk) (from : list Z) : result ctconfig :=
  let endnames := default [] (ct_clerks cfg !! ck) in
  rn ← enable_loop (λ j, t ← from.[j]; Some <$> endnames.[t]) false (ct_net cfg) (seqZ 0 (Z.of_nat (length from)));
  Ret (ct_with_net cfg rn).
Definition ct_DisconnectClient (cfg : ctconfig) (ck : clerk) (from : list Z) : result ctconfig :=
  ct_DisconnectClientUnlocked cfg ck from.

(** Names of its own for the clerk, each made into an end as it is drawn. *)
Definition ct_makeClient (draw : Z → string) (shuffle : Z → Z) (cfg : ctconfig) (to : list Z)
    : result (ctconfig * clerk * list string) :=
  blank ← go_make (ct_n cfg) "";
  '(endnames, rn) ← foldM (λ '(row, rn) j,
    row ← row.[j <- draw j];
    e ← row.[j];
    rn ← MakeEnd rn (Str e);
    Ret (row, Connect rn (Str e) (Int j))) (blank, ct_net cfg) (seqZ 0 (ct_n cfg));
  handles ← ct_random_handles shuffle endnames;
  let ck := fresh (dom (ct_clerks cfg)) in
  let cfg := ct_with_clerks (ct_with_net cfg rn) (<[ck := endnames]> (ct_clerks cfg)) (int64 (ct_nextClientId cfg + 1)) in
  cfg ← ct_ConnectClientUnlocked cfg ck to;
  Ret (cfg, ck, handles).

(** [os.Remove] of the names touches files, not the network. *)
Definition ct_deleteClient (cfg : ctconfig) (ck : clerk) : ctconfig :=
  ct_with_clerks cfg (delete ck (ct_clerks cfg)) (ct_nextClientId cfg).

(** ** Servers *)

Record ctworld (S : Type) := mkCtWorld {
  cw_cfg : ctconfig;
  cw_heap : heap;
  cw_srvs : gmap ptr scid;
  cw_impl : S
}.
Arguments mkCtWorld {S}.
Arguments cw_cfg {S}.
Arguments cw_heap {S}.
Arguments cw_srvs {S}.
Arguments cw_impl {S}.

Section service.
Context {S : Type} (svc : CtrlerOps S).
Abbreviation world := (ctworld S).

Definition cw_with_cfg (w : world) (cfg : ctconfig) : world := mkCtWorld cfg (cw_heap w) (cw_srvs w) (cw_impl w).

(** A fresh persister for server [i]: a copy of the saved one, or, when the
    server starts for the first time, an empty one. *)
Definition ct_save (make : bool) (w : world) (i : Z) : result world :=
  sv ← (ct_saved (cw_cfg w)).[i];
  match sv with
  | Some p =>
      ps ← nonnil (h_ps (cw_heap w) !! p);
      let '(q, h) := alloc (cw_heap w) (Copy ps) in
      saved ← (ct_saved (cw_cfg w)).[i <- Some q];
      Ret (mkCtWorld (ct_with_saved (cw_cfg w) saved) h (cw_srvs w) (cw_impl w))
  | None =>
      if make then
        let '(q, h) := alloc (cw_heap w) MakePersister in
        saved ← (ct_saved (cw_cfg w)).[i <- Some q];
        Ret (mkCtWorld (ct_with_saved (cw_cfg w) saved) h (cw_srvs w) (cw_impl w))
      else Ret w
  end.

Definition ct_ShutdownServer (w : world) (i : Z) : result world :=
  all ← ct_All (cw_cfg w);
  cfg ← ct_disconnectUnlocked (cw_cfg w) i all;
  let cfg := ct_with_net cfg (DeleteServer (ct_net cfg) (Int i)) in
  w ← ct_save false (cw_with_cfg w cfg) i;
  kv ← (ct_servers (cw_cfg w)).[i];
  match kv with
  | Some kv =>
      '(h, s) ← ct_Kill svc kv (cw_heap w) (cw_impl w);
      servers ← (ct_servers (cw_cfg w)).[i <- None];
      Ret (mkCtWorld (ct_with_servers (cw_cfg w) servers) h (cw_srvs w) s)
  | None => Ret w
  end.

(** [ends[j]], for the name [endnames[i][j]]. *)
Definition ct_row_ends (cfg : ctconfig) (row : list string) : result ctconfig :=
  rn ← foldM (λ rn j,
    e ← row.[j];
    rn ← MakeEnd rn (Str e);
    Ret (Connect rn (Str e) (Int j))) (ct_net cfg) (seqZ 0 (ct_n cfg));
  Ret (ct_with_net cfg rn).

Definition ct_StartServer (draw : Z → string) (w : world) (i : Z) : result world :=
  let cfg := cw_cfg w in
  blank ← go_make (ct_n cfg) "";
  row ← foldM (λ row j, row.[j <- draw j]) blank (seqZ 0 (ct_n cfg));
  endnames ← (ct_endnames cfg).[i <- Some row];
  cfg ← ct_row_ends (ct_with_endnames cfg endnames) row;
  w ← ct_save true (cw_with_cfg w cfg) i;
  sv ← (ct_saved (cw_cfg w)).[i];
  p ← nonnil sv;
  '(sc, h, s) ← ct_Start svc row i p (cw_heap w) (cw_impl w);
  servers ← (ct_servers (cw_cfg w)).[i <- Some sc];
  let cfg := ct_with_servers (cw_cfg w) servers in
  let srv := fresh (dom (cw_srvs w)) in
  Ret (mkCtWorld (ct_with_net cfg (AddServer (ct_net cfg) (Int i) srv)) h (<[srv := sc]> (cw_srvs w)) s).

(** [servers[i].rf] dereferences a nil server. *)
Fixpoint ct_find_leader (w : world) (servers : list Z) : result (bool * Z * world) :=
  match servers with
  | [] => Ret (false, 0, w)
  | i :: servers =>
      sc ← (ct_servers (cw_cfg w)).[i];
      sc ← nonnil sc;
      '(_, is_leader, s) ← ct_GetState svc sc (cw_impl w);
      let w := mkCtWorld (cw_cfg w) (cw_heap w) (cw_srvs w) s in
      if is_leader : bool then Ret (true, i, w) else ct_find_leader w servers
  end.
Definition ct_Leader (w : world) : result (bool * Z * world) := ct_find_leader w (seqZ 0 (ct_n (cw_cfg w))).

(** The body of the loop of [make_partition], for the leader [l]. *)
Definition ct_place (l : Z) (s : list Z * list Z * Z) (i : Z) : result (list Z * list Z * Z) :=
  let '(p1, p2, j) := s in
  if decide (i = l) then Ret s else
  let len := Z.of_nat (length p1) in
  '(p1, p2) ← (if decide (j < len) then p1 ← p1.[j <- i]; Ret (p1, p2)
               else p2 ← p2.[j - len <- i]; Ret (p1, p2));
  Ret (p1, p2, j + 1).

Definition ct_make_partition (w : world) : result (list Z * list Z * world) :=
  '(_, l, w) ← ct_Leader w;
  let n := ct_n (cw_cfg w) in
  p1 ← go_make (Z.quot n 2 + 1) 0;
  p2 ← go_make (Z.quot n 2) 0;
  '(p1, p2, _) ← foldM (ct_place l) (p1, p2, 0) (seqZ 0 n);
  p2 ← p2.[Z.of_nat (length p2) - 1 <- l];
  Ret (p1, p2, w).

(** ** The life of a test *)

Definition ct_make_config (draws : Z → Z → string) (n : Z) (unreliable : bool) (now : Z) (s : S) : result world :=
  servers ← go_make n None;
  saved ← go_make n None;
  endnames ← go_make n None;
  let cfg := mkCtConfig MakeNetwork n servers saved endnames ∅ (int64 (n + 1000)) now in
  w ← foldM (λ w i, ct_StartServer (draws i) w i) (mkCtWorld cfg (mkHeap [] ∅) ∅ s) (seqZ 0 n);
  cfg ← ct_ConnectAll (cw_cfg w);
  Ret (cw_with_cfg w (ct_with_net cfg (Reliable (ct_net cfg) (negb unreliable)))).

Definition ct_checkTimeout (cfg : ctconfig) (failed : bool) (now : Z) : result unit :=
  if decide (failed = false ∧ now - ct_start cfg > 120 * Second)
  then Panic (Fatal "test took longer than 120 seconds") else Ret ().

Definition ct_cleanup (w : world) (failed : bool) (now : Z) : result world :=
  w ← foldM (λ w i,
    sc ← (ct_servers (cw_cfg w)).[i];
    match sc with
    | Some sc => '(h, s) ← ct_Kill svc sc (cw_heap w) (cw_impl w); Ret (mkCtWorld (cw_cfg w) h (cw_srvs w) s)
    | None => Ret w
    end) w (seqZ 0 (Z.of_nat (length (ct_servers (cw_cfg w)))));
  rn ← Cleanup (ct_net (cw_cfg w));
  ct_checkTimeout (cw_cfg w) failed now ≫= λ _, Ret (cw_with_cfg w (ct_with_net (cw_cfg w) rn)).

(** The largest log of the saved persisters. *)
Definition ct_LogSize (w : world) : result Z :=
  foldM (λ logsize i,
    sv ← (ct_saved (cw_cfg w)).[i];
    p ← nonnil sv;
    ps ← nonnil (h_ps (cw_heap w) !! p);
    let n := RaftStateSize (h_mem (cw_heap w)) ps in
    Ret (if decide (n > logsize) then n else logsize)) 0 (seqZ 0 (ct_n (cw_cfg w))).
End service.

(** The controllers as the lab hands them out. *)
Definition ctrler_skeleton : CtrlerOps shardpeers := {|
  ct_Start := ctrler_StartServer;
  ct_Kill sc h s := s ← ShardCtrler_Kill sc s; Ret (h, s);
  ct_GetState sc s :=
    rf ← ShardCtrler_Raft sc s;
    '(t, l, rafts) ← GetState (Some rf) (sp_rafts s);
    Ret (t, l, mkShardPeers (sp_ctrlers s) (sp_servers s) rafts)
|}.
