(* ===== verification/CtrlerSim.v ===== *)
(** The harness of the shard controller does what the harness of the key/value
    service does: a simulation that keeps every field the two share, through
    every operation, panics included. *)
From Stdlib Require Import ZArith Lia.
From stdpp Require Import base gmap sets list strings.
From S2P Require Import Prelude Labrpc Persister Iface RaftConfig Raft RaftNet KvConfig KvHarness ShardConfig CtrlerConfig.

Definition as_kv (c : ctconfig) : kvconfig :=
  mkKvConfig (ct_net c) (ct_n c) (ct_servers c) (ct_saved c) (ct_endnames c) (ct_clerks c) (ct_nextClientId c)
    0 (ct_start c) 0 0 0.

(** Controllers as a service that ignores [maxraftstate]. *)
Definition as_service {S} (svc : CtrlerOps S) : ServiceOps S := {|
  svc_Start row i p _ h s := ct_Start svc row i p h s;
  svc_Kill := ct_Kill svc;
  svc_GetState := ct_GetState svc
|}.

Definition as_kw {S} (w : ctworld S) : kvworld S := mkKvWorld (as_kv (cw_cfg w)) (cw_heap w) (cw_srvs w) (cw_impl w).

(** ** Simulations through binds and loops *)

Lemma sim_bind {A B C} (h : B → C) (m m' : result A) (f : A → result B) (f' : A → result C) :
  m' = m → (∀ x, f' x = h <$> f x) → m' ≫= f' = h <$> (m ≫= f).
Proof. intros -> Hf. destruct m; [apply Hf|done..]. Qed.

Lemma sim_step {A A' B C} (k : A → A') (h : B → C) (m : result A) m' (f : A → result B) (f' : A' → result C) :
  m' = k <$> m → (∀ x, f' (k x) = h <$> f x) → m' ≫= f' = h <$> (m ≫= f).
Proof. intros -> Hf. destruct m; [apply Hf|done..]. Qed.

Lemma sim_foldM {A A' B} (k : A → A') (f : A → B → result A) g l a :
  (∀ a b, g (k a) b = k <$> f a b) → foldM g (k a) l = k <$> foldM f a l.
Proof.
  intros Hfg. revert a. induction l as [|b l IH]; intros a; [done|]. cbn [foldM].
  eapply sim_step; [apply Hfg|exact IH].
Qed.

(** Both sides do the same next. *)
Ltac sim := repeat
  match goal with
  | |- ?m ≫= _ = _ <$> (?m' ≫= _) => refine (sim_bind _ _ _ _ _ eq_refl _); intros ?; cbv beta zeta
  end.

(** ** Operations on the network *)

Lemma connectUnlocked_sim cfg i to : connectUnlocked (as_kv cfg) i to = as_kv <$> ct_connectUnlocked cfg i to.
Proof. unfold connectUnlocked, ct_connectUnlocked. sim. done. Qed.

Lemma disconnectUnlocked_sim cfg i from :
  disconnectUnlocked (as_kv cfg) i from = as_kv <$> ct_disconnectUnlocked cfg i from.
Proof. unfold disconnectUnlocked, ct_disconnectUnlocked. sim. done. Qed.

Lemma ConnectAll_sim cfg : ConnectAll (as_kv cfg) = as_kv <$> ct_ConnectAll cfg.
Proof. apply sim_foldM. intros c i. sim. apply connectUnlocked_sim. Qed.

Lemma partition_side_sim cfg side others :
  partition_side (as_kv cfg) side others = as_kv <$> ct_partition_side cfg side others.
Proof.
  apply sim_foldM. intros c i. sim. eapply sim_step; [apply disconnectUnlocked_sim|]. intros. apply connectUnlocked_sim.
Qed.

Lemma partition_sim cfg p1 p2 : partition (as_kv cfg) p1 p2 = as_kv <$> ct_partition cfg p1 p2.
Proof. eapply sim_step; [apply partition_side_sim|]. intros. apply partition_side_sim. Qed.

Lemma ConnectClient_sim cfg ck to : ConnectClient (as_kv cfg) ck to = as_kv <$> ct_ConnectClient cfg ck to.
Proof. unfold ConnectClient, ConnectClientUnlocked, client_loop, ct_ConnectClient, ct_ConnectClientUnlocked. sim. done. Qed.

Lemma DisconnectClient_sim cfg ck from : DisconnectClient (as_kv cfg) ck from = as_kv <$> ct_DisconnectClient cfg ck from.
Proof.
  unfold DisconnectClient, DisconnectClientUnlocked, client_loop, ct_DisconnectClient, ct_DisconnectClientUnlocked. sim. done.
Qed.

(** Drawing all names first, or making each end as its name is drawn. *)
Definition open_end (draw : Z → string) (rn : net) (j : Z) : result net :=
  rn ← MakeEnd rn (Str (draw j)); Ret (Connect rn (Str (draw j)) (Int j)).

Definition filled (draw : Z → string) (row : list string) (js : list Z) : list string :=
  foldl (λ row j, <[Z.to_nat j := draw j]> row) row js.

Lemma fill_total draw row js :
  (∀ j, j ∈ js → 0 ≤ j < Z.of_nat (length row)) → foldM (λ row j, row.[j <- draw j]) row js = Ret (filled draw row js).
Proof.
  revert row. induction js as [|j js IH]; intros row Hjs; [done|]. cbn [foldM].
  rewrite go_update_ret by (apply Hjs; by left). apply IH. intros. rewrite length_insert. apply Hjs. by right.
Qed.

Lemma fused_draws draw row rn js :
  (∀ j, j ∈ js → 0 ≤ j < Z.of_nat (length row)) →
  foldM (λ '(row, rn) j, row ← row.[j <- draw j]; e ← row.[j]; rn ← MakeEnd rn (Str e); Ret (row, Connect rn (Str e) (Int j)))
    (row, rn) js = (filled draw row js,.) <$> foldM (open_end draw) rn js.
Proof.
  revert row rn. induction js as [|j js IH]; intros row rn Hjs; [done|]. cbn [foldM].
  assert (0 ≤ j < Z.of_nat (length row)) as Hj by (apply Hjs; by left).
  pose proof (go_update_ret row j (draw j) Hj) as Hupd. rewrite Hupd. cbn [mbind result_bind].
  rewrite (go_index_update _ _ _ _ j Hupd), decide_True by done. cbn [mbind result_bind]. change (open_end draw rn j) with (rn ← MakeEnd rn (Str (draw j)); Ret (Connect rn (Str (draw j)) (Int j))).
  destruct (MakeEnd rn (Str (draw j))); [|done..]. cbn [mbind result_bind].
  apply IH. intros. rewrite length_insert. apply Hjs. by right.
Qed.

(** Ends for a row that was drawn. *)
Lemma row_ends_draws draw cfg row :
  (∀ j, 0 ≤ j < kv_n cfg → row.[j] = Ret (draw j)) →
  row_ends cfg row = kv_with_net cfg <$> foldM (open_end draw) (kv_net cfg) (seqZ 0 (kv_n cfg)).
Proof.
  intros Hrow. unfold row_ends. rewrite (foldM_ext _ (open_end draw)); [by destruct (foldM _ _ _)|].
  intros rn j Hj%elem_of_seqZ. rewrite Hrow by lia. done.
Qed.

Lemma row_ends_sim cfg row : row_ends (as_kv cfg) row = as_kv <$> ct_row_ends cfg row.
Proof. unfold row_ends, ct_row_ends. sim. done. Qed.

Lemma makeClient_sim draw shuffle cfg to :
  makeClient draw shuffle (as_kv cfg) to = (λ '(c, ck, hs), (as_kv c, ck, hs)) <$> ct_makeClient draw shuffle cfg to.
Proof.
  unfold makeClient, ct_makeClient, new_row. simpl kv_n.
  destruct (go_make (ct_n cfg) "") as [blank| |] eqn:Eb; [|done..]. cbn [mbind result_bind]. apply go_make_ret in Eb as ->.
  assert (∀ j, j ∈ seqZ 0 (ct_n cfg) → 0 ≤ j < Z.of_nat (length (replicate (Z.to_nat (ct_n cfg)) ""))) as Hjs.
  { intros j Hj%elem_of_seqZ. rewrite length_replicate. lia. }
  rewrite fused_draws by exact Hjs. pose proof (fill_total draw _ _ Hjs) as Hfill. rewrite Hfill. cbn [mbind result_bind].
  apply fill_row in Hfill as [_ Hrow]. rewrite (row_ends_draws draw) by exact Hrow. simpl kv_n. simpl kv_net.
  destruct (foldM (open_end draw) _ _) as [rn| |]; [|done..]. cbn [mbind result_bind fmap result_fmap].
  sim. eapply sim_step; [refine (ConnectClient_sim (ct_with_clerks (ct_with_net cfg rn) _ _) _ to)|]. done.
Qed.

(** ** Operations on the servers *)

Section service.
Context {S : Type} (svc : CtrlerOps S).
Abbreviation world := (ctworld S).
Abbreviation ksvc := (as_service svc).

Lemma save_sim (w : world) i : kv_copy_saved (as_kw w) i = as_kw <$> ct_save false w i.
Proof.
  unfold kv_copy_saved, ct_save. sim. destruct x as [p|]; [|done]. sim.
  destruct (alloc _ _) as [q h]. sim. done.
Qed.

Lemma ShutdownServer_sim w i : ShutdownServer ksvc (as_kw w) i = as_kw <$> ct_ShutdownServer svc w i.
Proof.
  unfold ShutdownServer, ct_ShutdownServer. sim.
  eapply sim_step; [apply disconnectUnlocked_sim|]. intros cfg. cbv zeta.
  eapply (sim_step as_kw); [exact (save_sim (cw_with_cfg w (ct_with_net cfg (DeleteServer (ct_net cfg) (Int i)))) i)|]. intros w'. sim.
  destruct x0 as [kv|]; [|done]. sim. destruct x0 as [h s]. sim. done.
Qed.

(** [StartServer]'s persister, and whatever [f] does with it. *)
Lemma save_new_sim {A B} (h : A → B) (w : world) i f f' :
  (∀ w, f' (as_kw w) = h <$> f w) →
  (sv ← (kv_saved (kw_cfg (as_kw w))).[i];
   match sv with
   | Some _ => kv_copy_saved (as_kw w) i
   | None =>
       let '(q, h) := alloc (kw_heap (as_kw w)) MakePersister in
       saved ← (kv_saved (kw_cfg (as_kw w))).[i <- Some q];
       Ret (mkKvWorld (kv_with_saved (kw_cfg (as_kw w)) saved) h (kw_srvs (as_kw w)) (kw_impl (as_kw w)))
   end ≫= f') = h <$> (ct_save true w i ≫= f).
Proof.
  intros Hf. unfold ct_save. pose proof (save_sim w i) as Hs. unfold ct_save in Hs.
  change (kv_saved (kw_cfg (as_kw w))) with (ct_saved (cw_cfg w)).
  destruct ((ct_saved (cw_cfg w)).[i]) as [[p|]| |] eqn:Es; cbn [mbind result_bind] in *; [|..|done];
    [eapply sim_step; [exact Hs|exact Hf]| |done].
  eapply (sim_step as_kw); [|exact Hf]. destruct (alloc _ _) as [q h']. sim. done.
Qed.

Lemma StartServer_sim draw w i : StartServer ksvc draw (as_kw w) i = as_kw <$> ct_StartServer svc draw w i.
Proof.
  unfold StartServer, ct_StartServer, new_row. cbv zeta. simpl kw_cfg. simpl kv_n.
  destruct (go_make (ct_n (cw_cfg w)) "") as [blank| |]; [|done..]. cbn [mbind result_bind].
  destruct (foldM _ blank _) as [row| |]; [|done..]. cbn [mbind result_bind]. sim.
  eapply (sim_step as_kv); [exact (row_ends_sim (ct_with_endnames (cw_cfg w) x) row)|]. intros cfg.
  refine (save_new_sim as_kw (cw_with_cfg w cfg) i _ _ _). clear w. intros w. sim.
  destruct x2 as [[sc h] s]. sim. done.
Qed.

Lemma ConfigStart_sim draws w js :
  foldM (λ w i, StartServer ksvc (draws i) w i) (as_kw w) js = as_kw <$> foldM (λ w i, ct_StartServer svc (draws i) w i) w js.
Proof. apply sim_foldM. intros. apply StartServer_sim. Qed.

Lemma make_config_sim draws n unreliable now s :
  kv_make_config ksvc draws n unreliable 0 now s = as_kw <$> ct_make_config svc draws n unreliable now s.
Proof.
  unfold kv_make_config, ct_make_config. sim.
  match goal with |- _ = _ <$> (foldM _ ?w0 _ ≫= _) => eapply (sim_step as_kw); [exact (ConfigStart_sim draws w0 _)|] end.
  intros w.
  eapply sim_step; [apply ConnectAll_sim|]. done.
Qed.

(** ** Questions *)

Definition with_kw {A} (r : A * world) : A * kvworld S := (r.1, as_kw r.2).

Lemma Leader_sim w : Leader ksvc (as_kw w) = with_kw <$> ct_Leader svc w.
Proof.
  unfold Leader, ct_Leader. simpl kv_n. generalize (seqZ 0 (ct_n (cw_cfg w))). intros js. revert w.
  induction js as [|j js IH]; intros w; [done|]. cbn [find_leader ct_find_leader]. sim. destruct x1 as [[t []] s]; [done|].
  exact (IH (mkCtWorld (cw_cfg w) (cw_heap w) (cw_srvs w) s)).
Qed.

Lemma place_same l s i : place_server l s i = ct_place l s i.
Proof.
  destruct s as [[p1 p2] j]. unfold place_server, ct_place. repeat case_decide; try done.
  - by destruct (p1.[j <- i]).
  - by destruct (p2.[j - Z.of_nat (length p1) <- i]).
Qed.

Lemma make_partition_sim w : make_partition ksvc (as_kw w) = with_kw <$> ct_make_partition svc w.
Proof.
  unfold make_partition, ct_make_partition. eapply sim_step; [apply Leader_sim|]. intros [[found l] w']. unfold split_servers.
  cbn [with_kw as_kw as_kv kw_cfg kv_n fst snd]. cbv zeta. destruct (go_make (_ + 1) 0) as [p1| |]; [|done..]. cbn [mbind result_bind].
  destruct (go_make _ 0) as [p2| |]; [|done..]. cbn [mbind result_bind].
  rewrite (foldM_ext (place_server l) (ct_place l)) by (intros; apply place_same).
  destruct (foldM _ _ _) as [[[q1 q2] j]| |]; [|done..]. cbn [mbind result_bind].
  by destruct (q2.[_ <- l]).
Qed.

Lemma LogSize_sim (w : world) : kv_LogSize (as_kw w) = ct_LogSize w.
Proof. done. Qed.

Lemma cleanup_sim w failed now : kv_cleanup ksvc (as_kw w) failed now = as_kw <$> ct_cleanup svc w failed now.
Proof.
  unfold kv_cleanup, ct_cleanup. eapply sim_step.
  { apply sim_foldM. intros w' i. sim. destruct x as [sc|]; [|done]. sim. by destruct x as [h s]. }
  intros w'. sim. by destruct (ct_checkTimeout (cw_cfg w') failed now) eqn:E; unfold kv_checkTimeout, ct_checkTimeout in *; case_decide.
Qed.

(** ** Runs *)

(** One operation of a test, as [kv_step] is one of the other harness. *)
Definition ct_step (w : world) (o : kv_op) : result world :=
  match o with
  | KvConnectAll => cw_with_cfg w <$> ct_ConnectAll (cw_cfg w)
  | KvConnect i to => cw_with_cfg w <$> ct_connect (cw_cfg w) i to
  | KvDisconnect i from => cw_with_cfg w <$> ct_disconnect (cw_cfg w) i from
  | KvPartition p1 p2 => cw_with_cfg w <$> ct_partition (cw_cfg w) p1 p2
  | KvMakeClient draw shuffle to =>
      '(cfg, _, _) ← ct_makeClient draw shuffle (cw_cfg w) to; Ret (cw_with_cfg w cfg)
  | KvDeleteClient ck => Ret (cw_with_cfg w (ct_deleteClient (cw_cfg w) ck))
  | KvConnectClient ck to => cw_with_cfg w <$> ct_ConnectClient (cw_cfg w) ck to
  | KvDisconnectClient ck from => cw_with_cfg w <$> ct_DisconnectClient (cw_cfg w) ck from
  | KvShutdown i => ct_ShutdownServer svc w i
  | KvStart draw i => ct_StartServer svc draw w i
  end.

Lemma cfg_sim (w : world) (m : result ctconfig) m' : m' = as_kv <$> m → kw_with_cfg (as_kw w) <$> m' = as_kw <$> (cw_with_cfg w <$> m).
Proof. intros ->. by destruct m. Qed.

Lemma step_sim w o : kv_step ksvc (as_kw w) o = as_kw <$> ct_step w o.
Proof.
  destruct o; simpl;
    eauto using cfg_sim, ConnectAll_sim, connectUnlocked_sim, disconnectUnlocked_sim, partition_sim,
      ConnectClient_sim, DisconnectClient_sim, ShutdownServer_sim, StartServer_sim.
  rewrite makeClient_sim. by destruct (ct_makeClient _ _ _ _) as [[[cfg ck] hs]| |].
Qed.

Definition kv_run draws n unreliable now s ops : result (kvworld S) :=
  w ← kv_make_config ksvc draws n unreliable 0 now s; foldM (kv_step ksvc) w ops.
Definition ct_run draws n unreliable now s ops : result world :=
  w ← ct_make_config svc draws n unreliable now s; foldM ct_step w ops.

(** C37: the harness of the shard controller is the harness of the key/value
    service: for any controllers and any test, [make_config] followed by any
    operations returns the same state (or the same panic) in both, and in
    every state so do [makeClient], [Leader], [make_partition], [LogSize],
    [checkTimeout] and [cleanup]. What KvPartition.v proves of one therefore
    holds of the other. *)
Theorem controller_harness_refines draws n unreliable now s ops :
  kv_run draws n unreliable now s ops = as_kw <$> ct_run draws n unreliable now s ops ∧
  ∀ w : world,
    (∀ draw shuffle to, makeClient draw shuffle (kw_cfg (as_kw w)) to =
       (λ '(c, ck, hs), (as_kv c, ck, hs)) <$> ct_makeClient draw shuffle (cw_cfg w) to) ∧
    Leader ksvc (as_kw w) = with_kw <$> ct_Leader svc w ∧
    make_partition ksvc (as_kw w) = with_kw <$> ct_make_partition svc w ∧
    kv_LogSize (as_kw w) = ct_LogSize w ∧
    ∀ failed later,
      kv_checkTimeout (kw_cfg (as_kw w)) failed later = ct_checkTimeout (cw_cfg w) failed later ∧
      kv_cleanup ksvc (as_kw w) failed later = as_kw <$> ct_cleanup svc w failed later.
Proof.
  split; [eapply sim_step; [apply make_config_sim|]; intros; apply sim_foldM, step_sim|].
  intros w. split_and!; [intros; apply makeClient_sim|apply Leader_sim|apply make_partition_sim|done|].
  intros failed later. split; [done|apply cleanup_sim].
Qed.
End service.
