(* ===== verification/ShardNet.v ===== *)
(** The network under the harness of the sharded service: which ends each
    group server has, to whom they lead, when they are enabled, and which
    instance answers under which name. *)
From Stdlib Require Import ZArith Lia Ascii.
From stdpp Require Import base gmap sets list strings pretty.
From S2P Require Import Prelude Labrpc Persister Iface Tables Raft RaftConfig RaftNet Clerks KvConfig ShardConfig.

(** ** Names *)

Fixpoint no_dash (s : string) : Prop :=
  match s with EmptyString => True | String c s => c ≠ "-"%char ∧ no_dash s end.

Lemma no_dash_pretty_N_go x s : no_dash s → no_dash (pretty_N_go x s).
Proof.
  revert s. induction (N.lt_wf_0 x) as [x _ IH]; intros s Hs.
  assert (x = 0 ∨ 0 < x)%N as [->|Hx] by lia; [by rewrite pretty_N_go_0|].
  rewrite pretty_N_go_step by done. apply IH; [by apply N.div_lt|].
  split; [|done]. unfold pretty_N_char. by repeat case_match.
Qed.

Lemma no_dash_pretty z : 0 ≤ z → no_dash (pretty z).
Proof.
  intros Hz. destruct z as [|p|p]; [by vm_compute|..|lia].
  change (no_dash (pretty_N_go (N.pos p) "")). by apply no_dash_pretty_N_go.
Qed.

Lemma dash_inj s t u v : no_dash s → no_dash u → s +:+ "-" +:+ t = u +:+ "-" +:+ v → s = u ∧ t = v.
Proof.
  revert u. induction s as [|c s IH]; intros [|d u] Hs Hu E.
  - split; [done|]. by injection E.
  - destruct Hu as [Hd _]. injection E as <- _. done.
  - destruct Hs as [Hc _]. injection E as -> _. done.
  - destruct Hs as [_ Hs], Hu as [_ Hu]. injection E as -> E. by destruct (IH u Hs Hu E) as [-> ->].
Qed.

Lemma servername_inj g i g' i' : 0 ≤ g → 0 ≤ g' → servername g i = servername g' i' → g = g' ∧ i = i'.
Proof.
  unfold servername. intros Hg Hg' E. apply (inj (String.app "server-")) in E.
  apply dash_inj in E as [Eg Ei]; [|by apply no_dash_pretty..].
  split; by apply (inj pretty).
Qed.

Lemma ctrlername_inj i i' : ctrlername i = ctrlername i' → i = i'.
Proof. unfold ctrlername. intros E. apply (inj (String.app "ctrler")) in E. by apply (inj pretty). Qed.

Lemma servername_ctrlername g i j : servername g i ≠ ctrlername j.
Proof. unfold servername, ctrlername. simpl. discriminate. Qed.

(** ** The invariant *)

(** The rows of ends of server [i] of group [gi]: to its peers and to the controllers. *)
Inductive row_id := Peers (gi i : Z) | Ctls (gi i : Z).
#[export] Instance row_id_eq_dec : EqDecision row_id.
Proof. solve_decision. Defined.

Definition owner_of (r : row_id) : Z * Z := match r with Peers gi i | Ctls gi i => (gi, i) end.
Definition target (r : row_id) (j : Z) : iface :=
  Str (match r with Peers gi _ => servername (100 + gi) j | Ctls _ _ => ctrlername j end).

Definition row_of (cfg : sconfig) (r : row_id) : result (list string) :=
  match r with
  | Peers gi i => gg ← the_group cfg gi; (g_endnames gg).[i]
  | Ctls gi i => gg ← the_group cfg gi; (g_mendnames gg).[i]
  end.
Definition shard_end (cfg : sconfig) (r : row_id) (j : Z) : result string := row ← row_of cfg r; row.[j].

(** The instance that runs as server [i] of group [gi]. *)
Definition current (cfg : sconfig) (gi i : Z) : option kvid :=
  match the_group cfg gi with
  | Ret gg => match (g_servers gg).[i] with Ret kv => kv | _ => None end
  | _ => None
  end.
Definition running (cfg : sconfig) (r : row_id) : Prop := is_Some (current cfg (owner_of r).1 (owner_of r).2).

(** The groups' numbers and the sizes of their slices. *)
Definition fits (cfg : sconfig) : Prop :=
  ∀ gi gg, the_group cfg gi = Ret gg →
    gid gg = 100 + gi ∧ length (g_servers gg) = Z.to_nat (sh_n cfg) ∧
    (∀ i row, (g_endnames gg).[i] = Ret row → (length row ≤ Z.to_nat (sh_n cfg))%nat) ∧
    length (g_mendnames gg) = Z.to_nat (sh_nctrlers cfg).

Section services.
Context {S : Type} (ops : ShardOps S).
Abbreviation world := (sworld S).

Record sh_wired (w : world) : Prop := {
  sw_fits : fits (sw_cfg w);
  sw_full gi i : is_Some (current (sw_cfg w) gi i) →
    (∀ j, 0 ≤ j < sh_n (sw_cfg w) → ∃ e, shard_end (sw_cfg w) (Peers gi i) j = Ret e) ∧
    (∀ j, 0 ≤ j < sh_nctrlers (sw_cfg w) → ∃ e, shard_end (sw_cfg w) (Ctls gi i) j = Ret e);
  sw_table : table target (shard_end (sw_cfg w)) (sh_net (sw_cfg w));
  sw_enabled r j e : shard_end (sw_cfg w) r j = Ret e →
    is_enabled (sh_net (sw_cfg w)) (Str e) = true ↔ running (sw_cfg w) r;
  sw_routed gi i : 0 ≤ gi →
    match current (sw_cfg w) gi i with
    | Some kv => ∃ p, registered (sh_net (sw_cfg w)) (Str (servername (100 + gi) i)) = Some p ∧
                      sw_srvs w !! p = Some (inl kv)
    | None => registered (sh_net (sw_cfg w)) (Str (servername (100 + gi) i)) = None
    end;
  sw_ctrlers i sc : (sh_ctrlerservers (sw_cfg w)).[i] = Ret (Some sc) →
    ∃ p, registered (sh_net (sw_cfg w)) (Str (ctrlername i)) = Some p ∧ sw_srvs w !! p = Some (inr sc)
}.

(** ** Groups *)

Lemma the_group_ret cfg gi gg : the_group cfg gi = Ret gg ↔ (sh_groups cfg).[gi] = Ret (Some gg).
Proof.
  unfold the_group. destruct ((sh_groups cfg).[gi]) as [[g|]| |]; simpl; split; intros E; simplify_eq; done.
Qed.

Lemma the_group_range cfg gi gg : the_group cfg gi = Ret gg → 0 ≤ gi.
Proof. intros [? _]%the_group_ret%go_index_ret. done. Qed.

Lemma put_group_ret cfg gi gg cfg' :
  put_group cfg gi gg = Ret cfg' →
  ∃ groups, cfg' = sh_with_groups cfg groups ∧
    ∀ g, the_group cfg' g = if decide (gi = g) then Ret gg else the_group cfg g.
Proof.
  unfold put_group. intros Hr. inv_ret. exists x. split; [done|]. intros g. subst cfg'. unfold the_group. simpl.
  rewrite (go_index_update _ _ _ _ g E). by case_decide.
Qed.

(** No group goes. *)
Definition groups_kept (cfg cfg' : sconfig) : Prop :=
  ∀ g gg, the_group cfg g = Ret gg → ∃ gg', the_group cfg' g = Ret gg'.

#[export] Instance groups_kept_preorder : PreOrder groups_kept.
Proof. split; [by eexists|]. intros a b c H1 H2 g gg E. destruct (H1 _ _ E) as [gg' E']. by eapply H2. Qed.

Lemma put_groups_kept cfg gi gg cfg' : put_group cfg gi gg = Ret cfg' → groups_kept cfg cfg'.
Proof. intros (groups & _ & Hg)%put_group_ret g gg' E. rewrite Hg. case_decide; eauto. Qed.

(** All of a group but its persisters. *)
Definition view (gg : group) := (gid gg, g_servers gg, g_endnames gg, g_mendnames gg).

Definition same_views (cfg cfg' : sconfig) : Prop :=
  (∃ groups, cfg' = sh_with_groups cfg groups) ∧ ∀ g, view <$> the_group cfg' g = view <$> the_group cfg g.

#[export] Instance same_views_preorder : PreOrder same_views.
Proof.
  split.
  - intros cfg. split; [|done]. exists (sh_groups cfg). by destruct cfg.
  - intros a b c [[g1 ->] H1] [[g2 ->] H2]. split; [by exists g2|]. intros g. by rewrite H2, H1.
Qed.

Lemma same_view cfg cfg' g : view <$> the_group cfg' g = view <$> the_group cfg g →
  match the_group cfg g, the_group cfg' g with
  | Ret gg, Ret gg' => view gg' = view gg
  | Ret _, _ | _, Ret _ => False
  | _, _ => True
  end.
Proof. destruct (the_group cfg g), (the_group cfg' g); intros E; try done.
  change (Ret (view a0) = Ret (view a)) in E. congruence.
Qed.

Lemma same_views_kept cfg cfg' : same_views cfg cfg' → groups_kept cfg cfg'.
Proof.
  intros [_ Hv] g gg E. pose proof (same_view _ _ _ (Hv g)) as H. rewrite E in H.
  destruct (the_group cfg' g); [eauto|done..].
Qed.

Lemma same_views_spec cfg cfg' : same_views cfg cfg' →
  (∀ r j e, shard_end cfg' r j = Ret e ↔ shard_end cfg r j = Ret e) ∧ (∀ gi i, current cfg' gi i = current cfg gi i) ∧
  (fits cfg → fits cfg').
Proof.
  intros [[groups ->] Hv]. set (cfg' := sh_with_groups cfg groups) in *.
  assert (∀ g, match the_group cfg g, the_group cfg' g with
    | Ret gg, Ret gg' => view gg' = view gg | Ret _, _ | _, Ret _ => False | _, _ => True end) as Hg
    by (intros g; by apply same_view). clear Hv.
  split_and!.
  - intros [gi i|gi i] j e; unfold shard_end, row_of; specialize (Hg gi);
      destruct (the_group cfg gi) as [gg| |], (the_group cfg' gi) as [gg'| |]; simpl; try done;
      unfold view in Hg; injection Hg as _ _ Ee Em; by rewrite ?Ee, ?Em.
  - intros gi i. unfold current. specialize (Hg gi).
    destruct (the_group cfg gi) as [gg| |], (the_group cfg' gi) as [gg'| |]; try done.
    unfold view in Hg. injection Hg as _ Es _ _. by rewrite Es.
  - intros Hf gi gg' Egg'. specialize (Hg gi). rewrite Egg' in Hg.
    destruct (the_group cfg gi) as [gg| |] eqn:Egg; [|done..].
    unfold view in Hg. injection Hg as Eg Es Ee Em. destruct (Hf _ _ Egg) as (? & ? & ? & ?).
    unfold cfg'. simpl. rewrite Eg, Es, Ee, Em. done.
Qed.

Lemma sh_save_ret make (w w' : world) gi i :
  sh_save make w gi i = Ret w' → same_views (sw_cfg w) (sw_cfg w') ∧ sw_srvs w' = sw_srvs w.
Proof.
  unfold sh_save. intros Hr. inv_ret. rename E into Egg. 
  assert (∀ saved cfg', put_group (sw_cfg w) gi (g_with_saved x saved) = Ret cfg' → same_views (sw_cfg w) cfg') as Hput.
  { intros saved cfg' (groups & -> & Hg)%put_group_ret. split; [by eexists|]. intros g. rewrite Hg.
    case_decide; [subst; by rewrite Egg|done]. }
  destruct x0 as [p|]; [|destruct make]; simpl in Hr; inv_ret; subst; simpl; [split; [by eapply Hput|done]..|done].
Qed.

(** [gg.servers[i] = kv] *)
Lemma set_server cfg gi gg i kv servers cfg' :
  the_group cfg gi = Ret gg → (g_servers gg).[i <- kv] = Ret servers →
  put_group cfg gi (g_with_servers gg servers) = Ret cfg' →
  (∃ groups, cfg' = sh_with_groups cfg groups) ∧ (∀ r, row_of cfg' r = row_of cfg r) ∧
  (∀ g k, current cfg' g k = if decide (g = gi ∧ k = i) then kv else current cfg g k) ∧ (fits cfg → fits cfg').
Proof.
  intros Egg Hupd (groups & -> & Hg)%put_group_ret. split_and!; [by eexists|..].
  - intros [g k|g k]; unfold row_of; rewrite Hg; (case_decide; [subst; by rewrite Egg|done]).
  - intros g k. unfold current. rewrite Hg. case_decide as E.
    + subst g. rewrite Egg. simpl. rewrite (go_index_update _ _ _ _ k Hupd).
      destruct (decide (i = k)) as [->|]; [by rewrite decide_True|]. rewrite decide_False; [done|naive_solver].
    + rewrite decide_False; [done|naive_solver].
  - intros Hf g gg'. rewrite Hg. case_decide as E; [|apply Hf]. subst g. intros [= <-].
    destruct (Hf _ _ Egg) as (? & ? & ? & ?). split_and!; [done| |done..]. simpl. by rewrite (go_update_length _ _ _ _ Hupd).
Qed.

Lemma row_of_group cfg gi gg i : the_group cfg gi = Ret gg →
  row_of cfg (Peers gi i) = (g_endnames gg).[i] ∧ row_of cfg (Ctls gi i) = (g_mendnames gg).[i].
Proof. intros E. unfold row_of. by rewrite E. Qed.

(** Server [i] of group [gi] is gone, and its ends with it. *)
Lemma wired_down (w w' : world) gi i rn groups :
  sh_wired w → 0 ≤ gi →
  enables (sh_net (sw_cfg w)) rn (λ e, (∃ j, shard_end (sw_cfg w) (Peers gi i) j = Ret e) ∨
                                       (∃ j, shard_end (sw_cfg w) (Ctls gi i) j = Ret e)) false →
  sw_cfg w' = sh_with_groups (sh_with_net (sw_cfg w) (DeleteServer rn (Str (servername (100 + gi) i)))) groups →
  sw_srvs w' = sw_srvs w →
  (∀ r j e, shard_end (sw_cfg w') r j = Ret e ↔ shard_end (sw_cfg w) r j = Ret e) →
  (∀ g k, current (sw_cfg w') g k = if decide (g = gi ∧ k = i) then None else current (sw_cfg w) g k) →
  fits (sw_cfg w') → sh_wired w'.
Proof.
  intros [Hf Hfull Ht Hen Hrt Hct] Hgi [He Hw] Ecfg Esrv Hends Hcur Hf'.
  assert (sh_n (sw_cfg w') = sh_n (sw_cfg w) ∧ sh_nctrlers (sw_cfg w') = sh_nctrlers (sw_cfg w) ∧
    sh_ctrlerservers (sw_cfg w') = sh_ctrlerservers (sw_cfg w) ∧
    sh_net (sw_cfg w') = DeleteServer rn (Str (servername (100 + gi) i))) as (En & Ec & Es & Enet) by (by rewrite Ecfg).
  split; [done|..]; rewrite ?En, ?Ec, ?Es, ?Enet, ?Esrv.
  - intros g k. rewrite Hcur. case_decide; [by intros []|]. intros Hup. destruct (Hfull g k Hup) as [H1 H2].
    split; intros j Hj; [destruct (H1 j Hj) as [e ?]|destruct (H2 j Hj) as [e ?]]; exists e; by apply Hends.
  - eapply table_same; [exact Ht|by intros; apply Hends|]. intros e t. by apply (wiring_leads _ rn).
  - intros r j e Hr%Hends. change (is_enabled (DeleteServer rn _) (Str e)) with (is_enabled rn (Str e)).
    rewrite He, (Hen r j e Hr). unfold running. rewrite Hcur.
    assert ((∃ j, shard_end (sw_cfg w) (Peers gi i) j = Ret e) ∨ (∃ j, shard_end (sw_cfg w) (Ctls gi i) j = Ret e) ↔
      owner_of r = (gi, i)) as ->.
    { split.
      - intros [[j' Hj]|[j' Hj]]; by destruct (tb_distinct _ _ _ Ht _ _ _ _ _ Hr Hj) as [-> _].
      - destruct r; intros [= -> ->]; eauto. }
    destruct (owner_of r) as [g k]. simpl. case_decide as Ed.
    + destruct Ed as [-> ->]. split; [by intros [[] _]|by intros []].
    + split; [tauto|]. intros ?. split; [|done]. intros [= -> ->]. tauto.
  - intros g k Hg. rewrite Hcur. unfold DeleteServer. destruct Hw as (_ & Hs & _).
    unfold registered in *. simpl. rewrite lookup_insert. rewrite Hs. case_decide as Ed.
    + destruct Ed as [-> ->]. by rewrite decide_True.
    + rewrite decide_False; [by apply Hrt|]. intros E%(inj Str). apply servername_inj in E; [|lia..].
      apply Ed. lia.
  - intros k sc Hk. destruct Hw as (_ & Hs & _). unfold registered, DeleteServer in *. simpl.
    rewrite lookup_insert_ne; [rewrite Hs; by apply Hct|]. intros E%(inj Str). by apply servername_ctrlername in E.
Qed.

(** The end [e], made with [make_end] for the server called [t]: it is enabled
    and leads there, but stands in no row of the harness. *)
Record spare (cfg : sconfig) (e : string) (t : iface) : Prop := {
  sp_leads : leads (sh_net cfg) e t;
  sp_enabled : is_enabled (sh_net cfg) (Str e) = true;
  sp_untabled r j : shard_end cfg r j ≠ Ret e
}.

Lemma sh_ShutdownServer_wired w gi i w' :
  sh_wired w → sh_ShutdownServer ops w gi i = Ret w' →
  sh_wired w' ∧ (∀ g k, current (sw_cfg w') g k = if decide (g = gi ∧ k = i) then None else current (sw_cfg w) g k) ∧
  (∀ e t, spare (sw_cfg w) e t → spare (sw_cfg w') e t).
Proof.
  intros Hw Hr. unfold sh_ShutdownServer in Hr. inv_ret.
  rename x into gg, x0 into rn1, x1 into mrow, x2 into rn2, x3 into w2, x4 into gg2, x5 into kv.
  rename E into Egg, E0 into Eloop1, E1 into Emrow, E2 into Eloop2, E3 into Esave, E4 into Egg2, E5 into Ekv.
  pose proof (the_group_range _ _ _ Egg) as Hgi. destruct (sw_fits _ Hw _ _ Egg) as (Egid & Elen & Hrows & _).
  destruct (row_of_group _ _ _ i Egg) as [Hrow1 Hrow2].
  apply enable_loop_ret in Eloop1, Eloop2. rewrite Egid in *.
  set (cfg1 := sh_with_net (sw_cfg w) (DeleteServer rn2 (Str (servername (100 + gi) i)))) in *.
  apply sh_save_ret in Esave as [Hv Ev]. simpl in Hv, Ev. destruct (same_views_spec _ _ Hv) as (Hends & Hcur & Hf).
  destruct Hv as [[groups Ecfg2] _].
  assert (enables (sh_net (sw_cfg w)) rn2 (λ e, (∃ j, shard_end (sw_cfg w) (Peers gi i) j = Ret e) ∨
                                       (∃ j, shard_end (sw_cfg w) (Ctls gi i) j = Ret e)) false) as Hoff.
  { eapply enables_iff, enables_two; [|exact Eloop1|exact Eloop2]. intros e. cbv beta. unfold shard_end.
    rewrite Hrow1, Hrow2, Emrow. simpl. apply Morphisms_Prop.or_iff_morphism; split.
    - intros (j & _ & Hj). inv_ret. exists j. rewrite E. by apply some_fmap_ret.
    - intros (j & Hj). inv_ret. pose proof (go_index_lt _ _ _ Hj). pose proof (Hrows _ _ E).
      exists j. split; [apply elem_of_seqZ; lia|]. rewrite E. by apply some_fmap_ret.
    - intros (j & _ & Hj). exists j. by apply some_fmap_ret.
    - intros (j & Hj). pose proof (go_index_lt _ _ _ Hj). exists j. split; [apply elem_of_seqZ; lia|by apply some_fmap_ret]. }
  assert ((∃ groups, sw_cfg w' = sh_with_groups cfg1 groups) ∧ sw_srvs w' = sw_srvs w ∧
    (∀ r j e, shard_end (sw_cfg w') r j = Ret e ↔ shard_end (sw_cfg w) r j = Ret e) ∧
    (∀ g k, current (sw_cfg w') g k = if decide (g = gi ∧ k = i) then None else current (sw_cfg w) g k) ∧
    fits (sw_cfg w')) as ([groups' E'] & Esrv & Hends' & Hcur' & Hf').
  { assert (fits (sw_cfg w2)) as Hf2 by (apply Hf; exact (sw_fits _ Hw)).
    destruct kv as [kv|]; inv_ret.
    - match goal with H : shard_Kill _ _ _ _ = Ret ?p |- _ => destruct p as [h s]; clear H end. inv_ret. subst w'. simpl.
      match goal with H : _.[i <- None] = Ret _, H' : put_group _ _ _ = Ret _ |- _ =>
        destruct (set_server _ _ _ _ _ _ _ Egg2 H H') as ([groups' ->] & Hrow & Hc & Hfit) end.
      split_and!; [rewrite Ecfg2; by eexists|done| | |by apply Hfit].
      + intros r j e. unfold shard_end at 1. rewrite Hrow. apply Hends.
      + intros g k. rewrite Hc, Hcur. done.
    - subst w2. split_and!; [by eexists|done|by apply Hends| |done].
      intros g k. rewrite Hcur. case_decide as Ed; [|done]. destruct Ed as [-> ->].
      pose proof (Hcur gi i) as Hi. unfold current in Hi at 1. rewrite Egg2, Ekv in Hi. by rewrite <-Hi. }
  split_and!; [by eapply wired_down|done|]. intros e t [Hl Hon Hno]. destruct Hoff as [He Hwr].
  split; rewrite ?E'; simpl.
  - by apply (wiring_leads _ rn2) in Hl.
  - change (is_enabled (DeleteServer rn2 _) (Str e)) with (is_enabled rn2 (Str e)). apply He. split; [|done].
    intros [[j Hj]|[j Hj]]; by apply Hno in Hj.
  - rewrite <-E'. intros r j Hj%Hends'. by apply Hno in Hj.
Qed.

(** ** Starting a server *)

Lemma draw_ends_ret draw k names rn names' rn' :
  draw_ends draw k names rn = Ret (names', rn') →
  open_ends draw (λ j, Str (ctrlername j)) true rn (seqZ 0 k) = Ret rn' ∧
  length names' = length names ∧ ∀ j, 0 ≤ j < k → names'.[j] = Ret (draw j).
Proof.
  unfold draw_ends. intros Hr.
  cut (open_ends draw (λ j, Str (ctrlername j)) true rn (seqZ 0 k) = Ret rn' ∧
    length names' = length names ∧ ∀ j, j ∈ seqZ 0 k → names'.[j] = Ret (draw j)).
  { intros (? & ? & Hj). split_and!; [done..|]. intros j ?. apply Hj, elem_of_seqZ. lia. }
  revert Hr. apply (foldM_ret_inv _ (λ js '(l, rn1), open_ends draw (λ j, Str (ctrlername j)) true rn js = Ret rn1 ∧
    length l = length names ∧ ∀ j, j ∈ js → l.[j] = Ret (draw j)) (names, rn) (seqZ 0 k) (names', rn')).
  - split_and!; [done..|]. by intros j ?%elem_of_nil.
  - intros js j [l rn1] [l' rn2] (Hopen & Hlen & Hl) Hr. inv_ret. simplify_eq.
    pose proof (go_index_update _ _ _ _ j E) as Ej. rewrite decide_True in Ej by done. rewrite Ej in E0.
    injection E0 as <-. split_and!.
    + unfold open_ends in *. rewrite foldM_app, Hopen. cbn [mbind result_bind foldM]. unfold make_end in E1.
      rewrite E1. done.
    + by rewrite (go_update_length _ _ _ _ E).
    + intros j' Hj'. rewrite (go_index_update _ _ _ _ j' E). case_decide as Ed; [by subst|].
      apply Hl. apply elem_of_app in Hj' as [?|?%list_elem_of_singleton]; [done|congruence].
Qed.

Lemma server_ends_ret draw mdraw cfg gi i row mrow cfg' :
  server_ends draw mdraw cfg gi i = Ret (row, mrow, cfg') → fits cfg →
  ∃ rn1 rn2 groups, 0 ≤ gi ∧
    open_ends draw (target (Peers gi i)) true (sh_net cfg) (seqZ 0 (sh_n cfg)) = Ret rn1 ∧
    open_ends mdraw (target (Ctls gi i)) true rn1 (seqZ 0 (sh_nctrlers cfg)) = Ret rn2 ∧
    cfg' = sh_with_groups (sh_with_net cfg rn2) groups ∧
    (length row = Z.to_nat (sh_n cfg) ∧ ∀ j, 0 ≤ j < sh_n cfg → row.[j] = Ret (draw j)) ∧
    (length mrow = Z.to_nat (sh_nctrlers cfg) ∧ ∀ j, 0 ≤ j < sh_nctrlers cfg → mrow.[j] = Ret (mdraw j)) ∧
    (∀ r, row_of cfg' r = if decide (Ctls gi i = r) then Ret mrow else if decide (Peers gi i = r) then Ret row else row_of cfg r) ∧
    (∀ g k, current cfg' g k = current cfg g k) ∧ fits cfg' ∧ groups_kept cfg cfg'.
Proof.
  unfold server_ends. intros Hr Hf. inv_ret. rename x into gg, E into Egg.
  pose proof (the_group_range _ _ _ Egg) as Hgi. destruct (Hf _ _ Egg) as (Egid & Elen & Hrows & Hmlen). rewrite Egid in *.
  apply go_make_ret in E0 as ->, E4 as ->. apply fill_row in E1 as [Hlen Hrow].
  match goal with H : draw_ends _ _ _ _ = Ret ?p |- _ => destruct p as [mr rn2]; rename H into Em end. inv_ret. simplify_eq.
  apply draw_ends_ret in Em as (Hopen2 & Hlen2 & Hrow2). rewrite length_replicate in Hlen2.
  match goal with H : put_group _ _ _ = Ret _, H1 : (g_endnames gg).[i <- row] = Ret _, H2 : (g_mendnames gg).[i <- mrow] = Ret _ |- _ =>
    pose proof (put_groups_kept _ _ _ _ H) as Hkept;
    apply put_group_ret in H as (groups & -> & Hg); rename H1 into Hup1, H2 into Hup2 end.
  eexists _, rn2, groups. split_and!; [done| |exact Hopen2|done|done|done|done|done|..].
  - match goal with H : foldM _ (sh_net cfg) _ = Ret ?rn |- _ => rewrite <-H end.
    apply foldM_ext. intros rn j Hj%elem_of_seqZ. rewrite Hrow by lia. done.
  - intros [g k|g k]; unfold row_of; rewrite Hg.
    + rewrite (decide_False (P := Ctls gi i = _)) by done. destruct (decide (gi = g)) as [->|Hne]; simpl.
      * rewrite Egg. simpl. rewrite (go_index_update _ _ _ _ k Hup1). repeat case_decide; congruence.
      * rewrite decide_False by congruence. done.
    + rewrite (decide_False (P := Peers gi i = _)) by done. destruct (decide (gi = g)) as [->|Hne]; simpl.
      * rewrite Egg. simpl. rewrite (go_index_update _ _ _ _ k Hup2). repeat case_decide; congruence.
      * rewrite decide_False by congruence. done.
  - intros g k. unfold current. rewrite Hg. case_decide; [subst; by rewrite Egg|done].
  - intros g gg'. rewrite Hg. case_decide as Ed; [|apply Hf]. subst g. intros [= <-]. simpl.
    split_and!; [done|done| |by rewrite (go_update_length _ _ _ _ Hup2)]. intros k l. rewrite (go_index_update _ _ _ _ k Hup1).
    case_decide; [intros [= <-]; lia|apply Hrows].
  - exact Hkept.
Qed.

Lemma shard_end_ret cfg r j e : shard_end cfg r j = Ret e ↔ ∃ row, row_of cfg r = Ret row ∧ row.[j] = Ret e.
Proof. unfold shard_end. destruct (row_of cfg r); simpl; naive_solver. Qed.

(** Ends made with [make_end] are not among them. *)
Lemma server_ends_spare draw mdraw cfg gi i row mrow cfg' e t :
  fits cfg → server_ends draw mdraw cfg gi i = Ret (row, mrow, cfg') → spare cfg e t → spare cfg' e t.
Proof.
  intros Hf Hr [Hl Hon Hno].
  destruct (server_ends_ret _ _ _ _ _ _ _ _ Hr Hf) as
    (rn1 & rn2 & groups & _ & Ho1 & Ho2 & -> & [Hl1 Hd1] & [Hl2 Hd2] & Hrows & _).
  destruct (open_ends_keep _ _ _ _ _ _ Ho1) as (_ & Hk1 & Hon1), (open_ends_keep _ _ _ _ _ _ Ho2) as (_ & Hk2 & Hon2).
  assert (∀ f u rn js rn', open_ends f u true rn js = Ret rn' → leads rn e t → ∀ j, j ∈ js → f j ≠ e) as Hnew.
  { intros f u rn js rn' (_ & _ & Hnone & _)%open_ends_ret [[x Hx] _] j Hj <-. by rewrite Hnone in Hx. }
  assert (∀ f u rn k rn' (l : list string), open_ends f u true rn (seqZ 0 k) = Ret rn' → leads rn e t →
    length l = Z.to_nat k → (∀ j, 0 ≤ j < k → l.[j] = Ret (f j)) → ∀ j, l.[j] ≠ Ret e) as Hrow.
  { intros f u rn k rn' l Ho Hle Hlen Hd j Hj. pose proof (go_index_lt _ _ _ Hj). rewrite Hd in Hj by lia.
    injection Hj as Hj. refine (Hnew _ _ _ _ _ Ho Hle j _ Hj). apply elem_of_seqZ. lia. }
  split; simpl.
  - by apply Hk2, Hk1.
  - by rewrite (Hon2 e t), (Hon1 e t) by auto.
  - intros r j (l & Hl' & Hj)%bind_ret_inv. rewrite Hrows in Hl'. case_decide; [|case_decide].
    + injection Hl' as <-. by eapply (Hrow _ _ _ _ _ _ Ho2); eauto.
    + injection Hl' as <-. by eapply (Hrow _ _ _ _ _ _ Ho1); eauto.
    + apply (Hno r j). unfold shard_end. by rewrite Hl'.
Qed.

(** The ends of a started server are new, enabled, and lead where they should. *)
Lemma server_ends_wired draw mdraw (w : world) gi i row mrow cfg' :
  sh_wired w → server_ends draw mdraw (sw_cfg w) gi i = Ret (row, mrow, cfg') →
  (∃ groups rn, cfg' = sh_with_groups (sh_with_net (sw_cfg w) rn) groups ∧ servers rn = servers (sh_net (sw_cfg w))) ∧
  groups_kept (sw_cfg w) cfg' ∧ 0 ≤ gi ∧ fits cfg' ∧ (∀ g k, current cfg' g k = current (sw_cfg w) g k) ∧
  table target (shard_end cfg') (sh_net cfg') ∧
  (∀ r j e, shard_end cfg' r j = Ret e →
     is_enabled (sh_net cfg') (Str e) = true ↔ owner_of r = (gi, i) ∨ running (sw_cfg w) r) ∧
  (∀ r j, owner_of r ≠ (gi, i) → shard_end cfg' r j = shard_end (sw_cfg w) r j) ∧
  (∀ j, 0 ≤ j < sh_n (sw_cfg w) → ∃ e, shard_end cfg' (Peers gi i) j = Ret e) ∧
  (∀ j, 0 ≤ j < sh_nctrlers (sw_cfg w) → ∃ e, shard_end cfg' (Ctls gi i) j = Ret e).
Proof.
  intros Hw Hr. apply server_ends_ret in Hr as (rn1 & rn2 & groups & Hgi & Ho1 & Ho2 & -> & [Hl1 Hd1] & [Hl2 Hd2] & Hrows & Hcur & Hf & Hkept);
    [|apply Hw].
  set (cfg' := sh_with_groups _ groups) in *. set (T := shard_end (sw_cfg w)).
  set (T1 := λ r j, if decide (Peers gi i = r) then row.[j] else T r j).
  assert (∀ r j, shard_end cfg' r j = if decide (Ctls gi i = r) then mrow.[j] else T1 r j) as HT.
  { intros r j. unfold shard_end. rewrite Hrows. unfold T1, T. repeat case_decide; done. }
  assert (∀ (l : list string) k (d : Z → string), length l = Z.to_nat k → (∀ j, 0 ≤ j < k → l.[j] = Ret (d j)) →
    ∀ j e, l.[j] = Ret e → 0 ≤ j < k ∧ e = d j) as Hnames.
  { intros l k d Hl Hd j e He. pose proof (go_index_lt _ _ _ He). split; [lia|]. rewrite Hd in He by lia. congruence. }
  destruct (table_open target T T1 _ rn1 (Peers gi i) row draw (sh_n (sw_cfg w)) true (sw_table _ Hw) Ho1
    (Hnames _ _ _ Hl1 Hd1)) as (Ht1 & Es1 & Hon1 & Hsame1); [done|].
  destruct (table_open target T1 (shard_end cfg') _ rn2 (Ctls gi i) mrow mdraw (sh_nctrlers (sw_cfg w)) true Ht1 Ho2
    (Hnames _ _ _ Hl2 Hd2)) as (Ht2 & Es2 & Hon2 & Hsame2); [done|].
  split_and!; [eexists _, rn2; split; [done|congruence]|exact Hkept|done|done|done|exact Ht2|..].
  - intros r j e. rewrite HT. change (sh_net cfg') with rn2. case_decide as E1; [|unfold T1 at 1; case_decide as E2].
    + intros He. rewrite (Hon2 _ _ He). subst r. simpl. tauto.
    + intros He. rewrite (Hsame2 r j e); [|unfold T1; by rewrite decide_True]. rewrite (Hon1 _ _ He). subst r. simpl. tauto.
    + intros He. rewrite (Hsame2 r j e); [|unfold T1; by rewrite decide_False]. rewrite (Hsame1 _ _ _ He).
      rewrite (sw_enabled _ Hw _ _ _ He). split; [tauto|]. intros [Ho|?]; [|done]. destruct r; simpl in Ho; congruence.
  - intros r j Ho. rewrite HT. unfold T1. rewrite !decide_False; [done|intros <-; by apply Ho..].
  - intros j Hj. exists (draw j). rewrite HT. unfold T1. rewrite decide_False, decide_True by done. by apply Hd1.
  - intros j Hj. exists (mdraw j). rewrite HT, decide_True by done. by apply Hd2.
Qed.

Lemma registered_add (w : world) name inst name' :
  registered (sh_net (sw_cfg (add_server w name inst))) (Str name') =
  if decide (name = name') then Some (fresh (dom (sw_srvs w))) else registered (sh_net (sw_cfg w)) (Str name').
Proof.
  unfold add_server, registered, AddServer. simpl. rewrite lookup_insert. destruct (decide (name = name')) as [->|Hne].
  - by rewrite decide_True.
  - rewrite decide_False; [done|]. by intros ?%(inj Str).
Qed.

Lemma srvs_add (w : world) name inst p x :
  sw_srvs w !! p = Some x → sw_srvs (add_server w name inst) !! p = Some x.
Proof.
  intros Hp. simpl. rewrite lookup_insert_ne; [done|]. intros <-.
  apply (is_fresh (dom (sw_srvs w))). apply elem_of_dom. by exists x.
Qed.

(** What becomes of the rest of the configuration. *)
Definition kept (cfg cfg' : sconfig) : Prop :=
  (∃ groups rn, cfg' = sh_with_groups (sh_with_net cfg rn) groups) ∧ groups_kept cfg cfg'.

#[export] Instance kept_preorder : PreOrder kept.
Proof.
  split.
  - intros cfg. split; [|done]. exists (sh_groups cfg), (sh_net cfg). by destruct cfg.
  - intros a b c [(g1 & r1 & E1) H1] [(g2 & r2 & E2) H2]. split; [exists g2, r2; by rewrite E2, E1|by etransitivity].
Qed.

(** Server [i] of group [gi] runs as [kv]: [w'] has its new ends, before it is
    registered. *)
Lemma wired_up (w w' : world) gi i kv :
  sh_wired w → 0 ≤ gi → fits (sw_cfg w') → sh_n (sw_cfg w') = sh_n (sw_cfg w) →
  sh_nctrlers (sw_cfg w') = sh_nctrlers (sw_cfg w) → sh_ctrlerservers (sw_cfg w') = sh_ctrlerservers (sw_cfg w) →
  servers (sh_net (sw_cfg w')) = servers (sh_net (sw_cfg w)) → sw_srvs w' = sw_srvs w →
  (∀ g k, current (sw_cfg w') g k = if decide (g = gi ∧ k = i) then Some kv else current (sw_cfg w) g k) →
  table target (shard_end (sw_cfg w')) (sh_net (sw_cfg w')) →
  (∀ r j e, shard_end (sw_cfg w') r j = Ret e →
     is_enabled (sh_net (sw_cfg w')) (Str e) = true ↔ owner_of r = (gi, i) ∨ running (sw_cfg w) r) →
  (∀ r j e, owner_of r ≠ (gi, i) → shard_end (sw_cfg w) r j = Ret e → shard_end (sw_cfg w') r j = Ret e) →
  (∀ j, 0 ≤ j < sh_n (sw_cfg w) → ∃ e, shard_end (sw_cfg w') (Peers gi i) j = Ret e) →
  (∀ j, 0 ≤ j < sh_nctrlers (sw_cfg w) → ∃ e, shard_end (sw_cfg w') (Ctls gi i) j = Ret e) →
  sh_wired (add_server w' (servername (100 + gi) i) (inl kv)).
Proof.
  intros Hw Hgi Hf En Ec Ecs Es Ev Hcur Ht Hen Hold Hfull1 Hfull2.
  set (w4 := add_server w' _ _).
  assert (∀ g k, current (sw_cfg w4) g k = if decide (g = gi ∧ k = i) then Some kv else current (sw_cfg w) g k) as Hcur4 by exact Hcur.
  split; [exact Hf| |eapply table_same; [exact Ht|done|done]|..].
  - change (sh_n (sw_cfg w4)) with (sh_n (sw_cfg w')). change (sh_nctrlers (sw_cfg w4)) with (sh_nctrlers (sw_cfg w')).
    rewrite En, Ec. intros g k. rewrite Hcur4. case_decide as Ed; [by destruct Ed as [-> ->]|].
    intros Hup. destruct (sw_full _ Hw g k Hup) as [H1 H2].
    split; intros j Hj; [destruct (H1 j Hj) as [e He]|destruct (H2 j Hj) as [e He]]; exists e;
      (refine (Hold _ _ _ _ He); intros [= -> ->]; tauto).
  - intros r j e He. change (is_enabled (sh_net (sw_cfg w4)) (Str e)) with (is_enabled (sh_net (sw_cfg w')) (Str e)).
    rewrite (Hen r j e He). unfold running. rewrite Hcur4. destruct (owner_of r) as [g k]. simpl. case_decide as Ed.
    + destruct Ed as [-> ->]. split; [by eexists|by left].
    + split; [intros [[= -> ->]|?]; [tauto|done]|by right].
  - intros g k Hg. rewrite Hcur4. unfold w4. rewrite registered_add.
    assert (servername (100 + gi) i = servername (100 + g) k ↔ g = gi ∧ k = i) as Hname.
    { split; [intros E%servername_inj; lia|by intros [-> ->]]. }
    case_decide as Ed; [|rewrite decide_False by tauto].
    + rewrite decide_True by tauto. eexists. split; [done|]. apply lookup_insert_eq.
    + pose proof (sw_routed _ Hw g k Hg) as Hrt. unfold registered in *. rewrite Es.
      destruct (current (sw_cfg w) g k) as [kv'|]; [|done]. destruct Hrt as (p & ? & Hp).
      exists p. split; [done|]. apply srvs_add. by rewrite Ev.
  - intros k sc Hk. unfold w4 in Hk |- *. rewrite registered_add, decide_False by (apply servername_ctrlername).
    destruct (sw_ctrlers _ Hw k sc) as (p & Hreg & Hp); [rewrite <-Ecs; exact Hk|]. exists p. split.
    + unfold registered in *. by rewrite Es.
    + apply srvs_add. by rewrite Ev.
Qed.

Lemma sh_StartServer_wired draw mdraw w gi i w' :
  sh_wired w → sh_StartServer ops draw mdraw w gi i = Ret w' →
  sh_wired w' ∧ kept (sw_cfg w) (sw_cfg w') ∧ (∀ e t, spare (sw_cfg w) e t → spare (sw_cfg w') e t) ∧
  ∃ kv, ∀ g k, current (sw_cfg w') g k = if decide (g = gi ∧ k = i) then Some kv else current (sw_cfg w) g k.
Proof.
  intros Hw Hr. unfold sh_StartServer in Hr. inv_ret.
  destruct x as [[row mrow] cfg1]. inv_ret. rename E into Eends.
  destruct (server_ends_wired _ _ _ _ _ _ _ _ Hw Eends) as
    ((g1 & rn & Ecfg1 & Es) & Hgk1 & Hgi & Hf1 & Hcur1 & Ht1 & Hen1 & Hold1 & Hfull1 & Hfull2).
  pose proof (λ e t, server_ends_spare _ _ _ _ _ _ _ _ e t (sw_fits _ Hw) Eends) as Hsp; clear Eends.
  rename x into w2, x0 into gg, E0 into Esave, E1 into Egg.
  apply sh_save_ret in Esave as [Hv Ev]. simpl in Hv, Ev. destruct (same_views_spec _ _ Hv) as (Hends2 & Hcur2 & Hf2).
  pose proof (same_views_kept _ _ Hv) as Hgk2. destruct Hv as [[g2 Ecfg2] _].
  match goal with H : shard_Start _ _ _ _ _ _ _ _ _ _ = Ret ?p |- _ => destruct p as [[kv h] s]; clear H end. inv_ret.
  match goal with H : _.[i <- Some kv] = Ret _, H' : put_group _ _ _ = Ret ?c |- _ =>
    pose proof (put_groups_kept _ _ _ _ H') as Hgk3;
    destruct (set_server _ _ _ _ _ _ _ Egg H H') as ([g3 Ecfg3] & Hrow3 & Hcur3 & Hf3); rename c into cfg3; clear H H' end.
  destruct (Hf2 Hf1 _ _ Egg) as (Egid & _). rewrite Egid in Hr.
  assert (cfg3 = sh_with_groups (sh_with_net (sw_cfg w) rn) g3) as Ecfg by (by rewrite Ecfg3, Ecfg2, Ecfg1).
  assert (∀ g k, current cfg3 g k = if decide (g = gi ∧ k = i) then Some kv else current (sw_cfg w) g k) as Hcur
    by (intros g k; rewrite Hcur3, Hcur2, Hcur1; done).
  assert (∀ r j e, shard_end cfg3 r j = Ret e ↔ shard_end cfg1 r j = Ret e) as Hends
    by (intros r j e; unfold shard_end at 1; rewrite Hrow3; apply Hends2).
  assert (sh_net cfg1 = sh_net cfg3) as Enet by (by rewrite Ecfg, Ecfg1). rewrite Enet in *.
  subst w'. split; [|split; [|split; [|by exists kv]]].
  3: { intros e t [Hl Hon Hno]%Hsp. rewrite Enet in *. split; [exact Hl|exact Hon|].
       intros r j Hj. apply (Hno r j), Hends. exact Hj. }
  - apply (wired_up w); simpl; try (rewrite Ecfg; done); [done|done|by auto|done|exact Hcur|..].
    + eapply table_same; [exact Ht1|by intros; apply Hends|done].
    + intros r j e He%Hends. by apply (Hen1 r j).
    + intros r j e Ho He. apply Hends. by rewrite Hold1.
    + intros j Hj. destruct (Hfull1 j Hj) as [e ?]. exists e. by apply Hends.
    + intros j Hj. destruct (Hfull2 j Hj) as [e ?]. exists e. by apply Hends.
  - split; [|by etransitivity; [|etransitivity]]. eexists g3, _. simpl. by rewrite Ecfg.
Qed.
End services.
