(* ===== verification/ShardHarness.v ===== *)
(** Tests of the sharded service: that every run of the harness keeps the
    servers' ends in order and their names reachable. *)
From Stdlib Require Import ZArith Lia.
From stdpp Require Import base gmap sets list strings pretty.
From S2P Require Import Prelude Labrpc Persister Iface Tables Raft RaftConfig RaftNet Clerks KvConfig ShardConfig ShardNet.

Section services.
Context {S : Type} (ops : ShardOps S).
Abbreviation world := (sworld S).
Implicit Types w : world.

(** ** Clerks' and controllers' ends *)

(** More ends, of which no group server knows. *)
Lemma wired_more w cfg' f t on js :
  sh_wired w → open_ends f t on (sh_net (sw_cfg w)) js = Ret (sh_net cfg') →
  sh_groups cfg' = sh_groups (sw_cfg w) → sh_n cfg' = sh_n (sw_cfg w) → sh_nctrlers cfg' = sh_nctrlers (sw_cfg w) →
  sh_ctrlerservers cfg' = sh_ctrlerservers (sw_cfg w) → sh_wired (sw_with_cfg w cfg').
Proof.
  intros [Hf Hfull Ht Hen Hrt Hct] (Hs & Hl & He)%open_ends_keep Eg En Ec Ecs.
  assert (the_group cfg' = the_group (sw_cfg w)) as Egrp by (unfold the_group; by rewrite Eg).
  assert (shard_end cfg' = shard_end (sw_cfg w)) as Eend by (unfold shard_end, row_of; by rewrite Egrp).
  assert (current cfg' = current (sw_cfg w)) as Ecur by (unfold current; by rewrite Egrp).
  split; simpl; rewrite ?Eend, ?Ecur, ?En, ?Ec, ?Ecs.
  - unfold fits. by rewrite Egrp, En, Ec.
  - done.
  - by eapply table_same.
  - intros r j e Hr. unfold running. rewrite (He e (target r j)), Ecur by (by eapply tb_leads). by eapply Hen.
  - unfold registered in *. rewrite Hs. done.
  - unfold registered in *. rewrite Hs. done.
Qed.

(** The clerks do not matter to the invariant. *)
Lemma wired_clerks w m next : sh_wired w → sh_wired (sw_with_cfg w (sh_with_clerks (sw_cfg w) m next)).
Proof. by intros [? ? ? ? ? ?]. Qed.

Lemma ctrler_ends_wired draw w ends cfg' :
  sh_wired w → ctrler_ends draw (sw_cfg w) = Ret (ends, cfg') →
  sh_wired (sw_with_cfg w cfg') ∧ ∃ rn, cfg' = sh_with_net (sw_cfg w) rn.
Proof.
  unfold ctrler_ends. intros Hw Hr. inv_ret. simplify_eq. split; [|by eexists].
  by eapply (wired_more w (sh_with_net (sw_cfg w) x) draw (λ j, Str (ctrlername j)) true).
Qed.

Lemma sh_makeClient_wired draw w cfg' ck :
  sh_wired w → sh_makeClient draw (sw_cfg w) = Ret (cfg', ck) →
  sh_wired (sw_with_cfg w cfg') ∧ sh_groups cfg' = sh_groups (sw_cfg w) ∧ sh_n cfg' = sh_n (sw_cfg w) ∧
  sh_nctrlers cfg' = sh_nctrlers (sw_cfg w) ∧ sh_ctrlerservers cfg' = sh_ctrlerservers (sw_cfg w).
Proof.
  unfold sh_makeClient. intros Hw Hr. inv_ret. destruct x0 as [names rn]. simplify_eq.
  apply draw_ends_ret in E0 as (Hopen & _). split; [|done].
  apply (wired_clerks (sw_with_cfg w (sh_with_net (sw_cfg w) rn))).
  by eapply (wired_more w (sh_with_net (sw_cfg w) rn)).
Qed.

Lemma StartCtrlerserver_wired draw w i w' :
  sh_wired w → StartCtrlerserver ops draw w i = Ret w' →
  sh_wired w' ∧ sh_groups (sw_cfg w') = sh_groups (sw_cfg w) ∧ sh_nctrlers (sw_cfg w') = sh_nctrlers (sw_cfg w) ∧
  ∃ sc, ∀ k, (sh_ctrlerservers (sw_cfg w')).[k] = if decide (i = k) then Ret (Some sc) else (sh_ctrlerservers (sw_cfg w)).[k].
Proof.
  unfold StartCtrlerserver. intros Hw Hr. inv_ret. destruct x as [ends cfg1].
  destruct (ctrler_ends_wired _ _ _ _ Hw E) as [Hw1 [rn ->]]; clear E. simpl in Hr. inv_ret.
  destruct x as [[sc h] s]. inv_ret. clear E. rename x into ctrlers, E0 into Hupd. simpl in Hupd.
  set (w1 := sw_with_cfg w (sh_with_net (sw_cfg w) rn)) in *. destruct Hw1 as [Hf Hfull Ht Hen Hrt Hct].
  assert (∀ k, ctrlers.[k] = if decide (i = k) then Ret (Some sc) else (sh_ctrlerservers (sw_cfg w)).[k]) as Hlook
    by (intros k; exact (go_index_update _ _ _ _ k Hupd)).
  set (w2 := mkSWorld _ h (sw_srvs w) s) in Hr. subst w'.
  split; [|split_and!; [done..|by exists sc]]. split; [exact Hf|exact Hfull| |exact Hen|..].
  - eapply table_same; [exact Ht|done|done].
  - intros g k Hg. rewrite registered_add, decide_False by (apply not_eq_sym, servername_ctrlername).
    specialize (Hrt g k Hg). change (current (sw_cfg (add_server w2 (ctrlername i) (inr sc))) g k) with (current (sw_cfg w1) g k).
    destruct (current (sw_cfg w1) g k); [|done]. destruct Hrt as (p & ? & ?). exists p. split; [done|]. by apply srvs_add.
  - intros k sc' Hk. simpl in Hk. rewrite Hlook in Hk. rewrite registered_add. case_decide as Ei.
    + injection Hk as <-. subst k. rewrite decide_True by done. eexists. split; [done|apply lookup_insert_eq].
    + rewrite decide_False by (intros ?%ctrlername_inj; congruence).
      destruct (Hct k sc') as (p & ? & ?); [done|]. exists p. split; [done|]. by apply srvs_add.
Qed.

(** ** Groups *)

(** What a run of operations keeps: the sizes, the controllers and the groups. *)
Definition same_shape (cfg cfg' : sconfig) : Prop :=
  sh_n cfg' = sh_n cfg ∧ sh_nctrlers cfg' = sh_nctrlers cfg ∧ sh_ctrlerservers cfg' = sh_ctrlerservers cfg ∧
  groups_kept cfg cfg'.

#[export] Instance same_shape_preorder : PreOrder same_shape.
Proof.
  split; [done|]. intros a b c (?&?&?&?) (?&?&?&?). unfold same_shape.
  split_and!; [congruence..|by etransitivity].
Qed.

Lemma kept_shape cfg cfg' : kept cfg cfg' → same_shape cfg cfg'.
Proof. intros [(? & ? & E) ?]. split_and!; [by rewrite E..|done]. Qed.

(** A new group, of whose servers none is started. *)
Lemma put_group_wired w gi gg cfg' :
  sh_wired w → put_group (sw_cfg w) gi gg = Ret cfg' → (∀ i, current (sw_cfg w) gi i = None) →
  gid gg = 100 + gi → g_servers gg = replicate (Z.to_nat (sh_n (sw_cfg w))) None →
  length (g_mendnames gg) = Z.to_nat (sh_nctrlers (sw_cfg w)) →
  (∀ i row, (g_endnames gg).[i] = Ret row → row = []) → (∀ i row, (g_mendnames gg).[i] = Ret row → row = []) →
  sh_wired (sw_with_cfg w cfg') ∧ (∀ g k, current cfg' g k = current (sw_cfg w) g k).
Proof.
  intros Hw (groups & -> & Hg)%put_group_ret Hnone Egid Es Hmlen He Hm.
  set (cfg' := sh_with_groups (sw_cfg w) groups) in *.
  assert (∀ g k, current cfg' g k = current (sw_cfg w) g k) as Hcur.
  { intros g k. unfold current at 1. rewrite Hg. case_decide as Ed; [|done]. subst g. rewrite Hnone, Es.
    destruct ((replicate _ None).[k]) as [kv| |] eqn:Ek; [|done..].
    apply go_index_ret in Ek as [_ Ek]. by apply lookup_replicate in Ek as [-> _]. }
  assert (∀ r j e, shard_end cfg' r j = Ret e → shard_end (sw_cfg w) r j = Ret e) as Hend.
  { intros r j e (row & Hrow & Hj)%shard_end_ret. apply shard_end_ret. exists row. split; [|done].
    assert (row ≠ []) as Hne by (intros ->; apply go_index_lt in Hj; simpl in Hj; lia).
    destruct r as [g k|g k]; simpl in Hrow |- *; rewrite Hg in Hrow; case_decide; [|done| |done]; simpl in Hrow.
    - by apply He in Hrow. - by apply Hm in Hrow. }
  split; [|done]. destruct Hw as [Hf Hfull Ht Hen Hrt Hct]. split; simpl.
  - intros g gg'. rewrite Hg. case_decide as Ed; [|apply Hf]. subst g. intros [= <-].
    rewrite Es. split_and!; [done|by rewrite length_replicate| |done]. intros k row ->%He. simpl. lia.
  - intros g k. rewrite Hcur. intros Hup. destruct (Hfull g k Hup) as [H1 H2].
    assert (g ≠ gi) as Hne by (intros ->; rewrite Hnone in Hup; by destruct Hup).
    assert (∀ r j, (owner_of r).1 = g → shard_end cfg' r j = shard_end (sw_cfg w) r j) as Hsame.
    { intros [g' k'|g' k'] j; simpl; intros ->; unfold shard_end, row_of; by rewrite Hg, decide_False. }
    split; intros j Hj; rewrite Hsame by done; auto.
  - eapply table_same; [exact Ht|exact Hend|done].
  - intros r j e He'%Hend. unfold running. rewrite Hcur. by eapply Hen.
  - intros g k. rewrite Hcur. apply Hrt.
  - exact Hct.
Qed.

(** Starting servers in turn. *)
Lemma start_servers_wired (draw mdraw : Z → Z → string) gi w js w' :
  sh_wired w → foldM (λ w i, sh_StartServer ops (draw i) (mdraw i) w gi i) w js = Ret w' →
  sh_wired w' ∧ same_shape (sw_cfg w) (sw_cfg w') ∧
  (∀ g k, g = gi ∧ k ∈ js ∨ is_Some (current (sw_cfg w) g k) → is_Some (current (sw_cfg w') g k)) ∧
  (∀ g k, g ≠ gi → current (sw_cfg w') g k = current (sw_cfg w) g k).
Proof.
  intros Hw. apply (foldM_ret_inv _ (λ js w', sh_wired w' ∧ same_shape (sw_cfg w) (sw_cfg w') ∧
    (∀ g k, g = gi ∧ k ∈ js ∨ is_Some (current (sw_cfg w) g k) → is_Some (current (sw_cfg w') g k)) ∧
    (∀ g k, g ≠ gi → current (sw_cfg w') g k = current (sw_cfg w) g k))).
  - split_and!; [done..| |done]. intros g k [[_ ?%elem_of_nil]|?]; done.
  - intros js' i w1 w2 (Hw1 & Hs1 & Hup1 & Hother1) Hr.
    destruct (sh_StartServer_wired _ _ _ _ _ _ _ Hw1 Hr) as (Hw2 & Hk2 & _ & kv & Hcur2).
    split_and!; [done|by etransitivity; [|apply kept_shape]| |].
    + intros g k Hgk. rewrite Hcur2. case_decide as Ed; [done|]. apply Hup1.
      destruct Hgk as [[-> [?|?%list_elem_of_singleton]%elem_of_app]|?]; [by left|subst; tauto|by right].
    + intros g k Hne. rewrite Hcur2, decide_False by tauto. by apply Hother1.
Qed.

Lemma make_group_wired (draw mdraw : Z → Z → Z → string) w gi w' :
  sh_wired w → (∀ i, current (sw_cfg w) gi i = None) → make_group ops draw mdraw w gi = Ret w' →
  sh_wired w' ∧ same_shape (sw_cfg w) (sw_cfg w') ∧
  (∀ g k, g = gi ∧ 0 ≤ k < sh_n (sw_cfg w) ∨ is_Some (current (sw_cfg w) g k) → is_Some (current (sw_cfg w') g k)) ∧
  (∀ g k, g ≠ gi → current (sw_cfg w') g k = current (sw_cfg w) g k) ∧ ∃ gg, the_group (sw_cfg w') gi = Ret gg.
Proof.
  intros Hw Hnone Hr. unfold make_group in Hr. inv_ret. apply go_make_ret in E as ->, E0 as ->, E1 as ->, E2 as ->.
  rename E3 into Eput. assert (∀ {A} (a b : A) k i, (replicate k a).[i] = Ret b → b = a) as Hrep.
  { intros A a b k i [_ Hb]%go_index_ret. by apply lookup_replicate in Hb as [-> _]. }
  destruct (put_group_wired _ _ _ _ Hw Eput Hnone) as [Hw1 Hcur1]; [done|done|by apply length_replicate|by intros i row ?%Hrep|by intros i row ?%Hrep|].
  assert (∃ gg, the_group x3 gi = Ret gg) as [gg Egg].
  { apply put_group_ret in Eput as (? & _ & Hg). rewrite Hg, decide_True by done. eauto. }
  assert (same_shape (sw_cfg w) x3) as Hs1 by (pose proof (put_groups_kept _ _ _ _ Eput); apply put_group_ret in Eput as (? & -> & _); done).
  destruct (start_servers_wired _ _ _ _ _ _ Hw1 Hr) as (Hw2 & Hs2 & Hup2 & Hother2). simpl in *.
  split_and!; [done|by etransitivity| | |].
  - intros g k [[-> ?]|?]; apply Hup2; [left; split; [done|apply elem_of_seqZ; destruct Hs1 as [-> _]; lia]|right; by rewrite Hcur1].
  - intros g k Hne. by rewrite Hother2, Hcur1.
  - destruct Hs2 as (_ & _ & _ & Hk). by eapply Hk.
Qed.

(** ** Tests *)

(** What a test does to the servers and clerks, and what these do to the
    network: a clerk, or a group server, running or stopped, may call the
    [make_end] it was given at any time. [draw], [mdraw] and [e] are the names
    drawn at random. *)
Inductive sh_op :=
  | ShShutdown (gi i : Z)
  | ShShutdownGroup (gi : Z)
  | ShStart (draw mdraw : Z → string) (gi i : Z)
  | ShStartGroup (draw mdraw : Z → Z → string) (gi : Z)
  | ShMakeClient (draw : Z → string)
  | ShDeleteClient (ck : clerk)
  | ShMakeEnd (e servername : string).

Definition sh_step w (o : sh_op) : result world :=
  match o with
  | ShShutdown gi i => sh_ShutdownServer ops w gi i
  | ShShutdownGroup gi => ShutdownGroup ops w gi
  | ShStart draw mdraw gi i => sh_StartServer ops draw mdraw w gi i
  | ShStartGroup draw mdraw gi => StartGroup ops draw mdraw w gi
  | ShMakeClient draw => '(cfg, _) ← sh_makeClient draw (sw_cfg w); Ret (sw_with_cfg w cfg)
  | ShDeleteClient ck => Ret (sw_with_cfg w (sh_deleteClient (sw_cfg w) ck))
  | ShMakeEnd e servername =>
      rn ← make_end e servername (sh_net (sw_cfg w)); Ret (sw_with_cfg w (sh_with_net (sw_cfg w) rn))
  end.

Lemma make_end_wired w e t rn :
  sh_wired w → make_end e t (sh_net (sw_cfg w)) = Ret rn →
  sh_wired (sw_with_cfg w (sh_with_net (sw_cfg w) rn)) ∧ spare (sh_with_net (sw_cfg w) rn) e (Str t).
Proof.
  intros Hw Hm. split.
  - apply (wired_more w (sh_with_net (sw_cfg w) rn) (λ _, e) (λ _, Str t) true [0]); [done| |done..].
    unfold open_ends. cbn [foldM]. unfold make_end in Hm. by rewrite Hm.
  - apply new_end_ret in Hm as (Hnone & _ & Hmade & Hon & Hto & _). split; [done|done|].
    intros r j Hj. assert (leads (sh_net (sw_cfg w)) e (target r j)) as [[x Hx] _] by (by apply (sw_table _ Hw)).
    by rewrite Hnone in Hx.
Qed.

Lemma sh_ShutdownServer_shape w gi i w' : sh_ShutdownServer ops w gi i = Ret w' → same_shape (sw_cfg w) (sw_cfg w').
Proof.
  intros Hr. unfold sh_ShutdownServer in Hr. inv_ret. apply sh_save_ret in E3 as [Hv _].
  assert (same_shape (sw_cfg w) (sw_cfg x3)) as Hs.
  { pose proof (same_views_kept _ _ Hv) as Hk. destruct Hv as [[groups Ec] _]. simpl in Ec.
    split_and!; [by rewrite Ec..|exact Hk]. }
  destruct x5; inv_ret; [|by subst]. destruct x5. inv_ret. subst w'. simpl. etransitivity; [exact Hs|].
  match goal with H : put_group _ _ _ = Ret _ |- _ =>
    pose proof (put_groups_kept _ _ _ _ H); apply put_group_ret in H as (groups' & -> & _) end. done.
Qed.

Lemma sh_step_wired w o w' : sh_wired w → sh_step w o = Ret w' → sh_wired w' ∧ same_shape (sw_cfg w) (sw_cfg w').
Proof.
  intros Hw Hr. destruct o as [gi i|gi|draw mdraw gi i|draw mdraw gi|draw|ck|e t]; simpl in Hr.
  - split; [by eapply sh_ShutdownServer_wired|by eapply sh_ShutdownServer_shape].
  - revert Hr. apply (foldM_ret_inv _ (λ _ w', sh_wired w' ∧ same_shape (sw_cfg w) (sw_cfg w'))); [done|].
    intros _ i w1 w2 [Hw1 Hs1] Hr. split; [by eapply sh_ShutdownServer_wired|].
    etransitivity; [done|by eapply sh_ShutdownServer_shape].
  - destruct (sh_StartServer_wired _ _ _ _ _ _ _ Hw Hr) as (? & ? & _). split; [done|by apply kept_shape].
  - by destruct (start_servers_wired _ _ _ _ _ _ Hw Hr) as (? & ? & _).
  - inv_ret. destruct x as [cfg ck]. inv_ret. subst w'.
    destruct (sh_makeClient_wired _ _ _ _ Hw E) as (? & Eg & ? & ? & ?). split; [done|].
    assert (groups_kept (sw_cfg w) cfg) by (intros g gg; unfold the_group; rewrite Eg; eauto).
    done.
  - injection Hr as <-. split; [by apply wired_clerks|]. split_and!; [done..|by eexists].
  - inv_ret. subst w'. split; [by eapply make_end_wired|]. split_and!; [done..|by eexists].
Qed.

(** New ends elsewhere. *)
Lemma spare_more w cfg' f t on js e u :
  open_ends f t on (sh_net (sw_cfg w)) js = Ret (sh_net cfg') → sh_groups cfg' = sh_groups (sw_cfg w) →
  spare (sw_cfg w) e u → spare cfg' e u.
Proof.
  intros (_ & Hl & He)%open_ends_keep Eg [Hle Hon Hno].
  assert (the_group cfg' = the_group (sw_cfg w)) as Egrp by (unfold the_group; by rewrite Eg).
  split; [by apply Hl|by rewrite (He e u)|]. intros r j. unfold shard_end, row_of. rewrite Egrp. apply Hno.
Qed.

(** No operation disables an end that stands in no row. *)
Lemma sh_step_spare w o w' e t : sh_wired w → sh_step w o = Ret w' → spare (sw_cfg w) e t → spare (sw_cfg w') e t.
Proof.
  intros Hw Hr Hs. destruct o as [gi i|gi|draw mdraw gi i|draw mdraw gi|draw|ck|e' t']; simpl in Hr.
  - destruct (sh_ShutdownServer_wired _ _ _ _ _ Hw Hr) as (_ & _ & Hk). by apply Hk.
  - revert Hr. apply (foldM_ret_inv _ (λ _ w', sh_wired w' ∧ spare (sw_cfg w') e t)); [done|].
    intros _ i w1 w2 [Hw1 Hs1] Hr. destruct (sh_ShutdownServer_wired _ _ _ _ _ Hw1 Hr) as (? & _ & Hk). by auto.
  - destruct (sh_StartServer_wired _ _ _ _ _ _ _ Hw Hr) as (_ & _ & Hk & _). by apply Hk.
  - revert Hr. apply (foldM_ret_inv _ (λ _ w', sh_wired w' ∧ spare (sw_cfg w') e t)); [done|].
    intros _ i w1 w2 [Hw1 Hs1] Hr. destruct (sh_StartServer_wired _ _ _ _ _ _ _ Hw1 Hr) as (? & _ & Hk & _). by auto.
  - inv_ret. destruct x as [cfg ck]. inv_ret. subst w'. simpl. unfold sh_makeClient in E. inv_ret.
    destruct x0 as [names rn]. simplify_eq. apply draw_ends_ret in E1 as (Hopen & _).
    by eapply (spare_more w (sh_with_clerks (sh_with_net (sw_cfg w) rn) _ _)).
  - injection Hr as <-. by destruct Hs.
  - inv_ret. subst w'. simpl.
    apply (spare_more w (sh_with_net (sw_cfg w) x) (λ _, e') (λ _, Str t') true [0]); [|done..].
    unfold open_ends. cbn [foldM]. unfold make_end in E. by rewrite E.
Qed.

Lemma sh_steps_wired w os w' : sh_wired w → foldM sh_step w os = Ret w' → sh_wired w' ∧ same_shape (sw_cfg w) (sw_cfg w').
Proof.
  intros Hw. apply (foldM_ret_inv _ (λ _ w', sh_wired w' ∧ same_shape (sw_cfg w) (sw_cfg w'))); [done|].
  intros _ o w1 w2 [Hw1 Hs1] Hr. destruct (sh_step_wired _ _ _ Hw1 Hr). split; [done|]. by etransitivity.
Qed.

(** The ends that were made with [make_end]. *)
Lemma sh_steps_spare w os1 os2 e t w' :
  sh_wired w → foldM sh_step w (os1 ++ ShMakeEnd e t :: os2) = Ret w' → spare (sw_cfg w') e (Str t).
Proof.
  intros Hw Hr. rewrite foldM_app in Hr. apply bind_ret_inv in Hr as (w1 & Hr1 & Hr).
  destruct (sh_steps_wired _ _ _ Hw Hr1) as [Hw1 _]. cbn [foldM] in Hr. apply bind_ret_inv in Hr as (w2 & Hr2 & Hr).
  simpl in Hr2. inv_ret. subst w2. destruct (make_end_wired _ _ _ _ Hw1 E) as [Hw2 Hs].
  assert (sh_wired w' ∧ spare (sw_cfg w') e (Str t)) as [_ ?]; [|done].
  revert Hr. apply (foldM_ret_inv _ (λ _ w', sh_wired w' ∧ spare (sw_cfg w') e (Str t))); [done|].
  intros _ o u1 u2 [Hu1 Hsu1] Hr. split; [by eapply sh_step_wired|by eapply sh_step_spare].
Qed.

(** Nothing is started yet. *)
Lemma sh_initial_wired w :
  (∀ gi, the_group (sw_cfg w) gi = Panic NilDeref ∨ the_group (sw_cfg w) gi = Panic IndexOutOfRange) →
  servers (sh_net (sw_cfg w)) = ∅ → (∀ i sc, (sh_ctrlerservers (sw_cfg w)).[i] ≠ Ret (Some sc)) → sh_wired w.
Proof.
  intros Hno Hs Hct.
  assert (∀ r j e, shard_end (sw_cfg w) r j ≠ Ret e) as Hend.
  { intros [g k|g k] j e; unfold shard_end, row_of; by destruct (Hno g) as [-> | ->]. }
  assert (∀ g k, current (sw_cfg w) g k = None) as Hcur by (intros g k; unfold current; by destruct (Hno g) as [-> | ->]).
  split.
  - intros g gg E. destruct (Hno g); congruence.
  - intros g k. rewrite Hcur. by intros [].
  - split; intros r j; intros * E; by destruct (Hend r j e).
  - intros r j e E. by destruct (Hend r j e).
  - intros g k _. rewrite Hcur. unfold registered. by rewrite Hs, lookup_empty.
  - intros i sc E. by destruct (Hct i sc).
Qed.

Lemma nil_groups (cfg : sconfig) k : sh_groups cfg = replicate k None →
  ∀ gi, the_group cfg gi = Panic NilDeref ∨ the_group cfg gi = Panic IndexOutOfRange.
Proof.
  intros E gi. unfold the_group. rewrite E. unfold go_index. case_decide; [|by right].
  destruct (replicate _ _ !! _) eqn:El; [|by right]. apply lookup_replicate in El as [-> _]. by left.
Qed.

(** The groups are allocated, still nil. *)
Lemma wired_no_groups w cfg' :
  sh_wired w →
  (∀ gi, the_group (sw_cfg w) gi = Panic NilDeref ∨ the_group (sw_cfg w) gi = Panic IndexOutOfRange) →
  (∀ gi, the_group cfg' gi = Panic NilDeref ∨ the_group cfg' gi = Panic IndexOutOfRange) →
  sh_net cfg' = sh_net (sw_cfg w) → sh_ctrlerservers cfg' = sh_ctrlerservers (sw_cfg w) →
  sh_wired (sw_with_cfg w cfg') ∧ ∀ gi i, current cfg' gi i = None.
Proof.
  intros [_ _ _ _ Hrt Hct] Hno Hno' En Ec.
  assert (∀ r j e, shard_end cfg' r j ≠ Ret e) as Hend.
  { intros [g k|g k] j e; unfold shard_end, row_of; by destruct (Hno' g) as [-> | ->]. }
  assert (∀ g k, current cfg' g k = None) as Hcur' by (intros g k; unfold current; by destruct (Hno' g) as [-> | ->]).
  split; [|done]. split; simpl.
  - intros g gg E. destruct (Hno' g); congruence.
  - intros g k. rewrite Hcur'. by intros [].
  - split; intros r j; intros * E; by destruct (Hend r j e).
  - intros r j e E. by destruct (Hend r j e).
  - intros g k Hg. rewrite Hcur', En. specialize (Hrt g k Hg).
    unfold current in Hrt. by destruct (Hno g) as [E|E]; rewrite E in Hrt.
  - by rewrite En, Ec.
Qed.

Lemma start_ctrlers_wired draws w js w' :
  sh_wired w → foldM (λ w i, StartCtrlerserver ops (draws i) w i) w js = Ret w' →
  sh_wired w' ∧ sh_groups (sw_cfg w') = sh_groups (sw_cfg w) ∧ sh_nctrlers (sw_cfg w') = sh_nctrlers (sw_cfg w) ∧
  ∀ i, i ∈ js → ∃ sc, (sh_ctrlerservers (sw_cfg w')).[i] = Ret (Some sc).
Proof.
  intros Hw. apply (foldM_ret_inv _ (λ js w', sh_wired w' ∧ sh_groups (sw_cfg w') = sh_groups (sw_cfg w) ∧
    sh_nctrlers (sw_cfg w') = sh_nctrlers (sw_cfg w) ∧
    ∀ i, i ∈ js → ∃ sc, (sh_ctrlerservers (sw_cfg w')).[i] = Ret (Some sc))).
  - split_and!; [done..|]. by intros i ?%elem_of_nil.
  - intros js' i w1 w2 (Hw1 & Eg1 & Ec1 & Hs1) Hr.
    destruct (StartCtrlerserver_wired _ _ _ _ Hw1 Hr) as (Hw2 & Eg2 & Ec2 & sc & Hsc).
    split_and!; [done|congruence|congruence|]. intros k Hk. rewrite Hsc. case_decide; [eauto|].
    apply Hs1. apply elem_of_app in Hk as [?|?%list_elem_of_singleton]; [done|congruence].
Qed.

(** The three groups, one after the other. *)
Lemma make_groups_wired (draw mdraw : Z → Z → Z → string) w w' :
  sh_wired w → (∀ gi i, current (sw_cfg w) gi i = None) → foldM (make_group ops draw mdraw) w (seqZ 0 3) = Ret w' →
  sh_wired w' ∧ same_shape (sw_cfg w) (sw_cfg w') ∧
  (∀ gi i, 0 ≤ gi < 3 → 0 ≤ i < sh_n (sw_cfg w) → is_Some (current (sw_cfg w') gi i)) ∧
  (∀ gi, 0 ≤ gi < 3 → ∃ gg, the_group (sw_cfg w') gi = Ret gg).
Proof.
  intros Hw Hnone Hr. change (seqZ 0 3) with [0; 1; 2] in Hr. cbn [foldM] in Hr. inv_ret. subst x1.
  destruct (make_group_wired _ _ _ _ _ Hw (Hnone 0) E) as (Hw1 & Hs1 & Hup1 & Ho1 & gg1 & Eg1).
  assert (∀ i, current (sw_cfg x) 1 i = None) as Hnone1 by (intros i; by rewrite Ho1).
  destruct (make_group_wired _ _ _ _ _ Hw1 Hnone1 E0) as (Hw2 & Hs2 & Hup2 & Ho2 & gg2 & Eg2).
  assert (∀ i, current (sw_cfg x0) 2 i = None) as Hnone2 by (intros i; by rewrite Ho2, Ho1).
  destruct (make_group_wired _ _ _ _ _ Hw2 Hnone2 E1) as (Hw3 & Hs3 & Hup3 & _ & gg3 & Eg3).
  pose proof (proj1 Hs1). pose proof (proj1 Hs2). split_and!; [done|by do 2 (etransitivity; [done|])| |].
  2: { destruct Hs2 as (_ & _ & _ & Hk2), Hs3 as (_ & _ & _ & Hk3). destruct (Hk2 _ _ Eg1) as [gg1' Eg1'].
    intros gi Hgi. assert (gi = 0 ∨ gi = 1 ∨ gi = 2) as [-> | [-> | ->]] by lia; [by eapply Hk3|by eapply Hk3|by eexists]. }
  intros gi i Hgi Hi. assert (gi = 0 ∨ gi = 1 ∨ gi = 2) as [-> | [-> | ->]] by lia.
  - apply Hup3. right. apply Hup2. right. apply Hup1. auto.
  - apply Hup3. right. apply Hup2. left. split; [done|lia].
  - apply Hup3. left. split; [done|lia].
Qed.

Lemma sh_make_config_wired cdraw kdraw draw mdraw n unreliable maxraftstate now s w :
  sh_make_config ops cdraw kdraw draw mdraw n unreliable maxraftstate now s = Ret w →
  sh_wired w ∧ sh_n (sw_cfg w) = n ∧ sh_nctrlers (sw_cfg w) = 3 ∧
  (∀ gi i, 0 ≤ gi < 3 → 0 ≤ i < n → is_Some (current (sw_cfg w) gi i)) ∧
  (∀ gi, 0 ≤ gi < 3 → ∃ gg, the_group (sw_cfg w) gi = Ret gg) ∧
  (∀ i, 0 ≤ i < 3 → ∃ sc, (sh_ctrlerservers (sw_cfg w)).[i] = Ret (Some sc)).
Proof.
  intros Hr. unfold sh_make_config in Hr. inv_ret. apply go_make_ret in E as ->. rename x0 into w1.
  match type of E0 with foldM _ ?w0 _ = _ => assert (sh_wired w0) as Hw0 end.
  { apply sh_initial_wired; [by apply (nil_groups _ 0)|done|].
    intros i sc [_ Hi]%go_index_ret. by apply lookup_replicate in Hi as [? _]. }
  destruct (start_ctrlers_wired _ _ _ _ Hw0 E0) as (Hw1 & Eg1 & Ec1 & Hs1); clear E0 Hw0.
  simpl in Eg1, Ec1. unfold shardclerk in E1. inv_ret. destruct x as [ends cfg2]. inv_ret. subst x1. cbv beta iota in Hr. inv_ret.
  destruct (ctrler_ends_wired _ _ _ _ Hw1 E) as [Hw2 [rn ->]]; clear E.
  match goal with H : go_make 3 None = Ret _ |- _ => apply go_make_ret in H as -> end.
  match goal with H : foldM (make_group _ _ _) _ _ = Ret _ |- _ => rename H into Hgroups end.
  match type of Hgroups with foldM _ (sw_with_cfg _ ?c) _ = _ =>
    destruct (wired_no_groups (sw_with_cfg w1 (sh_with_net (sw_cfg w1) rn)) c Hw2) as [Hw3 Hnone] end;
    [by apply (nil_groups _ 0)|by apply (nil_groups _ 3)|done|done|].
  destruct (make_groups_wired _ _ _ _ Hw3 Hnone Hgroups) as (Hw4 & (En & Ec & Es & _) & Hup & Hmade). simpl in En, Ec, Es, Hup.
  subst w. simpl. split_and!; [|done|congruence|exact Hup|exact Hmade|].
  - destruct Hw4 as [Hf Hfull Ht Hen Hrt Hct].
    split; [exact Hf|exact Hfull|eapply table_same; [exact Ht|done|done]|exact Hen|exact Hrt|exact Hct].
  - intros i Hi. rewrite Es. apply Hs1. apply elem_of_seqZ. lia.
Qed.
End services.
