(* ===== verification/ShardReach.v ===== *)
(** What the tests of the sharded service rely on: the servers' ends, the
    groups that a test announces to the controllers, and for how many servers
    the harness works at all. *)
From Stdlib Require Import ZArith Lia.
From stdpp Require Import base gmap sets list strings pretty.
From S2P Require Import Prelude Labrpc Persister Iface Tables Raft RaftConfig RaftNet Clerks KvConfig ShardConfig ShardNet ShardHarness.

(** ** Names that are announced *)

Lemma fill_names n gid :
  0 ≤ n → foldM (λ names i, names.[i <- servername gid i]) (replicate (Z.to_nat n) "") (seqZ 0 n) = Ret (servername gid <$> seqZ 0 n).
Proof.
  intros Hn. destruct (foldM_inv (λ names i, names.[i <- servername gid i])
    (λ _ names, length names = Z.to_nat n) (replicate (Z.to_nat n) "") (seqZ 0 n)) as (names & E & Hlen).
  - apply length_replicate.
  - intros l1 i l2 names Hl Hlen. assert (i ∈ seqZ 0 n) as Hi%elem_of_seqZ by (rewrite Hl; set_solver).
    eexists. split; [apply go_update_ret; lia|]. by rewrite length_insert.
  - rewrite E. f_equal. apply (fill_row (servername gid)) in E as [_ Hrow]. apply list_eq. intros k.
    destruct (decide (k < Z.to_nat n)%nat) as [Hk|Hk].
    + pose proof (Hrow (Z.of_nat k) ltac:(lia)) as Ek. apply go_index_ret in Ek as [_ Ek]. rewrite Nat2Z.id in Ek.
      rewrite Ek, list_lookup_fmap, lookup_seqZ_lt by lia. done.
    + rewrite (lookup_ge_None_2 names) by lia. symmetry. apply lookup_ge_None_2.
      rewrite length_fmap, length_seqZ. lia.
Qed.

Lemma join_groups_ret cfg gis :
  0 ≤ sh_n cfg → (∀ gi, gi ∈ gis → ∃ gg, the_group cfg gi = Ret gg ∧ gid gg = 100 + gi) →
  ∃ m, join_groups cfg gis = Ret m ∧
    ∀ g names, m !! g = Some names ↔ ∃ gi, gi ∈ gis ∧ g = 100 + gi ∧ names = servername g <$> seqZ 0 (sh_n cfg).
Proof.
  intros Hn Hgis. unfold join_groups.
  apply (foldM_inv _ (λ gis m, ∀ g names, m !! g = Some names ↔
    ∃ gi, gi ∈ gis ∧ g = 100 + gi ∧ names = servername g <$> seqZ 0 (sh_n cfg))).
  - intros g names. rewrite lookup_empty. split; [done|]. by intros (gi & ?%elem_of_nil & _).
  - intros l1 gi l2 m Hl Hm. destruct (Hgis gi) as (gg & Egg & Egid); [rewrite Hl; set_solver|].
    rewrite Egg. unfold go_make. cbn [mbind result_bind]. rewrite decide_True by done. cbn [mbind result_bind].
    rewrite fill_names by done. cbn [mbind result_bind]. eexists. split; [done|]. rewrite Egid.
    intros g names. rewrite lookup_insert. case_decide as Ed.
    + subst g. split.
      * intros [= <-]. exists gi. split_and!; [set_solver|done|done].
      * by intros (gi' & _ & _ & ->).
    + rewrite Hm. setoid_rewrite elem_of_app. setoid_rewrite list_elem_of_singleton. split.
      * intros (gi' & ? & ? & ?). exists gi'. auto.
      * intros (gi' & [?| ->] & ? & ?); [by exists gi'|congruence].
Qed.

Section services.
Context {S : Type} (ops : ShardOps S).
Abbreviation world := (sworld S).

(** C38: in every state a test reaches, a running server of a group has an
    enabled end for each server of its group and for each controller, all
    with different names, and requests to its name reach it; of a server that
    was shut down no end in the harness's rows is enabled, and nothing answers
    to its name; the controllers always answer. All servers run at the start.
    The ends that servers and clerks make with [make_end] stand in no row: each
    stays enabled and leads to the server it was made for, whatever is shut
    down or started after. *)
Theorem shard_servers_wired cdraw kdraw draw mdraw n unreliable maxraftstate now s w0 os (w : world) :
  sh_make_config ops cdraw kdraw draw mdraw n unreliable maxraftstate now s = Ret w0 →
  foldM (sh_step ops) w0 os = Ret w →
  let cfg := sw_cfg w in
  (∀ gi i, 0 ≤ gi < 3 → 0 ≤ i < n → is_Some (current (sw_cfg w0) gi i)) ∧
  (∀ gi i kv, current cfg gi i = Some kv →
     (∀ j, 0 ≤ j < n → ∃ e, shard_end cfg (Peers gi i) j = Ret e ∧
        leads (sh_net cfg) e (Str (servername (100 + gi) j)) ∧ is_enabled (sh_net cfg) (Str e) = true) ∧
     (∀ j, 0 ≤ j < 3 → ∃ e, shard_end cfg (Ctls gi i) j = Ret e ∧
        leads (sh_net cfg) e (Str (ctrlername j)) ∧ is_enabled (sh_net cfg) (Str e) = true) ∧
     ∃ p, registered (sh_net cfg) (Str (servername (100 + gi) i)) = Some p ∧ sw_srvs w !! p = Some (inl kv)) ∧
  (∀ gi i, 0 ≤ gi → current cfg gi i = None →
     (∀ r j e, owner_of r = (gi, i) → shard_end cfg r j = Ret e → is_enabled (sh_net cfg) (Str e) = false) ∧
     registered (sh_net cfg) (Str (servername (100 + gi) i)) = None) ∧
  (∀ i, 0 ≤ i < 3 → ∃ sc p, registered (sh_net cfg) (Str (ctrlername i)) = Some p ∧ sw_srvs w !! p = Some (inr sc)) ∧
  (∀ r j r' j' e, shard_end cfg r j = Ret e → shard_end cfg r' j' = Ret e → r = r' ∧ j = j') ∧
  (∀ os1 os2 e name, os = os1 ++ ShMakeEnd e name :: os2 →
     leads (sh_net cfg) e (Str name) ∧ is_enabled (sh_net cfg) (Str e) = true ∧ ∀ r j, shard_end cfg r j ≠ Ret e).
Proof.
  intros (Hw0 & En & Ec & Hup & _ & Hct)%sh_make_config_wired Hr.
  destruct (sh_steps_wired _ _ _ _ Hw0 Hr) as ([Hf Hfull Ht Hen Hrt Hctl] & En' & Ec' & Ecs & _).
  cbv zeta. split_and!; [done|..].
  - intros gi i kv Hkv. destruct (Hfull gi i) as [H1 H2]; [by eexists|]. rewrite En', En in H1. rewrite Ec', Ec in H2.
    split_and!.
    + intros j Hj. destruct (H1 j Hj) as [e He]. exists e. split_and!; [done|by apply (tb_leads _ _ _ Ht (Peers gi i))|].
      apply (Hen _ _ _ He). by eexists.
    + intros j Hj. destruct (H2 j Hj) as [e He]. exists e. split_and!; [done|by apply (tb_leads _ _ _ Ht (Ctls gi i))|].
      apply (Hen _ _ _ He). by eexists.
    + assert (0 ≤ gi) as Hgi.
      { unfold current in Hkv. destruct (the_group (sw_cfg w) gi) eqn:E; [by eapply the_group_range|done..]. }
      specialize (Hrt gi i Hgi). by rewrite Hkv in Hrt.
  - intros gi i Hgi Hnone. split.
    + intros r j e Hr' He. apply not_true_iff_false. rewrite (Hen _ _ _ He). unfold running. rewrite Hr'. simpl.
      rewrite Hnone. by intros [].
    + specialize (Hrt gi i Hgi). by rewrite Hnone in Hrt.
  - intros i Hi. destruct (Hct i Hi) as [sc Hsc]. destruct (Hctl i sc) as (p & ? & ?); [by rewrite Ecs|]. by exists sc, p.
  - apply Ht.
  - intros os1 os2 e name ->. by destruct (sh_steps_spare _ _ _ _ _ _ _ Hw0 Hr).
Qed.

(** C39: what a test announces to the controllers can be used: [joinm] sends
    the numbers of exactly the groups it is given, each with the names of all
    its servers, and the end that a clerk makes of such a name leads to the
    instance that runs under it. *)
Theorem joined_groups_reachable cdraw kdraw draw mdraw n unreliable maxraftstate now s w0 os (w : world) gis :
  sh_make_config ops cdraw kdraw draw mdraw n unreliable maxraftstate now s = Ret w0 →
  foldM (sh_step ops) w0 os = Ret w → 0 ≤ n → (∀ gi, gi ∈ gis → 0 ≤ gi < 3) →
  ∃ m, join_groups (sw_cfg w) gis = Ret m ∧
    (∀ g names, m !! g = Some names ↔ ∃ gi, gi ∈ gis ∧ g = 100 + gi ∧ names = servername g <$> seqZ 0 n) ∧
    ∀ gi i kv names name e rn, m !! (100 + gi) = Some names → names.[i] = Ret name →
      current (sw_cfg w) gi i = Some kv → make_end e name (sh_net (sw_cfg w)) = Ret rn →
      is_enabled rn (Str e) = true ∧
      ∃ t p, connection rn (Str e) = Some t ∧ registered rn t = Some p ∧ sw_srvs w !! p = Some (inl kv).
Proof.
  intros (Hw0 & En & _ & _ & Hmade & _)%sh_make_config_wired Hr Hn Hgis.
  destruct (sh_steps_wired _ _ _ _ Hw0 Hr) as (Hw & En' & _ & _ & Hk).
  assert (sh_n (sw_cfg w) = n) as En1 by congruence.
  destruct (join_groups_ret (sw_cfg w) gis) as (m & Em & Hm); [lia| |].
  { intros gi Hgi. destruct (Hmade gi (Hgis gi Hgi)) as [gg Egg]. destruct (Hk _ _ Egg) as [gg' Egg'].
    exists gg'. split; [done|]. by destruct (sw_fits _ Hw _ _ Egg'). }
  rewrite En1 in Hm. exists m. split_and!; [done|done|].
  intros gi i kv names name e rn Hnames Hname Hkv (_ & Es & _ & Hon & Hto & _)%new_end_ret.
  apply Hm in Hnames as (gi' & Hin & Egi & ->). assert (gi' = gi) as -> by lia.
  split; [done|]. exists (Str name).
  apply go_index_ret in Hname as [Hi Hname]. rewrite list_lookup_fmap in Hname.
  apply fmap_Some in Hname as (k & Hk' & ->). apply lookup_seqZ in Hk' as [-> _].
  assert (0 + Z.of_nat (Z.to_nat i) = i) as Ei by lia. rewrite Ei in *.
  pose proof (sw_routed _ Hw gi i) as Hrt. rewrite Hkv in Hrt. destruct Hrt as (p & Hp & Hs); [by apply Hgis|].
  exists p. split_and!; [done| |done]. unfold registered in *. by rewrite Es.
Qed.

(** C40: three servers to a group are the only number with which the harness
    works. The rows for the ends to the controllers are as many as the
    controllers but indexed by server, so that with a fourth server
    [make_config] runs out of them; and the row of a client's ends to the
    controllers is only as long as a group has servers, so that in no state of
    a test with fewer than three can a client be made. *)
Theorem harness_needs_three cdraw kdraw draw mdraw n unreliable maxraftstate now s w0 os (w : world) :
  sh_make_config ops cdraw kdraw draw mdraw n unreliable maxraftstate now s = Ret w0 →
  foldM (sh_step ops) w0 os = Ret w →
  n ≤ 3 ∧ ∀ d cfg ck, sh_makeClient d (sw_cfg w) = Ret (cfg, ck) → n = 3.
Proof.
  intros (Hw0 & En & Ec & Hup & _)%sh_make_config_wired Hr.
  assert (n ≤ 3) as Hle.
  { destruct (decide (n ≤ 3)) as [|Hn]; [done|].
    destruct (sw_full _ Hw0 0 3) as [_ Hm]; [apply Hup; lia|]. destruct (Hm 0) as [e He]; [lia|].
    apply shard_end_ret in He as (row & Hrow & _). simpl in Hrow.
    apply bind_ret_inv in Hrow as (gg & Egg & Hrow%go_index_lt). destruct (sw_fits _ Hw0 _ _ Egg) as (_ & _ & _ & Hl). lia. }
  destruct (sh_steps_wired _ _ _ _ Hw0 Hr) as (_ & En' & Ec' & _). split; [done|].
  intros d cfg ck Hmk. unfold sh_makeClient in Hmk. inv_ret. apply go_make_ret in E as ->.
  destruct x0 as [names rn]. apply draw_ends_ret in E0 as (_ & Hlen & Hd). rewrite length_replicate in Hlen.
  pose proof (Hd 2 ltac:(lia)) as H2%go_index_lt. lia.
Qed.
End services.

(** ** A sample *)

(** Groups of three; a server makes an end, is shut down, and another one is
    restarted. *)
Definition sample_rows (tag : string) (gi i j : Z) : string := tag +:+ digit gi +:+ digit i +:+ digit j.
Definition no_shard_world : sworld shardpeers :=
  mkSWorld (mkSConfig MakeNetwork 0 0 [] None 0 0 [] ∅ 0 0) (mkHeap [] ∅) ∅ (mkShardPeers ∅ ∅ ∅).
Definition three_groups : sworld shardpeers :=
  get (sh_make_config shard_skeleton (sample_rows "c" 0) (sample_rows "k" 0 0) (sample_rows "s") (sample_rows "m")
    3 false (-1) 0 (mkShardPeers ∅ ∅ ∅)) no_shard_world.
Definition sample_sh_ops : list sh_op :=
  [ShMakeClient (sample_rows "x" 0 0); ShMakeEnd "z" (servername 100 0); ShShutdown 1 2; ShShutdown 0 1; ShStart (sample_rows "n" 0 1) (sample_rows "o" 0 1) 0 1].
Definition restarted_groups : sworld shardpeers := get (foldM (sh_step shard_skeleton) three_groups sample_sh_ops) no_shard_world.

Lemma three_groups_ret :
  sh_make_config shard_skeleton (sample_rows "c" 0) (sample_rows "k" 0 0) (sample_rows "s") (sample_rows "m")
    3 false (-1) 0 (mkShardPeers ∅ ∅ ∅) = Ret three_groups.
Proof. apply get_ret. vm_compute. reflexivity. Qed.
Lemma restarted_groups_ret : foldM (sh_step shard_skeleton) three_groups sample_sh_ops = Ret restarted_groups.
Proof. apply get_ret. vm_compute. reflexivity. Qed.
Lemma makes_client d cfg : returns (sh_makeClient d cfg) = true → ∃ cfg' ck, sh_makeClient d cfg = Ret (cfg', ck).
Proof. destruct (sh_makeClient d cfg) as [[cfg' ck]| |]; [|done..]. intros _. by exists cfg', ck. Qed.
#[local] Opaque three_groups restarted_groups.

Lemma shard_servers_wired_witness :
  current (sw_cfg restarted_groups) 0 1 = Some 9%nat ∧
  (∃ e, shard_end (sw_cfg restarted_groups) (Peers 0 1) 2 = Ret e ∧
     leads (sh_net (sw_cfg restarted_groups)) e (Str (servername 100 2)) ∧
     is_enabled (sh_net (sw_cfg restarted_groups)) (Str e) = true) ∧
  registered (sh_net (sw_cfg restarted_groups)) (Str (servername 101 2)) = None ∧
  is_enabled (sh_net (sw_cfg restarted_groups)) (Str "z") = true.
Proof.
  assert (current (sw_cfg restarted_groups) 0 1 = Some 9%nat) as Hup by (vm_compute; reflexivity).
  assert (current (sw_cfg restarted_groups) 1 2 = None) as Hdown by (vm_compute; reflexivity).
  destruct (shard_servers_wired shard_skeleton _ _ _ _ _ _ _ _ _ _ _ _ three_groups_ret restarted_groups_ret)
    as (_ & Hrun & Hstopped & _ & _ & Hspare).
  split; [exact Hup|]. split; [|split].
  - destruct (Hrun 0 1 9%nat Hup) as (Hends & _). destruct (Hends 2) as (e & He & Hl & Hon); [lia|].
    exists e. split; [exact He|]. split; [exact Hl|exact Hon].
  - destruct (Hstopped 1 2) as [_ Hreg]; [lia|exact Hdown|exact Hreg].
  - destruct (Hspare [ShMakeClient (sample_rows "x" 0 0)] (drop 2 sample_sh_ops) "z" (servername 100 0) eq_refl) as (_ & Hon & _).
    exact Hon.
Defined.

Lemma joined_groups_reachable_witness :
  ∃ m, join_groups (sw_cfg restarted_groups) [0; 2] = Ret m ∧
    m !! 102 = Some (servername 102 <$> seqZ 0 3).
Proof.
  destruct (joined_groups_reachable shard_skeleton _ _ _ _ _ _ _ _ _ _ _ _ [0; 2] three_groups_ret restarted_groups_ret)
    as (m & Em & Hm & _); [lia|intros gi Hgi; rewrite !elem_of_cons, elem_of_nil in Hgi; lia|].
  exists m. split; [exact Em|]. apply Hm. exists 2. split; [right; left|]. by split.
Defined.

Lemma harness_needs_three_witness :
  (∃ cfg ck, sh_makeClient (sample_rows "y" 0 0) (sw_cfg restarted_groups) = Ret (cfg, ck)) ∧
  3 ≤ 3 ∧ ∀ d cfg ck, sh_makeClient d (sw_cfg restarted_groups) = Ret (cfg, ck) → 3 = 3.
Proof.
  split; [apply makes_client; vm_compute; reflexivity|].
  apply (harness_needs_three shard_skeleton _ _ _ _ _ _ _ _ _ _ _ _ three_groups_ret restarted_groups_ret).
Defined.

(** With four servers to a group the harness does not start; with two it
    starts, and no client can be made. *)
Definition groups_of (n : Z) : result (sworld shardpeers) :=
  sh_make_config shard_skeleton (sample_rows "c" 0) (sample_rows "k" 0 0) (sample_rows "s") (sample_rows "m")
    n false (-1) 0 (mkShardPeers ∅ ∅ ∅).
Example four_servers_panic : groups_of 4 = Panic IndexOutOfRange.
Proof. vm_compute. reflexivity. Qed.
Example two_servers_no_client :
  (w ← groups_of 2; sh_makeClient (sample_rows "y" 0 0) (sw_cfg w)) = Panic IndexOutOfRange.
Proof. vm_compute. reflexivity. Qed.
