(* ===== verification/MapReduce.v ===== *)
(** mr/worker.go (keys and hashing), main/mrsequential.go (the sequential
    MapReduce), main/mrworker.go (plugin loading) and the applications of
    mrapps/.

    Files are given by what reading them returns; the output file is the
    string written to it. A Go string is cut into runes, and runes are
    classified, by two parameters ([runes], [isLetter]). *)
From Stdlib Require Import ZArith Lia Ascii.
From stdpp Require Import base gmap sets list strings pretty sorting.
From S2P Require Import Prelude.

Record KeyValue := mkKeyValue { Key : string; Value : string }.

#[export] Instance KeyValue_eq_dec : EqDecision KeyValue.
Proof. solve_decision. Defined.

(** hash/fnv's 32-bit FNV-1a. *)
Definition fnv32a (s : string) : Z :=
  foldl (λ h c, wrap 32 (Z.lxor h (Z.of_N (N_of_ascii c)) * 16777619)) 2166136261 (String.list_ascii_of_string s).

Definition ihash (key : string) : Z := Z.land (fnv32a key) 2147483647.

(** ** Plugins *)

Abbreviation mapf_t := (string → string → result (list KeyValue)).
Abbreviation reducef_t := (string → list string → result string).

(** What a plugin's symbol is bound to. *)
Inductive symbol := SymMap (f : mapf_t) | SymReduce (f : reducef_t) | SymOther.

(** package plugin: opening a file, looking a name up in it. *)
Definition loadPlugin (plugin_Open : string → option (string → option symbol)) (filename : string)
    : result (mapf_t * reducef_t) :=
  match plugin_Open filename with
  | None => Panic (Fatal ("cannot load plugin " +:+ filename))
  | Some lookup =>
      match lookup "Map" with
      | None => Panic (Fatal ("cannot find Map in " +:+ filename))
      | Some xmapf =>
          mapf ← match xmapf with SymMap f => Ret f | _ => Panic TypeAssertion end;
          match lookup "Reduce" with
          | None => Panic (Fatal ("cannot find Reduce in " +:+ filename))
          | Some xreducef =>
              reducef ← match xreducef with SymReduce f => Ret f | _ => Panic TypeAssertion end;
              Ret (mapf, reducef)
          end
      end
  end.

(** ** mrsequential *)

Definition ByKey_Less (a b : KeyValue) : bool := string_less (Key a) (Key b).

#[export] Instance ByKey_WeakOrder : WeakOrder ByKey_Less.
Proof.
  split; intros *; unfold ByKey_Less; [apply less_total|apply less_trans].
Qed.

Section sequential.
Context (mapf : mapf_t) (reducef : reducef_t).
(** What [ioutil.ReadAll] returns for a file; [None] if it cannot be opened. *)
Context (read_file : string → option string).
Context (sort : list KeyValue → list KeyValue).

Definition map_file (intermediate : list KeyValue) (filename : string) : result (list KeyValue) :=
  match read_file filename with
  | None => Panic (Fatal ("cannot open " +:+ filename))
  | Some content => kva ← mapf filename content; Ret (intermediate ++ kva)
  end.

(** [for j < len(l) && l[j].Key == l[i].Key { j++ }] *)
Fixpoint run_end (fuel : nat) (l : list KeyValue) (i j : Z) : result Z :=
  match fuel with
  | O => OutOfFuel
  | S fuel =>
      if decide (j < Z.of_nat (length l)) then
        a ← l.[j]; b ← l.[i];
        if decide (Key a = Key b) then run_end fuel l i (j + 1) else Ret j
      else Ret j
  end.

Definition line (key output : string) : string :=
  key +:+ " " +:+ output +:+ String (ascii_of_nat 10) EmptyString.

(** The reduce loop from index [i]; [out] has been written so far. *)
Fixpoint reduce_loop (fuel : nat) (l : list KeyValue) (i : Z) (out : string) : result string :=
  match fuel with
  | O => OutOfFuel
  | S fuel =>
      if decide (i < Z.of_nat (length l)) then
        j ← run_end (S (length l)) l i (i + 1);
        values ← foldM (λ values k, kv ← l.[k]; Ret (values ++ [Value kv])) [] (seqZ i (j - i));
        kv ← l.[i];
        output ← reducef (Key kv) values;
        reduce_loop fuel l j (out +:+ line (Key kv) output)
      else Ret out
  end.

Definition mrsequential (files : list string) : result string :=
  intermediate ← foldM map_file [] files;
  let intermediate := sort intermediate in
  reduce_loop (S (length intermediate)) intermediate 0 "".
End sequential.

(** [main] of mrsequential.go; the text of mr-out-0. *)
Definition mrsequential_main (plugin_Open : string → option (string → option symbol))
    (read_file : string → option string) (sort : list KeyValue → list KeyValue) (args : list string)
    : result string :=
  match args with
  | _ :: plug :: file :: files =>
      '(mapf, reducef) ← loadPlugin plugin_Open plug;
      mrsequential mapf reducef read_file sort (file :: files)
  | _ => Panic (Fatal "Usage: mrsequential xxx.so inputfiles...")
  end.

(** [main] of mrworker.go, given what [mr.Worker] does. *)
Definition mrworker_main {A} (plugin_Open : string → option (string → option symbol))
    (Worker : mapf_t → reducef_t → result A) (args : list string) : result A :=
  match args with
  | [_; plug] => '(mapf, reducef) ← loadPlugin plugin_Open plug; Worker mapf reducef
  | _ => Panic (Fatal "Usage: mrworker xxx.so")
  end.

(** ** Applications *)

Section apps.
Context (runes : string → list string) (isLetter : string → bool).

(** strings.FieldsFunc on a string's runes: the maximal runs of runes that
    are not separators; [cur] is the run being read. *)
Fixpoint fields_loop (ff : string → bool) (cur : string) (rs : list string) : list string :=
  match rs with
  | [] => if decide (cur = "") then [] else [cur]
  | r :: rs =>
      if ff r then (if decide (cur = "") then [] else [cur]) ++ fields_loop ff "" rs
      else fields_loop ff (cur +:+ r) rs
  end.
Definition FieldsFunc (s : string) (ff : string → bool) : list string := fields_loop ff "" (runes s).

(** strings.Join *)
Fixpoint Join (l : list string) (sep : string) : string :=
  match l with
  | [] => ""
  | [x] => x
  | x :: l => x +:+ sep +:+ Join l sep
  end.

(** wc.go *)
Definition wc_Map (filename contents : string) : result (list KeyValue) :=
  let ff r := negb (isLetter r) in
  let words := FieldsFunc contents ff in
  Ret (foldl (λ kva w, kva ++ [mkKeyValue w "1"]) [] words).
Definition wc_Reduce (key : string) (values : list string) : result string :=
  Ret (Itoa (Z.of_nat (length values))).

(** indexer.go; [range] is the order of the range over the map, [sort_strings]
    sort.Strings. *)
Context (range sort_strings : list string → list string).

Definition indexer_Map (document value : string) : result (list KeyValue) :=
  let words := FieldsFunc value (λ r, negb (isLetter r)) in
  let m := foldl (λ (m : gmap string bool) w, <[w := true]> m) ∅ words in
  Ret (foldl (λ res w, res ++ [mkKeyValue w document]) [] (range (map_to_list m).*1)).
Definition indexer_Reduce (key : string) (values : list string) : result string :=
  let values := sort_strings values in
  Ret (Itoa (Z.of_nat (length values)) +:+ " " +:+ Join values ",").

(** early_exit.go *)
Definition early_exit_Map (filename contents : string) : result (list KeyValue) :=
  Ret [mkKeyValue filename "1"].
Definition early_exit_Reduce (key : string) (values : list string) : result string :=
  Ret (Itoa (Z.of_nat (length values))).

(** crash.go; [rr] is the draw of [crand.Int]. *)
Definition maybeCrash (rr : Z) : result unit :=
  if decide (rr < 330) then Panic (Fatal "exit status 1") else Ret ().
Definition crash_Map (rr : Z) (filename contents : string) : result (list KeyValue) :=
  maybeCrash rr ≫= λ _,
  Ret [mkKeyValue "a" filename; mkKeyValue "b" (Itoa (Z.of_nat (String.length filename)));
       mkKeyValue "c" (Itoa (Z.of_nat (String.length contents))); mkKeyValue "d" "xyzzy"].
Definition crash_Reduce (rr : Z) (key : string) (values : list string) : result string :=
  maybeCrash rr ≫= λ _, Ret (Join (sort_strings values) " ").

(** nocrash.go *)
Definition nocrash_maybeCrash (rr : Z) : result unit :=
  if decide (False ∧ rr < 500) then Panic (Fatal "exit status 1") else Ret ().
Definition nocrash_Map (rr : Z) (filename contents : string) : result (list KeyValue) :=
  nocrash_maybeCrash rr ≫= λ _,
  Ret [mkKeyValue "a" filename; mkKeyValue "b" (Itoa (Z.of_nat (String.length filename)));
       mkKeyValue "c" (Itoa (Z.of_nat (String.length contents))); mkKeyValue "d" "xyzzy"].
Definition nocrash_Reduce (rr : Z) (key : string) (values : list string) : result string :=
  nocrash_maybeCrash rr ≫= λ _, Ret (Join (sort_strings values) " ").

(** jobcount.go: the files it finds are the invocations. *)
Definition jobcount_Reduce (files : list string) (key : string) (values : list string) : result string :=
  Ret (Itoa (foldl (λ invocations f,
    if String.prefix "mr-worker-jobcount" f then invocations + 1 else invocations) 0 files)).

(** rtiming.go and mtiming.go *)
Definition rtiming_Map (filename contents : string) : result (list KeyValue) :=
  Ret [mkKeyValue "a" "1"; mkKeyValue "b" "1"; mkKeyValue "c" "1"; mkKeyValue "d" "1"; mkKeyValue "e" "1";
       mkKeyValue "f" "1"; mkKeyValue "g" "1"; mkKeyValue "h" "1"; mkKeyValue "i" "1"; mkKeyValue "j" "1"].
Definition mtiming_Reduce (key : string) (values : list string) : result string :=
  Ret (Join (sort_strings values) " ").
End apps.
