(* ===== verification/MapReduceProof.v ===== *)
(** The sequential MapReduce computes what MapReduce means. *)
From Stdlib Require Import ZArith Lia Ascii.
From stdpp Require Import base gmap sets list strings pretty sorting.
From S2P Require Import Prelude MapReduce.

(** ** Runs of equal keys *)

(** The groups of consecutive pairs with the same key. *)
Fixpoint groups (l : list KeyValue) : list (string * list string) :=
  match l with
  | [] => []
  | kv :: l =>
      match groups l with
      | (k, vs) :: gs => if decide (Key kv = k) then (k, Value kv :: vs) :: gs
                         else (Key kv, [Value kv]) :: (k, vs) :: gs
      | [] => [(Key kv, [Value kv])]
      end
  end.

(** A list starts with a run of key [k] and goes on with another key. *)
Definition run_split (k : string) (g rest : list KeyValue) : Prop :=
  g ≠ [] ∧ Forall (λ kv, Key kv = k) g ∧ ∀ kv, head rest = Some kv → Key kv ≠ k.

Lemma run_split_exists kv l : ∃ g rest, kv :: l = g ++ rest ∧ head g = Some kv ∧ run_split (Key kv) g rest.
Proof.
  revert kv. induction l as [|kv' l IH]; intros kv.
  { exists [kv], []. split_and!; [done|done|]. by split_and!; [|repeat constructor|]. }
  destruct (decide (Key kv' = Key kv)) as [E|E].
  - destruct (IH kv') as (g & rest & -> & Hh & Hg & Hall & Hr). exists (kv :: g), rest.
    split_and!; [done|done|]. rewrite E in Hall, Hr. split_and!; [done|by constructor|done].
  - exists [kv], (kv' :: l). split_and!; [done|done|]. split_and!; [done|by repeat constructor|].
    by intros ? [= <-].
Qed.

Lemma groups_run k g rest : run_split k g rest → groups (g ++ rest) = (k, Value <$> g) :: groups rest.
Proof.
  intros (Hne & Hall & Hr). induction Hall as [|kv g Hk Hall IH]; [done|]. simpl.
  destruct g as [|kv' g].
  - simpl. destruct rest as [|kv' rest]; [by rewrite Hk|]. simpl.
    assert (∃ vs gs, groups (kv' :: rest) = (Key kv', vs) :: gs) as (vs & gs & E).
    { simpl. destruct (groups rest) as [|[k' vs] gs]; [by eexists _, _|]. case_decide; subst; by eexists _, _. }
    simpl in E. rewrite E. rewrite decide_False; [by rewrite Hk|]. rewrite Hk. intros E'. by eapply Hr.
  - rewrite IH by done. by rewrite decide_True.
Qed.

Lemma run_end_spec fuel pre k g1 g2 rest : run_split k (g1 ++ g2) rest → g1 ≠ [] →
  (length g2 < fuel)%nat →
  run_end fuel (pre ++ (g1 ++ g2) ++ rest) (Z.of_nat (length pre)) (Z.of_nat (length pre + length g1)) =
    Ret (Z.of_nat (length pre + length (g1 ++ g2))).
Proof.
  intros (Hne & Hall & Hr) Hg1. revert fuel g1 Hne Hall Hg1. induction g2 as [|b g2 IH]; intros fuel g1 Hne Hall Hg1 Hf.
  - rewrite app_nil_r in *. destruct fuel as [|fuel]; [simpl in Hf; lia|]. simpl.
    case_decide as Hlt; [|done]. rewrite !length_app in Hlt.
    destruct rest as [|kv rest]; [simpl in Hlt; lia|].
    assert ((pre ++ g1 ++ kv :: rest).[Z.of_nat (length pre + length g1)] = Ret kv) as ->.
    { apply go_index_ret. split; [lia|]. rewrite Nat2Z.id, (assoc_L (++)), <-length_app. by apply list_lookup_middle. }
    destruct g1 as [|a g1]; [done|].
    assert ((pre ++ (a :: g1) ++ kv :: rest).[Z.of_nat (length pre)] = Ret a) as ->.
    { apply go_index_ret. split; [lia|]. rewrite Nat2Z.id. by apply list_lookup_middle. }
    simpl. rewrite decide_False; [done|]. apply Forall_cons in Hall as [-> _]. by apply Hr.
  - destruct fuel as [|fuel]; [simpl in Hf; lia|]. cbn [run_end].
    rewrite decide_True by (rewrite !length_app; simpl; lia).
    assert ((pre ++ (g1 ++ b :: g2) ++ rest).[Z.of_nat (length pre + length g1)] = Ret b) as ->.
    { apply go_index_ret. split; [lia|].
      rewrite Nat2Z.id, <-(assoc_L (++) g1), (assoc_L (++) pre), <-length_app. by apply list_lookup_middle. }
    destruct g1 as [|a g1]; [done|].
    assert ((pre ++ ((a :: g1) ++ b :: g2) ++ rest).[Z.of_nat (length pre)] = Ret a) as ->.
    { apply go_index_ret. split; [lia|]. rewrite Nat2Z.id. by apply list_lookup_middle. }
    cbn [mbind result_bind]. pose proof Hall as Hall'. apply Forall_app in Hall' as [Ha [Hb _]%Forall_cons].
    apply Forall_cons in Ha as [Ha _]. rewrite decide_True by congruence.
    specialize (IH fuel ((a :: g1) ++ [b])). rewrite <-!(assoc_L (++)) in IH. simpl ([b] ++ g2) in IH.
    rewrite length_app in IH. simpl (length [b]) in IH.
    replace (Z.of_nat (length pre + length (a :: g1)) + 1) with (Z.of_nat (length pre + (length (a :: g1) + 1))) by lia.
    rewrite <-(assoc_L (++)). apply IH; [done|done|done|simpl in Hf; lia].
Qed.

Lemma collect_values pre g rest :
  foldM (λ values k, kv ← (pre ++ g ++ rest).[k]; Ret (values ++ [Value kv])) []
    (seqZ (Z.of_nat (length pre)) (Z.of_nat (length g))) = Ret (Value <$> g).
Proof.
  assert (∀ acc pre, foldM (λ values k, kv ← (pre ++ g ++ rest).[k]; Ret (values ++ [Value kv])) acc
    (seqZ (Z.of_nat (length pre)) (Z.of_nat (length g))) = Ret (acc ++ (Value <$> g))) as Hc; [|apply Hc].
  clear pre. induction g as [|kv g IH]; intros acc pre; [simpl; by rewrite app_nil_r|].
  rewrite seqZ_cons by (simpl; lia). cbn [foldM].
  assert ((pre ++ (kv :: g) ++ rest).[Z.of_nat (length pre)] = Ret kv) as ->.
  { apply go_index_ret. split; [lia|]. rewrite Nat2Z.id. by apply list_lookup_middle. }
  cbn [mbind result_bind]. specialize (IH (acc ++ [Value kv]) (pre ++ [kv])).
  rewrite length_app in IH. simpl (length [kv]) in IH.
  replace (Z.succ (Z.of_nat (length pre))) with (Z.of_nat (length pre + 1)) by lia.
  replace (Z.pred (Z.of_nat (length (kv :: g)))) with (Z.of_nat (length g)) by (simpl; lia).
  rewrite <-(assoc_L (++)) in IH. simpl in IH |- *. rewrite IH. by rewrite <-(assoc_L (++)).
Qed.

(** Reduce one group and write its line. *)
Definition reduce_group (reducef : reducef_t) (out : string) (g : string * list string) : result string :=
  output ← reducef g.1 g.2; Ret (out +:+ line g.1 output).

Lemma reduce_loop_spec reducef fuel pre l out : (length l < fuel)%nat →
  reduce_loop reducef fuel (pre ++ l) (Z.of_nat (length pre)) out = foldM (reduce_group reducef) out (groups l).
Proof.
  revert pre l out. induction fuel as [|fuel IH]; intros pre l out Hf; [lia|]. cbn [reduce_loop].
  destruct l as [|kv l]; [rewrite app_nil_r, decide_False by lia; done|].
  destruct (run_split_exists kv l) as (g & rest & E & Hh & Hs). rewrite E.
  rewrite decide_True by (rewrite length_app; destruct g; simpl in *; [by destruct Hs|lia]).
  destruct g as [|a g]; [by destruct Hs|]. simpl in Hh. injection Hh as ->.
  pose proof (run_end_spec (S (length (pre ++ (kv :: g) ++ rest))) pre (Key kv) [kv] g rest Hs) as Hend.
  simpl ([kv] ++ g) in Hend. simpl (length [kv]) in Hend.
  replace (Z.of_nat (length pre) + 1) with (Z.of_nat (length pre + 1)) by lia.
  rewrite Hend; [|done|rewrite !length_app; simpl; lia]. cbn [mbind result_bind].
  replace (Z.of_nat (length pre + length (kv :: g)) - Z.of_nat (length pre)) with (Z.of_nat (length (kv :: g))) by lia.
  rewrite collect_values. cbn [mbind result_bind].
  assert ((pre ++ (kv :: g) ++ rest).[Z.of_nat (length pre)] = Ret kv) as ->.
  { apply go_index_ret. split; [lia|]. rewrite Nat2Z.id. by apply list_lookup_middle. }
  cbn [mbind result_bind]. rewrite (groups_run _ _ _ Hs). cbn [foldM]. unfold reduce_group at 2. cbn [fst snd].
  destruct (reducef (Key kv) (Value <$> kv :: g)); [|done..]. cbn [mbind result_bind].
  rewrite <-length_app, (assoc_L (++)). apply IH.
  apply (f_equal length) in E. rewrite length_app in E. simpl in *. lia.
Qed.

(** ** Groups of a sorted list *)

Definition values_of (k : string) (l : list KeyValue) : list string :=
  Value <$> filter (λ kv, Key kv = k) l.

Lemma sorted_rest k g rest :
  StronglySorted (λ a b, ByKey_Less b a = false) (g ++ rest) → run_split k g rest →
  ∀ kv, kv ∈ rest → Key kv ≠ k ∧ String.le k (Key kv).
Proof.
  intros Hs (Hne & Hall & Hr) kv Hin.
  assert (∀ x, x ∈ rest → String.le k (Key x)) as Hle.
  { intros x Hx. destruct g as [|a g]; [done|]. apply Forall_cons in Hall as [<- _].
    apply StronglySorted_inv in Hs as [_ Hs]. rewrite Forall_forall in Hs.
    apply string_less_le. apply Hs. apply elem_of_app. by right. }
  split; [|by apply Hle]. destruct rest as [|b rest]; [by apply not_elem_of_nil in Hin|].
  assert (Key b ≠ k) as Hb by (by apply Hr).
  apply elem_of_cons in Hin as [->|Hin]; [done|]. intros <-. apply Hb.
  apply (anti_symm String.le); [|apply Hle; left].
  assert (StronglySorted (λ a b, ByKey_Less b a = false) (b :: rest)) as Hsr.
  { clear -Hs. induction g as [|a g IH]; [done|]. apply IH. by apply StronglySorted_inv in Hs as [? _]. }
  apply StronglySorted_inv in Hsr as [_ Hsr]. rewrite Forall_forall in Hsr. apply string_less_le, (Hsr kv Hin).
Qed.

Lemma groups_sorted l : StronglySorted (λ a b, ByKey_Less b a = false) l →
  NoDup (groups l).*1 ∧ StronglySorted String.le (groups l).*1 ∧
  (∀ k, k ∈ (groups l).*1 ↔ k ∈ Key <$> l) ∧
  ∀ k vs, (k, vs) ∈ groups l → vs = values_of k l.
Proof.
  remember (length l) as n eqn:En. revert l En. induction n as [n IH] using lt_wf_ind. intros l -> Hs.
  destruct l as [|kv l].
  { split_and!; [constructor|constructor|done|]. by intros ?? ?%not_elem_of_nil. }
  destruct (run_split_exists kv l) as (g & rest & E & Hh & Hsp). rewrite E in *.
  pose proof (sorted_rest _ _ _ Hs Hsp) as Hrest. pose proof Hsp as (Hne & Hall & _).
  rewrite (groups_run _ _ _ Hsp). csimpl.
  destruct (IH (length rest)) with (l := rest) as (Hnd & Hss & Hk & Hv).
  { rewrite length_app. destruct g; [done|simpl; lia]. }
  { done. }
  { clear -Hs. induction g as [|a g IH]; [done|]. apply IH. by apply StronglySorted_inv in Hs as [? _]. }
  assert (∀ k, k ∈ (groups rest).*1 → Key kv ≠ k ∧ String.le (Key kv) k) as Hgt.
  { intros k Hin%Hk. apply list_elem_of_fmap in Hin as (x & -> & Hx). destruct (Hrest x Hx). split; [congruence|done]. }
  rewrite Forall_forall in Hall. split_and!.
  - constructor; [|done]. intros Hin. by destruct (Hgt _ Hin).
  - constructor; [done|]. apply Forall_forall. intros k Hin. by apply Hgt.
  - intros k. rewrite fmap_app, elem_of_cons, elem_of_app, Hk. split; (intros [Hin|Hin]; [left|by right]).
    + rewrite Hin. apply list_elem_of_fmap. exists kv. split; [done|]. destruct g; [done|]. simpl in Hh.
      injection Hh as ->. left.
    + apply list_elem_of_fmap in Hin as (x & -> & Hx). by apply Hall.
  - intros k vs [[= -> ->]|Hin]%elem_of_cons; unfold values_of; rewrite filter_app.
    + rewrite (filter_all _ g) by done. rewrite (proj2 (filter_nil_iff _ rest)); [by rewrite app_nil_r|].
      intros x Hx. by destruct (Hrest x Hx).
    + assert (k ∈ (groups rest).*1) as Hkin by (apply list_elem_of_fmap; by exists (k, vs)).
      destruct (Hgt k Hkin) as [Hkne _].
      rewrite (proj2 (filter_nil_iff _ g)); [simpl; by apply Hv|]. intros x Hx%Hall. congruence.
Qed.

(** ** The whole job *)

Section job.
Context (mapf : mapf_t) (reducef : reducef_t) (read_file : string → option string).
Context (sort : list KeyValue → list KeyValue) `{!SortsBy ByKey_Less sort}.

(** Everything the map phase emits, in order. *)
Fixpoint emitted (files : list string) (kvs : list KeyValue) : Prop :=
  match files with
  | [] => kvs = []
  | f :: files => ∃ content kva rest, read_file f = Some content ∧ mapf f content = Ret kva ∧
      kvs = kva ++ rest ∧ emitted files rest
  end.

Lemma map_phase files kvs acc : emitted files kvs → foldM (map_file mapf read_file) acc files = Ret (acc ++ kvs).
Proof.
  revert acc kvs. induction files as [|f files IH]; intros acc kvs; simpl.
  - intros ->. by rewrite app_nil_r.
  - intros (content & kva & rest & Hr & Hm & -> & He). assert (map_file mapf read_file acc f = Ret (acc ++ kva)) as -> by
      (unfold map_file; by rewrite Hr, Hm).
    cbn [mbind result_bind]. by rewrite (IH _ rest He), (assoc_L (++)).
Qed.

Lemma values_of_perm k l l' : l ≡ₚ l' → values_of k l ≡ₚ values_of k l'.
Proof. intros Hp. unfold values_of. by rewrite Hp. Qed.

Lemma mrsequential_groups files kvs : emitted files kvs →
  mrsequential mapf reducef read_file sort files = foldM (reduce_group reducef) "" (groups (sort kvs)).
Proof.
  intros He. unfold mrsequential. rewrite (map_phase files kvs [] He). simpl ([] ++ kvs). cbn [mbind result_bind].
  apply (reduce_loop_spec reducef _ []). lia.
Qed.

Lemma sorted_groups kvs : ∃ keys, (groups (sort kvs)).*1 = keys ∧ NoDup keys ∧ StronglySorted String.le keys ∧
  (∀ k, k ∈ keys ↔ k ∈ Key <$> kvs) ∧
  Forall (λ g, g.2 ≡ₚ values_of g.1 kvs) (groups (sort kvs)).
Proof.
  destruct (groups_sorted (sort kvs)) as (Hnd & Hs & Hk & Hv); [apply (sort_strongly ByKey_Less sort)|].
  exists (groups (sort kvs)).*1. split_and!; [done..| |].
  - intros k. rewrite Hk. by rewrite (sort_perm (less := ByKey_Less) kvs).
  - apply Forall_forall. intros [k vs] Hin. rewrite (Hv k vs Hin). apply values_of_perm. apply sort_perm.
Qed.
End job.

(** ** The properties *)

(** The distinct keys of [kvs] in increasing order. *)
Definition keys_of (kvs : list KeyValue) : list string := sort_by string_less (remove_dups (Key <$> kvs)).

Lemma keys_of_unique kvs keys : NoDup keys → StronglySorted String.le keys →
  (∀ k, k ∈ keys ↔ k ∈ Key <$> kvs) → keys = keys_of kvs.
Proof.
  intros Hnd Hs Hk. apply (StronglySorted_unique String.le).
  - done.
  - pose proof (sort_strongly string_less (sort_by string_less) (remove_dups (Key <$> kvs))) as Hss.
    unfold keys_of. clear -Hss. induction Hss as [|a l Hss IH Hall]; constructor; [done|].
    eapply Forall_impl; [exact Hall|]. intros b. apply string_less_le.
  - unfold keys_of. rewrite (sort_perm (less := string_less) _). apply NoDup_Permutation; [done|apply NoDup_remove_dups|].
    intros k. by rewrite Hk, elem_of_remove_dups.
Qed.

Lemma foldl_lines (f g : string → string) out keys : (∀ k, f k = g k) →
  foldl (λ out k, out +:+ line k (f k)) out keys = foldl (λ out k, out +:+ line k (g k)) out keys.
Proof. intros E. revert out. induction keys as [|k keys IH]; intros out; [done|]. simpl. by rewrite E, IH. Qed.

(** The output file for an output function [f]. *)
Definition report (f : string → list string → string) (kvs : list KeyValue) : string :=
  foldl (λ out k, out +:+ line k (f k (values_of k kvs))) "" (keys_of kvs).

Section job_claims.
Context (mapf : mapf_t) (reducef : reducef_t) (read_file : string → option string).
Context (sort : list KeyValue → list KeyValue) `{!SortsBy ByKey_Less sort}.

Lemma mrsequential_report (f : string → list string → string) files kvs :
  emitted mapf read_file files kvs →
  (∀ k vs, reducef k vs = Ret (f k vs)) → (∀ k vs vs', vs ≡ₚ vs' → f k vs = f k vs') →
  mrsequential mapf reducef read_file sort files = Ret (report f kvs).
Proof.
  intros He Hf Hperm. rewrite (mrsequential_groups mapf reducef read_file sort files kvs He).
  destruct (sorted_groups sort kvs) as (keys & Ek & Hnd & Hs & Hk & Hv).
  unfold report. rewrite <-(keys_of_unique kvs keys Hnd Hs Hk), <-Ek. clear Ek Hnd Hs Hk keys He.
  generalize EmptyString. induction Hv as [|[k vs] gs Hg Hv IH]; intros out; [done|].
  cbn [foldM]. unfold reduce_group at 2. cbn [fst snd]. rewrite Hf. cbn [mbind result_bind].
  csimpl. simpl in Hg. rewrite (Hperm k vs (values_of k kvs) Hg). apply IH.
Qed.

(** C25: the sequential MapReduce: when the map phase emits [kvs], the output
    has one line per distinct key, in increasing key order, with the reduce
    function's result on that key's values; for a reduce function that does
    not depend on their order, the output is the same whatever the (unstable)
    sort does with equal keys, and the index loops terminate. *)
Theorem mrsequential_correct (f : string → list string → string) files kvs :
  emitted mapf read_file files kvs →
  (∀ k vs, reducef k vs = Ret (f k vs)) → (∀ k vs vs', vs ≡ₚ vs' → f k vs = f k vs') →
  mrsequential mapf reducef read_file sort files = Ret (report f kvs) ∧
  NoDup (keys_of kvs) ∧ StronglySorted String.le (keys_of kvs) ∧
  ∀ k, k ∈ keys_of kvs ↔ k ∈ Key <$> kvs.
Proof.
  intros He Hf Hperm. split; [by apply mrsequential_report|].
  destruct (sorted_groups sort kvs) as (keys & _ & Hnd & Hs & Hk & _).
  by rewrite <-(keys_of_unique kvs keys Hnd Hs Hk).
Qed.
End job_claims.

(** [ihash] is a non-negative int below 2^31 for every key, and so names
    one of the [nReduce] reduce tasks. *)
Lemma ihash_bucket key nReduce : 0 < nReduce →
  0 ≤ ihash key < 2 ^ 31 ∧ 0 ≤ Z.rem (ihash key) nReduce < nReduce.
Proof.
  intros Hn. assert (0 ≤ fnv32a key) as H0.
  { unfold fnv32a. generalize (String.list_ascii_of_string key). intros l.
    destruct l as [|c l _] using rev_ind; [done|]. rewrite foldl_app. simpl. apply Z.mod_pos_bound. lia. }
  assert (0 ≤ ihash key < 2 ^ 31) as Hi.
  { unfold ihash. change 2147483647 with (Z.ones 31). rewrite Z.land_ones by lia. apply Z.mod_pos_bound. lia. }
  split; [done|]. apply Z.rem_bound_pos; lia.
Qed.

Section app_claims.
Context (runes : string → list string) (isLetter : string → bool).
Context (range sort_strings : list string → list string).
Context `{!RangeOrder range, !SortsBy string_less sort_strings}.
Context (read_file : string → option string).
Context (sort : list KeyValue → list KeyValue) `{!SortsBy ByKey_Less sort}.
Abbreviation words := (λ content, FieldsFunc runes content (λ r, negb (isLetter r))).

Lemma foldl_snoc_map {A B} (f : A → B) (l : list A) acc : foldl (λ acc x, acc ++ [f x]) acc l = acc ++ (f <$> l).
Proof.
  revert acc. induction l as [|x l IH]; intros acc; csimpl; [by rewrite app_nil_r|].
  by rewrite IH, <-(assoc_L (++)).
Qed.

Definition all_words (contents : list string) : list string := contents ≫= words.

Lemma wc_emitted files contents : Forall2 (λ f c, read_file f = Some c) files contents →
  emitted (wc_Map runes isLetter) read_file files ((λ w, mkKeyValue w "1") <$> all_words contents).
Proof.
  induction 1 as [|f c files contents Hr _ IH]; [done|]. unfold all_words. csimpl. rewrite fmap_app.
  eexists c, _, _. split_and!; [done| |reflexivity|exact IH].
  unfold wc_Map. by rewrite foldl_snoc_map.
Qed.

(** Word count: with wc.go the output lists the distinct words of the
    files, the maximal runs of letters, in increasing order, each with the
    number of times it occurs in all of them. *)
Lemma word_count_correct files contents :
  Forall2 (λ f c, read_file f = Some c) files contents →
  mrsequential (wc_Map runes isLetter) wc_Reduce read_file sort files =
    Ret (foldl (λ out w, out +:+ line w (Itoa (Z.of_nat (length (filter (λ x, x = w) (all_words contents))))))
           "" (sort_by string_less (remove_dups (all_words contents)))).
Proof.
  intros Hf. rewrite (mrsequential_report _ _ _ sort (λ _ vs, Itoa (Z.of_nat (length vs))) files _
    (wc_emitted files contents Hf)); [|done|intros _ vs vs' ->; done].
  unfold report, keys_of. rewrite <-list_fmap_compose. unfold compose. simpl. rewrite list_fmap_id.
  f_equal. apply (foldl_lines (λ k, _) (λ k, _)). intros k. do 2 f_equal.
  unfold values_of. rewrite length_fmap. generalize (all_words contents). clear. intros l.
  induction l as [|w l IH]; [done|]. csimpl. rewrite !filter_cons. simpl. case_decide; simpl; by rewrite IH.
Qed.

(** ** The indexer *)

Lemma sort_strings_perm l l' : l ≡ₚ l' → sort_strings l = sort_strings l'.
Proof.
  intros Hp. assert (∀ l, StronglySorted String.le (sort_strings l)) as Hs.
  { intros k. pose proof (sort_strongly string_less sort_strings k) as Hss.
    induction Hss as [|a m Hss IH Hall]; constructor; [done|].
    eapply Forall_impl; [exact Hall|]. intros b. apply string_less_le. }
  apply (StronglySorted_unique String.le); [done..|]. by rewrite !(sort_perm (less := string_less) _).
Qed.

Definition indexed_words (value : string) : list string :=
  range (map_to_list (foldl (λ (m : gmap string bool) w, <[w := true]> m) ∅ (words value))).*1.

Lemma indexed_words_spec value : NoDup (indexed_words value) ∧ ∀ w, w ∈ indexed_words value ↔ w ∈ words value.
Proof.
  unfold indexed_words. rewrite (range_perm _). split; [apply NoDup_fst_map_to_list|]. intros w.
  rewrite (range_perm _), list_elem_of_fmap. setoid_rewrite elem_of_map_to_list'.
  assert (∀ (m : gmap string bool) l, is_Some (foldl (λ (m : gmap string bool) w, <[w := true]> m) m l !! w) ↔
    is_Some (m !! w) ∨ w ∈ l) as Hf.
  { intros m l. revert m. induction l as [|x l IH]; intros m; simpl.
    - rewrite elem_of_nil. tauto.
    - rewrite IH, lookup_insert_is_Some, elem_of_cons. destruct (decide (x = w)); naive_solver. }
  specialize (Hf ∅ (words value)). rewrite lookup_empty in Hf. split.
  - intros ([k b] & -> & E). simpl in *. destruct (proj1 Hf ltac:(by eexists)) as [[? [=]]|?]. done.
  - intros Hw. destruct (proj2 Hf (or_intror Hw)) as [b E]. by exists (w, b).
Qed.

(** The files that contain a word, with their contents. *)
Definition documents (w : string) (docs : list (string * string)) : list string :=
  (filter (λ d, w ∈ words d.2) docs).*1.

Fixpoint indexer_kvs (docs : list (string * string)) : list KeyValue :=
  match docs with
  | [] => []
  | d :: docs => ((λ w, mkKeyValue w d.1) <$> indexed_words d.2) ++ indexer_kvs docs
  end.

Lemma indexer_emitted docs : Forall (λ d, read_file d.1 = Some d.2) docs →
  emitted (indexer_Map runes isLetter range) read_file docs.*1 (indexer_kvs docs).
Proof.
  induction 1 as [|[f c] docs Hr _ IH]; [done|]. csimpl. eexists c, _, _. split_and!; [done| |reflexivity|exact IH].
  unfold indexer_Map. rewrite foldl_snoc_map. done.
Qed.

Lemma values_of_app k l1 l2 : values_of k (l1 ++ l2) = values_of k l1 ++ values_of k l2.
Proof. unfold values_of. by rewrite filter_app, fmap_app. Qed.

Lemma values_of_document k d value :
  values_of k ((λ w, mkKeyValue w d) <$> indexed_words value) = if decide (k ∈ words value) then [d] else [].
Proof.
  destruct (indexed_words_spec value) as [Hnd Hin]. rewrite (decide_ext _ (k ∈ indexed_words value)) by (by rewrite Hin).
  clear Hin. induction Hnd as [|w l Hw Hnd IH]; [by rewrite decide_False by apply not_elem_of_nil|].
  unfold values_of in *. csimpl. rewrite filter_cons. cbn [Key]. destruct (decide (w = k)) as [->|E].
  - rewrite decide_False in IH by done. csimpl. rewrite IH, decide_True; [done|left].
  - rewrite IH. apply decide_ext. rewrite elem_of_cons. naive_solver.
Qed.

Lemma indexer_values k docs : values_of k (indexer_kvs docs) = documents k docs.
Proof.
  induction docs as [|[d value] docs IH]; [done|]. simpl. rewrite values_of_app, values_of_document, IH.
  unfold documents. rewrite filter_cons. simpl. by case_decide.
Qed.

Lemma indexer_keys docs k : k ∈ Key <$> indexer_kvs docs ↔ k ∈ all_words docs.*2.
Proof.
  unfold all_words. induction docs as [|[d value] docs IH]; [done|]. csimpl.
  rewrite fmap_app, !elem_of_app, IH, <-list_fmap_compose. unfold compose. simpl. rewrite list_fmap_id.
  by rewrite (proj2 (indexed_words_spec value) k).
Qed.

(** The indexer: its output lists the distinct words of the documents in
    increasing order, each with the number of documents that contain it and
    their names, sorted and joined by commas, whatever the order in which Map
    ranges over its map and the sort leaves equal keys. *)
Lemma indexer_correct docs :
  Forall (λ d, read_file d.1 = Some d.2) docs →
  mrsequential (indexer_Map runes isLetter range) (indexer_Reduce sort_strings) read_file sort docs.*1 =
    Ret (foldl (λ out w, out +:+ line w (Itoa (Z.of_nat (length (documents w docs))) +:+ " " +:+
                                         Join (sort_strings (documents w docs)) ","))
           "" (sort_by string_less (remove_dups (all_words docs.*2)))).
Proof.
  intros Hd. rewrite (mrsequential_report _ _ _ sort
    (λ _ vs, Itoa (Z.of_nat (length (sort_strings vs))) +:+ " " +:+ Join (sort_strings vs) ",") docs.*1 _
    (indexer_emitted docs Hd)); [|done|intros _ vs vs' Hp; by rewrite (sort_strings_perm vs vs' Hp)].
  unfold report. f_equal.
  assert (keys_of (indexer_kvs docs) = sort_by string_less (remove_dups (all_words docs.*2))) as ->.
  { symmetry. apply keys_of_unique.
    - rewrite (sort_perm (less := string_less) _). apply NoDup_remove_dups.
    - pose proof (sort_strongly string_less (sort_by string_less) (remove_dups (all_words docs.*2))) as Hss.
      induction Hss as [|a m Hss IH Hall]; constructor; [done|].
      eapply Forall_impl; [exact Hall|]. intros b. apply string_less_le.
    - intros k. by rewrite (sort_perm (less := string_less) _), elem_of_remove_dups, indexer_keys. }
  apply (foldl_lines (λ k, _) (λ k, _)). intros k. rewrite indexer_values.
  by rewrite (Permutation_length (sort_perm (less := string_less) (documents k docs))).
Qed.

(** C26: the two text applications. Word count lists the distinct words of
    the documents, the maximal runs of letters, in increasing order, each with
    the number of times it occurs in all of them; the indexer lists the same
    words, each with the number of documents that contain it and their names,
    sorted and joined by commas, whatever the order in which Map ranges over
    its map and the sort leaves equal keys. *)
Theorem text_applications_correct docs :
  Forall (λ d, read_file d.1 = Some d.2) docs →
  mrsequential (wc_Map runes isLetter) wc_Reduce read_file sort docs.*1 =
    Ret (foldl (λ out w, out +:+ line w (Itoa (Z.of_nat (length (filter (λ x, x = w) (all_words docs.*2))))))
           "" (sort_by string_less (remove_dups (all_words docs.*2)))) ∧
  mrsequential (indexer_Map runes isLetter range) (indexer_Reduce sort_strings) read_file sort docs.*1 =
    Ret (foldl (λ out w, out +:+ line w (Itoa (Z.of_nat (length (documents w docs))) +:+ " " +:+
                                         Join (sort_strings (documents w docs)) ","))
           "" (sort_by string_less (remove_dups (all_words docs.*2)))).
Proof.
  intros Hd. split; [|by apply indexer_correct]. apply word_count_correct.
  apply Forall2_fmap. by apply Forall_Forall2_diag.
Qed.
End app_claims.

(** ** Concrete jobs *)

(** ASCII text: every byte is a rune. *)
Definition ascii_runes (s : string) : list string :=
  (λ c, String c EmptyString) <$> String.list_ascii_of_string s.
Definition ascii_isLetter (r : string) : bool :=
  match r with
  | String c _ => let n := Z.of_nat (nat_of_ascii c) in
                  bool_decide (65 ≤ n ≤ 90) || bool_decide (97 ≤ n ≤ 122)
  | _ => false
  end.
Definition two_files (f : string) : option string :=
  if decide (f = "x") then Some "to be or not to be" else if decide (f = "y") then Some "not to worry" else None.

Example words_of_x : FieldsFunc ascii_runes "to be, or not" (λ r, negb (ascii_isLetter r)) = ["to"; "be"; "or"; "not"].
Proof. vm_compute. reflexivity. Qed.

Lemma mrsequential_correct_witness :
  mrsequential (early_exit_Map) early_exit_Reduce two_files (sort_by ByKey_Less) ["y"; "x"] =
    Ret (report (λ _ vs, Itoa (Z.of_nat (length vs))) [mkKeyValue "y" "1"; mkKeyValue "x" "1"]).
Proof.
  apply (mrsequential_correct early_exit_Map early_exit_Reduce two_files (sort_by ByKey_Less)).
  - eexists _, _, _. split; [vm_compute; reflexivity|]. split; [reflexivity|]. split; [reflexivity|].
    eexists _, _, _. split; [vm_compute; reflexivity|]. split; [reflexivity|]. split; reflexivity.
  - reflexivity.
  - intros k vs vs' Hp. f_equal. f_equal. apply Permutation_length. exact Hp.
Defined.

Example ihash_bucket_sample : ihash "a" = 1678518572 ∧ 0 ≤ Z.rem (ihash "a") 10 < 10.
Proof. split; [vm_compute; reflexivity|]. apply (ihash_bucket "a" 10). lia. Defined.

Lemma text_applications_correct_witness :
  mrsequential (wc_Map ascii_runes ascii_isLetter) wc_Reduce two_files (sort_by ByKey_Less) ["x"; "y"] =
    Ret (line "be" "2" +:+ line "not" "2" +:+ line "or" "1" +:+ line "to" "3" +:+ line "worry" "1") ∧
  mrsequential (indexer_Map ascii_runes ascii_isLetter reverse) (indexer_Reduce (sort_by string_less)) two_files
    (sort_by ByKey_Less) ["x"; "y"] =
    Ret (line "be" "1 x" +:+ line "not" "2 x,y" +:+ line "or" "1 x" +:+ line "to" "2 x,y" +:+ line "worry" "1 y").
Proof.
  destruct (text_applications_correct ascii_runes ascii_isLetter reverse (sort_by string_less) two_files (sort_by ByKey_Less)
    [("x", "to be or not to be"); ("y", "not to worry")]) as [Hw Hi]; [repeat constructor|].
  split; [etransitivity; [exact Hw|vm_compute; reflexivity]|etransitivity; [exact Hi|vm_compute; reflexivity]].
Defined.
