(* ===== verification/Coordinator.v ===== *)
(** mr/coordinator.go, mr/rpc.go, the RPCs of mr/worker.go and
    main/mrcoordinator.go: the coordinator that the lab leaves to be written,
    the socket it listens on and the example call that reaches it.

    A [machine] is what the processes of one user share: the files, of which a
    Unix socket is one. A process serves the methods of the coordinator that
    it registered on the socket on which it listens. *)
From Stdlib Require Import ZArith Lia.
From stdpp Require Import base gmap list strings pretty.
From S2P Require Import Prelude MapReduce.

(** ** The machine *)

Inductive file := Plain | Socket (registered : bool).
(** [m_writable]: may files be made and removed in /var/tmp? *)
Record machine := mkMachine { m_uid : Z; m_writable : bool; m_files : gmap string file }.
Implicit Types m : machine.

Definition with_files m (fs : gmap string file) : machine := mkMachine (m_uid m) (m_writable m) fs.
(** [os.Remove], whose error nobody looks at. *)
Definition Remove (name : string) m : machine := if m_writable m then with_files m (delete name (m_files m)) else m.
(** [net.Listen("unix", name)] and [http.Serve] on it; [None] is an error. *)
Definition Listen_and_serve (name : string) (registered : bool) m : option machine :=
  if m_writable m then
    match m_files m !! name with
    | Some _ => None
    | None => Some (with_files m (<[name := Socket registered]> (m_files m)))
    end
  else None.

(** ** The RPC *)

Record ExampleArgs := mkExampleArgs { X : Z }.
Record ExampleReply := mkExampleReply { Y : Z }.

Definition coordinatorSock m : string := "/var/tmp/824-mr-" +:+ Itoa (m_uid m).

(** A struct without fields. *)
Inductive Coordinator := mkCoordinator.

Definition Coordinator_Example (c : Coordinator) (args : ExampleArgs) (reply : ExampleReply) : ExampleReply :=
  mkExampleReply (int64 (X args + 1)).

(** [rpc.Register(c)] registers [Example], the only method of an RPC's type. *)
Definition server (c : Coordinator) m : result machine :=
  let registered := true in
  let sockname := coordinatorSock m in
  let m := Remove sockname m in
  match Listen_and_serve sockname registered m with
  | None => Panic (Fatal "listen error:")
  | Some m => Ret m
  end.

Definition Done (c : Coordinator) : bool := let ret := false in ret.

Definition MakeCoordinator (files : list string) (nReduce : Z) m : result (Coordinator * machine) :=
  let c := mkCoordinator in
  m ← server c m;
  Ret (c, m).

(** What [c.Call] finds at the other end. The reply is decoded into the
    caller's, and gob does not send a zero. *)
Definition rpc_Call (registered : bool) (rpcname : string) (args : ExampleArgs) (reply : ExampleReply) : option ExampleReply :=
  if registered && bool_decide (rpcname = "Coordinator.Example") then
    let sent := Coordinator_Example mkCoordinator args (mkExampleReply 0) in
    Some (if decide (Y sent = 0) then reply else sent)
  else None.

(** [call]: whether it was answered, and the reply. *)
Definition call (rpcname : string) (args : ExampleArgs) (reply : ExampleReply) m : result (bool * ExampleReply) :=
  let sockname := coordinatorSock m in
  match m_files m !! sockname with
  | Some (Socket registered) =>
      match rpc_Call registered rpcname args reply with
      | Some reply => Ret (true, reply)
      | None => Ret (false, reply)
      end
  | _ => Panic (Fatal "dialing:")
  end.

(** What is printed. *)
Definition CallExample m : result string :=
  let args := mkExampleArgs 0 in
  let args := mkExampleArgs 99 in
  let reply := mkExampleReply 0 in
  '(_, reply) ← call "Coordinator.Example" args reply m;
  Ret ("reply.Y " +:+ Itoa (Y reply)).

(** Still to be written: it calls nothing. *)
Definition Worker (mapf : mapf_t) (reducef : reducef_t) : result unit := Ret tt.

(** ** main/mrcoordinator.go *)

(** [fuel] is the number of seconds waited for [Done]. *)
Fixpoint wait_done (fuel : nat) (c : Coordinator) : result unit :=
  match fuel with
  | O => OutOfFuel
  | S fuel => if Bool.eqb (Done c) false then wait_done fuel c else Ret tt
  end.
Definition mrcoordinator_main (fuel : nat) (args : list string) m : result machine :=
  if decide (Z.of_nat (length args) < 2) then Panic (Fatal "Usage: mrcoordinator inputfiles...") else
  '(c, m) ← MakeCoordinator (drop 1 args) 10 m;
  _ ← wait_done fuel c;
  Ret m.

(** ** What they do together *)

(** Whatever was at the socket's name, the coordinator listens there, and the
    example call of a worker is answered with 100. *)
Lemma example_call_answered files nReduce m : m_writable m = true →
  ∃ m', MakeCoordinator files nReduce m = Ret (mkCoordinator, m') ∧ CallExample m' = Ret "reply.Y 100" ∧
    (∀ name, name ≠ coordinatorSock m → m_files m' !! name = m_files m !! name).
Proof.
  intros Hw. exists (with_files m (<[coordinatorSock m := Socket true]> (delete (coordinatorSock m) (m_files m)))).
  unfold MakeCoordinator, server, Remove, Listen_and_serve. rewrite Hw. cbn [with_files m_writable m_files]. rewrite Hw, lookup_delete_eq.
  split_and!; [done| |].
  - unfold CallExample, call. cbn [with_files m_files].
    change (coordinatorSock (with_files m ?fs)) with (coordinatorSock m). by rewrite lookup_insert_eq.
  - intros name Hn. cbn [with_files m_files]. by rewrite lookup_insert_ne, lookup_delete_ne by done.
Qed.

(** Without a coordinator there is nobody to call. *)
Lemma call_needs_coordinator rpcname args reply m :
  m_files m !! coordinatorSock m = None → call rpcname args reply m = Panic (Fatal "dialing:").
Proof. unfold call. by intros ->. Qed.

(** As handed out, the coordinator is never done. *)
Lemma mrcoordinator_waits fuel args m : (2 ≤ length args)%nat → m_writable m = true →
  mrcoordinator_main fuel args m = OutOfFuel.
Proof.
  intros Ha Hw. unfold mrcoordinator_main. rewrite decide_False by lia.
  destruct (example_call_answered (drop 1 args) 10 m Hw) as (m' & -> & _). cbn [mbind result_bind].
  assert (wait_done fuel mkCoordinator = OutOfFuel) as ->; [|done]. by induction fuel.
Qed.
