(* ===== verification/Timing.v ===== *)
(** mrapps/mtiming.go, rtiming.go and jobcount.go: applications that watch
    each other through files of the working directory.

    A directory is the set of its names. Listing it returns the names in some
    order, an argument here; whether a file can be written and which processes
    answer signal 0 is up to the system. *)
From Stdlib Require Import ZArith Lia Ascii.
From stdpp Require Import base gmap sets list strings pretty.
From S2P Require Import Prelude MapReduce.

(** ** fmt.Sscanf(name, prefix + "%d", &x), for a prefix without blanks *)

Fixpoint strip_prefix (p s : string) : option string :=
  match p, s with
  | EmptyString, _ => Some s
  | String a p, String b s => if decide (a = b) then strip_prefix p s else None
  | String _ _, EmptyString => None
  end.

(** Blanks may stand before the number; a line feed is an error. The blanks of
    package fmt, in UTF-8: those of one byte, of two (U+0085, U+00A0), and of
    three (U+1680, U+2000 to U+200A, U+2028, U+2029, U+202F, U+205F, U+3000). *)
Definition is_blank (c : ascii) : bool := bool_decide (N_of_ascii c ∈ [9; 11; 12; 13; 32]%N).
Definition is_blank2 (a b : ascii) : bool :=
  bool_decide (N_of_ascii a = 194%N ∧ N_of_ascii b ∈ [133; 160]%N).
Definition is_blank3 (a b c : ascii) : bool :=
  let '(a, b, c) := (N_of_ascii a, N_of_ascii b, N_of_ascii c) in
  bool_decide ((a = 225 ∧ b = 154 ∧ c = 128) ∨
    (a = 226 ∧ b = 128 ∧ (128 ≤ c ≤ 138 ∨ c ∈ [168; 169; 175])) ∨
    (a = 226 ∧ b = 129 ∧ c = 159) ∨ (a = 227 ∧ b = 128 ∧ c = 128))%N.
Fixpoint skip_blanks (s : string) : string :=
  match s with
  | String a s1 =>
      if is_blank a then skip_blanks s1 else
      match s1 with
      | String b s2 =>
          if is_blank2 a b then skip_blanks s2 else
          match s2 with
          | String c s3 => if is_blank3 a b c then skip_blanks s3 else s
          | EmptyString => s
          end
      | EmptyString => s
      end
  | EmptyString => ""
  end.

(** The longest run of digits; [v] is the value of those read before. *)
Fixpoint scan_digits (v : Z) (s : string) : Z :=
  match s with
  | String c s => match digit_value c with Some d => scan_digits (10 * v + d) s | None => v end
  | EmptyString => v
  end.

(** A sign, then at least one digit, in the range of an int. *)
Definition scan_unsigned (s : string) : option Z :=
  match s with
  | String c s => d ← digit_value c; Some (scan_digits d s)
  | EmptyString => None
  end.
Definition in_int (z : Z) : option Z := if decide (-9223372036854775808 ≤ z < 9223372036854775808) then Some z else None.
Definition scan_int (s : string) : option Z :=
  match skip_blanks s with
  | String "+" s => scan_unsigned s ≫= in_int
  | String "-" s => v ← scan_unsigned s; in_int (- v)
  | s => scan_unsigned s ≫= in_int
  end.
Definition Sscanf_d (prefix name : string) : option Z := strip_prefix prefix name ≫= scan_int.

(** ** nparallel *)

Definition worker_prefix (phase : string) : string := "mr-worker-" +:+ phase +:+ "-".
Definition myfilename (phase : string) (pid : Z) : string := worker_prefix phase +:+ Itoa pid.

(** [panic(err)] of a system call. *)
Definition panic_err : panic := Panicked "err".

Definition np_mark (writable : string → bool) (phase : string) (pid : Z) (files : gset string) : result (gset string) :=
  let f := myfilename phase pid in
  if writable f then Ret ({[f]} ∪ files) else Panic panic_err.

(** The loop over the names; [alive pid] is [syscall.Kill(pid, 0) == nil].
    Readdirnames returns at most a million names, and an error for none. *)
Definition np_count (alive : Z → bool) (phase : string) (listing : list string) : result Z :=
  let names := take (Z.to_nat 1000000) listing in
  if decide (names = []) then Panic panic_err
  else Ret (foldl (λ ret name,
    match Sscanf_d (worker_prefix phase) name with
    | Some xpid => if alive xpid then int64 (ret + 1) else ret
    | None => ret
    end) 0 names).

Definition np_remove (phase : string) (pid : Z) (files : gset string) : result (gset string) :=
  let f := myfilename phase pid in
  if decide (f ∈ files) then Ret (files ∖ {[f]}) else Panic panic_err.

(** [nparallel] with nobody else at work; [readdir] lists a directory. *)
Definition nparallel (writable : string → bool) (alive : Z → bool) (readdir : gset string → list string)
    (phase : string) (pid : Z) (files : gset string) : result (Z * gset string) :=
  files ← np_mark writable phase pid files;
  ret ← np_count alive phase (readdir files);
  files ← np_remove phase pid files;
  Ret (ret, files).

(** [ts] is the time of day, printed with %.1f. *)
Definition mtiming_Map writable alive readdir (ts : string) (pid : Z) (filename contents : string) (files : gset string)
    : result (list KeyValue * gset string) :=
  '(n, files) ← nparallel writable alive readdir "map" pid files;
  Ret ([mkKeyValue ("times-" +:+ Itoa pid) ts; mkKeyValue ("parallel-" +:+ Itoa pid) (Itoa n)], files).

Definition rtiming_Reduce writable alive readdir (pid : Z) (key : string) (values : list string) (files : gset string)
    : result (string * gset string) :=
  '(n, files) ← nparallel writable alive readdir "reduce" pid files;
  Ret (Itoa n, files).

(** ** Workers side by side

    Each worker of mtiming.go is in [nparallel] for its map tasks, each of
    rtiming.go for its reduce tasks; their steps interleave. *)

Inductive task := MapTask | ReduceTask.
#[export] Instance task_eq_dec : EqDecision task.
Proof. solve_decision. Defined.
Definition task_phase (t : task) : string := match t with MapTask => "map" | ReduceTask => "reduce" end.

Inductive stage := Marked | Slept (ret : Z).

(** The directory, the numbers that answer [Kill(pid, 0)], and who is where. *)
Record workers := mkWorkers {
  wk_files : gset string;
  wk_alive : gset Z;
  wk_inside : gmap Z (task * stage)
}.
Definition wk_kill (w : workers) (pid : Z) : bool := bool_decide (pid ∈ wk_alive w).

Inductive wk_step (writable : string → bool) (w : workers) : workers → Prop :=
  | wk_enter pid t files :
      0 < pid < 2^63 → pid ∈ wk_alive w → wk_inside w !! pid = None → np_mark writable (task_phase t) pid (wk_files w) = Ret files →
      wk_step writable w (mkWorkers files (wk_alive w) (<[pid := (t, Marked)]> (wk_inside w)))
  | wk_count pid t listing ret :
      wk_inside w !! pid = Some (t, Marked) → listing ≡ₚ elements (wk_files w) →
      np_count (wk_kill w) (task_phase t) listing = Ret ret →
      wk_step writable w (mkWorkers (wk_files w) (wk_alive w) (<[pid := (t, Slept ret)]> (wk_inside w)))
  | wk_leave pid t ret files :
      wk_inside w !! pid = Some (t, Slept ret) → np_remove (task_phase t) pid (wk_files w) = Ret files →
      wk_step writable w (mkWorkers files (wk_alive w) (delete pid (wk_inside w)))
  (** A worker may die anywhere; its file stays. *)
  | wk_die pid :
      wk_step writable w (mkWorkers (wk_files w) (wk_alive w ∖ {[pid]}) (delete pid (wk_inside w)))
  (** A new process, whose number no file bears: that the system may give the
      number of a dead worker to a new process is left out. *)
  | wk_spawn pid :
      pid ∉ wk_alive w → (∀ t f, f ∈ wk_files w → Sscanf_d (worker_prefix (task_phase t)) f ≠ Some pid) →
      wk_step writable w (mkWorkers (wk_files w) ({[pid]} ∪ wk_alive w) (wk_inside w))
  (** Files that are not workers' come and go. *)
  | wk_other f files :
      (∀ t, Sscanf_d (worker_prefix (task_phase t)) f = None) →
      (files = {[f]} ∪ wk_files w ∨ files = wk_files w ∖ {[f]}) →
      wk_step writable w (mkWorkers files (wk_alive w) (wk_inside w)).

(** Who is between marking and removing its mark for [t]. *)
Definition at_work (w : workers) (t : task) : gmap Z (task * stage) := filter (λ p, p.2.1 = t) (wk_inside w).

(** ** jobcount.go *)

Definition jobcount_file (me count : Z) : string := "mr-worker-jobcount-" +:+ Itoa me +:+ "-" +:+ Itoa count.

(** The directory, and the variable [count] of each process. *)
Definition jobcount_Map (writable : string → bool) (s : gset string * gmap Z Z) (me : Z) (filename contents : string)
    : result (list KeyValue * (gset string * gmap Z Z)) :=
  let '(files, counts) := s in
  let count := default 0 (counts !! me) in
  let f := jobcount_file me count in
  let counts := <[me := int64 (count + 1)]> counts in
  if writable f then Ret ([mkKeyValue "a" "x"], ({[f]} ∪ files, counts)) else Panic panic_err.
