(* ===== verification/TimingProof.v ===== *)
(** What the applications that watch each other see: [nparallel] counts the
    workers that are at work, and jobcount.go the runs of its Map. *)
From Stdlib Require Import ZArith Lia Ascii.
From stdpp Require Import base gmap sets list strings pretty.
From S2P Require Import Prelude MapReduce Timing.

(** ** Reading what Itoa wrote *)


Lemma scan_digits_go x s : scan_digits 0 (pretty_N_go x s) = scan_digits (Z.of_N x) s.
Proof.
  revert s. induction (N.lt_wf_0 x) as [x _ IH]. intros s.
  destruct (decide (x = 0)%N) as [->|Hx]; [done|]. rewrite pretty_N_go_step by lia.
  assert (x `mod` 10 < 10)%N as Hm by (apply N.mod_lt; lia).
  rewrite IH by (apply N.div_lt; lia). cbn [scan_digits]. rewrite digit_value_char by done.
  f_equal. rewrite (N.div_mod x 10) at 3 by lia. lia.
Qed.

(** A number without a sign. *)
Lemma skip_blanks_digit c r d : digit_value c = Some d → skip_blanks (String c r) = String c r.
Proof.
  unfold digit_value. intros Hc. assert (48 ≤ N_of_ascii c < 58)%N as Hr by (case_decide; [lia|done]).
  cbn [skip_blanks]. assert (is_blank c = false) as -> by (apply bool_decide_false; rewrite !elem_of_cons, elem_of_nil; lia).
  destruct r as [|c2 r]; [done|]. assert (is_blank2 c c2 = false) as -> by (apply bool_decide_false; lia).
  destruct r as [|c3 r]; [done|]. assert (is_blank3 c c2 c3 = false) as ->; [|done].
  unfold is_blank3. apply bool_decide_false. lia.
Qed.

Lemma scan_int_digit c r d : digit_value c = Some d → scan_int (String c r) = in_int (scan_digits 0 (String c r)).
Proof.
  intros Hc. assert (scan_int (String c r) = scan_unsigned (String c r) ≫= in_int) as ->.
  { unfold scan_int. rewrite (skip_blanks_digit _ _ _ Hc). by destruct c as [[] [] [] [] [] [] [] []]. }
  cbn [scan_unsigned scan_digits]. by rewrite Hc.
Qed.




(** ** Counting the workers *)

(** The names that the loop counts. *)
Definition counted (alive : Z → bool) (phase name : string) : Prop :=
  match Sscanf_d (worker_prefix phase) name with Some pid => alive pid = true | None => False end.
#[local] Instance counted_dec alive phase name : Decision (counted alive phase name).
Proof. unfold counted. case_match; apply _. Defined.


(** ** Workers side by side *)

Section workers.
Context (writable : string → bool).
Abbreviation steps := (rtc (wk_step writable)).









End workers.

(** The mark of a dead worker counts again when its number is given to another
    process: here 7 is at work, 5 is alive and something else. *)
Example reused_number_counted :
  np_count (λ pid, bool_decide (pid ∈ [5; 7])) "map" [myfilename "map" 5; myfilename "map" 7; myfilename "map" 6] = Ret 2.
Proof. vm_compute. reflexivity. Qed.

Example unicode_blank_skipped :
  Sscanf_d "mr-worker-map-" ("mr-worker-map-" +:+ String "194" (String "160" "12")) = Some 12.
Proof. vm_compute. reflexivity. Qed.

(** ** jobcount.go *)

Lemma pretty_N_go_app x s s' : pretty_N_go x (s +:+ s') = pretty_N_go x s +:+ s'.
Proof.
  revert s. induction (N.lt_wf_0 x) as [x _ IH]. intros s.
  destruct (decide (x = 0)%N) as [->|Hx]; [done|].
  rewrite (pretty_N_go_step x (s +:+ s')), (pretty_N_go_step x s) by lia.
  exact (IH (x `div` 10)%N ltac:(apply N.div_lt; lia) (String _ s)).
Qed.

(** Reading stops at the dash. *)
Lemma scan_int_dash n s : 0 ≤ n < 2^63 → scan_int (Itoa n +:+ "-" +:+ s) = Some n.
Proof.
  intros Hn. unfold Itoa. destruct n as [|p|p]; [by apply (scan_int_digit "0" ("-" +:+ s) 0)| |lia].
  change (pretty (Z.pos p)) with (pretty_N_go (N.pos p) ""). rewrite <-pretty_N_go_app.
  change ("" +:+ "-" +:+ s) with ("-" +:+ s).
  destruct (go_starts (N.pos p) ("-" +:+ s)) as (c & r & d & E & Hd); [lia|].
  pose proof (scan_digits_go (N.pos p) ("-" +:+ s)) as Hs. rewrite E in Hs |- *. rewrite (scan_int_digit _ _ _ Hd), Hs.
  change (in_int (Z.pos p) = Some (Z.pos p)). unfold in_int. rewrite decide_True; [done|]. lia.
Qed.

Lemma jobcount_file_inj me count me' count' :
  0 ≤ me < 2^63 → 0 ≤ me' < 2^63 → jobcount_file me count = jobcount_file me' count' → me = me' ∧ count = count'.
Proof.
  intros Hm Hm' E. unfold jobcount_file in E. apply (inj (String.app _)) in E.
  assert (me = me') as <-.
  { apply (f_equal scan_int) in E. rewrite !scan_int_dash in E by done. congruence. }
  split; [done|]. apply (inj (String.app _)) in E. apply (inj (String.app _)) in E. by apply (inj pretty) in E.
Qed.

Definition is_jobcount (f : string) : Prop := String.prefix "mr-worker-jobcount" f = true.

Lemma is_jobcount_file me count : is_jobcount (jobcount_file me count).
Proof. done. Qed.

Lemma jobcount_Reduce_filter listing key values :
  jobcount_Reduce listing key values = Ret (Itoa (Z.of_nat (length (filter is_jobcount listing)))).
Proof.
  unfold jobcount_Reduce. do 2 f_equal.
  assert (∀ k, foldl (λ n f, if String.prefix "mr-worker-jobcount" f then n + 1 else n) k listing =
    k + Z.of_nat (length (filter is_jobcount listing))) as Hgen; [|apply Hgen].
  induction listing as [|f listing IH]; intros k; [simpl; lia|]. cbn [foldl].
  rewrite filter_cons, IH. case_decide as Hf; [rewrite Hf; simpl length; lia|].
  apply not_true_is_false in Hf. by rewrite Hf.
Qed.

(** A run of Map by the process [me] on a file. *)
Definition map_call : Type := Z * string * string.
Definition run_map (writable : string → bool) (s : gset string * gmap Z Z) (c : map_call) : result (gset string * gmap Z Z) :=
  snd <$> jobcount_Map writable s c.1.1 c.1.2 c.2.

Lemma run_maps writable files0 calls files counts :
  (∀ f, f ∈ files0 → ¬ is_jobcount f) → (∀ c, c ∈ calls → 0 ≤ c.1.1 < 2^63) → Z.of_nat (length calls) < 2^63 →
  foldM (run_map writable) (files0, ∅) calls = Ret (files, counts) →
  size (filter is_jobcount files) = length calls ∧
  (∀ me, 0 ≤ default 0 (counts !! me) ≤ Z.of_nat (length calls)) ∧
  (∀ me count, 0 ≤ me < 2^63 → jobcount_file me count ∈ files → count < default 0 (counts !! me)).
Proof.
  intros H0. revert files counts. induction calls as [|c calls IH] using rev_ind; intros files counts Hme Hlen Hr.
  { injection Hr as <- <-. split_and!.
    - apply size_empty_iff. intros f. rewrite elem_of_filter. set_solver.
    - intros me. rewrite lookup_empty. simpl. lia.
    - intros me count _ Hin. by destruct (H0 _ Hin). }
  rewrite length_app in Hlen |- *. simpl (length [c]) in Hlen |- *.
  rewrite foldM_app in Hr. apply bind_ret_inv in Hr as ([fs cs] & Hr & Hc).
  destruct (IH fs cs) as (Hsize & Hcs & Hfs); [intros; apply Hme; set_solver|lia|done|].
  cbn [foldM] in Hc. unfold run_map, jobcount_Map in Hc. destruct (writable _); [|done]. injection Hc as <- <-.
  pose proof (Hme c ltac:(set_solver)) as Hmc. destruct c as [[me fn] text]. simpl in Hmc |- *.
  pose proof (Hcs me) as Hk. set (k := default 0 (cs !! me)) in *.
  assert (int64 (k + 1) = k + 1) as -> by (apply swrap_small; lia).
  split_and!.
  - rewrite filter_union_L, size_union, Hsize; cycle 1.
    + apply disjoint_filter, disjoint_singleton_l. intros Hin%Hfs; [subst k; lia|done].
    + apply _.
    + assert (filter is_jobcount ({[jobcount_file me k]} : gset string) = {[jobcount_file me k]}) as ->.
      { apply set_eq. intros f. rewrite elem_of_filter, elem_of_singleton. split; [tauto|]. by intros ->. }
      rewrite size_singleton. lia.
  - intros me'. rewrite lookup_insert. case_decide; simpl; [lia|]. specialize (Hcs me'). lia.
  - intros me' count Hm' Hin. rewrite lookup_insert.
    apply elem_of_union in Hin as [E%elem_of_singleton|Hin%Hfs]; [|case_decide; simpl; subst; lia|done].
    apply jobcount_file_inj in E as [-> ->]; [|done..]. rewrite decide_True by done. simpl. lia.
Qed.

(** jobcount.go counts the runs of its Map: whatever processes ran Map on
    whatever files, in whatever order, from a directory without such files,
    the number that Reduce returns is the number of runs. *)
Lemma jobcount_counts writable files0 calls files counts listing key values :
  (∀ f, f ∈ files0 → ¬ is_jobcount f) → (∀ c, c ∈ calls → 0 ≤ c.1.1 < 2^63) → Z.of_nat (length calls) < 2^63 →
  foldM (run_map writable) (files0, ∅) calls = Ret (files, counts) → listing ≡ₚ elements files →
  jobcount_Reduce listing key values = Ret (Itoa (Z.of_nat (length calls))).
Proof.
  intros H0 Hme Hlen Hr Hl. destruct (run_maps _ _ _ _ _ H0 Hme Hlen Hr) as [Hsize _].
  rewrite jobcount_Reduce_filter. do 3 f_equal. rewrite <-Hsize. rewrite Hl.
  unfold size, set_size. simpl. apply Permutation_length, NoDup_Permutation.
  - apply NoDup_filter, NoDup_elements.
  - apply NoDup_elements.
  - intros f. by rewrite list_elem_of_filter, !elem_of_elements, elem_of_filter.
Qed.

(** ** Samples *)




(** Two processes run three maps. *)
Example jobcount_sample :
  (∃ s, foldM (run_map (λ _, true)) ({["pg.txt"]}, ∅) [(7, "pg.txt", ""); (8, "pg.txt", ""); (7, "pg.txt", "")] = Ret s) ∧
  jobcount_Reduce ["mr-worker-jobcount-7-0"; "mr-worker-jobcount-7-1"; "mr-worker-jobcount-8-0"; "pg.txt"] "a" [] = Ret "3".
Proof. split; [by eexists|reflexivity]. Qed.
