(* ===== verification/KvModel.v ===== *)
(** models/kv.go: the key-value model handed to the checker.

    The dynamic types an [interface{}] holds here are a sum type; a type
    assertion that fails panics. The order of [for k := range m] and the
    result of [sort.Strings] are arguments ([range], [sort_strings]). *)
From Stdlib Require Import ZArith Lia.
From stdpp Require Import base gmap list strings sorting.
From S2P Require Import Prelude Model.

Record KvInput := mkKvInput { Op : Z; Key : string; Value : string }.
Record KvOutput := mkKvOutput { out_Value : string }.

(** [interface{}]; [Other] stands for every dynamic type the model does not expect. *)
Inductive kvalue := VNil | VInput (i : KvInput) | VOutput (o : KvOutput) | Other (tag : Z).

#[export] Instance KvInput_eq_dec : EqDecision KvInput.
Proof. solve_decision. Defined.
#[export] Instance KvOutput_eq_dec : EqDecision KvOutput.
Proof. solve_decision. Defined.
#[export] Instance kvalue_eq_dec : EqDecision kvalue.
Proof. solve_decision. Defined.

(** [v.(KvInput)] and [v.(KvOutput)]. *)
Definition as_KvInput (v : kvalue) : result KvInput :=
  match v with VInput i => Ret i | _ => Panic TypeAssertion end.
Definition as_KvOutput (v : kvalue) : result KvOutput :=
  match v with VOutput o => Ret o | _ => Panic TypeAssertion end.

Definition kv_Step (state : string) (input output : kvalue) : result (bool * string) :=
  inp ← as_KvInput input;
  out ← as_KvOutput output;
  let st := state in
  if decide (Op inp = 0) then Ret (bool_decide (out_Value out = st), state)
  else if decide (Op inp = 1) then Ret (true, Value inp)
  else Ret (true, st +:+ Value inp).

Definition kv_DescribeOperation (input output : kvalue) : result string :=
  inp ← as_KvInput input;
  out ← as_KvOutput output;
  if decide (Op inp = 0) then
    Ret ("get('" +:+ Key inp +:+ "') -> '" +:+ out_Value out +:+ "'")
  else if decide (Op inp = 1) then
    Ret ("put('" +:+ Key inp +:+ "', '" +:+ Value inp +:+ "')")
  else if decide (Op inp = 2) then
    Ret ("append('" +:+ Key inp +:+ "', '" +:+ Value inp +:+ "')")
  else Ret "<invalid>".

Section partition.
Context (range sort_strings : list string → list string).
Implicit Types (history : list (Operation kvalue)).
Abbreviation groups := (gmap string (list (Operation kvalue))).

(** [m[key] = append(m[key], v)] *)
Definition group_step (m : groups) (v : Operation kvalue) : result groups :=
  inp ← as_KvInput (Input v);
  let key := Key inp in
  Ret (<[key := default [] (m !! key) ++ [v]]> m).

Definition kv_Partition history : result (list (list (Operation kvalue))) :=
  m ← foldM group_step ∅ history;
  let keys := sort_strings (range (map_to_list m).*1) in
  Ret ((λ k, default [] (m !! k)) <$> keys).

Definition KvModel : Model kvalue string :=
  {| Partition := Some kv_Partition;
     PartitionEvent := None;
     Init := "";
     Step := kv_Step;
     Equal := None;
     DescribeOperation := Some kv_DescribeOperation;
     DescribeState := None |}.
End partition.

(** ** What [Partition] returns *)

(** The operation's input has the type the model expects. *)
Definition kv_typed (op : Operation kvalue) : Prop :=
  ∃ i o, Input op = VInput i ∧ Output op = VOutput o.

Definition kv_input (op : Operation kvalue) : option KvInput :=
  match Input op with VInput i => Some i | _ => None end.
Definition kv_key (op : Operation kvalue) : option string := Key <$> kv_input op.

(** The operations on key [k], in history order. *)
Definition on_key (k : string) (history : list (Operation kvalue)) : list (Operation kvalue) :=
  filter (λ op, kv_key op = Some k) history.

Section partition_spec.
Context (range sort_strings : list string → list string).
Context `{!RangeOrder range, !SortsBy string_less sort_strings}.
Implicit Types (history : list (Operation kvalue)).

Lemma group_foldM history : Forall (λ op, is_Some (kv_key op)) history →
  ∃ m, foldM group_step ∅ history = Ret m ∧
    ∀ k, m !! k = match on_key k history with [] => None | l => Some l end.
Proof.
  intros Hall.
  destruct (foldM_inv group_step (λ done m, ∀ k, m !! k = match on_key k done with [] => None | l => Some l end)
    ∅ history) as (m & E & Hm).
  - intros k. done.
  - intros l1 v l2 m E Hm. subst history.
    apply Forall_app in Hall as [_ [(key & Hv) _]%Forall_cons].
    unfold group_step. unfold kv_key, kv_input in Hv.
    destruct (Input v) as [|i| |] eqn:Ev; try done. simpl in Hv. injection Hv as Hv.
    simpl. eexists. split; [done|]. intros k. unfold on_key. rewrite filter_app, filter_cons.
    replace (kv_key v) with (Some (Key i)) by (unfold kv_key, kv_input; by rewrite Ev).
    rewrite filter_nil.
    destruct (decide (Key i = k)) as [<-|Hne].
    + rewrite lookup_insert_eq, decide_True by done. rewrite Hm. unfold on_key.
      by destruct (filter _ l1).
    + rewrite lookup_insert_ne, decide_False by congruence. rewrite app_nil_r. apply Hm.
  - by exists m.
Qed.

(** One part per key, in key order, each with the key's operations in
    history order. *)
Lemma kv_Partition_spec history : Forall (λ op, is_Some (kv_key op)) history →
  ∃ keys, kv_Partition range sort_strings history = Ret ((λ k, on_key k history) <$> keys) ∧
    NoDup keys ∧ Sorted (λ a b, string_less b a = false) keys ∧
    ∀ k, k ∈ keys ↔ ∃ op, op ∈ history ∧ kv_key op = Some k.
Proof.
  intros Hall. destruct (group_foldM history Hall) as (m & E & Hm).
  unfold kv_Partition. rewrite E. simpl. set (keys := sort_strings _).
  assert (keys ≡ₚ (map_to_list m).*1) as Hp.
  { unfold keys. rewrite (sort_perm _). apply (range_perm _). }
  assert (∀ k, k ∈ keys ↔ is_Some (m !! k)) as Hk.
  { intros k. rewrite Hp, list_elem_of_fmap. setoid_rewrite elem_of_map_to_list'. split.
    - intros (p & -> & ?). by eexists.
    - intros [l El]. by exists (k, l). }
  exists keys. split_and!.
  - f_equal. apply list_fmap_ext. intros i k Ek. apply list_elem_of_lookup_2, Hk in Ek.
    rewrite Hm in *. destruct (on_key k history); [by destruct Ek|done].
  - rewrite Hp. apply NoDup_fst_map_to_list.
  - apply (sort_ordered _).
  - intros k. rewrite Hk, Hm. split.
    + destruct (on_key k history) as [|op l] eqn:Eo; [by intros []|]. intros _. exists op.
      assert (op ∈ on_key k history) as Hin by (rewrite Eo; left).
      by apply list_elem_of_filter in Hin as [? ?].
    + intros (op & Hin & Hop). destruct (on_key k history) eqn:Eo; [|done].
      assert (op ∈ on_key k history) as Hin' by (by apply list_elem_of_filter).
      rewrite Eo in Hin'. by apply not_elem_of_nil in Hin'.
Qed.

(** The parts of a set of keys that covers the history make it up. *)
Lemma on_key_concat keys history : NoDup keys →
  (∀ op, op ∈ history → ∃ k, kv_key op = Some k ∧ k ∈ keys) →
  concat ((λ k, on_key k history) <$> keys) ≡ₚ history.
Proof.
  intros Hnd. revert history. induction Hnd as [|k keys Hk Hnd IH]; intros history Hin; csimpl.
  { destruct history as [|op history]; [done|]. destruct (Hin op) as (? & _ & ?%not_elem_of_nil); [left|done]. }
  set (rest := filter (λ op, kv_key op ≠ Some k) history).
  assert ((λ k, on_key k history) <$> keys = (λ k, on_key k rest) <$> keys) as ->.
  { apply list_fmap_ext. intros i k' Hk'%list_elem_of_lookup_2. unfold on_key, rest.
    rewrite list_filter_filter. apply list_filter_iff. intros op. split; [|tauto].
    intros E. split; [done|]. rewrite E. intros [= ->]. done. }
  rewrite IH.
  - unfold on_key, rest. apply filter_app_complement.
  - intros op [Hne Hop]%list_elem_of_filter. destruct (Hin op Hop) as (k' & E & Hk'). exists k'.
    split; [done|]. apply elem_of_cons in Hk' as [->|?]; [congruence|done].
Qed.

(** An input of another type fails the type assertion. *)
Lemma kv_Partition_untyped history op : op ∈ history → kv_key op = None →
  kv_Partition range sort_strings history = Panic TypeAssertion.
Proof.
  intros Hin Hop. unfold kv_Partition.
  assert (∀ m, foldM group_step m history = Panic TypeAssertion) as ->; [|done].
  induction history as [|v history IH]; intros m; [by apply not_elem_of_nil in Hin|].
  simpl. unfold group_step. destruct (as_KvInput (Input v)) as [i| |] eqn:Ev; simpl.
  - apply IH. apply elem_of_cons in Hin as [-> |?]; [|done].
    unfold kv_key, kv_input in Hop. by destruct (Input v).
  - by destruct (Input v); simplify_eq/=.
  - by destruct (Input v).
Qed.
End partition_spec.
