(* ===== verification/Nodes.v ===== *)
(** porcupine/checker.go, the doubly linked list of entries: [node],
    [insertBefore], [length], [makeLinkedEntries], [lift] and [unlift].

    Nodes live in a store: a pointer is [nil] ([None]) or an index of the
    store, and allocation appends. Reading or writing through nil panics. *)
From Stdlib Require Import ZArith Lia.
From stdpp Require Import base gmap list.
From S2P Require Import Prelude Model Entries.

Abbreviation addr := nat.

Record node (Val : Type) := mkNode {
  n_value : Val;
  n_match : option addr;
  n_id : Z;
  n_next : option addr;
  n_prev : option addr
}.
Arguments mkNode {Val}.
Arguments n_value {Val}.
Arguments n_match {Val}.
Arguments n_id {Val}.
Arguments n_next {Val}.
Arguments n_prev {Val}.

Abbreviation heap Val := (list (node Val)).

Section nodes.
Context {Val : Type}.
Implicit Types (h : heap Val) (p n mark : option addr) (a : addr).

Definition with_next p (x : node Val) : node Val :=
  mkNode (n_value x) (n_match x) (n_id x) p (n_prev x).
Definition with_prev p (x : node Val) : node Val :=
  mkNode (n_value x) (n_match x) (n_id x) (n_next x) p.

(** [&node{...}] *)
Definition new_node h (x : node Val) : heap Val * addr := (h ++ [x], length h).

(** [*p], [p.next = q], [p.prev = q] *)
Definition load h p : result (node Val) := a ← nonnil p; nonnil (h !! a).
Definition set_next h p q : result (heap Val) :=
  _ ← load h p; a ← nonnil p; Ret (alter (with_next q) a h).
Definition set_prev h p q : result (heap Val) :=
  _ ← load h p; a ← nonnil p; Ret (alter (with_prev q) a h).

Definition insertBefore h n mark : result (heap Val * option addr) :=
  match mark with
  | Some _ =>
      mk ← load h mark;
      let beforeMark := n_prev mk in
      h ← set_prev h mark n;
      h ← set_next h n mark;
      match beforeMark with
      | Some _ =>
          h ← set_prev h n beforeMark;
          h ← set_next h beforeMark n;
          Ret (h, n)
      | None => Ret (h, n)
      end
  | None => Ret (h, n)
  end.

(** [length]: follow [next] until nil. The fuel bounds the walk; a cyclic
    list would exhaust any fuel. *)
Fixpoint length_loop (fuel : nat) h n (l : Z) : result Z :=
  match fuel with
  | O => OutOfFuel
  | S fuel =>
      match n with
      | None => Ret l
      | Some _ => x ← load h n; length_loop fuel h (n_next x) (l + 1)
      end
  end.
Definition length h n : result Z := length_loop (S (List.length h)) h n 0.

(** One iteration of [makeLinkedEntries]'s loop. *)
Definition link_entry (acc : heap Val * option addr * gmap Z addr) (elem : entry Val)
    : result (heap Val * option addr * gmap Z addr) :=
  let '(h, root, mtch) := acc in
  match kind elem with
  | returnEntry =>
      let '(h, e) := new_node h (mkNode (value elem) None (id elem) None None) in
      '(h, _) ← insertBefore h (Some e) root;
      Ret (h, Some e, <[id elem := e]> mtch)
  | callEntry =>
      let '(h, e) := new_node h (mkNode (value elem) (mtch !! id elem) (id elem) None None) in
      '(h, _) ← insertBefore h (Some e) root;
      Ret (h, Some e, mtch)
  end.

(** The loop runs from the last entry to the first. *)
Definition makeLinkedEntries h (entries : list (entry Val)) : result (heap Val * option addr) :=
  '(h, root, _) ← foldM link_entry (h, None, ∅) (reverse entries);
  Ret (h, root).

Definition lift h n : result (heap Val) :=
  e ← load h n;
  h ← set_next h (n_prev e) (n_next e);
  e ← load h n;
  h ← set_prev h (n_next e) (n_prev e);
  e ← load h n;
  let mtch := n_match e in
  m ← load h mtch;
  h ← set_next h (n_prev m) (n_next m);
  m ← load h mtch;
  match n_next m with
  | Some _ => set_prev h (n_next m) (n_prev m)
  | None => Ret h
  end.

Definition unlift h n : result (heap Val) :=
  e ← load h n;
  let mtch := n_match e in
  m ← load h mtch;
  h ← set_next h (n_prev m) mtch;
  m ← load h mtch;
  h ← match n_next m with
      | Some _ => set_prev h (n_next m) mtch
      | None => Ret h
      end;
  e ← load h n;
  h ← set_next h (n_prev e) n;
  e ← load h n;
  set_prev h (n_next e) n.
End nodes.

(** ** The linked list as a sequence of addresses *)

Section segments.
Context {Val : Type}.
Implicit Types (h : heap Val) (a b c p : addr) (l A B C : list addr) (q : option addr).

Definition nxt h a : option (option addr) := n_next <$> h !! a.
Definition prv h a : option (option addr) := n_prev <$> h !! a.

(** [seg h p l q]: following [next] from node [p] visits [l] and then reads
    [q]; the [prev] pointers of [l] lead back. *)
Fixpoint seg h p l q : Prop :=
  match l with
  | [] => nxt h p = Some q
  | a :: l => nxt h p = Some (Some a) ∧ prv h a = Some (Some p) ∧ seg h a l q
  end.

(** The last node of [p :: l]. *)
Definition lst p l : addr := default p (last l).

Lemma lst_cons p a l : lst p (a :: l) = lst a l.
Proof. unfold lst. destruct l as [|b l]; [done|]. rewrite last_cons_cons. by destruct (last (b :: l)) eqn:E; [|apply last_None in E]. Qed.
Lemma lst_elem p l : lst p l ∈ p :: l.
Proof.
  unfold lst. destruct (last l) as [x|] eqn:E; [|left].
  right. apply last_Some in E as [l' ->]. set_solver.
Qed.

Lemma seg_app h p A c B q :
  seg h p (A ++ c :: B) q ↔
  seg h p A (Some c) ∧ prv h c = Some (Some (lst p A)) ∧ seg h c B q.
Proof.
  revert p. induction A as [|a A IH]; intros p; simpl; [tauto|].
  rewrite IH, lst_cons. tauto.
Qed.

Lemma seg_last h p l q : seg h p l q → nxt h (lst p l) = Some q.
Proof.
  revert p. induction l as [|a l IH]; intros p; simpl; [done|].
  rewrite lst_cons. naive_solver.
Qed.

Lemma seg_valid h p l q a : seg h p l q → a ∈ p :: l → is_Some (h !! a).
Proof.
  assert (∀ b q', nxt h b = Some q' → is_Some (h !! b)) as Hn.
  { unfold nxt. intros b q' E. destruct (h !! b); [done|discriminate]. }
  revert p. induction l as [|b l IH]; intros p; simpl.
  - intros E ->%list_elem_of_singleton. eauto.
  - intros (E & _ & Hs) [->|Hin]%elem_of_cons; eauto.
Qed.

(** [seg] reads only [next] of [p :: l] and [prev] of [l]. *)
Lemma seg_frame h h' p l q :
  (∀ a, a ∈ p :: l → nxt h' a = nxt h a) → (∀ a, a ∈ l → prv h' a = prv h a) →
  seg h p l q → seg h' p l q.
Proof.
  revert p. induction l as [|a l IH]; intros p Hn Hp; simpl.
  - intros <-. apply Hn. left.
  - intros (E1 & E2 & Hs). rewrite Hn, Hp by set_solver. split_and!; [done..|].
    apply IH; [intros; apply Hn; by right|intros; apply Hp; by right|done].
Qed.

Lemma nxt_alter_next h a b q :
  nxt (alter (with_next q) a h) b = if decide (a = b ∧ is_Some (h !! b)) then Some q else nxt h b.
Proof.
  unfold nxt. destruct (decide (a = b)) as [->|Hne].
  - rewrite list_lookup_alter_eq. destruct (h !! b) eqn:E; simpl.
    + rewrite decide_True; naive_solver.
    + rewrite decide_False; [done|]. intros [_ [? [=]]].
  - rewrite list_lookup_alter_ne by done. rewrite decide_False by tauto. done.
Qed.
Lemma prv_alter_prev h a b q :
  prv (alter (with_prev q) a h) b = if decide (a = b ∧ is_Some (h !! b)) then Some q else prv h b.
Proof.
  unfold prv. destruct (decide (a = b)) as [->|Hne].
  - rewrite list_lookup_alter_eq. destruct (h !! b) eqn:E; simpl.
    + rewrite decide_True; naive_solver.
    + rewrite decide_False; [done|]. intros [_ [? [=]]].
  - rewrite list_lookup_alter_ne by done. rewrite decide_False by tauto. done.
Qed.
Lemma nxt_alter_prev h a b q : nxt (alter (with_prev q) a h) b = nxt h b.
Proof.
  unfold nxt. destruct (decide (a = b)) as [->|Hne];
    [rewrite list_lookup_alter_eq; by destruct (h !! b)|by rewrite list_lookup_alter_ne].
Qed.
Lemma prv_alter_next h a b q : prv (alter (with_next q) a h) b = prv h b.
Proof.
  unfold prv. destruct (decide (a = b)) as [->|Hne];
    [rewrite list_lookup_alter_eq; by destruct (h !! b)|by rewrite list_lookup_alter_ne].
Qed.

(** ** Unlinking and relinking one node *)

(** [c.prev.next = c.next] and, when [c.next] is not nil,
    [c.next.prev = c.prev], for a node [c] between [p] and [q]. *)
Definition splice h p q : heap Val :=
  let h := alter (with_next q) p h in
  match q with Some b => alter (with_prev (Some p)) b h | None => h end.

Lemma seg_set_last h p A q q' :
  seg h p A q → NoDup (p :: A) → seg (alter (with_next q') (lst p A) h) p A q'.
Proof.
  intros Hs. assert (is_Some (h !! lst p A)) as Hv by (eapply seg_valid, lst_elem; done).
  revert p Hs Hv. induction A as [|a A IH]; intros p; simpl.
  - intros _ Hv _. rewrite nxt_alter_next. by rewrite decide_True.
  - rewrite lst_cons. intros (E1 & E2 & Hs) Hv [Hnp Hnd]%NoDup_cons.
    assert (lst a A ≠ p) by (intros <-; apply Hnp, lst_elem).
    rewrite nxt_alter_next, decide_False, prv_alter_next by tauto. auto.
Qed.

Lemma seg_unlink h p A c B :
  seg h p (A ++ c :: B) None → NoDup (p :: A ++ c :: B) →
  seg (splice h (lst p A) (head B)) p (A ++ B) None.
Proof.
  intros (HA & Hc & HB)%seg_app Hnd.
  assert (lst p A ∈ p :: A) as Hlst by apply lst_elem.
  assert (NoDup (p :: A)) as HndA.
  { change (NoDup ((p :: A) ++ c :: B)) in Hnd. by apply NoDup_app in Hnd as [? _]. }
  destruct B as [|b B]; simpl in *.
  - rewrite app_nil_r. by eapply seg_set_last.
  - destruct HB as (E1 & E2 & HB).
    change (NoDup ((p :: A) ++ c :: b :: B)) in Hnd.
    apply NoDup_app in Hnd as (_ & Hdisj & (Hcb & (Hb & HndB)%NoDup_cons)%NoDup_cons).
    assert (is_Some (h !! b)) by (eapply seg_valid; [exact HB|left]).
    unfold splice. apply seg_app. split_and!.
    + eapply seg_frame, seg_set_last; [..|exact HA|exact HndA].
      * intros a _. apply nxt_alter_prev.
      * intros a Ha. rewrite prv_alter_prev, decide_False; [done|].
        intros [<- _]. apply (Hdisj b); set_solver.
    + rewrite prv_alter_prev, decide_True; [done|]. split; [done|].
      rewrite list_lookup_alter. case_decide as E; [rewrite E; by apply fmap_is_Some|done].
    + eapply seg_frame; [..|exact HB].
      * intros a Ha. rewrite nxt_alter_prev, nxt_alter_next, decide_False; [done|].
        intros [<- _]. apply (Hdisj _ Hlst). by right.
      * intros a Ha. rewrite prv_alter_prev, prv_alter_next, decide_False; [done|].
        intros [<- _]. done.
Qed.

Lemma alter_id (f : node Val → node Val) h a :
  (∀ x, h !! a = Some x → f x = x) → alter f a h = h.
Proof.
  intros Hf. apply list_eq. intros i. rewrite list_lookup_alter. case_decide as E; [|done].
  subst i. destruct (h !! a) eqn:E; simpl; [|done]. f_equal. auto.
Qed.

(** Writing the old pointers back undoes [splice]. *)
Lemma splice_undo h p q c :
  nxt h p = Some (Some c) → (∀ b, q = Some b → prv h b = Some (Some c) ∧ b ≠ p) →
  let h1 := splice h p q in
  let h2 := alter (with_next (Some c)) p h1 in
  match q with Some b => alter (with_prev (Some c)) b h2 | None => h2 end = h.
Proof.
  intros Hp Hq. simpl. apply list_eq. intros i. unfold nxt, prv in *.
  unfold splice. destruct q as [b|]; [destruct (Hq b eq_refl) as [Hb Hbp]|];
    rewrite !list_lookup_alter; repeat (case_decide; subst; try done);
    repeat match goal with
    | H : _ <$> ?o = Some _ |- _ => destruct o as [[]|]; simplify_eq/=
    end; done.
Qed.

Lemma splice_lookup_ne h p q c :
  c ≠ p → q ≠ Some c → splice h p q !! c = h !! c.
Proof.
  intros Hp Hq. unfold splice. destruct q as [b|]; rewrite ?list_lookup_alter_ne by naive_solver; done.
Qed.

(** A node's value, match and id never change. *)
Definition static (x : node Val) : Val * option addr * Z := (n_value x, n_match x, n_id x).

Lemma splice_static h p q a : static <$> splice h p q !! a = static <$> h !! a.
Proof.
  unfold splice. destruct q as [b|]; rewrite !list_lookup_alter;
    repeat (case_decide; subst); by destruct (h !! a).
Qed.

Lemma splice_valid h p q a : is_Some (splice h p q !! a) ↔ is_Some (h !! a).
Proof.
  pose proof (splice_static h p q a) as E.
  destruct (splice h p q !! a), (h !! a); simpl in *; simplify_eq; naive_solver.
Qed.

Lemma load_ret h a x : h !! a = Some x → load h (Some a) = Ret x.
Proof. intros E. unfold load. simpl. by rewrite E. Qed.
Lemma set_next_ret h a q : is_Some (h !! a) → set_next h (Some a) q = Ret (alter (with_next q) a h).
Proof. intros [x E]. unfold set_next. by rewrite (load_ret _ _ _ E). Qed.
Lemma set_prev_ret h a q : is_Some (h !! a) → set_prev h (Some a) q = Ret (alter (with_prev q) a h).
Proof. intros [x E]. unfold set_prev. by rewrite (load_ret _ _ _ E). Qed.
End segments.

(** ** [lift] and [unlift] *)

Section lifting.
Context {Val : Type}.
Implicit Types (h : heap Val) (a b c p r : addr) (A B C : list addr).

Lemma seg_head h p l : seg h p l None → nxt h p = Some (head l).
Proof. destruct l; simpl; naive_solver. Qed.

(** The writes of [lift] are two [splice]s: the call, then its return. *)
Lemma lift_ret h c xc p q r xr p' :
  h !! c = Some xc → n_prev xc = Some p → n_next xc = Some q → n_match xc = Some r →
  is_Some (h !! p) → is_Some (h !! q) → c ≠ p → c ≠ q →
  let h1 := splice h p (Some q) in
  h1 !! r = Some xr → n_prev xr = Some p' → is_Some (h1 !! p') → r ≠ p' →
  (∀ b, n_next xr = Some b → is_Some (h1 !! b)) →
  lift h (Some c) = Ret (splice h1 p' (n_next xr)).
Proof.
  intros Hc Hpr Hnx Hm Hp Hq Hcp Hcq h1 Hr Hpr' Hp' Hrp' Hq'.
  unfold lift. rewrite (load_ret _ _ _ Hc). simpl. rewrite Hpr, Hnx.
  rewrite set_next_ret by done. simpl.
  rewrite (load_ret _ c xc) by (rewrite list_lookup_alter_ne by done; done). simpl.
  rewrite Hpr, Hnx.
  rewrite set_prev_ret by (rewrite list_lookup_alter; case_decide; [subst; by apply fmap_is_Some|done]).
  simpl. change (alter (with_prev (Some p)) q (alter (with_next (Some q)) p h)) with h1.
  rewrite (load_ret h1 c xc)
    by (unfold h1; rewrite splice_lookup_ne; [done|done|congruence]). simpl.
  rewrite Hm, (load_ret _ _ _ Hr). simpl. rewrite Hpr', set_next_ret by done. simpl.
  rewrite (load_ret _ r xr) by (by rewrite list_lookup_alter_ne). simpl.
  unfold splice. destruct (n_next xr) as [b|]; [|done].
  rewrite Hpr'. apply set_prev_ret.
  rewrite list_lookup_alter. case_decide; [subst; by apply fmap_is_Some|eauto].
Qed.

(** [unlift] writes the pointers of the return, then those of the call. *)
Lemma unlift_ret h h1 h2 c xc p q r xr p' :
  h2 !! c = Some xc → n_match xc = Some r → h2 !! r = Some xr → n_prev xr = Some p' →
  is_Some (h2 !! p') → r ≠ p' → (∀ b, n_next xr = Some b → is_Some (h2 !! b)) →
  match n_next xr with
  | Some b => alter (with_prev (Some r)) b (alter (with_next (Some r)) p' h2)
  | None => alter (with_next (Some r)) p' h2
  end = h1 →
  h1 !! c = Some xc → n_prev xc = Some p → n_next xc = Some q →
  is_Some (h1 !! p) → is_Some (h1 !! q) → c ≠ p →
  alter (with_prev (Some c)) q (alter (with_next (Some c)) p h1) = h →
  unlift h2 (Some c) = Ret h.
Proof.
  intros Hc Hm Hr Hpr' Hp' Hrp' Hq' E1 Hc1 Hpr Hnx Hp Hq Hcp E.
  unfold unlift. rewrite (load_ret _ _ _ Hc). simpl. rewrite Hm, (load_ret _ _ _ Hr). simpl.
  rewrite Hpr', set_next_ret by done. simpl.
  rewrite (load_ret _ r xr) by (by rewrite list_lookup_alter_ne). simpl.
  assert (match n_next xr with
    | Some _ => set_prev (alter (with_next (Some r)) p' h2) (n_next xr) (Some r)
    | None => Ret (alter (with_next (Some r)) p' h2)
    end = Ret h1) as ->.
  { rewrite <-E1. destruct (n_next xr) as [b|]; [|done]. apply set_prev_ret.
    rewrite list_lookup_alter. case_decide; [subst; by apply fmap_is_Some|eauto]. }
  simpl. rewrite (load_ret _ _ _ Hc1). simpl. rewrite Hpr, set_next_ret by done. simpl.
  rewrite (load_ret _ c xc) by (by rewrite list_lookup_alter_ne). simpl.
  rewrite Hnx, set_prev_ret; [by rewrite E|].
  rewrite list_lookup_alter. case_decide; [subst; by apply fmap_is_Some|done].
Qed.

Lemma seg_node h hd A c B :
  seg h hd (A ++ c :: B) None → NoDup (hd :: A ++ c :: B) →
  ∃ x, h !! c = Some x ∧ n_prev x = Some (lst hd A) ∧ n_next x = head B ∧
    is_Some (h !! lst hd A) ∧ c ≠ lst hd A ∧
    nxt h (lst hd A) = Some (Some c) ∧
    ∀ b, head B = Some b → is_Some (h !! b) ∧ b ≠ c ∧ prv h b = Some (Some c) ∧ b ≠ lst hd A.
Proof.
  intros Hs Hnd. pose proof Hs as (HA & Hc & HB)%seg_app.
  pose proof (seg_head _ _ _ HB) as Hn.
  unfold prv, nxt in Hc, Hn. destruct (h !! c) as [x|] eqn:E; simplify_eq/=.
  assert (lst hd A ∈ hd :: A) as Hl by apply lst_elem.
  change (NoDup ((hd :: A) ++ c :: B)) in Hnd. apply NoDup_app in Hnd as (_ & Hd & Hnd).
  exists x. split_and!; [done..| | | |].
  - eapply seg_valid; [exact Hs|]. set_solver.
  - intros ->. apply (Hd _ Hl). left.
  - by eapply seg_last.
  - intros b Hb. destruct B as [|b' B]; simplify_eq/=. destruct HB as (_ & Hp & HB).
    split_and!; [eapply seg_valid; [exact HB|left]| |done|].
    + intros ->. inversion Hnd; set_solver.
    + intros ->. apply (Hd _ Hl). right. left.
Qed.

(** [lift] removes a call and its return from the list; [unlift] restores
    the store exactly. *)
Lemma lift_unlift h hd A c B r C :
  seg h hd (A ++ c :: B ++ r :: C) None → NoDup (hd :: A ++ c :: B ++ r :: C) →
  (n_match <$> h !! c) = Some (Some r) →
  ∃ h', lift h (Some c) = Ret h' ∧ seg h' hd (A ++ B ++ C) None ∧
    (∀ a, (static <$> h' !! a) = (static <$> h !! a)) ∧ unlift h' (Some c) = Ret h.
Proof.
  intros Hs Hnd Hm.
  destruct (seg_node _ _ _ _ _ Hs Hnd) as (xc & Ec & Hpr & Hnx & Hp & Hcp & Hnp & Hq).
  destruct (head (B ++ r :: C)) as [q|] eqn:Eq; [|by destruct B].
  destruct (Hq q eq_refl) as (Vq & Hqc & Hpq & Hqp). rewrite Ec in Hm. simpl in Hm.
  set (p := lst hd A) in *. set (h1 := splice h p (Some q)).
  assert (seg h1 hd ((A ++ B) ++ r :: C) None) as Hs1.
  { pose proof (seg_unlink _ _ _ _ _ Hs Hnd) as Hs1. rewrite Eq in Hs1. by rewrite <-(assoc_L (++)). }
  assert ((c ∉ (hd :: (A ++ B) ++ r :: C)) ∧ NoDup (hd :: (A ++ B) ++ r :: C)) as [Hcnot Hnd1].
  { assert ((hd :: A ++ c :: B ++ r :: C) ≡ₚ (c :: hd :: (A ++ B) ++ r :: C)) as Hperm.
    { rewrite <-(assoc_L (++)). rewrite <-(Permutation_middle A). by constructor. }
    rewrite Hperm in Hnd. by apply NoDup_cons in Hnd. }
  destruct (seg_node _ _ _ _ _ Hs1 Hnd1) as (xr & Er & Hpr' & Hnx' & Hp' & Hrp' & Hnp' & Hq').
  set (p' := lst hd (A ++ B)) in *. rewrite <-Hnx' in Hq'. set (h2 := splice h1 p' (n_next xr)).
  assert (p' ∈ hd :: A ++ B) as Hp'in by apply lst_elem.
  assert (h1 !! c = Some xc) as Ec1.
  { unfold h1. rewrite splice_lookup_ne; [done..|congruence]. }
  assert (n_next xr ≠ Some c) as Hnc.
  { rewrite Hnx'. intros Hh. apply Hcnot. destruct C; simplify_eq/=. set_solver. }
  exists h2. split_and!.
  - eapply lift_ret; try done; try congruence. intros b Hb. by apply Hq'.
  - pose proof (seg_unlink _ _ _ _ _ Hs1 Hnd1) as Hs2. rewrite <-Hnx' in Hs2.
    by rewrite <-(assoc_L (++)) in Hs2.
  - intros a. unfold h2, h1. by rewrite !splice_static.
  - eapply (unlift_ret h h1 h2 c xc p q r xr p').
    + unfold h2. rewrite splice_lookup_ne; [done| |done]. intros <-. set_solver.
    + congruence.
    + unfold h2. rewrite splice_lookup_ne; [done..|]. intros Hb. by apply Hq' in Hb as (_ & ? & _).
    + done.
    + by apply splice_valid.
    + done.
    + intros b Hb. apply splice_valid. by apply Hq'.
    + apply splice_undo; [done|]. intros b Hb. by destruct (Hq' b Hb) as (_ & _ & ? & ?).
    + done.
    + done.
    + done.
    + by apply splice_valid.
    + by apply splice_valid.
    + done.
    + apply (splice_undo h p (Some q) c); [done|]. intros b [= <-]. done.
Qed.
End lifting.

(** ** Building the list *)

Section building.
Context {Val : Type}.
Implicit Types (h : heap Val) (es : list (entry Val)).
Abbreviation cell := (addr * entry Val)%type.
Implicit Types (cs : list cell).

(** [makeLinkedEntries] allocates from the last entry: the node of an entry
    is at the number of entries after it. *)
Fixpoint cells es : list cell :=
  match es with
  | [] => []
  | e :: es => (List.length es, e) :: cells es
  end.

Definition is_return_of (k : Z) (c : cell) : Prop := kind c.2 = returnEntry ∧ id c.2 = k.
#[export] Instance is_return_of_dec k c : Decision (is_return_of k c).
Proof. apply _. Defined.

(** The node of the first return entry with a given id. *)
Definition find_ret (k : Z) cs : option addr := fst <$> head (filter (is_return_of k) cs).

Definition match_of (e : entry Val) cs : option addr :=
  match kind e with callEntry => find_ret (id e) cs | returnEntry => None end.

(** Every cell's node holds the entry's value and id, and the match its kind
    asks for. *)
Fixpoint static_ok h cs : Prop :=
  match cs with
  | [] => True
  | (a, e) :: cs => (static <$> h !! a) = Some (value e, match_of e cs, id e) ∧ static_ok h cs
  end.

(** A list whose first node has no predecessor. *)
Definition rooted h (l : list addr) : Prop :=
  match l with [] => True | a :: l => prv h a = Some None ∧ seg h a l None end.

Lemma cells_fst es : (cells es).*1 = reverse (seq 0 (List.length es)).
Proof.
  induction es as [|e es IH]; [done|]. simpl List.length.
  rewrite seq_S, reverse_app. csimpl. by rewrite IH.
Qed.
Lemma cells_snd es : (cells es).*2 = es.
Proof. induction es as [|e es IH]; csimpl; congruence. Qed.
Lemma cells_addr es a : a ∈ (cells es).*1 ↔ (a < List.length es)%nat.
Proof. rewrite cells_fst, elem_of_reverse, elem_of_seq. lia. Qed.
Lemma cells_NoDup es : NoDup (cells es).*1.
Proof. rewrite cells_fst, reverse_Permutation. apply NoDup_seq. Qed.

Lemma static_ok_frame h h' cs :
  (∀ a, a ∈ cs.*1 → (static <$> h' !! a) = (static <$> h !! a)) →
  static_ok h cs → static_ok h' cs.
Proof.
  induction cs as [|[a e] cs IH]; csimpl; [done|]. intros Ha [E Hs].
  rewrite Ha by set_solver. split; [done|]. apply IH; [|done]. set_solver.
Qed.

(** Prepending a fresh node to a rooted list. *)
Lemma insertBefore_fresh h x l :
  rooted h l → (∀ a, a ∈ l → (a < List.length h)%nat) → NoDup l →
  n_next x = None → n_prev x = None →
  let n := List.length h in
  ∃ h', insertBefore (h ++ [x]) (Some n) (head l) = Ret (h', Some n) ∧
    List.length h' = S (List.length h) ∧ rooted h' (n :: l) ∧
    ∀ a, (static <$> h' !! a) = (static <$> (h ++ [x]) !! a).
Proof.
  intros Hr Hlt Hnd Hnx Hpx n.
  assert ((h ++ [x]) !! n = Some x) as En by (by apply list_lookup_middle).
  destruct l as [|a l]; simpl.
  - exists (h ++ [x]). rewrite length_app. simpl. unfold prv, nxt. rewrite En.
    simpl. rewrite Hnx, Hpx. split_and!; [done|lia|done..].
  - destruct Hr as [Hp Hs]. assert (a < n)%nat as Han by (apply Hlt; left).
    assert ((h ++ [x]) !! a = h !! a) as Ea by (by apply lookup_app_l).
    unfold prv in Hp. destruct (h !! a) as [y|] eqn:Ey; simplify_eq/=.
    unfold load at 1. simpl. rewrite Ea. simpl.
    rewrite set_prev_ret by (by rewrite Ea). simpl.
    rewrite set_next_ret by (rewrite list_lookup_alter_ne by lia; by rewrite En). simpl.
    rewrite Hp. eexists; split; [done|]. rewrite !length_alter, length_app. simpl.
    assert (∀ b, b ≠ n → b ≠ a → (alter (with_next (Some a)) n
      (alter (with_prev (Some n)) a (h ++ [x]))) !! b = (h ++ [x]) !! b) as Hne.
    { intros b ? ?. by rewrite !list_lookup_alter_ne. }
    assert (∀ b, b ∈ a :: l → (h ++ [x]) !! b = h !! b) as Hold.
    { intros b Hb. apply lookup_app_l. by apply Hlt. }
    split_and!; [lia| | | | |].
    + rewrite prv_alter_next, prv_alter_prev, decide_False by naive_solver lia.
      unfold prv. rewrite En. simpl. by rewrite Hpx.
    + rewrite nxt_alter_next, decide_True; [done|]. split; [done|].
      by rewrite list_lookup_alter_ne, En by lia.
    + rewrite prv_alter_next, prv_alter_prev, decide_True; [done|]. by rewrite Ea.
    + eapply seg_frame; [| |exact Hs].
      * intros b Hb. rewrite nxt_alter_next, decide_False, nxt_alter_prev.
        { unfold nxt. by rewrite Hold. }
        intros [<- _]. assert (n < n)%nat; [by apply Hlt|lia].
      * intros b Hb. apply NoDup_cons in Hnd as [Hnot _].
        rewrite prv_alter_next, prv_alter_prev, decide_False.
        { unfold prv. by rewrite Hold by (by right). }
        by intros [<- _].
    + intros b. rewrite !list_lookup_alter. repeat (case_decide; subst); try done;
        match goal with |- _ = _ <$> ?o => by destruct o end.
Qed.

Lemma link_entry_spec h cs root m e :
  List.length h = List.length cs → rooted h cs.*1 →
  (∀ a, a ∈ cs.*1 → (a < List.length h)%nat) → NoDup cs.*1 →
  static_ok h cs → root = head cs.*1 → (∀ k, m !! k = find_ret k cs) →
  let cs' := (List.length h, e) :: cs in
  ∃ h' m', link_entry (h, root, m) e = Ret (h', head cs'.*1, m') ∧
    List.length h' = List.length cs' ∧ rooted h' cs'.*1 ∧ static_ok h' cs' ∧
    ∀ k, m' !! k = find_ret k cs'.
Proof.
  intros Hlen Hr Hlt Hnd Hst -> Hm cs'.
  set (x := mkNode (value e) (match_of e cs) (id e) None None).
  destruct (insertBefore_fresh h x cs.*1 Hr Hlt Hnd eq_refl eq_refl) as (h' & E & Hl & Hr' & Hs').
  exists h', (match kind e with returnEntry => <[id e := List.length h]> m | callEntry => m end).
  split_and!.
  - unfold link_entry, new_node. rewrite Hm. subst x cs'. csimpl. unfold match_of in E.
    destruct (kind e); by rewrite E.
  - subst cs'. simpl. lia.
  - done.
  - subst cs'. simpl. split.
    + rewrite Hs', list_lookup_middle by done. done.
    + eapply static_ok_frame; [|exact Hst]. intros a Ha. rewrite Hs'.
      by rewrite lookup_app_l by (by apply Hlt).
  - intros k. subst cs'. unfold find_ret. destruct (kind e) eqn:Ek.
    + rewrite filter_cons_False; [apply Hm|]. intros [? _]. simpl in *. congruence.
    + destruct (decide (id e = k)) as [<-|].
      * by rewrite lookup_insert_eq, filter_cons_True.
      * rewrite lookup_insert_ne, filter_cons_False; [apply Hm|by intros [_ ?]|done].
Qed.

Lemma makeLinkedEntries_spec es :
  ∃ h, makeLinkedEntries [] es = Ret (h, head (cells es).*1) ∧
    List.length h = List.length es ∧ rooted h (cells es).*1 ∧ static_ok h (cells es).
Proof.
  assert (∃ h m, foldM link_entry ([], None, ∅) (reverse es) = Ret (h, head (cells es).*1, m) ∧
    List.length h = List.length es ∧ rooted h (cells es).*1 ∧ static_ok h (cells es) ∧
    ∀ k, m !! k = find_ret k (cells es)) as (h & m & E & ? & ? & ? & ?).
  { assert (∀ es, List.length (cells es) = List.length es) as Hlen.
    { intros es'. by rewrite <-(length_fmap snd (cells es')), cells_snd. }
    induction es as [|e es (h & m & E & Hl & Hr & Hs & Hm)].
    - exists [], ∅. by split_and!.
    - rewrite reverse_cons, foldM_app, E. cbn [foldM mbind result_bind].
      destruct (link_entry_spec h (cells es) (head (cells es).*1) m e)
        as (h' & m' & E' & ? & Hr' & Hs' & ?); [by rewrite Hlen|done| |apply cells_NoDup|done|done|done|].
      { intros a. rewrite cells_addr. lia. }
      exists h', m'. rewrite E'. rewrite Hl in *. simpl in *. rewrite Hlen in *.
      destruct Hr', Hs'. by split_and!. }
  exists h. unfold makeLinkedEntries. rewrite E. by split_and!.
Qed.

Lemma length_loop_seg h p l fuel n :
  seg h p l None → (List.length l < fuel)%nat →
  length_loop fuel h (head l) n = Ret (n + Z.of_nat (List.length l)).
Proof.
  revert p fuel n. induction l as [|a l IH]; intros p [|fuel] n Hs Hf; simpl in *; try lia.
  - f_equal. lia.
  - destruct Hs as (_ & _ & Hs). pose proof (seg_head _ _ _ Hs) as Hn.
    unfold load. simpl. unfold nxt in Hn. destruct (h !! a) as [x|]; simplify_eq/=.
    rewrite Hn, (IH a) by (done || lia). f_equal. lia.
Qed.

Lemma length_rooted h l :
  rooted h l → (List.length l ≤ List.length h)%nat →
  length h (head l) = Ret (Z.of_nat (List.length l)).
Proof.
  intros Hr Hlen. unfold length. destruct l as [|a l]; [done|].
  destruct Hr as [Hp Hs]. simpl in *. unfold prv in Hp.
  pose proof (seg_head _ _ _ Hs) as Hn. unfold nxt in Hn.
  unfold load. simpl. destruct (h !! a) as [x|]; simplify_eq/=.
  rewrite Hn, (length_loop_seg _ a) by (done || lia). f_equal. lia.
Qed.

(** The list [checkSingle] starts from: the entries behind a head node. *)
Lemma build_list es (nilV : Val) :
  ∃ h0 h, makeLinkedEntries [] es = Ret (h0, head (cells es).*1) ∧
    length h0 (head (cells es).*1) = Ret (Z.of_nat (List.length es)) ∧
    List.length h0 = List.length es ∧
    insertBefore (h0 ++ [mkNode nilV None (-1) None None]) (Some (List.length es)) (head (cells es).*1)
      = Ret (h, Some (List.length es)) ∧
    seg h (List.length es) (cells es).*1 None ∧ static_ok h (cells es) ∧
    NoDup (List.length es :: (cells es).*1).
Proof.
  destruct (makeLinkedEntries_spec es) as (h0 & E & Hl & Hr & Hs).
  assert (∀ a, a ∈ (cells es).*1 → (a < List.length h0)%nat) as Hlt.
  { intros a. rewrite cells_addr. lia. }
  assert (List.length (cells es).*1 = List.length es) as Hlc.
  { by rewrite cells_fst, length_reverse, length_seq. }
  destruct (insertBefore_fresh h0 (mkNode nilV None (-1) None None) (cells es).*1)
    as (h & E2 & Hl2 & Hr2 & Hs2); [done|done|apply cells_NoDup|done|done|].
  rewrite Hl in *. exists h0, h. split_and!; [done| |done..| | |].
  - rewrite length_rooted by (done || lia). by rewrite Hlc.
  - apply Hr2.
  - eapply static_ok_frame; [|exact Hs]. intros a Ha. rewrite Hs2.
    rewrite lookup_app_l by (rewrite Hl; by apply Hlt). done.
  - apply NoDup_cons. split; [|apply cells_NoDup]. rewrite cells_addr. lia.
Qed.
End building.
