(* ===== verification/History.v ===== *)
(** Specification: what it means for an entry list to be linearizable.

    An entry list is a sequence of call and return entries, in real-time
    order. [linearizable] is the textbook definition (a legal permutation of
    the operations that respects real-time precedence); [runs] is the
    step-by-step search space the checker walks. For [balanced] lists the two
    coincide ([runs_linearizable]). *)
From Stdlib Require Import ZArith Lia.
From stdpp Require Import base gmap sets list.
From S2P Require Import Prelude Model Entries.

Section history.
Context {Val State : Type} (M : Model Val State).
Implicit Types (L A B C : list (entry Val)) (c r e : entry Val) (i : Z) (s t : State) (π : list Z).

Definition is_call e : Prop := kind e = callEntry.
Definition is_return e : Prop := kind e = returnEntry.

(** The entries of one operation, and the list without them. *)
Definition of_id i L : list (entry Val) := filter (λ e, id e = i) L.
Definition drop_id i L : list (entry Val) := filter (λ e, id e ≠ i) L.

(** Every operation in the list has one call, followed by one return. *)
Definition balanced L : Prop :=
  ∀ i, of_id i L = [] ∨ ∃ c r, of_id i L = [c; r] ∧ is_call c ∧ is_return r.

Definition op_ids L : list Z := id <$> filter (λ e, kind e = callEntry) L.

(** Input and output of an operation. *)
Definition io L i (v w : Val) : Prop :=
  ∃ c r, of_id i L = [c; r] ∧ value c = v ∧ value r = w.

(** Operation [a] returned before operation [b] was called. *)
Definition precedes L (a b : Z) : Prop :=
  ∃ r c, before L r c ∧ is_return r ∧ id r = a ∧ is_call c ∧ id c = b.

(** Replaying the operations [π] one after the other from [s] succeeds. *)
Fixpoint legal L s π : Prop :=
  match π with
  | [] => True
  | i :: π => ∃ v w s', io L i v w ∧ Step M s v w = Ret (true, s') ∧ legal L s' π
  end.

Definition linearizes L s π : Prop :=
  π ≡ₚ op_ids L ∧ legal L s π ∧ ∀ a b, precedes L a b → before π a b.

Definition linearizable L : Prop := ∃ π, linearizes L (Init M) π.

(** ** The search space *)

(** Linearize next an operation whose call is before every return. *)
Inductive pick : list (entry Val) → State → Z → list (entry Val) → State → Prop :=
  | pick_intro A c B r C s s' :
      Forall is_call A → is_call c → is_return r → id r = id c →
      Step M s (value c) (value r) = Ret (true, s') →
      pick (A ++ c :: B ++ r :: C) s (id c) (A ++ B ++ C) s'.

Inductive runs : list (entry Val) → State → list Z → list (entry Val) → State → Prop :=
  | runs_nil L s : runs L s [] L s
  | runs_cons L s i L1 s1 π L2 s2 :
      pick L s i L1 s1 → runs L1 s1 π L2 s2 → runs L s (i :: π) L2 s2.

Definition completable L s : Prop := ∃ π s', runs L s π [] s'.

Lemma runs_snoc L s π L1 s1 i L2 s2 :
  runs L s π L1 s1 → pick L1 s1 i L2 s2 → runs L s (π ++ [i]) L2 s2.
Proof. induction 1; intros; simpl; econstructor; eauto using runs_nil. Qed.

Lemma runs_nil_inv L s L' s' : runs L s [] L' s' → L' = L ∧ s' = s.
Proof. by inversion 1. Qed.
Lemma runs_cons_inv L s i π L2 s2 :
  runs L s (i :: π) L2 s2 → ∃ L1 s1, pick L s i L1 s1 ∧ runs L1 s1 π L2 s2.
Proof. inversion 1; subst. eauto. Qed.

(** ** Balanced lists *)

Lemma of_id_app i L1 L2 : of_id i (L1 ++ L2) = of_id i L1 ++ of_id i L2.
Proof. apply filter_app. Qed.
Lemma of_id_cons i e L : of_id i (e :: L) = if decide (id e = i) then e :: of_id i L else of_id i L.
Proof. unfold of_id. by rewrite filter_cons. Qed.
Lemma drop_id_app i L1 L2 : drop_id i (L1 ++ L2) = drop_id i L1 ++ drop_id i L2.
Proof. apply filter_app. Qed.

Lemma of_id_drop_id i j L : of_id i (drop_id j L) = if decide (i = j) then [] else of_id i L.
Proof.
  unfold of_id, drop_id. rewrite list_filter_filter. case_decide as E.
  - apply filter_nil_iff. intros. naive_solver.
  - apply list_filter_iff. naive_solver.
Qed.

Lemma of_id_nil_drop i L : of_id i L = [] → drop_id i L = L.
Proof. intros E. apply filter_all. intros x Hx Hi. by eapply filter_nil_iff in E. Qed.

Lemma balanced_drop i L : balanced L → balanced (drop_id i L).
Proof.
  intros HL j. rewrite of_id_drop_id. case_decide; [by left|apply HL].
Qed.

(** The two entries of the operation called at a given place. *)
Lemma balanced_split A c B :
  balanced (A ++ c :: B) → is_call c →
  ∃ B1 r B2, B = B1 ++ r :: B2 ∧ is_return r ∧ id r = id c ∧
    of_id (id c) (A ++ c :: B) = [c; r] ∧
    of_id (id c) A = [] ∧ of_id (id c) B1 = [] ∧ of_id (id c) B2 = [].
Proof.
  intros Hb Hc. unfold is_call, is_return in *.
  destruct (Hb (id c)) as [E|(c' & r & E & Hc' & Hr)];
    rewrite of_id_app, of_id_cons, decide_True in E by done.
  { by destruct (of_id (id c) A). }
  unfold is_call, is_return in *.
  assert (of_id (id c) A = []) as EA.
  { destruct (of_id (id c) A) as [|x [|y l]] eqn:EA; simplify_eq/=; [done|congruence|].
    by destruct l. }
  rewrite EA in E. simpl in E. injection E as <- E.
  assert (r ∈ of_id (id c) B) as Hin by (rewrite E; left).
  unfold of_id in Hin. apply list_elem_of_filter in Hin as [Hid (B1 & B2 & ->)%list_elem_of_split].
  exists B1, r, B2. rewrite of_id_app, of_id_cons, decide_True in E by done.
  assert (of_id (id c) B1 = [] ∧ of_id (id c) B2 = []) as [E1 E2].
  { destruct (of_id (id c) B1) as [|x l]; simplify_eq/=; [done|]. by destruct l. }
  split_and!; try done. rewrite of_id_app, of_id_cons, decide_True, of_id_app, of_id_cons by done.
  by rewrite decide_True, EA, E1, E2.
Qed.

Lemma balanced_drop_split A c B1 r B2 :
  id r = id c → of_id (id c) A = [] → of_id (id c) B1 = [] → of_id (id c) B2 = [] →
  drop_id (id c) (A ++ c :: B1 ++ r :: B2) = A ++ B1 ++ B2.
Proof.
  intros Hr HA H1 H2. rewrite drop_id_app. unfold drop_id at 2.
  rewrite filter_cons_False by naive_solver. change (filter ?P ?l) with (drop_id (id c) l).
  rewrite drop_id_app. unfold drop_id at 3. rewrite filter_cons_False by naive_solver.
  change (filter ?P ?l) with (drop_id (id c) l). by rewrite !of_id_nil_drop.
Qed.

Lemma balanced_pair A c B r C :
  balanced (A ++ c :: B ++ r :: C) → id r = id c →
  of_id (id c) A = [] ∧ of_id (id c) B = [] ∧ of_id (id c) C = [].
Proof.
  intros Hb Hr. specialize (Hb (id c)).
  rewrite of_id_app, of_id_cons, decide_True, of_id_app, of_id_cons, decide_True in Hb by done.
  destruct Hb as [E|(c' & r' & E & _)]; apply (f_equal length) in E;
    repeat (rewrite length_app in E; simpl in E); [lia|].
  split_and!; apply nil_length_inv; lia.
Qed.

Lemma balanced_last A : balanced A → Forall is_call A → A = [].
Proof.
  intros Hb HA. destruct A as [|c A]; [done|].
  inversion HA as [|?? Hc HA']; subst.
  destruct (balanced_split [] c A Hb Hc) as (B1 & r & B2 & -> & Hr & _).
  rewrite Forall_app, Forall_cons in HA'. unfold is_call, is_return in *.
  destruct HA' as (_ & ? & _). congruence.
Qed.

Lemma op_ids_app L1 L2 : op_ids (L1 ++ L2) = op_ids L1 ++ op_ids L2.
Proof. unfold op_ids. by rewrite filter_app, fmap_app. Qed.
Lemma op_ids_call c L : is_call c → op_ids (c :: L) = id c :: op_ids L.
Proof. intros. unfold op_ids. by rewrite filter_cons_True. Qed.
Lemma op_ids_return r L : is_return r → op_ids (r :: L) = op_ids L.
Proof. unfold is_return, op_ids. intros. rewrite filter_cons_False; congruence. Qed.

Lemma elem_of_op_ids i L : i ∈ op_ids L ↔ ∃ c, c ∈ L ∧ is_call c ∧ id c = i.
Proof.
  unfold op_ids. rewrite list_elem_of_fmap. setoid_rewrite list_elem_of_filter.
  unfold is_call. naive_solver.
Qed.

Lemma balanced_op_ids_NoDup L : balanced L → NoDup (op_ids L).
Proof.
  intros Hb. apply NoDup_fmap_count. intros i. rewrite list_filter_filter.
  rewrite (list_filter_iff _ (λ e, kind e = callEntry ∧ id e = i)) by naive_solver.
  rewrite <-list_filter_filter. change (filter (λ e, id e = i) L) with (of_id i L).
  destruct (Hb i) as [->|(c & r & -> & Hc & Hr)]; simpl; [lia|].
  unfold is_return in Hr. rewrite filter_cons. case_decide; rewrite filter_cons_False by congruence; simpl; lia.
Qed.

(** What one step of the search does to a balanced list. *)
Lemma pick_inv L s i L1 s1 :
  pick L s i L1 s1 → balanced L →
  ∃ A c B r C, L = A ++ c :: B ++ r :: C ∧ id c = i ∧ is_call c ∧ is_return r ∧ id r = i ∧
    Forall is_call A ∧ Step M s (value c) (value r) = Ret (true, s1) ∧
    L1 = drop_id i L ∧ of_id i L = [c; r] ∧ op_ids L ≡ₚ i :: op_ids L1 ∧ balanced L1.
Proof.
  intros [A c B r C s0 s' HA Hc Hr Hid Hstep] Hb.
  destruct (balanced_pair _ _ _ _ _ Hb Hid) as (EA & EB & EC).
  pose proof (balanced_drop_split A c B r C Hid EA EB EC) as Ed.
  exists A, c, B, r, C. split_and!; try done.
  - rewrite of_id_app, of_id_cons, decide_True, of_id_app, of_id_cons, decide_True by done.
    by rewrite EA, EB, EC.
  - rewrite !op_ids_app, op_ids_call, op_ids_app, op_ids_return by done.
    by rewrite <-Permutation_middle.
  - rewrite <-Ed. by apply balanced_drop.
Qed.

Lemma io_drop L i j v w : i ≠ j → io (drop_id j L) i v w ↔ io L i v w.
Proof. intros. unfold io. by rewrite of_id_drop_id, decide_False. Qed.

Lemma legal_drop L j s π : j ∉ π → legal (drop_id j L) s π ↔ legal L s π.
Proof.
  revert s. induction π as [|i π IH]; intros s; simpl; [done|].
  intros [Hij Hj]%not_elem_of_cons. setoid_rewrite io_drop; [|done].
  setoid_rewrite IH; done.
Qed.

Lemma precedes_drop L j a b : a ≠ j → b ≠ j → precedes (drop_id j L) a b ↔ precedes L a b.
Proof.
  intros Ha Hb. unfold precedes, drop_id.
  split; intros (r & c & Hbef & Hr & Ir & Hc & Ic); exists r, c;
    (split; [|done]).
  - by rewrite <-before_filter in Hbef by congruence.
  - by rewrite <-before_filter by congruence.
Qed.

Lemma precedes_elem L a b : balanced L → precedes L a b → a ∈ op_ids L ∧ b ∈ op_ids L ∧ a ≠ b.
Proof.
  intros Hb (r & c & Hbef & Hr & <- & Hc & <-).
  pose proof (before_elem_of _ _ _ Hbef) as [Hrin Hcin].
  assert (of_id (id r) L ≠ []) as Hne.
  { intros E. eapply filter_nil_iff in E; [|exact Hrin]. done. }
  destruct (Hb (id r)) as [?|(c' & r' & E & Hc' & Hr')]; [done|]. split_and!.
  - apply elem_of_op_ids. exists c'. assert (c' ∈ of_id (id r) L) as Hin by (rewrite E; left).
    apply list_elem_of_filter in Hin. naive_solver.
  - apply elem_of_op_ids. eauto.
  - intros Eid. rewrite (before_filter (λ e, id e = id r)) in Hbef by done.
    change (filter _ L) with (of_id (id r) L) in Hbef. rewrite E in Hbef.
    unfold is_call, is_return in *.
    destruct Hbef as ([|? [|? [|]]] & l2 & l3 & E'); simplify_eq/=; [congruence|by destruct l2].
Qed.

(** Nothing precedes an operation called before every return. *)
Lemma minimal_call A c B a : balanced (A ++ c :: B) → is_call c → Forall is_call A →
  ¬ precedes (A ++ c :: B) a (id c).
Proof.
  intros Hb Hc HA (r & c' & Hbef & Hr & _ & Hc' & Hid).
  destruct (balanced_split A c B Hb Hc) as (B1 & r0 & B2 & -> & Hr0 & _ & E & EA & E1 & E2).
  pose proof (before_elem_of _ _ _ Hbef) as [_ Hin].
  assert (c' = c) as ->.
  { assert (c' ∈ of_id (id c) (A ++ c :: B1 ++ r0 :: B2)) as Hin'.
    { by apply list_elem_of_filter. }
    rewrite E in Hin'. unfold is_call, is_return in *.
    apply elem_of_cons in Hin' as [->|Hin']; [done|].
    apply list_elem_of_singleton in Hin' as ->. congruence. }
  assert (c ∉ A) as HcA.
  { intros HcA. eapply filter_nil_iff in EA; [|exact HcA]. done. }
  assert (c ∉ B1 ++ r0 :: B2) as HcB.
  { intros [HcB|[->|HcB]%elem_of_cons]%elem_of_app.
    - eapply filter_nil_iff in E1; [|exact HcB]. done.
    - unfold is_call, is_return in *. congruence.
    - eapply filter_nil_iff in E2; [|exact HcB]. done. }
  assert (r ∈ A) as HrA.
  { clear -Hbef HcA HcB. destruct Hbef as (l1 & l2 & l3 & Eq).
    revert l1 Eq. induction A as [|x A IH]; intros [|y l1] Eq; injection Eq as -> Eq.
    - exfalso. apply HcB. rewrite Eq. set_solver.
    - exfalso. apply HcB. rewrite Eq. set_solver.
    - left.
    - right. apply (IH ltac:(set_solver) l1). done. }
  rewrite Forall_forall in HA. specialize (HA _ HrA). unfold is_call, is_return in *. congruence.
Qed.

(** A run that uses up a balanced list is a linearization of it. *)
Lemma runs_sound L s π s' : runs L s π [] s' → balanced L → linearizes L s π.
Proof.
  remember [] as Lend eqn:EL. induction 1 as [L s|L s i L1 s1 π L2 s2 Hp Hr IH]; subst.
  - intros _. split_and!; [done|done|]. intros a b (r & c & (l1 & l2 & l3 & E) & _). by destruct l1.
  - intros Hb. destruct (pick_inv _ _ _ _ _ Hp Hb)
      as (A & c & B & r & C & -> & Hid & Hc & Hret & Hrid & HA & Hstep & EL1 & Eio & Hperm & Hb1).
    destruct (IH eq_refl Hb1) as (Hp1 & Hl1 & Ho1).
    assert (i ∉ π) as Hi.
    { rewrite Hp1, EL1. rewrite elem_of_op_ids. intros (c' & Hc' & _ & Hid').
      apply list_elem_of_filter in Hc' as [Hne _]. done. }
    split_and!.
    + by rewrite Hperm, Hp1.
    + simpl. exists (value c), (value r), s1. split_and!; [by exists c, r|done|].
      rewrite EL1 in Hl1. by apply legal_drop in Hl1.
    + intros a b Hab. destruct (precedes_elem _ _ _ Hb Hab) as (Ha & Hbin & Hne).
      destruct (decide (b = i)) as [->|Hbi].
      { exfalso. rewrite <-Hid in Hab. by eapply minimal_call. }
      destruct (decide (a = i)) as [->|Hai].
      * apply before_cons_eq. rewrite Hp1. rewrite Hperm in Hbin. set_solver.
      * rewrite before_cons_ne by done. apply Ho1. rewrite EL1. by apply precedes_drop.
Qed.

(** A balanced list without operations is empty. *)
Lemma no_ops_nil L : op_ids L = [] → balanced L → L = [].
Proof.
  intros Hops Hb. apply balanced_last; [done|]. apply Forall_forall. intros e He.
  unfold is_call. destruct (kind e) eqn:Ek; [done|exfalso]. destruct (Hb (id e)) as [E|(c & r & E & Hc & _)].
  - eapply filter_nil_iff in E; [|exact He]. done.
  - assert (c ∈ of_id (id e) L) as [_ Hin]%list_elem_of_filter by (rewrite E; left).
    assert (id c ∈ op_ids L) as Hid by (apply elem_of_op_ids; eauto).
    rewrite Hops in Hid. by apply not_elem_of_nil in Hid.
Qed.

(** Before the call of the first operation of an order that respects real
    time there are only calls: what had returned would have to come first. *)
Lemma first_calls A c L' i π : NoDup (i :: π) → id c = i → is_call c →
  (∀ a b, precedes (A ++ c :: L') a b → before (i :: π) a b) → Forall is_call A.
Proof.
  intros Hnd Hid Hc Hord. apply Forall_forall. intros e He. unfold is_call. destruct (kind e) eqn:Ek; [done|exfalso].
  assert (before (i :: π) (id e) i) as Hbef.
  { apply Hord. exists e, c. split; [|done]. apply before_app_l; [done|left]. }
  destruct (before_elem_of _ _ _ Hbef) as [He' _]. apply elem_of_cons in He' as [Heq|He'].
  - rewrite Heq in Hbef. destruct Hbef as ([|? l1] & l2 & l3 & E2); injection E2; intros; subst;
      apply NoDup_cons in Hnd as [Hn _]; apply Hn; set_solver.
  - eapply before_NoDup_asym; [exact Hnd|exact Hbef|]. by apply before_cons_eq.
Qed.

(** Conversely the search space contains every linearization. *)
Lemma runs_complete L s π : linearizes L s π → balanced L → ∃ s', runs L s π [] s'.
Proof.
  revert L s. induction π as [|i π IH]; intros L s (Hperm & Hleg & Hord) Hb.
  - exists s. assert (L = []) as -> by (apply no_ops_nil; [symmetry; by apply Permutation_nil_l|done]). constructor.
  - simpl in Hleg. destruct Hleg as (v & w & s1 & (c & r & Eio & <- & <-) & Hstep & Hleg).
    assert (NoDup (i :: π)) as Hnd by (rewrite Hperm; by apply balanced_op_ids_NoDup).
    destruct (Hb i) as [E|(c' & r' & E & Hc & Hr)]; rewrite Eio in E; [done|].
    injection E as <- <-.
    assert (c ∈ of_id i L) as Hcin by (rewrite Eio; left).
    apply list_elem_of_filter in Hcin as [Hid (A & B0 & ->)%list_elem_of_split].
    destruct (balanced_split A c B0 Hb Hc) as (B & r0 & C & -> & Hr0 & Hr0id & E0 & _).
    rewrite Hid, Eio in E0. injection E0 as <-.
    assert (Forall is_call A) as HA by (by eapply first_calls).
    assert (pick (A ++ c :: B ++ r :: C) s i (A ++ B ++ C) s1) as Hpick.
    { rewrite <-Hid. constructor; done. }
    destruct (pick_inv _ _ _ _ _ Hpick Hb)
      as (_ & _ & _ & _ & _ & _ & _ & _ & _ & _ & _ & _ & EL1 & _ & Hp1 & Hb1).
    apply NoDup_cons in Hnd as [Hi Hnd].
    destruct (IH (A ++ B ++ C) s1) as [s' Hs']; [|done|exists s'; econstructor; done].
    split_and!.
    + apply (Permutation_cons_inv (a := i)). by rewrite <-Hp1.
    + rewrite EL1. by apply legal_drop.
    + intros a b Hab. assert (a ≠ i ∧ b ≠ i) as [Hai Hbi].
      { destruct (precedes_elem _ _ _ Hb1 Hab) as (Ha & Hbb & _).
        rewrite EL1 in Ha, Hbb. apply elem_of_op_ids in Ha as (x & [Hx _]%list_elem_of_filter & _ & <-).
        apply elem_of_op_ids in Hbb as (y & [Hy _]%list_elem_of_filter & _ & <-). done. }
      rewrite EL1 in Hab. apply precedes_drop in Hab; [|done..].
      apply Hord in Hab. by rewrite before_cons_ne in Hab.
Qed.

Lemma linearizable_completable L : balanced L → linearizable L ↔ completable L (Init M).
Proof.
  intros Hb. split.
  - intros [π Hπ]. destruct (runs_complete _ _ _ Hπ Hb) as [s' ?]. by exists π, s'.
  - intros (π & s' & Hr). exists π. by eapply runs_sound.
Qed.

(** ** Sequences of steps from equal states *)

(** [eqf] never tells apart states from which the model behaves differently. *)
Class EqualCompat (eqf : State → State → bool) : Prop :=
  equal_compat s t v w s' :
    eqf s t = true → Step M s v w = Ret (true, s') →
    ∃ t', Step M t v w = Ret (true, t') ∧ eqf s' t' = true.

Lemma runs_equal eqf `{!EqualCompat eqf} L s π L1 s1 t :
  runs L s π L1 s1 → eqf s t = true → ∃ t1, runs L t π L1 t1 ∧ eqf s1 t1 = true.
Proof.
  intros Hr. revert t. induction Hr as [L s|L s i L1 s1 π L2 s2 Hp Hr IH]; intros t Ht.
  - exists t. split; [constructor|done].
  - destruct Hp as [A c B r C s s' HA Hc Hret Hid Hstep].
    destruct (equal_compat _ _ _ _ _ Ht Hstep) as (t' & Hstep' & Ht').
    destruct (IH t' Ht') as (t1 & Hr1 & Ht1). exists t1. split; [|done].
    econstructor; [by constructor|done].
Qed.

Lemma completable_equal eqf `{!EqualCompat eqf} L s t :
  eqf s t = true → completable L s → completable L t.
Proof.
  intros Ht (π & s' & Hr). destruct (runs_equal eqf _ _ _ _ _ _ Hr Ht) as (t1 & ? & _).
  by exists π, t1.
Qed.

(** The number of calls before the first return. *)
Fixpoint lead L : nat :=
  match L with
  | [] => 0
  | e :: L => match kind e with callEntry => S (lead L) | returnEntry => 0 end
  end.

Lemma lead_calls A L : Forall is_call A → lead (A ++ L) = (length A + lead L)%nat.
Proof. induction 1 as [|e A He _ IH]; simpl; [done|]. unfold is_call in He. by rewrite He, IH. Qed.
Lemma lead_op_ids L : (lead L ≤ length (op_ids L))%nat.
Proof.
  induction L as [|e L IH]; [done|]. simpl. destruct (kind e) eqn:Ek; [|lia].
  rewrite op_ids_call by done. simpl. lia.
Qed.

(** ** Counting *)

Lemma balanced_cons_call e L : balanced (e :: L) → is_call e.
Proof.
  intros Hb. destruct (Hb (id e)) as [E|(c & r & E & Hc & _)];
    rewrite of_id_cons, decide_True in E by done; simplify_eq/=; done.
Qed.

Lemma balanced_length L : balanced L → length L = (2 * length (op_ids L))%nat.
Proof.
  remember (length L) as m eqn:Em. revert L Em.
  induction m as [m IH] using lt_wf_ind. intros L -> Hb.
  destruct L as [|c L]; [done|]. pose proof (balanced_cons_call _ _ Hb) as Hc.
  destruct (balanced_split [] c L Hb Hc) as (B & r & C & -> & Hr & Hid & _ & EA & E1 & E2).
  assert (balanced (B ++ C)) as Hb'.
  { pose proof (balanced_drop_split [] c B r C Hid EA E1 E2) as Ed. simpl in Ed.
    rewrite <-Ed. by apply balanced_drop. }
  specialize (IH (length (B ++ C))). specialize (IH ltac:(simpl; rewrite !length_app; simpl; lia) _ eq_refl Hb').
  rewrite op_ids_call, op_ids_app, op_ids_return by done. rewrite op_ids_app in IH.
  simpl. rewrite !length_app in *. simpl. lia.
Qed.

(** Ids in range are exactly the numbers below the operation count. *)
Lemma op_ids_seqZ L :
  balanced L → (∀ e, e ∈ L → 0 ≤ id e < Z.of_nat (length L) / 2) →
  op_ids L ≡ₚ seqZ 0 (Z.of_nat (length L) / 2).
Proof.
  intros Hb Hr. pose proof (balanced_length L Hb) as Hl.
  assert (Z.of_nat (length L) / 2 = Z.of_nat (length (op_ids L))) as En.
  { rewrite Hl. rewrite Nat2Z.inj_mul, Z.mul_comm. by apply Z.div_mul. }
  rewrite En in *. apply submseteq_length_Permutation.
  - apply NoDup_submseteq; [by apply balanced_op_ids_NoDup|].
    intros i (c & Hc & _ & <-)%elem_of_op_ids. apply elem_of_seqZ. specialize (Hr _ Hc). lia.
  - rewrite length_seqZ. lia.
Qed.
End history.
