(* ===== verification/Search.v ===== *)
(** porcupine/checker.go, [checkSingle]: the search for a linearization of one
    partition, with its cache of visited configurations, its undo stack and
    its record of partial linearizations. *)
From Stdlib Require Import ZArith Lia.
From stdpp Require Import base gmap list.
From S2P Require Import Prelude Bitset Model Entries Nodes.

Section search.
Context {Val State : Type}.
Implicit Types (M : Model Val State).

Record cacheEntry := mkCacheEntry { ce_linearized : bitset; ce_state : State }.
Abbreviation cacheMap := (gmap Z (list cacheEntry)).

(** [model.Equal(s, t)]: a nil function field panics. *)
Definition call_Equal M (s t : State) : result bool := eq ← nonnil (Equal M); Ret (eq s t).

Fixpoint cache_scan M (elems : list cacheEntry) (entry : cacheEntry) : result bool :=
  match elems with
  | [] => Ret false
  | elem :: elems =>
      b ← (if equals (ce_linearized entry) (ce_linearized elem)
           then call_Equal M (ce_state entry) (ce_state elem) else Ret false);
      if (b : bool) then Ret true else cache_scan M elems entry
  end.

Definition cacheContains M (cache : cacheMap) (entry : cacheEntry) : result bool :=
  cache_scan M (default [] (cache !! hash (ce_linearized entry))) entry.

Record callsEntry := mkCallsEntry { c_entry : option addr; c_state : State }.

(** The local variables of [checkSingle]. [longest] holds pointers into
    [seqs], the store of the [seq] variables whose address was taken. *)
Record locals := mkLocals {
  l_heap : heap Val;
  l_entry : option addr;
  l_state : State;
  l_linearized : bitset;
  l_cache : cacheMap;
  l_calls : list callsEntry;
  l_longest : list (option nat);
  l_seqs : list (list Z)
}.

(** [for i, v := range calls { seq[i] = v.entry.id }] *)
Definition call_ids (h : heap Val) (calls : list callsEntry) : result (list Z) :=
  foldM (λ seq v, e ← load h (c_entry v); Ret (seq ++ [n_id e])) [] calls.

(** One iteration of the loop that updates [longest]; [seq] is the address
    of the lazily filled local, [None] while it is nil. *)
Definition record_call (h : heap Val) (calls : list callsEntry)
    (acc : list (option nat) * list (list Z) * option nat) (v : callsEntry)
    : result (list (option nat) * list (list Z) * option nat) :=
  let '(longest, seqs, seq) := acc in
  e ← load h (c_entry v);
  cur ← longest.[n_id e];
  better ← match cur with
           | None => Ret true
           | Some p => old ← nonnil (seqs !! p);
                       Ret (bool_decide (List.length old < List.length calls)%nat)
           end;
  if (better : bool) then
    '(seqs, p) ← match seq with
                 | None => ids ← call_ids h calls; Ret (seqs ++ [ids], List.length seqs)
                 | Some p => Ret (seqs, p)
                 end;
    longest ← longest.[n_id e <- Some p];
    Ret (longest, seqs, Some p)
  else Ret (longest, seqs, seq).

Definition record_longest (h : heap Val) (calls : list callsEntry)
    (longest : list (option nat)) (seqs : list (list Z))
    : result (list (option nat) * list (list Z)) :=
  '(longest, seqs, _) ← foldM (record_call h calls) (longest, seqs, None) calls;
  Ret (longest, seqs).

(** The call branch of the loop body ([entry.match != nil]). *)
Definition try_call M (headEntry : option addr) (st : locals) (e : node Val) : result locals :=
  let skip := mkLocals (l_heap st) (n_next e) (l_state st) (l_linearized st)
                (l_cache st) (l_calls st) (l_longest st) (l_seqs st) in
  matching ← load (l_heap st) (n_match e);
  '(ok, newState) ← Step M (l_state st) (n_value e) (n_value matching);
  if (ok : bool) then
    newLinearized ← set (clone (l_linearized st)) (uint64 (n_id e));
    let newCacheEntry := mkCacheEntry newLinearized newState in
    hit ← cacheContains M (l_cache st) newCacheEntry;
    if negb hit then
      let hsh := hash newLinearized in
      let cache := <[hsh := default [] (l_cache st !! hsh) ++ [newCacheEntry]]> (l_cache st) in
      let calls := l_calls st ++ [mkCallsEntry (l_entry st) (l_state st)] in
      linearized ← set (l_linearized st) (uint64 (n_id e));
      h ← lift (l_heap st) (l_entry st);
      hd ← load h headEntry;
      Ret (mkLocals h (n_next hd) newState linearized cache calls (l_longest st) (l_seqs st))
    else Ret skip
  else Ret skip.

(** The return branch: undo the last call, or give up ([inr]). *)
Definition backtrack (computePartial : bool) (st : locals) : result (locals + locals) :=
  if decide (List.length (l_calls st) = 0%nat) then Ret (inr st) else
  '(longest, seqs) ←
    (if computePartial
     then record_longest (l_heap st) (l_calls st) (l_longest st) (l_seqs st)
     else Ret (l_longest st, l_seqs st));
  callsTop ← (l_calls st).[Z.of_nat (List.length (l_calls st)) - 1];
  let entry := c_entry callsTop in
  e ← load (l_heap st) entry;
  linearized ← clear (l_linearized st) (uint64 (n_id e));
  let calls := take (List.length (l_calls st) - 1) (l_calls st) in
  h ← unlift (l_heap st) entry;
  e ← load h entry;
  Ret (inl (mkLocals h (n_next e) (c_state callsTop) linearized (l_cache st) calls longest seqs)).

Definition iterate M (headEntry : option addr) (computePartial : bool) (st : locals)
    : result (locals + locals) :=
  e ← load (l_heap st) (l_entry st);
  match n_match e with
  | Some _ => st ← try_call M headEntry st e; Ret (inl st)
  | None => backtrack computePartial st
  end.

(** After the loop: the calls are the complete linearization. *)
Definition finish (n : Z) (st : locals) : result (list (option nat) * list (list Z)) :=
  seq ← call_ids (l_heap st) (l_calls st);
  Ret (replicate (Z.to_nat n) (Some (List.length (l_seqs st))), l_seqs st ++ [seq]).

(** [kill it] is what the atomic load of [*kill] reads at iteration [it]. *)
Fixpoint search_loop (fuel : nat) M (n : Z) (headEntry : option addr) (computePartial : bool)
    (kill : nat → Z) (it : nat) (st : locals)
    : result (bool * (list (option nat) * list (list Z))) :=
  match fuel with
  | O => OutOfFuel
  | S fuel =>
      hd ← load (l_heap st) headEntry;
      match n_next hd with
      | None => out ← finish n st; Ret (true, out)
      | Some _ =>
          if decide (kill it ≠ 0) then Ret (false, (l_longest st, l_seqs st)) else
          next ← iterate M headEntry computePartial st;
          match next with
          | inl st => search_loop fuel M n headEntry computePartial kill (S it) st
          | inr st => Ret (false, (l_longest st, l_seqs st))
          end
      end
  end.

(** [nilV] is Go's nil interface value, the head node's [value]. *)
Definition checkSingle (fuel : nat) (nilV : Val) M (history : list (entry Val))
    (computePartial : bool) (kill : nat → Z)
    : result (bool * (list (option nat) * list (list Z))) :=
  '(h, entry) ← makeLinkedEntries [] history;
  len ← length h entry;
  let n := Z.quot len 2 in
  let linearized := newBitset (uint64 n) in
  let longest := replicate (Z.to_nat n) None in
  let state := Init M in
  let '(h, hd) := new_node h (mkNode nilV None (-1) None None) in
  '(h, headEntry) ← insertBefore h (Some hd) entry;
  search_loop fuel M n headEntry computePartial kill 0
    (mkLocals h entry state linearized ∅ [] longest []).
End search.
Arguments cacheEntry : clear implicits.
Arguments callsEntry : clear implicits.
Arguments locals : clear implicits.
