(* ===== verification/SearchProof.v ===== *)
(** Correctness of [checkSingle]: the search terminates, never panics on a
    well-formed history, and decides linearizability. *)
From Stdlib Require Import ZArith Lia.
From stdpp Require Import base gmap sets list.
From S2P Require Import Prelude Bitset Model Entries Nodes History Search.

(** ** The entries left to linearize *)

Section remaining.
Context {Val : Type} (es : list (entry Val)).
Implicit Types (X : gset Z) (A B C R : list (addr * entry Val)).

Definition remc X : list (addr * entry Val) := filter (λ c, id c.2 ∉ X) (cells es).

Lemma remc_snd X : (remc X).*2 = filter (λ e, id e ∉ X) es.
Proof. unfold remc. by rewrite (filter_snd (λ e, id e ∉ X)), cells_snd. Qed.

Lemma remc_empty : remc ∅ = cells es.
Proof. apply filter_all. set_solver. Qed.

Lemma remc_union i X : remc ({[i]} ∪ X) = filter (λ c, id c.2 ≠ i) (remc X).
Proof. unfold remc. rewrite list_filter_filter. apply list_filter_iff. set_solver. Qed.

Lemma remc_drop i X : (remc ({[i]} ∪ X)).*2 = drop_id i (remc X).*2.
Proof.
  rewrite !remc_snd. unfold drop_id. rewrite list_filter_filter.
  apply list_filter_iff. set_solver.
Qed.

Lemma remc_elem X c : c ∈ remc X ↔ (id c.2 ∉ X) ∧ c ∈ cells es.
Proof. unfold remc. by rewrite list_elem_of_filter. Qed.

Lemma remc_NoDup X : NoDup (List.length es :: (remc X).*1).
Proof.
  apply NoDup_cons. split.
  - intros (c & E & Hc)%list_elem_of_fmap. apply remc_elem in Hc as [_ Hc].
    apply (list_elem_of_fmap_2 fst) in Hc. rewrite <-E in Hc. apply cells_addr in Hc. lia.
  - eapply sublist_NoDup; [apply (cells_NoDup es)|]. apply fmap_sublist, sublist_filter.
Qed.

Hypothesis Hbal : balanced es.

Lemma remc_balanced X : balanced (remc X).*2.
Proof.
  intros i. rewrite remc_snd.
  destruct (decide (i ∈ X)) as [Hi|Hi].
  - left. apply filter_nil_iff. intros e He <-.
    by apply list_elem_of_filter in He as [? _].
  - replace (of_id i (filter (λ e, id e ∉ X) es)) with (of_id i es); [apply Hbal|].
    unfold of_id. rewrite list_filter_filter. apply list_filter_iff. naive_solver.
Qed.

(** A remaining call, its return, and what is left without them. *)
Lemma remc_split X A a c R :
  remc X = A ++ (a, c) :: R → is_call c →
  ∃ B b r C, R = B ++ (b, r) :: C ∧ is_return r ∧ id r = id c ∧
    remc ({[id c]} ∪ X) = A ++ B ++ C.
Proof.
  intros E Hc. pose proof (remc_balanced X) as Hb. rewrite E in Hb.
  rewrite fmap_app, fmap_cons in Hb. simpl in Hb.
  destruct (balanced_split _ _ _ Hb Hc) as (B1 & r & B2 & ER & Hr & Hid & _ & EA & E1 & E2).
  apply fmap_app_inv in ER as (B & RC & -> & ER & ->).
  destruct RC as [|[b r'] C]; csimpl; [done|]. simpl in ER. injection ER as <- ->.
  exists B, b, r, C. split_and!; [done..|].
  assert (∀ l : list (addr * entry Val), of_id (id c) l.*2 = [] → filter (λ p, id p.2 ≠ id c) l = l) as Hkeep.
  { intros l El. apply filter_all. intros p Hp Hpid.
    eapply filter_nil_iff in El; [|by apply list_elem_of_fmap_2]. done. }
  rewrite remc_union, E, filter_app, filter_cons_False by (simpl; naive_solver).
  rewrite filter_app, filter_cons_False by (simpl; naive_solver). by rewrite !Hkeep.
Qed.

(** Two return cells of the same operation are the same cell. *)
Lemma ret_cell_unique b r b' r' :
  (b, r) ∈ cells es → (b', r') ∈ cells es → is_return r → is_return r' → id r = id r' →
  b = b' ∧ r = r'.
Proof.
  intros H1 H2 Hr Hr' Hid.
  set (F := filter (λ p, id p.2 = id r) (cells es)).
  assert (F.*2 = of_id (id r) es) as EF.
  { unfold F, of_id. by rewrite (filter_snd (λ e, id e = id r)), cells_snd. }
  assert ((b, r) ∈ F) as I1 by (by apply list_elem_of_filter).
  assert ((b', r') ∈ F) as I2 by (by apply list_elem_of_filter).
  destruct (Hbal (id r)) as [E|(c & r0 & E & Hc & _)]; rewrite E in EF.
  - apply fmap_nil_inv in EF. rewrite EF in I1. by apply not_elem_of_nil in I1.
  - destruct F as [|[a1 e1] [|[a2 e2] [|]]]; simplify_eq/=. unfold is_call, is_return in *.
    apply elem_of_cons in I1 as [[= -> ->]|I1]; [congruence|].
    apply elem_of_cons in I2 as [[= -> ->]|I2]; [congruence|].
    apply list_elem_of_singleton in I1 as [= -> ->].
    by apply list_elem_of_singleton in I2 as [= -> ->].
Qed.

(** ** What the store says about the entries *)

Definition nodes_ok (h : heap Val) : Prop :=
  ∀ a e, (a, e) ∈ cells es → ∃ x, h !! a = Some x ∧ n_value x = value e ∧ n_id x = id e ∧
    match kind e with
    | callEntry => ∃ b r, n_match x = Some b ∧ (b, r) ∈ cells es ∧ is_return r ∧ id r = id e
    | returnEntry => n_match x = None
    end.

Lemma nodes_ok_static h h' :
  (∀ a, (static <$> h' !! a) = (static <$> h !! a)) → nodes_ok h → nodes_ok h'.
Proof.
  intros Hs Hn a e Hin. destruct (Hn a e Hin) as (x & Ex & Hv & Hi & Hm).
  specialize (Hs a). rewrite Ex in Hs. destruct (h' !! a) as [y|]; [|done].
  simpl in Hs. unfold static in Hs. injection Hs as Ev Em Ei.
  exists y. rewrite Ev, Em, Ei. done.
Qed.

Lemma static_ok_elem h cs a e :
  static_ok h cs → (a, e) ∈ cs →
  ∃ A B, cs = A ++ (a, e) :: B ∧ (static <$> h !! a) = Some (value e, match_of e B, id e).
Proof.
  induction cs as [|[a' e'] cs IH]; [by intros _ ?%not_elem_of_nil|].
  intros [E Hs] [[= -> ->]|Hin]%elem_of_cons.
  - by exists [], cs.
  - destruct (IH Hs Hin) as (A & B & -> & ?). by exists ((a', e') :: A), B.
Qed.

Lemma nodes_ok_init h : static_ok h (cells es) → nodes_ok h.
Proof.
  intros Hs a e Hin. destruct (static_ok_elem _ _ _ _ Hs Hin) as (A & B & E & Est).
  destruct (h !! a) as [x|] eqn:Ex; [|done]. injection Est as Ev Em Ei.
  exists x. split_and!; [done..|]. rewrite Em. unfold match_of.
  destruct (kind e) eqn:Ek; [|done].
  rewrite <-remc_empty in E. destruct (remc_split _ _ _ _ _ E Ek) as (B1 & b & r & C & -> & Hr & Hid & _).
  unfold find_ret. destruct (filter (is_return_of (id e)) (B1 ++ (b, r) :: C)) as [|[b' r'] F] eqn:EF.
  - eapply filter_nil_iff with (x := (b, r)) in EF; [|set_solver]. by destruct EF.
  - assert ((b', r') ∈ filter (is_return_of (id e)) (B1 ++ (b, r) :: C)) as Hin'.
    { rewrite EF. left. }
    apply list_elem_of_filter in Hin' as [[Hk Hi] Hin'].
    exists b', r'. split_and!; [done| |done..]. rewrite remc_empty in E. rewrite E. set_solver.
Qed.
End remaining.

(** ** The search path and the loop invariant *)

Section correctness.
Context {Val State : Type} (M : Model Val State) (eqf : State → State → bool).
Context (es : list (entry Val)).
Abbreviation n := (Z.of_nat (List.length es) / 2).
Abbreviation hd := (List.length es).
Implicit Types (X : gset Z) (A R : list (addr * entry Val)) (s t : State) (h : heap Val) (π : list Z).

Hypothesis Heq : Equal M = Some eqf.
Context `{!EqualCompat M eqf}.
Hypothesis Hbal : balanced es.
Hypothesis Hids : ∀ e, e ∈ es → 0 ≤ id e < n.
Hypothesis Hfit : Z.of_nat (List.length es) < 2 ^ 64.
(** The model's [Step] returns on the operations of the history. *)
Hypothesis Hstep : ∀ c r s, of_id (id c) es = [c; r] →
  ∃ b s', Step M s (value c) (value r) = Ret (b, s').

(** Dead configurations: the remaining operations cannot be linearized. *)
Definition dead X s : Prop := ¬ completable M (remc es X).*2 s.

(** Linearizing [c] next leads from [s] to [s']. *)
Definition succ X s (c : entry Val) s' : Prop :=
  pick M (remc es X).*2 s (id c) (remc es ({[id c]} ∪ X)).*2 s'.

(** Every candidate among [A] leads to a dead configuration. *)
Definition scanned X s A : Prop :=
  ∀ a c s', (a, c) ∈ A → succ X s c s' → dead ({[id c]} ∪ X) s'.

Abbreviation calls_only A := (Forall is_call A.*2).

(** Bound on the iterations that a configuration with [m] operations left
    can cause. *)
Fixpoint W (m : nat) : nat := match m with O => 1 | S m => S m * S (W m) + 1 end.
Definition nops X : nat := List.length (op_ids (remc es X).*2).
Definition cost X R : nat := lead R.*2 * S (W (nops X - 1)) + 1.

(** [path h calls X s π cfgs k]: the calls on the undo stack lead from the
    initial configuration to [(X, s)], the store being [h]; [π] lists their
    ids, [cfgs] the configurations after each of them, and [k] bounds the
    iterations left once they are undone. *)
Inductive path (h0 : heap Val) : heap Val → list (callsEntry State) → gset Z → State →
    list Z → list (gset Z * State) → nat → Prop :=
  | path_nil : path h0 h0 [] ∅ (Init M) [] [] 0
  | path_snoc h calls X s π cfgs k A a c R h' s' :
      path h0 h calls X s π cfgs k →
      remc es X = A ++ (a, c) :: R → calls_only A → is_call c → scanned X s A →
      succ X s c s' → lift h (Some a) = Ret h' → unlift h' (Some a) = Ret h →
      path h0 h' (calls ++ [mkCallsEntry (Some a) s]) ({[id c]} ∪ X) s' (π ++ [id c])
        (cfgs ++ [({[id c]} ∪ X, s')]) (k + cost X R).

Definition heap_ok h X : Prop := seg h hd (remc es X).*1 None ∧ nodes_ok es h.

Lemma succ_fun X s c s1 s2 : succ X s c s1 → succ X s c s2 → s1 = s2.
Proof.
  intros H1 H2. pose proof (remc_balanced es Hbal X) as Hb.
  destruct (pick_inv _ _ _ _ _ _ H1 Hb) as (A1 & c1 & B1 & r1 & C1 & _ & _ & _ & _ & _ & _ & S1 & _ & I1 & _).
  destruct (pick_inv _ _ _ _ _ _ H2 Hb) as (A2 & c2 & B2 & r2 & C2 & _ & _ & _ & _ & _ & _ & S2 & _ & I2 & _).
  rewrite I1 in I2. congruence.
Qed.

Lemma remc_of_id X c r : c ∈ (remc es X).*2 → of_id (id c) (remc es X).*2 = [c; r] →
  of_id (id c) es = [c; r].
Proof.
  rewrite remc_snd. intros [Hc _]%list_elem_of_filter <-.
  unfold of_id. rewrite list_filter_filter. apply list_filter_iff. intros x. split; [by intros ->|by intros []].
Qed.

(** A candidate: its return, and the steps it offers. *)
Lemma candidate X A a c R :
  remc es X = A ++ (a, c) :: R → calls_only A → is_call c →
  ∃ B b r C, R = B ++ (b, r) :: C ∧ is_return r ∧ id r = id c ∧
    remc es ({[id c]} ∪ X) = A ++ B ++ C ∧ of_id (id c) es = [c; r] ∧
    ∀ s s', succ X s c s' ↔ Step M s (value c) (value r) = Ret (true, s').
Proof.
  intros E HA Hc. destruct (remc_split es Hbal X A a c R E Hc) as (B & b & r & C & -> & Hr & Hid & E').
  exists B, b, r, C. pose proof (remc_balanced es Hbal X) as Hb. rewrite E in Hb.
  rewrite fmap_app, fmap_cons, fmap_app, fmap_cons in Hb. simpl in Hb.
  destruct (balanced_pair _ _ _ _ _ Hb Hid) as (EA & EB & EC).
  assert (of_id (id c) (remc es X).*2 = [c; r]) as Eio.
  { rewrite E, fmap_app, fmap_cons, fmap_app, fmap_cons. simpl.
    rewrite of_id_app, of_id_cons, decide_True, of_id_app, of_id_cons, decide_True by done.
    by rewrite EA, EB, EC. }
  split_and!; [done..| |].
  - apply (remc_of_id X); [|done]. rewrite E, fmap_app. apply elem_of_app. right. left.
  - intros s s'. unfold succ. split.
    + intros H. destruct (pick_inv _ _ _ _ _ _ H (remc_balanced es Hbal X))
        as (A1 & c1 & B1 & r1 & C1 & _ & _ & _ & _ & _ & _ & S1 & _ & I1 & _).
      rewrite Eio in I1. by injection I1 as <- <-.
    + intros H. rewrite E', E. rewrite !fmap_app, !fmap_cons, !fmap_app, fmap_cons. by constructor.
Qed.

(** Once every call before the first return is scanned, nothing is left. *)
Lemma call_before_return (L L' : list (entry Val)) r K c K' :
  L ++ r :: K = L' ++ c :: K' → is_return r → is_call c → Forall is_call L' → c ∈ L.
Proof.
  unfold is_call, is_return. intros E Hr Hc. revert L E.
  induction L' as [|x L' IH]; intros [|y L] E HL'; injection E as E1 E; subst.
  - congruence.
  - left.
  - inversion HL'; congruence.
  - right. inversion HL'. eauto.
Qed.

Lemma scanned_dead X s A b r R :
  remc es X = A ++ (b, r) :: R → is_return r → scanned X s A → dead X s.
Proof.
  intros E Hr Hsc ([|i π'] & s' & Hrun).
  - apply runs_nil_inv in Hrun as [EL _]. rewrite E, fmap_app in EL. by destruct (A.*2).
  - apply runs_cons_inv in Hrun as (L1 & s1 & Hp & Hr'). destruct (pick_inv _ _ _ _ _ _ Hp (remc_balanced es Hbal X))
      as (A' & c & B' & r' & C' & EL & <- & Hc & _ & _ & HA' & Hst & -> & _).
    rewrite <-remc_drop in Hp, Hr'.
    assert (c ∈ A.*2) as Hin.
    { rewrite E, fmap_app in EL. by eapply (call_before_return _ _ r). }
    apply list_elem_of_fmap in Hin as ([a c'] & -> & Hin). simpl in *.
    eapply (Hsc _ _ _ Hin Hp). by exists π', s'.
Qed.

(** ** Facts about paths *)

Lemma path_inv h0 h' calls X' s' π' cfgs' k' :
  path h0 h' calls X' s' π' cfgs' k' →
  (calls = [] ∧ X' = ∅ ∧ s' = Init M) ∨
  ∃ h calls0 X s π cfgs k A a c R,
    calls = calls0 ++ [mkCallsEntry (Some a) s] ∧ X' = {[id c]} ∪ X ∧ π' = π ++ [id c] ∧
    cfgs' = cfgs ++ [({[id c]} ∪ X, s')] ∧ k' = (k + cost X R)%nat ∧
    path h0 h calls0 X s π cfgs k ∧ remc es X = A ++ (a, c) :: R ∧ calls_only A ∧ is_call c ∧
    scanned X s A ∧ succ X s c s' ∧ unlift h' (Some a) = Ret h.
Proof. destruct 1; [by left|]. right. eauto 25. Qed.

Lemma heap_ok_lift h X A a c R :
  heap_ok h X → remc es X = A ++ (a, c) :: R → is_call c →
  ∃ h', lift h (Some a) = Ret h' ∧ unlift h' (Some a) = Ret h ∧ heap_ok h' ({[id c]} ∪ X).
Proof.
  intros [Hs Hn] E Hc. destruct (remc_split es Hbal X A a c R E Hc) as (B & b & r & C & -> & Hr & Hid & E').
  assert ((a, c) ∈ cells es) as Hac by (apply (remc_elem es X); rewrite E; set_solver).
  assert ((b, r) ∈ cells es) as Hbr by (apply (remc_elem es X); rewrite E; set_solver).
  destruct (Hn a c Hac) as (x & Ex & _ & _ & Hm). unfold is_call in Hc. rewrite Hc in Hm.
  destruct Hm as (b' & r' & Hm & Hb' & Hr' & Hid').
  destruct (ret_cell_unique es Hbal b' r' b r) as [-> ->]; [done..|congruence|].
  pose proof (remc_NoDup es X) as Hnd. rewrite E in Hs, Hnd.
  rewrite fmap_app, fmap_cons, fmap_app, fmap_cons in Hs, Hnd. simpl in Hs, Hnd.
  destruct (lift_unlift h hd A.*1 a B.*1 b C.*1 Hs Hnd) as (h' & El & Hs' & Hst & Eu).
  { by rewrite Ex; simpl; rewrite Hm. }
  exists h'. split_and!; [done..|]. split.
  - by rewrite E', !fmap_app.
  - by eapply nodes_ok_static.
Qed.

Lemma path_heap_ok h0 h calls X s π cfgs k :
  heap_ok h0 ∅ → path h0 h calls X s π cfgs k → heap_ok h X.
Proof.
  intros H0. induction 1 as [|h calls X s π cfgs k A a c R h' s' _ IH E HA Hc _ _ El _]; [done|].
  destruct (heap_ok_lift _ _ _ _ _ _ IH E Hc) as (h2 & El2 & _ & Hok). congruence.
Qed.

Lemma path_runs h0 h calls X s π cfgs k :
  path h0 h calls X s π cfgs k → runs M es (Init M) π (remc es X).*2 s.
Proof.
  induction 1 as [|h calls X s π cfgs k A a c R h' s' _ IH E HA Hc _ Hs _ _].
  - rewrite remc_empty, cells_snd. constructor.
  - by eapply runs_snoc.
Qed.

Lemma path_cfgs h0 h calls X s π cfgs k X' s' :
  path h0 h calls X s π cfgs k → (X', s') ∈ cfgs → X' ⊆ X.
Proof.
  induction 1 as [|h calls X s π cfgs k A a c R h' s1 _ IH E HA Hc _ Hs _ _].
  - by intros ?%not_elem_of_nil.
  - intros [Hin|Hin]%elem_of_app; [|apply list_elem_of_singleton in Hin; set_solver].
    specialize (IH Hin). set_solver.
Qed.

Lemma path_set h0 h calls X s π cfgs k :
  path h0 h calls X s π cfgs k → X = list_to_set π ∧ NoDup π ∧
    (∀ i, i ∈ π → 0 ≤ i < n) ∧ List.length calls = List.length π.
Proof.
  induction 1 as [|h calls X s π cfgs k A a c R h' s1 _ (-> & Hnd & Hr & Hl) E HA Hc _ Hs _ _].
  - split_and!; [done|constructor|by intros i ?%not_elem_of_nil|done].
  - assert ((a, c) ∈ remc es (list_to_set π)) as Hin by (rewrite E; set_solver).
    apply remc_elem in Hin as [Hni Hin]. simpl in Hni. rewrite elem_of_list_to_set in Hni.
    split_and!.
    + rewrite list_to_set_app_L. simpl. set_solver.
    + apply NoDup_app. split_and!; [done| |apply NoDup_singleton].
      intros i Hi ->%list_elem_of_singleton. done.
    + intros i [Hi| ->%list_elem_of_singleton]%elem_of_app; [auto|].
      apply Hids. rewrite <-(cells_snd es). by apply (list_elem_of_fmap_2 snd) in Hin.
    + rewrite !length_app, Hl. done.
Qed.

(** Every call on the stack is a node whose id is the one recorded. *)
Lemma path_entries h0 h calls X s π cfgs k :
  path h0 h calls X s π cfgs k →
  Forall2 (λ v i, ∃ a c, c_entry v = Some a ∧ (a, c) ∈ cells es ∧ id c = i) calls π.
Proof.
  induction 1 as [|h calls X s π cfgs k A a c R h' s1 _ IH E HA Hc _ Hs _ _]; [constructor|].
  apply Forall2_app; [done|]. constructor; [|constructor]. exists a, c. split_and!; [done| |done].
  apply (remc_elem es X). rewrite E. set_solver.
Qed.

Lemma call_ids_spec h (calls : list (callsEntry State)) π :
  nodes_ok es h →
  Forall2 (λ v i, ∃ a c, c_entry v = Some a ∧ (a, c) ∈ cells es ∧ id c = i) calls π →
  call_ids h calls = Ret π.
Proof.
  intros Hn H. unfold call_ids.
  assert (∀ l, foldM (λ seq v, e ← load h (c_entry v); Ret (seq ++ [n_id e])) l calls
    = Ret (l ++ π)) as Hall; [|apply (Hall [])].
  induction H as [|v i calls π (a & c & Ev & Hin & <-) _ IH]; intros l; simpl.
  - by rewrite app_nil_r.
  - destruct (Hn a c Hin) as (x & Ex & _ & Hi & _). rewrite Ev, (load_ret _ _ _ Ex). simpl.
    rewrite IH, Hi. by rewrite <-(assoc_L (++)).
Qed.

(** ** The cache *)

Definition cache_ok (cache : gmap Z (list (cacheEntry State))) (cfgs : list (gset Z * State)) : Prop :=
  ∀ k ces ce, cache !! k = Some ces → ce ∈ ces →
    ∃ X, rep n (ce_linearized ce) X ∧ ((X, ce_state ce) ∈ cfgs ∨ dead X (ce_state ce)).

Lemma cacheContains_spec cache (ce : cacheEntry State) :
  ∃ b, cacheContains M cache ce = Ret b ∧
    (b = true → ∃ k ces ce', cache !! k = Some ces ∧ ce' ∈ ces ∧
      ce_linearized ce = ce_linearized ce' ∧ eqf (ce_state ce) (ce_state ce') = true).
Proof.
  unfold cacheContains.
  assert (∀ ces, ∃ b, cache_scan M ces ce = Ret b ∧ (b = true → ∃ ce', ce' ∈ ces ∧
      ce_linearized ce = ce_linearized ce' ∧ eqf (ce_state ce) (ce_state ce') = true)) as Hscan.
  { induction ces as [|ce' ces (b & E & Hb)]; simpl; [exists false; by split|].
    destruct (equals _ _) eqn:El; simpl; unfold call_Equal; rewrite ?Heq; simpl;
      [destruct (eqf _ _) eqn:Ee; simpl|].
    - apply equals_spec in El. exists true. split; [done|]. intros _. exists ce'. split; [left|done].
    - exists b. split; [done|]. intros Ht. destruct (Hb Ht) as (x & ? & ?). exists x. split; [by right|done].
    - exists b. split; [done|]. intros Ht. destruct (Hb Ht) as (x & ? & ?). exists x. split; [by right|done]. }
  destruct (cache !! hash _) as [ces|] eqn:E; simpl.
  - destruct (Hscan ces) as (b & -> & Hb). exists b. split; [done|]. intros Ht.
    destruct (Hb Ht) as (ce' & ? & ? & ?). eauto 10.
  - exists false. by split.
Qed.

Lemma cache_ok_insert cache cfgs k ce X s :
  cache_ok cache cfgs → rep n (ce_linearized ce) X → ce_state ce = s →
  cache_ok (<[k := default [] (cache !! k) ++ [ce]]> cache) (cfgs ++ [(X, s)]).
Proof.
  intros Hok Hr Hs k' ces ce' Hk Hin.
  assert (∀ k2 ces2, cache !! k2 = Some ces2 → ce' ∈ ces2 →
    ∃ X0, rep n (ce_linearized ce') X0 ∧
      ((X0, ce_state ce') ∈ cfgs ++ [(X, s)] ∨ dead X0 (ce_state ce'))) as Hold.
  { intros k2 ces2 Hk2 Hin2. destruct (Hok _ _ _ Hk2 Hin2) as (X0 & ? & [?|?]); exists X0;
      (split; [done|]); [left; by apply elem_of_app; left|by right]. }
  apply lookup_insert_Some in Hk as [[<- <-]|[_ Hk]]; [|by eapply Hold].
  apply elem_of_app in Hin as [Hin| ->%list_elem_of_singleton].
  - destruct (cache !! k) as [ces2|] eqn:E; simpl in Hin; [by eapply Hold|by apply not_elem_of_nil in Hin].
  - exists X. split; [done|]. left. apply elem_of_app. right. rewrite Hs. left.
Qed.

(** Leaving the last configuration of the path once it is dead. *)
Lemma cache_ok_pop cache cfgs X s :
  cache_ok cache (cfgs ++ [(X, s)]) → dead X s → cache_ok cache cfgs.
Proof.
  intros Hok Hd k ces ce Hk Hin. destruct (Hok _ _ _ Hk Hin) as (X0 & Hr & [Hc|Hc]); exists X0; [|by eauto].
  split; [done|]. apply elem_of_app in Hc as [Hc|Hc]; [by left|].
  apply list_elem_of_singleton in Hc as [= -> ->]. by right.
Qed.

(** ** Partial linearizations *)

Definition valid_partial (seq : list Z) : Prop := ∃ L s, runs M es (Init M) seq L s.

Definition partial_ok (longest : list (option nat)) (seqs : list (list Z)) : Prop :=
  List.length longest = Z.to_nat n ∧
  ∀ i p, longest !! i = Some (Some p) →
    ∃ seq, seqs !! p = Some seq ∧ Z.of_nat i ∈ seq ∧ valid_partial seq.

Lemma partial_ok_alloc longest seqs x : partial_ok longest seqs → partial_ok longest (seqs ++ [x]).
Proof.
  intros [Hl Hp]. split; [done|]. intros i p Hi. destruct (Hp i p Hi) as (seq & E & ?).
  exists seq. split; [|done]. by apply lookup_app_l_Some.
Qed.

Lemma partial_ok_set longest seqs i p seq :
  partial_ok longest seqs → seqs !! p = Some seq → 0 ≤ i → i ∈ seq → valid_partial seq →
  partial_ok (<[Z.to_nat i := Some p]> longest) seqs.
Proof.
  intros [Hl Hp] Hs Hi Hin Hv. split; [by rewrite length_insert|]. intros j q Hj.
  apply list_lookup_insert_Some in Hj as [(<- & [= <-] & _)|[_ Hj]]; [|by apply Hp].
  exists seq. rewrite Z2Nat.id by done. done.
Qed.

Lemma record_longest_spec h (calls : list (callsEntry State)) π longest seqs :
  nodes_ok es h →
  Forall2 (λ v i, ∃ a c, c_entry v = Some a ∧ (a, c) ∈ cells es ∧ id c = i) calls π →
  (∀ i, i ∈ π → 0 ≤ i < n) → valid_partial π → partial_ok longest seqs →
  ∃ longest' seqs', record_longest h calls longest seqs = Ret (longest', seqs') ∧
    partial_ok longest' seqs'.
Proof.
  intros Hn Hcalls Hrange Hv Hok. unfold record_longest.
  pose proof (call_ids_spec h calls π Hn Hcalls) as Hids'.
  destruct (foldM_inv (record_call h calls) (λ _ acc, let '(lg, sq, p) := acc in
    partial_ok lg sq ∧ (∀ q, p = Some q → sq !! q = Some π)) (longest, seqs, None) calls)
    as ([[lg sq] p] & E & Hok' & _); [done| |by exists lg, sq; rewrite E].
  intros l1 v l2 [[lg sq] p] Ecalls [Hlg Hp].
  pose proof Hcalls as H2. rewrite Ecalls in H2.
  apply Forall2_app_inv_l in H2 as (π1 & π2 & _ & H2 & Eπ).
  apply Forall2_cons_inv_l in H2 as (i & π3 & (a & c & Ev & Hin & Hid) & _ & ->).
  destruct (Hn a c Hin) as (x & Ex & _ & Hi & _).
  assert (i ∈ π) as Hiπ by (rewrite Eπ; set_solver). pose proof (Hrange i Hiπ) as Hri.
  unfold record_call. rewrite Ev, (load_ret _ _ _ Ex). simpl. rewrite Hi, Hid.
  pose proof Hlg as [Hlen Hptr].
  destruct (go_index_in_range lg i) as [cur Ecur]; [lia|]. rewrite Ecur. simpl.
  apply go_index_ret in Ecur as [_ Ecur].
  assert (∃ better, match cur with
    | None => Ret true
    | Some q => old ← nonnil (sq !! q); Ret (bool_decide (List.length old < List.length calls)%nat)
    end = Ret better) as [better ->].
  { destruct cur as [q|]; [|eauto]. destruct (Hptr _ _ Ecur) as (old & Eo & _). rewrite Eo. simpl. eauto. }
  simpl. destruct better; [|by exists (lg, sq, p)].
  destruct p as [q|]; simpl.
  - rewrite go_update_ret by lia. simpl. eexists; split; [done|]. split; [|done].
    eapply partial_ok_set; eauto. lia.
  - rewrite Hids'. simpl. rewrite go_update_ret by lia. simpl. eexists; split; [done|].
    assert ((sq ++ [π]) !! List.length sq = Some π) as Eq by (by apply list_lookup_middle).
    split; [|by intros q [= <-]]. eapply partial_ok_set; [by apply partial_ok_alloc|done|lia|done..].
Qed.

(** ** The loop invariant *)

(** The current configuration is [(X, l_state st)]; of the remaining entries
    [A] has been scanned and [R] starts at the current entry. *)
Record inv_at h0 (st : locals Val State) X π cfgs A R k : Prop := {
  inv_path : path h0 (l_heap st) (l_calls st) X (l_state st) π cfgs k;
  inv_rem : remc es X = A ++ R;
  inv_calls : calls_only A;
  inv_scanned : scanned X (l_state st) A;
  inv_entry : l_entry st = head R.*1;
  inv_lin : rep n (l_linearized st) X;
  inv_cache : cache_ok (l_cache st) cfgs;
  inv_partial : partial_ok (l_longest st) (l_seqs st)
}.

Definition inv h0 (st : locals Val State) (k : nat) : Prop :=
  ∃ X π cfgs A R kp, inv_at h0 st X π cfgs A R kp ∧ k = (kp + cost X R)%nat.

Lemma node_at h X A a c R :
  heap_ok h X → remc es X = A ++ (a, c) :: R →
  ∃ x, h !! a = Some x ∧ n_next x = head R.*1 ∧ n_value x = value c ∧ n_id x = id c ∧
    (is_return c → n_match x = None) ∧
    (is_call c → ∀ b r, (b, r) ∈ cells es → is_return r → id r = id c →
      n_match x = Some b ∧ ∃ y, h !! b = Some y ∧ n_value y = value r).
Proof.
  intros [Hs Hn] E. pose proof (remc_NoDup es X) as Hnd. rewrite E in Hs, Hnd.
  rewrite fmap_app, fmap_cons in Hs, Hnd. simpl in Hs, Hnd.
  destruct (seg_node _ _ _ _ _ Hs Hnd) as (x & Ex & _ & Hnx & _).
  assert ((a, c) ∈ cells es) as Hac by (apply (remc_elem es X); rewrite E; set_solver).
  destruct (Hn a c Hac) as (x' & Ex' & Hv & Hi & Hm). rewrite Ex in Ex'. injection Ex' as <-.
  exists x. unfold is_call, is_return. split_and!; [done..| |].
  - intros Hk. by rewrite Hk in Hm.
  - intros Hk b r Hbr Hr Hid. rewrite Hk in Hm. destruct Hm as (b' & r' & Hm & Hb' & Hr' & Hid').
    destruct (ret_cell_unique es Hbal b r b' r') as [-> ->]; [done..|congruence|].
    split; [done|]. destruct (Hn _ _ Hb') as (y & Ey & Hvy & _). eauto.
Qed.

Lemma id_in_range X a c : (a, c) ∈ remc es X → 0 ≤ id c < n.
Proof.
  intros [_ Hin]%remc_elem. apply Hids. rewrite <-(cells_snd es).
  by apply (list_elem_of_fmap_2 snd) in Hin.
Qed.

Lemma uint64_id i : 0 ≤ i < n → uint64 i = i.
Proof.
  intros Hi. apply uint64_small. split; [lia|].
  assert (n ≤ Z.of_nat (List.length es)) by (apply Z.div_le_upper_bound; lia). lia.
Qed.

Lemma cost_le_W X : (cost X (remc es X) ≤ W (nops X))%nat.
Proof.
  unfold cost, nops. pose proof (lead_op_ids (remc es X).*2) as Hl.
  destruct (List.length (op_ids (remc es X).*2)) as [|m].
  - assert (lead (remc es X).*2 = 0%nat) as -> by lia. simpl. lia.
  - replace (S m - 1)%nat with m by lia. change (W (S m)) with (S m * S (W m) + 1)%nat.
    by apply Nat.add_le_mono_r, Nat.mul_le_mono_r.
Qed.

Lemma cost_cons X a c R : is_call c → cost X ((a, c) :: R) = (cost X R + S (W (nops X - 1)))%nat.
Proof. unfold is_call, cost. intros Hc. csimpl. rewrite Hc. lia. Qed.

Lemma cost_return X a c R : is_return c → cost X ((a, c) :: R) = 1%nat.
Proof. unfold is_return, cost. intros Hc. csimpl. by rewrite Hc. Qed.

Lemma nops_succ X s c s' : succ X s c s' → nops X = S (nops ({[id c]} ∪ X)).
Proof.
  intros Hs. destruct (pick_inv _ _ _ _ _ _ Hs (remc_balanced es Hbal X))
    as (_ & _ & _ & _ & _ & _ & _ & _ & _ & _ & _ & _ & _ & _ & Hp & _).
  unfold nops. by rewrite Hp.
Qed.

(** Moving on to the next entry after a dead candidate. *)
Lemma inv_skip h0 st X π cfgs A a c R k x :
  inv_at h0 st X π cfgs A ((a, c) :: R) k → is_call c → l_heap st !! a = Some x →
  n_next x = head R.*1 →
  (∀ s', succ X (l_state st) c s' → dead ({[id c]} ∪ X) s') →
  inv_at h0 (mkLocals (l_heap st) (n_next x) (l_state st) (l_linearized st)
    (l_cache st) (l_calls st) (l_longest st) (l_seqs st)) X π cfgs (A ++ [(a, c)]) R k.
Proof.
  intros [Hp Hrem Hcalls Hsc He Hl Hc Hpa] Hcall Hx Hnx Hdead. split; simpl; try done.
  - rewrite Hrem. by rewrite <-(assoc_L (++)).
  - rewrite fmap_app, Forall_app. split; [done|]. by constructor.
  - intros a' c' s' [Hin|Hin]%elem_of_app; [by eapply Hsc|].
    apply list_elem_of_singleton in Hin as [= -> ->]. apply Hdead.
Qed.

Lemma rep_set_id b X (c : entry Val) : rep n b X → 0 ≤ id c < n →
  ∃ b', set b (uint64 (id c)) = Ret b' ∧ rep n b' ({[id c]} ∪ X).
Proof. intros Hr Hi. rewrite uint64_id by done. by apply set_rep. Qed.

(** A configuration in the cache is dead, or on the path, where its set of
    operations would be smaller: only the former is a hit. *)
Lemma cached_dead h0 st X π cfgs A a c R k lin s' :
  inv_at h0 st X π cfgs A ((a, c) :: R) k → rep n lin ({[id c]} ∪ X) → succ X (l_state st) c s' →
  (∃ kk ces ce, l_cache st !! kk = Some ces ∧ ce ∈ ces ∧ lin = ce_linearized ce ∧ eqf s' (ce_state ce) = true) →
  ∀ s2, succ X (l_state st) c s2 → dead ({[id c]} ∪ X) s2.
Proof.
  intros [Hp Hrem _ _ _ _ Hc _] Hlin Hs (kk & ces & ce & Hck & Hin & Elin & Eeq) s2 H2. rewrite (succ_fun _ _ _ _ _ H2 Hs).
  destruct (Hc _ _ _ Hck Hin) as (X2 & Hr2 & Hd). rewrite <-Elin in Hr2. rewrite (rep_fun _ _ _ _ Hlin Hr2) in *.
  destruct Hd as [Hd|Hd].
  - exfalso. pose proof (path_cfgs _ _ _ _ _ _ _ _ _ _ Hp Hd) as Hsub.
    assert ((a, c) ∈ remc es X) as [Hni _]%remc_elem by (rewrite Hrem; set_solver).
    apply Hni. simpl. apply Hsub. rewrite <-(rep_fun _ _ _ _ Hlin Hr2). set_solver.
  - intros Hcomp. apply Hd. by eapply (completable_equal M eqf).
Qed.

(** A call that is linearized: the search goes on from the start of what is
    left, one operation further along the path. *)
Lemma inv_extend h0 st X π cfgs A a c R k h' next lin s' hsh : heap_ok h0 ∅ →
  inv_at h0 st X π cfgs A ((a, c) :: R) k → is_call c → succ X (l_state st) c s' → rep n lin ({[id c]} ∪ X) →
  lift (l_heap st) (Some a) = Ret h' → unlift h' (Some a) = Ret (l_heap st) → next = head (remc es ({[id c]} ∪ X)).*1 →
  ∃ k', inv h0 (mkLocals h' next s' lin (<[hsh := default [] (l_cache st !! hsh) ++ [mkCacheEntry lin s']]> (l_cache st))
      (l_calls st ++ [mkCallsEntry (Some a) (l_state st)]) (l_longest st) (l_seqs st)) k' ∧
    (k' < k + cost X ((a, c) :: R))%nat.
Proof.
  intros H0 [Hp Hrem Hcalls Hsc He Hl Hc Hpa] Hcall Hs Hlin El Eu Hnext.
  exists ((k + cost X R) + cost ({[id c]} ∪ X) (remc es ({[id c]} ∪ X)))%nat. split.
  - eexists ({[id c]} ∪ X), _, _, [], _, _. split; [|done]. split; simpl; try done.
    + eapply path_snoc; done.
    + by intros ? ? ? ?%not_elem_of_nil.
    + by apply cache_ok_insert.
  - pose proof (cost_le_W ({[id c]} ∪ X)). rewrite cost_cons by done.
    rewrite (nops_succ _ _ _ _ Hs). simpl. rewrite Nat.sub_0_r. lia.
Qed.

(** The call branch: the invariant is kept and the bound decreases. *)
Lemma try_call_spec h0 st X π cfgs A a c R k x :
  heap_ok h0 ∅ → inv_at h0 st X π cfgs A ((a, c) :: R) k → is_call c →
  l_heap st !! a = Some x →
  ∃ st' k', try_call M (Some hd) st x = Ret st' ∧ inv h0 st' k' ∧
    (k' < k + cost X ((a, c) :: R))%nat.
Proof.
  intros H0 Hinv Hcall Hx. pose proof Hinv as [Hp Hrem Hcalls _ He Hl _ _].
  pose proof (path_heap_ok _ _ _ _ _ _ _ _ H0 Hp) as Hok.
  destruct (candidate _ _ _ _ _ Hrem Hcalls Hcall) as (B & b & r & C & ER & Hr & Hid & Erem & Eio & Hsucc).
  destruct (node_at _ _ _ _ _ _ Hok Hrem) as (x' & Ex & Hnx & Hv & Hi & _ & Hm).
  rewrite Hx in Ex. injection Ex as <-.
  assert ((a, c) ∈ remc es X) as Hac by (rewrite Hrem; set_solver).
  destruct (Hm Hcall b r) as (Hmt & y & Ey & Hvy); [|done..|].
  { apply (remc_elem es X). rewrite Hrem, ER. set_solver. }
  pose proof (id_in_range _ _ _ Hac) as Hrange.
  unfold try_call. rewrite Hmt, (load_ret _ _ _ Ey). simpl. rewrite Hv, Hvy.
  destruct (Hstep c r (l_state st) Eio) as (ok & s' & Es). rewrite Es. simpl.
  assert (∀ d, (∀ s2, succ X (l_state st) c s2 → dead ({[id c]} ∪ X) s2) →
    d = mkLocals (l_heap st) (n_next x) (l_state st) (l_linearized st)
      (l_cache st) (l_calls st) (l_longest st) (l_seqs st) →
    ∃ st' k', Ret d = Ret st' ∧ inv h0 st' k' ∧ (k' < k + cost X ((a, c) :: R))%nat) as Hskip.
  { intros d Hdead ->. eexists _, (k + cost X R)%nat. split; [done|]. split.
    - eexists X, π, cfgs, _, R, k. split; [|done]. by eapply inv_skip.
    - rewrite cost_cons by done. lia. }
  destruct ok; [|apply Hskip; [|done]; intros s2 H2; apply Hsucc in H2; congruence].
  rewrite clone_eq, Hi. destruct (rep_set_id _ _ c Hl Hrange) as (lin & Elin & Hlin).
  rewrite Elin. simpl.
  destruct (cacheContains_spec (l_cache st) (mkCacheEntry lin s')) as (hit & -> & Hhit). simpl.
  assert (succ X (l_state st) c s') as Hs by (by apply Hsucc).
  destruct hit; simpl; [apply Hskip; [|done]; by eapply cached_dead, Hhit|].
  destruct (heap_ok_lift _ _ _ _ _ _ Hok Hrem Hcall) as (h' & El & Eu & [Hseg _]).
  rewrite He. simpl. rewrite El. simpl. apply seg_head in Hseg.
  unfold nxt in Hseg. destruct (h' !! hd) as [z|] eqn:Ez; [|done]. injection Hseg as Hz.
  rewrite (load_ret _ _ _ Ez). simpl.
  destruct (inv_extend _ _ _ _ _ _ _ _ _ _ h' (n_next z) lin s' (hash lin) H0 Hinv Hcall Hs Hlin El Eu) as (k' & Hinv' & Hk); [done|].
  by eexists _, k'.
Qed.

(** The call that is taken back has been tried in vain: the entries before
    and including it are scanned, and the search goes on after it. *)
Lemma inv_pop h0 h X s π cfgs k A a c R s1 lin longest seqs cache calls next : heap_ok h0 ∅ →
  path h0 h calls X s π cfgs k → remc es X = A ++ (a, c) :: R → calls_only A → is_call c → scanned X s A →
  succ X s c s1 → dead ({[id c]} ∪ X) s1 → rep n lin (({[id c]} ∪ X) ∖ {[id c]}) →
  cache_ok cache (cfgs ++ [({[id c]} ∪ X, s1)]) → partial_ok longest seqs → next = head R.*1 →
  inv h0 (mkLocals h next s lin cache calls longest seqs) (k + cost X R).
Proof.
  intros H0 Hp Hrem Hcalls Hcall Hsc Hs Hdead Hlin Hc Hpa ->.
  exists X, π, cfgs, (A ++ [(a, c)]), R, k. split; [|done]. split; simpl; try done.
  - rewrite Hrem. by rewrite <-(assoc_L (++)).
  - rewrite fmap_app, Forall_app. split; [done|]. by constructor.
  - intros a' c' s' [Hin|Hin]%elem_of_app; [by eapply Hsc|].
    apply list_elem_of_singleton in Hin as [= -> ->]. intros Hs'. by rewrite (succ_fun _ _ _ _ _ Hs' Hs).
  - replace X with (({[id c]} ∪ X) ∖ {[id c]}); [done|].
    assert ((a, c) ∈ remc es X) as [Hni _]%remc_elem by (rewrite Hrem; set_solver). simpl in Hni. set_solver.
  - by eapply cache_ok_pop.
Qed.

(** The return branch: the current configuration is dead; undo the last
    call, or report failure when there is none. *)
Lemma backtrack_spec h0 st X π cfgs A b r R k cp :
  heap_ok h0 ∅ → inv_at h0 st X π cfgs A ((b, r) :: R) k → is_return r →
  (∃ st' k', backtrack cp st = Ret (inl st') ∧ inv h0 st' k' ∧ (k' < k + 1)%nat) ∨
  (backtrack cp st = Ret (inr st) ∧ dead ∅ (Init M)).
Proof.
  intros H0 [Hp Hrem Hcalls Hsc He Hl Hc Hpa] Hret.
  pose proof (path_heap_ok _ _ _ _ _ _ _ _ H0 Hp) as Hok.
  assert (dead X (l_state st)) as Hdead by (by eapply scanned_dead).
  pose proof (path_runs _ _ _ _ _ _ _ _ Hp) as Hruns.
  pose proof (path_entries _ _ _ _ _ _ _ _ Hp) as Hent.
  destruct (path_set _ _ _ _ _ _ _ _ Hp) as (HX & Hnd & Hrange & Hlen).
  unfold backtrack.
  assert (∃ lg sq, (if cp then record_longest (l_heap st) (l_calls st) (l_longest st) (l_seqs st)
    else Ret (l_longest st, l_seqs st)) = Ret (lg, sq) ∧ partial_ok lg sq) as (lg & sq & Erec & Hpa').
  { destruct cp; [|by exists (l_longest st), (l_seqs st)].
    destruct (record_longest_spec (l_heap st) (l_calls st) π (l_longest st) (l_seqs st))
      as (lg & sq & ? & ?); eauto; [apply Hok|by eexists _, _]. }
  destruct (path_inv _ _ _ _ _ _ _ _ Hp)
    as [(E1 & -> & E2)|(h & calls0 & X0 & s0 & π0 & cfgs0 & k0 & A0 & a & c & R0 & Ecalls & -> & -> & -> & ->
      & Hp0 & Hrem0 & Hcalls0 & Hcall & Hsc0 & Hs & Eunlift)].
  - right. rewrite E1, decide_True, E2 in * by done. done.
  - left. rewrite Ecalls in *. rewrite length_app. simpl. rewrite decide_False by lia. rewrite Erec. simpl.
    rewrite (proj2 (go_index_ret _ _ (mkCallsEntry (Some a) s0)))
      by (split; [lia|replace (Z.to_nat _) with (List.length calls0) by lia; by apply list_lookup_middle]).
    simpl. assert ((a, c) ∈ remc es X0) as Hac by (rewrite Hrem0; set_solver).
    destruct Hok as [_ Hn]. pose proof Hac as [_ Hcell]%remc_elem.
    destruct (Hn a c Hcell) as (y & Ey & _ & Hiy & _). rewrite (load_ret _ _ _ Ey). simpl.
    pose proof (id_in_range _ _ _ Hac) as Hr. rewrite Hiy, uint64_id by done.
    destruct (clear_rep _ _ _ _ Hl Hr) as (lin & -> & Hlin). simpl. rewrite Eunlift. simpl.
    destruct (node_at _ _ _ _ _ _ (path_heap_ok _ _ _ _ _ _ _ _ H0 Hp0) Hrem0) as (z & Ez & Hnz & _).
    rewrite (load_ret _ _ _ Ez). simpl. replace (List.length calls0 + 1 - 1)%nat with (List.length calls0) by lia.
    rewrite take_app_length. eexists _, (k0 + cost X0 R0)%nat. split; [done|]. split; [by eapply inv_pop|lia].
Qed.

Lemma iterate_spec h0 st k cp :
  heap_ok h0 ∅ → inv h0 st k → (∃ q, nxt (l_heap st) hd = Some (Some q)) →
  (∃ st' k', iterate M (Some hd) cp st = Ret (inl st') ∧ inv h0 st' k' ∧ (k' < k)%nat) ∨
  (iterate M (Some hd) cp st = Ret (inr st) ∧ dead ∅ (Init M)).
Proof.
  intros H0 (X & π & cfgs & A & R & kp & Hinv & ->) [q Hq].
  pose proof Hinv as [Hp Hrem Hcalls Hsc He Hl Hc Hpa].
  pose proof (path_heap_ok _ _ _ _ _ _ _ _ H0 Hp) as Hok.
  destruct R as [|[a e] R].
  { exfalso. rewrite app_nil_r in Hrem. destruct Hok as [Hseg _]. apply seg_head in Hseg.
    rewrite Hq in Hseg. pose proof (remc_balanced es Hbal X) as Hb. rewrite Hrem in *.
    apply balanced_last in Hb; [|done]. apply fmap_nil_inv in Hb as ->. done. }
  destruct (node_at _ _ _ _ _ _ Hok Hrem) as (x & Ex & _ & _ & _ & Hret & Hcall).
  unfold iterate. rewrite He. simpl. rewrite (load_ret _ _ _ Ex). simpl.
  destruct (kind e) eqn:Ek.
  - left. destruct (candidate _ _ _ _ _ Hrem Hcalls Ek) as (B & b & r & C & -> & Hr & Hid & _).
    destruct (Hcall Ek b r) as (-> & _); [|done..|].
    { apply (remc_elem es X). rewrite Hrem. set_solver. }
    destruct (try_call_spec _ _ _ _ _ _ _ _ _ _ _ H0 Hinv Ek Ex) as (st' & k' & -> & ? & ?).
    simpl. eauto.
  - rewrite (Hret Ek). rewrite cost_return by done. by eapply backtrack_spec.
Qed.

Lemma op_ids_complete π s' : runs M es (Init M) π [] s' → π ≡ₚ seqZ 0 n.
Proof.
  intros Hr. destruct (runs_sound M _ _ _ _ Hr Hbal) as (Hp & _). rewrite Hp.
  by apply op_ids_seqZ.
Qed.

(** What the search reports. *)
Definition outcome_ok (kill : nat → Z) (b : bool) (lg : list (option nat)) (sq : list (list Z)) : Prop :=
  partial_ok lg sq ∧
  (b = true → ∃ π s' p, runs M es (Init M) π [] s' ∧
    lg = replicate (Z.to_nat n) (Some p) ∧ sq !! p = Some π) ∧
  (b = false → dead ∅ (Init M) ∨ ∃ it, kill it ≠ 0).

Lemma search_loop_spec h0 cp kill fuel it st k :
  heap_ok h0 ∅ → inv h0 st k → (k < fuel)%nat →
  ∃ b lg sq, search_loop fuel M n (Some hd) cp kill it st = Ret (b, (lg, sq)) ∧
    outcome_ok kill b lg sq.
Proof.
  intros H0. revert it st k. induction fuel as [|fuel IH]; intros it st k Hinv Hk; [lia|].
  pose proof Hinv as (X & π & cfgs & A & R & kp & [Hp Hrem Hcalls Hsc He Hl Hc Hpa] & ->).
  pose proof (path_heap_ok _ _ _ _ _ _ _ _ H0 Hp) as Hok.
  pose proof Hok as [Hseg Hn]. apply seg_head in Hseg. unfold nxt in Hseg.
  destruct (l_heap st !! hd) as [z|] eqn:Ez; [|done]. injection Hseg as Hz.
  simpl. rewrite (load_ret _ _ _ Ez). simpl. destruct (n_next z) as [q|] eqn:Eq.
  - destruct (decide (kill it ≠ 0)) as [Hkill|_].
    { eexists _, _, _. split; [done|]. split_and!; [done|done|]. intros _. right. by exists it. }
    destruct (iterate_spec h0 st _ cp H0 Hinv) as [(st' & k' & -> & Hinv' & Hlt)|[-> Hdead]].
    { exists q. unfold nxt. rewrite Ez. simpl. by rewrite Eq. }
    + simpl. eapply IH; [done|lia].
    + simpl. eexists _, _, _. split; [done|]. split_and!; [done|done|]. by left.
  - pose proof (path_runs _ _ _ _ _ _ _ _ Hp) as Hruns.
    assert (remc es X = []) as Enil by (by destruct (remc es X)).
    rewrite Enil in Hruns. simpl in Hruns.
    unfold finish. rewrite (call_ids_spec _ _ _ Hn (path_entries _ _ _ _ _ _ _ _ Hp)). simpl.
    eexists _, _, _. split; [done|].
    assert ((l_seqs st ++ [π]) !! List.length (l_seqs st) = Some π) as Eπ by (by apply list_lookup_middle).
    split_and!; [|eauto 10|done]. split; [by rewrite length_replicate|].
    intros i p Hi. apply lookup_replicate in Hi as [[= ->] Hi]. exists π. split_and!; [done| |by eexists _, _].
    rewrite (op_ids_complete _ _ Hruns). apply elem_of_seqZ. lia.
Qed.

(** Fuel that is always enough for [checkSingle]. *)
Definition search_fuel : nat := S (W (List.length (op_ids es))).

Lemma checkSingle_spec fuel (nilV : Val) cp kill :
  (search_fuel ≤ fuel)%nat →
  ∃ b lg sq, checkSingle fuel nilV M es cp kill = Ret (b, (lg, sq)) ∧ outcome_ok kill b lg sq.
Proof.
  intros Hfuel. destruct (build_list es nilV) as (h1 & h0 & E1 & E2 & E3 & E4 & Hseg & Hst & _).
  unfold checkSingle. rewrite E1. simpl. rewrite E2. simpl. rewrite E3, E4. simpl.
  rewrite Z.quot_div_nonneg by lia.
  assert (heap_ok h0 ∅) as H0.
  { split; [by rewrite remc_empty|]. by apply nodes_ok_init. }
  assert (0 ≤ n) as Hn0 by (apply Z.div_pos; lia).
  assert (uint64 n = n) as ->.
  { apply uint64_small. split; [done|].
    assert (n ≤ Z.of_nat (List.length es)) by (apply Z.div_le_upper_bound; lia). lia. }
  eapply (search_loop_spec h0); [done| |].
  - exists ∅, [], [], [], (remc es ∅), 0%nat. split; [|done]. split; simpl; try done.
    + constructor.
    + by intros ? ? ? ?%not_elem_of_nil.
    + by rewrite remc_empty.
    + by apply newBitset_rep.
    + split; [by rewrite length_replicate|]. intros i p Hi. by apply lookup_replicate in Hi as [? _].
  - pose proof (cost_le_W ∅). unfold nops in *. rewrite remc_empty, cells_snd in *.
    unfold search_fuel in Hfuel. lia.
Qed.
End correctness.
