(* ===== verification/Checker.v ===== *)
(** porcupine/checker.go, [checkParallel], [checkEvents] and
    [checkOperations], and the entry points of porcupine.go.

    The goroutines and the [select] of [checkParallel] are driven by a
    schedule: the sequence of cases the [select] takes. A schedule that ends
    before the loop does, or that asks for a case that cannot be ready, yields
    [OutOfFuel]: the call has not returned. *)
From Stdlib Require Import ZArith Lia.
From stdpp Require Import base gmap sets list.
From S2P Require Import Prelude Bitset Model Entries Nodes Search.

Inductive select := SelResult (i : nat) | SelTimeout.

Record linearizationInfo (Val : Type) := mkInfo {
  li_history : list (list (entry Val));
  partialLinearizations : list (list (list Z))
}.
Arguments mkInfo {Val}.
Arguments li_history {Val}.
Arguments partialLinearizations {Val}.

(** What a caller's environment decides: the order in which goroutines finish
    and the timer fires, what goroutine [i] reads from [*kill] once the main
    goroutine has set it, and the order of a map range. *)
Record environment := mkEnv {
  sched : list select;
  kills : nat → nat → Z;
  ptr_order : list nat → list nat
}.

Section parallel.
Context {Val State : Type} (fuel : nat) (nilV : Val) (env : environment).
Implicit Types (model : Model Val State) (history : list (list (entry Val))).

Definition no_kill : nat → Z := λ _, 0.

(** The body of goroutine [i]. *)
Definition run model history (computeInfo : bool) (i : nat) (kill : nat → Z)
    : result (bool * (list (option nat) * list (list Z))) :=
  subhistory ← history.[Z.of_nat i];
  checkSingle fuel nilV model subhistory computeInfo kill.

(** Local variables of the [select] loop; [received] lists the goroutines
    whose result has been taken from the channel. *)
Record pstate := mkPState {
  p_count : nat;
  p_ok : bool;
  p_timedOut : bool;
  p_received : list nat
}.

(** A result taken from the channel was sent before [kill] could be set. *)
Fixpoint select_loop model history (computeInfo : bool) (timeout : Z)
    (events : list select) (st : pstate) : result pstate :=
  match events with
  | [] => OutOfFuel
  | SelResult i :: events =>
      if decide ((i < List.length history)%nat ∧ i ∉ p_received st) then
        '(res, _) ← run model history computeInfo i no_kill;
        let count := S (p_count st) in
        let ok := p_ok st && res in
        let st := mkPState count ok (p_timedOut st) (p_received st ++ [i]) in
        if negb ok && negb computeInfo then Ret st
        else if decide (List.length history ≤ count)%nat then Ret st
        else select_loop model history computeInfo timeout events st
      else OutOfFuel
  | SelTimeout :: _ =>
      if decide (0 < timeout) then
        Ret (mkPState (p_count st) (p_ok st) true (p_received st))
      else OutOfFuel
  end.

(** [longest[i]] after every goroutine has finished. *)
Definition goroutine_longest model history (st : pstate) (i : nat)
    : result (list (option nat) * list (list Z)) :=
  '(_, l) ← run model history true i (if decide (i ∈ p_received st) then no_kill else kills env i);
  Ret l.

(** The set of non-nil pointers of [longest[i]], each copied out once. *)
Definition collect_partials (l : list (option nat) * list (list Z)) : result (list (list Z)) :=
  let '(longest, seqs) := l in
  foldM (λ partials k, arr ← nonnil (seqs !! k); Ret (partials ++ [arr]))
    [] (ptr_order env (remove_dups (omap (λ v, v) longest))).

Definition compute_info model history (st : pstate) : result (linearizationInfo Val) :=
  partials ← foldM (λ acc i, l ← goroutine_longest model history st i;
                             ps ← collect_partials l; Ret (acc ++ [ps]))
               [] (seq 0 (List.length history));
  Ret (mkInfo history partials).

Definition check_result (st : pstate) : CheckResult :=
  if negb (p_ok st) then Illegal else if p_timedOut st then Unknown else Ok.

Definition checkParallel model history (computeInfo : bool) (timeout : Z)
    : result (CheckResult * linearizationInfo Val) :=
  st ← select_loop model history computeInfo timeout (sched env) (mkPState 0 true false []);
  info ← (if computeInfo then compute_info model history st else Ret (mkInfo [] []));
  Ret (check_result st, info).

Context `{EqDecision State, Format Val, Format State}.
Context (sort : list (entry Val) → list (entry Val)).

Definition checkEvents model (history : list (Event Val)) (verbose : bool) (timeout : Z)
    : result (CheckResult * linearizationInfo Val) :=
  let model := fillDefault model in
  partitionEvent ← nonnil (PartitionEvent model);
  let partitions := partitionEvent history in
  let l := (λ subhistory, convertEntries (renumber subhistory)) <$> partitions in
  checkParallel model l verbose timeout.

Definition checkOperations model (history : list (Operation Val)) (verbose : bool) (timeout : Z)
    : result (CheckResult * linearizationInfo Val) :=
  let model := fillDefault model in
  partition ← nonnil (Partition model);
  partitions ← partition history;
  let l := makeEntries sort <$> partitions in
  checkParallel model l verbose timeout.

(** ** porcupine.go *)

Definition CheckOperations model (history : list (Operation Val)) : result bool :=
  '(res, _) ← checkOperations model history false 0; Ret (bool_decide (res = Ok)).

Definition CheckOperationsTimeout model (history : list (Operation Val)) (timeout : Z)
    : result CheckResult :=
  '(res, _) ← checkOperations model history false timeout; Ret res.

Definition CheckOperationsVerbose model (history : list (Operation Val)) (timeout : Z)
    : result (CheckResult * linearizationInfo Val) :=
  checkOperations model history true timeout.

Definition CheckEvents model (history : list (Event Val)) : result bool :=
  '(res, _) ← checkEvents model history false 0; Ret (bool_decide (res = Ok)).

Definition CheckEventsTimeout model (history : list (Event Val)) (timeout : Z)
    : result CheckResult :=
  '(res, _) ← checkEvents model history false timeout; Ret res.

Definition CheckEventsVerbose model (history : list (Event Val)) (timeout : Z)
    : result (CheckResult * linearizationInfo Val) :=
  checkEvents model history true timeout.
End parallel.
