(* ===== verification/Operations.v ===== *)
(** Linearizability of operation and event histories, and what [makeEntries],
    [renumber] and [convertEntries] make of them. *)
From Stdlib Require Import ZArith Lia.
From stdpp Require Import base gmap sets list sorting.
From S2P Require Import Prelude Model Entries History.

Section operations.
Context {Val State : Type} (M : Model Val State).
Implicit Types (hist : list (Operation Val)) (π : list Z) (s : State).

(** ** Specification on operations *)

(** Operation [i] returned before operation [j] was invoked. *)
Definition op_precedes hist (i j : Z) : Prop :=
  ∃ a b, hist.[i] = Ret a ∧ hist.[j] = Ret b ∧ Return a < Call b.

Fixpoint ops_legal hist s π : Prop :=
  match π with
  | [] => True
  | i :: π => ∃ op s', hist.[i] = Ret op ∧
      Step M s (Input op) (Output op) = Ret (true, s') ∧ ops_legal hist s' π
  end.

(** Some order of all the operations replays on the model and keeps every
    pair of non-overlapping operations in real-time order. *)
Definition ops_linearizable hist : Prop :=
  ∃ π, π ≡ₚ seqZ 0 (Z.of_nat (length hist)) ∧ ops_legal hist (Init M) π ∧
    ∀ i j, op_precedes hist i j → before π i j.

(** Operations take time. *)
Definition timed hist : Prop := ∀ op, op ∈ hist → Call op < Return op.
(** No operation returns at the very instant another one is invoked. *)
Definition untied hist : Prop := ∀ a b, a ∈ hist → b ∈ hist → Return a ≠ Call b.

(** ** The entries of an operation history *)

Context (sort : list (entry Val) → list (entry Val)) `{!SortsBy byTime_Less sort}.

Definition call_of (i : Z) (op : Operation Val) : entry Val :=
  mkEntry callEntry (Input op) i (Call op) (ClientId op).
Definition return_of (i : Z) (op : Operation Val) : entry Val :=
  mkEntry returnEntry (Output op) i (Return op) (ClientId op).

Lemma of_id_operation_entries k hist i :
  of_id i (operation_entries k hist) =
    match hist.[i - k] with Ret op => [call_of i op; return_of i op] | _ => [] end.
Proof.
  revert k. induction hist as [|op hist IH]; intros k; simpl.
  - unfold go_index. by case_decide.
  - rewrite !of_id_cons. simpl. unfold go_index in *. rewrite IH.
    destruct (decide (k = i)) as [->|Hne].
    + rewrite Z.sub_diag. simpl. rewrite decide_False by lia. done.
    + repeat case_decide; try lia; try done.
      replace (Z.to_nat (i - k)) with (S (Z.to_nat (i - (k + 1)))) by lia. done.
Qed.

Lemma operation_entries_id k hist e :
  e ∈ operation_entries k hist → k ≤ id e < k + Z.of_nat (length hist).
Proof.
  revert k. induction hist as [|op hist IH]; intros k; simpl; [by intros ?%not_elem_of_nil|].
  intros [->|[->|He]%elem_of_cons]%elem_of_cons; simpl; [lia..|]. specialize (IH _ He). lia.
Qed.

Lemma length_operation_entries k hist : length (operation_entries k hist) = (2 * length hist)%nat.
Proof. revert k. induction hist as [|op hist IH]; intros k; simpl; [done|]. rewrite IH. lia. Qed.

Abbreviation entries hist := (makeEntries sort hist).

Lemma entries_perm hist : entries hist ≡ₚ operation_entries 0 hist.
Proof. unfold makeEntries. apply sort_perm. Qed.

Lemma length_entries hist : length (entries hist) = (2 * length hist)%nat.
Proof. by rewrite entries_perm, length_operation_entries. Qed.

Lemma entries_sorted hist l1 a l2 b l3 :
  entries hist = l1 ++ a :: l2 ++ b :: l3 → time a ≤ time b.
Proof.
  intros E. pose proof (sort_strongly byTime_Less sort (operation_entries 0 hist)) as Hs.
  unfold makeEntries in E. rewrite E in Hs. clear E.
  induction l1 as [|x l1 IH]; simpl in Hs; inversion Hs as [|?? Hs' Hall]; subst; [|auto].
  rewrite Forall_app, Forall_cons in Hall. destruct Hall as (_ & Hb & _).
  unfold byTime_Less in Hb. apply bool_decide_eq_false in Hb. lia.
Qed.

Lemma entries_of_id hist i op :
  hist.[i] = Ret op → Call op < Return op → of_id i (entries hist) = [call_of i op; return_of i op].
Proof.
  intros E Hlt. assert (of_id i (entries hist) ≡ₚ [call_of i op; return_of i op]) as Hp.
  { unfold of_id. rewrite entries_perm. change (filter _ ?l) with (of_id i l).
    by rewrite of_id_operation_entries, Z.sub_0_r, E. }
  symmetry in Hp. apply Permutation_length_2_inv in Hp as [Hp|Hp]; [done|exfalso].
  assert (before (entries hist) (return_of i op) (call_of i op)) as (l1 & l2 & l3 & E').
  { rewrite (before_filter (λ e, id e = i)) by done.
    change (before (of_id i (entries hist)) (return_of i op) (call_of i op)).
    rewrite Hp. by exists [], [], []. }
  apply entries_sorted in E'. simpl in E'. lia.
Qed.

Lemma entries_of_id_none hist i : (∀ op, hist.[i] ≠ Ret op) → of_id i (entries hist) = [].
Proof.
  intros Hn. apply filter_nil_iff. intros e He Hid.
  assert (e ∈ of_id i (operation_entries 0 hist)) as Hin.
  { apply list_elem_of_filter. by rewrite <-entries_perm. }
  rewrite of_id_operation_entries, Z.sub_0_r in Hin.
  destruct (hist.[i]) eqn:E; [by eapply Hn|by apply not_elem_of_nil in Hin..].
Qed.

Lemma go_index_elem {A} (l : list A) i x : l.[i] = Ret x → x ∈ l.
Proof. intros [_ E]%go_index_ret. by eapply list_elem_of_lookup_2. Qed.

Lemma entries_balanced hist : timed hist → balanced (entries hist).
Proof.
  intros Ht i. destruct (hist.[i]) as [op| |] eqn:E.
  - right. exists (call_of i op), (return_of i op). split; [|done].
    apply entries_of_id; [done|]. by eapply Ht, go_index_elem.
  - left. apply entries_of_id_none. intros op. by rewrite E.
  - left. apply entries_of_id_none. intros op. by rewrite E.
Qed.

Lemma entries_half hist : Z.of_nat (length (entries hist)) / 2 = Z.of_nat (length hist).
Proof.
  rewrite length_entries, Nat2Z.inj_mul, Z.mul_comm. by apply Z.div_mul.
Qed.

Lemma entries_ids hist e :
  e ∈ entries hist → 0 ≤ id e < Z.of_nat (length (entries hist)) / 2.
Proof.
  rewrite entries_half. rewrite entries_perm. intros He.
  apply operation_entries_id in He. lia.
Qed.

Lemma entries_op_ids hist :
  timed hist → op_ids (entries hist) ≡ₚ seqZ 0 (Z.of_nat (length hist)).
Proof.
  intros Ht. rewrite <-entries_half. apply op_ids_seqZ; [by apply entries_balanced|].
  intros e. apply entries_ids.
Qed.

Lemma entries_io hist i v w : timed hist →
  io (entries hist) i v w ↔ ∃ op, hist.[i] = Ret op ∧ Input op = v ∧ Output op = w.
Proof.
  intros Ht. unfold io. destruct (hist.[i]) as [op| |] eqn:E.
  - rewrite (entries_of_id hist i op) by (done || by eapply Ht, go_index_elem). split.
    + intros (c & r & [= <- <-] & <- & <-). eauto.
    + intros (op' & [= <-] & <- & <-). eauto.
  - rewrite entries_of_id_none by (intros op; by rewrite E). naive_solver.
  - rewrite entries_of_id_none by (intros op; by rewrite E). naive_solver.
Qed.

Lemma entries_legal hist s π : timed hist → legal M (entries hist) s π ↔ ops_legal hist s π.
Proof.
  intros Ht. revert s. induction π as [|i π IH]; intros s; simpl; [done|].
  setoid_rewrite IH. setoid_rewrite entries_io; [|done]. naive_solver.
Qed.

Lemma entry_of_op hist e : timed hist → e ∈ entries hist →
  ∃ op, hist.[id e] = Ret op ∧ e = match kind e with
    | callEntry => call_of (id e) op | returnEntry => return_of (id e) op end.
Proof.
  intros Ht He. assert (e ∈ of_id (id e) (entries hist)) as Hin.
  { by apply list_elem_of_filter. }
  destruct (hist.[id e]) as [op| |] eqn:E.
  - rewrite (entries_of_id hist (id e) op) in Hin by (done || by eapply Ht, go_index_elem).
    exists op. split; [done|]. apply elem_of_cons in Hin as [Hin|Hin%list_elem_of_singleton];
      by rewrite Hin at 2; simpl; rewrite <-Hin.
  - rewrite entries_of_id_none in Hin by (intros op; by rewrite E). by apply not_elem_of_nil in Hin.
  - rewrite entries_of_id_none in Hin by (intros op; by rewrite E). by apply not_elem_of_nil in Hin.
Qed.

(** The entry order refines real time ... *)
Lemma op_precedes_entries hist i j : timed hist → op_precedes hist i j → precedes (entries hist) i j.
Proof.
  intros Ht (a & b & Ea & Eb & Hlt). exists (return_of i a), (call_of j b).
  split; [|done].
  assert (return_of i a ∈ entries hist) as Ha.
  { assert (return_of i a ∈ of_id i (entries hist)) as Hin; [|by apply list_elem_of_filter in Hin as [_ ?]].
    rewrite (entries_of_id hist i a) by (done || by eapply Ht, go_index_elem). right. left. }
  assert (call_of j b ∈ entries hist) as Hb.
  { assert (call_of j b ∈ of_id j (entries hist)) as Hin; [|by apply list_elem_of_filter in Hin as [_ ?]].
    rewrite (entries_of_id hist j b) by (done || by eapply Ht, go_index_elem). left. }
  destruct (before_total _ _ _ Ha Hb) as [?|[?|(l1 & l2 & l3 & E)]]; [done|done|].
  apply entries_sorted in E. simpl in E. lia.
Qed.

(** ... and adds nothing to it when there are no ties. *)
Lemma entries_op_precedes hist i j :
  timed hist → untied hist → precedes (entries hist) i j → op_precedes hist i j.
Proof.
  intros Ht Hu (r & c & Hbef & Hr & <- & Hc & <-).
  destruct (before_elem_of _ _ _ Hbef) as [Hrin Hcin].
  destruct (entry_of_op _ _ Ht Hrin) as (a & Ea & Er).
  destruct (entry_of_op _ _ Ht Hcin) as (b & Eb & Ec).
  unfold is_return, is_call in *. rewrite Hr in Er. rewrite Hc in Ec.
  exists a, b. split_and!; [done..|]. destruct Hbef as (l1 & l2 & l3 & E).
  apply entries_sorted in E. rewrite Er, Ec in E. simpl in E.
  assert (Return a ≠ Call b) by (apply Hu; by eapply go_index_elem). lia.
Qed.

Lemma entries_linearizable_sound hist :
  timed hist → linearizable M (entries hist) → ops_linearizable hist.
Proof.
  intros Ht (π & Hp & Hl & Ho). exists π. split_and!.
  - by rewrite Hp, entries_op_ids.
  - by apply entries_legal.
  - intros i j Hij. by apply Ho, op_precedes_entries.
Qed.

Lemma entries_linearizable_complete hist :
  timed hist → untied hist → ops_linearizable hist → linearizable M (entries hist).
Proof.
  intros Ht Hu (π & Hp & Hl & Ho). exists π. split_and!.
  - by rewrite Hp, entries_op_ids.
  - by apply entries_legal.
  - intros i j Hij. by apply Ho, entries_op_precedes.
Qed.
End operations.
