(* ===== verification/Events.v ===== *)
(** Event histories: what [renumber] and [convertEntries] make of them, and
    that renaming operation ids does not change linearizability. *)
From Stdlib Require Import ZArith Lia.
From stdpp Require Import base gmap sets list.
From S2P Require Import Prelude Model Entries History.

(** ** Renaming ids *)

Section renaming.
Context {Val State : Type} (M : Model Val State).
Implicit Types (L : list (entry Val)).

(** [L'] is [L] with ids mapped by [f]; times and clients are free. *)
Definition renamed (f : Z → Z) L L' : Prop :=
  Forall2 (λ e e', kind e' = kind e ∧ value e' = value e ∧ id e' = f (id e)) L L'.
Definition inj_on (f : Z → Z) L : Prop :=
  ∀ a b, a ∈ L → b ∈ L → f (id a) = f (id b) → id a = id b.

Lemma renamed_of_id f L L' a :
  renamed f L L' → inj_on f L → a ∈ L → renamed f (of_id (id a) L) (of_id (f (id a)) L').
Proof.
  intros Hr Hi Ha.
  assert (∀ b, b ∈ L → f (id b) = f (id a) → id b = id a) as Hinj by (intros; by apply Hi).
  clear Hi Ha. induction Hr as [|e e' L L' (Hk & Hv & Hid) Hr IH]; [constructor|].
  rewrite !of_id_cons. assert (renamed f (of_id (id a) L) (of_id (f (id a)) L')) as IH'.
  { apply IH. intros b Hb. apply Hinj. by right. }
  destruct (decide (id e = id a)) as [E|E].
  - rewrite decide_True by congruence. by constructor.
  - rewrite decide_False; [done|]. rewrite Hid. intros E'. apply E, Hinj; [left|done].
Qed.

Lemma renamed_elem f L L' e' : renamed f L L' → e' ∈ L' →
  ∃ e, e ∈ L ∧ kind e' = kind e ∧ value e' = value e ∧ id e' = f (id e).
Proof.
  intros Hr He'. apply list_elem_of_lookup in He' as [i E'].
  destruct (Forall2_lookup_r _ _ _ _ _ Hr E') as (e & E & ?). exists e.
  split; [by eapply list_elem_of_lookup_2|done].
Qed.

Lemma renamed_before f L L' a' b' : renamed f L L' → before L' a' b' →
  ∃ a b, before L a b ∧ kind a' = kind a ∧ kind b' = kind b ∧ id a' = f (id a) ∧ id b' = f (id b).
Proof.
  intros Hr (l1 & l2 & l3 & ->).
  apply Forall2_app_inv_r in Hr as (k1 & k & _ & Hr & ->).
  apply Forall2_cons_inv_r in Hr as (a & k' & (Ha1 & _ & Ha2) & Hr & ->).
  apply Forall2_app_inv_r in Hr as (k2 & k'' & _ & Hr & ->).
  apply Forall2_cons_inv_r in Hr as (b & k3 & (Hb1 & _ & Hb2) & _ & ->).
  exists a, b. split_and!; [by exists k1, k2, k3|done..].
Qed.

Lemma renamed_op_ids f L L' : renamed f L L' → op_ids L' = f <$> op_ids L.
Proof.
  induction 1 as [|e e' L L' (Hk & _ & Hid) _ IH]; [done|].
  unfold op_ids in *. rewrite !filter_cons, Hk. case_decide; csimpl; by rewrite ?Hid, IH.
Qed.

Lemma renamed_balanced f L L' : renamed f L L' → inj_on f L → balanced L → balanced L'.
Proof.
  intros Hr Hi Hb i'. destruct (of_id i' L') as [|e' l'] eqn:E; [by left|right].
  assert (e' ∈ of_id i' L') as Hin by (rewrite E; left).
  apply list_elem_of_filter in Hin as [<- Hin].
  destruct (renamed_elem _ _ _ _ Hr Hin) as (e & He & _ & _ & Hid).
  pose proof (renamed_of_id _ _ _ _ Hr Hi He) as Ho. rewrite <-Hid, E in Ho.
  destruct (Hb (id e)) as [Ee|(c & r & Ee & Hc & Hret)]; rewrite Ee in Ho; [by inversion Ho|].
  apply Forall2_cons_inv_l in Ho as (c' & ? & (Hk & _) & Ho & ->).
  apply Forall2_cons_inv_l in Ho as (r' & ? & (Hk' & _) & Ho & ->).
  apply Forall2_nil_inv_l in Ho as ->. exists c', r'. unfold is_call, is_return in *.
  split_and!; [done|congruence..].
Qed.

Lemma renamed_io f L L' i v w :
  renamed f L L' → inj_on f L → io L i v w → io L' (f i) v w.
Proof.
  intros Hr Hi (c & r & Eio & <- & <-).
  assert (c ∈ of_id i L) as Hc by (rewrite Eio; left).
  apply list_elem_of_filter in Hc as [<- Hc].
  pose proof (renamed_of_id _ _ _ _ Hr Hi Hc) as Ho. rewrite Eio in Ho.
  apply Forall2_cons_inv_l in Ho as (c' & ? & (_ & Hv & _) & Ho & E').
  apply Forall2_cons_inv_l in Ho as (r' & ? & (_ & Hv' & _) & Ho & ->).
  apply Forall2_nil_inv_l in Ho as ->. by exists c', r'.
Qed.

Lemma renamed_legal f L L' s π :
  renamed f L L' → inj_on f L → legal M L s π → legal M L' s (f <$> π).
Proof.
  intros Hr Hi. revert s. induction π as [|i π IH]; intros s; csimpl; [done|].
  intros (v & w & s' & Hio & Hst & Hl). exists v, w, s'.
  split_and!; [by eapply renamed_io|done|by apply IH].
Qed.

Lemma before_fmap {A B} (f : A → B) l x y : before l x y → before (f <$> l) (f x) (f y).
Proof.
  intros (l1 & l2 & l3 & ->). exists (f <$> l1), (f <$> l2), (f <$> l3).
  by rewrite fmap_app, fmap_cons, fmap_app, fmap_cons.
Qed.

Lemma renamed_linearizable f L L' :
  renamed f L L' → inj_on f L → linearizable M L → linearizable M L'.
Proof.
  intros Hr Hi (π & Hp & Hl & Ho). exists (f <$> π). split_and!.
  - rewrite (renamed_op_ids _ _ _ Hr). by rewrite Hp.
  - by eapply renamed_legal.
  - intros a' b' (r' & c' & Hbef & Hret & <- & Hcall & <-).
    destruct (renamed_before _ _ _ _ _ Hr Hbef) as (r & c & Hbef' & Hk1 & Hk2 & -> & ->).
    apply before_fmap, Ho. exists r, c. unfold is_call, is_return in *.
    split_and!; [done|congruence|done|congruence|done].
Qed.

(** A left inverse of [f] undoes the renaming. *)
Lemma renamed_inverse f g L L' :
  renamed f L L' → (∀ e, e ∈ L → g (f (id e)) = id e) → renamed g L' L ∧ inj_on g L' ∧ inj_on f L.
Proof.
  intros Hr Hg. split_and!.
  - induction Hr as [|e e' L L' (Hk & Hv & Hid) Hr IH]; [constructor|]. constructor.
    + rewrite Hid, Hg by left. done.
    + apply IH. intros a Ha. apply Hg. by right.
  - intros a b Ha Hb E. destruct (renamed_elem _ _ _ _ Hr Ha) as (a0 & Ha0 & _ & _ & Ea).
    destruct (renamed_elem _ _ _ _ Hr Hb) as (b0 & Hb0 & _ & _ & Eb).
    rewrite Ea, Eb in *. rewrite !Hg in E by done. by rewrite E.
  - intros a b Ha Hb E. rewrite <-(Hg a Ha), <-(Hg b Hb). by rewrite E.
Qed.
End renaming.

(** ** [renumber] *)

Section renumber.
Context {Val : Type}.
Implicit Types (l events : list (Event Val)) (m : gmap Z Z).

(** [v'] is [v] with its id replaced according to [m]. *)
Definition renumbered m (v v' : Event Val) : Prop :=
  ev_ClientId v' = ev_ClientId v ∧ ev_Kind v' = ev_Kind v ∧ ev_Value v' = ev_Value v ∧
  m !! ev_Id v = Some (ev_Id v').

(** [m] numbers the ids of [l] with [0 .. next), without repetition. *)
Record numbering l m (next : Z) : Prop := {
  num_dom k : is_Some (m !! k) ↔ k ∈ ev_Id <$> l;
  num_range k r : m !! k = Some r → 0 ≤ r < next;
  num_inj k k' r : m !! k = Some r → m !! k' = Some r → k = k';
  num_size : next = Z.of_nat (size m)
}.

Lemma renumbered_insert m k r v v' :
  m !! k = None → renumbered m v v' → renumbered (<[k := r]> m) v v'.
Proof.
  intros Hk (? & ? & ? & Hm). split_and!; [done..|].
  rewrite lookup_insert_ne; [done|]. intros ->. by rewrite Hk in Hm.
Qed.

Lemma numbering_insert l m next v :
  numbering l m next → m !! ev_Id v = None →
  numbering (l ++ [v]) (<[ev_Id v := next]> m) (next + 1).
Proof.
  intros [Hd Hr Hi Hs] Hv. split.
  - intros k. rewrite fmap_app, elem_of_app, <-Hd, lookup_insert_is_Some. csimpl.
    rewrite list_elem_of_singleton. destruct (decide (ev_Id v = k)); naive_solver.
  - intros k r [(<- & <-)|(Hne & Hk)]%lookup_insert_Some; [rewrite Hs; lia|].
    apply Hr in Hk. lia.
  - intros k k' r [(<- & <-)|(Hne & Hk)]%lookup_insert_Some
      [(<- & E)|(Hne' & Hk')]%lookup_insert_Some; [done|..].
    + apply Hr in Hk'. lia.
    + subst. apply Hr in Hk. lia.
    + by eapply Hi.
  - rewrite map_size_insert_None by done. lia.
Qed.

Lemma renumber_foldl events : ∃ e m next,
  foldl renumber_step ([], ∅, 0) events = (e, m, next) ∧
  Forall2 (renumbered m) events e ∧ numbering events m next.
Proof.
  induction events as [|v l IH] using rev_ind.
  - exists [], ∅, 0. split_and!; [done|constructor|]. split; [|by intros ??; rewrite lookup_empty..|done].
    intros k. rewrite lookup_empty. csimpl. rewrite elem_of_nil. split; [by intros []|done].
  - destruct IH as (e & m & next & E & Hf & Hn). rewrite foldl_app, E. simpl.
    destruct (m !! ev_Id v) as [r|] eqn:Em.
    + eexists _, m, next. split_and!; [done| |].
      * apply Forall2_app; [done|]. constructor; [done|constructor].
      * destruct Hn as [Hd Hr Hi Hs]. split; [|done..]. intros k.
        rewrite fmap_app, elem_of_app, <-Hd. csimpl. rewrite list_elem_of_singleton.
        split; [by left|]. intros [?| ->]; [done|by rewrite Em].
    + eexists _, _, _. split_and!; [done| |by apply numbering_insert].
      apply Forall2_app.
      * eapply Forall2_impl; [exact Hf|]. intros ? ?. by apply renumbered_insert.
      * constructor; [|constructor]. split_and!; [done..|apply lookup_insert_eq].
Qed.

Lemma renumber_spec events : ∃ m next,
  Forall2 (renumbered m) events (renumber events) ∧ numbering events m next.
Proof.
  destruct (renumber_foldl events) as (e & m & next & E & Hf & Hn). exists m, next.
  unfold renumber. by rewrite E.
Qed.

(** ** [convertEntries] *)

Lemma convert_Forall2 (R : Event Val → Event Val → Prop) (Q : entry Val → entry Val → Prop) l l' :
  (∀ i j v v', R v v' → Q (convertEntry i v) (convertEntry j v')) →
  Forall2 R l l' → Forall2 Q (convertEntries l) (convertEntries l').
Proof.
  intros Hc Hf. apply Forall2_same_length_lookup. unfold convertEntries.
  rewrite !length_imap. split; [by eapply Forall2_length|].
  intros i a b. rewrite !list_lookup_imap. intros Ha Hb.
  apply fmap_Some in Ha as (v & Ev & ->). apply fmap_Some in Hb as (v' & Ev' & ->).
  eapply Hc, Forall2_lookup_lr; [exact Hf|done..].
Qed.

Lemma elem_of_convert l e : e ∈ convertEntries l → id e ∈ ev_Id <$> l.
Proof.
  intros He. apply list_elem_of_lookup in He as [i E]. unfold convertEntries in E.
  rewrite list_lookup_imap in E. apply fmap_Some in E as (v & Ev & ->). simpl.
  apply list_elem_of_fmap. exists v. split; [done|]. by eapply list_elem_of_lookup_2.
Qed.

Lemma convert_op_ids l : Forall (λ v, ev_Id v ∈ op_ids (convertEntries l)) l ∨ ¬ balanced (convertEntries l).
Proof.
  destruct (decide (Forall (λ v, ev_Id v ∈ op_ids (convertEntries l)) l)) as [?|Hn]; [by left|right].
  intros Hb. apply Hn, Forall_forall. intros v Hv.
  apply list_elem_of_lookup in Hv as [i Ev].
  assert (convertEntry i v ∈ convertEntries l) as Hin.
  { eapply list_elem_of_lookup_2 with i. unfold convertEntries. by rewrite list_lookup_imap, Ev. }
  assert (convertEntry i v ∈ of_id (ev_Id v) (convertEntries l)) as Hof by (by apply list_elem_of_filter).
  destruct (Hb (ev_Id v)) as [E|(c & r & E & Hc & _)]; rewrite E in Hof; [by apply not_elem_of_nil in Hof|].
  assert (c ∈ of_id (ev_Id v) (convertEntries l)) as Hcin by (rewrite E; left).
  apply list_elem_of_filter in Hcin as [Hid Hcin].
  apply elem_of_op_ids. by exists c.
Qed.

Context {State : Type} (M : Model Val State).

(** Linearizability of an event history, with the ids it came with. *)
Definition events_balanced events : Prop := balanced (convertEntries events).
Definition events_linearizable events : Prop := linearizable M (convertEntries events).

Lemma renumber_renamed events : ∃ f g,
  renamed f (convertEntries events) (convertEntries (renumber events)) ∧
  (∀ e, e ∈ convertEntries events → g (f (id e)) = id e) ∧
  (events_balanced events → ∀ e, e ∈ convertEntries (renumber events) →
     0 ≤ id e < Z.of_nat (length (convertEntries (renumber events))) / 2).
Proof.
  destruct (renumber_spec events) as (m & next & Hf & [Hd Hr Hi Hs]).
  exists (λ k, default 0 (m !! k)).
  exists (λ r, default 0 (list_find (λ p, p.2 = r) (map_to_list m) ≫= λ p, Some p.2.1)).
  assert (renamed (λ k, default 0 (m !! k)) (convertEntries events) (convertEntries (renumber events))) as Hren.
  { eapply convert_Forall2; [|exact Hf]. intros i j v v' (_ & Hk & Hv & Hm). simpl.
    by rewrite Hk, Hv, Hm. }
  split_and!; [done| |].
  - intros e He%elem_of_convert%Hd. destruct He as [r Er]. rewrite Er. simpl.
    destruct (list_find (λ p, p.2 = r) (map_to_list m)) as [[j [k' r']]|] eqn:E; simpl.
    + apply list_find_Some in E as (E & Hr' & _). simpl in Hr'. subst r'.
      apply list_elem_of_lookup_2, elem_of_map_to_list in E. by eapply Hi.
    + apply list_find_None in E. rewrite Forall_forall in E.
      exfalso. apply (E (id e, r)); [|done]. by apply elem_of_map_to_list.
  - intros Hb e He. destruct (renamed_elem _ _ _ _ Hren He) as (e0 & He0 & _ & _ & Hid).
    apply elem_of_convert, Hd in He0 as [r Er]. rewrite Er in Hid. simpl in Hid.
    apply Hr in Er. rewrite <-Hid in Er.
    assert (length (convertEntries (renumber events)) = 2 * length (op_ids (convertEntries events)))%nat as ->.
    { rewrite <-(balanced_length _ Hb). symmetry. by eapply Forall2_length. }
    rewrite Nat2Z.inj_mul, Z.mul_comm, Z.div_mul by done.
    assert (size m ≤ length (op_ids (convertEntries events)))%nat; [|lia].
    rewrite <-size_dom, <-(size_list_to_set (C := gset Z)) by (by apply balanced_op_ids_NoDup).
    apply subseteq_size. intros k Hk%elem_of_dom%Hd. apply elem_of_list_to_set.
    destruct (convert_op_ids events) as [Hall|?]; [|done]. rewrite Forall_forall in Hall.
    apply list_elem_of_fmap in Hk as (v & -> & Hv). by apply Hall.
Qed.

Lemma renumber_balanced events : events_balanced events → balanced (convertEntries (renumber events)).
Proof.
  intros Hb. destruct (renumber_renamed events) as (f & g & Hr & Hg & _).
  destruct (renamed_inverse _ _ _ _ Hr Hg) as (_ & _ & ?). by eapply renamed_balanced.
Qed.

Lemma renumber_linearizable events :
  linearizable M (convertEntries (renumber events)) ↔ events_linearizable events.
Proof.
  destruct (renumber_renamed events) as (f & g & Hr & Hg & _).
  destruct (renamed_inverse _ _ _ _ Hr Hg) as (Hr' & Hi' & Hi).
  split; by eapply renamed_linearizable.
Qed.

Lemma renumber_ids events e : events_balanced events → e ∈ convertEntries (renumber events) →
  0 ≤ id e < Z.of_nat (length (convertEntries (renumber events))) / 2.
Proof. intros Hb. destruct (renumber_renamed events) as (f & g & _ & _ & H). by apply H. Qed.

(** Renumbering keeps every operation's input and output. *)
Lemma renumber_io events i v w : io (convertEntries (renumber events)) i v w →
  ∃ j, io (convertEntries events) j v w.
Proof.
  destruct (renumber_renamed events) as (f & g & Hr & Hg & _).
  destruct (renamed_inverse _ _ _ _ Hr Hg) as (Hr' & Hi' & _).
  intros Hio. exists (g i). by eapply renamed_io.
Qed.

Lemma length_renumber events : length (convertEntries (renumber events)) = length events.
Proof.
  destruct (renumber_spec events) as (m & next & Hf & _). unfold convertEntries.
  rewrite length_imap. symmetry. by eapply Forall2_length.
Qed.
End renumber.
