(* ===== verification/Locality.v ===== *)
(** Linearizability is local: a key-value history is linearizable with respect
    to a map iff its restriction to every key is linearizable with respect to
    one value, the fact that lets [KvModel] check each key on its own. *)
From Stdlib Require Import ZArith Lia.
From stdpp Require Import base gmap list strings sorting.
From S2P Require Import Prelude Model History Operations KvModel.

(** ** Linearizations as lists of operations *)

Section lists.
Context {Val State : Type} (M : Model Val State).
Implicit Types (hist σ : list (Operation Val)) (π : list Z) (s : State).

Fixpoint replays s σ : Prop :=
  match σ with
  | [] => True
  | op :: σ => ∃ s', Step M s (Input op) (Output op) = Ret (true, s') ∧ replays s' σ
  end.

(** No operation is placed before one that returned before its call. *)
Definition respects (a b : Operation Val) : Prop := ¬ Return b < Call a.
Definition ordered σ : Prop := StronglySorted respects σ.

Definition list_linearizable hist : Prop :=
  ∃ σ, σ ≡ₚ hist ∧ replays (Init M) σ ∧ ordered σ.

Abbreviation names hist := (Forall2 (λ i op, hist.[i] = Ret op)).

Lemma names_all hist : names hist (seqZ 0 (Z.of_nat (length hist))) hist.
Proof.
  apply Forall2_same_length_lookup. split; [rewrite length_seqZ; lia|].
  intros k i op [-> Hk]%lookup_seqZ Hop. apply go_index_ret.
  rewrite Z.add_0_l, Nat2Z.id. split; [lia|done].
Qed.

Lemma names_legal hist π σ s : names hist π σ → ops_legal M hist s π ↔ replays s σ.
Proof.
  intros Hn. revert s. induction Hn as [|i op π σ Hop Hn IH]; intros s; simpl; [done|].
  setoid_rewrite IH. setoid_rewrite Hop. split.
  - intros (op' & s' & [= <-] & ?). by exists s'.
  - intros (s' & ?). by exists op, s'.
Qed.

Lemma Forall2_before {A B} (R : A → B → Prop) l k x y : Forall2 R l k → before l x y →
  ∃ a b, before k a b ∧ R x a ∧ R y b.
Proof.
  intros HR (l1 & l2 & l3 & ->).
  apply Forall2_app_inv_l in HR as (k1 & ? & _ & HR & ->).
  apply Forall2_cons_inv_l in HR as (a & ? & Ha & HR & ->).
  apply Forall2_app_inv_l in HR as (k2 & ? & _ & HR & ->).
  apply Forall2_cons_inv_l in HR as (b & k3 & Hb & _ & ->).
  exists a, b. split; [by exists k1, k2, k3|done].
Qed.

Lemma StronglySorted_before {A} (R : A → A → Prop) l x y :
  StronglySorted R l → before l x y → R x y.
Proof.
  intros Hs (l1 & l2 & l3 & ->).
  induction l1 as [|z l1 IH]; simpl in Hs; apply StronglySorted_inv in Hs as [Hs Hall]; [|auto].
  rewrite Forall_app, Forall_cons in Hall. tauto.
Qed.

Lemma names_ordered hist π σ : names hist π σ → NoDup π →
  (∀ i j, i ∈ π → j ∈ π → op_precedes hist i j → before π i j) → ordered σ.
Proof.
  induction 1 as [|i op π σ Hop Hn IH]; intros Hnd Hord; [constructor|].
  pose proof Hnd as [Hi Hnd']%NoDup_cons. constructor.
  - apply IH; [done|]. intros j1 j2 H1 H2 Hp. rewrite <-(before_cons_ne _ i); [|by intros ->].
    apply Hord; [by right..|done].
  - apply Forall_forall. intros b [k Hb]%list_elem_of_lookup Hlt.
    destruct (Forall2_lookup_r _ _ _ _ _ Hn Hb) as (j & Ej & Hj).
    assert (j ∈ π) as Hjin by (by eapply list_elem_of_lookup_2).
    eapply (before_NoDup_asym (i :: π) j i); [done| |by apply before_cons_eq].
    apply Hord; [by right|left|]. by exists b, op.
Qed.

Lemma ops_linearizable_list hist : timed hist → ops_linearizable M hist ↔ list_linearizable hist.
Proof.
  intros Ht. split.
  - intros (π & Hp & Hl & Ho).
    destruct (Permutation_Forall2 (symmetry Hp) (names_all hist)) as (σ & Hσ & Hn).
    exists σ. split_and!; [done|by eapply names_legal|].
    eapply names_ordered; [done| |by intros i j _ _; apply Ho].
    rewrite Hp. apply NoDup_seqZ.
  - intros (σ & Hp & Hl & Ho).
    assert (Forall2 (flip (λ i op, hist.[i] = Ret op)) hist (seqZ 0 (Z.of_nat (length hist)))) as Hall
      by apply Forall2_flip, names_all.
    destruct (Permutation_Forall2 (symmetry Hp) Hall) as (π & Hπ & Hn%Forall2_flip).
    exists π. split_and!; [done|by eapply names_legal|]. intros i j (a & b & Ea & Eb & Hlt).
    assert (∀ k x, hist.[k] = Ret x → k ∈ π) as Hin.
    { intros k x [Hk Ek%lookup_lt_Some]%go_index_ret. rewrite <-Hπ. apply elem_of_seqZ. lia. }
    destruct (before_total π i j) as [->|[?|Hb]]; [by eapply Hin..| |done|].
    + rewrite Ea in Eb. injection Eb as <-. apply go_index_elem, Ht in Ea. lia.
    + destruct (Forall2_before _ _ _ _ _ Hn Hb) as (b' & a' & Hb' & Eb' & Ea').
      simpl in Ea', Eb'. rewrite Ea in Ea'. injection Ea' as <-. rewrite Eb in Eb'. injection Eb' as <-.
      by destruct (StronglySorted_before _ _ _ _ Ho Hb').
Qed.
End lists.

(** ** The whole store as a model *)

(** A get reads its key's value, a put replaces it, an append extends it. *)
Definition map_Step (m : gmap string string) (input output : kvalue) : result (bool * gmap string string) :=
  inp ← as_KvInput input;
  out ← as_KvOutput output;
  let old := default "" (m !! Key inp) in
  Ret (if decide (Op inp = 0) then (bool_decide (out_Value out = old), m)
       else if decide (Op inp = 1) then (true, <[Key inp := Value inp]> m)
       else (true, <[Key inp := old +:+ Value inp]> m)).

(** The specification of the service: one value per key, "" when absent. *)
Definition KvMap : Model kvalue (gmap string string) :=
  {| Partition := None; PartitionEvent := None; Init := ∅; Step := map_Step;
     Equal := None; DescribeOperation := None; DescribeState := None |}.

Section locality.
Context (range sort_strings : list string → list string).
Abbreviation KvModel := (KvModel range sort_strings).
Implicit Types (hist σ : list (Operation kvalue)) (m : gmap string string) (k : string).

Abbreviation at_key m k := (default "" (m !! k)).

(** A step of the map is a step of the one value at its key. *)
Definition updates m k st m' : Prop := at_key m' k = st ∧ ∀ k', k' ≠ k → at_key m' k' = at_key m k'.

Lemma updates_insert m k st : updates m k st (<[k := st]> m).
Proof. split; [by rewrite lookup_insert_eq|]. intros k' Hk'. by rewrite lookup_insert_ne. Qed.

Lemma map_Step_spec m op k : kv_key op = Some k →
  match kv_Step (at_key m k) (Input op) (Output op), map_Step m (Input op) (Output op) with
  | Ret (ok, st), Ret (ok', m') => ok' = ok ∧ updates m k st m'
  | Ret _, _ | _, Ret _ => False
  | _, _ => True
  end.
Proof.
  intros Hk. unfold kv_key, kv_input in Hk. unfold map_Step, kv_Step.
  destruct (Input op) as [|i| |]; try done. injection Hk as <-. cbn [as_KvInput mbind result_bind].
  destruct (as_KvOutput (Output op)) as [o| |]; [|done..]. cbn [mbind result_bind].
  case_decide; [by split|]. case_decide; (split; [done|apply updates_insert]).
Qed.

Lemma map_Step_value m op k ok m' : kv_key op = Some k → map_Step m (Input op) (Output op) = Ret (ok, m') →
  ∃ st, kv_Step (at_key m k) (Input op) (Output op) = Ret (ok, st) ∧ updates m k st m'.
Proof.
  intros Hk E. pose proof (map_Step_spec m op k Hk) as H. rewrite E in H.
  destruct (kv_Step _ _ _) as [[b st]| |]; [|done..]. destruct H as [-> ?]. by exists st.
Qed.

Lemma value_map_Step m op k ok st : kv_key op = Some k → kv_Step (at_key m k) (Input op) (Output op) = Ret (ok, st) →
  ∃ m', map_Step m (Input op) (Output op) = Ret (ok, m') ∧ updates m k st m'.
Proof.
  intros Hk E. pose proof (map_Step_spec m op k Hk) as H. rewrite E in H.
  destruct (map_Step _ _ _) as [[b m']| |]; [|done..]. destruct H as [-> ?]. by exists m'.
Qed.

Lemma on_key_cons k op hist :
  on_key k (op :: hist) = if decide (kv_key op = Some k) then op :: on_key k hist else on_key k hist.
Proof. unfold on_key. by rewrite filter_cons. Qed.

Lemma replays_project m σ k : Forall (λ op, is_Some (kv_key op)) σ →
  replays KvMap m σ → replays KvModel (at_key m k) (on_key k σ).
Proof.
  revert m. induction σ as [|op σ IH]; intros m; [done|].
  intros [[k' Hk'] Hall]%Forall_cons (m' & Hst & Hr). simpl in Hst.
  apply (map_Step_value _ _ k') in Hst as (st & Hst & Hu & Hother); [|done].
  specialize (IH _ Hall Hr). rewrite on_key_cons. case_decide as E.
  - simplify_eq. by exists (at_key m' k').
  - rewrite Hother in IH by congruence. done.
Qed.

Lemma ordered_sublist {Val} (σ σ' : list (Operation Val)) : sublist σ' σ → ordered σ → ordered σ'.
Proof.
  induction 1 as [|x l1 l2 Hs IH|x l1 l2 Hs IH]; intros Ho; [done|..];
    apply StronglySorted_inv in Ho as [Ho Hall]; [|auto].
  constructor; [by apply IH|]. apply Forall_forall. intros y Hy.
  rewrite Forall_forall in Hall. apply Hall. by eapply elem_of_sublist.
Qed.

(** The operation that returns first. *)
Lemma first_return hist : hist ≠ [] → ∃ d, d ∈ hist ∧ ∀ b, b ∈ hist → Return d ≤ Return b.
Proof.
  induction hist as [|op hist IH]; [done|]. intros _.
  destruct (decide (hist = [])) as [->|Hne].
  { exists op. split; [left|]. by intros b ->%list_elem_of_singleton. }
  destruct (IH Hne) as (d & Hd & Hmin). destruct (decide (Return op ≤ Return d)).
  - exists op. split; [left|]. intros b [->|Hb]%elem_of_cons; [done|]. specialize (Hmin b Hb). lia.
  - exists d. split; [by right|]. intros b [->|Hb]%elem_of_cons; [lia|auto].
Qed.

(** A choice for finitely many keys, and a default for the others. *)
Lemma finite_choice {A} (keys : list string) (P : string → A → Prop) (d : A) :
  (∀ k, k ∈ keys → ∃ a, P k a) → (∀ k, k ∉ keys → P k d) → ∃ f, ∀ k, P k (f k).
Proof.
  revert P. induction keys as [|k keys IH]; intros P Hin Hout.
  { exists (λ _, d). intros k. apply Hout. by apply not_elem_of_nil. }
  destruct (Hin k) as [a Ha]; [left|].
  destruct (IH (λ k' x, if decide (k' = k) then P k' a else P k' x)) as [f Hf].
  - intros k' Hk'. destruct (decide (k' = k)) as [->|]; [by exists a|]. apply Hin. by right.
  - intros k' Hk'. destruct (decide (k' = k)) as [->|]; [done|]. apply Hout.
    by apply not_elem_of_cons.
  - exists (λ k', if decide (k' = k) then a else f k'). intros k'. specialize (Hf k').
    by case_decide.
Qed.

(** Merge: the operation to place next is the first one on the key of the
    operation that returns first. *)
Lemma merge hist m (lin : string → list (Operation kvalue)) :
  timed hist → Forall (λ op, is_Some (kv_key op)) hist →
  (∀ k, lin k ≡ₚ on_key k hist ∧ replays KvModel (at_key m k) (lin k) ∧ ordered (lin k)) →
  ∃ σ, σ ≡ₚ hist ∧ replays KvMap m σ ∧ ordered σ.
Proof.
  remember (length hist) as n eqn:En. revert hist m lin En.
  induction n as [|n IH]; intros hist m lin En Ht Hall Hlin.
  { symmetry in En. apply nil_length_inv in En as ->. exists []. split_and!; [done|done|constructor]. }
  destruct (first_return hist) as (d & Hd & Hmin); [by intros ->|].
  pose proof Hall as Hall'. rewrite Forall_forall in Hall'. destruct (Hall' d Hd) as [k Hk].
  destruct (Hlin k) as (Hp & Hr & Ho).
  assert (d ∈ lin k) as Hdk by (rewrite Hp; by apply list_elem_of_filter).
  destruct (lin k) as [|c l] eqn:El; [by apply not_elem_of_nil in Hdk|].
  destruct Hr as (st & Hst & Hr). apply StronglySorted_inv in Ho as [Ho Hc].
  assert (c ∈ on_key k hist) as [Hck Hcin]%list_elem_of_filter by (rewrite <-Hp; left).
  apply elem_of_Permutation in Hcin as [hist' Hh]. rewrite Hh in En. simpl in En.
  assert (Call c ≤ Return d) as Hcd.
  { apply elem_of_cons in Hdk as [->|Hdl].
    - assert (Call c < Return c); [|lia]. apply Ht. rewrite Hh. left.
    - rewrite Forall_forall in Hc. specialize (Hc d Hdl). unfold respects in Hc. lia. }
  destruct (value_map_Step _ _ _ _ _ Hck Hst) as (m' & Hm & Hu & Hother).
  destruct (IH hist' m' (λ k', if decide (k' = k) then l else lin k')) as (σ & Hσ & Hrσ & Hoσ).
  - lia.
  - intros op Hop. apply Ht. rewrite Hh. by right.
  - rewrite Hh in Hall. by apply Forall_cons in Hall as [_ ?].
  - intros k'. unfold on_key. destruct (decide (k' = k)) as [->|Hne].
    + rewrite Hu. split_and!; [|done..].
      apply (Permutation_cons_inv (a := c)). rewrite Hp. unfold on_key.
      by rewrite Hh, filter_cons_True.
    + rewrite Hother by done. destruct (Hlin k') as (Hp' & ? & ?). split_and!; [|done..].
      rewrite Hp'. unfold on_key. rewrite Hh, filter_cons_False by congruence. done.
  - exists (c :: σ). split_and!; [by rewrite Hσ| |].
    + by exists m'.
    + constructor; [done|]. apply Forall_forall. intros b Hb. unfold respects.
      assert (Return d ≤ Return b); [|lia]. apply Hmin. rewrite Hh. right. by rewrite <-Hσ.
Qed.

Lemma kv_local hist : timed hist → Forall (λ op, is_Some (kv_key op)) hist →
  ops_linearizable KvMap hist ↔ ∀ k, ops_linearizable KvModel (on_key k hist).
Proof.
  intros Ht Hall. assert (∀ k, timed (on_key k hist)) as Htk.
  { intros k op [_ Hop]%list_elem_of_filter. by apply Ht. }
  rewrite ops_linearizable_list by done. split.
  - intros (σ & Hp & Hr & Ho) k. apply ops_linearizable_list; [done|]. exists (on_key k σ).
    split_and!; [unfold on_key; by rewrite Hp| |by eapply ordered_sublist, Ho; apply sublist_filter].
    change (Init KvModel) with (default "" ((∅ : gmap string string) !! k)).
    apply replays_project; [by rewrite Hp|done].
  - intros Hlin.
    destruct (finite_choice (omap kv_key hist) (λ k σ, σ ≡ₚ on_key k hist ∧
      replays KvModel "" σ ∧ ordered σ) []) as [lin Hl].
    + intros k _. by apply ops_linearizable_list.
    + intros k Hk. assert (on_key k hist = []) as ->.
      { apply filter_nil_iff. intros op Hop E. apply Hk, list_elem_of_omap. by exists op. }
      split_and!; [done|done|constructor].
    + apply (merge hist ∅ lin); [done|done|]. intros k. by rewrite lookup_empty.
Qed.
End locality.
