(* ===== verification/CheckerProof.v ===== *)
(** Correctness of [checkParallel]: its verdicts, that it returns, and the
    partial linearizations it reports. *)
From Stdlib Require Import ZArith Lia.
From stdpp Require Import base gmap sets list.
From S2P Require Import Prelude Bitset Model Entries Nodes History Search SearchProof Checker.

(** What the checker needs of one partition's entries. *)
Record wf_entries {Val State} (M : Model Val State) (es : list (entry Val)) : Prop := {
  wf_balanced : balanced es;
  wf_ids e : e ∈ es → 0 ≤ id e < Z.of_nat (List.length es) / 2;
  wf_fit : Z.of_nat (List.length es) < 2 ^ 64;
  wf_step i v w s : io es i v w → ∃ b s', Step M s v w = Ret (b, s')
}.

Section parallel.
Context {Val State : Type} (M : Model Val State) (eqf : State → State → bool).
Context (fuel : nat) (nilV : Val) (env : environment).
Context (history : list (list (entry Val))).
Hypothesis Heq : Equal M = Some eqf.
Context `{!EqualCompat M eqf}.
Hypothesis Hwf : ∀ es, es ∈ history → wf_entries M es.
Hypothesis Hfuel : ∀ es, es ∈ history → (search_fuel es ≤ fuel)%nat.

Abbreviation len := (List.length history).

Lemma run_spec i es cp kill : history !! i = Some es →
  ∃ b lg sq, run fuel nilV M history cp i kill = Ret (b, (lg, sq)) ∧ outcome_ok M es kill b lg sq.
Proof.
  intros Ei. assert (es ∈ history) as Hin by (by eapply list_elem_of_lookup_2).
  destruct (Hwf _ Hin) as [Hb Hi Hf Hs]. unfold run.
  assert (history.[Z.of_nat i] = Ret es) as ->.
  { apply go_index_ret. rewrite Nat2Z.id. split; [lia|done]. }
  eapply checkSingle_spec; try done; [|by apply Hfuel].
  intros c r s E. eapply Hs. by exists c, r.
Qed.

Lemma outcome_linearizable es b lg sq : es ∈ history →
  outcome_ok M es no_kill b lg sq → b = true ↔ linearizable M es.
Proof.
  intros Hin (_ & Ht & Hf). destruct (Hwf _ Hin) as [Hb _ _ _].
  rewrite linearizable_completable by done. split.
  - intros ->. destruct Ht as (π & s' & _ & Hr & _); [done|]. by exists π, s'.
  - intros Hc. destruct b; [done|]. destruct Hf as [Hd|[it Hk]]; [done| |done].
    exfalso. apply Hd. rewrite remc_empty. by rewrite cells_snd.
Qed.

Lemma run_linearizable i es cp : history !! i = Some es →
  ∃ b l, run fuel nilV M history cp i no_kill = Ret (b, l) ∧ (b = true ↔ linearizable M es).
Proof.
  intros Ei. destruct (run_spec i es cp no_kill Ei) as (b & lg & sq & E & Ho).
  exists b, (lg, sq). split; [done|]. eapply outcome_linearizable; [|done].
  by eapply list_elem_of_lookup_2.
Qed.

(** ** The verdict *)

(** The loop's variables reflect the results received so far. *)
Record sound (st : pstate) : Prop := {
  snd_count : p_count st = List.length (p_received st);
  snd_nodup : NoDup (p_received st);
  snd_range i : i ∈ p_received st → (i < len)%nat;
  snd_ok : p_ok st = true →
    ∀ i es, i ∈ p_received st → history !! i = Some es → linearizable M es;
  snd_ko : p_ok st = false → ∃ es, es ∈ history ∧ ¬ linearizable M es
}.

Lemma sound_init : sound (mkPState 0 true false []).
Proof.
  split; simpl; [done|apply NoDup_nil_2|by intros ? ?%not_elem_of_nil| |done].
  by intros _ ? ? ?%not_elem_of_nil.
Qed.

Lemma sound_receive st i es b :
  sound st → history !! i = Some es → i ∉ p_received st → (b = true ↔ linearizable M es) →
  sound (mkPState (S (p_count st)) (p_ok st && b) (p_timedOut st) (p_received st ++ [i])).
Proof.
  intros [Hc Hnd Hr Hok Hko] Ei Hi Hb. split; simpl.
  - rewrite length_app, Hc. simpl. lia.
  - apply NoDup_app. split_and!; [done| |apply NoDup_singleton].
    intros j Hj ->%list_elem_of_singleton. done.
  - intros j [Hj| ->%list_elem_of_singleton]%elem_of_app; [by apply Hr|].
    by eapply lookup_lt_Some.
  - intros [H1 H2]%andb_true_iff j es' [Hj| ->%list_elem_of_singleton]%elem_of_app Ej;
      [by eapply Hok|]. simplify_eq. by apply Hb.
  - intros [H1|H1]%andb_false_iff; [by apply Hko|]. exists es.
    split; [by eapply list_elem_of_lookup_2|]. intros Hl%Hb. congruence.
Qed.

(** How the loop ends. *)
Definition loop_exit (computeInfo : bool) (timeout : Z) (st : pstate) : Prop :=
  sound st ∧
  ((p_timedOut st = true ∧ 0 < timeout) ∨
   (p_timedOut st = false ∧ p_ok st = false ∧ computeInfo = false) ∨
   (p_timedOut st = false ∧ (len ≤ p_count st)%nat)).

Lemma select_loop_exit cp timeout events st st' :
  sound st → p_timedOut st = false →
  select_loop fuel nilV M history cp timeout events st = Ret st' → loop_exit cp timeout st'.
Proof.
  revert st. induction events as [|[i|] events IH]; intros st Hs Ht; simpl; [done|..].
  - case_decide as Hi; [|done]. destruct Hi as [Hi Hnew].
    destruct (lookup_lt_is_Some_2 history i Hi) as [es Ei].
    destruct (run_linearizable i es cp Ei) as (b & l & -> & Hb). simpl.
    pose proof (sound_receive st i es b Hs Ei Hnew Hb) as Hs'.
    destruct (negb (p_ok st && b) && negb cp) eqn:E.
    { intros [= <-]. split; [done|]. right. left. simpl.
      apply andb_true_iff in E as [E1%negb_true_iff E2%negb_true_iff]. done. }
    case_decide; [|by apply IH]. intros [= <-]. split; [done|]. right. right. done.
  - case_decide; [|done]. intros [= <-]. destruct Hs. split; [done|]. left. done.
Qed.

Lemma sound_all st i : sound st → (len ≤ p_count st)%nat → (i < len)%nat → i ∈ p_received st.
Proof.
  intros [Hc Hnd Hr _ _] Hl Hi.
  assert (p_received st ≡ₚ seq 0 len) as ->; [|apply elem_of_seq; lia].
  apply submseteq_length_Permutation; [|rewrite length_seq; lia].
  apply NoDup_submseteq; [done|]. intros j Hj. apply elem_of_seq. apply Hr in Hj. lia.
Qed.

Lemma exit_verdict cp timeout st : loop_exit cp timeout st →
  match check_result st with
  | Ok => ∀ es, es ∈ history → linearizable M es
  | Illegal => ∃ es, es ∈ history ∧ ¬ linearizable M es
  | Unknown => 0 < timeout
  end.
Proof.
  intros [Hs Hx]. pose proof Hs as [Hc Hnd Hr Hok Hko]. unfold check_result.
  destruct (p_ok st) eqn:Eok; simpl; [|by apply Hko].
  destruct Hx as [[-> ?]|[(_ & [=] & _)|[-> Hl]]]; [done|].
  intros es [i Ei]%list_elem_of_lookup. eapply Hok; [done| |done].
  eapply sound_all; [done..|]. by eapply lookup_lt_Some.
Qed.

(** ** Returning *)

(** The rest of a schedule that delivers every result. *)
Lemma select_loop_complete cp timeout (order : list nat) st :
  p_received st ++ order ≡ₚ seq 0 len → p_count st = List.length (p_received st) →
  order ≠ [] →
  ∃ st', select_loop fuel nilV M history cp timeout (SelResult <$> order) st = Ret st'.
Proof.
  revert st. induction order as [|i order IH]; intros st Hp Hc Hne; [done|]. csimpl.
  assert (NoDup (p_received st ++ i :: order)) as Hnd by (rewrite Hp; apply NoDup_seq).
  assert ((i < len)%nat ∧ i ∉ p_received st) as [Hi Hnew].
  { split.
    - assert (i ∈ seq 0 len) as Hin; [rewrite <-Hp|apply elem_of_seq in Hin; lia].
      apply elem_of_app. right. left.
    - intros Hin. by eapply (NoDup_app_ne _ _ i i Hnd); [|left|]. }
  rewrite decide_True by done.
  destruct (lookup_lt_is_Some_2 history i Hi) as [es Ei].
  destruct (run_linearizable i es cp Ei) as (b & l & -> & _). simpl.
  case_match; [by eexists|]. case_decide as Hl; [by eexists|].
  apply Permutation_length in Hp as Hlen. rewrite length_app, length_seq in Hlen. simpl in Hlen.
  apply IH; simpl; [by rewrite <-(assoc_L (++))|rewrite length_app; simpl; lia|].
  intros ->. simpl in *. lia.
Qed.

(** ** The reported partial linearizations *)

Definition partials_ok es (ps : list (list Z)) : Prop := Forall (valid_partial M es) ps ∧ [] ∉ ps.

Hypothesis Hptr : RangeOrder (ptr_order env).

Lemma collect_partials_spec es lg sq : partial_ok M es lg sq →
  ∃ ps, collect_partials env (lg, sq) = Ret ps ∧ partials_ok es ps ∧
    (∀ i p seq, lg !! i = Some (Some p) → sq !! p = Some seq → seq ∈ ps) ∧
    (∀ seq, seq ∈ ps → ∃ i p, lg !! i = Some (Some p) ∧ sq !! p = Some seq).
Proof.
  intros [_ Hp]. unfold collect_partials.
  set (ptrs := ptr_order env (remove_dups (omap (λ v, v) lg))).
  assert (∀ p, p ∈ ptrs ↔ ∃ i, lg !! i = Some (Some p)) as Hptrs.
  { intros p. unfold ptrs. rewrite (range_perm _), elem_of_remove_dups, list_elem_of_omap.
    setoid_rewrite list_elem_of_lookup. naive_solver. }
  destruct (foldM_inv (λ (partials : list (list Z)) k, arr ← nonnil (sq !! k); Ret (partials ++ [arr]))
    (λ done ps, (∀ p seq, p ∈ done → sq !! p = Some seq → seq ∈ ps) ∧
      (∀ seq, seq ∈ ps → ∃ p, p ∈ done ∧ sq !! p = Some seq)) [] ptrs)
    as (ps & E & H1 & H2).
  - split; [by intros ? ? ?%not_elem_of_nil|by intros ? ?%not_elem_of_nil].
  - intros l1 p l2 ps E [H1 H2]. assert (p ∈ ptrs) as Hin by (rewrite E; set_solver).
    apply Hptrs in Hin as [i Hi]. destruct (Hp i p Hi) as (seq & Es & _). rewrite Es. simpl.
    eexists. split; [done|]. split.
    + intros q seq' [Hq| ->%list_elem_of_singleton]%elem_of_app Eq; apply elem_of_app;
        [left; by eapply H1|]. right. simplify_eq. by apply list_elem_of_singleton.
    + intros seq' [Hq| ->%list_elem_of_singleton]%elem_of_app.
      * destruct (H2 _ Hq) as (q & ? & ?). exists q. split; [|done]. apply elem_of_app. by left.
      * exists p. split; [|done]. apply elem_of_app. right. by apply list_elem_of_singleton.
  - exists ps. split; [done|]. split_and!.
    + split; [apply Forall_forall; intros seq|]; intros (p & [i Hi]%Hptrs & Es)%H2;
        destruct (Hp i p Hi) as (seq' & Eseq & Hin & ?); simplify_eq; [done|]. by apply not_elem_of_nil in Hin.
    + intros i p seq Hi Es. eapply H1; [|done]. apply Hptrs. by exists i.
    + intros seq (p & [i Hi]%Hptrs & Es)%H2. by exists i, p.
Qed.

(** Goroutine [i]'s contribution to [partialLinearizations]. *)
Lemma goroutine_partials st i es : history !! i = Some es →
  ∃ l ps, goroutine_longest fuel nilV env M history st i = Ret l ∧
    collect_partials env l = Ret ps ∧ partials_ok es ps ∧
    (i ∈ p_received st → linearizable M es → es ≠ [] →
     ∃ π s, ps = [π] ∧ runs M es (Init M) π [] s).
Proof.
  intros Ei. unfold goroutine_longest. set (kill := if decide _ then no_kill else _).
  destruct (run_spec i es true kill Ei) as (b & lg & sq & -> & Ho). simpl.
  pose proof Ho as (Hpo & Ht & _). destruct (collect_partials_spec es lg sq Hpo) as (ps & E & Hok & H1 & H2).
  exists (lg, sq), ps. split_and!; [done..|]. intros Hr Hl Hne.
  assert (kill = no_kill) as Hk by (unfold kill; by destruct (decide (i ∈ p_received st))). rewrite Hk in Ho.
  assert (es ∈ history) as Hin by (by eapply list_elem_of_lookup_2).
  destruct (Ht (proj2 (outcome_linearizable es b lg sq Hin Ho) Hl)) as (π & s & p & Hruns & -> & Ep).
  exists π, s. split; [|done].
  assert (Z.to_nat (Z.of_nat (List.length es) / 2) ≠ 0%nat) as Hn0.
  { destruct (Hwf _ Hin) as [Hb _ _ _]. rewrite (balanced_length _ Hb), Nat2Z.inj_mul, Z.mul_comm, Z.div_mul by done.
    rewrite Nat2Z.id. intros E0. apply Hne. apply nil_length_inv. rewrite (balanced_length _ Hb). lia. }
  unfold collect_partials in E.
  assert (ptr_order env (remove_dups (omap (λ v, v) (replicate (Z.to_nat (Z.of_nat (List.length es) / 2)) (Some p)))) = [p]) as Eo.
  { destruct (Z.to_nat _) as [|k]; [done|]. apply Permutation_singleton_r. rewrite (range_perm _).
    clear. induction k as [|k IH]; [done|]. simpl in *.
    destruct (decide_rel elem_of p (p :: _)) as [_|Hn]; [exact IH|]. destruct Hn. left. }
  rewrite Eo in E. simpl in E. rewrite Ep in E. simpl in E. by injection E.
Qed.

(** The report names, for each partition, valid partial linearizations; for
    a linearizable partition whose goroutine was not interrupted, the
    complete one it found. *)
Definition info_ok (st : pstate) (info : linearizationInfo Val) : Prop :=
  li_history info = history ∧
  List.length (partialLinearizations info) = len ∧
  ∀ i es, history !! i = Some es → ∃ ps,
    partialLinearizations info !! i = Some ps ∧ partials_ok es ps ∧
    (i ∈ p_received st → linearizable M es → es ≠ [] →
     ∃ π s, ps = [π] ∧ runs M es (Init M) π [] s).

Lemma compute_info_spec st :
  ∃ info, compute_info fuel nilV env M history st = Ret info ∧ info_ok st info.
Proof.
  unfold compute_info. set (body := λ (acc : list (list (list Z))) i, _).
  destruct (foldM_inv body (λ done acc, List.length acc = List.length done ∧
    ∀ i es, i ∈ done → history !! i = Some es → ∃ ps,
      acc !! i = Some ps ∧ partials_ok es ps ∧
      (i ∈ p_received st → linearizable M es → es ≠ [] →
        ∃ π s, ps = [π] ∧ runs M es (Init M) π [] s)) [] (seq 0 len)) as (acc & E & Hlen & Hacc).
  - split; [done|]. by intros ? ? ?%not_elem_of_nil.
  - intros l1 i l2 acc E [Hlen Hacc].
    assert (i = List.length l1 ∧ (i < len)%nat) as [Hi Hlt].
    { assert (seq 0 len !! List.length l1 = Some i) as Hs by (rewrite E; by apply list_lookup_middle).
      apply lookup_seq in Hs. lia. }
    destruct (lookup_lt_is_Some_2 history i Hlt) as [es Ei].
    destruct (goroutine_partials st i es Ei) as (l & ps & E1 & E2 & Hps & Hlin).
    unfold body. rewrite E1. cbn [mbind result_bind]. rewrite E2. cbn [mbind result_bind].
    eexists. split; [done|]. split; [rewrite !length_app; simpl; lia|].
    intros j es' [Hj| ->%list_elem_of_singleton]%elem_of_app Ej.
    + destruct (Hacc j es' Hj Ej) as (ps' & E' & ?). exists ps'. split; [|done].
      by apply lookup_app_l_Some.
    + simplify_eq. exists ps. split; [|done]. rewrite <-Hlen. by apply list_lookup_middle.
  - rewrite E. simpl. eexists. split; [done|]. split_and!; [done|simpl; by rewrite Hlen, length_seq|].
    intros i es Ei. simpl. apply Hacc; [|done]. apply elem_of_seq. apply lookup_lt_Some in Ei. lia.
Qed.
End parallel.
