(* ===== verification/Verdicts.v ===== *)
(** What the entry points of porcupine.go promise: their answer is
    linearizability of the operation or event history they are given. *)
From Stdlib Require Import ZArith Lia.
From stdpp Require Import base gmap sets list strings sorting.
From S2P Require Import Prelude Bitset Model Entries KvModel Nodes History Search SearchProof Checker.
From S2P Require Import Operations Events Locality CheckerProof.

(** ** Models and environments the guarantees are for *)

(** [state1 == state2] is a sound cache test for every model. *)
#[export] Instance ShallowEqual_compat `{EqDecision State} {Val} (M : Model Val State) :
  EqualCompat M ShallowEqual.
Proof. intros s t v w s' <-%bool_decide_eq_true Hs. exists s'. split; [done|]. by apply bool_decide_eq_true. Qed.

(** The user's [Equal], when there is one, respects the user's [Step]. *)
Class GoodEqual {Val State} (M : Model Val State) : Prop :=
  good_equal eqf : Equal M = Some eqf → EqualCompat M eqf.

Lemma fillDefault_compat `{EqDecision State, Format Val, Format State} (M : Model Val State) :
  GoodEqual M → EqualCompat (fillDefault M) (default ShallowEqual (Equal M)).
Proof.
  intros HG. destruct (Equal M) as [eqf|] eqn:E; simpl; [|apply ShallowEqual_compat].
  intros s t v w s'. by apply (HG eqf).
Qed.

(** Every goroutine's result is eventually taken, and no timer fires. *)
Definition delivers (env : environment) (len : nat) : Prop :=
  ∃ order, sched env = SelResult <$> order ∧ order ≡ₚ seq 0 len.

Section parallel.
Context {Val State : Type} (M : Model Val State) (eqf : State → State → bool).
Context (fuel : nat) (nilV : Val) (env : environment) (history : list (list (entry Val))).
Hypothesis Heq : Equal M = Some eqf.
Context `{!EqualCompat M eqf}.
Hypothesis Hwf : ∀ es, es ∈ history → wf_entries M es.
Hypothesis Hfuel : ∀ es, es ∈ history → (search_fuel es ≤ fuel)%nat.

Lemma checkParallel_sound cp timeout res info :
  checkParallel fuel nilV env M history cp timeout = Ret (res, info) →
  match res with
  | Ok => ∀ es, es ∈ history → linearizable M es
  | Illegal => ∃ es, es ∈ history ∧ ¬ linearizable M es
  | Unknown => 0 < timeout
  end.
Proof.
  intros H. unfold checkParallel in H. apply bind_ret_inv in H as (st & Est & H).
  apply bind_ret_inv in H as (i & _ & [= <- _]).
  eapply (exit_verdict M history), select_loop_exit; [done..|apply sound_init|done|done].
Qed.

(** Without [SelTimeout] the loop cannot time out. *)
Lemma select_loop_results cp timeout order st st' : p_timedOut st = false →
  select_loop fuel nilV M history cp timeout (SelResult <$> order) st = Ret st' →
  p_timedOut st' = false.
Proof.
  revert st. induction order as [|i order IH]; intros st H0; csimpl; [done|].
  case_decide; [|done]. intros E. apply bind_ret_inv in E as ([b l] & _ & E).
  revert E. case_match; [by intros [= <-]|]. case_decide; [by intros [= <-]|]. by apply IH.
Qed.

Lemma checkParallel_returns cp timeout : RangeOrder (ptr_order env) →
  history ≠ [] → delivers env (List.length history) →
  ∃ res info, checkParallel fuel nilV env M history cp timeout = Ret (res, info) ∧
    (res = Ok ∧ (∀ es, es ∈ history → linearizable M es) ∨
     res = Illegal ∧ ∃ es, es ∈ history ∧ ¬ linearizable M es) ∧
    (cp = true → ∃ st, (∀ i, (i < List.length history)%nat → i ∈ p_received st) ∧
       info_ok M history st info).
Proof.
  intros Hptr Hne (order & Hs & Hp).
  destruct (select_loop_complete M eqf fuel nilV history Heq Hwf Hfuel cp timeout order
    (mkPState 0 true false [])) as [st E]; [done|done| |].
  { intros ->. apply Hne, nil_length_inv. by rewrite <-(length_seq (List.length history) 0), <-Hp. }
  pose proof (select_loop_results cp timeout order _ _ (eq_refl false : p_timedOut (mkPState 0 true false []) = false) E) as Hto.
  assert (loop_exit M history cp timeout st) as Hx by
    (eapply select_loop_exit; [done..|apply sound_init|done|done]).
  destruct (compute_info_spec M eqf fuel nilV env history Heq Hwf Hfuel Hptr st) as (info & Einfo & Hinfo).
  exists (check_result st), (if cp then info else mkInfo [] []). unfold checkParallel.
  rewrite Hs, E. cbn [mbind result_bind]. split_and!.
  - by destruct cp; [rewrite Einfo|].
  - pose proof (exit_verdict M history cp timeout st Hx) as Hv. unfold check_result in *.
    rewrite Hto in *. destruct (p_ok st); simpl in *; [by left|by right].
  - intros ->. exists st. split; [|done]. intros i Hi. destruct Hx as [Hsnd Hx].
    eapply sound_all; [done| |done]. destruct Hx as [[Hx _]|[(_ & _ & [=])|[_ Hx]]]; [congruence|done].
Qed.
End parallel.

(** ** Operation histories *)

Section operations.
Context {Val State : Type} `{EqDecision State, Format Val, Format State}.
Context (M : Model Val State) (fuel : nat) (nilV : Val) (env : environment).
Context (sort : list (entry Val) → list (entry Val)).

(** What the checker needs of one partition of an operation history. *)
Record good_part (p : list (Operation Val)) : Prop := {
  gp_timed : timed p;
  gp_fit : Z.of_nat (List.length p) < 2 ^ 63;
  gp_step op s : op ∈ p → ∃ b s', Step M s (Input op) (Output op) = Ret (b, s');
  gp_fuel : (search_fuel (makeEntries sort p) ≤ fuel)%nat
}.

Definition partition_of (history : list (Operation Val)) : result (list (list (Operation Val))) :=
  default NoPartition (Partition M) history.

Context `{!SortsBy byTime_Less sort, !GoodEqual M}.

Lemma good_part_wf p : good_part p → wf_entries (fillDefault M) (makeEntries sort p).
Proof.
  intros [Ht Hf Hs _]. split.
  - by apply entries_balanced.
  - intros e. by apply entries_ids.
  - rewrite length_entries by done. lia.
  - intros i v w s (op & Hop & <- & <-)%entries_io; [|done..]. by eapply Hs, go_index_elem.
Qed.

Lemma checkOperations_unfold history parts verbose timeout :
  partition_of history = Ret parts →
  checkOperations fuel nilV env sort M history verbose timeout =
  checkParallel fuel nilV env (fillDefault M) (makeEntries sort <$> parts) verbose timeout.
Proof. intros E. unfold checkOperations. simpl. unfold partition_of in E. by rewrite E. Qed.

Context (parts : list (list (Operation Val))).
Hypothesis Hgood : ∀ p, p ∈ parts → good_part p.

Lemma parts_wf es : es ∈ makeEntries sort <$> parts → wf_entries (fillDefault M) es.
Proof. intros (p & -> & Hp)%list_elem_of_fmap. by apply good_part_wf, Hgood. Qed.
Lemma parts_fuel es : es ∈ makeEntries sort <$> parts → (search_fuel es ≤ fuel)%nat.
Proof. intros (p & -> & Hp)%list_elem_of_fmap. by apply Hgood. Qed.

Lemma parts_linearizable : (∀ es, es ∈ makeEntries sort <$> parts → linearizable (fillDefault M) es) →
  ∀ p, p ∈ parts → ops_linearizable M p.
Proof.
  intros Hl p Hp. change (ops_linearizable (fillDefault M) p).
  apply (entries_linearizable_sound _ sort); [by apply Hgood|]. apply Hl.
  by apply list_elem_of_fmap_2.
Qed.

Lemma parts_illegal : (∃ es, es ∈ makeEntries sort <$> parts ∧ ¬ linearizable (fillDefault M) es) →
  (∀ p, p ∈ parts → untied p) → ∃ p, p ∈ parts ∧ ¬ ops_linearizable M p.
Proof.
  intros (es & (p & -> & Hp)%list_elem_of_fmap & Hn) Hu. exists p. split; [done|]. intros Hl.
  apply Hn, entries_linearizable_complete; [done|by apply Hgood|by apply Hu|done].
Qed.

Abbreviation compat := (fillDefault_compat M _).

(** Whatever the schedule, an answer means what it says. *)
Lemma checkOperations_sound history verbose timeout res info :
  partition_of history = Ret parts →
  checkOperations fuel nilV env sort M history verbose timeout = Ret (res, info) →
  match res with
  | Ok => ∀ p, p ∈ parts → ops_linearizable M p
  | Illegal => (∀ p, p ∈ parts → untied p) → ∃ p, p ∈ parts ∧ ¬ ops_linearizable M p
  | Unknown => 0 < timeout
  end.
Proof.
  intros Ep. rewrite (checkOperations_unfold _ _ _ _ Ep). intros E.
  pose proof compat as Hc.
  eapply checkParallel_sound in E; [|reflexivity|done|apply parts_wf|apply parts_fuel].
  destruct res; [done|by apply parts_linearizable|]. intros Hu. by apply parts_illegal.
Qed.

Lemma checkOperations_returns history verbose timeout : RangeOrder (ptr_order env) →
  partition_of history = Ret parts → parts ≠ [] → delivers env (List.length parts) →
  ∃ res info, checkOperations fuel nilV env sort M history verbose timeout = Ret (res, info) ∧
    (res = Ok ∨ res = Illegal) ∧
    (verbose = true → ∃ st, (∀ i, (i < List.length parts)%nat → i ∈ p_received st) ∧
       info_ok (fillDefault M) (makeEntries sort <$> parts) st info).
Proof.
  intros Hptr Ep Hne Hd. rewrite (checkOperations_unfold _ _ _ _ Ep). pose proof compat as Hc.
  destruct (checkParallel_returns (fillDefault M) _ fuel nilV env (makeEntries sort <$> parts) eq_refl
    parts_wf parts_fuel verbose timeout Hptr) as (res & info & E & Hres & Hinfo).
  - by destruct parts.
  - by rewrite length_fmap.
  - exists res, info. split_and!; [done| |].
    + destruct Hres as [[-> _]|[-> _]]; [by left|by right].
    + intros Hv. destruct (Hinfo Hv) as (st & Hst & ?). exists st. split; [|done].
      rewrite length_fmap in Hst. done.
Qed.

(** Whatever a verbose check reports, at any timeout, is sound. *)
Lemma verbose_info history timeout res info : RangeOrder (ptr_order env) →
  partition_of history = Ret parts →
  checkOperations fuel nilV env sort M history true timeout = Ret (res, info) →
  ∃ st, info_ok (fillDefault M) (makeEntries sort <$> parts) st info.
Proof.
  intros Hptr Ep. rewrite (checkOperations_unfold _ _ _ _ Ep). intros E. pose proof compat as Hc.
  unfold checkParallel in E. apply bind_ret_inv in E as (st & Est & E).
  apply bind_ret_inv in E as (i & Ei & [= _ <-]). exists st.
  destruct (compute_info_spec (fillDefault M) _ fuel nilV env (makeEntries sort <$> parts) eq_refl
    parts_wf parts_fuel Hptr st) as (i' & Ei' & Hi). rewrite Ei' in Ei. by injection Ei as <-.
Qed.

Lemma CheckOperations_spec history : RangeOrder (ptr_order env) →
  partition_of history = Ret parts → parts ≠ [] → delivers env (List.length parts) →
  ∃ b, CheckOperations fuel nilV env sort M history = Ret b ∧
    (b = true → ∀ p, p ∈ parts → ops_linearizable M p) ∧
    ((∀ p, p ∈ parts → untied p) → (∀ p, p ∈ parts → ops_linearizable M p) → b = true).
Proof.
  intros Hptr Ep Hne Hd. unfold CheckOperations.
  destruct (checkOperations_returns history false 0 Hptr Ep Hne Hd) as (res & info & E & Hres & _).
  pose proof (checkOperations_sound _ _ _ _ _ Ep E) as Hs. rewrite E. simpl.
  eexists. split; [done|]. destruct Hres as [-> | ->]; simpl.
  - split; [by intros _|done].
  - split; [done|]. intros Hu Hl. destruct (Hs Hu) as (p & Hp & Hn). by destruct (Hn (Hl p Hp)).
Qed.
End operations.

(** ** Event histories *)

Section events.
Context {Val State : Type} `{EqDecision State, Format Val, Format State}.
Context (M : Model Val State) (fuel : nat) (nilV : Val) (env : environment).
Context (sort : list (entry Val) → list (entry Val)).

(** What the checker needs of one partition of an event history: every
    operation's call event is followed by its return event. *)
Record good_events (p : list (Event Val)) : Prop := {
  ge_balanced : events_balanced p;
  ge_fit : Z.of_nat (List.length p) < 2 ^ 64;
  ge_step i v w s : io (convertEntries p) i v w → ∃ b s', Step M s v w = Ret (b, s');
  ge_fuel : (search_fuel (convertEntries (renumber p)) ≤ fuel)%nat
}.

Definition event_parts (history : list (Event Val)) : list (list (Event Val)) :=
  default NoPartitionEvent (PartitionEvent M) history.

Context `{!GoodEqual M}.

Lemma good_events_wf p : good_events p → wf_entries (fillDefault M) (convertEntries (renumber p)).
Proof.
  intros [Hb Hf Hs _]. split.
  - by apply renumber_balanced.
  - intros e. by apply renumber_ids.
  - by rewrite length_renumber.
  - intros i v w s [j Hio]%renumber_io. by eapply Hs.
Qed.

Lemma checkEvents_unfold history verbose timeout :
  checkEvents fuel nilV env M history verbose timeout =
  checkParallel fuel nilV env (fillDefault M)
    ((λ p, convertEntries (renumber p)) <$> event_parts history) verbose timeout.
Proof. done. Qed.

Context (history : list (Event Val)).
Hypothesis Hgood : ∀ p, p ∈ event_parts history → good_events p.
Abbreviation es_parts := ((λ p, convertEntries (renumber p)) <$> event_parts history).

Lemma event_parts_wf es : es ∈ es_parts → wf_entries (fillDefault M) es.
Proof. intros (p & -> & Hp)%list_elem_of_fmap. by apply good_events_wf, Hgood. Qed.
Lemma event_parts_fuel es : es ∈ es_parts → (search_fuel es ≤ fuel)%nat.
Proof. intros (p & -> & Hp)%list_elem_of_fmap. by apply Hgood. Qed.

Lemma event_parts_linearizable :
  (∀ es, es ∈ es_parts → linearizable (fillDefault M) es) ↔
  ∀ p, p ∈ event_parts history → events_linearizable M p.
Proof.
  split.
  - intros Hl p Hp. apply renumber_linearizable. apply (Hl (convertEntries (renumber p))).
    by apply (list_elem_of_fmap_2 (λ p, convertEntries (renumber p))).
  - intros Hl es (p & -> & Hp)%list_elem_of_fmap.
    change (linearizable M (convertEntries (renumber p))). by apply renumber_linearizable, Hl.
Qed.

Lemma checkEvents_sound verbose timeout res info :
  checkEvents fuel nilV env M history verbose timeout = Ret (res, info) →
  match res with
  | Ok => ∀ p, p ∈ event_parts history → events_linearizable M p
  | Illegal => ¬ ∀ p, p ∈ event_parts history → events_linearizable M p
  | Unknown => 0 < timeout
  end.
Proof.
  rewrite checkEvents_unfold. intros E. pose proof (fillDefault_compat M _) as Hc.
  eapply checkParallel_sound in E; [|reflexivity|done|apply event_parts_wf|apply event_parts_fuel].
  destruct res; [done|by apply event_parts_linearizable|].
  intros Hl. destruct E as (es & Hin & Hn). by apply Hn, event_parts_linearizable.
Qed.

Lemma CheckEvents_spec : RangeOrder (ptr_order env) →
  event_parts history ≠ [] → delivers env (List.length (event_parts history)) →
  ∃ b, CheckEvents fuel nilV env M history = Ret b ∧
    (b = true ↔ ∀ p, p ∈ event_parts history → events_linearizable M p).
Proof.
  intros Hptr Hne Hd. unfold CheckEvents. pose proof (fillDefault_compat M _) as Hc.
  destruct (checkParallel_returns (fillDefault M) _ fuel nilV env es_parts eq_refl
    event_parts_wf event_parts_fuel false 0 Hptr) as (res & info & E & Hres & _).
  - by destruct (event_parts history).
  - by rewrite length_fmap.
  - rewrite <-checkEvents_unfold in E. pose proof (checkEvents_sound _ _ _ _ E) as Hs.
    rewrite E. simpl. eexists. split; [done|]. destruct Hres as [[-> _]|[-> _]]; simpl in *; [done|].
    split; [done|]. intros Hl. by destruct Hs.
Qed.
End events.
