(* ===== verification/Visualization.v ===== *)
(** porcupine/visualization.go, [computeVisualizationData]: the data the HTML
    page is drawn from, and the proof that it can be computed from what the
    checker reports. *)
From Stdlib Require Import ZArith Lia.
From stdpp Require Import base gmap sets list strings sorting.
From S2P Require Import Prelude Model Entries History Search SearchProof Checker CheckerProof.

Record historyElement := mkHistoryElement {
  he_ClientId : Z;
  Start : Z;
  he_End : Z;
  Description : string
}.
Record linearizationStep := mkLinearizationStep { Index : Z; StateDescription : string }.
Abbreviation partialLinearization := (list linearizationStep).
Record partitionVisualizationData := mkPartitionData {
  History : list historyElement;
  PartialLinearizations : list partialLinearization;
  Largest : gmap Z Z
}.

(** [make([]historyElement, n)] holds zero values. *)
Definition zero_element : historyElement := mkHistoryElement 0 0 0 "".

Section visualization.
Context {Val State : Type} (nilV : Val).
Implicit Types (model : Model Val State) (h : list historyElement) (vals : gmap Z Val).

(** [model.DescribeOperation(call, ret)] *)
Definition describe model (v w : Val) : result string :=
  d ← nonnil (DescribeOperation model); d v w.

(** The [switch] on the entry's kind. *)
Definition element_step model (acc : list historyElement * gmap Z Val * gmap Z Val) (elem : entry Val)
    : result (list historyElement * gmap Z Val * gmap Z Val) :=
  let '(history, callValue, returnValue) := acc in
  cur ← history.[id elem];
  match kind elem with
  | callEntry =>
      history ← history.[id elem <- mkHistoryElement (clientId elem) (time elem) (he_End cur) (Description cur)];
      Ret (history, <[id elem := value elem]> callValue, returnValue)
  | returnEntry =>
      desc ← describe model (default nilV (callValue !! id elem)) (value elem);
      history ← history.[id elem <- mkHistoryElement (he_ClientId cur) (Start cur) (time elem) desc];
      Ret (history, callValue, <[id elem := value elem]> returnValue)
  end.

Definition history_elements model (es : list (entry Val))
    : result (list historyElement * gmap Z Val * gmap Z Val) :=
  let n := Z.quot (Z.of_nat (List.length es)) 2 in
  foldM (element_step model) (replicate (Z.to_nat n) zero_element, ∅, ∅) es.

(** The loop variables of the inner loop over one partial linearization. *)
Record vstate := mkVState {
  v_state : State;
  v_linearization : partialLinearization;
  largestSize : gmap Z Z;
  largestIndex : gmap Z Z
}.

Definition partial_step model (callValue returnValue : gmap Z Val) (i : Z) (len : Z)
    (st : vstate) (histId : Z) : result vstate :=
  '(ok, state) ← Step model (v_state st) (default nilV (callValue !! histId))
                   (default nilV (returnValue !! histId));
  if negb ok then
    Panic (Panicked "valid partial linearization returned non-ok result from model step")
  else
    describeState ← nonnil (DescribeState model);
    let linearization := v_linearization st ++ [mkLinearizationStep histId (describeState state)] in
    if bool_decide (default 0 (largestSize st !! histId) < len) then
      Ret (mkVState state linearization (<[histId := len]> (largestSize st))
             (<[histId := i]> (largestIndex st)))
    else Ret (mkVState state linearization (largestSize st) (largestIndex st)).

(** The loop over the sorted partial linearizations; [i] counts them. *)
Fixpoint partials_loop model (callValue returnValue : gmap Z Val) (i : Z)
    (partials : list (list Z)) (linearizations : list partialLinearization)
    (size index : gmap Z Z) : result (list partialLinearization * gmap Z Z) :=
  match partials with
  | [] => Ret (linearizations, index)
  | partial :: partials =>
      st ← foldM (partial_step model callValue returnValue i (Z.of_nat (List.length partial)))
             (mkVState (Init model) [] size index) partial;
      partials_loop model callValue returnValue (i + 1) partials
        (linearizations ++ [v_linearization st]) (largestSize st) (largestIndex st)
  end.

(** [sort.Slice]'s argument. *)
Definition longer (p q : list Z) : bool := bool_decide (List.length q < List.length p)%nat.

(** [sort.Slice] sorts [info]'s slice of partials in place. *)
Context (sort_partials : list (list Z) → list (list Z)).

Definition partition_data model (es : list (entry Val)) (partials : list (list Z))
    : result partitionVisualizationData :=
  '(history, callValue, returnValue) ← history_elements model es;
  let partials := sort_partials partials in
  '(linearizations, index) ← partials_loop model callValue returnValue 0 partials [] ∅ ∅;
  Ret (mkPartitionData history linearizations index).

Context `{EqDecision State, Format Val, Format State}.

Definition computeVisualizationData model (info : linearizationInfo Val)
    : result (list partitionVisualizationData * linearizationInfo Val) :=
  let model := fillDefault model in
  data ← foldM (λ data p,
      es ← (li_history info).[Z.of_nat p];
      partials ← (partialLinearizations info).[Z.of_nat p];
      d ← partition_data model es partials;
      Ret (data ++ [d])) [] (seq 0 (List.length (li_history info)));
  Ret (data, mkInfo (li_history info) (sort_partials <$> partialLinearizations info)).
End visualization.
