(* ===== verification/VisualizationProof.v ===== *)
(** What [computeVisualizationData] shows: one element per operation, and every
    reported partial linearization replayed to its end. *)
From Stdlib Require Import ZArith Lia.
From stdpp Require Import base gmap sets list strings sorting.
From S2P Require Import Prelude Model Entries History Search SearchProof Checker CheckerProof Visualization.

#[export] Instance longer_WeakOrder : WeakOrder longer.
Proof. unfold longer. split; intros *; rewrite !bool_decide_eq_false; lia. Qed.

(** ** The history of a partition *)

Section elements.
Context {Val State : Type} (nilV : Val) (M : Model Val State) (desc : Val → Val → result string).
Context (es : list (entry Val)).
Abbreviation n := (Z.of_nat (List.length es) / 2).
Hypothesis Hdesc : DescribeOperation M = Some desc.
Hypothesis Hbal : balanced es.
Hypothesis Hids : ∀ e, e ∈ es → 0 ≤ id e < n.
(** [DescribeOperation] returns on the operations of the history. *)
Hypothesis Hret : ∀ i v w, io es i v w → ∃ s, desc v w = Ret s.

Definition text (r : result string) : string := match r with Ret s => s | _ => "" end.

(** The element made of the entries of one operation seen so far. *)
Definition element_of (l : list (entry Val)) : historyElement :=
  match l with
  | [] => zero_element
  | [c] => mkHistoryElement (clientId c) (time c) 0 ""
  | c :: r :: _ => mkHistoryElement (clientId c) (time c) (time r) (text (desc (value c) (value r)))
  end.

Record elements_ok (done : list (entry Val)) (h : list historyElement) (callValue returnValue : gmap Z Val) : Prop := {
  eo_length : List.length h = Z.to_nat n;
  eo_element i : 0 ≤ i < n → h.[i] = Ret (element_of (of_id i done));
  eo_call i c l : of_id i done = c :: l → callValue !! i = Some (value c);
  eo_return i c r : of_id i done = [c; r] → returnValue !! i = Some (value r)
}.

Lemma go_update_index {A} (l : list A) i x j : 0 ≤ i < Z.of_nat (List.length l) →
  (<[Z.to_nat i := x]> l).[j] = if decide (j = i) then Ret x else l.[j].
Proof.
  intros Hi. unfold go_index. case_decide; [|rewrite decide_False by lia; done].
  case_decide as E.
  - subst. rewrite list_lookup_insert_eq by lia. done.
  - by rewrite list_lookup_insert_ne by lia.
Qed.

Lemma of_id_snoc i (l : list (entry Val)) e :
  of_id i (l ++ [e]) = if decide (id e = i) then of_id i l ++ [e] else of_id i l.
Proof.
  rewrite of_id_app, of_id_cons. unfold of_id at 2 3. rewrite filter_nil.
  case_decide; [done|by rewrite app_nil_r].
Qed.

Lemma element_step_ok done e l h cv rv :
  es = done ++ e :: l → elements_ok done h cv rv →
  ∃ acc, element_step nilV M (h, cv, rv) e = Ret acc ∧
    let '(h', cv', rv') := acc in elements_ok (done ++ [e]) h' cv' rv'.
Proof.
  intros E [Hl He Hc Hr]. assert (e ∈ es) as Hin by (rewrite E; set_solver).
  pose proof (Hids e Hin) as Hid. unfold element_step. rewrite (He _ Hid). cbn [mbind result_bind].
  assert (0 ≤ id e < Z.of_nat (List.length h)) as Hid' by lia.
  assert (of_id (id e) es = of_id (id e) done ++ e :: of_id (id e) l) as Eo.
  { rewrite E, of_id_app, of_id_cons. by rewrite decide_True. }
  destruct (Hbal (id e)) as [E0|(c & r & E0 & Hcall & Hreturn)].
  { rewrite Eo in E0. by destruct (of_id (id e) done). }
  rewrite Eo in E0. unfold is_call, is_return in *.
  destruct (of_id (id e) done) as [|c' l'] eqn:Ed; simpl in E0.
  - injection E0 as -> E0. rewrite Hcall, go_update_ret by done. cbn [mbind result_bind].
    eexists. split; [done|]. split.
    + by rewrite length_insert.
    + intros i Hi. rewrite go_update_index, of_id_snoc by done. destruct (decide (i = id c)) as [->|Hne].
      * rewrite decide_True, Ed by done. done.
      * rewrite decide_False by congruence. by apply He.
    + intros i c0 l0. rewrite of_id_snoc. destruct (decide (id c = i)) as [<-|Hne].
      * rewrite Ed. intros [= -> _]. by rewrite lookup_insert_eq.
      * intros Hi. rewrite lookup_insert_ne by done. by eapply Hc.
    + intros i c0 r0. rewrite of_id_snoc. case_decide as Ei; [subst; by rewrite Ed|]. apply Hr.
  - injection E0 as -> E0. destruct l' as [|? l']; simpl in E0; injection E0 as -> E0; [|by destruct l'].
    rewrite Hreturn. unfold describe. rewrite Hdesc. simpl. rewrite (Hc _ _ _ Ed). simpl.
    destruct (Hret (id r) (value c) (value r)) as [s Hs].
    { exists c, r. rewrite Eo, E0. done. }
    rewrite Hs. cbn [mbind result_bind]. rewrite go_update_ret by done. cbn [mbind result_bind].
    eexists. split; [done|]. split.
    + by rewrite length_insert.
    + intros i Hi. rewrite go_update_index, of_id_snoc by done. destruct (decide (i = id r)) as [->|Hne].
      * rewrite decide_True, Ed by done. simpl. by rewrite Hs.
      * rewrite decide_False by congruence. by apply He.
    + intros i c0 l0. rewrite of_id_snoc. destruct (decide (id r = i)) as [<-|Hne]; [|by apply Hc].
      rewrite Ed. intros [= <- _]. by eapply Hc.
    + intros i c0 r0. rewrite of_id_snoc. destruct (decide (id r = i)) as [<-|Hne].
      * rewrite Ed. intros [= <- <-]. by rewrite lookup_insert_eq.
      * intros Hi. rewrite lookup_insert_ne by done. by eapply Hr.
Qed.

Lemma history_elements_spec : ∃ h cv rv,
  history_elements nilV M es = Ret (h, cv, rv) ∧ elements_ok es h cv rv.
Proof.
  unfold history_elements. rewrite Z.quot_div_nonneg by lia.
  destruct (foldM_inv (element_step nilV M) (λ done acc, let '(h, cv, rv) := acc in elements_ok done h cv rv)
    (replicate (Z.to_nat n) zero_element, ∅, ∅) es) as ([[h cv] rv] & E & Hok).
  - split; [by rewrite length_replicate| |done|done]. intros i Hi. apply go_index_ret.
    split; [lia|]. apply lookup_replicate. split; [done|lia].
  - intros l1 e l2 [[h cv] rv] E Hok. destruct (element_step_ok l1 e l2 h cv rv E Hok) as (acc & ? & ?).
    by exists acc.
  - by exists h, cv, rv.
Qed.

Lemma elements_io h cv rv i v w : elements_ok es h cv rv → io es i v w →
  cv !! i = Some v ∧ rv !! i = Some w.
Proof.
  intros [_ _ Hc Hr] (c & r & E & <- & <-). split; [by eapply Hc|by eapply Hr].
Qed.
End elements.

(** ** Its partial linearizations *)

Section partials.
Context {Val State : Type} (nilV : Val) (M : Model Val State) (dstate : State → string).
Context (es : list (entry Val)) (cv rv : gmap Z Val).
Hypothesis Hdstate : DescribeState M = Some dstate.
Hypothesis Hbal : balanced es.
Hypothesis Hvals : ∀ i v w, io es i v w → cv !! i = Some v ∧ rv !! i = Some w.

(** [ls] shows [seq] with the states it goes through from [s]. *)
Fixpoint shows (s : State) (seq : list Z) (ls : partialLinearization) : Prop :=
  match seq, ls with
  | [], [] => True
  | i :: seq, l :: ls => ∃ v w s', io es i v w ∧ Step M s v w = Ret (true, s') ∧
      l = mkLinearizationStep i (dstate s') ∧ shows s' seq ls
  | _, _ => False
  end.

(** [Largest]: for each operation, the first partial that contains it. *)
Definition first_index (ps : list (list Z)) (index : gmap Z Z) : Prop :=
  ∀ h, index !! h = (λ found, Z.of_nat found.1) <$> list_find (λ p, h ∈ p) ps.

(** [size] bounds the length of the partials to come, for the operations
    seen so far. *)
Definition sizes_ok (size index : gmap Z Z) (ps : list (list Z)) : Prop :=
  ∀ h, match index !! h with
       | None => size !! h = None
       | Some _ => ∃ z, size !! h = Some z ∧ ∀ p, p ∈ ps → Z.of_nat (length p) ≤ z
       end.

Lemma runs_io L s π L' s' : runs M L s π L' s' → balanced L →
  ∀ i v w, io L' i v w → io L i v w.
Proof.
  induction 1 as [L s|L s i L1 s1 π L2 s2 Hp Hr IH]; intros Hb j v w; [done|].
  destruct (pick_inv _ _ _ _ _ _ Hp Hb) as (A & c & B & r & C & _ & _ & _ & _ & _ & _ & _ & -> & _ & _ & Hb').
  intros Hio. apply (IH Hb') in Hio. destruct (decide (j = i)) as [->|Hne].
  - destruct Hio as (c' & r' & E & _). by rewrite of_id_drop_id, decide_True in E.
  - by eapply io_drop.
Qed.

Lemma partial_step_ok i len st j v w s' :
  io es j v w → Step M (v_state st) v w = Ret (true, s') →
  partial_step nilV M cv rv i len st j =
    Ret (if bool_decide (default 0 (largestSize st !! j) < len)
         then mkVState s' (v_linearization st ++ [mkLinearizationStep j (dstate s')])
                (<[j := len]> (largestSize st)) (<[j := i]> (largestIndex st))
         else mkVState s' (v_linearization st ++ [mkLinearizationStep j (dstate s')])
                (largestSize st) (largestIndex st)).
Proof.
  intros [Ec Er]%Hvals Hst. unfold partial_step. rewrite Ec, Er. simpl. rewrite Hst. simpl.
  rewrite Hdstate. simpl. by case_match.
Qed.

Lemma partial_foldM i len L s π L' s' ls size index :
  runs M L s π L' s' → balanced L → (∀ j v w, io L j v w → io es j v w) →
  ∃ st ls', foldM (partial_step nilV M cv rv i len) (mkVState s ls size index) π = Ret st ∧
    v_linearization st = ls ++ ls' ∧ shows s π ls' ∧
    ∀ h, largestSize st !! h = (if decide (h ∈ π ∧ default 0 (size !! h) < len) then Some len else size !! h) ∧
         largestIndex st !! h = (if decide (h ∈ π ∧ default 0 (size !! h) < len) then Some i else index !! h).
Proof.
  intros Hr. revert ls size index.
  induction Hr as [L s|L s j L1 s1 π L2 s2 Hp Hr IH]; intros ls size index Hb Hio.
  { eexists _, []. split; [done|]. split_and!; [by rewrite app_nil_r|done|]. by intros h. }
  destruct (pick_inv _ _ _ _ _ _ Hp Hb)
    as (A & c & B & r & C & _ & Hid & _ & _ & _ & _ & Hst & HL1 & Hof & _ & Hb').
  assert (io es j (value c) (value r)) as Hj by (apply Hio; by exists c, r).
  cbn [foldM]. erewrite partial_step_ok; [|exact Hj|exact Hst].
  cbn [v_linearization largestSize largestIndex mbind result_bind].
  assert (∀ j' v w, io L1 j' v w → io es j' v w) as Hio1.
  { intros j' v w Hj'. apply Hio. eapply (runs_io L s [j] L1 s1); [|done|done].
    econstructor; [done|constructor]. }
  assert (∀ size' index',
    ∃ st ls', foldM (partial_step nilV M cv rv i len)
      (mkVState s1 (ls ++ [mkLinearizationStep j (dstate s1)]) size' index') π = Ret st ∧
      v_linearization st = ls ++ ls' ∧ shows s (j :: π) ls' ∧
      ∀ h, largestSize st !! h = (if decide (h ∈ π ∧ default 0 (size' !! h) < len) then Some len else size' !! h) ∧
         largestIndex st !! h = (if decide (h ∈ π ∧ default 0 (size' !! h) < len) then Some i else index' !! h))
    as Hnext.
  { intros size' index'.
    destruct (IH (ls ++ [mkLinearizationStep j (dstate s1)]) size' index' Hb' Hio1)
      as (st & ls' & E & El & Hsh & Hh).
    exists st, (mkLinearizationStep j (dstate s1) :: ls'). split_and!; [exact E| |by exists (value c), (value r), s1|exact Hh].
    by rewrite El, <-(assoc_L (++)). }
  case_bool_decide as Hlt; edestruct Hnext as (st & ls' & E & El & Hsh & Hh); eexists st, ls';
    (split_and!; [exact E|done|done|]); intros h; destruct (Hh h) as [Hs Hi]; rewrite Hs, Hi;
    destruct (decide (h = j)) as [->|Hne].
  - rewrite !lookup_insert_eq. simpl.
    assert (j ∈ j :: π ∧ default 0 (size !! j) < len) as Hj' by (split; [left|done]).
    split; repeat case_decide; tauto || lia.
  - rewrite !lookup_insert_ne by done. rewrite !(decide_ext (h ∈ j :: π ∧ _) (h ∈ π ∧ default 0 (size !! h) < len))
      by (rewrite elem_of_cons; tauto). done.
  - rewrite !decide_False by tauto. done.
  - rewrite !(decide_ext (h ∈ j :: π ∧ _) (h ∈ π ∧ default 0 (size !! h) < len))
      by (rewrite elem_of_cons; tauto). done.
Qed.

(** One more partial: it is the first for the operations not seen before. *)
Lemma first_index_snoc done p index index' :
  first_index done index →
  (∀ h, index' !! h = if decide (h ∈ p ∧ index !! h = None) then Some (Z.of_nat (length done)) else index !! h) →
  first_index (done ++ [p]) index'.
Proof.
  intros Hf Hi h. rewrite Hi, (Hf h). destruct (list_find (λ p, h ∈ p) done) as [[k q]|] eqn:E; simpl.
  - rewrite (list_find_app_l _ _ _ _ _ E), decide_False by naive_solver. done.
  - rewrite (list_find_app_r _ _ _ E). simpl. destruct (decide (h ∈ p)) as [Hp|Hp]; simpl.
    + by rewrite decide_True.
    + rewrite decide_False by tauto. done.
Qed.

Lemma partials_loop_spec done ps lins size index :
  first_index done index → sizes_ok size index ps →
  StronglySorted (λ p q, longer q p = false) ps → Forall (valid_partial M es) ps →
  ∃ lins' index', partials_loop nilV M cv rv (Z.of_nat (length done)) ps lins size index =
      Ret (lins ++ lins', index') ∧
    Forall2 (shows (Init M)) ps lins' ∧ first_index (done ++ ps) index'.
Proof.
  revert done lins size index. induction ps as [|p ps IH]; intros done lins size index Hf Hz Hs Hv.
  { exists [], index. simpl. rewrite !app_nil_r. split_and!; [done|constructor|done]. }
  apply StronglySorted_inv in Hs as [Hs Hlong]. apply Forall_cons in Hv as [(L & s & Hr) Hv]. simpl.
  destruct (partial_foldM (Z.of_nat (length done)) (Z.of_nat (length p)) _ _ _ _ _ [] size index Hr Hbal)
    as (st & ls & E & El & Hsh & Hst); [done|]. rewrite E. simpl.
  assert (∀ h, (h ∈ p ∧ default 0 (size !! h) < Z.of_nat (length p)) ↔ (h ∈ p ∧ index !! h = None)) as Hnew.
  { intros h. specialize (Hz h). destruct (index !! h) as [k|].
    - destruct Hz as (z & -> & Hle). specialize (Hle p (list_elem_of_here _ _)). simpl.
      split; [lia|by intros [_ ?]].
    - rewrite Hz. simpl. split; [by intros [? _]|]. intros [Hh _]. split; [done|].
      destruct p; [by apply not_elem_of_nil in Hh|simpl; lia]. }
  replace (Z.of_nat (length done) + 1) with (Z.of_nat (length (done ++ [p]))) by (rewrite length_app; simpl; lia).
  destruct (IH (done ++ [p]) (lins ++ [v_linearization st]) (largestSize st) (largestIndex st))
    as (lins' & index' & E' & Hl & Hf'); [| |done|done|].
  - apply (first_index_snoc _ _ index); [done|]. intros h. destruct (Hst h) as [_ ->].
    by rewrite (decide_ext _ _ _ _ (Hnew h)).
  - intros h. specialize (Hz h). destruct (Hst h) as [-> ->].
    rewrite !(decide_ext _ _ _ _ (Hnew h)). case_decide as Hd.
    + eexists. split; [done|]. intros q Hq. rewrite Forall_forall in Hlong. specialize (Hlong q Hq).
      unfold longer in Hlong. apply bool_decide_eq_false in Hlong. lia.
    + destruct (index !! h) as [k|]; [|done]. destruct Hz as (z & ? & Hle). exists z. split; [done|].
      intros q Hq. apply Hle. by right.
  - rewrite E', El. exists (ls :: lins'), index'. simpl.
    rewrite <-!(assoc_L (++)) in *. split_and!; [done|by constructor|done].
Qed.
End partials.

(** ** The whole page *)

Section page.
Context {Val State : Type} `{EqDecision State, Format Val, Format State}.
Context (nilV : Val) (M : Model Val State) (sort_partials : list (list Z) → list (list Z)).
Context `{!SortsBy longer sort_partials}.
Abbreviation model := (fillDefault M).
Abbreviation desc := (default DefaultDescribeOperation (DescribeOperation M)).
Abbreviation dstate := (default DefaultDescribeState (DescribeState M)).

(** The data of one partition: an element per operation with its interval
    and description, every partial replayed, longest first, and for each
    operation the first (hence a longest) partial that contains it. *)
Record drawn (es : list (entry Val)) (ps : list (list Z)) (d : partitionVisualizationData) : Prop := {
  dr_length : Z.of_nat (length (History d)) = Z.of_nat (length es) / 2;
  dr_element i c r : of_id i es = [c; r] → ∃ s, desc (value c) (value r) = Ret s ∧
    (History d).[i] = Ret (mkHistoryElement (clientId c) (time c) (time r) s);
  dr_partials : Forall2 (shows M dstate es (Init M)) (sort_partials ps) (PartialLinearizations d);
  dr_largest : first_index (sort_partials ps) (Largest d)
}.

Lemma partition_data_spec es ps :
  balanced es → (∀ e, e ∈ es → 0 ≤ id e < Z.of_nat (length es) / 2) →
  (∀ i v w, io es i v w → ∃ s, desc v w = Ret s) →
  Forall (valid_partial model es) ps →
  ∃ d, partition_data nilV sort_partials model es ps = Ret d ∧ drawn es ps d.
Proof.
  intros Hb Hids Hret Hv. unfold partition_data.
  destruct (history_elements_spec nilV model desc es eq_refl Hb Hids Hret) as (h & cv & rv & E & Hok).
  rewrite E. cbn [mbind result_bind].
  assert (∀ i v w, io es i v w → cv !! i = Some v ∧ rv !! i = Some w) as Hvals.
  { intros i v w. by eapply elements_io. }
  destruct (partials_loop_spec nilV model dstate es cv rv eq_refl Hb Hvals [] (sort_partials ps) [] ∅ ∅)
    as (lins & index & E' & Hl & Hf).
  - intros i. by rewrite lookup_empty.
  - intros i. by rewrite lookup_empty.
  - exact (sort_strongly longer sort_partials ps).
  - rewrite Forall_forall in *. intros p Hp. apply Hv. by rewrite <-(sort_perm (less := longer) ps).
  - change (Z.of_nat (length [])) with 0 in E'. rewrite E'. cbn [mbind result_bind app]. eexists. split; [done|].
    destruct Hok as [Hlen He Hc Hr]. assert (0 ≤ Z.of_nat (length es) / 2) by (apply Z.div_pos; lia).
    split; simpl; [lia| |done|done]. intros i c r Eo.
    destruct (Hret i (value c) (value r)) as [s Hs]; [by exists c, r|]. exists s. split; [done|].
    assert (c ∈ of_id i es) as [Hi Hin]%list_elem_of_filter by (rewrite Eo; left).
    rewrite He by (rewrite <-Hi; by apply Hids). rewrite Eo. simpl. by rewrite Hs.
Qed.

Lemma compute_spec info :
  (∀ es, es ∈ li_history info → balanced es ∧
     (∀ e, e ∈ es → 0 ≤ id e < Z.of_nat (length es) / 2) ∧
     (∀ i v w, io es i v w → ∃ s, desc v w = Ret s)) →
  Forall2 (λ es ps, Forall (valid_partial model es) ps) (li_history info) (partialLinearizations info) →
  ∃ data info', computeVisualizationData nilV sort_partials M info = Ret (data, info') ∧
    length data = length (li_history info) ∧
    ∀ k es ps, li_history info !! k = Some es → partialLinearizations info !! k = Some ps →
      ∃ d, data !! k = Some d ∧ drawn es ps d.
Proof.
  intros Hes Hps. unfold computeVisualizationData. set (body := λ (data : list partitionVisualizationData) p, _).
  destruct (foldM_inv body (λ done data, length data = length done ∧
    ∀ k es ps, k ∈ done → li_history info !! k = Some es → partialLinearizations info !! k = Some ps →
      ∃ d, data !! k = Some d ∧ drawn es ps d) [] (seq 0 (length (li_history info)))) as (data & E & Hlen & Hd).
  - split; [done|]. by intros ? ? ? ?%not_elem_of_nil.
  - intros l1 k l2 data E [Hlen Hd].
    assert (k = length l1 ∧ (k < length (li_history info))%nat) as [Hk Hlt].
    { assert (seq 0 (length (li_history info)) !! length l1 = Some k) as Hs
        by (rewrite E; by apply list_lookup_middle). apply lookup_seq in Hs. lia. }
    destruct (lookup_lt_is_Some_2 _ _ Hlt) as [es Ees].
    destruct (Forall2_lookup_l _ _ _ _ _ Hps Ees) as (ps & Eps & Hv).
    destruct (Hes es) as (Hb & Hi & Hr); [by eapply list_elem_of_lookup_2|].
    destruct (partition_data_spec es ps Hb Hi Hr Hv) as (d & Epd & Hdr).
    unfold body. unfold go_index. rewrite !decide_True by lia. rewrite !Nat2Z.id, Ees, Eps. cbn [mbind result_bind].
    rewrite Epd. simpl. eexists. split; [done|]. split; [rewrite !length_app; simpl; lia|].
    intros j es' ps' [Hj| ->%list_elem_of_singleton]%elem_of_app Ej Ep.
    + destruct (Hd j es' ps' Hj Ej Ep) as (d' & ? & ?). exists d'. split; [|done]. by apply lookup_app_l_Some.
    + simplify_eq. exists d. split; [|done]. rewrite <-Hlen. by apply list_lookup_middle.
  - rewrite E. simpl. eexists _, _. split; [done|]. split; [by rewrite Hlen, length_seq|].
    intros k es ps Hk. apply Hd; [|done]. apply elem_of_seq. apply lookup_lt_Some in Hk. lia.
Qed.
End page.
