(* ===== verification/Page.v ===== *)
(** The script of the page that porcupine/visualization.go writes ([html], its
    JavaScript), up to the layout: where time stands on the x axis.

    The script reads [const data = %s], the data of Visualization.v as JSON. A
    JavaScript number is a double: [Number] rounds the integers of the data.
    Times are kept in halves, so that the midpoint of two of them is an
    integer. Positions are sums of pixel sizes, taken to be exact; [None] is
    NaN, or an undefined that arithmetic turns into NaN. Elements are objects
    that all parts of the script share: [byGid] finds them in the partitions. *)
From Stdlib Require Import ZArith QArith Qminmax Lia.
From stdpp Require Import base gmap sets list strings sorting.
From S2P Require Import Prelude Visualization.
#[local] Open Scope Z_scope.

(** ** Numbers *)

(** An integer as a double: 53 significant bits, ties to even. *)
Definition Number (z : Z) : Z :=
  let a := Z.abs z in
  if decide (a < 2^53) then z else
  let u := 2 ^ (Z.log2 a - 52) in
  let q := a / u in
  let r := a mod u in
  Z.sgn z * (u * (if decide (2 * r < u ∨ (2 * r = u ∧ Z.even q = true)) then q else q + 1)).

(** [(a + b) / 2], in halves. *)
Definition midpoint (a b : Z) : Z := Number ((a + b) / 2).

Abbreviation num := (option Q).
Definition num_add (a b : num) : num := a ← a; b ← b; Some (a + b)%Q.
Definition Math_max (a b : num) : num := a ← a; b ← b; Some (Qmax a b).

(** Reading a property of [undefined]. *)
Definition TypeError : panic := Panicked "TypeError".
Definition js_index {A} (l : list A) (i : Z) : result A :=
  if decide (0 ≤ i) then match l !! Z.to_nat i with Some x => Ret x | None => Panic TypeError end
  else Panic TypeError.

Definition PADDING : Q := 10.
Definition BOX_HEIGHT : Q := 30.
Definition BOX_SPACE : Q := 15.
Definition XOFF : Q := 20.
Definition EPSILON : Q := 20.
Definition LINE_BLEED : Q := 5.
Definition BOX_GAP : Q := 20.
Definition BOX_TEXT_PADDING : Q := 10.

(** ** The elements *)

Record element := mkElement {
  el_ClientId : Z;
  el_Start : Z;
  el_End : Z;
  OriginalEnd : Z;
  Gid : nat;
  el_Description : string
}.
Record page_partition := mkPagePartition {
  pp_History : list element;
  pp_PartialLinearizations : list partialLinearization;
  pp_Largest : gmap Z Z
}.
Definition pp_elements (parts : list page_partition) : list element := parts ≫= pp_History.

Definition byGid (parts : list page_partition) (gid : nat) : result element :=
  match pp_elements parts !! gid with Some el => Ret el | None => Panic TypeError end.

(** [el['Gid'] = gid; byGid[gid] = el; gid++] *)
Definition give_gid (gid : nat) (he : historyElement) : element :=
  mkElement (Number (he_ClientId he)) (2 * Number (Start he)) (2 * Number (he_End he)) (2 * Number (he_End he))
    gid (Description he).
Fixpoint give_gids (gid : nat) (data : list partitionVisualizationData) : list page_partition :=
  match data with
  | [] => []
  | d :: data =>
      mkPagePartition (imap (λ i, give_gid (gid + i)) (History d)) (PartialLinearizations d) (Largest d)
        :: give_gids (gid + length (History d)) data
  end.

Definition maxClient (parts : list page_partition) : Z :=
  foldl (λ m el, Z.max m (el_ClientId el)) (-1) (pp_elements parts).

Definition startTimestamps (parts : list page_partition) : gset Z := list_to_set (el_Start <$> pp_elements parts).
Definition allTimestamps (parts : list page_partition) : gset Z :=
  startTimestamps parts ∪ list_to_set (el_End <$> pp_elements parts).
(** [Array.from(set).sort((a, b) => a - b)] *)
Definition sorted_array (s : gset Z) : list Z := merge_sort Z.le (elements s).

(** [nextTs[sorted[i]] = sorted[i+1]] *)
Definition next_timestamps (sorted : list Z) : gmap Z Z := list_to_map (zip sorted (tail sorted)).

(** Ends that are also starts move half way to the next timestamp. *)
Definition tweak (starts : gset Z) (nextTs : gmap Z Z) (el : element) : element :=
  let with_end e := mkElement (el_ClientId el) (el_Start el) e (el_End el) (Gid el) (el_Description el) in
  if decide (el_End el ∈ starts) then
    match nextTs !! el_End el with
    | Some next => with_end (midpoint (el_End el) next)
    | None => with_end (el_End el)
    end
  else with_end (el_End el).
Definition tweak_partition (starts : gset Z) (nextTs : gmap Z Z) (p : page_partition) : page_partition :=
  mkPagePartition (tweak starts nextTs <$> pp_History p) (pp_PartialLinearizations p) (pp_Largest p).

(** The partitions after both passes, and [sortedTimestamps]. *)
Definition page_partitions (data : list partitionVisualizationData) : list page_partition * list Z :=
  let parts := give_gids 0 data in
  let all := allTimestamps parts in
  let parts' := tweak_partition (startTimestamps parts) (next_timestamps (sorted_array all)) <$> parts in
  (parts', sorted_array (all ∪ list_to_set (el_End <$> pp_elements parts'))).

(** ** Elements by their end *)

Record event_box := mkBox { bx_start : Z; bx_end : Z; bx_width : Q; bx_gid : nat }.
(** [text_width] is the width that the browser gives a text. *)
Definition box_of (text_width : string → Q) (el : element) : event_box :=
  mkBox (el_Start el) (el_End el) (text_width (el_Description el) + 2 * BOX_TEXT_PADDING)%Q (Gid el).
Definition ends_before (a b : event_box) : bool := bool_decide (bx_end a < bx_end b).

(** ** Linearization points and illegal next ones *)

Record prep := mkPrep {
  eventToLinearizations : list (list (nat * Z));  (* event -> [{index, position}] *)
  eventIllegalLast : list (list nat);             (* event -> [index] *)
  allLinearizations : list (list nat)
}.

(** [forEach((el, index) => ...)] over the elements that are not included. *)
Definition excluded (hist : list element) (included : gset Z) : list element :=
  snd <$> filter (λ p, p.1 ∉ included) (imap (λ i el, (Z.of_nat i, el)) hist).
(** [Infinity] is [None]. *)
Definition minEnd (els : list element) : option Z :=
  foldl (λ m el, Some (match m with Some m => Z.min m (el_End el) | None => el_End el end)) None els.
Definition before_end (t : Z) (m : option Z) : bool :=
  match m with Some m => bool_decide (t < m) | None => true end.
(** The operations that could come next. *)
Definition next_elements (hist : list element) (included : gset Z) : list element :=
  let out := excluded hist included in
  filter (λ el, before_end (el_Start el) (minEnd out) = true) out.

Definition included_of (lin : partialLinearization) : gset Z := list_to_set (Index <$> lin).

Definition globalize_step (hist : list element) (lgid : nat)
    (acc : list nat * list (list (nat * Z))) (step : linearizationStep) : result (list nat * list (list (nat * Z))) :=
  let '(globalized, to) := acc in
  el ← js_index hist (Index step);
  let position := Z.of_nat (length globalized) in
  Ret (globalized ++ [Gid el], alter (λ l, l ++ [(lgid, position)]) (Gid el) to).

Definition prep_linearization (hist : list element) (st : prep) (lin : partialLinearization) : result prep :=
  let lgid := length (allLinearizations st) in
  '(globalized, to) ← foldM (globalize_step hist lgid) ([], eventToLinearizations st) lin;
  Ret (mkPrep to
    (foldl (λ ill el, alter (λ l, l ++ [lgid]) (Gid el) ill) (eventIllegalLast st)
       (next_elements hist (included_of lin)))
    (allLinearizations st ++ [globalized])).

Definition preprocess (parts : list page_partition) : result prep :=
  let gid := length (pp_elements parts) in
  foldM (λ st p, foldM (prep_linearization (pp_History p)) st (pp_PartialLinearizations p))
    (mkPrep (replicate gid []) (replicate gid []) []) parts.

(** ** The left-to-right scan *)

Record scan := mkScan { xPos : gmap Z num; linearizationPositions : list (list num) }.
Definition x_of (s : scan) (t : Z) : num := mjoin (xPos s !! t).

Section scan.
Context (parts : list page_partition) (pre : prep).

(** One more point of linearization [index]. *)
Definition push_point (s : scan) (index : nat) (i : Z) : result scan :=
  points ← js_index (linearizationPositions s) (Z.of_nat index);
  lin ← js_index (allLinearizations pre) (Z.of_nat index);
  nextGid ← js_index lin i;
  el ← byGid parts nextGid;
  let start := x_of s (el_Start el) in
  let nextPos := if decide (points = []) then start
                 else Math_max start (num_add (mjoin (points !! Z.to_nat (i - 1))) (Some EPSILON)) in
  Ret (mkScan (xPos s) (<[index := points ++ [nextPos]]> (linearizationPositions s))).

(** The points of [index] up to [position], and [pos] past the last. *)
Definition fit_point (acc : scan * num) (li : nat * Z) : result (scan * num) :=
  let '(s, pos) := acc in
  let '(index, position) := li in
  points ← js_index (linearizationPositions s) (Z.of_nat index);
  let n := Z.of_nat (length points) in
  s ← foldM (λ s i, push_point s index i) s (seqZ n (position + 1 - n));
  points ← js_index (linearizationPositions s) (Z.of_nat index);
  Ret (s, Math_max pos (if decide (0 ≤ position) then mjoin (points !! Z.to_nat position) else None)).

Definition fit_illegal (s : scan) (pos : num) (li : nat) : result num :=
  lin ← js_index (linearizationPositions s) (Z.of_nat li);
  Ret (Math_max pos (num_add (mjoin (last lin)) (Some EPSILON))).

Definition place_event (acc : scan * num) (event : event_box) : result (scan * num) :=
  let '(s, pos) := acc in
  let textEndPos := num_add (x_of s (bx_start event)) (Some (bx_width event)) in
  let pos := Math_max pos textEndPos in
  to ← js_index (eventToLinearizations pre) (Z.of_nat (bx_gid event));
  ill ← js_index (eventIllegalLast pre) (Z.of_nat (bx_gid event));
  lasts ← foldM (λ l index, lin ← js_index (allLinearizations pre) (Z.of_nat index);
                            Ret (l ++ [(index, Z.of_nat (length lin) - 1)])) [] ill;
  '(s, pos) ← foldM fit_point (s, pos) (to ++ lasts);
  pos ← foldM (fit_illegal s) pos ill;
  Ret (s, pos).

(** [while (eventIndex < byEnd.length && byEnd[eventIndex].end <= ts)]; what
    is left of [byEnd] stands for [eventIndex]. *)
Fixpoint place_events (ts : Z) (events : list event_box) (acc : scan * num) : result (list event_box * (scan * num)) :=
  match events with
  | event :: rest =>
      if decide (bx_end event ≤ ts) then acc ← place_event acc event; place_events ts rest acc
      else Ret (events, acc)
  | [] => Ret ([], acc)
  end.

(** The [for] loop; [prev] is [sortedTimestamps[i-1]]. *)
Fixpoint scan_from (prev : Z) (sorted : list Z) (events : list event_box) (s : scan) : result scan :=
  match sorted with
  | [] => Ret s
  | ts :: sorted =>
      '(events, (s, pos)) ← place_events ts events (s, num_add (x_of s prev) (Some BOX_GAP));
      scan_from ts sorted events (mkScan (<[ts := pos]> (xPos s)) (linearizationPositions s))
  end.
End scan.

Record laid := mkLaid { la_parts : list page_partition; la_sorted : list Z; la_prep : prep; la_scan : scan }.

(** [sort] is the sort of [byEnd]. *)
Definition layout (text_width : string → Q) (sort : list event_box → list event_box)
    (data : list partitionVisualizationData) : result laid :=
  let '(parts, sorted) := page_partitions data in
  let byEnd := sort (box_of text_width <$> pp_elements parts) in
  pre ← preprocess parts;
  let s := mkScan ∅ (replicate (length (allLinearizations pre)) []) in
  s ← match sorted with
      | [] => Ret s
      | t :: sorted => scan_from parts pre t sorted byEnd (mkScan {[t := Some 0%Q]} (linearizationPositions s))
      end;
  Ret (mkLaid parts sorted pre s).
