(* ===== verification/PageLayout.v ===== *)
(** What the layout of Page.v promises: the scan never meets a NaN, its
    positions satisfy every constraint that the script lists, and no positions
    that satisfy them are smaller. *)
From Stdlib Require Import ZArith QArith Qminmax Lqa Lia.
From stdpp Require Import base gmap sets list strings sorting.
From S2P Require Import Prelude Visualization Page.
#[local] Open Scope Z_scope.

Lemma js_index_ret {A} (l : list A) i x : l !! i = Some x → js_index l (Z.of_nat i) = Ret x.
Proof. intros E. unfold js_index. rewrite decide_True by lia. by rewrite Nat2Z.id, E. Qed.

Lemma js_index_some {A} (l : list A) i x : js_index l i = Ret x ↔ 0 ≤ i ∧ l !! Z.to_nat i = Some x.
Proof. unfold js_index. case_decide; [|naive_solver]. destruct (l !! Z.to_nat i); naive_solver. Qed.

(** In a sorted list the smaller of two elements comes first. *)
Lemma sorted_lookup (l : list Z) i j a b :
  StronglySorted Z.lt l → l !! i = Some a → l !! j = Some b → a < b ↔ (i < j)%nat.
Proof.
  intros Hl. revert i j. induction Hl as [|c l Hl IH Hc]; intros [|i] [|j] Ha Hb; simpl in *;
    try done; try rewrite Forall_forall in Hc.
  - split; [simplify_eq; lia|lia].
  - apply list_elem_of_lookup_2, Hc in Hb. split; [lia|]. by simplify_eq.
  - apply list_elem_of_lookup_2, Hc in Ha. split; [simplify_eq; lia|lia].
  - rewrite (IH i j) by done. lia.
Qed.

(** [z] is at least every number of [l]. *)
Definition above (z : Q) (l : list Q) : Prop := ∀ y, y ∈ l → (y <= z)%Q.

Lemma foldl_Qmax l a z : (foldl Qmax a l <= z)%Q ↔ (a <= z)%Q ∧ above z l.
Proof.
  revert a. induction l as [|b l IH]; intros a; simpl.
  - split; [intros H; split; [done|by intros y ?%not_elem_of_nil]|by intros [? _]].
  - rewrite IH, Q.max_lub_iff. unfold above. split.
    + intros [[Ha Hb] Hl]. split; [done|]. intros y [->|Hy]%elem_of_cons; [done|by apply Hl].
    + intros [Ha Hl]. split; [split; [done|apply Hl; by left]|]. intros y Hy. apply Hl. by right.
Qed.

(** ** The points of a linearization *)

Section points.
Context (x : nat → Q).

(** Each at its element's start, or [EPSILON] to the right of the one before. *)
Fixpoint points (prev : option Q) (lin : list nat) : list Q :=
  match lin with
  | [] => []
  | g :: lin =>
      let p := match prev with None => x g | Some q => Qmax (x g) (q + EPSILON) end in
      p :: points (Some p) lin
  end.

Lemma length_points prev lin : length (points prev lin) = length lin.
Proof. revert prev. induction lin as [|g lin IH]; intros prev; simpl; [done|by rewrite IH]. Qed.

Lemma take_points prev lin n : take n (points prev lin) = points prev (take n lin).
Proof.
  revert prev n. induction lin as [|g lin IH]; intros prev [|n]; simpl; [done..|]. by rewrite IH.
Qed.

Definition next_point (prev : option Q) (g : nat) : Q :=
  match prev with None => x g | Some q => Qmax (x g) (q + EPSILON) end.

Lemma points_snoc prev lin g :
  points prev (lin ++ [g]) = points prev lin ++ [next_point (match last (points prev lin) with None => prev | q => q end) g].
Proof.
  revert prev. induction lin as [|h lin IH]; intros prev; [done|].
  cbn [points app]. rewrite IH. do 3 f_equal. f_equal. rewrite last_cons. by destruct (last (points _ lin)).
Qed.

Lemma points_lookup prev lin p g : lin !! p = Some g → ∃ q, points prev lin !! p = Some q ∧ (x g <= q)%Q.
Proof.
  revert prev p. induction lin as [|h lin IH]; intros prev [|p] E; simpl in *; [done|done| |by apply IH].
  injection E as ->. eexists. split; [done|]. destruct prev; [apply Q.le_max_l|apply Qle_refl].
Qed.

Lemma points_spaced prev lin p q q' :
  points prev lin !! p = Some q → points prev lin !! S p = Some q' → (q + EPSILON <= q')%Q.
Proof.
  revert prev p. induction lin as [|h lin IH]; intros prev [|p]; simpl; [done|done| |apply IH].
  destruct lin as [|g lin]; simpl; [done|]. intros [= <-] [= <-]. apply Q.le_max_r.
Qed.

(** They are as far left as such points can be. *)
Lemma points_least (x' : nat → Q) (lp : nat → Q) prev prev' lin :
  (∀ g, g ∈ lin → (x g <= x' g)%Q) →
  (∀ p g, lin !! p = Some g → (x' g <= lp p)%Q) →
  (∀ p, (S p < length lin)%nat → (lp p + EPSILON <= lp (S p))%Q) →
  match prev, prev' with
  | None, _ => True
  | Some q, Some q' => (q <= q')%Q ∧ (lin ≠ [] → (q' + EPSILON <= lp 0%nat)%Q)
  | _, _ => False
  end →
  ∀ p q, points prev lin !! p = Some q → (q <= lp p)%Q.
Proof.
  revert prev prev' lp. induction lin as [|g lin IH]; intros prev prev' lp Hx Hon Hsp Hprev p q; simpl; [done|].
  assert ((next_point prev g <= lp 0%nat)%Q) as H0.
  { assert ((x g <= lp 0%nat)%Q) as Hg.
    { eapply Qle_trans; [apply Hx; by left|]. by apply Hon. }
    unfold next_point. destruct prev as [q0|]; [|done]. destruct prev' as [q0'|]; [|done].
    destruct Hprev as [Hle Hn]. specialize (Hn ltac:(done)). apply Q.max_lub; [done|]. lra. }
  destruct p as [|p]; simpl; [by intros [= <-]|]. fold (next_point prev g).
  apply (IH _ (Some (lp 0%nat)) (λ p, lp (S p))).
  - intros h Hh. apply Hx. by right.
  - intros p' h Hh. by apply Hon.
  - intros p' Hp'. apply Hsp. simpl. lia.
  - split; [done|]. intros Hne. apply Hsp. destruct lin; [done|simpl; lia].
Qed.
End points.

Lemma points_ext x x' prev lin : (∀ g, g ∈ lin → x g = x' g) → points x prev lin = points x' prev lin.
Proof.
  revert prev. induction lin as [|g lin IH]; intros prev Hx; simpl; [done|].
  rewrite (Hx g) by left. f_equal. apply IH. intros h Hh. apply Hx. by right.
Qed.

(** ** The scan *)

Section scan.
Context (parts : list page_partition) (pre : prep).
Abbreviation els := (pp_elements parts).
Abbreviation lins := (allLinearizations pre).

Definition start_of (g : nat) : Z := default 0 (el_Start <$> els !! g).
Definition end_of (g : nat) : Z := default 0 (el_End <$> els !! g).

(** What the preprocessing makes of the partitions. *)
Record prep_ok : Prop := {
  po_gid g el : els !! g = Some el → Gid el = g;
  po_to_len : length (eventToLinearizations pre) = length els;
  po_ill_len : length (eventIllegalLast pre) = length els;
  po_to g to l p : eventToLinearizations pre !! g = Some to →
    (l, p) ∈ to ↔ 0 ≤ p ∧ ∃ lin, lins !! l = Some lin ∧ lin !! Z.to_nat p = Some g;
  po_ill g ill l : eventIllegalLast pre !! g = Some ill → l ∈ ill → ∃ lin, lins !! l = Some lin ∧ lin ≠ [];
  po_in l lin g : lins !! l = Some lin → g ∈ lin → (g < length els)%nat
}.

(** The linearizations follow real time: whatever is placed up to an element
    has started before the element ends, and so has whatever comes before an
    illegal next one. *)
Record in_order : Prop := {
  io_start g : (g < length els)%nat → start_of g < end_of g;
  io_to l lin p p' g g' : lins !! l = Some lin → lin !! p = Some g → lin !! p' = Some g' → (p' ≤ p)%nat →
    start_of g' < end_of g;
  io_ill g ill l lin g' : eventIllegalLast pre !! g = Some ill → l ∈ ill → lins !! l = Some lin → g' ∈ lin →
    start_of g' < end_of g
}.

Definition placed (s : scan) (t : Z) : Prop := ∃ q, x_of s t = Some q.
Definition xv (s : scan) (t : Z) : Q := default 0%Q (x_of s t).
Abbreviation lin_points x lin := (points (λ g, x (start_of g)) None lin).

(** Every linearization has its first points, over elements that are placed. *)
Record points_ok (s : scan) : Prop := {
  pk_len : length (linearizationPositions s) = length lins;
  pk_points l ps lin : linearizationPositions s !! l = Some ps → lins !! l = Some lin →
    (length ps ≤ length lin)%nat ∧ ps = Some <$> take (length ps) (lin_points (xv s) lin) ∧
    ∀ g, g ∈ take (length ps) lin → placed s (start_of g)
}.

(** No position changes, and no point is lost. *)
Definition grows (s s' : scan) : Prop :=
  xPos s' = xPos s ∧ ∀ l ps, linearizationPositions s !! l = Some ps →
    ∃ ps', linearizationPositions s' !! l = Some ps' ∧ (length ps ≤ length ps')%nat.

#[local] Instance grows_PreOrder : PreOrder grows.
Proof.
  split; [intros s; split; [done|by eauto]|].
  intros s1 s2 s3 [E1 H1] [E2 H2]. split; [congruence|]. intros l ps Hl.
  destruct (H1 l ps Hl) as (ps2 & Hl2 & ?). destruct (H2 l ps2 Hl2) as (ps3 & Hl3 & ?). exists ps3. split; [done|lia].
Qed.

Lemma grows_x s s' : grows s s' → (∀ t, x_of s' t = x_of s t) ∧ xv s' = xv s.
Proof. intros [E _]. unfold xv, x_of. by rewrite E. Qed.

Context (Hp : prep_ok).

Lemma push_point_ok s l ps lin g :
  points_ok s → linearizationPositions s !! l = Some ps → lins !! l = Some lin → lin !! length ps = Some g →
  placed s (start_of g) →
  ∃ s', push_point parts pre s l (Z.of_nat (length ps)) = Ret s' ∧ points_ok s' ∧ grows s s' ∧
    ∃ ps', linearizationPositions s' !! l = Some ps' ∧ length ps' = S (length ps).
Proof.
  intros [Hlen Hpk] Hl Hlin Hg [x Hx]. destruct (Hpk l ps lin Hl Hlin) as (_ & Eps & Hst).
  assert (is_Some (els !! g)) as [el Hel].
  { apply lookup_lt_is_Some_2. eapply (po_in Hp); [done|]. by eapply list_elem_of_lookup_2. }
  assert (start_of g = el_Start el) as Es by (unfold start_of; by rewrite Hel).
  pose proof (lookup_lt_Some _ _ _ Hg) as Hlt.
  unfold push_point, byGid. rewrite (js_index_ret _ _ _ Hl), (js_index_ret _ _ _ Hlin).
  cbn [mbind result_bind]. rewrite (js_index_ret _ _ _ Hg). cbn [mbind result_bind]. rewrite Hel. cbn [mbind result_bind]. rewrite <-Es, Hx. eexists. split; [done|].
  set (nextPos := if decide (ps = []) then _ else _).
  assert (ps ++ [nextPos] = Some <$> take (S (length ps)) (lin_points (xv s) lin)) as Enew.
  { rewrite take_points, (take_S_r _ _ _ Hg), points_snoc, fmap_app, <-take_points, <-Eps. f_equal.
    assert (xv s (start_of g) = x) as Exv by (unfold xv; by rewrite Hx).
    simpl. unfold next_point. rewrite Exv. f_equal. subst nextPos. case_decide as Hnil.
    - subst ps. by simpl.
    - destruct (exists_last Hnil) as (ps0 & a & Ea).
      assert (last (Some <$> take (length ps) (lin_points (xv s) lin)) = Some a) as Ela
        by (rewrite <-Eps, Ea; apply last_snoc).
      rewrite fmap_last in Ela. destruct (last (take _ _)) as [q|]; [|done]. injection Ela as <-.
      assert (ps !! Z.to_nat (Z.of_nat (length ps) - 1) = Some (Some q)) as ->; [|done].
      rewrite Ea, length_app. simpl. replace (Z.to_nat _) with (length ps0) by lia. by apply list_lookup_middle. }
  assert ((l < length (linearizationPositions s))%nat) as Hll by (by eapply lookup_lt_Some).
  split; [split|split; [split|]]; simpl.
  - by rewrite length_insert.
  - intros l' ps' lin' Hl' Hlin'. destruct (decide (l' = l)) as [->|Hne].
    + rewrite list_lookup_insert_eq in Hl' by done. injection Hl' as <-. simplify_eq.
      rewrite length_app, Nat.add_1_r. split; [lia|]. split; [exact Enew|].
      intros g'. rewrite (take_S_r _ _ _ Hg). intros [Hin| ->%list_elem_of_singleton]%elem_of_app; [by apply Hst|].
      by exists x.
    + rewrite list_lookup_insert_ne in Hl' by done. exact (Hpk _ _ _ Hl' Hlin').
  - done.
  - intros l' ps' Hl'. destruct (decide (l' = l)) as [->|Hne].
    + rewrite list_lookup_insert_eq by done. eexists. split; [done|]. simplify_eq. rewrite length_app. simpl. lia.
    + rewrite list_lookup_insert_ne by done. eauto.
  - eexists. rewrite list_lookup_insert_eq by done. split; [done|]. rewrite length_app. simpl. lia.
Qed.

(** The loop that fills [n] more points. *)
Lemma push_points_ok n s l ps lin :
  points_ok s → linearizationPositions s !! l = Some ps → lins !! l = Some lin → (length ps + n ≤ length lin)%nat →
  (∀ g, g ∈ take (length ps + n) lin → placed s (start_of g)) →
  ∃ s', foldM (λ s i, push_point parts pre s l i) s (seqZ (Z.of_nat (length ps)) (Z.of_nat n)) = Ret s' ∧
    points_ok s' ∧ grows s s' ∧ ∃ ps', linearizationPositions s' !! l = Some ps' ∧ length ps' = (length ps + n)%nat.
Proof.
  revert s ps. induction n as [|n IH]; intros s ps Hok Hl Hlin Hle Hst.
  - exists s. split_and!; [done|done|done|]. exists ps. split; [done|lia].
  - rewrite seqZ_cons by lia. cbn [foldM].
    destruct (lookup_lt_is_Some_2 lin (length ps)) as [g Hg]; [lia|].
    destruct (push_point_ok s l ps lin g) as (s1 & -> & Hok1 & Hgr1 & ps1 & Hl1 & El1); [done..| |].
    { apply Hst. eapply list_elem_of_lookup_2. rewrite lookup_take_lt; [done|lia]. }
    cbn [mbind result_bind]. replace (Z.succ (Z.of_nat (length ps))) with (Z.of_nat (length ps1)) by lia.
    replace (Z.pred (Z.of_nat (S n))) with (Z.of_nat n) by lia.
    destruct (IH s1 ps1) as (s2 & E2 & Hok2 & Hgr2 & ps2 & Hl2 & El2); [done|done|done|lia| |].
    { intros h Hh. destruct (Hst h) as [q Hq]; [by rewrite <-Nat.add_succ_comm, <-El1|].
      exists q. by rewrite (proj1 (grows_x _ _ Hgr1)). }
    exists s2. split_and!; [done|done|by etrans|]. exists ps2. split; [done|lia].
Qed.

Definition point (x : Z → Q) (l : nat) (p : Z) : Q :=
  match lins !! l with Some lin => default 0%Q (lin_points x lin !! Z.to_nat p) | None => 0%Q end.

Lemma points_ok_point s l ps lin p :
  points_ok s → linearizationPositions s !! l = Some ps → lins !! l = Some lin → 0 ≤ p → (Z.to_nat p < length ps)%nat →
  ps !! Z.to_nat p = Some (Some (point (xv s) l p)).
Proof.
  intros Hok Hl Hlin H0 Hlt. destruct (pk_points _ Hok l ps lin Hl Hlin) as (Hle & Eps & _).
  unfold point. rewrite Hlin. rewrite Eps at 1. rewrite list_lookup_fmap, lookup_take_lt by done.
  destruct (lookup_lt_is_Some_2 (lin_points (xv s) lin) (Z.to_nat p)) as [q ->]; [rewrite length_points; lia|done].
Qed.

(** What a [grows] step shows of a point. *)
Lemma grows_points s s' : grows s s' → (∀ l p, point (xv s') l p = point (xv s) l p) ∧ ∀ t, placed s t → placed s' t.
Proof.
  intros [Hx ->]%grows_x. split; [done|].
  intros t [q Hq]. exists q. by rewrite Hx.
Qed.

Lemma fit_point_ok s pos l p lin :
  points_ok s → lins !! l = Some lin → 0 ≤ p → (Z.to_nat p < length lin)%nat →
  (∀ g, g ∈ take (S (Z.to_nat p)) lin → placed s (start_of g)) →
  ∃ s', fit_point parts pre (s, Some pos) (l, p) = Ret (s', Some (Qmax pos (point (xv s) l p))) ∧
    points_ok s' ∧ grows s s' ∧ ∃ ps', linearizationPositions s' !! l = Some ps' ∧ (Z.to_nat p < length ps')%nat.
Proof.
  intros Hok Hlin H0 Hlt Hst.
  destruct (lookup_lt_is_Some_2 (linearizationPositions s) l) as [ps Hl].
  { rewrite (pk_len _ Hok). by eapply lookup_lt_Some. }
  assert (∃ s', foldM (λ s i, push_point parts pre s l i) s (seqZ (Z.of_nat (length ps)) (p + 1 - Z.of_nat (length ps))) = Ret s' ∧
    points_ok s' ∧ grows s s' ∧ ∃ ps', linearizationPositions s' !! l = Some ps' ∧ (Z.to_nat p < length ps')%nat)
    as (s' & Es & Hok' & Hgr & ps' & Hl' & Hlt').
  { destruct (decide (p + 1 - Z.of_nat (length ps) <= 0)) as [Hle|Hgt].
    - rewrite seqZ_nil by lia. exists s. split_and!; [done|done|done|]. exists ps. split; [done|lia].
    - destruct (push_points_ok (S (Z.to_nat p) - length ps) s l ps lin) as (s' & E & ? & ? & ps' & ? & ?);
        [done|done|done|lia| |].
      { replace (length ps + _)%nat with (S (Z.to_nat p)) by lia. done. }
      exists s'. replace (p + 1 - Z.of_nat (length ps)) with (Z.of_nat (S (Z.to_nat p) - length ps)) by lia.
      split_and!; [done|done|done|]. exists ps'. split; [done|lia]. }
  exists s'. unfold fit_point. rewrite (js_index_ret _ _ _ Hl). cbn [mbind result_bind]. rewrite Es.
  cbn [mbind result_bind]. rewrite (js_index_ret _ _ _ Hl'). cbn [mbind result_bind].
  rewrite decide_True by done. rewrite (points_ok_point s' l ps' lin p Hok' Hl' Hlin H0 Hlt').
  rewrite (proj1 (grows_points s s' Hgr)). split_and!; [done|done|done|]. by exists ps'.
Qed.

Lemma fit_points_ok todo s pos :
  points_ok s →
  (∀ l p, (l, p) ∈ todo → 0 ≤ p ∧ ∃ lin, lins !! l = Some lin ∧ (Z.to_nat p < length lin)%nat ∧
     ∀ g, g ∈ take (S (Z.to_nat p)) lin → placed s (start_of g)) →
  ∃ s', foldM (fit_point parts pre) (s, Some pos) todo =
      Ret (s', Some (foldl Qmax pos ((λ li, point (xv s) li.1 li.2) <$> todo))) ∧
    points_ok s' ∧ grows s s' ∧
    ∀ l p, (l, p) ∈ todo → ∃ ps', linearizationPositions s' !! l = Some ps' ∧ (Z.to_nat p < length ps')%nat.
Proof.
  revert s pos. induction todo as [|[l p] todo IH]; intros s pos Hok Hin.
  { exists s. split_and!; [done..|]. by intros l p ?%not_elem_of_nil. }
  destruct (Hin l p) as (H0 & lin & Hlin & Hlt & Hst); [by left|]. cbn [foldM].
  destruct (fit_point_ok s pos l p lin) as (s1 & -> & Hok1 & Hgr1 & ps1 & Hl1 & Hlt1); [done..|].
  cbn [mbind result_bind]. destruct (grows_points _ _ Hgr1) as [Hpt Hpl].
  destruct (IH s1 (Qmax pos (point (xv s) l p)) Hok1) as (s2 & E2 & Hok2 & Hgr2 & Hfill).
  { intros l' p' Hlp. destruct (Hin l' p') as (? & lin' & ? & ? & ?); [by right|]. split; [done|].
    exists lin'. split_and!; [done|done|]. intros g Hg. by apply Hpl; auto. }
  exists s2. rewrite E2. split_and!; [|done|by etrans|].
  - cbn [fmap list_fmap foldl fst snd]. do 4 f_equal. apply list_fmap_ext. intros _ [l' p'] _. simpl. by rewrite Hpt.
  - intros l' p' [[= -> ->]|Hlp]%elem_of_cons; [|by apply Hfill].
    destruct (proj2 Hgr2 _ _ Hl1) as (ps2 & ? & ?). exists ps2. split; [done|lia].
Qed.

Definition last_position (l : nat) : Z := match lins !! l with Some lin => Z.of_nat (length lin) - 1 | None => 0 end.

Lemma fit_illegals_ok ill s pos :
  points_ok s →
  (∀ l, l ∈ ill → ∃ lin ps, lins !! l = Some lin ∧ linearizationPositions s !! l = Some ps ∧ lin ≠ [] ∧
     (length lin ≤ length ps)%nat) →
  foldM (fit_illegal s) (Some pos) ill =
    Ret (Some (foldl Qmax pos ((λ l, point (xv s) l (last_position l) + EPSILON)%Q <$> ill))).
Proof.
  revert pos. induction ill as [|l ill IH]; intros pos Hok Hin; [done|].
  destruct (Hin l) as (lin & ps & Hlin & Hl & Hne & Hle); [by left|]. cbn [foldM].
  unfold fit_illegal at 2. rewrite (js_index_ret _ _ _ Hl). cbn [mbind result_bind].
  destruct (pk_points _ Hok l ps lin Hl Hlin) as (Hle' & _ & _).
  assert ((length lin ≠ 0)%nat) by (by destruct lin).
  rewrite last_lookup. replace (pred (length ps)) with (Z.to_nat (last_position l))
    by (unfold last_position; rewrite Hlin; lia).
  rewrite (points_ok_point s l ps lin) by (done || (unfold last_position; rewrite Hlin; lia)).
  cbn. rewrite IH; [done|done|]. intros l' Hl'. apply Hin. by right.
Qed.

(** *** One event *)

Definition to_of (g : nat) : list (nat * Z) := default [] (eventToLinearizations pre !! g).
Definition ill_of (g : nat) : list nat := default [] (eventIllegalLast pre !! g).

(** The positions that the end of an event must reach. *)
Definition contrib (x : Z → Q) (ev : event_box) : list Q :=
  let ill := ill_of (bx_gid ev) in
  (x (bx_start ev) + bx_width ev)%Q ::
  ((λ li, point x li.1 li.2) <$> (to_of (bx_gid ev) ++ ((λ l, (l, last_position l)) <$> ill))) ++
  ((λ l, point x l (last_position l) + EPSILON)%Q <$> ill).

Definition box_ok (ev : event_box) : Prop :=
  (bx_gid ev < length els)%nat ∧ bx_start ev = start_of (bx_gid ev) ∧ bx_end ev = end_of (bx_gid ev).

Lemma to_of_lookup g : (g < length els)%nat → eventToLinearizations pre !! g = Some (to_of g).
Proof.
  intros Hg. unfold to_of. destruct (lookup_lt_is_Some_2 (eventToLinearizations pre) g) as [to ->]; [|done].
  by rewrite (po_to_len Hp).
Qed.
Lemma ill_of_lookup g : (g < length els)%nat → eventIllegalLast pre !! g = Some (ill_of g).
Proof.
  intros Hg. unfold ill_of. destruct (lookup_lt_is_Some_2 (eventIllegalLast pre) g) as [ill ->]; [|done].
  by rewrite (po_ill_len Hp).
Qed.

Context (Ho : in_order).

(** What has to be placed before the end of [g] has started by then. *)
Lemma needs_placed g l p : (g < length els)%nat →
  (l, p) ∈ to_of g ++ ((λ l, (l, last_position l)) <$> ill_of g) →
  0 ≤ p ∧ ∃ lin, lins !! l = Some lin ∧ (Z.to_nat p < length lin)%nat ∧
    ∀ g', g' ∈ take (S (Z.to_nat p)) lin → start_of g' < end_of g.
Proof.
  intros Hg [Hin|(l' & [= -> ->] & Hin)%list_elem_of_fmap]%elem_of_app.
  - apply (po_to Hp _ _ _ _ (to_of_lookup g Hg)) in Hin as (H0 & lin & Hl & Hgp). split; [done|].
    exists lin. split_and!; [done|by eapply lookup_lt_Some|].
    intros g' (p' & Hlk & Hlt)%elem_of_take.
    eapply (io_to Ho l lin (Z.to_nat p) p'); [done..|lia].
  - destruct (po_ill Hp _ _ _ (ill_of_lookup g Hg) Hin) as (lin & Hl & Hne).
    assert ((length lin ≠ 0)%nat) by (by destruct lin). unfold last_position. rewrite Hl. split; [lia|].
    exists lin. split_and!; [done|lia|]. intros g' (? & Hg'%list_elem_of_lookup_2 & _)%elem_of_take.
    by eapply (io_ill Ho); [apply ill_of_lookup| | |].
Qed.

Lemma place_event_ok s pos ev :
  points_ok s → box_ok ev →
  (∀ g, (g < length els)%nat → start_of g < bx_end ev → placed s (start_of g)) →
  ∃ s', place_event parts pre (s, Some pos) ev = Ret (s', Some (foldl Qmax pos (contrib (xv s) ev))) ∧
    points_ok s' ∧ grows s s' ∧
    ∀ l p, (l, p) ∈ to_of (bx_gid ev) → ∃ ps, linearizationPositions s' !! l = Some ps ∧ (Z.to_nat p < length ps)%nat.
Proof.
  intros Hok (Hg & Es & Ee) Hst. set (g := bx_gid ev) in *.
  assert (∀ g', (g' < length els)%nat → start_of g' < end_of g → placed s (start_of g')) as Hst' by (by rewrite <-Ee).
  destruct (Hst' g Hg (io_start Ho g Hg)) as [x Hx].
  assert (xv s (start_of g) = x) as Exv by (unfold xv; by rewrite Hx).
  assert (foldM (λ l index, lin ← js_index lins (Z.of_nat index); Ret (l ++ [(index, Z.of_nat (length lin) - 1)])) [] (ill_of g) =
    Ret ((λ l, (l, last_position l)) <$> ill_of g)) as Elast.
  { destruct (foldM_inv (λ l index, lin ← js_index lins (Z.of_nat index); Ret (l ++ [(index, Z.of_nat (length lin) - 1)]))
      (λ ill l, l = (λ l, (l, last_position l)) <$> ill) [] (ill_of g)) as (a & -> & ->); [done| |done].
    intros l1 l l2 a E ->. destruct (po_ill Hp g _ l (ill_of_lookup g Hg)) as (lin & Hl & _).
    { rewrite E. set_solver. }
    rewrite (js_index_ret _ _ _ Hl). eexists. split; [done|]. rewrite fmap_app. unfold last_position at 3. simpl.
    unfold last_position. by rewrite Hl. }
  destruct (fit_points_ok (to_of g ++ ((λ l, (l, last_position l)) <$> ill_of g)) s
    (Qmax pos (x + bx_width ev)%Q) Hok) as (s' & Ef & Hok' & Hgr & Hfill).
  { intros l p Hlp. destruct (needs_placed g l p Hg Hlp) as (H0 & lin & Hl & Hlt & Hs).
    split; [done|]. exists lin. split_and!; [done|done|]. intros g' Hg'. apply Hst'; [|by apply Hs].
    eapply (po_in Hp); [done|]. destruct (proj1 (elem_of_take _ _ _) Hg') as (? & ? & _). by eapply list_elem_of_lookup_2. }
  exists s'. unfold place_event. rewrite Es, Hx. fold g.
  rewrite (js_index_ret _ _ _ (to_of_lookup g Hg)), (js_index_ret _ _ _ (ill_of_lookup g Hg)).
  cbn [mbind result_bind]. rewrite Elast. cbn [mbind result_bind num_add Math_max option_bind]. rewrite Ef. cbn [mbind result_bind].
  rewrite fit_illegals_ok; [|done|].
  - cbn [mbind result_bind]. split_and!; [|done|done|].
    + unfold contrib. cbn [foldl]. rewrite foldl_app, Es. fold g. rewrite Exv. do 4 f_equal.
      apply list_fmap_ext. intros _ l _. by rewrite (proj1 (grows_points _ _ Hgr)).
    + intros l p Hlp. apply Hfill. apply elem_of_app. by left.
  - intros l Hl. destruct (po_ill Hp g _ l (ill_of_lookup g Hg) Hl) as (lin & Hlin & Hne).
    destruct (Hfill l (last_position l)) as (ps & Hps & Hlt).
    { apply elem_of_app. right. apply list_elem_of_fmap. by exists l. }
    exists lin, ps. split_and!; [done..|]. unfold last_position in Hlt. rewrite Hlin in Hlt. lia.
Qed.

(** *** All events *)

Lemma point_ext x x' l p :
  (∀ lin g, lins !! l = Some lin → g ∈ take (S (Z.to_nat p)) lin → x (start_of g) = x' (start_of g)) →
  point x l p = point x' l p.
Proof.
  unfold point. intros Hx. destruct (lins !! l) as [lin|]; [|done]. f_equal.
  rewrite <-(lookup_take_lt (points (λ g, x _) _ _) (S (Z.to_nat p)) (Z.to_nat p)) by lia.
  rewrite <-(lookup_take_lt (points (λ g, x' _) _ _) (S (Z.to_nat p)) (Z.to_nat p)), !take_points by lia.
  rewrite (points_ext (λ g, x (start_of g)) (λ g, x' (start_of g))); [done|]. intros g Hg. by apply (Hx lin).
Qed.

(** They depend on starts before the event's end only. *)
Lemma contrib_ext x x' ev : box_ok ev →
  (∀ g, (g < length els)%nat → start_of g < bx_end ev → x (start_of g) = x' (start_of g)) →
  contrib x ev = contrib x' ev.
Proof.
  intros (Hg & Es & Ee) Hx. rewrite Ee in Hx.
  assert (∀ l p, (l, p) ∈ to_of (bx_gid ev) ++ ((λ l, (l, last_position l)) <$> ill_of (bx_gid ev)) →
    point x l p = point x' l p) as Hpt.
  { intros l p Hlp. destruct (needs_placed _ l p Hg Hlp) as (_ & lin & Hl & _ & Hs).
    apply point_ext. intros lin' g' Hl' Hg'. simplify_eq. apply Hx; [|by apply Hs].
    apply elem_of_take in Hg' as (? & ? & _). eapply (po_in Hp); [done|]. by eapply list_elem_of_lookup_2. }
  unfold contrib. f_equal; [|f_equal].
  - rewrite Es, Hx; [done|done|by apply (io_start Ho)].
  - apply Forall_fmap_ext_1, Forall_forall. intros [l p] Hlp. by apply Hpt.
  - apply Forall_fmap_ext_1, Forall_forall. intros l Hl. rewrite Hpt; [done|].
    apply elem_of_app. right. apply list_elem_of_fmap. by exists l.
Qed.

Lemma place_events_ok ts events s pos :
  points_ok s → Forall box_ok events → StronglySorted (λ a b, bx_end a ≤ bx_end b) events →
  (∀ g, (g < length els)%nat → start_of g < ts → placed s (start_of g)) →
  ∃ consumed rest s',
    events = consumed ++ rest ∧ Forall (λ ev, bx_end ev ≤ ts) consumed ∧ Forall (λ ev, ts < bx_end ev) rest ∧
    place_events parts pre ts events (s, Some pos) =
      Ret (rest, (s', Some (foldl Qmax pos (consumed ≫= contrib (xv s))))) ∧
    points_ok s' ∧ grows s s' ∧
    ∀ ev l p, ev ∈ consumed → (l, p) ∈ to_of (bx_gid ev) →
      ∃ ps, linearizationPositions s' !! l = Some ps ∧ (Z.to_nat p < length ps)%nat.
Proof.
  revert s pos. induction events as [|ev events IH]; intros s pos Hok Hbox Hsort Hst.
  { exists [], [], s. split_and!; [done..|]. by intros ev l p ?%not_elem_of_nil. }
  apply Forall_cons in Hbox as [Hev Hbox]. apply StronglySorted_inv in Hsort as [Hsort Hle].
  cbn [place_events]. case_decide as Hts.
  - destruct (place_event_ok s pos ev Hok Hev) as (s1 & -> & Hok1 & Hgr1 & Hfill1).
    { intros g Hg Hlt. apply Hst; [done|lia]. }
    cbn [mbind result_bind]. destruct (grows_points _ _ Hgr1) as [_ Hpl]. destruct (grows_x _ _ Hgr1) as [_ Hxv].
    destruct (IH s1 (foldl Qmax pos (contrib (xv s) ev)) Hok1 Hbox Hsort) as (consumed & rest & s2 & -> & Hc & Hr & E & Hok2 & Hgr2 & Hfill2).
    { intros g Hg Hlt. by apply Hpl, Hst. }
    exists (ev :: consumed), rest, s2. split_and!; [done|by constructor|done| |done|by etrans|].
    + rewrite E. do 4 f_equal. cbn [mbind list_bind]. rewrite foldl_app. f_equal.
      by rewrite Hxv.
    + intros ev' l p [->|Hin]%elem_of_cons Hlp; [|by eapply Hfill2].
      destruct (Hfill1 l p Hlp) as (ps & Hps & ?). destruct (proj2 Hgr2 _ _ Hps) as (ps' & ? & ?).
      exists ps'. split; [done|lia].
  - exists [], (ev :: events), s. split_and!; [done|done| |done|done|done|by intros ? ? ? ?%not_elem_of_nil].
    constructor; [lia|]. eapply Forall_impl; [exact Hle|]. simpl. lia.
Qed.

(** *** The whole scan *)

Context (boxes : list event_box).
Context (Hboxes : Forall box_ok boxes).

(** [done] are placed and [consumed] accounted for: each position but the
    first is the least that clears the one before by [BOX_GAP] and reaches
    what the events that end there need. *)
Record scanned (done : list Z) (consumed : list event_box) (s : scan) : Prop := {
  sc_points : points_ok s;
  sc_placed t : placed s t ↔ t ∈ done;
  sc_first t : head done = Some t → xv s t = 0%Q;
  sc_step i t0 t : done !! i = Some t0 → done !! S i = Some t → ∀ z, (xv s t <= z)%Q ↔
    (xv s t0 + BOX_GAP <= z)%Q ∧ ∀ ev, ev ∈ boxes → t0 < bx_end ev ≤ t → above z (contrib (xv s) ev);
  sc_filled ev l p : ev ∈ consumed → (l, p) ∈ to_of (bx_gid ev) →
    ∃ ps, linearizationPositions s !! l = Some ps ∧ (Z.to_nat p < length ps)%nat
}.

Lemma above_bind {A} (f : A → list Q) (l : list A) z : above z (l ≫= f) ↔ ∀ a, a ∈ l → above z (f a).
Proof.
  unfold above. split.
  - intros H a Ha y Hy. apply H, list_elem_of_bind. by exists a.
  - intros H y (a & Hy & Ha)%list_elem_of_bind. by eapply H.
Qed.

(** *** One more timestamp *)

(** [s] with the new points of [s'] and [ts], after all that is placed, at [q]. *)
Section extend.
Context (s s' : scan) (ts : Z) (q : Q) (Hgr : grows s s') (Hlast : ∀ t, placed s t → t < ts).
Let s2 := mkScan (<[ts := Some q]> (xPos s')) (linearizationPositions s').

Lemma ext_x t : x_of s2 t = if decide (t = ts) then Some q else x_of s t.
Proof.
  unfold x_of at 1. simpl. case_decide as E; [subst; by rewrite lookup_insert_eq|].
  rewrite lookup_insert_ne by done. apply (grows_x _ _ Hgr).
Qed.
Lemma ext_old t : t ≠ ts → xv s2 t = xv s t.
Proof. intros Hne. unfold xv. by rewrite ext_x, decide_False. Qed.
Lemma ext_new : xv s2 ts = q.
Proof. unfold xv. by rewrite ext_x, decide_True. Qed.
Lemma ext_placed t : placed s2 t ↔ placed s t ∨ t = ts.
Proof. unfold placed. rewrite ext_x. case_decide; naive_solver. Qed.

Lemma ext_points : points_ok s' → points_ok s2.
Proof.
  intros [Hlen Hpk]. destruct (grows_x _ _ Hgr) as [Hx Hxv]. split; [done|]. intros l ps lin Hl Hlin.
  destruct (Hpk l ps lin Hl Hlin) as (Hle & Eps & Hst). rewrite Hxv in Eps.
  assert (∀ g, g ∈ take (length ps) lin → placed s (start_of g)) as Hst'.
  { intros g Hg. destruct (Hst g Hg) as [x Hxg]. exists x. by rewrite <-Hx. }
  split_and!; [done| |].
  - rewrite Eps at 1. rewrite !take_points. f_equal. apply points_ext. intros g Hg. symmetry. apply ext_old.
    specialize (Hlast _ (Hst' g Hg)). lia.
  - intros g Hg. apply ext_placed. left. by apply Hst'.
Qed.

Lemma ext_contrib ev : box_ok ev → bx_end ev ≤ ts → contrib (xv s2) ev = contrib (xv s) ev.
Proof. intros Hev He. apply contrib_ext; [done|]. intros g Hg Hs. apply ext_old. lia. Qed.
End extend.

(** In a sorted list, what comes before [ts]. *)
Lemma sorted_before (done todo : list Z) ts : StronglySorted Z.lt (done ++ ts :: todo) →
  (∀ t, t ∈ done → t < ts) ∧ ∀ t, t ∈ done ++ ts :: todo → t < ts → t ∈ done.
Proof.
  intros (H1 & _ & [_ H2]%StronglySorted_inv)%StronglySorted_app. rewrite Forall_forall in H2.
  split; [intros t Ht; apply H1; [done|by left]|].
  intros t [Ht|[->|Ht]%elem_of_cons]%elem_of_app Hlt; [done|lia|]. specialize (H2 t Ht). lia.
Qed.

(** The new constraint: [q] clears [t0] and reaches what [new] needs. *)
Lemma extend_steps done t0 ts consumed new rest s s' :
  (∀ t, t ∈ done ++ [t0] → t < ts) → boxes = consumed ++ new ++ rest →
  Forall (λ ev, bx_end ev ≤ t0) consumed → Forall (λ ev, t0 < bx_end ev ≤ ts) new → Forall (λ ev, ts < bx_end ev) rest →
  scanned (done ++ [t0]) consumed s → grows s s' →
  let q := foldl Qmax (xv s t0 + BOX_GAP)%Q (new ≫= contrib (xv s)) in
  let s2 := mkScan (<[ts := Some q]> (xPos s')) (linearizationPositions s') in
  ∀ i t1 t, (done ++ [t0; ts]) !! i = Some t1 → (done ++ [t0; ts]) !! S i = Some t → ∀ z, (xv s2 t <= z)%Q ↔
    (xv s2 t1 + BOX_GAP <= z)%Q ∧ ∀ ev, ev ∈ boxes → t1 < bx_end ev ≤ t → above z (contrib (xv s2) ev).
Proof.
  intros Hlt Eb Hcons Hnew Hrest Hsc Hgr q s2 i t1 t Ht1 Ht z.
  assert (∀ ev, ev ∈ boxes → bx_end ev ≤ ts → contrib (xv s2) ev = contrib (xv s) ev) as Hce.
  { intros ev Hev He. apply ext_contrib; [done|by eapply Forall_forall|done]. }
  assert (∀ t, t ∈ done ++ [t0] → xv s2 t = xv s t) as Hold.
  { intros t' Ht'. apply ext_old; [done|]. specialize (Hlt t' Ht'). lia. }
  replace (done ++ [t0; ts]) with ((done ++ [t0]) ++ [ts]) in Ht, Ht1 by (by rewrite <-(assoc_L (++))).
  pose proof (lookup_lt_Some _ _ _ Ht) as Hi. rewrite !length_app in Hi. simpl in Hi.
  rewrite lookup_app_l in Ht1 by (rewrite length_app; simpl; lia).
  rewrite (Hold t1) by (by eapply list_elem_of_lookup_2).
  apply lookup_snoc_Some in Ht as [[Hi' Ht]|[Ei <-]].
  - pose proof (list_elem_of_lookup_2 _ _ _ Ht) as Hin. rewrite (Hold t Hin), (sc_step _ _ _ Hsc i t1 t Ht1 Ht z).
    specialize (Hlt t Hin). split; intros [Hg He]; (split; [done|]); intros ev Hev Hb; specialize (He ev Hev Hb);
      rewrite (Hce ev Hev) in *; (done || lia).
  - rewrite length_app, Nat.add_1_r in Ei. injection Ei as ->. rewrite list_lookup_middle in Ht1 by done. injection Ht1 as <-.
    unfold s2 at 1. rewrite (ext_new s) by done. unfold q. rewrite foldl_Qmax, above_bind.
    rewrite Forall_forall in Hcons, Hnew, Hrest. split; intros [Hg He]; (split; [done|]).
    + intros ev Hev Hb. rewrite (Hce ev Hev) by lia. apply He. rewrite Eb, !elem_of_app in Hev.
      destruct Hev as [Hev|[Hev|Hev]]; [specialize (Hcons ev Hev); lia|done|specialize (Hrest ev Hev); lia].
    + intros ev Hev. assert (ev ∈ boxes) as Hin by (rewrite Eb; set_solver). destruct (Hnew ev Hev).
      rewrite <-(Hce ev Hin) by done. by apply He.
Qed.

Lemma scan_step_ok done todo t0 ts consumed rest s :
  StronglySorted Z.lt (done ++ [t0] ++ ts :: todo) →
  (∀ g, (g < length els)%nat → start_of g ∈ done ++ [t0] ++ ts :: todo) →
  boxes = consumed ++ rest → StronglySorted (λ a b, bx_end a ≤ bx_end b) boxes →
  Forall (λ ev, bx_end ev ≤ t0) consumed → Forall (λ ev, t0 < bx_end ev) rest →
  scanned (done ++ [t0]) consumed s →
  ∃ new rest' s' q, rest = new ++ rest' ∧ Forall (λ ev, bx_end ev ≤ ts) new ∧ Forall (λ ev, ts < bx_end ev) rest' ∧
    place_events parts pre ts rest (s, num_add (x_of s t0) (Some BOX_GAP)) = Ret (rest', (s', Some q)) ∧
    scanned (done ++ [t0; ts]) (consumed ++ new) (mkScan (<[ts := Some q]> (xPos s')) (linearizationPositions s')).
Proof.
  intros Hts Hstarts Eb Hsort Hcons Hrest Hsc. pose proof Hsc as [Hok Hpl Hfirst Hstep Hfill].
  rewrite (assoc_L (++)) in Hts, Hstarts. destruct (sorted_before _ _ _ Hts) as [Hlt Hbefore].
  destruct (proj2 (Hpl t0)) as [x0 Hx0]; [set_solver|].
  assert (xv s t0 = x0) as Exv0 by (unfold xv; by rewrite Hx0).
  destruct (place_events_ok ts rest s (xv s t0 + BOX_GAP)%Q Hok) as (new & rest' & s' & -> & Hnew & Hrest' & E & Hok' & Hgr & Hfill').
  { rewrite Eb in Hboxes. by apply Forall_app in Hboxes as [_ ?]. }
  { rewrite Eb in Hsort. by apply StronglySorted_app in Hsort as (_ & _ & ?). }
  { intros g Hg Hs. by apply Hpl, Hbefore; [apply Hstarts|]. }
  exists new, rest', s', (foldl Qmax (xv s t0 + BOX_GAP) (new ≫= contrib (xv s)))%Q.
  split_and!; [done..|by rewrite Hx0, <-Exv0|]. split.
  - apply (ext_points s); [done|intros t Ht; by apply Hlt, Hpl|done].
  - intros t. rewrite (ext_placed s), Hpl by done. set_solver.
  - intros t Ht. assert (t ∈ done ++ [t0]) as Ht' by (destruct done; injection Ht as ->; set_solver).
    rewrite (ext_old s); [apply Hfirst; by destruct done|done|]. apply Hlt in Ht'. lia.
  - apply extend_steps with consumed rest'; [done|done|done| |done|done|done].
    apply Forall_app in Hrest as [Hrest _]. rewrite Forall_forall in *. auto.
  - intros ev l p [Hev|Hev]%elem_of_app Hlp; [|by eapply Hfill'].
    destruct (Hfill ev l p Hev Hlp) as (ps & Hl & ?). destruct (proj2 Hgr _ _ Hl) as (ps' & ? & ?).
    exists ps'. split; [done|lia].
Qed.

Lemma scan_from_ok todo t0 done consumed rest s :
  StronglySorted Z.lt (done ++ [t0] ++ todo) →
  (∀ g, (g < length els)%nat → start_of g ∈ done ++ [t0] ++ todo) →
  (∀ ev, ev ∈ boxes → bx_end ev ∈ done ++ [t0] ++ todo) →
  boxes = consumed ++ rest → StronglySorted (λ a b, bx_end a ≤ bx_end b) boxes →
  Forall (λ ev, bx_end ev ≤ t0) consumed → Forall (λ ev, t0 < bx_end ev) rest →
  scanned (done ++ [t0]) consumed s →
  ∃ s', scan_from parts pre t0 todo rest s = Ret s' ∧ scanned (done ++ [t0] ++ todo) boxes s'.
Proof.
  revert t0 done consumed rest s. induction todo as [|ts todo IH]; intros t0 done consumed rest s Hts Hst Hen Eb Hsort Hcons Hrest Hsc.
  - exists s. split; [done|]. assert (rest = []) as ->; [|by rewrite app_nil_r in Eb; rewrite Eb].
    destruct rest as [|ev rest]; [done|]. apply Forall_cons in Hrest as [Hev _].
    assert (bx_end ev ∈ done ++ [t0]) as Hin by (apply Hen; rewrite Eb; set_solver).
    apply StronglySorted_app in Hts as (Hlt & _ & _). apply elem_of_app in Hin as [Hin|Hin%list_elem_of_singleton]; [|lia].
    specialize (Hlt _ t0 Hin ltac:(by left)). lia.
  - destruct (scan_step_ok done todo t0 ts consumed rest s) as (new & rest' & s' & q & -> & Hnew & Hrest' & E & Hsc'); [done..|].
    cbn [scan_from]. rewrite E. cbn [mbind result_bind].
    destruct (IH ts (done ++ [t0]) (consumed ++ new) rest' (mkScan (<[ts:=Some q]> (xPos s')) (linearizationPositions s')))
      as (s2 & E2 & Hsc2).
    + by rewrite <-(assoc_L (++)).
    + intros g Hg. specialize (Hst g Hg). by rewrite <-(assoc_L (++)).
    + intros ev Hev. specialize (Hen ev Hev). by rewrite <-(assoc_L (++)).
    + by rewrite <-(assoc_L (++)).
    + done.
    + apply Forall_app. split; [|done]. eapply Forall_impl; [exact Hcons|]. intros ev Hev. simpl in *.
      apply StronglySorted_app in Hts as (_ & _ & Hts). apply StronglySorted_inv in Hts as [_ Hts].
      apply Forall_cons in Hts as [Hlt _]. lia.
    + done.
    + by rewrite <-(assoc_L (++)).
    + exists s2. split; [done|]. by rewrite <-(assoc_L (++)) in Hsc2.
Qed.

Lemma scan_ok t0 todo :
  StronglySorted Z.lt (t0 :: todo) → StronglySorted (λ a b, bx_end a ≤ bx_end b) boxes →
  (∀ g, (g < length els)%nat → start_of g ∈ t0 :: todo) → (∀ ev, ev ∈ boxes → bx_end ev ∈ t0 :: todo) →
  ∃ s, scan_from parts pre t0 todo boxes (mkScan {[t0 := Some 0%Q]} (replicate (length lins) [])) = Ret s ∧
    scanned (t0 :: todo) boxes s.
Proof.
  intros Hts Hsort Hst Hen. eapply (scan_from_ok todo t0 [] [] boxes); [done..| |].
  - rewrite Forall_forall in Hboxes |- *. intros ev Hev. destruct (Hboxes ev Hev) as (Hg & Es & Ee).
    pose proof (io_start Ho _ Hg). specialize (Hst _ Hg). apply StronglySorted_inv in Hts as [_ Hts].
    rewrite Forall_forall in Hts. apply elem_of_cons in Hst as [Hst|Hst]; [lia|]. specialize (Hts _ Hst). lia.
  - split.
    + split; simpl; [by rewrite length_replicate|]. intros l ps lin [-> _]%lookup_replicate _. simpl.
      split_and!; [lia|done|]. by intros g ?%not_elem_of_nil.
    + intros t. unfold placed, x_of. simpl. destruct (decide (t = t0)) as [->|Hne].
      * rewrite lookup_singleton_eq. split; [by left|by eauto].
      * rewrite lookup_singleton_ne by done. split; [by intros []|set_solver].
    + intros t [= <-]. unfold xv, x_of. simpl. by rewrite lookup_singleton_eq.
    + intros [|i] t1 t; simpl; intros ? ?; done.
    + by intros ev l p ?%not_elem_of_nil.
Qed.

(** *** The constraints *)

(** What the script lists: timestamps apart, text inside its box, every point
    inside its element's box and right of the one before, and room for an
    illegal next point. [x] is where timestamps are, [lp] where points are. *)
Record fits (sorted : list Z) (x : Z → Q) (lp : nat → nat → Q) : Prop := {
  fit_apart i t t' : sorted !! i = Some t → sorted !! S i = Some t' → (x t + BOX_GAP <= x t')%Q;
  fit_text ev : ev ∈ boxes → (x (bx_start ev) + bx_width ev <= x (bx_end ev))%Q;
  fit_on l lin p g : lins !! l = Some lin → lin !! p = Some g →
    (x (start_of g) <= lp l p)%Q ∧ (lp l p <= x (end_of g))%Q;
  fit_spaced l lin p : lins !! l = Some lin → (S p < length lin)%nat → (lp l p + EPSILON <= lp l (S p))%Q;
  fit_illegals g l lin : (g < length els)%nat → l ∈ ill_of g → lins !! l = Some lin →
    (lp l (pred (length lin)) + EPSILON <= x (end_of g))%Q
}.

Lemma boxes_ok ev : ev ∈ boxes → box_ok ev.
Proof. by apply Forall_forall. Qed.

(** Positions that fit grow with time. *)
Lemma fits_mono sorted x lp i j a b : fits sorted x lp → StronglySorted Z.lt sorted →
  sorted !! i = Some a → sorted !! j = Some b → a ≤ b → (x a <= x b)%Q.
Proof.
  intros Hf Hs Hi Hj Hab. assert ((i ≤ j)%nat) as Hij.
  { destruct (decide (j < i)%nat) as [Hlt|]; [|lia]. apply (sorted_lookup _ _ _ _ _ Hs Hj Hi) in Hlt. lia. }
  clear Hab. revert b Hj. induction Hij as [|j Hij IH]; intros b Hj; [simplify_eq; apply Qle_refl|].
  destruct (lookup_lt_is_Some_2 sorted j) as [c Hc]; [apply lookup_lt_Some in Hj; lia|].
  eapply Qle_trans; [by apply IH|]. pose proof (fit_apart _ _ _ Hf j c b Hc Hj). unfold BOX_GAP in *. lra.
Qed.

Context (Hcover : ∀ g, (g < length els)%nat → ∃ ev, ev ∈ boxes ∧ bx_gid ev = g).

Lemma point_lookup x l lin p g : lins !! l = Some lin → lin !! p = Some g →
  lin_points x lin !! p = Some (point x l (Z.of_nat p)) ∧ (x (start_of g) <= point x l (Z.of_nat p))%Q.
Proof.
  intros Hl Hg. destruct (points_lookup (λ g, x (start_of g)) None lin p g Hg) as (q & Hq & Hle).
  unfold point. rewrite Hl, Nat2Z.id, Hq. done.
Qed.

Section result.
Context (sorted : list Z) (s : scan) (Hsc : scanned sorted boxes s).
Context (Hts : StronglySorted Z.lt sorted) (Hst : ∀ g, (g < length els)%nat → start_of g ∈ sorted).
Context (Hen : ∀ ev, ev ∈ boxes → bx_end ev ∈ sorted).

(** The first timestamp is not an end, so that each end has one before it. *)
Lemma end_step ev : ev ∈ boxes → ∃ i t0, sorted !! i = Some t0 ∧ sorted !! S i = Some (bx_end ev) ∧ t0 < bx_end ev.
Proof.
  intros Hev. destruct (proj1 (list_elem_of_lookup _ _) (Hen ev Hev)) as [j Hj]. destruct (boxes_ok ev Hev) as (Hg & Es & Ee).
  pose proof (io_start Ho _ Hg) as Hlt. destruct (proj1 (list_elem_of_lookup _ _) (Hst _ Hg)) as [k Hk].
  rewrite <-Es, <-Ee in *. pose proof (proj1 (sorted_lookup _ k j _ _ Hts Hk Hj) Hlt) as Hkj.
  destruct j as [|j]; [lia|].
  destruct (lookup_lt_is_Some_2 sorted j) as [t0 Ht0]; [apply lookup_lt_Some in Hj; lia|].
  exists j, t0. split_and!; [done|done|]. apply (sorted_lookup _ j (S j) _ _ Hts Ht0 Hj). lia.
Qed.

Lemma contrib_reached ev y : ev ∈ boxes → y ∈ contrib (xv s) ev → (y <= xv s (bx_end ev))%Q.
Proof.
  intros Hev Hy. destruct (end_step ev Hev) as (i & t0 & H0 & H1 & Hlt).
  destruct (proj1 (sc_step _ _ _ Hsc i t0 _ H0 H1 (xv s (bx_end ev)))) as [_ He]; [apply Qle_refl|].
  apply (He ev Hev); [lia|done].
Qed.

Lemma scanned_fits : fits sorted (xv s) (λ l p, point (xv s) l (Z.of_nat p)).
Proof.
  split.
  - intros i t t' Ht Ht'. apply (sc_step _ _ _ Hsc i t t' Ht Ht'). apply Qle_refl.
  - intros ev Hev. apply contrib_reached; [done|by left].
  - intros l lin p g Hl Hg. destruct (point_lookup (xv s) l lin p g Hl Hg) as [_ Hle]. split; [done|].
    assert ((g < length els)%nat) as Hlt by (eapply (po_in Hp); [done|by eapply list_elem_of_lookup_2]).
    destruct (Hcover g Hlt) as (ev & Hev & Eg). destruct (boxes_ok ev Hev) as (_ & _ & Ee). rewrite Eg in Ee. rewrite <-Ee. apply contrib_reached; [done|].
    right. apply elem_of_app. left. apply list_elem_of_fmap. exists (l, Z.of_nat p). split; [done|].
    apply elem_of_app. left. rewrite Eg. apply (po_to Hp _ _ _ _ (to_of_lookup g Hlt)). split; [lia|].
    exists lin. by rewrite Nat2Z.id.
  - intros l lin p Hl Hlt. destruct (lookup_lt_is_Some_2 lin p) as [g Hg]; [lia|].
    destruct (lookup_lt_is_Some_2 lin (S p)) as [g' Hg']; [lia|].
    eapply points_spaced; [apply (point_lookup (xv s) l lin p g Hl Hg)|apply (point_lookup (xv s) l lin (S p) g' Hl Hg')].
  - intros g l lin Hg Hl Hlin. destruct (Hcover g Hg) as (ev & Hev & Eg). destruct (boxes_ok ev Hev) as (_ & _ & Ee). rewrite Eg in Ee. rewrite <-Ee. apply contrib_reached; [done|].
    right. apply elem_of_app. right. rewrite Eg. apply list_elem_of_fmap. exists l. split; [|done].
    destruct (po_ill Hp _ _ _ (ill_of_lookup g Hg) Hl) as (lin' & Hlin' & Hne). simplify_eq.
    unfold last_position. rewrite Hlin. do 2 f_equal. assert (length lin ≠ 0%nat) by (by destruct lin). lia.
Qed.

(** Nothing that fits is smaller. *)
Section least.
Context (x' : Z → Q) (lp' : nat → nat → Q) (Hfit : fits sorted x' lp').

Lemma point_least l lin p : lins !! l = Some lin → (p < length lin)%nat →
  (∀ g, g ∈ take (S p) lin → (xv s (start_of g) <= x' (start_of g))%Q) → (point (xv s) l (Z.of_nat p) <= lp' l p)%Q.
Proof.
  intros Hl Hp' Hx. destruct (lookup_lt_is_Some_2 lin p) as [g Hg]; [done|].
  destruct (point_lookup (xv s) l lin p g Hl Hg) as [Hq _].
  rewrite <-(lookup_take_lt _ (S p)), take_points in Hq by lia.
  refine (points_least (λ g, xv s (start_of g)) (λ g, x' (start_of g)) (lp' l) None None (take (S p) lin) Hx _ _ I p _ Hq).
  - intros p' g' Hg'. apply lookup_take_Some in Hg' as [Hg' _]. by apply (fit_on _ _ _ Hfit l lin).
  - intros p' Hlt. rewrite length_take in Hlt. apply (fit_spaced _ _ _ Hfit l lin); [done|lia].
Qed.

(** What an event needs, once the starts before its end are no further right. *)
Lemma contrib_least ev : ev ∈ boxes →
  (∀ g, (g < length els)%nat → start_of g < bx_end ev → (xv s (start_of g) <= x' (start_of g))%Q) →
  above (x' (bx_end ev)) (contrib (xv s) ev).
Proof.
  intros Hev Hx. destruct (boxes_ok ev Hev) as (Hg & Es & Ee).
  assert (∀ l p, (l, p) ∈ to_of (bx_gid ev) ++ ((λ l, (l, last_position l)) <$> ill_of (bx_gid ev)) →
    (point (xv s) l p <= lp' l (Z.to_nat p))%Q) as Hpt.
  { intros l p Hlp. destruct (needs_placed _ l p Hg Hlp) as (H0 & lin & Hl & Hlt & Hs).
    rewrite <-(Z2Nat.id p) at 1 by done. apply (point_least l lin); [done|done|].
    intros g' Hg'. apply Hx; [|rewrite Ee; by apply Hs].
    apply elem_of_take in Hg' as (? & ? & _). eapply (po_in Hp); [done|]. by eapply list_elem_of_lookup_2. }
  assert (∀ l, l ∈ ill_of (bx_gid ev) → (point (xv s) l (last_position l) + EPSILON <= x' (bx_end ev))%Q) as Hil.
  { intros l Hl. destruct (po_ill Hp _ _ _ (ill_of_lookup _ Hg) Hl) as (lin & Hlin & Hne).
    pose proof (fit_illegals _ _ _ Hfit _ l lin Hg Hl Hlin) as Hi. rewrite Ee.
    specialize (Hpt l (last_position l)). eapply Qle_trans; [|exact Hi]. apply Qplus_le_l.
    replace (pred (length lin)) with (Z.to_nat (last_position l)) by (unfold last_position; rewrite Hlin; lia).
    apply Hpt, elem_of_app. right. apply list_elem_of_fmap. by exists l. }
  intros y [->|[([l p] & -> & Hlp)%list_elem_of_fmap|(l & -> & Hl)%list_elem_of_fmap]%elem_of_app]%elem_of_cons.
  - pose proof (fit_text _ _ _ Hfit ev Hev) as Ht. eapply Qle_trans; [|exact Ht]. apply Qplus_le_l.
    rewrite Es. apply Hx; [done|]. rewrite Ee. by apply (io_start Ho).
  - simpl. pose proof (Hpt l p Hlp) as Hle. apply elem_of_app in Hlp as [Hto|(l' & [= <- ->] & Hl)%list_elem_of_fmap].
    + apply (po_to Hp _ _ _ _ (to_of_lookup _ Hg)) in Hto as (_ & lin & Hl & Hgp).
      eapply Qle_trans; [exact Hle|]. rewrite Ee. by apply (fit_on _ _ _ Hfit l lin).
    + specialize (Hil l Hl). unfold EPSILON in Hil. lra.
  - by apply Hil.
Qed.

Lemma scanned_least : (∀ t, head sorted = Some t → (0 <= x' t)%Q) →
  (∀ t, t ∈ sorted → (xv s t <= x' t)%Q) ∧
  ∀ l lin p, lins !! l = Some lin → (p < length lin)%nat → (point (xv s) l (Z.of_nat p) <= lp' l p)%Q.
Proof.
  intros H0.
  assert (∀ t, t ∈ sorted → (xv s t <= x' t)%Q) as Hle.
  { intros t [i Hi]%list_elem_of_lookup. revert t Hi. induction i as [i IH] using lt_wf_ind. intros t Hi.
    destruct i as [|i].
    - assert (head sorted = Some t) as Hh by (by destruct sorted). rewrite (sc_first _ _ _ Hsc t Hh). by apply H0.
    - destruct (lookup_lt_is_Some_2 sorted i) as [t0 Ht0]; [apply lookup_lt_Some in Hi; lia|].
      apply (sc_step _ _ _ Hsc i t0 t Ht0 Hi). split.
      + pose proof (fit_apart _ _ _ Hfit i t0 t Ht0 Hi) as Ha. specialize (IH i ltac:(lia) t0 Ht0).
        eapply Qle_trans; [|exact Ha]. by apply Qplus_le_l.
      + intros ev Hev [Hlt Hte]. assert (bx_end ev = t) as <-.
        { destruct (end_step ev Hev) as (j & t1 & H1 & Hj & Hlt').
          destruct (proj1 (Z.lt_eq_cases _ _) Hte) as [Hlt2|]; [exfalso|done].
          apply (sorted_lookup _ _ _ _ _ Hts Hj Hi) in Hlt2. apply (sorted_lookup _ _ _ _ _ Hts Ht0 Hj) in Hlt. lia. }
        apply contrib_least; [done|]. intros g Hg Hs.
        destruct (proj1 (list_elem_of_lookup _ _) (Hst g Hg)) as [k Hk]. apply (IH k); [|done].
        by apply (sorted_lookup _ _ _ _ _ Hts Hk Hi). }
  split; [done|]. intros l lin p Hl Hlt. apply (point_least l lin); [done|done|].
  intros g Hg. apply Hle, Hst. apply elem_of_take in Hg as (? & ? & _).
  eapply (po_in Hp); [done|]. by eapply list_elem_of_lookup_2.
Qed.
End least.
End result.
End scan.
