(* ===== verification/PagePrep.v ===== *)
(** What Page.v's passes over the data compute: numbered elements with ends
    moved off the starts, and for each element the points that go through it
    and the linearizations it could come next in. *)
From Stdlib Require Import ZArith QArith Lia.
From stdpp Require Import base gmap sets list strings sorting.
From S2P Require Import Prelude Visualization Page PageLayout.
#[local] Open Scope Z_scope.

(** ** [forEach] in [forEach] *)

Lemma foldM_nested {A B C} (f : B → A → C → result A) (g : B → list C) a l :
  foldM (λ a b, foldM (f b) a (g b)) a l = foldM (λ a bc, f bc.1 a bc.2) a (l ≫= λ b, (b,.) <$> g b).
Proof.
  revert a. induction l as [|b l IH]; intros a; [done|]. cbn [foldM mbind list_bind].
  rewrite foldM_app. assert (foldM (λ a bc, f bc.1 a bc.2) a ((b,.) <$> g b) = foldM (f b) a (g b)) as ->.
  { generalize (g b). clear. intros cs. revert a. induction cs as [|c cs IH]; intros a; [done|]. cbn.
    destruct (f b a c); cbn; [apply IH|done|done]. }
  destruct (foldM (f b) a (g b)); cbn; [apply IH|done|done].
Qed.

(** ** Points and illegal next operations *)

Definition gids_of (hist : list element) (lin : partialLinearization) : list nat :=
  (λ step, default 0%nat (Gid <$> hist !! Z.to_nat (Index step))) <$> lin.
Definition in_range (hist : list element) (lin : partialLinearization) : Prop :=
  ∀ step, step ∈ lin → 0 ≤ Index step < Z.of_nat (length hist).

(** [alter] at one index. *)
Lemma elem_of_alter {A} (f : list A → list A) i (ll : list (list A)) g l' :
  alter f i ll !! g = Some l' → ∃ l, ll !! g = Some l ∧ l' = if decide (g = i) then f l else l.
Proof.
  destruct (decide (g = i)) as [->|Hne].
  - rewrite list_lookup_alter_eq. intros (l & -> & ->)%fmap_Some. by exists l.
  - rewrite list_lookup_alter_ne by done. eauto.
Qed.

Lemma globalize_ok hist lgid lin to : in_range hist lin →
  ∃ to', foldM (globalize_step hist lgid) ([], to) lin = Ret (gids_of hist lin, to') ∧ length to' = length to ∧
    ∀ g tg', to' !! g = Some tg' → ∃ tg, to !! g = Some tg ∧
      ∀ l p, (l, p) ∈ tg' ↔ (l, p) ∈ tg ∨ l = lgid ∧ 0 ≤ p ∧ gids_of hist lin !! Z.to_nat p = Some g.
Proof.
  intros Hr.
  destruct (foldM_inv (globalize_step hist lgid) (λ done acc, acc.1 = gids_of hist done ∧ length acc.2 = length to ∧
    ∀ g tg', acc.2 !! g = Some tg' → ∃ tg, to !! g = Some tg ∧
      ∀ l p, (l, p) ∈ tg' ↔ (l, p) ∈ tg ∨ l = lgid ∧ 0 ≤ p ∧ gids_of hist done !! Z.to_nat p = Some g) ([], to) lin)
    as ([gl to'] & E & Eg & Hlen & Hto).
  - split_and!; [done|done|]. intros g tg Hg. exists tg. split; [done|]. intros l p. simpl. naive_solver.
  - intros done step rest [gl to1] El (Eg & Hlen & Hto). simpl in *. subst gl.
    destruct (Hr step) as [H0 H1]; [rewrite El; set_solver|].
    destruct (lookup_lt_is_Some_2 hist (Z.to_nat (Index step))) as [el Hel]; [lia|].
    unfold globalize_step. rewrite (proj2 (js_index_some hist (Index step) el)) by done. cbn [mbind result_bind].
    assert (gids_of hist (done ++ [step]) = gids_of hist done ++ [Gid el]) as Egs.
    { unfold gids_of. rewrite fmap_app. simpl. by rewrite Hel. }
    eexists. split; [done|]. simpl. rewrite Egs. split_and!; [done|by rewrite length_alter|].
    intros g tg' (t1 & Ht1 & ->)%elem_of_alter. destruct (Hto g t1 Ht1) as (tg & Htg & Hmem).
    exists tg. split; [done|]. intros l p. rewrite lookup_snoc_Some.
    assert ((l, p) ∈ t1 ++ [(lgid, Z.of_nat (length (gids_of hist done)))] ↔
      (l, p) ∈ t1 ∨ l = lgid ∧ p = Z.of_nat (length (gids_of hist done))) as Happ by set_solver.
    pose proof (lookup_lt_Some (gids_of hist done) (Z.to_nat p) g) as Hlt.
    case_decide as Hg; [rewrite Happ|]; rewrite Hmem; clear Happ Hmem Hto Ht1 Htg; split.
    + intros [[?|(? & ? & ?)]|[-> ->]]; [by left|right; auto 10|].
      right. split_and!; [done|lia|right; split; [lia|done]].
    + intros [?|(? & ? & [[? ?]|[? ?]])]; [by left; left|left; right; auto 10|right; split; [done|lia]].
    + intros [?|(? & ? & ?)]; [by left|right; auto 10].
    + intros [?|(? & ? & [[? ?]|[? ?]])]; [by left|right; auto 10|congruence].
  - exists to'. simpl in *. by subst gl.
Qed.

Lemma illegal_ok lgid next (ill : list (list nat)) :
  let ill' := foldl (λ ill el, alter (λ l, l ++ [lgid]) (Gid el) ill) ill next in
  length ill' = length ill ∧ ∀ g ig', ill' !! g = Some ig' → ∃ ig, ill !! g = Some ig ∧
    ∀ l, l ∈ ig' ↔ l ∈ ig ∨ l = lgid ∧ ∃ el, el ∈ next ∧ Gid el = g.
Proof.
  revert ill. induction next as [|el next IH]; intros ill; simpl.
  - split; [done|]. intros g ig Hg. exists ig. split; [done|]. intros l. split; [auto|].
    by intros [?|(_ & ? & ?%not_elem_of_nil & _)].
  - destruct (IH (alter (λ l, l ++ [lgid]) (Gid el) ill)) as [Hlen Hin]. split; [by rewrite Hlen, length_alter|].
    intros g ig' Hg. destruct (Hin g ig' Hg) as (i1 & (ig & Hig & ->)%elem_of_alter & Hmem).
    exists ig. split; [done|]. intros l. rewrite Hmem. case_decide as E.
    + rewrite elem_of_app, list_elem_of_singleton. setoid_rewrite elem_of_cons. naive_solver.
    + setoid_rewrite elem_of_cons. naive_solver.
Qed.

(** The linearizations of all partitions, one after the other. *)
Definition all_lins (parts : list page_partition) : list (page_partition * partialLinearization) :=
  parts ≫= λ p, (p,.) <$> pp_PartialLinearizations p.

Record prep_spec (n : nat) (done : list (page_partition * partialLinearization)) (st : prep) : Prop := {
  ps_all : allLinearizations st = (λ pl, gids_of (pp_History pl.1) pl.2) <$> done;
  ps_to_len : length (eventToLinearizations st) = n;
  ps_ill_len : length (eventIllegalLast st) = n;
  ps_to g tg l p : eventToLinearizations st !! g = Some tg →
    (l, p) ∈ tg ↔ 0 ≤ p ∧ ∃ lin, allLinearizations st !! l = Some lin ∧ lin !! Z.to_nat p = Some g;
  ps_ill g ig l : eventIllegalLast st !! g = Some ig →
    l ∈ ig ↔ ∃ p lin el, done !! l = Some (p, lin) ∧ el ∈ next_elements (pp_History p) (included_of lin) ∧ Gid el = g
}.

Lemma preprocess_ok parts :
  (∀ p lin, p ∈ parts → lin ∈ pp_PartialLinearizations p → in_range (pp_History p) lin) →
  ∃ pre, preprocess parts = Ret pre ∧ prep_spec (length (pp_elements parts)) (all_lins parts) pre.
Proof.
  intros Hr. unfold preprocess. rewrite (foldM_nested (λ p, prep_linearization (pp_History p))).
  apply (foldM_inv _ (prep_spec (length (pp_elements parts)))).
  - split; simpl; [done|by rewrite length_replicate..| |].
    + intros g tg l p [-> _]%lookup_replicate. set_solver.
    + intros g ig l [-> _]%lookup_replicate. set_solver.
  - intros done [p lin] rest st El [Hall Htl Hil Hto Hill].
    assert ((p, lin) ∈ all_lins parts) as (p' & ((lin' & [= <- <-] & Hlin)%list_elem_of_fmap & Hp))%list_elem_of_bind
      by (rewrite El; set_solver).
    destruct (globalize_ok (pp_History p) (length (allLinearizations st)) lin (eventToLinearizations st) (Hr p lin Hp Hlin))
      as (to' & E & Hlen' & Hto').
    destruct (illegal_ok (length (allLinearizations st)) (next_elements (pp_History p) (included_of lin)) (eventIllegalLast st))
      as [Hilen Hill'].
    assert (length (allLinearizations st) = length done) as Eld by (rewrite Hall; apply length_fmap).
    unfold prep_linearization. cbn [fst snd]. rewrite E. cbn [mbind result_bind]. eexists. split; [done|].
    split; cbn [allLinearizations eventToLinearizations eventIllegalLast].
    + by rewrite fmap_app, Hall.
    + congruence.
    + congruence.
    + intros g tg' l q Hg. destruct (Hto' g tg' Hg) as (tg & Htg & Hmem). rewrite Hmem, (Hto g tg l q Htg).
      setoid_rewrite lookup_snoc_Some. clear -Hall. split.
      * intros [(? & l0 & Hl & ?)|(-> & ? & ?)]; (split; [done|]).
        -- exists l0. split; [left; split; [by eapply lookup_lt_Some|done]|done].
        -- eexists. split; [right; by split|done].
      * intros (? & l0 & [[? ?]|[? <-]] & ?); [left|right]; eauto.
    + intros g ig' l Hg. destruct (Hill' g ig' Hg) as (ig & Hig & Hmem). rewrite Hmem, (Hill g ig l Hig), Eld.
      setoid_rewrite lookup_snoc_Some. clear. split.
      * intros [(p0 & l0 & el & Hl & ? & ?)|(-> & el & ? & ?)].
        -- exists p0, l0, el. split_and!; [left; split; [by eapply lookup_lt_Some|done]|done|done].
        -- exists p, lin, el. split_and!; [right; by split|done|done].
      * intros (p0 & l0 & el & [[? ?]|[? [= <- <-]]] & ? & ?); [left|right]; eauto 6.
Qed.

(** ** Times *)

Lemma Number_exact z : - 2^53 < z < 2^53 → Number z = z.
Proof. intros Hz. unfold Number. rewrite decide_True; [done|lia]. Qed.

(** Rounding a positive integer stays within its power of two, and is
    monotone. *)
Definition round53 (a : Z) : Z :=
  let u := 2 ^ (Z.log2 a - 52) in
  u * (if decide (2 * (a mod u) < u ∨ (2 * (a mod u) = u ∧ Z.even (a / u) = true)) then a / u else a / u + 1).

Lemma round53_range a : 2^53 ≤ a → 2 ^ Z.log2 a ≤ round53 a ≤ 2 ^ (Z.log2 a + 1).
Proof.
  intros Ha. pose proof (Z.log2_spec a ltac:(lia)) as [H1 H2]. assert (53 ≤ Z.log2 a) as Hk by (apply Z.log2_le_pow2; lia).
  unfold round53. set (k := Z.log2 a) in *. set (u := 2 ^ (k - 52)).
  assert (0 < u) as Hu by (unfold u; lia).
  assert (2 ^ k = u * 2^52) as Ek by (unfold u; rewrite <-Z.pow_add_r by lia; f_equal; lia).
  assert (2 ^ (k + 1) = u * 2^53) as Ek' by (unfold u; rewrite <-Z.pow_add_r by lia; f_equal; lia).
  replace (Z.succ k) with (k + 1) in H2 by lia. rewrite Ek, Ek' in *.
  pose proof (Z.div_mod a u ltac:(lia)) as Hdm. pose proof (Z.mod_pos_bound a u Hu) as Hm.
  assert (2^52 ≤ a / u < 2^53) as Hq by (split; [apply Z.div_le_lower_bound|apply Z.div_lt_upper_bound]; lia).
  split; case_decide; nia.
Qed.

Lemma round53_mono a b : 2^53 ≤ a → a ≤ b → round53 a ≤ round53 b.
Proof.
  intros Ha Hab. destruct (Z.lt_eq_cases (Z.log2 a) (Z.log2 b)) as [[Hlt|Heq] _]; [by apply Z.log2_le_mono|..].
  - pose proof (round53_range a Ha) as [_ H1]. pose proof (round53_range b ltac:(lia)) as [H2 _].
    assert (2 ^ (Z.log2 a + 1) ≤ 2 ^ Z.log2 b) by (apply Z.pow_le_mono_r; lia). lia.
  - unfold round53. rewrite <-Heq. set (u := 2 ^ _).
    assert (53 ≤ Z.log2 a) by (apply Z.log2_le_pow2; lia). assert (0 < u) as Hu by (unfold u; lia).
    pose proof (Z.div_mod a u ltac:(lia)) as Ea. pose proof (Z.mod_pos_bound a u Hu).
    pose proof (Z.div_mod b u ltac:(lia)) as Eb. pose proof (Z.mod_pos_bound b u Hu).
    pose proof (Z.div_le_mono a b u Hu Hab) as Hq. apply Z.mul_le_mono_nonneg_l; [lia|].
    destruct (Z.lt_eq_cases (a / u) (b / u)) as [[Hlt|Eq] _]; [done|repeat case_decide; lia|].
    rewrite Eq in *. repeat case_decide; try lia. exfalso.
    assert (a mod u ≤ b mod u) by lia.
    match goal with Hu' : ¬ _, Hd : _ ∨ _ |- _ => destruct Hd as [?|[? ?]]; apply Hu'; [left; lia|] end.
    destruct (decide (2 * (a mod u) < u)); [by left|right; split; [lia|done]].
Qed.

Lemma Number_mono a b : a ≤ b → Number a ≤ Number b.
Proof.
  assert (∀ z, Number z = if decide (Z.abs z < 2^53) then z else Z.sgn z * round53 (Z.abs z)) as E by done.
  assert (∀ z, 2^53 ≤ z → 2^53 ≤ round53 z) as Hlow.
  { intros z Hz. pose proof (round53_range z Hz) as [H _]. assert (53 ≤ Z.log2 z) by (apply Z.log2_le_pow2; lia).
    assert (2^53 ≤ 2 ^ Z.log2 z) by (apply Z.pow_le_mono_r; lia). lia. }
  intros Hab. rewrite !E. repeat case_decide; [done|..].
  - assert (2^53 ≤ b) by lia. rewrite Z.sgn_pos, Z.abs_eq by lia. specialize (Hlow b). lia.
  - assert (a ≤ - 2^53) by lia. rewrite Z.sgn_neg, Z.abs_neq by lia. specialize (Hlow (- a)). lia.
  - destruct (decide (0 ≤ a)).
    + rewrite !Z.sgn_pos, !Z.abs_eq by lia. pose proof (round53_mono a b). lia.
    + rewrite (Z.sgn_neg a), (Z.abs_neq a) by lia. destruct (decide (0 ≤ b)).
      * rewrite Z.sgn_pos, Z.abs_eq by lia. pose proof (Hlow (- a)). pose proof (Hlow b). lia.
      * rewrite Z.sgn_neg, Z.abs_neq by lia. pose proof (round53_mono (- b) (- a)). lia.
Qed.

Lemma sorted_array_ok s : StronglySorted Z.lt (sorted_array s) ∧ ∀ t, t ∈ sorted_array s ↔ t ∈ s.
Proof.
  unfold sorted_array. pose proof (merge_sort_Permutation Z.le (elements s)) as Hp. split.
  - assert (StronglySorted Z.le (merge_sort Z.le (elements s))) as Hs.
    { apply Sorted_StronglySorted; [intros a b c; lia|]. apply Sorted_merge_sort. intros a b. lia. }
    assert (NoDup (merge_sort Z.le (elements s))) as Hn by (rewrite Hp; apply NoDup_elements).
    clear Hp. induction Hs as [|a l Hs IH Ha]; [constructor|]. apply NoDup_cons in Hn as [Hna Hn]. constructor.
    + by apply IH.
    + rewrite Forall_forall in Ha |- *. intros b Hb. specialize (Ha b Hb).
      assert (a ≠ b) by congruence. lia.
  - intros t. by rewrite Hp, elem_of_elements.
Qed.

Lemma next_timestamps_ok l a b : StronglySorted Z.lt l →
  next_timestamps l !! a = Some b ↔ ∃ i, l !! i = Some a ∧ l !! S i = Some b.
Proof.
  intros Hs. unfold next_timestamps. rewrite <-elem_of_list_to_map.
  - rewrite list_elem_of_lookup. setoid_rewrite lookup_zip_with_Some. setoid_rewrite lookup_tail. naive_solver.
  - assert (NoDup l) as Hn.
    { clear -Hs. induction Hs as [|c l Hs IH Hc]; constructor; [|done]. intros Hin.
      rewrite Forall_forall in Hc. specialize (Hc c Hin). lia. }
    assert ((zip l (tail l)).*1 = take (length (tail l)) l) as ->.
    { clear. destruct l as [|c l]; [done|]. simpl. revert c. induction l as [|d l IH]; intros c; [done|].
      simpl. by rewrite IH. }
    rewrite <-(take_drop (length (tail l)) l) in Hn. by apply NoDup_app in Hn as [? _].
Qed.

(** A half way point is strictly between two whole times, and exact. *)
Lemma midpoint_between a b : a < b → - 2^52 < a → b < 2^52 →
  2 * a < midpoint (2 * a) (2 * b) < 2 * b.
Proof.
  intros. unfold midpoint. replace ((2 * a + 2 * b) / 2) with (a + b) by (Z.div_mod_to_equations; lia).
  rewrite Number_exact; lia.
Qed.

Definition shown_elements (data : list partitionVisualizationData) : list historyElement := data ≫= History.

(** Times small enough for their midpoints to be exact. *)
Definition small_times (data : list partitionVisualizationData) : Prop :=
  ∀ he, he ∈ shown_elements data → - 2^52 < Start he < 2^52 ∧ - 2^52 < he_End he < 2^52.

(** Operations end no earlier than they start, and if one ends, as a double,
    when another starts, all times are small and the start is not the very
    last of them. *)
Record times_ok (data : list partitionVisualizationData) : Prop := {
  to_interval he : he ∈ shown_elements data → Start he ≤ he_End he;
  to_tied he he' : he ∈ shown_elements data → he' ∈ shown_elements data → Number (he_End he) = Number (Start he') →
    small_times data ∧ ∃ he2, he2 ∈ shown_elements data ∧ Start he' < he_End he2
}.

(** How the page shows an operation. *)
Record shown (he : historyElement) (el : element) : Prop := {
  sh_client : el_ClientId el = Number (he_ClientId he);
  sh_start : el_Start el = 2 * Number (Start he);
  sh_original : OriginalEnd el = 2 * Number (he_End he);
  sh_description : el_Description el = Description he
}.

Lemma tweak_elements starts nextTs parts :
  pp_elements (tweak_partition starts nextTs <$> parts) = tweak starts nextTs <$> pp_elements parts.
Proof.
  induction parts as [|p parts IH]; [done|]. unfold pp_elements in *. rewrite fmap_cons. cbn [mbind list_bind].
  by rewrite IH, fmap_app.
Qed.

Section times.
Context (data : list partitionVisualizationData) (Hok : times_ok data).
Let parts0 := give_gids 0 data.
Let all := allTimestamps parts0.
Let nextTs := next_timestamps (sorted_array all).
Let starts := startTimestamps parts0.

Lemma give_gids_elements gid d :
  pp_elements (give_gids gid d) = imap (λ i, give_gid (gid + i)) (shown_elements d).
Proof.
  revert gid. induction d as [|d ds IH]; intros gid; [done|]. cbn [give_gids shown_elements].
  unfold pp_elements. cbn [mbind list_bind pp_History]. fold (pp_elements (give_gids (gid + length (History d)) ds)).
  rewrite IH. unfold shown_elements. cbn [mbind list_bind]. rewrite imap_app. f_equal. apply imap_ext.
  intros i x _. simpl. by rewrite Nat.add_assoc.
Qed.

Lemma elements0 g el : pp_elements parts0 !! g = Some el ↔ ∃ he, shown_elements data !! g = Some he ∧ el = give_gid g he.
Proof. unfold parts0. rewrite give_gids_elements, list_lookup_imap, fmap_Some. simpl. naive_solver. Qed.

Lemma elem_of_starts t : t ∈ starts ↔ ∃ he, he ∈ shown_elements data ∧ t = 2 * Number (Start he).
Proof.
  unfold starts, startTimestamps. rewrite elem_of_list_to_set, list_elem_of_fmap. split.
  - intros (el & -> & [g (he & Hg & ->)%elements0]%list_elem_of_lookup). apply list_elem_of_lookup_2 in Hg. by exists he.
  - intros (he & [g Hg]%list_elem_of_lookup & ->). exists (give_gid g he). split; [done|].
    eapply list_elem_of_lookup_2, elements0. by exists he.
Qed.

Lemma elem_of_all t : t ∈ all ↔ ∃ he, he ∈ shown_elements data ∧ (t = 2 * Number (Start he) ∨ t = 2 * Number (he_End he)).
Proof.
  unfold all, allTimestamps. fold starts. rewrite elem_of_union, elem_of_starts, elem_of_list_to_set, list_elem_of_fmap. split.
  - intros [(he & ? & ->)|(el & -> & [g (he & Hg & ->)%elements0]%list_elem_of_lookup)]; [by eauto|].
    apply list_elem_of_lookup_2 in Hg. exists he. split; [done|by right].
  - intros (he & Hin & [->| ->]); [left; by eauto|right].
    destruct (proj1 (list_elem_of_lookup _ _) Hin) as [g Hg]. exists (give_gid g he). split; [done|].
    eapply list_elem_of_lookup_2, elements0. by exists he.
Qed.

(** The timestamp after an end at which something starts. *)
Lemma next_after_end he : he ∈ shown_elements data → 2 * Number (he_End he) ∈ starts →
  ∃ b, nextTs !! (2 * Number (he_End he)) = Some b ∧ 2 * Number (he_End he) < midpoint (2 * Number (he_End he)) b.
Proof.
  intros Hin (he1 & Hin1 & E1)%elem_of_starts. destruct (sorted_array_ok all) as [Hs Hmem].
  destruct (to_tied _ Hok he he1 Hin Hin1) as (Hsmall & he2 & Hin2 & Hlt); [lia|].
  assert (∀ h, h ∈ shown_elements data → Number (Start h) = Start h ∧ Number (he_End h) = he_End h) as Hex.
  { intros h Hh. destruct (Hsmall h Hh). by rewrite !Number_exact by lia. }
  destruct (Hex he Hin) as [_ Ee], (Hex he1 Hin1) as [Es1 _], (Hex he2 Hin2) as [_ Ee2].
  assert (2 * Number (he_End he) ∈ sorted_array all) as [i Hi]%list_elem_of_lookup by (apply Hmem, elem_of_all; eauto).
  assert (2 * Number (he_End he2) ∈ sorted_array all) as [j Hj]%list_elem_of_lookup by (apply Hmem, elem_of_all; eauto).
  pose proof (proj1 (sorted_lookup _ i j _ _ Hs Hi Hj) ltac:(lia)) as Hij.
  destruct (lookup_lt_is_Some_2 (sorted_array all) (S i)) as [b Hb]; [apply lookup_lt_Some in Hj; lia|].
  exists b. split; [apply next_timestamps_ok; [done|by exists i]|].
  pose proof (proj2 (sorted_lookup _ i (S i) _ _ Hs Hi Hb) ltac:(lia)) as Hib.
  apply list_elem_of_lookup_2, Hmem, elem_of_all in Hb as (h & Hh & Hb). destruct (Hex h Hh) as [Esh Eeh].
  destruct (Hsmall he Hin), (Hsmall h Hh).
  assert (∃ c, b = 2 * c ∧ c < 2^52) as (c & -> & Hc) by (destruct Hb as [->| ->]; eexists; (split; [done|lia])).
  rewrite Ee in *. apply midpoint_between; lia.
Qed.

(** An end moves to the right, and strictly so when something starts there. *)
Lemma tweak_ok g he : shown_elements data !! g = Some he →
  let el := tweak starts nextTs (give_gid g he) in
  shown he el ∧ Gid el = g ∧ OriginalEnd el ≤ el_End el ∧ (OriginalEnd el ∈ starts → OriginalEnd el < el_End el).
Proof.
  intros Hin%list_elem_of_lookup_2. unfold tweak. cbn [give_gid el_End el_Start]. case_decide as Hst.
  - destruct (next_after_end he Hin Hst) as (b & -> & Hlt). simpl. split_and!; [by split|done|lia|done].
  - simpl. split_and!; [by split|done|lia|done].
Qed.

Let parts := (page_partitions data).1.
Let sorted := (page_partitions data).2.

Lemma elements_tweaked : pp_elements parts = tweak starts nextTs <$> pp_elements parts0.
Proof. exact (tweak_elements starts nextTs parts0). Qed.

Lemma elements_ok g el : pp_elements parts !! g = Some el → ∃ he, shown_elements data !! g = Some he ∧
  shown he el ∧ Gid el = g ∧ OriginalEnd el ≤ el_End el ∧ (OriginalEnd el ∈ starts → OriginalEnd el < el_End el).
Proof.
  rewrite elements_tweaked, list_lookup_fmap. intros (el0 & (he & Hg & ->)%elements0 & ->)%fmap_Some.
  exists he. split; [done|]. by apply tweak_ok.
Qed.

(** What starts no later than an operation returned starts before it ends on
    the page. *)
Lemma starts_before g g' el el' : pp_elements parts !! g = Some el → pp_elements parts !! g' = Some el' →
  el_Start el ≤ OriginalEnd el' → el_Start el < el_End el'.
Proof.
  intros Hg Hg' Hle. destruct (elements_ok g el Hg) as (he & Hin%list_elem_of_lookup_2 & Hsh & _).
  destruct (elements_ok g' el' Hg') as (he' & _ & _ & _ & H1 & H2).
  destruct (Z.lt_eq_cases (el_Start el) (OriginalEnd el')) as [[Hlt|E] _]; [done|lia|].
  rewrite E. apply H2. rewrite <-E, elem_of_starts. exists he. split; [done|]. apply (sh_start _ _ Hsh).
Qed.

Lemma sorted_ok : StronglySorted Z.lt sorted ∧
  ∀ g el, pp_elements parts !! g = Some el → el_Start el ∈ sorted ∧ el_End el ∈ sorted ∧ el_Start el < el_End el.
Proof.
  unfold sorted, page_partitions. cbn [snd]. fold parts0 all starts nextTs. set (s := all ∪ _).
  destruct (sorted_array_ok s) as [Hs Hmem]. split; [done|]. intros g el Hg. rewrite !Hmem. subst s.
  destruct (elements_ok g el Hg) as (he & Hin%list_elem_of_lookup_2 & Hsh & _). split_and!.
  - apply elem_of_union. left. apply elem_of_all. exists he. split; [done|left]. apply (sh_start _ _ Hsh).
  - apply elem_of_union. right. apply elem_of_list_to_set, list_elem_of_fmap. exists el. split; [done|].
    by eapply list_elem_of_lookup_2.
  - eapply starts_before; [done..|]. rewrite (sh_start _ _ Hsh), (sh_original _ _ Hsh).
    pose proof (Number_mono _ _ (to_interval _ Hok he Hin)). lia.
Qed.

(** The partitions keep their shape. *)
Lemma give_gids_parts gid d : Forall2 (λ d p, PartialLinearizations d = pp_PartialLinearizations p ∧
  Largest d = pp_Largest p ∧ ∃ gid, pp_History p = imap (λ i, give_gid (gid + i)) (History d)) d (give_gids gid d).
Proof. revert gid. induction d as [|d ds IH]; intros gid; constructor; [split_and!; eauto|apply IH]. Qed.

Lemma parts_ok : Forall2 (λ d p, PartialLinearizations d = pp_PartialLinearizations p ∧ Largest d = pp_Largest p ∧
  Forall2 shown (History d) (pp_History p)) data parts.
Proof.
  unfold parts, page_partitions. cbn [fst]. fold parts0 all starts nextTs. apply Forall2_fmap_r.
  pose proof (give_gids_parts 0 data) as H. apply Forall2_same_length_lookup in H as [Hlen H].
  apply Forall2_same_length_lookup. split; [done|]. intros i d p Hd Hp.
  destruct (H i d p Hd Hp) as (E1 & E2 & gid & E3). cbn. split_and!; [done|done|]. rewrite E3.
  apply Forall2_fmap_r, Forall2_same_length_lookup. split; [by rewrite length_imap|]. intros j he el Hhe Hel.
  rewrite list_lookup_imap, Hhe in Hel. injection Hel as <-.
  split; unfold tweak; cbn [give_gid el_End el_Start]; (case_decide; [case_match|]); simpl; done.
Qed.
End times.
