(* ===== verification/PageDraw.v ===== *)
(** The second half of the script of porcupine/visualization.go's page: what
    it draws once timestamps have their positions, and how the picture answers
    the mouse.

    A shape is the tag with the attributes that are computed; a layer ([g]) is
    the list of its shapes. [classList.contains('hidden')] and
    [('selected')] are flags. *)
From Stdlib Require Import ZArith QArith Qminmax Lia.
From stdpp Require Import base gmap sets list strings sorting.
From S2P Require Import Prelude Visualization Page.
#[local] Open Scope Z_scope.

Inductive shape :=
  | Rect (class : string) (x : num) (y : Q) (width : num) (height : Q)
  | Line (class : string) (x1 : num) (y1 : Q) (x2 : num) (y2 : Q)
  | Text (class : string) (x : num) (y : Q) (content : string).

Definition px (q : Q) : num := Some q.
Definition num_half (a : num) : num := a ← a; Some (a / 2)%Q.
Definition num_sub (a b : num) : num := a ← a; b ← b; Some (a - b)%Q.

(** [PADDING + el['ClientId'] * (BOX_HEIGHT + BOX_SPACE)] *)
Definition row_y (client : Z) : Q := (PADDING + inject_Z client * (BOX_HEIGHT + BOX_SPACE))%Q.

Section draw.
Context (xPos : Z → num).

(** ** Background and history *)

Definition page_height (nClient : Z) : Q :=
  (2 * PADDING + BOX_HEIGHT * inject_Z nClient + BOX_SPACE * inject_Z (nClient - 1))%Q.

(** [xPos[sortedTimestamps[length - 1]]]: without timestamps both the entry
    that was set and this one are [xPos['undefined']]. *)
Definition last_position (sorted : list Z) : num :=
  match last sorted with Some t => xPos t | None => px 0 end.
Definition page_width (sorted : list Z) : num := num_add (px (2 * PADDING + XOFF)) (last_position sorted).

Definition draw_background (sorted : list Z) (nClient : Z) : list shape :=
  [Rect "bg" (px 0) 0 (page_width sorted) (page_height nClient)] ++
  ((λ i, Text "" (px (XOFF / 2)) (PADDING + BOX_HEIGHT / 2 + inject_Z i * (BOX_HEIGHT + BOX_SPACE))%Q (Itoa i))
     <$> seqZ 0 nClient) ++
  [Line "divider" (px (PADDING + XOFF)) PADDING (px (PADDING + XOFF)) (page_height nClient - PADDING)].

(** The rectangle, the text and the mouse target of an element. *)
Definition draw_element (el : element) : list shape * shape :=
  let rx := xPos (el_Start el) in
  let width := num_sub (xPos (el_End el)) rx in
  let x := num_add rx (px (XOFF + PADDING)) in
  let y := row_y (el_ClientId el) in
  ([Rect "history-rect" x y width BOX_HEIGHT;
    Text "history-text" (num_add x (num_half width)) (y + BOX_HEIGHT / 2)%Q (el_Description el)],
   Rect "target-rect" x y width BOX_HEIGHT).

(** ** Partial linearizations *)

(** The previous point: its place and its element, or [null]. *)
Definition previous := option (num * Q * element).

Definition point_x (prev : previous) (el : element) : num :=
  let hereX := num_add (px (PADDING + XOFF)) (xPos (el_Start el)) in
  match prev with
  | Some (prevX, _, _) => Math_max hereX (num_add prevX (px EPSILON))
  | None => hereX
  end.
Definition point_y (el : element) : Q := (row_y (el_ClientId el) - LINE_BLEED)%Q.

Definition connecting_line (class : string) (prevX : num) (prevY : Q) (prevEl : element) (x : num) (y : Q) (el : element) : shape :=
  let bottom y := (y + BOX_HEIGHT + 2 * LINE_BLEED)%Q in
  Line class prevX (if decide (el_ClientId prevEl >= el_ClientId el) then prevY else bottom prevY)
             x (if decide (el_ClientId prevEl <= el_ClientId el) then y else bottom y).
Definition point_line (class : string) (x : num) (y : Q) : shape :=
  Line class x y x (y + BOX_HEIGHT + 2 * LINE_BLEED)%Q.

Definition draw_point (hist : list element) (acc : list shape * previous) (step : linearizationStep)
    : result (list shape * previous) :=
  let '(g, prev) := acc in
  el ← js_index hist (Index step);
  let x := point_x prev el in
  let y := point_y el in
  let from := match prev with
              | Some (prevX, prevY, prevEl) =>
                  [connecting_line "linearization linearization-line" prevX prevY prevEl x y el]
              | None => []
              end in
  Ret (g ++ from ++ [point_line "linearization linearization-point" x y], Some (x, y, el)).

Record errorPoint := mkErrorPoint {
  ep_x : num;
  ep_partition : Z;
  ep_index : Z;
  ep_layer : Z   (* [element]'s parent is this layer of the partition *)
}.

(** What the loops over partial linearizations collect for one partition. *)
Record partial_state := mkPartialState {
  ps_layers : list (list shape);
  ps_errorPoints : list errorPoint;
  ps_illegalLast : list (gset Z);
  ps_largestIllegal : gmap Z Z;
  ps_largestIllegalLength : gmap Z Z
}.

Definition draw_illegal (partitionIndex linIndex len lastIndex : Z) (prev : previous)
    (acc : list shape * partial_state) (iel : Z * element) : result (list shape * partial_state) :=
  let '(g, st) := acc in
  let '(index, el) := iel in
  let x := point_x prev el in
  let y := point_y el in
  match prev with
  | None => Panic TypeError   (* [prevEl['ClientId']] *)
  | Some (prevX, prevY, prevEl) =>
      let longer := match ps_largestIllegalLength st !! index with
                    | None => true | Some n => bool_decide (n < len) end in
      Ret (g ++ [connecting_line "linearization-invalid linearization-line" prevX prevY prevEl x y el;
                 point_line "linearization-invalid linearization-point" x y],
           mkPartialState (ps_layers st)
             (ps_errorPoints st ++ [mkErrorPoint x partitionIndex lastIndex linIndex])
             (alter (λ s, {[index]} ∪ s) (Z.to_nat linIndex) (ps_illegalLast st))
             (if longer then <[index := linIndex]> (ps_largestIllegal st) else ps_largestIllegal st)
             (if longer then <[index := len]> (ps_largestIllegalLength st) else ps_largestIllegalLength st))
  end.

(** [partition['History'].forEach((el, index) => ...)] under its condition. *)
Definition next_indexed (hist : list element) (included : gset Z) : list (Z * element) :=
  filter (λ p, p.1 ∉ included ∧ before_end (el_Start p.2) (minEnd (excluded hist included)) = true)
    (imap (λ i el, (Z.of_nat i, el)) hist).

Definition draw_linearization (partitionIndex : Z) (hist : list element) (st : partial_state)
    (lin : partialLinearization) : result partial_state :=
  let linIndex := Z.of_nat (length (ps_layers st)) in
  '(g, prev) ← foldM (draw_point hist) ([], None) lin;
  let lastIndex := default 0 (Index <$> last lin) in
  '(g, st) ← foldM (draw_illegal partitionIndex linIndex (Z.of_nat (length lin)) lastIndex prev) (g, st)
               (next_indexed hist (included_of lin));
  Ret (mkPartialState (ps_layers st ++ [g]) (ps_errorPoints st) (ps_illegalLast st) (ps_largestIllegal st)
         (ps_largestIllegalLength st)).

Definition draw_partition (partitionIndex : Z) (p : page_partition) : result partial_state :=
  foldM (draw_linearization partitionIndex (pp_History p))
    (mkPartialState [] [] (replicate (length (pp_PartialLinearizations p)) ∅) ∅ ∅) (pp_PartialLinearizations p).
End draw.

(** ** The picture *)

(** [a.x - b.x]; NaN counts as equal. *)
Definition error_before (a b : errorPoint) : bool :=
  match ep_x a, ep_x b with Some x, Some y => negb (Qle_bool y x) | _, _ => false end.

Record picture := mkPicture {
  pc_background : list shape;
  pc_history : list (list (list shape));
  pc_targets : list (list shape);
  pc_partials : list partial_state;
  errorPoints : list errorPoint
}.

Definition draw (sort : list errorPoint → list errorPoint) (l : laid) : result picture :=
  let xPos := x_of (la_scan l) in
  let parts := la_parts l in
  partials ← foldM (λ acc p, st ← draw_partition xPos (Z.of_nat (length acc)) p; Ret (acc ++ [st])) [] parts;
  Ret (mkPicture (draw_background xPos (la_sorted l) (maxClient parts + 1))
    ((λ p, (λ el, (draw_element xPos el).1) <$> pp_History p) <$> parts)
    ((λ p, (λ el, (draw_element xPos el).2) <$> pp_History p) <$> parts)
    partials (sort (partials ≫= ps_errorPoints))).

(** ** The mouse *)

Record ui := mkUi {
  selected : bool;
  selectedIndex : Z * Z;
  history_hidden : list bool;
  partial_hidden : list (list bool);
  rect_selected : list (list bool);
  jump_inactive : bool;
  jump_onclick : option errorPoint;
  tooltip_shown : bool;
  tooltip_html : string;
  tooltip_at : Z * Z;
  (** [[null, null, null, null, null]] is [None] *)
  lastTooltip : option (Z * Z * bool * Z * Z)
}.

Inductive mouse :=
  | MouseOver (partition index : Z)
  | MouseMove (partition index : Z) (pageX pageY : Z)
  | MouseOut
  | Click (partition index : Z)
  | BgClick
  | JumpClick.

(** The same flag on every one of [l]. *)
Definition fill {A} (b : bool) (l : list A) : list bool := (λ _, b) <$> l.

Section mouse.
Context (parts : list page_partition) (pic : picture).
(** How a number is written, from halves. *)
Context (number_text : Z → string).
Implicit Types (u : ui).

(** [linearizationIndex], [null] is [None]. *)
Definition linearizationIndex (partition index : Z) : result (option Z) :=
  p ← js_index parts partition;
  st ← js_index (pc_partials pic) partition;
  Ret (match pp_Largest p !! index with
       | Some i => Some i
       | None => ps_largestIllegal st !! index
       end).

Definition layer_hidden u (partition layer : Z) : bool :=
  default false (row ← partial_hidden u !! Z.to_nat partition; row !! Z.to_nat layer).

(** The first error point whose layer is not hidden. *)
Definition updateJump u : ui :=
  let point := find (λ pt, negb (layer_hidden u (ep_partition pt) (ep_layer pt))) (errorPoints pic) in
  mkUi (selected u) (selectedIndex u) (history_hidden u) (partial_hidden u) (rect_selected u)
    (match point with Some _ => false | None => true end)
    (match point with Some pt => Some pt | None => jump_onclick u end)
    (tooltip_shown u) (tooltip_html u) (tooltip_at u) (lastTooltip u).

Definition with_hidden u (history : list bool) (partials : list (list bool)) : ui :=
  mkUi (selected u) (selectedIndex u) history partials (rect_selected u) (jump_inactive u) (jump_onclick u)
    (tooltip_shown u) (tooltip_html u) (tooltip_at u) (lastTooltip u).

(** [partialLayers[partition][maxIndex].classList.remove('hidden')] *)
Definition show_layer (hidden : list (list bool)) (partition maxIndex : Z) : result (list (list bool)) :=
  row ← js_index hidden partition;
  _ ← js_index row maxIndex;
  Ret (<[Z.to_nat partition := <[Z.to_nat maxIndex := false]> row]> hidden).

Definition highlight u (partition index : Z) : result ui :=
  let history := imap (λ i _, negb (bool_decide (Z.of_nat i = partition))) (history_hidden u) in
  let partials := fill true <$> partial_hidden u in
  maxIndex ← linearizationIndex partition index;
  partials ← match maxIndex with
             | Some m => show_layer partials partition m
             | None => Ret partials
             end;
  Ret (updateJump (with_hidden u history partials)).

Definition resetHighlight u : ui :=
  updateJump (with_hidden u (fill false (history_hidden u))
    ((λ row, imap (λ i _, negb (bool_decide (i = 0%nat))) (row : list bool)) <$> partial_hidden u)).

(** [historyRects[partition][index].classList.add/remove('selected')] *)
Definition set_rect (flag : bool) u (partition index : Z) : result ui :=
  row ← js_index (rect_selected u) partition;
  _ ← js_index row index;
  Ret (mkUi (selected u) (selectedIndex u) (history_hidden u) (partial_hidden u)
    (<[Z.to_nat partition := <[Z.to_nat index := flag]> row]> (rect_selected u)) (jump_inactive u) (jump_onclick u)
    (tooltip_shown u) (tooltip_html u) (tooltip_at u) (lastTooltip u)).

Definition with_selected u (flag : bool) (at_ : Z * Z) : ui :=
  mkUi flag at_ (history_hidden u) (partial_hidden u) (rect_selected u) (jump_inactive u) (jump_onclick u)
    (tooltip_shown u) (tooltip_html u) (tooltip_at u) (lastTooltip u).

Definition select u (partition index : Z) : result ui :=
  u ← highlight (with_selected u true (partition, index)) partition index;
  set_rect true u partition index.

Definition deselect u : result ui :=
  if negb (selected u) then Ret u else
  set_rect false (resetHighlight (with_selected u false (selectedIndex u))) (selectedIndex u).1 (selectedIndex u).2.

(** *** The tooltip *)

Definition with_tooltip u (shown : bool) (html : string) (at_ : Z * Z) (last : option (Z * Z * bool * Z * Z)) : ui :=
  mkUi (selected u) (selectedIndex u) (history_hidden u) (partial_hidden u) (rect_selected u) (jump_inactive u)
    (jump_onclick u) shown html at_ last.

(** The search for [index] in [lin]: the step before it and the step, or the
    last two steps. *)
Fixpoint find_step (index : Z) (prev curr : option linearizationStep) (lin : partialLinearization)
    : bool * option linearizationStep * option linearizationStep :=
  match lin with
  | [] => (false, prev, curr)
  | step :: lin =>
      if decide (Index step = index) then (true, curr, Some step) else find_step index curr (Some step) lin
  end.

Definition call_and_return (el : element) : string :=
  "<br><br>Call: " +:+ number_text (el_Start el) +:+ "<br><br>Return: " +:+ number_text (OriginalEnd el).

Definition tooltip_message (partition index maxIndex : Z) : result string :=
  p ← js_index parts partition;
  lin ← js_index (pp_PartialLinearizations p) maxIndex;
  el ← js_index (pp_History p) index;
  match find_step index None None lin with
  | (true, prev, Some curr) =>
      Ret ((match prev with
            | Some prev => "<strong>Previous state:</strong><br>" +:+ StateDescription prev +:+ "<br><br>"
            | None => ""
            end) +:+ "<strong>New state:</strong><br>" +:+ StateDescription curr +:+ call_and_return el)
  | _ =>
      st ← js_index (pc_partials pic) partition;
      illegal ← js_index (ps_illegalLast st) maxIndex;
      if decide (index ∈ illegal) then
        match last lin with
        | Some step =>
            Ret ("<strong>Previous state:</strong><br>" +:+ StateDescription step +:+
                 "<br><br><strong>New state:</strong><br>&langle;invalid op&rangle;" +:+ call_and_return el)
        | None => Panic TypeError
        end
      else Ret "Not part of selected element's partial linearization."
  end.

(** What [handleMouseMove] puts into the tooltip. *)
Definition tooltip_for (partition index : Z) (sel : bool) (sPartition sIndex : Z) : result string :=
  maxIndex ← (if sel then linearizationIndex sPartition sIndex else linearizationIndex partition index);
  if decide (sel = true ∧ sPartition ≠ partition) then Ret "Not part of selected partition." else
  match maxIndex with
  | None => Ret (if sel then "Selected element is not part of any partial linearization."
                 else "Not part of any partial linearization.")
  | Some m => tooltip_message partition index m
  end.

Definition handleMouseMove u (partition index pageX pageY : Z) : result ui :=
  let '(sPartition, sIndex) := selectedIndex u in
  let thisTooltip := (partition, index, selected u, sPartition, sIndex) in
  html ← (if decide (lastTooltip u = Some thisTooltip) then Ret (tooltip_html u)
          else tooltip_for partition index (selected u) sPartition sIndex);
  Ret (with_tooltip u (tooltip_shown u) html (pageX + 20, pageY + 20) (Some thisTooltip)).

Definition handleMouseOver u (partition index : Z) : result ui :=
  u ← (if negb (selected u) then highlight u partition index else Ret u);
  Ret (with_tooltip u true (tooltip_html u) (tooltip_at u) (lastTooltip u)).

Definition handleMouseOut u : ui :=
  let u := if negb (selected u) then resetHighlight u else u in
  with_tooltip u false (tooltip_html u) (tooltip_at u) None.

Definition handleClick u (partition index : Z) : result ui :=
  let '(sPartition, sIndex) := selectedIndex u in
  if selected u then
    if decide (partition = sPartition ∧ index = sIndex) then deselect u
    else u ← set_rect false u sPartition sIndex; select u partition index
  else select u partition index.

(** The link is there only while it is not inactive. *)
Definition jump_click u : result ui :=
  if jump_inactive u then Ret u else
  match jump_onclick u with
  | Some point => if negb (selected u) then select u (ep_partition point) (ep_index point) else Ret u
  | None => Ret u
  end.

Definition handle u (e : mouse) : result ui :=
  match e with
  | MouseOver p i => handleMouseOver u p i
  | MouseMove p i x y => handleMouseMove u p i x y
  | MouseOut => Ret (handleMouseOut u)
  | Click p i => handleClick u p i
  | BgClick => deselect u
  | JumpClick => jump_click u
  end.

(** After the script has run: nothing has been hidden or selected, then
    [handleMouseOut()]. *)
Definition initial : ui :=
  handleMouseOut (mkUi false (-1, -1) (fill false parts) ((λ st, fill false (ps_layers st)) <$> pc_partials pic)
    ((λ p, fill false (pp_History p)) <$> parts) false None false "" (0, 0) None).
End mouse.
