(* ===== verification/PageProof.v ===== *)
(** The page of porcupine/visualization.go: what its layout, its picture and
    its answers to the mouse promise. *)
From Stdlib Require Import ZArith QArith Qminmax Lqa Lia.
From stdpp Require Import base gmap sets list strings sorting.
From S2P Require Import Prelude Visualization Page PageLayout PagePrep PageDraw.
#[local] Open Scope Z_scope.

(** Data the page can show: times that fit, and partial linearizations that
    name operations of their partition and follow real time, as all do that
    the checker reports. *)
Record drawable (data : list partitionVisualizationData) : Prop := {
  dw_times : times_ok data;
  dw_lin d lin : d ∈ data → lin ∈ PartialLinearizations d →
    lin ≠ [] ∧ ∀ step, step ∈ lin → 0 ≤ Index step < Z.of_nat (length (History d));
  dw_order d lin i j s s' h h' : d ∈ data → lin ∈ PartialLinearizations d → lin !! i = Some s → lin !! j = Some s' →
    (i < j)%nat → History d !! Z.to_nat (Index s) = Some h → History d !! Z.to_nat (Index s') = Some h' →
    Start h ≤ he_End h';
  dw_excluded d lin u s h hu : d ∈ data → lin ∈ PartialLinearizations d → s ∈ lin →
    History d !! Z.to_nat (Index s) = Some h → History d !! u = Some hu → Z.of_nat u ∉ included_of lin →
    Start h ≤ he_End hu;
  dw_largest d i m : d ∈ data → Largest d !! i = Some m → 0 ≤ m < Z.of_nat (length (PartialLinearizations d))
}.

Lemma double_mono a b : a ≤ b → 2 * Number a ≤ 2 * Number b.
Proof. intros H%Number_mono. lia. Qed.

Section drawable.
Context (data : list partitionVisualizationData) (Hd : drawable data).
Let parts := (page_partitions data).1.
Let sorted := (page_partitions data).2.
Abbreviation els := (pp_elements parts).

Lemma part_data p : p ∈ parts → ∃ d, d ∈ data ∧ PartialLinearizations d = pp_PartialLinearizations p ∧
  Largest d = pp_Largest p ∧ Forall2 shown (History d) (pp_History p).
Proof.
  intros [i Hi]%list_elem_of_lookup. destruct (Forall2_lookup_r _ _ _ _ _ (parts_ok data) Hi) as (d & Hi' & ? & ? & ?).
  exists d. split_and!; [by eapply list_elem_of_lookup_2|done..].
Qed.

Lemma history_element p i el : p ∈ parts → pp_History p !! i = Some el → els !! Gid el = Some el.
Proof.
  intros Hp Hi. assert (el ∈ els) as [g Hg]%list_elem_of_lookup.
  { unfold pp_elements. apply list_elem_of_bind. exists p. split; [by eapply list_elem_of_lookup_2|].
    done. }
  destruct (elements_ok data (dw_times _ Hd) g el Hg) as (_ & _ & _ & -> & _). done.
Qed.

(** An element of a partition and the operation it shows. *)
Lemma history_shown p d i el : Forall2 shown (History d) (pp_History p) → pp_History p !! i = Some el →
  ∃ he, History d !! i = Some he ∧ shown he el.
Proof. intros HF Hi. destruct (Forall2_lookup_r _ _ _ _ _ HF Hi) as (he & ? & ?). by exists he. Qed.

Lemma lin_element p lin k g : p ∈ parts → lin ∈ pp_PartialLinearizations p →
  gids_of (pp_History p) lin !! k = Some g →
  ∃ step el, lin !! k = Some step ∧ 0 ≤ Index step ∧ pp_History p !! Z.to_nat (Index step) = Some el ∧ Gid el = g ∧
    els !! g = Some el.
Proof.
  intros Hp Hlin Hg. destruct (part_data p Hp) as (d & Hdd & El & _ & HF).
  unfold gids_of in Hg. rewrite list_lookup_fmap in Hg. apply fmap_Some in Hg as (step & Hk & ->).
  destruct (dw_lin _ Hd d lin Hdd) as [_ Hr]; [by rewrite El|].
  destruct (Hr step) as [H0 H1]; [by eapply list_elem_of_lookup_2|].
  destruct (lookup_lt_is_Some_2 (pp_History p) (Z.to_nat (Index step))) as [el Hel].
  { rewrite <-(Forall2_length _ _ _ HF). lia. }
  exists step, el. rewrite Hel. simpl. split_and!; [done..|]. by eapply history_element.
Qed.

Lemma data_prep : ∃ pre, preprocess parts = Ret pre ∧ prep_spec (length els) (all_lins parts) pre.
Proof.
  apply preprocess_ok. intros p lin Hp Hlin. destruct (part_data p Hp) as (d & Hdd & El & _ & HF).
  intros step Hs. rewrite <-(Forall2_length _ _ _ HF). apply (dw_lin _ Hd d lin); [done|by rewrite El|done].
Qed.

Lemma all_lins_in l p lin : all_lins parts !! l = Some (p, lin) → p ∈ parts ∧ lin ∈ pp_PartialLinearizations p.
Proof.
  intros (p' & (lin' & [= -> ->] & ?)%list_elem_of_fmap & ?)%list_elem_of_lookup_2%list_elem_of_bind. done.
Qed.

Context (pre : prep) (Hs : prep_spec (length els) (all_lins parts) pre).

Lemma lins_lookup l gids : allLinearizations pre !! l = Some gids →
  ∃ p lin, all_lins parts !! l = Some (p, lin) ∧ p ∈ parts ∧ lin ∈ pp_PartialLinearizations p ∧
    gids = gids_of (pp_History p) lin.
Proof.
  rewrite (ps_all _ _ _ Hs), list_lookup_fmap. intros ([p lin] & Hl & ->)%fmap_Some.
  exists p, lin. destruct (all_lins_in l p lin Hl). done.
Qed.

Lemma data_prep_ok : prep_ok parts pre.
Proof.
  split.
  - intros g el Hg. destruct (elements_ok data (dw_times _ Hd) g el Hg) as (_ & _ & _ & ? & _). done.
  - apply (ps_to_len _ _ _ Hs).
  - apply (ps_ill_len _ _ _ Hs).
  - intros g tg l p Hg. by apply (ps_to _ _ _ Hs).
  - intros g ill l Hg Hl. apply (ps_ill _ _ _ Hs g ill l Hg) in Hl as (p & lin & el & Hl & _ & _).
    destruct (all_lins_in l p lin Hl) as [Hp Hlin]. exists (gids_of (pp_History p) lin).
    rewrite (ps_all _ _ _ Hs), list_lookup_fmap, Hl. split; [done|].
    destruct (part_data p Hp) as (d & Hdd & El & _ & _). destruct (dw_lin _ Hd d lin Hdd) as [Hne _]; [by rewrite El|].
    by destruct lin.
  - intros l gids g (p & lin & _ & Hp & Hlin & ->)%lins_lookup [k Hk]%list_elem_of_lookup.
    destruct (lin_element p lin k g Hp Hlin Hk) as (step & el & _ & _ & _ & _ & Hel). by eapply lookup_lt_Some.
Qed.

Lemma data_in_order : in_order parts pre.
Proof.
  split.
  - intros g Hg. destruct (lookup_lt_is_Some_2 els g Hg) as [el Hel].
    unfold start_of, end_of. rewrite Hel. by apply (sorted_ok data (dw_times _ Hd)) in Hel as (_ & _ & ?).
  - intros l gids k k' g g' (p & lin & _ & Hp & Hlin & ->)%lins_lookup Hk Hk' Hle.
    destruct (lin_element p lin k g Hp Hlin Hk) as (s & el & Hsk & _ & Hi & _ & Hel).
    destruct (lin_element p lin k' g' Hp Hlin Hk') as (s' & el' & Hsk' & _ & Hi' & _ & Hel').
    unfold start_of, end_of. rewrite Hel, Hel'. simpl. eapply (starts_before data (dw_times _ Hd)); [done..|].
    destruct (part_data p Hp) as (d & Hdd & El & _ & HF).
    destruct (history_shown p d _ el HF Hi) as (he & Hhe & Hsh).
    destruct (history_shown p d _ el' HF Hi') as (he' & Hhe' & Hsh').
    rewrite (sh_start _ _ Hsh'), (sh_original _ _ Hsh).
    destruct (decide (k' = k)) as [->|Hne].
    + simplify_eq. apply double_mono. apply (to_interval _ (dw_times _ Hd)).
      apply list_elem_of_bind. exists d. split; [by eapply list_elem_of_lookup_2|done].
    + apply double_mono. eapply (dw_order _ Hd d lin k' k); [done|by rewrite El|done|done|lia|done..].
  - intros g ill l gids g' Hill Hl Hlin Hg'. apply (ps_ill _ _ _ Hs g ill l Hill) in Hl as (p & lin & el & Hl & Hnext & <-).
    destruct (lins_lookup l gids Hlin) as (p' & lin' & Hl' & Hp & Hin & ->). simplify_eq.
    apply list_elem_of_lookup in Hg' as [k Hk]. destruct (lin_element p lin k g' Hp Hin Hk) as (s & el' & Hsk & _ & Hi & _ & Hel').
    apply list_elem_of_filter in Hnext as [_ Hex]. unfold excluded in Hex.
    apply list_elem_of_fmap in Hex as ([u el0] & -> & [Hu Hu']%list_elem_of_filter). simpl in *.
    apply list_elem_of_lookup in Hu' as [u' Hu']. rewrite list_lookup_imap in Hu'.
    apply fmap_Some in Hu' as (el1 & Hu' & [= -> <-]).
    pose proof (history_element p u' el0 Hp Hu') as Hel.
    unfold start_of, end_of. rewrite Hel, Hel'. simpl. eapply (starts_before data (dw_times _ Hd)); [done..|].
    destruct (part_data p Hp) as (d & Hdd & El & _ & HF).
    destruct (history_shown p d _ el' HF Hi) as (he' & Hhe' & Hsh').
    destruct (history_shown p d _ el0 HF Hu') as (he & Hhe & Hsh).
    rewrite (sh_start _ _ Hsh'), (sh_original _ _ Hsh).
    apply double_mono.
    eapply (dw_excluded _ Hd d lin u' s); [done|by rewrite El|by eapply list_elem_of_lookup_2|done..].
Qed.
End drawable.

(** ** The layout *)

(** [x] and [lp] are the positions that the scan computes, of timestamps and
    of the points of linearizations; they satisfy all constraints, and no
    positions that do are further left. *)
Record laid_out (text_width : string → Q) (data : list partitionVisualizationData) (L : laid)
    (x : Z → Q) (lp : nat → nat → Q) : Prop := {
  lo_parts : la_parts L = (page_partitions data).1;
  lo_sorted : la_sorted L = (page_partitions data).2;
  lo_prep : prep_spec (length (pp_elements (la_parts L))) (all_lins (la_parts L)) (la_prep L);
  lo_x t : t ∈ la_sorted L → x_of (la_scan L) t = Some (x t);
  lo_points l lin : allLinearizations (la_prep L) !! l = Some lin →
    linearizationPositions (la_scan L) !! l = Some ((λ p, Some (lp l p)) <$> seq 0 (length lin));
  lo_step l lin p g : allLinearizations (la_prep L) !! l = Some lin → lin !! S p = Some g →
    lp l (S p) = Qmax (x (start_of (la_parts L) g)) (lp l p + EPSILON);
  lo_head l lin g : allLinearizations (la_prep L) !! l = Some lin → lin !! 0%nat = Some g →
    lp l 0%nat = x (start_of (la_parts L) g);
  lo_fits : fits (la_parts L) (la_prep L) (box_of text_width <$> pp_elements (la_parts L)) (la_sorted L) x lp;
  lo_least x' lp' :
    fits (la_parts L) (la_prep L) (box_of text_width <$> pp_elements (la_parts L)) (la_sorted L) x' lp' →
    (∀ t, head (la_sorted L) = Some t → (0 <= x' t)%Q) →
    (∀ t, t ∈ la_sorted L → (x t <= x' t)%Q) ∧
    ∀ l lin p, allLinearizations (la_prep L) !! l = Some lin → (p < length lin)%nat → (lp l p <= lp' l p)%Q
}.

Lemma points_step x prev lin p g q : points x prev lin !! p = Some q → lin !! S p = Some g →
  points x prev lin !! S p = Some (Qmax (x g) (q + EPSILON)).
Proof.
  revert prev p. induction lin as [|h lin IH]; intros prev [|p]; simpl; [done|done| |by apply IH].
  destruct lin as [|h' lin]; [done|]. simpl. by intros [= <-] [= ->].
Qed.

#[export] Instance ends_before_WeakOrder : WeakOrder ends_before.
Proof. unfold ends_before. split; intros *; rewrite !bool_decide_eq_false; lia. Qed.

Lemma fits_perm parts pre boxes boxes' sorted x lp : boxes ≡ₚ boxes' →
  fits parts pre boxes sorted x lp → fits parts pre boxes' sorted x lp.
Proof. intros Hp [H1 H2 H3 H4 H5]. split; try done. intros ev. rewrite <-Hp. apply H2. Qed.

Section layout.
Context (text_width : string → Q) (sort : list event_box → list event_box) `{!SortsBy ends_before sort}.
Context (data : list partitionVisualizationData) (Hd : drawable data).
Let parts := (page_partitions data).1.
Let sorted := (page_partitions data).2.
Let boxes := sort (box_of text_width <$> pp_elements parts).

Lemma boxes_perm : boxes ≡ₚ box_of text_width <$> pp_elements parts.
Proof. apply (sort_perm (less := ends_before)). Qed.

Lemma boxes_in ev : ev ∈ boxes → ∃ g el, pp_elements parts !! g = Some el ∧ Gid el = g ∧ ev = box_of text_width el.
Proof.
  rewrite boxes_perm. intros (el & -> & [g Hg]%list_elem_of_lookup)%list_elem_of_fmap. exists g, el.
  destruct (elements_ok data (dw_times _ Hd) g el Hg) as (_ & _ & _ & ? & _). done.
Qed.

Lemma boxes_box_ok : Forall (box_ok parts) boxes.
Proof.
  apply Forall_forall. intros ev (g & el & Hg & Eg & ->)%boxes_in. unfold box_ok, start_of, end_of. simpl.
  rewrite Eg, Hg. split; [by eapply lookup_lt_Some|done].
Qed.

Lemma boxes_cover g : (g < length (pp_elements parts))%nat → ∃ ev, ev ∈ boxes ∧ bx_gid ev = g.
Proof.
  intros Hg. destruct (lookup_lt_is_Some_2 _ _ Hg) as [el Hel]. exists (box_of text_width el). split.
  - rewrite boxes_perm. apply list_elem_of_fmap. exists el. split; [done|by eapply list_elem_of_lookup_2].
  - by destruct (elements_ok data (dw_times _ Hd) g el Hel) as (_ & _ & _ & ? & _).
Qed.

Lemma boxes_sorted : StronglySorted (λ a b, bx_end a ≤ bx_end b) boxes.
Proof.
  pose proof (sort_strongly ends_before sort (box_of text_width <$> pp_elements parts)) as H. fold boxes in H.
  induction H as [|a l Hl IH Ha]; constructor; [done|]. eapply Forall_impl; [exact Ha|].
  intros b. unfold ends_before. rewrite bool_decide_eq_false. lia.
Qed.

Definition scan_all (pre : prep) : result scan :=
  let lps := replicate (length (allLinearizations pre)) [] in
  match sorted with
  | [] => Ret (mkScan ∅ lps)
  | t :: sorted => scan_from parts pre t sorted boxes (mkScan {[t := Some 0%Q]} lps)
  end.

Lemma layout_eq : layout text_width sort data =
  (pre ← preprocess parts; s ← scan_all pre; Ret (mkLaid parts sorted pre s)).
Proof.
  unfold layout, scan_all, boxes, sorted, parts. by destruct (page_partitions data).
Qed.

Lemma sorted_starts g : (g < length (pp_elements parts))%nat → start_of parts g ∈ sorted.
Proof.
  intros Hg. destruct (lookup_lt_is_Some_2 _ _ Hg) as [el Hel]. unfold start_of. rewrite Hel.
  by apply (sorted_ok data (dw_times _ Hd)) in Hel as (? & _ & _).
Qed.
Lemma sorted_ends ev : ev ∈ boxes → bx_end ev ∈ sorted.
Proof. intros (g & el & Hg & _ & ->)%boxes_in. by apply (sorted_ok data (dw_times _ Hd)) in Hg as (_ & ? & _). Qed.

Context (pre : prep) (Hs : prep_spec (length (pp_elements parts)) (all_lins parts) pre).

Lemma scan_all_ok : ∃ s, scan_all pre = Ret s ∧ scanned parts pre boxes sorted boxes s.
Proof.
  destruct (sorted_ok data (dw_times _ Hd)) as [Hts _]. fold sorted in Hts.
  pose proof sorted_starts as Hst. pose proof sorted_ends as Hen. unfold scan_all.
  destruct sorted as [|t ts] eqn:Esort.
  - eexists. split; [done|]. assert (pp_elements parts = []) as Enil.
    { destruct (pp_elements parts) as [|el els]; [done|]. destruct (not_elem_of_nil _ (Hst 0%nat ltac:(simpl; lia))). }
    assert (boxes = []) as ->.
    { pose proof boxes_perm as Hperm. rewrite Enil in Hperm. by apply Permutation_nil_r in Hperm. }
    split; simpl; [| |done|done|by intros ? ? ? ?%not_elem_of_nil].
    2:{ intros t. split; [by intros []|by intros ?%not_elem_of_nil]. }
    split; simpl; [by rewrite length_replicate|]. intros l ps lin [-> _]%lookup_replicate _. simpl.
    split_and!; [lia|done|by intros ? ?%not_elem_of_nil].
  - apply (scan_ok parts pre); [by apply data_prep_ok|by apply data_in_order|by apply boxes_box_ok|done|by apply boxes_sorted|done|done].
Qed.

(** Every linearization is filled to its end. *)
Lemma scan_points s l lin : scanned parts pre boxes sorted boxes s → allLinearizations pre !! l = Some lin →
  linearizationPositions s !! l = Some ((λ p, Some (point parts pre (xv s) l (Z.of_nat p))) <$> seq 0 (length lin)).
Proof.
  intros Hsc Hl. pose proof (data_prep_ok data Hd pre Hs) as Hp.
  pose proof (sc_points _ _ _ _ _ _ Hsc) as Hok.
  destruct (lookup_lt_is_Some_2 (linearizationPositions s) l) as [ps Hps].
  { rewrite (pk_len _ _ _ Hok). by eapply lookup_lt_Some. }
  destruct (pk_points _ _ _ Hok l ps lin Hps Hl) as (Hle & _ & _).
  assert (length ps = length lin) as Elen.
  { destruct (decide (length lin = 0%nat)) as [E0|Hne]; [lia|].
    destruct (lookup_lt_is_Some_2 lin (pred (length lin))) as [g Hg]; [lia|].
    assert ((g < length (pp_elements parts))%nat) as Hlt by (eapply (po_in _ _ Hp); [done|by eapply list_elem_of_lookup_2]).
    destruct (boxes_cover g Hlt) as (ev & Hev & Eg).
    destruct (sc_filled _ _ _ _ _ _ Hsc ev l (Z.of_nat (pred (length lin))) Hev) as (ps' & Hps' & Hlt').
    - rewrite Eg. apply (po_to _ _ Hp _ _ _ _ (to_of_lookup _ _ Hp g Hlt)). split; [lia|].
      exists lin. by rewrite Nat2Z.id.
    - simplify_eq. lia. }
  rewrite Hps. f_equal. apply list_eq. intros p. rewrite list_lookup_fmap.
  destruct (decide (p < length lin)%nat) as [Hlt|Hge].
  - rewrite lookup_seq_lt by done. simpl. rewrite <-(Nat2Z.id p) at 1.
    eapply points_ok_point; [done..|lia|lia].
  - rewrite (lookup_ge_None_2 ps) by lia. by rewrite (lookup_ge_None_2 (seq _ _)) by (rewrite length_seq; lia).
Qed.

Lemma scanned_laid_out s : scanned parts pre boxes sorted boxes s →
  laid_out text_width data (mkLaid parts sorted pre s) (xv s) (λ l p, point parts pre (xv s) l (Z.of_nat p)).
Proof.
  intros Hsc. pose proof (data_prep_ok data Hd pre Hs) as Hp. pose proof (data_in_order data Hd pre Hs) as Ho.
  destruct (sorted_ok data (dw_times _ Hd)) as [Hts _]. fold sorted in Hts.
  split; simpl; [done|done|done|..].
  - intros t Ht. destruct (proj2 (sc_placed _ _ _ _ _ _ Hsc t) Ht) as [q Hq]. unfold xv. by rewrite Hq.
  - intros l lin Hl. by apply scan_points.
  - intros l lin p g Hl Hg. destruct (lookup_lt_is_Some_2 lin p) as [g0 Hg0]; [apply lookup_lt_Some in Hg; lia|].
    destruct (point_lookup parts pre (xv s) l lin p g0 Hl Hg0) as [H0 _].
    destruct (point_lookup parts pre (xv s) l lin (S p) g Hl Hg) as [H1 _].
    pose proof (points_step _ _ _ _ _ _ H0 Hg) as H2. rewrite H1 in H2. by injection H2.
  - intros l lin g Hl Hg. destruct (point_lookup parts pre (xv s) l lin 0 g Hl Hg) as [H0 _].
    destruct lin; [done|]. injection Hg as ->. by injection H0.
  - eapply fits_perm; [apply boxes_perm|].
    apply scanned_fits; [done|done|apply boxes_box_ok|apply boxes_cover|done|done|apply sorted_starts|apply sorted_ends].
  - intros x' lp' Hfit H0. eapply fits_perm in Hfit; [|symmetry; apply boxes_perm].
    eapply scanned_least; [done|done|apply boxes_box_ok|done|done|apply sorted_starts|apply sorted_ends|done|done].
Qed.
End layout.

Lemma layout_ok text_width sort data : SortsBy ends_before sort → drawable data →
  ∃ L x lp, layout text_width sort data = Ret L ∧ laid_out text_width data L x lp.
Proof.
  intros Hsort Hd. destruct (data_prep data Hd) as (pre & Epre & Hs).
  destruct (scan_all_ok text_width sort data Hd pre Hs) as (s & Es & Hsc).
  eexists _, _, _. rewrite layout_eq, Epre. cbn [mbind result_bind]. rewrite Es. split; [done|].
  by apply (scanned_laid_out text_width sort).
Qed.
