(* ===== verification/PagePicture.v ===== *)
(** The picture that PageDraw.v makes of a layout: every point of a partial
    linearization inside the rectangle of its operation. *)
From Stdlib Require Import ZArith QArith Qminmax Lqa Lia.
From stdpp Require Import base gmap sets list strings sorting.
From S2P Require Import Prelude Visualization Page PageLayout PagePrep PageDraw PageProof.
#[local] Open Scope Z_scope.

Definition valid_point : string := "linearization linearization-point".
Definition invalid_point : string := "linearization-invalid linearization-point".

Definition line_class (s : shape) : string := match s with Line c _ _ _ _ => c | _ => "" end.
Definition line_x (s : shape) : num := match s with Line _ x _ _ _ => x | _ => None end.
Definition points_of (class : string) (g : list shape) : list shape := filter (λ s, line_class s = class) g.

Lemma points_of_app c g g' : points_of c (g ++ g') = points_of c g ++ points_of c g'.
Proof. apply filter_app. Qed.

(** A rectangle that ranges from [rx] over [w] has [X] between its sides. *)
Definition inside (X : Q) (target : shape) : Prop :=
  match target with
  | Rect _ (Some rx) _ (Some w) _ => (rx <= X)%Q ∧ (X <= rx + w)%Q
  | _ => False
  end.

Lemma num_max_some a b : Math_max (Some a) (Some b) = Some (Qmax a b).
Proof. done. Qed.

Section picture.
Context (text_width : string → Q) (data : list partitionVisualizationData) (Hd : drawable data).
Context (L : laid) (x : Z → Q) (lp : nat → nat → Q) (Hlo : laid_out text_width data L x lp).
Abbreviation parts := (la_parts L).
Abbreviation els := (pp_elements parts).
Abbreviation pre := (la_prep L).
Abbreviation xP := (x_of (la_scan L)).
Abbreviation left_edge := (PADDING + XOFF)%Q.

Lemma element_x g el : els !! g = Some el →
  xP (el_Start el) = Some (x (el_Start el)) ∧ xP (el_End el) = Some (x (el_End el)) ∧
  start_of parts g = el_Start el ∧ end_of parts g = el_End el ∧ Gid el = g ∧
  (x (el_Start el) + text_width (el_Description el) + 2 * BOX_TEXT_PADDING <= x (el_End el))%Q.
Proof.
  intros Hg. pose proof Hg as Hg'. rewrite (lo_parts _ _ _ _ _ Hlo) in Hg'.
  destruct (proj2 (sorted_ok data (dw_times _ Hd)) g el Hg') as (Hs & He & _).
  rewrite <-(lo_sorted _ _ _ _ _ Hlo) in Hs, He.
  destruct (elements_ok data (dw_times _ Hd) g el Hg') as (_ & _ & _ & ? & _).
  split_and!; [by apply Hlo|by apply Hlo|by unfold start_of; rewrite Hg|by unfold end_of; rewrite Hg|done|].
  assert (box_of text_width el ∈ box_of text_width <$> els) as Hb.
  { apply list_elem_of_fmap. exists el. split; [done|by eapply list_elem_of_lookup_2]. }
  pose proof (fit_text _ _ _ _ _ _ (lo_fits _ _ _ _ _ Hlo) _ Hb) as Ht. simpl in Ht. lra.
Qed.

(** Positions follow time. *)
Lemma times_order t t' : t ∈ la_sorted L → t' ∈ la_sorted L → t ≤ t' → (x t <= x t')%Q.
Proof.
  intros [i Hi]%list_elem_of_lookup [j Hj]%list_elem_of_lookup Hle.
  eapply fits_mono; [apply (lo_fits _ _ _ _ _ Hlo)| |done..].
  rewrite (lo_sorted _ _ _ _ _ Hlo). apply (sorted_ok data (dw_times _ Hd)).
Qed.

Lemma element_order g el : els !! g = Some el → (x (el_Start el) <= x (el_End el))%Q.
Proof.
  rewrite (lo_parts _ _ _ _ _ Hlo). intros Hg.
  destruct (proj2 (sorted_ok data (dw_times _ Hd)) _ el Hg) as (H1 & H2 & H3).
  rewrite <-(lo_sorted _ _ _ _ _ Hlo) in H1, H2. apply times_order; [done..|lia].
Qed.

(** The rectangle of an element, wide enough for its text. *)
Lemma target_rect g el : els !! g = Some el → ∃ rx w,
  (draw_element xP el).2 = Rect "target-rect" (Some rx) (row_y (el_ClientId el)) (Some w) BOX_HEIGHT ∧
  (rx == left_edge + x (el_Start el))%Q ∧ (rx + w == left_edge + x (el_End el))%Q ∧
  (text_width (el_Description el) + 2 * BOX_TEXT_PADDING <= w)%Q.
Proof.
  intros Hg. destruct (element_x g el Hg) as (Es & Ee & _ & _ & _ & Ht). unfold draw_element. rewrite Es, Ee. simpl.
  eexists _, _. split; [done|]. split_and!; lra.
Qed.

Lemma inside_target g el X : els !! g = Some el → (left_edge + x (el_Start el) <= X)%Q → (X <= left_edge + x (el_End el))%Q →
  inside X (draw_element xP el).2.
Proof.
  intros Hg H1 H2. destruct (target_rect g el Hg) as (rx & w & -> & Er & Ew & _). cbn [inside]. split; lra.
Qed.

(** ** One partial linearization *)

Section linearization.
Context (p : page_partition) (lin : partialLinearization) (l : nat) (Hl : all_lins parts !! l = Some (p, lin)).
Abbreviation hist := (pp_History p).

Lemma lin_gids : allLinearizations pre !! l = Some (gids_of hist lin).
Proof. by rewrite (ps_all _ _ _ (lo_prep _ _ _ _ _ Hlo)), list_lookup_fmap, Hl. Qed.

Lemma lin_in : p ∈ parts ∧ lin ∈ pp_PartialLinearizations p.
Proof. rewrite (lo_parts _ _ _ _ _ Hlo) in *. by apply (all_lins_in data l). Qed.

Lemma lin_step k step : lin !! k = Some step → ∃ g el, gids_of hist lin !! k = Some g ∧
  js_index hist (Index step) = Ret el ∧ els !! g = Some el.
Proof.
  intros Hk. destruct lin_in as [Hp Hlin]. rewrite (lo_parts _ _ _ _ _ Hlo) in *.
  assert (is_Some (gids_of hist lin !! k)) as [g Hg].
  { apply lookup_lt_is_Some_2. unfold gids_of. rewrite length_fmap. by eapply lookup_lt_Some. }
  destruct (lin_element data Hd p lin k g Hp Hlin Hg) as (step' & el & Hk' & H0 & Hi & _ & Hel). simplify_eq.
  exists g, el. split_and!; [done|by apply js_index_some|done].
Qed.

(** What has been drawn of [n] steps: [pts] are the points with their elements. *)
Record traced (n : nat) (pts : list (Q * element)) (g : list shape) (prev : previous) : Prop := {
  tr_len : length pts = n;
  tr_prev : prev = (λ pt, (Some pt.1, point_y pt.2, pt.2)) <$> last pts;
  tr_valid : points_of valid_point g = (λ pt, point_line valid_point (Some pt.1) (point_y pt.2)) <$> pts;
  tr_invalid : points_of invalid_point g = [];
  tr_point k X el : pts !! k = Some (X, el) → (X == left_edge + lp l k)%Q ∧
    (∃ step, lin !! k = Some step ∧ js_index hist (Index step) = Ret el) ∧ inside X (draw_element xP el).2
}.

Lemma draw_points_ok : ∃ pts g prev, foldM (draw_point xP hist) ([], None) lin = Ret (g, prev) ∧
  traced (length lin) pts g prev.
Proof.
  destruct (foldM_inv (draw_point xP hist) (λ done acc, ∃ pts, traced (length done) pts acc.1 acc.2) ([], None) lin)
    as ([g prev] & E & pts & Htr); [| |by exists pts, g, prev].
  { exists []. split; [done|done|done|done|]. by intros k X el ?. }
  intros done step rest [g prev] El (pts & [Hlen Hprev Hv Hi Hpt]). simpl in *.
  assert (lin !! length done = Some step) as Hk by (rewrite El; by apply list_lookup_middle).
  destruct (lin_step _ step Hk) as (gid & el & Hgid & Ejs & Hel).
  destruct (element_x gid el Hel) as (Es & Ee & Est & Een & _ & _).
  destruct (fit_on _ _ _ _ _ _ (lo_fits _ _ _ _ _ Hlo) l _ (length done) gid lin_gids Hgid) as [Hon1 Hon2].
  rewrite Est in Hon1. rewrite Een in Hon2.
  assert (∃ X, point_x xP prev el = Some X ∧ (X == left_edge + lp l (length done))%Q) as (X & EX & HX).
  { unfold point_x. rewrite Es, Hprev. destruct (last pts) as [[X0 el0]|] eqn:Elast; simpl.
    - rewrite last_lookup, Hlen in Elast. destruct (length done) as [|n] eqn:En; [by destruct pts|]. simpl in Elast.
      destruct (Hpt n X0 el0 Elast) as [HX0 _]. eexists. split; [done|].
      rewrite (lo_step _ _ _ _ _ Hlo l _ n gid lin_gids Hgid), Est, HX0.
      destruct (Q.max_spec (left_edge + x (el_Start el)) (left_edge + lp l n + EPSILON)) as [[? ->]|[? ->]];
        destruct (Q.max_spec (x (el_Start el)) (lp l n + EPSILON)) as [[? ->]|[? ->]]; lra.
    - apply last_None in Elast. subst pts. destruct done as [|? ?]; [|done]. eexists. split; [done|].
      cbn [length] in *. by rewrite (lo_head _ _ _ _ _ Hlo l _ gid lin_gids Hgid), Est. }
  unfold draw_point. rewrite Ejs. cbn [mbind result_bind]. rewrite EX. eexists. split; [done|].
  exists (pts ++ [(X, el)]). rewrite length_app, Nat.add_1_r. split; simpl.
  - rewrite length_app. simpl. lia.
  - by rewrite last_snoc.
  - rewrite !points_of_app, Hv, fmap_app. f_equal. by destruct prev as [[[? ?] ?]|].
  - rewrite !points_of_app, Hi. by destruct prev as [[[? ?] ?]|].
  - intros k X' el'. rewrite lookup_snoc_Some. intros [[Hlt Hk']|[-> [= <- <-]]].
    + destruct (Hpt k X' el' Hk') as (? & ? & ?). done.
    + rewrite Hlen. split_and!; [done|by exists step|]. eapply inside_target; [done|..]; lra.
Qed.

Abbreviation nexts := (next_indexed hist (included_of lin)).

Lemma next_ok i el : (i, el) ∈ nexts → js_index hist i = Ret el ∧ els !! Gid el = Some el ∧
  i ∉ included_of lin ∧ (x (el_Start el) <= x (el_End el))%Q ∧ (lp l (pred (length lin)) + EPSILON <= x (el_End el))%Q.
Proof.
  intros [[Hi Hb] Hin]%list_elem_of_filter. simpl in *.
  apply list_elem_of_lookup in Hin as [u Hu]. rewrite list_lookup_imap in Hu.
  apply fmap_Some in Hu as (el' & Hu & [= -> <-]). destruct lin_in as [Hp Hlin].
  assert (els !! Gid el = Some el) as Hel.
  { rewrite (lo_parts _ _ _ _ _ Hlo) in *. by apply (history_element data Hd p u). }
  assert (el ∈ next_elements hist (included_of lin)) as Hnext.
  { apply list_elem_of_filter. split; [done|]. apply list_elem_of_fmap. exists (Z.of_nat u, el). split; [done|].
    apply list_elem_of_filter. split; [done|]. apply list_elem_of_lookup. exists u. by rewrite list_lookup_imap, Hu. }
  assert (prep_ok parts pre) as Hpo.
  { pose proof (lo_prep _ _ _ _ _ Hlo) as Hs. rewrite (lo_parts _ _ _ _ _ Hlo) in *. by apply data_prep_ok. }
  assert ((Gid el < length els)%nat) as Hlt by (by eapply lookup_lt_Some).
  destruct (element_x _ el Hel) as (_ & _ & Est & Een & _ & _).
  assert (l ∈ ill_of pre (Gid el)) as Hill.
  { apply (ps_ill _ _ _ (lo_prep _ _ _ _ _ Hlo) _ _ l (ill_of_lookup _ _ Hpo _ Hlt)). by exists p, lin, el. }
  pose proof (fit_illegals _ _ _ _ _ _ (lo_fits _ _ _ _ _ Hlo) _ l _ Hlt Hill lin_gids) as Hfit.
  unfold gids_of in Hfit. rewrite length_fmap, Een in Hfit.
  split_and!; [apply js_index_some; split; [lia|by rewrite Nat2Z.id]|done|done|by eapply element_order|done].
Qed.

(** What the loop over the operations that could only come next illegally
    has drawn after [done], from the picture [g] and the state [st]. *)
Record illegals_drawn (k j lastI : Z) (X : Q) (g : list shape) (st : partial_state) (done : list (Z * element))
    (acc : list shape * partial_state) (new : list shape) : Prop := {
  id_valid : points_of valid_point acc.1 = points_of valid_point g;
  id_invalid : points_of invalid_point acc.1 = points_of invalid_point g ++ new;
  id_inside : Forall2 (λ iel s, ∃ X', s = point_line invalid_point (Some X') (point_y iel.2) ∧
    inside X' (draw_element xP iel.2).2 ∧ (X + EPSILON <= X')%Q) done new;
  id_layers : ps_layers acc.2 = ps_layers st;
  id_errors : ps_errorPoints acc.2 = ps_errorPoints st ++ ((λ s, mkErrorPoint (line_x s) k lastI j) <$> new);
  id_length : length (ps_illegalLast acc.2) = length (ps_illegalLast st);
  id_last m s' : ps_illegalLast acc.2 !! m = Some s' → ∃ s, ps_illegalLast st !! m = Some s ∧
    ∀ i, i ∈ s' ↔ i ∈ s ∨ m = Z.to_nat j ∧ i ∈ done.*1;
  id_largest i m : ps_largestIllegal acc.2 !! i = Some m → ps_largestIllegal st !! i = Some m ∨ m = j
}.

Lemma illegals_drawn_nil k j lastI X g st : illegals_drawn k j lastI X g st [] (g, st) [].
Proof.
  split; simpl; rewrite ?app_nil_r; try done; [|by left].
  intros m s' Hs. exists s'. split; [done|]. intros i. split; [by left|]. by intros [?|(_ & ?%not_elem_of_nil)].
Qed.

Lemma draw_illegal_ok k j len lastI X Y E g st done i el rest acc new :
  (X == left_edge + lp l (pred (length lin)))%Q → nexts = done ++ (i, el) :: rest →
  illegals_drawn k j lastI X g st done acc new →
  ∃ acc' new', draw_illegal xP k j len lastI (Some (Some X, Y, E)) acc (i, el) = Ret acc' ∧
    illegals_drawn k j lastI X g st (done ++ [(i, el)]) acc' new'.
Proof.
  intros HX El [Hv Hi Hf Hl1 He Hlen Hil Hla]. destruct acc as [g1 st1]. simpl in *.
  destruct (next_ok i el) as (_ & Hel & _ & Hxx & Hfit); [rewrite El; set_solver|].
  destruct (element_x _ el Hel) as (Es & Ee & _).
  unfold draw_illegal, point_x. rewrite Es. cbn [num_add mbind option_bind Math_max px]. set (X' := Qmax _ _).
  eexists _, (new ++ [point_line invalid_point (Some X') (point_y el)]). split; [done|].
  split; simpl; rewrite ?points_of_app, ?Hv, ?Hi, ?He; simpl.
  - by rewrite app_nil_r.
  - by rewrite <-(assoc_L (++)).
  - apply Forall2_app; [done|]. constructor; [|constructor]. exists X'. split_and!; [done| |apply Q.le_max_r].
    eapply inside_target; [exact Hel|apply Q.le_max_l|]. cbn [snd]. apply Q.max_lub; lra.
  - done.
  - by rewrite fmap_app, (assoc_L (++)).
  - by rewrite length_alter.
  - intros m s'. destruct (decide (m = Z.to_nat j)) as [->|Hne].
    + rewrite list_lookup_alter_eq. intros (s1 & Hs1 & ->)%fmap_Some. destruct (Hil _ s1 Hs1) as (s & Hs & Hmem).
      exists s. split; [done|]. intros i'. rewrite elem_of_union, elem_of_singleton, Hmem, fmap_app, elem_of_app.
      simpl. rewrite list_elem_of_singleton. tauto.
    + rewrite list_lookup_alter_ne by done. intros Hs'. destruct (Hil m s' Hs') as (s & Hs & Hmem). exists s.
      split; [done|]. intros i'. rewrite Hmem. tauto.
  - intros i' m. case_match; [|by apply Hla]. destruct (decide (i' = i)) as [->|Hne].
    + rewrite lookup_insert_eq. intros [= <-]. by right.
    + rewrite lookup_insert_ne by done. apply Hla.
Qed.

(** What the illegal next operations add. *)
Lemma draw_illegals_ok k j len lastI X Y E g st :
  (X == left_edge + lp l (pred (length lin)))%Q →
  ∃ acc new, foldM (draw_illegal xP k j len lastI (Some (Some X, Y, E))) (g, st) nexts = Ret acc ∧
    illegals_drawn k j lastI X g st nexts acc new.
Proof.
  intros HX. destruct (foldM_inv (draw_illegal xP k j len lastI (Some (Some X, Y, E)))
    (λ done acc, ∃ new, illegals_drawn k j lastI X g st done acc new) (g, st) nexts) as (acc & Ef & new & H).
  - exists []. apply illegals_drawn_nil.
  - intros done [i el] rest acc El (new & H). destruct (draw_illegal_ok _ _ len _ _ Y E _ _ _ _ _ _ _ _ HX El H) as (acc' & new' & ? & ?).
    exists acc'. split; [done|]. by exists new'.
  - by exists acc, new.
Qed.
End linearization.

(** ** All partial linearizations *)

(** The points of a layer: those of the steps inside the rectangles of their
    operations and [EPSILON] apart, then those of the illegal next operations,
    inside theirs and to the right. *)
Record layer_drawn (hist : list element) (lin : partialLinearization) (g : list shape) : Prop := {
  ld_valid : Forall2 (λ step s, ∃ el X, js_index hist (Index step) = Ret el ∧
    s = point_line valid_point (Some X) (point_y el) ∧ inside X (draw_element xP el).2) lin (points_of valid_point g);
  ld_spaced i s s' X X' : points_of valid_point g !! i = Some s → points_of valid_point g !! S i = Some s' →
    line_x s = Some X → line_x s' = Some X' → (X + EPSILON <= X')%Q;
  ld_invalid : Forall2 (λ iel s, ∃ X', s = point_line invalid_point (Some X') (point_y iel.2) ∧
    inside X' (draw_element xP iel.2).2 ∧
    ∀ s0 X, last (points_of valid_point g) = Some s0 → line_x s0 = Some X → (X + EPSILON <= X')%Q)
    (next_indexed hist (included_of lin)) (points_of invalid_point g)
}.

(** One error point per illegal next point of a layer. *)
Definition layer_errors (k j : Z) (lin : partialLinearization) (g : list shape) : list errorPoint :=
  (λ s, mkErrorPoint (line_x s) k (default 0 (Index <$> last lin)) j) <$> points_of invalid_point g.

Record partials_drawn (k : Z) (p : page_partition) (done : list partialLinearization) (st : partial_state) : Prop := {
  pd_len : length (ps_layers st) = length done;
  pd_illegal_len : length (ps_illegalLast st) = length (pp_PartialLinearizations p);
  pd_layer j lin g : done !! j = Some lin → ps_layers st !! j = Some g → layer_drawn (pp_History p) lin g;
  pd_illegal j s : ps_illegalLast st !! j = Some s → ∀ i, i ∈ s ↔ ∃ lin, done !! j = Some lin ∧
    i ∈ (next_indexed (pp_History p) (included_of lin)).*1;
  pd_largest i m : ps_largestIllegal st !! i = Some m → 0 ≤ m < Z.of_nat (length done);
  pd_errors : ps_errorPoints st =
    concat (imap (λ j lg, layer_errors k (Z.of_nat j) lg.1 lg.2) (zip done (ps_layers st)))
}.

(** The points of the steps and of the illegal next operations make a layer. *)
Lemma traced_layer p lin l pts g prev k j lastI X el st acc new : p ∈ parts → all_lins parts !! l = Some (p, lin) →
  traced p lin l (length lin) pts g prev → last pts = Some (X, el) →
  illegals_drawn k j lastI X g st (next_indexed (pp_History p) (included_of lin)) acc new →
  layer_drawn (pp_History p) lin acc.1.
Proof.
  intros Hp Hl [Tlen Tprev Tv Ti Tpt] Hlast [Hv Hi Hnew _ _ _ _ _]. rewrite Ti in Hi. simpl in Hi. split.
  - rewrite Hv, Tv. apply Forall2_fmap_r, Forall2_same_length_lookup. split; [done|].
    intros i step [X0 el0] Hstep H0. destruct (Tpt i X0 el0 H0) as (_ & (step' & ? & ?) & ?). simplify_eq.
    by exists el0, X0.
  - intros i s s' X0 X1. rewrite Hv, Tv, !list_lookup_fmap.
    intros ([Y0 e0] & H0 & ->)%fmap_Some ([Y1 e1] & H1 & ->)%fmap_Some [= <-] [= <-].
    destruct (Tpt _ _ _ H0) as [E0 _]. destruct (Tpt _ _ _ H1) as [E1 _]. apply lookup_lt_Some in H1.
    pose proof (fit_spaced _ _ _ _ _ _ (lo_fits _ _ _ _ _ Hlo) l _ i (lin_gids p lin l Hl)) as Hsp.
    unfold gids_of in Hsp. rewrite length_fmap in Hsp. specialize (Hsp ltac:(lia)). lra.
  - rewrite Hi. eapply Forall2_impl; [exact Hnew|]. intros iel s (X' & -> & ? & ?). exists X'. split_and!; [done..|].
    intros s0 X0. rewrite Hv, Tv, fmap_last, Hlast. by intros [= <-] [= <-].
Qed.

Lemma draw_linearization_ok k p done lin rest st : p ∈ parts → pp_PartialLinearizations p = done ++ lin :: rest →
  partials_drawn k p done st →
  ∃ st', draw_linearization xP k (pp_History p) st lin = Ret st' ∧ partials_drawn k p (done ++ [lin]) st'.
Proof.
  intros Hp El [Hlen Hil Hlay Hill Hla Herr].
  assert ((p, lin) ∈ all_lins parts) as [l Hl]%list_elem_of_lookup.
  { apply list_elem_of_bind. exists p. split; [|done]. apply list_elem_of_fmap. exists lin. split; [done|]. rewrite El. set_solver. }
  destruct (draw_points_ok p lin l Hl) as (pts & g & prev & Eg & Htr). pose proof Htr as [Tlen Tprev Tv Ti Tpt].
  assert (length lin ≠ 0%nat) as Hne.
  { destruct (part_data data p) as (d & Hdd & Epl & _); [by rewrite <-(lo_parts _ _ _ _ _ Hlo)|].
    destruct (dw_lin _ Hd d lin Hdd) as [? _]; [rewrite Epl, El; set_solver|]. by destruct lin. }
  destruct (lookup_lt_is_Some_2 pts (pred (length lin))) as [[X el] Hlast]; [lia|].
  destruct (Tpt _ X el Hlast) as [HX _]. rewrite <-Tlen, <-last_lookup in Hlast. rewrite Hlast in Tprev. simpl in Tprev.
  destruct (draw_illegals_ok p lin l Hl k (Z.of_nat (length (ps_layers st))) (Z.of_nat (length lin))
    (default 0 (Index <$> last lin)) X (point_y el) el g st HX) as ([g' st'] & new & Ef & Hids).
  pose proof Hids as [Hv Hi _ Hlay' Herr' Hil' Hill' Hla']. cbn [fst snd] in *.
  unfold draw_linearization. rewrite Eg. cbn [mbind result_bind]. rewrite Tprev, Ef. cbn [mbind result_bind].
  eexists. split; [done|]. rewrite Ti in Hi. simpl in Hi.
  split; cbn [ps_layers ps_errorPoints ps_illegalLast ps_largestIllegal].
  - rewrite !length_app, Hlay', Hlen. done.
  - congruence.
  - intros j lin' g0. rewrite Hlay', !lookup_snoc_Some, Hlen. intros [[? Hj]|[-> <-]] [[? Hg]|[? <-]]; try lia; [by eapply Hlay|].
    exact (traced_layer p lin l pts g _ k _ _ X el st (g', st') new Hp Hl Htr Hlast Hids).
  - intros j s' Hs'. destruct (Hill' j s' Hs') as (s & Hs & Hmem). intros i. rewrite Hmem, (Hill j s Hs), Nat2Z.id, Hlen.
    setoid_rewrite lookup_snoc_Some. split.
    + intros [(lin' & Hj & ?)|[-> ?]].
      * exists lin'. split; [left; split; [by eapply lookup_lt_Some|done]|done].
      * exists lin. split; [by right|done].
    + intros (lin' & [[? ?]|[-> <-]] & ?); [left; by exists lin'|by right].
  - intros i m Hm. rewrite length_app. simpl. destruct (Hla' i m Hm) as [Hm'| ->]; [specialize (Hla i m Hm')|]; lia.
  - rewrite Herr', Herr, Hlay'. rewrite zip_with_app by done. rewrite imap_app, concat_app.
    f_equal. simpl. rewrite app_nil_r, Nat.add_0_r, length_zip_with, Hlen, Nat.min_id.
    unfold layer_errors. simpl. by rewrite Hi.
Qed.

Lemma draw_partition_ok k p : p ∈ parts →
  ∃ st, draw_partition xP k p = Ret st ∧ partials_drawn k p (pp_PartialLinearizations p) st.
Proof.
  intros Hp. unfold draw_partition. apply foldM_inv.
  - split; simpl; [done|by rewrite length_replicate|done| |done|done].
    intros j s [-> _]%lookup_replicate i. split; [set_solver|]. by intros (? & ? & _).
  - intros done lin rest st El H. by apply (draw_linearization_ok k p done lin rest st).
Qed.

(** ** The whole picture *)

Record drawn_right (sort : list errorPoint → list errorPoint) (pic : picture) : Prop := {
  dn_history : pc_history pic = (λ p, (λ el, (draw_element xP el).1) <$> pp_History p) <$> parts;
  dn_targets : pc_targets pic = (λ p, (λ el, (draw_element xP el).2) <$> pp_History p) <$> parts;
  dn_partials : length (pc_partials pic) = length parts;
  dn_partial k p st : parts !! k = Some p → pc_partials pic !! k = Some st →
    partials_drawn (Z.of_nat k) p (pp_PartialLinearizations p) st;
  dn_errors : errorPoints pic = sort (pc_partials pic ≫= ps_errorPoints)
}.

Lemma draw_ok sort : ∃ pic, draw sort L = Ret pic ∧ drawn_right sort pic.
Proof.
  unfold draw.
  destruct (foldM_inv (λ acc p, st ← draw_partition xP (Z.of_nat (length acc)) p; Ret (acc ++ [st]))
    (λ done acc, length acc = length done ∧ ∀ k p st, done !! k = Some p → acc !! k = Some st →
       partials_drawn (Z.of_nat k) p (pp_PartialLinearizations p) st) [] parts) as (acc & -> & Hlen & Hst).
  - split; [done|]. by intros k p st ?.
  - intros done p rest acc El [Hlen Hst].
    destruct (draw_partition_ok (Z.of_nat (length acc)) p) as (st & -> & Hdr).
    { rewrite El. set_solver. }
    eexists. split; [done|]. rewrite !length_app, Hlen. split; [done|]. intros k p' st'. rewrite !lookup_snoc_Some, Hlen.
    intros [[? ?]|[-> <-]] [[? ?]|[? <-]]; try lia; [by eapply Hst|]. by rewrite <-Hlen.
  - eexists. split; [done|]. by split.
Qed.
End picture.
