(* ===== verification/PageMouse.v ===== *)
(** How the page of porcupine/visualization.go answers the mouse: its flags
    always show one of two views, the default or the focus on one operation. *)
From Stdlib Require Import ZArith QArith Lia.
From stdpp Require Import base gmap sets list strings.
From S2P Require Import Prelude Visualization Page PageLayout PageDraw.
#[local] Open Scope Z_scope.

(** ** What the page promises *)

Inductive view := Default | Focus (partition index : Z).
#[export] Instance view_eq_dec : EqDecision view.
Proof. solve_decision. Defined.

(** The selected operation, and what is in view. *)
Definition focus : Type := option (Z * Z) * view.

Section mouse.
Context (parts : list page_partition) (pic : picture) (number_text : Z → string).
Abbreviation partials := (pc_partials pic).

(** What the drawing provides. *)
Record page_ok : Prop := {
  pg_len : length partials = length parts;
  pg_lins k p st : parts !! k = Some p → partials !! k = Some st →
    length (ps_layers st) = length (pp_PartialLinearizations p) ∧
    length (ps_illegalLast st) = length (pp_PartialLinearizations p);
  pg_nonempty k p lin : parts !! k = Some p → lin ∈ pp_PartialLinearizations p → lin ≠ [];
  pg_largest k p st i m : parts !! k = Some p → partials !! k = Some st →
    pp_Largest p !! i = Some m ∨ ps_largestIllegal st !! i = Some m → 0 ≤ m < Z.of_nat (length (ps_layers st));
  pg_errors pt : pt ∈ errorPoints pic → ∃ k p st, ep_partition pt = Z.of_nat k ∧ parts !! k = Some p ∧
    partials !! k = Some st ∧ 0 ≤ ep_layer pt < Z.of_nat (length (ps_layers st)) ∧
    0 ≤ ep_index pt < Z.of_nat (length (pp_History p))
}.

(** The linearization shown for an operation. *)
Definition shown_linearization (partition index : Z) : option Z :=
  match linearizationIndex parts pic partition index with Ret m => m | _ => None end.

Definition history_shown (v : view) (k : nat) : bool :=
  match v with Default => true | Focus p _ => bool_decide (Z.of_nat k = p) end.
Definition layer_shown (v : view) (k m : nat) : bool :=
  match v with
  | Default => bool_decide (m = 0%nat)
  | Focus p i => bool_decide (Z.of_nat k = p ∧ shown_linearization p i = Some (Z.of_nat m))
  end.

(** The first error point in view. *)
Definition first_error (v : view) : option errorPoint :=
  find (λ pt, layer_shown v (Z.to_nat (ep_partition pt)) (Z.to_nat (ep_layer pt))) (errorPoints pic).

Definition focus_step (f : focus) (e : mouse) : focus :=
  match e, f with
  | MouseMove _ _ _ _, _ => f
  | MouseOver p i, (None, _) => (None, Focus p i)
  | MouseOut, (None, _) => (None, Default)
  | (MouseOver _ _ | MouseOut), (Some _, _) => f
  | Click p i, (sel, _) => if decide (sel = Some (p, i)) then (None, Default) else (Some (p, i), Focus p i)
  | BgClick, (Some _, _) => (None, Default)
  | BgClick, (None, _) => f
  | JumpClick, (None, v) =>
      match first_error v with
      | Some pt => (Some (ep_partition pt, ep_index pt), Focus (ep_partition pt) (ep_index pt))
      | None => f
      end
  | JumpClick, (Some _, _) => f
  end.

(** Mouse targets are the rectangles of the operations. *)
Definition is_target (partition index : Z) : Prop :=
  ∃ p, 0 ≤ partition ∧ parts !! Z.to_nat partition = Some p ∧ 0 ≤ index < Z.of_nat (length (pp_History p)).
Definition on_target (e : mouse) : Prop :=
  match e with
  | MouseOver p i | MouseMove p i _ _ | Click p i => is_target p i
  | MouseOut | BgClick | JumpClick => True
  end.

(** The page shows [f]: who is hidden, who is marked as selected, where the
    link leads, and a tooltip that is never stale. *)
Record shows (f : focus) (u : ui) : Prop := {
  sw_selected : f.1 = if selected u then Some (selectedIndex u) else None;
  sw_focus s : f.1 = Some s → f.2 = Focus s.1 s.2 ∧ is_target s.1 s.2;
  sw_history : history_hidden u = imap (λ k _, negb (history_shown f.2 k)) parts;
  sw_partial : partial_hidden u = imap (λ k st, imap (λ m _, negb (layer_shown f.2 k m)) (ps_layers st)) partials;
  sw_rects : rect_selected u =
    imap (λ k p, imap (λ i _, bool_decide (f.1 = Some (Z.of_nat k, Z.of_nat i))) (pp_History p)) parts;
  sw_jump : jump_inactive u = bool_decide (first_error f.2 = None) ∧
    ∀ pt, first_error f.2 = Some pt → jump_onclick u = Some pt;
  sw_tooltip p i sel sp si : lastTooltip u = Some (p, i, sel, sp, si) →
    tooltip_for parts pic number_text p i sel sp si = Ret (tooltip_html u)
}.

(** ** It keeps the promise *)

Context (Hok : page_ok).

(** Hidden flags of the shape of the page. *)
Definition shaped (u : ui) : Prop :=
  length (history_hidden u) = length parts ∧
  Forall2 (λ row st, length row = length (ps_layers st)) (partial_hidden u) partials.

(** The flags and the link are those of [v]. *)
Record looks (v : view) (u : ui) : Prop := {
  lk_history : history_hidden u = imap (λ k _, negb (history_shown v k)) parts;
  lk_partial : partial_hidden u = imap (λ k st, imap (λ m _, negb (layer_shown v k m)) (ps_layers st)) partials;
  lk_jump : jump_inactive u = bool_decide (first_error v = None) ∧
    ∀ pt, first_error v = Some pt → jump_onclick u = Some pt
}.

(** Neither the selection nor the tooltip changes. *)
Record same_rest (u u' : ui) : Prop := {
  sr_selected : selected u' = selected u;
  sr_index : selectedIndex u' = selectedIndex u;
  sr_rects : rect_selected u' = rect_selected u;
  sr_html : tooltip_html u' = tooltip_html u;
  sr_last : lastTooltip u' = lastTooltip u
}.

Lemma imap_lengths {A B C} (f : nat → C) (l : list A) (l' : list B) : length l = length l' →
  imap (λ i _, f i) l = imap (λ i _, f i) l'.
Proof.
  intros E. apply list_eq. intros i. rewrite !list_lookup_imap.
  destruct (l !! i) eqn:E1, (l' !! i) eqn:E2; [done| | |done]; exfalso.
  - apply lookup_lt_Some in E1. apply lookup_ge_None in E2. lia.
  - apply lookup_ge_None in E1. apply lookup_lt_Some in E2. lia.
Qed.

Lemma fill_imap {A} b (l : list A) : fill b l = imap (λ _ _, b) l.
Proof. apply list_eq. intros i. unfold fill. rewrite list_lookup_fmap, list_lookup_imap. by destruct (l !! i). Qed.

Lemma find_ext_in {A} (f g : A → bool) l : (∀ a, a ∈ l → f a = g a) → find f l = find g l.
Proof.
  induction l as [|a l IH]; intros H; [done|]. simpl. rewrite (H a) by left. rewrite IH; [done|].
  intros b Hb. apply H. by right.
Qed.

Lemma looks_shaped v u : looks v u → shaped u.
Proof.
  intros [E1 E2 _]. split; [by rewrite E1, length_imap|]. rewrite E2. apply Forall2_same_length_lookup.
  split; [by rewrite length_imap|]. intros k row st Hr Hs. rewrite list_lookup_imap, Hs in Hr. injection Hr as <-.
  apply length_imap.
Qed.

Lemma linearizationIndex_ok p i part : 0 ≤ p → parts !! Z.to_nat p = Some part →
  ∃ st, partials !! Z.to_nat p = Some st ∧ linearizationIndex parts pic p i = Ret (shown_linearization p i) ∧
    ∀ m, shown_linearization p i = Some m → 0 ≤ m < Z.of_nat (length (ps_layers st)).
Proof.
  intros H0 Hp. destruct (lookup_lt_is_Some_2 partials (Z.to_nat p)) as [st Hst].
  { rewrite (pg_len Hok). by eapply lookup_lt_Some. }
  exists st. split; [done|].
  assert (linearizationIndex parts pic p i = Ret (match pp_Largest part !! i with Some m => Some m | None => ps_largestIllegal st !! i end)) as E.
  { unfold linearizationIndex. rewrite (proj2 (js_index_some parts p part)) by done. cbn [mbind result_bind].
    by rewrite (proj2 (js_index_some partials p st)). }
  unfold shown_linearization. rewrite E. split; [done|]. intros m Hm. apply (pg_largest Hok _ part st i m Hp Hst).
  destruct (pp_Largest part !! i); [left; congruence|by right].
Qed.

Lemma updateJump_looks v u :
  history_hidden u = imap (λ k _, negb (history_shown v k)) parts →
  partial_hidden u = imap (λ k st, imap (λ m _, negb (layer_shown v k m)) (ps_layers st)) partials →
  looks v (updateJump pic u).
Proof.
  intros E1 E2. unfold updateJump.
  assert (find (λ pt, negb (layer_hidden u (ep_partition pt) (ep_layer pt))) (errorPoints pic) = first_error v) as ->.
  { apply find_ext_in. intros pt Hpt. destruct (pg_errors Hok pt Hpt) as (k & p & st & -> & _ & Hst & Hl & _).
    unfold layer_hidden. rewrite E2, Nat2Z.id, list_lookup_imap, Hst. simpl. rewrite list_lookup_imap.
    destruct (lookup_lt_is_Some_2 (ps_layers st) (Z.to_nat (ep_layer pt))) as [g ->]; [lia|]. simpl. apply negb_involutive. }
  split; simpl; [done|done|]. destruct (first_error v); (split; [by (symmetry; apply bool_decide_eq_false) || done|]); [|done].
  by intros pt' [= <-].
Qed.

Lemma resetHighlight_ok u : shaped u → looks Default (resetHighlight pic u) ∧ same_rest u (resetHighlight pic u).
Proof.
  intros [Hl HF]. split; [|done]. apply updateJump_looks; simpl.
  - rewrite fill_imap. by apply imap_lengths.
  - apply list_eq. intros k. rewrite list_lookup_fmap, list_lookup_imap.
    destruct (partial_hidden u !! k) as [row|] eqn:Er.
    + destruct (Forall2_lookup_l _ _ _ _ _ HF Er) as (st & -> & Hlen). simpl. f_equal. by apply imap_lengths.
    + rewrite (proj2 (lookup_ge_None partials k)); [done|]. apply lookup_ge_None in Er. by rewrite <-(Forall2_length _ _ _ HF).
Qed.

(** Everything hidden is the view of an operation that no linearization is
    shown for, but for one layer. *)
Lemma all_hidden u p i : Forall2 (λ row st, length row = length (ps_layers st)) (partial_hidden u) partials →
  ∀ k row, (fill true <$> partial_hidden u) !! k = Some row →
  (Z.of_nat k ≠ p ∨ shown_linearization p i = None) →
  imap (λ k st, imap (λ m _, negb (layer_shown (Focus p i) k m)) (ps_layers st)) partials !! k = Some row.
Proof.
  intros HF k row Hk Hno. rewrite list_lookup_fmap in Hk. apply fmap_Some in Hk as (row0 & Hr & ->).
  destruct (Forall2_lookup_l _ _ _ _ _ HF Hr) as (st & Hst & Hlen). rewrite list_lookup_imap, Hst. simpl. f_equal.
  rewrite fill_imap, (imap_lengths (λ _, true) row0 (ps_layers st) Hlen). apply imap_ext. intros m g _.
  rewrite bool_decide_eq_false_2; [done|]. intros [? ?]. destruct Hno; congruence.
Qed.

Lemma show_layer_ok u p i m st : Forall2 (λ row st, length row = length (ps_layers st)) (partial_hidden u) partials →
  0 ≤ p → partials !! Z.to_nat p = Some st → 0 ≤ m < Z.of_nat (length (ps_layers st)) → shown_linearization p i = Some m →
  show_layer (fill true <$> partial_hidden u) p m =
    Ret (imap (λ k st, imap (λ m _, negb (layer_shown (Focus p i) k m)) (ps_layers st)) partials).
Proof.
  intros HF H0 Hst Hm Em. destruct (Forall2_lookup_r _ _ _ _ _ HF Hst) as (row & Hrow & Hlen).
  assert ((fill true <$> partial_hidden u) !! Z.to_nat p = Some (fill true row)) as Hfr by (by rewrite list_lookup_fmap, Hrow).
  destruct (lookup_lt_is_Some_2 (fill true row) (Z.to_nat m)) as [b Hb]; [unfold fill; rewrite length_fmap; lia|].
  unfold show_layer. rewrite (proj2 (js_index_some (fill true <$> partial_hidden u) p (fill true row))) by done.
  cbn [mbind result_bind]. rewrite (proj2 (js_index_some (fill true row) m b)) by (split; [lia|done]).
  cbn [mbind result_bind]. f_equal. apply list_eq. intros k.
  destruct (decide (k = Z.to_nat p)) as [->|Hne].
  - rewrite list_lookup_insert_eq by (by eapply lookup_lt_Some). rewrite list_lookup_imap, Hst. simpl. f_equal.
    apply list_eq. intros j. rewrite list_lookup_imap, Z2Nat.id by done.
    destruct (decide (j = Z.to_nat m)) as [->|Hj].
    + rewrite list_lookup_insert_eq by (by eapply lookup_lt_Some).
      destruct (lookup_lt_is_Some_2 (ps_layers st) (Z.to_nat m)) as [g ->]; [lia|]. simpl.
      by rewrite bool_decide_eq_true_2 by (rewrite Z2Nat.id by lia; done).
    + rewrite list_lookup_insert_ne by done. unfold fill. rewrite list_lookup_fmap.
      destruct (row !! j) eqn:Er, (ps_layers st !! j) eqn:El; simpl; [| | |done].
      * rewrite bool_decide_eq_false_2; [done|]. intros [_ E]. rewrite Em in E. injection E as E. lia.
      * apply lookup_lt_Some in Er. apply lookup_ge_None in El. lia.
      * apply lookup_ge_None in Er. apply lookup_lt_Some in El. lia.
  - rewrite list_lookup_insert_ne by done. destruct ((fill true <$> partial_hidden u) !! k) as [row'|] eqn:Ek.
    + symmetry. eapply all_hidden; [done|done|left; lia].
    + symmetry. rewrite list_lookup_imap. apply lookup_ge_None in Ek. rewrite length_fmap, (Forall2_length _ _ _ HF) in Ek.
      by rewrite (lookup_ge_None_2 partials).
Qed.

Lemma highlight_ok u p i : shaped u → is_target p i →
  ∃ u', highlight parts pic u p i = Ret u' ∧ looks (Focus p i) u' ∧ same_rest u u'.
Proof.
  intros [Hl HF] (part & H0 & Hp & _). destruct (linearizationIndex_ok p i part H0 Hp) as (st & Hst & E & Hm).
  unfold highlight. rewrite E. cbn [mbind result_bind].
  assert (match shown_linearization p i with
      | Some m => show_layer (fill true <$> partial_hidden u) p m
      | None => Ret (fill true <$> partial_hidden u) end =
    Ret (imap (λ k st, imap (λ m _, negb (layer_shown (Focus p i) k m)) (ps_layers st)) partials)) as ->.
  { destruct (shown_linearization p i) as [m|] eqn:Em; [by apply (show_layer_ok u p i m st); auto|].
    f_equal. apply list_eq. intros k. destruct ((fill true <$> partial_hidden u) !! k) as [row|] eqn:Ek.
    - symmetry. eapply all_hidden; [done|done|by right].
    - symmetry. rewrite list_lookup_imap. apply lookup_ge_None in Ek. rewrite length_fmap, (Forall2_length _ _ _ HF) in Ek.
      by rewrite (lookup_ge_None_2 partials). }
  cbn [mbind result_bind]. eexists. split; [done|]. split; [|done]. apply updateJump_looks; simpl; [|done].
  by apply imap_lengths.
Qed.

(** *** The selected rectangle *)

Definition rects (sel : option (Z * Z)) : list (list bool) :=
  imap (λ k p, imap (λ i _, bool_decide (sel = Some (Z.of_nat k, Z.of_nat i))) (pp_History p)) parts.

Definition with_rects (u : ui) (r : list (list bool)) : ui :=
  mkUi (selected u) (selectedIndex u) (history_hidden u) (partial_hidden u) r (jump_inactive u) (jump_onclick u)
    (tooltip_shown u) (tooltip_html u) (tooltip_at u) (lastTooltip u).

Lemma set_rect_ok (flag : bool) u p i : is_target p i →
  rect_selected u = rects (if flag then None else Some (p, i)) →
  set_rect flag u p i = Ret (with_rects u (rects (if flag then Some (p, i) else None))).
Proof.
  intros (part & H0 & Hp & Hi) Er. unfold set_rect. rewrite Er.
  set (sel := if flag then None else Some (p, i)). set (sel' := if flag then Some (p, i) else None).
  assert (rects sel !! Z.to_nat p = Some (imap (λ j _, bool_decide (sel = Some (p, Z.of_nat j))) (pp_History part))) as Hrow.
  { unfold rects. rewrite list_lookup_imap, Hp, Z2Nat.id by done. done. }
  rewrite (proj2 (js_index_some _ p _) (conj H0 Hrow)). cbn [mbind result_bind].
  destruct (lookup_lt_is_Some_2 (pp_History part) (Z.to_nat i)) as [el Hel]; [lia|].
  assert (∃ b, imap (λ j _, bool_decide (sel = Some (p, Z.of_nat j))) (pp_History part) !! Z.to_nat i = Some b) as [b Hb].
  { eexists. by rewrite list_lookup_imap, Hel. }
  rewrite (proj2 (js_index_some _ i _) (conj (proj1 Hi) Hb)). cbn [mbind result_bind]. unfold with_rects. do 2 f_equal.
  assert (∀ k j, (k, j) ≠ (p, i) → bool_decide (sel = Some (k, j)) = bool_decide (sel' = Some (k, j))) as Hother.
  { intros k j Hne. apply bool_decide_ext. unfold sel, sel'. destruct flag; split; congruence. }
  apply list_eq. intros k. destruct (decide (k = Z.to_nat p)) as [->|Hne].
  - rewrite list_lookup_insert_eq by (by eapply lookup_lt_Some). unfold rects. rewrite list_lookup_imap, Hp. simpl. f_equal.
    apply list_eq. intros j. rewrite Z2Nat.id by done. destruct (decide (j = Z.to_nat i)) as [->|Hj].
    + rewrite list_lookup_insert_eq by (by eapply lookup_lt_Some). rewrite list_lookup_imap, Hel, Z2Nat.id by lia.
      simpl. f_equal. unfold sel'. destruct flag; [by rewrite bool_decide_eq_true_2|by rewrite bool_decide_eq_false_2].
    + rewrite list_lookup_insert_ne, !list_lookup_imap by done. destruct (pp_History part !! j); [|done]. simpl.
      f_equal. apply Hother. intros [= E]. lia.
  - rewrite list_lookup_insert_ne by done. unfold rects. rewrite !list_lookup_imap. destruct (parts !! k) as [q|]; [|done].
    simpl. f_equal. apply imap_ext. intros j ? _. apply Hother. intros [= E _]. lia.
Qed.

Lemma looks_frame v u u' : looks v u → history_hidden u' = history_hidden u → partial_hidden u' = partial_hidden u →
  jump_inactive u' = jump_inactive u → jump_onclick u' = jump_onclick u → looks v u'.
Proof. intros [H1 H2 [H3 H4]] E1 E2 E3 E4. by split; rewrite ?E1, ?E2, ?E3, ?E4. Qed.

Lemma shows_looks f u : shows f u → looks f.2 u.
Proof. intros [? ? ? ? ? ? ?]. by split. Qed.

(** What is left to show once the view and the selection are right. *)
Lemma shows_intro f u u' :
  looks f.2 u' → f.1 = (if selected u' then Some (selectedIndex u') else None) →
  (∀ s, f.1 = Some s → f.2 = Focus s.1 s.2 ∧ is_target s.1 s.2) → rect_selected u' = rects f.1 →
  (∀ p i sel sp si, lastTooltip u = Some (p, i, sel, sp, si) → tooltip_for parts pic number_text p i sel sp si = Ret (tooltip_html u)) →
  lastTooltip u' = lastTooltip u → tooltip_html u' = tooltip_html u → shows f u'.
Proof. intros [H1 H2 H3] Hs Hf Hr Ht E1 E2. split; [done..|]. rewrite E1, E2. done. Qed.

Lemma select_ok f u p i : shows f u → f.1 = None → is_target p i →
  ∃ u', select parts pic u p i = Ret u' ∧ shows (Some (p, i), Focus p i) u'.
Proof.
  intros Hs Ef Ht. pose proof (looks_shaped _ _ (shows_looks _ _ Hs)) as Hshape.
  destruct (highlight_ok (with_selected u true (p, i)) p i Hshape Ht) as (u1 & E & Hl & [R1 R2 R3 R4 R5]).
  unfold select. rewrite E. cbn [mbind result_bind]. rewrite (set_rect_ok true u1 p i Ht).
  - eexists. split; [done|]. apply (shows_intro _ u); simpl; [by eapply looks_frame|by rewrite R1, R2| |done|apply Hs|done|done].
    by intros s [= <-].
  - rewrite R3. simpl. rewrite (sw_rects _ _ Hs), Ef. done.
Qed.

Lemma deselect_ok f u s : shows f u → f.1 = Some s → ∃ u', deselect pic u = Ret u' ∧ shows (None, Default) u'.
Proof.
  intros Hs Ef. pose proof (looks_shaped _ _ (shows_looks _ _ Hs)) as Hshape.
  pose proof (sw_selected _ _ Hs) as Hsel. rewrite Ef in Hsel.
  destruct (selected u) eqn:Eu; [|done]. injection Hsel as ->. destruct (sw_focus _ _ Hs _ Ef) as [_ Ht].
  unfold deselect. rewrite Eu. simpl.
  destruct (resetHighlight_ok (with_selected u false (selectedIndex u)) Hshape) as [Hl [R1 R2 R3 R4 R5]].
  rewrite (set_rect_ok false _ _ _ Ht).
  - eexists. split; [done|]. apply (shows_intro _ u); simpl; [by eapply looks_frame|done|done|done|apply Hs|done|done].
  - rewrite R3. simpl. rewrite (sw_rects _ _ Hs), Ef. by destruct (selectedIndex u).
Qed.

(** *** The tooltip *)

Lemma find_step_found index prev curr lin p c : find_step index prev curr lin = (true, p, c) → is_Some c.
Proof.
  revert prev curr. induction lin as [|s lin IH]; intros prev curr; simpl; [done|].
  case_decide; [by intros [= _ <-]|apply IH].
Qed.

Lemma tooltip_ok p i sel sp si : is_target p i → (sel = true → is_target sp si) →
  ∃ html, tooltip_for parts pic number_text p i sel sp si = Ret html.
Proof.
  intros (part & H0 & Hp & Hi) Hs. unfold tooltip_for.
  assert (∃ m, (if sel then linearizationIndex parts pic sp si else linearizationIndex parts pic p i) = Ret m ∧
    ((sel = true ∧ sp ≠ p) ∨ ∀ n, m = Some n → 0 ≤ n < Z.of_nat (length (pp_PartialLinearizations part)))) as (m & -> & Hm).
  { assert (∀ st, partials !! Z.to_nat p = Some st → length (ps_layers st) = length (pp_PartialLinearizations part)) as Hlen.
    { intros st Hst. by apply (pg_lins Hok _ part st Hp Hst). }
    destruct sel.
    - destruct (Hs eq_refl) as (spart & Hs0 & Hsp & _).
      destruct (linearizationIndex_ok sp si spart Hs0 Hsp) as (st & Hst & -> & Hin). eexists. split; [done|].
      destruct (decide (sp = p)) as [->|]; [right|by left]. intros n Hn. specialize (Hin n Hn). by rewrite <-(Hlen st Hst).
    - destruct (linearizationIndex_ok p i part H0 Hp) as (st & Hst & -> & Hin). eexists. split; [done|]. right.
      intros n Hn. specialize (Hin n Hn). by rewrite <-(Hlen st Hst). }
  cbn [mbind result_bind]. case_decide as Hd; [by eexists|]. destruct m as [n|]; [|by eexists].
  destruct Hm as [?|Hm]; [done|]. specialize (Hm n eq_refl). unfold tooltip_message.
  rewrite (proj2 (js_index_some parts p part)) by done. cbn [mbind result_bind].
  destruct (lookup_lt_is_Some_2 (pp_PartialLinearizations part) (Z.to_nat n)) as [lin Hlin]; [lia|].
  rewrite (proj2 (js_index_some _ n lin)) by (split; [lia|done]). cbn [mbind result_bind].
  destruct (lookup_lt_is_Some_2 (pp_History part) (Z.to_nat i)) as [el Hel]; [lia|].
  rewrite (proj2 (js_index_some _ i el)) by (split; [lia|done]). cbn [mbind result_bind].
  destruct (lookup_lt_is_Some_2 partials (Z.to_nat p)) as [st Hst].
  { rewrite (pg_len Hok). by eapply lookup_lt_Some. }
  rewrite (proj2 (js_index_some _ p st)) by done. cbn [mbind result_bind].
  destruct (pg_lins Hok _ part st Hp Hst) as [_ Hill].
  destruct (lookup_lt_is_Some_2 (ps_illegalLast st) (Z.to_nat n)) as [ill Hl]; [lia|].
  rewrite (proj2 (js_index_some _ n ill)) by (split; [lia|done]). cbn [mbind result_bind].
  destruct (last lin) as [step|] eqn:Elast.
  - destruct (find_step i None None lin) as [[[] prev] [c|]] eqn:Ef; try case_decide; try by eexists.
  - apply last_None in Elast. destruct (pg_nonempty Hok _ part lin Hp); [by eapply list_elem_of_lookup_2|done].
Qed.

(** *** Every event *)

(** The event [e] on a page that shows [f]. *)
Definition handled f u e : Prop := ∃ u', handle parts pic number_text u e = Ret u' ∧ shows (focus_step f e) u'.

Lemma over_ok f u p i : shows f u → is_target p i → handled f u (MouseOver p i).
Proof.
  intros Hs He. pose proof (shows_looks _ _ Hs) as Hl. pose proof (sw_selected _ _ Hs) as Hsel.
  pose proof (sw_rects _ _ Hs) as Hr. pose proof (sw_tooltip _ _ Hs) as Ht. destruct f as [sel v].
  unfold handled. simpl in *. unfold handleMouseOver. destruct (selected u) eqn:Eu; simpl; subst sel.
  - eexists. split; [done|]. apply (shows_intro _ u); simpl; [by eapply looks_frame|by rewrite Eu|apply Hs|done|done|done|done].
  - destruct (highlight_ok u p i (looks_shaped _ _ Hl) He) as (u1 & -> & Hl1 & [R1 R2 R3 R4 R5]). cbn [mbind result_bind].
    eexists. split; [done|]. apply (shows_intro _ u); simpl; [by eapply looks_frame|by rewrite R1, Eu|done|by rewrite R3|done|done|done].
Qed.

Lemma move_ok f u p i pX pY : shows f u → is_target p i → handled f u (MouseMove p i pX pY).
Proof.
  intros Hs He. destruct (shows_looks _ _ Hs) as [L1 L2 L3]. pose proof (sw_selected _ _ Hs) as Hsel.
  pose proof (sw_rects _ _ Hs) as Hr. pose proof (sw_tooltip _ _ Hs) as Ht. destruct f as [sel v].
  unfold handled. simpl in *. unfold handleMouseMove. destruct (selectedIndex u) as [sp si] eqn:Ei.
  assert (∃ html, (if decide (lastTooltip u = Some (p, i, selected u, sp, si)) then Ret (tooltip_html u)
    else tooltip_for parts pic number_text p i (selected u) sp si) = Ret html ∧
    tooltip_for parts pic number_text p i (selected u) sp si = Ret html) as (html & -> & Eh).
  { case_decide as Hc; [exists (tooltip_html u); split; [done|by apply Ht]|].
    destruct (tooltip_ok p i (selected u) sp si He) as [html Eh]; [|by exists html].
    intros Eu. rewrite Eu in Hsel. by destruct (sw_focus _ _ Hs (sp, si)). }
  cbn [mbind result_bind]. eexists. split; [done|].
  split; simpl; [by rewrite Ei|apply Hs|done|done|done|done|]. by intros ? ? ? ? ? [= <- <- <- <- <-].
Qed.

Lemma out_ok f u : shows f u → handled f u MouseOut.
Proof.
  intros Hs. pose proof (shows_looks _ _ Hs) as Hl. pose proof (sw_selected _ _ Hs) as Hsel.
  pose proof (sw_rects _ _ Hs) as Hr. pose proof (sw_tooltip _ _ Hs) as Ht. destruct f as [sel v].
  unfold handled. simpl in *. unfold handleMouseOut. destruct (selected u) eqn:Eu; simpl; subst sel; (eexists; split; [done|]).
  - destruct Hl as [L1 L2 L3]. split; simpl; [by rewrite Eu|apply Hs|done|done|done|done|done].
  - destruct (resetHighlight_ok u (looks_shaped _ _ Hl)) as [[L1 L2 L3] [R1 R2 R3 R4 R5]].
    split; simpl; [by rewrite Eu|done|done|done|done|done|done].
Qed.

Lemma click_ok f u p i : shows f u → is_target p i → handled f u (Click p i).
Proof.
  intros Hs He. destruct (shows_looks _ _ Hs) as [L1 L2 L3]. pose proof (sw_selected _ _ Hs) as Hsel.
  pose proof (sw_rects _ _ Hs) as Hr. pose proof (sw_tooltip _ _ Hs) as Ht. destruct f as [sel v].
  unfold handled. simpl in *. unfold handleClick. destruct (selectedIndex u) as [sp si] eqn:Ei. destruct (selected u) eqn:Eu; subst sel.
  - case_decide as Hc.
    + destruct Hc as [-> ->]. rewrite decide_True by done. by eapply deselect_ok.
    + rewrite decide_False by naive_solver.
      destruct (sw_focus _ _ Hs _ eq_refl) as [Hv Hti]. simpl in Hv, Hti. subst v.
      rewrite (set_rect_ok false u sp si Hti) by done. cbn [mbind result_bind].
      assert (shows (None, Focus sp si) (with_selected (with_rects u (rects None)) false (sp, si)) ∧
        select parts pic (with_rects u (rects None)) p i =
        select parts pic (with_selected (with_rects u (rects None)) false (sp, si)) p i) as [Hs' ->] by (split; [by split|done]).
      by eapply select_ok.
  - rewrite decide_False by done. by eapply select_ok.
Qed.

Lemma jump_ok f u : shows f u → handled f u JumpClick.
Proof.
  intros Hs. destruct (sw_jump _ _ Hs) as [Hj1 Hj2]. pose proof (sw_selected _ _ Hs) as Hsel. destruct f as [sel v].
  unfold handled. simpl in *. unfold jump_click. rewrite Hj1. destruct (first_error v) as [pt|] eqn:Ef.
  - rewrite bool_decide_eq_false_2 by done. rewrite (Hj2 pt) by done.
    destruct (selected u) eqn:Eu; subst sel; simpl; [by eexists|]. eapply select_ok; [done|done|].
    apply find_some in Ef as [Hin%list_elem_of_In _]. destruct (pg_errors Hok pt Hin) as (k & part & st & -> & Hp & _ & _ & Hi).
    exists part. rewrite Nat2Z.id. split_and!; [lia|done|lia|lia].
  - rewrite bool_decide_eq_true_2 by done. destruct (selected u); subst sel; by eexists.
Qed.

Lemma handle_ok f u e : shows f u → on_target e → handled f u e.
Proof.
  intros Hs He. destruct e as [p i|p i pX pY| |p i| |]; simpl in He.
  - by apply over_ok.
  - by apply move_ok.
  - by apply out_ok.
  - by apply click_ok.
  - pose proof (sw_selected _ _ Hs) as Hsel. destruct f as [sel v]. unfold handled. simpl in *.
    destruct (selected u) eqn:Eu; subst sel; [by eapply deselect_ok|]. unfold deselect. rewrite Eu. by eexists.
  - by apply jump_ok.
Qed.

Lemma initial_ok : shows (None, Default) (initial parts pic).
Proof.
  unfold initial, handleMouseOut. simpl. set (u0 := mkUi _ _ _ _ _ _ _ _ _ _ _).
  destruct (resetHighlight_ok u0) as [[L1 L2 L3] [R1 R2 R3 R4 R5]].
  { split; simpl; [by unfold fill; rewrite length_fmap|]. apply Forall2_fmap_l, Forall_Forall2_diag, Forall_forall.
    intros st _. simpl. unfold fill. apply length_fmap. }
  split; simpl; [done|done|done|done| |done|done].
  apply list_eq. intros k. rewrite list_lookup_fmap, list_lookup_imap. destruct (parts !! k) as [p|]; [|done]. simpl.
  by rewrite fill_imap.
Qed.
End mouse.
