(* ===== verification/Porcupine.v ===== *)
(** The properties of the porcupine library and of its key-value model, each
    with a concrete instance. *)
From Stdlib Require Import ZArith Lia.
From stdpp Require Import base gmap sets list strings sorting.
From S2P Require Import Prelude Bitset Model Entries KvModel Nodes History Search SearchProof Checker.
From S2P Require Import Operations Events Locality CheckerProof Verdicts Visualization VisualizationProof.

(** ** Fixtures *)

Definition put_op (c : Z) (k v : string) (a b : Z) : Operation kvalue :=
  mkOperation c (VInput (mkKvInput 1 k v)) a (VOutput (mkKvOutput "")) b.
Definition get_op (c : Z) (k v : string) (a b : Z) : Operation kvalue :=
  mkOperation c (VInput (mkKvInput 0 k "")) a (VOutput (mkKvOutput v)) b.

(** Two keys; the read of "b" overlaps the write it does not see. *)
Definition sample : list (Operation kvalue) :=
  [put_op 0 "b" "1" 0 10; put_op 1 "a" "x" 2 12; get_op 2 "a" "x" 20 25; get_op 3 "b" "" 5 8].

Definition sample_events : list (Event kvalue) :=
  [mkEvent 0 CallEvent (VInput (mkKvInput 1 "a" "x")) 70;
   mkEvent 1 CallEvent (VInput (mkKvInput 0 "a" "")) 33;
   mkEvent 0 ReturnEvent (VOutput (mkKvOutput "")) 70;
   mkEvent 1 ReturnEvent (VOutput (mkKvOutput "x")) 33].

#[local] Instance kvalue_format : Format kvalue := λ _, "".
#[local] Instance string_format : Format string := λ s, s.

Abbreviation by_time := (sort_by byTime_Less).
Abbreviation sample_model := (KvModel reverse (sort_by string_less)).
Abbreviation results order := (mkEnv (SelResult <$> order) (λ _ _, 0) reverse).

#[local] Instance results_order order : RangeOrder (ptr_order (results order)) := range_reverse.

Section kv.
Context (range sort_strings : list string → list string) (sort : list (entry kvalue) → list (entry kvalue)).
Context `{!RangeOrder range, !SortsBy string_less sort_strings, !SortsBy byTime_Less sort}.
Abbreviation KvModel := (KvModel range sort_strings).
Implicit Types (history : list (Operation kvalue)).

Lemma KvModel_GoodEqual : GoodEqual KvModel.
Proof. by intros eqf [=]. Qed.

Lemma kv_step_returns op s : kv_typed op → ∃ b s', Step KvModel s (Input op) (Output op) = Ret (b, s').
Proof.
  intros (i & o & Ei & Eo). simpl. unfold kv_Step. rewrite Ei, Eo. simpl.
  repeat case_decide; by eexists _, _.
Qed.

Lemma kv_typed_key history : Forall kv_typed history → Forall (λ op, is_Some (kv_key op)) history.
Proof.
  intros Hall. eapply Forall_impl; [exact Hall|]. intros op (i & o & Ei & _).
  unfold kv_key, kv_input. rewrite Ei. by eexists.
Qed.

Lemma kv_good_part fuel history k : timed history → Forall kv_typed history →
  Z.of_nat (List.length history) < 2 ^ 63 →
  (search_fuel (makeEntries sort (on_key k history)) ≤ fuel)%nat →
  good_part KvModel fuel sort (on_key k history).
Proof.
  intros Ht Hty Hfit Hfuel. split; [| |intros op s Hop; apply kv_step_returns|done].
  - intros op [_ Hop]%list_elem_of_filter. by apply Ht.
  - pose proof (length_filter (λ op, kv_key op = Some k) history). unfold on_key. lia.
  - apply list_elem_of_filter in Hop as [_ Hop]. by eapply Forall_forall in Hty.
Qed.

Lemma kv_untied_part history k : untied history → untied (on_key k history).
Proof. intros Hu a b [_ Ha]%list_elem_of_filter [_ Hb]%list_elem_of_filter. by apply Hu. Qed.

(** The parts [KvModel] makes are linearizable iff the history is. *)
Lemma kv_parts_linearizable history parts : timed history → Forall kv_typed history →
  kv_Partition range sort_strings history = Ret parts →
  (∀ p, p ∈ parts → ∃ k, p = on_key k history) ∧
  ((∀ p, p ∈ parts → ops_linearizable KvModel p) ↔ ops_linearizable KvMap history).
Proof.
  intros Ht Hty Ep. pose proof (kv_typed_key _ Hty) as Hk.
  destruct (kv_Partition_spec range sort_strings history Hk) as (keys & E & _ & _ & Hkeys).
  rewrite E in Ep. injection Ep as <-. split.
  { intros p (k & -> & _)%list_elem_of_fmap. by exists k. }
  rewrite (kv_local range sort_strings) by done. split.
  - intros Hl k. destruct (decide (k ∈ keys)) as [Hin|Hnin].
    + apply Hl. by apply (list_elem_of_fmap_2 (λ k, on_key k history)).
    + assert (on_key k history = []) as ->.
      { apply filter_nil_iff. intros op Hop E'. apply Hnin, Hkeys. by exists op. }
      exists []. split_and!; [done|done|]. intros i j (a & b & Ea & _).
      unfold go_index in Ea. by case_decide.
  - intros Hl p (k & -> & _)%list_elem_of_fmap. apply Hl.
Qed.
End kv.

(** ** The checker decides linearizability *)

Section claims.
Context (range sort_strings : list string → list string) (sort : list (entry kvalue) → list (entry kvalue)).
Context `{!RangeOrder range, !SortsBy string_less sort_strings, !SortsBy byTime_Less sort}.
Context (nilV : kvalue) (env : environment) `{!RangeOrder (ptr_order env)}.
Context `{!Format kvalue, !Format string}.

(** C1: checking a key-value history with [KvModel], one key at a time,
    answers whether the whole history is linearizable as a map from keys to
    values: [CheckOperations] returns, [true] only for linearizable
    histories, and [false] only for others when no operation returns at the
    very instant another is called (a tie the time sort may break either way). *)
Theorem CheckOperations_KvModel fuel history :
  history ≠ [] → timed history → Forall kv_typed history → Z.of_nat (List.length history) < 2 ^ 63 →
  (∀ k, (search_fuel (makeEntries sort (on_key k history)) ≤ fuel)%nat) →
  (∀ parts, kv_Partition range sort_strings history = Ret parts → delivers env (List.length parts)) →
  ∃ b, CheckOperations fuel nilV env sort (KvModel range sort_strings) history = Ret b ∧
    (b = true → ops_linearizable KvMap history) ∧
    (untied history → ops_linearizable KvMap history → b = true).
Proof.
  intros Hne Ht Hty Hfit Hfuel Hd. pose proof (kv_typed_key _ Hty) as Hk.
  destruct (kv_Partition_spec range sort_strings history Hk) as (keys & Ep & _ & _ & Hkeys).
  destruct (kv_parts_linearizable range sort_strings history _ Ht Hty Ep) as [Hparts Hlin].
  pose proof (KvModel_GoodEqual range sort_strings) as HG.
  destruct (CheckOperations_spec (KvModel range sort_strings) fuel nilV env sort
    ((λ k, on_key k history) <$> keys)) with (history := history) as (b & E & H1 & H2);
    [|done|done| |by apply Hd|].
  - intros p [k ->]%Hparts. by apply kv_good_part.
  - destruct history as [|op history]; [done|]. apply Forall_cons in Hk as [[k Hk] _].
    assert (k ∈ keys) as Hin by (apply Hkeys; exists op; split; [left|done]). destruct keys; [by apply not_elem_of_nil in Hin|done].
  - exists b. split; [done|]. split; [intros Hb; by apply Hlin, H1|]. intros Hu Hl. apply H2; [|by apply Hlin].
    intros p Hp. destruct (Hparts p Hp) as [k ->]. by apply kv_untied_part.
Qed.
End claims.

(** The witnesses' side conditions. *)
Lemma sample_timed : timed sample.
Proof. intros op Hop. repeat (apply elem_of_cons in Hop as [->|Hop]; [simpl; lia|]). by apply not_elem_of_nil in Hop. Qed.
Lemma sample_typed : Forall kv_typed sample.
Proof. repeat (constructor; [by eexists _, _|]). constructor. Qed.

Lemma sample_fuel k : (search_fuel (makeEntries by_time (on_key k sample)) ≤ 20)%nat.
Proof.
  destruct (decide (k = "a")) as [->|Ha]; [vm_compute; lia|].
  destruct (decide (k = "b")) as [->|Hb]; [vm_compute; lia|].
  assert (on_key k sample = []) as ->; [|vm_compute; lia].
  apply filter_nil_iff. intros op Hop.
  repeat (apply elem_of_cons in Hop as [->|Hop]; [cbn; congruence|]). by apply not_elem_of_nil in Hop.
Qed.

Lemma CheckOperations_KvModel_witness :
  ∃ b, CheckOperations 20 VNil (results [1; 0]%nat) by_time sample_model sample = Ret b ∧
    (b = true → ops_linearizable KvMap sample) ∧ (untied sample → ops_linearizable KvMap sample → b = true).
Proof.
  apply (CheckOperations_KvModel reverse (sort_by string_less) by_time VNil (results [1; 0]%nat) 20 sample).
  - done.
  - apply sample_timed.
  - apply sample_typed.
  - done.
  - apply sample_fuel.
  - intros parts Ep. vm_compute in Ep. injection Ep as <-. exists [1; 0]%nat. split; [done|]. apply perm_swap.
Defined.

(** ** Any model *)

Section any_model.
Context {Val State : Type} `{EqDecision State, Format Val, Format State}.
Context (M : Model Val State) `{!GoodEqual M}.
Context (fuel : nat) (nilV : Val) (env : environment) `{!RangeOrder (ptr_order env)}.
Context (sort : list (entry Val) → list (entry Val)) `{!SortsBy byTime_Less sort}.

(** C2: for any model, [CheckOperations] returns, and answers whether every
    partition of the history is linearizable: [true] is always right, and so
    is [false] when no return coincides with a call. *)
Theorem CheckOperations_decides history parts :
  partition_of M history = Ret parts → parts ≠ [] →
  (∀ p, p ∈ parts → good_part M fuel sort p) → delivers env (List.length parts) →
  ∃ b, CheckOperations fuel nilV env sort M history = Ret b ∧
    (b = true → ∀ p, p ∈ parts → ops_linearizable M p) ∧
    ((∀ p, p ∈ parts → untied p) → (∀ p, p ∈ parts → ops_linearizable M p) → b = true).
Proof. intros. by apply CheckOperations_spec. Qed.

(** C3: [CheckEvents] returns, and answers exactly whether every partition
    of the event history is linearizable, whatever numbers the events use as
    ids. *)
Theorem CheckEvents_decides history :
  (∀ p, p ∈ event_parts M history → good_events M fuel p) →
  event_parts M history ≠ [] → delivers env (List.length (event_parts M history)) →
  ∃ b, CheckEvents fuel nilV env M history = Ret b ∧
    (b = true ↔ ∀ p, p ∈ event_parts M history → events_linearizable M p).
Proof. intros. by apply CheckEvents_spec. Qed.

(** C4: with a timeout the answer still means what it says, whatever order
    goroutines finish in and whenever the timer fires: [Ok] only if all
    partitions are linearizable, [Illegal] only if one is not, [Unknown]
    only if there was a timeout. *)
Theorem CheckOperationsTimeout_sound history parts timeout res :
  partition_of M history = Ret parts → (∀ p, p ∈ parts → good_part M fuel sort p) →
  CheckOperationsTimeout fuel nilV env sort M history timeout = Ret res →
  match res with
  | Ok => ∀ p, p ∈ parts → ops_linearizable M p
  | Illegal => (∀ p, p ∈ parts → untied p) → ∃ p, p ∈ parts ∧ ¬ ops_linearizable M p
  | Unknown => 0 < timeout
  end.
Proof.
  intros Ep Hg E. unfold CheckOperationsTimeout in E.
  apply bind_ret_inv in E as ([res' info] & E & [= <-]).
  by eapply checkOperations_sound in E.
Qed.

Context (sort_partials : list (list Z) → list (list Z)) `{!SortsBy longer sort_partials}.

(** The data of a verbose report: what [drawn] says of every partition, whose
    partial linearizations are valid and not empty. *)
Lemma verbose_data history parts timeout res info :
  partition_of M history = Ret parts → (∀ p, p ∈ parts → good_part M fuel sort p) →
  (∀ p op, p ∈ parts → op ∈ p → ∃ s,
     default DefaultDescribeOperation (DescribeOperation M) (Input op) (Output op) = Ret s) →
  CheckOperationsVerbose fuel nilV env sort M history timeout = Ret (res, info) →
  ∃ data info', computeVisualizationData nilV sort_partials M info = Ret (data, info') ∧
    List.length data = List.length parts ∧
    ∀ k p, parts !! k = Some p → ∃ ps d, partialLinearizations info !! k = Some ps ∧
      data !! k = Some d ∧ drawn M sort_partials (makeEntries sort p) ps d ∧
      partials_ok (fillDefault M) (makeEntries sort p) ps.
Proof.
  intros Ep Hg Hdesc E. destruct (verbose_info M fuel nilV env sort parts Hg history timeout res info _ Ep E)
    as (st & Hh & Hlen & Hps). rewrite length_fmap in Hlen.
  destruct (compute_spec nilV M sort_partials info) as (data & info' & Ed & Hl & Hd).
  - rewrite Hh. intros es (p & -> & Hp)%list_elem_of_fmap. destruct (Hg p Hp) as [Ht Hf Hs _].
    split_and!; [by apply entries_balanced|by apply entries_ids|].
    intros i v w (op & Hop & <- & <-)%entries_io; [|done..]. eapply Hdesc; [done|].
    by eapply go_index_elem.
  - rewrite Hh. apply Forall2_same_length_lookup. split; [by rewrite length_fmap, Hlen|].
    intros k es ps Ek Epk. destruct (Hps k es Ek) as (ps' & Epk' & [Hv _] & _). by simplify_eq.
  - exists data, info'. split; [done|]. rewrite Hh, length_fmap in Hl. split; [done|].
    intros k p Ek. destruct (Hps k (makeEntries sort p)) as (ps & Epk & Hpo & _); [by rewrite list_lookup_fmap, Ek|].
    destruct (Hd k (makeEntries sort p) ps) as (d & ? & ?); [by rewrite Hh, list_lookup_fmap, Ek|done|].
    by exists ps, d.
Qed.

(** C5: what a verbose check reports can be drawn: it returns, and on
    whatever it returns, at any timeout, [computeVisualizationData] never
    reaches its panic "valid partial linearization returned non-ok result";
    it describes every operation with its interval, replays every partial
    linearization through legal steps, longest first, and points each
    operation at the first partial that contains it. *)
Theorem verbose_report_draws history parts timeout :
  partition_of M history = Ret parts → parts ≠ [] →
  (∀ p, p ∈ parts → good_part M fuel sort p) →
  (∀ p op, p ∈ parts → op ∈ p → ∃ s,
     default DefaultDescribeOperation (DescribeOperation M) (Input op) (Output op) = Ret s) →
  (delivers env (List.length parts) → ∃ out,
     CheckOperationsVerbose fuel nilV env sort M history timeout = Ret out) ∧
  ∀ res info, CheckOperationsVerbose fuel nilV env sort M history timeout = Ret (res, info) →
    ∃ data info', computeVisualizationData nilV sort_partials M info = Ret (data, info') ∧
      List.length data = List.length parts ∧
      ∀ k p, parts !! k = Some p → ∃ ps d, partialLinearizations info !! k = Some ps ∧
        data !! k = Some d ∧ drawn M sort_partials (makeEntries sort p) ps d.
Proof.
  intros Ep Hne Hg Hdesc. split.
  { intros Hd. unfold CheckOperationsVerbose.
    destruct (checkOperations_returns M fuel nilV env sort parts Hg history true timeout _ Ep Hne Hd)
      as (res & info & E & _). by eexists. }
  intros res info E. destruct (verbose_data history parts timeout res info Ep Hg Hdesc E) as (data & info' & Ed & Hl & Hd).
  exists data, info'. split_and!; [done|done|]. intros k p Ek. destruct (Hd k p Ek) as (ps & d & ? & ? & ? & _). by exists ps, d.
Qed.
End any_model.

Lemma sample_parts : partition_of sample_model sample = Ret [on_key "a" sample; on_key "b" sample].
Proof. vm_compute. reflexivity. Qed.

Lemma sample_good p : p ∈ [on_key "a" sample; on_key "b" sample] → good_part sample_model 20 by_time p.
Proof.
  intros Hp. assert (∃ k, p = on_key k sample) as [k ->].
  { apply elem_of_cons in Hp as [->|Hp%list_elem_of_singleton]; by eexists. }
  apply kv_good_part; [apply sample_timed|apply sample_typed|done|apply sample_fuel].
Qed.

Lemma sample_describes op : op ∈ sample → ∃ s, kv_DescribeOperation (Input op) (Output op) = Ret s.
Proof.
  intros Hop. pose proof sample_typed as Hty. rewrite Forall_forall in Hty.
  destruct (Hty op Hop) as (i & o & -> & ->). unfold kv_DescribeOperation. simpl.
  repeat case_decide; by eexists.
Qed.

Lemma sample_delivers : delivers (results [1; 0]%nat) 2.
Proof. exists [1; 0]%nat. split; [done|apply perm_swap]. Qed.

Lemma CheckOperations_decides_witness :
  ∃ b, CheckOperations 20 VNil (results [1; 0]%nat) by_time sample_model sample = Ret b ∧
    (b = true → ∀ p, p ∈ [on_key "a" sample; on_key "b" sample] → ops_linearizable sample_model p) ∧
    ((∀ p, p ∈ [on_key "a" sample; on_key "b" sample] → untied p) →
     (∀ p, p ∈ [on_key "a" sample; on_key "b" sample] → ops_linearizable sample_model p) → b = true).
Proof.
  pose proof (KvModel_GoodEqual reverse (sort_by string_less)) as HG.
  apply (CheckOperations_decides sample_model 20 VNil (results [1; 0]%nat) by_time).
  - apply sample_parts.
  - done.
  - apply sample_good.
  - apply sample_delivers.
Defined.

Lemma CheckOperationsTimeout_sound_witness :
  Forall (ops_linearizable sample_model) [on_key "a" sample; on_key "b" sample].
Proof.
  apply Forall_forall.
  pose proof (KvModel_GoodEqual reverse (sort_by string_less)) as HG.
  apply (CheckOperationsTimeout_sound sample_model 20 VNil (results [1; 0]%nat) by_time sample
    [on_key "a" sample; on_key "b" sample] 1000 Ok).
  - apply sample_parts.
  - apply sample_good.
  - vm_compute. reflexivity.
Defined.

Lemma sample_events_good p : p ∈ event_parts sample_model sample_events → good_events sample_model 20 p.
Proof.
  intros ->%list_elem_of_singleton. split; [|done| |vm_compute; lia].
  - intros i. unfold events_balanced. destruct (decide (i = 70)) as [->|H1].
    { right. vm_compute. eexists _, _. by split. }
    destruct (decide (i = 33)) as [->|H2]; [right; vm_compute; eexists _, _; by split|].
    left. apply filter_nil_iff. intros e He%elem_of_convert. cbn in He.
    intros <-. repeat (apply elem_of_cons in He as [He|He]; [done|]). by apply not_elem_of_nil in He.
  - intros i v w s (c & r & E & <- & <-). destruct (decide (i = 70)) as [->|H1].
    { vm_compute in E. injection E as <- <-. by eexists _, _. }
    destruct (decide (i = 33)) as [->|H2].
    { vm_compute in E. injection E as <- <-. by eexists _, _. }
    assert (c ∈ of_id i (convertEntries sample_events)) as Hc by (rewrite E; left).
    apply list_elem_of_filter in Hc as [<- He%elem_of_convert]. cbn in He.
    repeat (apply elem_of_cons in He as [He|He]; [done|]). by apply not_elem_of_nil in He.
Qed.

Lemma CheckEvents_decides_witness :
  ∃ b, CheckEvents 20 VNil (results [0]%nat) sample_model sample_events = Ret b ∧
    (b = true ↔ ∀ p, p ∈ event_parts sample_model sample_events → events_linearizable sample_model p).
Proof.
  pose proof (KvModel_GoodEqual reverse (sort_by string_less)) as HG.
  apply (CheckEvents_decides sample_model 20 VNil (results [0]%nat)).
  - apply sample_events_good.
  - done.
  - by exists [0]%nat.
Defined.

Lemma verbose_report_draws_witness :
  ∃ data info', computeVisualizationData VNil (sort_by longer) sample_model
      (match CheckOperationsVerbose 20 VNil (results [1; 0]%nat) by_time sample_model sample 0 with
       | Ret (_, info) => info | _ => mkInfo [] [] end) = Ret (data, info') ∧ List.length data = 2%nat.
Proof.
  pose proof (KvModel_GoodEqual reverse (sort_by string_less)) as HG.
  destruct (verbose_report_draws sample_model 20 VNil (results [1; 0]%nat) by_time (sort_by longer) sample
    [on_key "a" sample; on_key "b" sample] 0) as [_ H].
  - apply sample_parts.
  - done.
  - apply sample_good.
  - intros p op Hp Hop. apply sample_describes.
    apply elem_of_cons in Hp as [->| ->%list_elem_of_singleton]; by apply list_elem_of_filter in Hop as [_ ?].
  - edestruct H as (data & info' & E & Hl & _); [vm_compute; reflexivity|].
    exists data, info'. split; [exact E|exact Hl].
Defined.

(** ** The search and its data structures *)

(** C10: the search of one partition terminates within [search_fuel]
    iterations; undisturbed, it returns [true] exactly when the partition is
    linearizable, and every partial linearization it records replays on the
    model in an order real time allows and contains the operation it is
    recorded for. *)
Theorem checkSingle_decides {Val State} (M : Model Val State) eqf (es : list (entry Val))
    fuel nilV computePartial :
  Equal M = Some eqf → EqualCompat M eqf → wf_entries M es → (search_fuel es ≤ fuel)%nat →
  ∃ b longest seqs,
    checkSingle fuel nilV M es computePartial no_kill = Ret (b, (longest, seqs)) ∧
    (b = true ↔ linearizable M es) ∧
    ∀ i p, longest !! i = Some (Some p) →
      ∃ seq, seqs !! p = Some seq ∧ Z.of_nat i ∈ seq ∧ valid_partial M es seq.
Proof.
  intros Heq Hc Hwf Hf. pose proof Hwf as [Hb Hi Hfit Hs].
  destruct (checkSingle_spec M eqf es Heq Hb Hi Hfit) with (fuel := fuel) (nilV := nilV)
    (cp := computePartial) (kill := no_kill) as (b & lg & sq & E & Ho); [|done|].
  { intros c r s Ec. eapply Hs. by exists c, r. }
  exists b, lg, sq. split; [done|]. split; [|by apply Ho].
  apply (outcome_linearizable M [es]) with (lg := lg) (sq := sq); [|left|done].
  by intros ? ->%list_elem_of_singleton.
Qed.

Lemma checkSingle_decides_witness :
  ∃ b longest seqs,
    checkSingle 20 VNil (fillDefault sample_model) (makeEntries by_time (on_key "a" sample)) true no_kill =
      Ret (b, (longest, seqs)) ∧
    (b = true ↔ linearizable (fillDefault sample_model) (makeEntries by_time (on_key "a" sample))) ∧
    ∀ i p, longest !! i = Some (Some p) →
      ∃ seq, seqs !! p = Some seq ∧ Z.of_nat i ∈ seq ∧
        valid_partial (fillDefault sample_model) (makeEntries by_time (on_key "a" sample)) seq.
Proof.
  apply (checkSingle_decides (fillDefault sample_model) ShallowEqual).
  - reflexivity.
  - apply ShallowEqual_compat.
  - apply (good_part_wf sample_model 20 by_time), sample_good. left.
  - apply sample_fuel.
Defined.

(** C11: the dancing-links step of the search: [lift] unlinks a call and its
    return and changes nothing else of any node but the links, and [unlift]
    then restores the store exactly, so undoing a call is sound. *)
Theorem lift_unlift_restores {Val} (h : heap Val) hd A c B r C :
  seg h hd (A ++ c :: B ++ r :: C) None → NoDup (hd :: A ++ c :: B ++ r :: C) →
  (n_match <$> h !! c) = Some (Some r) →
  ∃ h', lift h (Some c) = Ret h' ∧ seg h' hd (A ++ B ++ C) None ∧
    (∀ a, (static <$> h' !! a) = (static <$> h !! a)) ∧ unlift h' (Some c) = Ret h.
Proof. apply lift_unlift. Qed.

Definition sample_heap : heap kvalue :=
  match makeLinkedEntries [] (makeEntries by_time (on_key "a" sample)) with
  | Ret (h, entry) =>
      let '(h, hd) := new_node h (mkNode VNil None (-1) None None) in
      match insertBefore h (Some hd) entry with Ret (h, _) => h | _ => [] end
  | _ => []
  end.

Lemma lift_unlift_restores_witness :
  ∃ h', lift sample_heap (Some 3%nat) = Ret h' ∧ seg h' 4%nat [1; 0]%nat None ∧
    (∀ a, (static <$> h' !! a) = (static <$> sample_heap !! a)) ∧ unlift h' (Some 3%nat) = Ret sample_heap.
Proof.
  apply (lift_unlift_restores sample_heap 4 [] 3 [] 2 [1; 0])%nat.
  - vm_compute. repeat split.
  - apply (bool_decide_eq_true_1 (NoDup [4; 3; 2; 1; 0]%nat)). vm_compute. reflexivity.
  - reflexivity.
Defined.

(** What a sequence of updates of a bit set is meant to do. *)
Definition bitset_run (ops : list (bool * Z)) (b : bitset) : result bitset :=
  foldM (λ b op, if (op.1 : bool) then set b op.2 else clear b op.2) b ops.
Definition set_run (ops : list (bool * Z)) (X : gset Z) : gset Z :=
  foldl (λ X op, if (op.1 : bool) then {[op.2]} ∪ X else X ∖ {[op.2]}) X ops.

Lemma bitset_run_rep n ops b X : rep n b X → Forall (λ op, 0 ≤ op.2 < n) ops →
  ∃ b', bitset_run ops b = Ret b' ∧ rep n b' (set_run ops X).
Proof.
  intros Hr Hall. revert b X Hr. induction Hall as [|[o i] ops Hi Hall IH]; intros b X Hr.
  { by exists b. }
  unfold bitset_run. simpl in *. destruct o.
  - destruct (set_rep n b X i Hr Hi) as (b' & -> & Hr'). by apply IH.
  - destruct (clear_rep n b X i Hr Hi) as (b' & -> & Hr'). by apply IH.
Qed.

(** C12: bit sets are sets: a new one of capacity [n], updated by any sequence
    of [set] and [clear] within its capacity, holds the set those updates
    make: [get] is membership, [popcnt] the number of elements, and [equals]
    (also across two sequences) is equality of sets, which makes the search
    cache's comparison exact. *)
Theorem bitset_is_set n ops ops' : 0 ≤ n →
  Forall (λ op, 0 ≤ op.2 < n) ops → Forall (λ op, 0 ≤ op.2 < n) ops' →
  ∃ b b', bitset_run ops (newBitset n) = Ret b ∧ bitset_run ops' (newBitset n) = Ret b' ∧
    (∀ i, 0 ≤ i < n → get b i = Ret (bool_decide (i ∈ set_run ops ∅))) ∧
    popcnt b = Z.of_nat (size (set_run ops ∅)) ∧
    (equals b b' = true ↔ set_run ops ∅ = set_run ops' ∅) ∧
    (set_run ops ∅ = set_run ops' ∅ → hash b = hash b').
Proof.
  intros Hn Ho Ho'. pose proof (newBitset_rep n Hn) as H0.
  destruct (bitset_run_rep n ops _ _ H0 Ho) as (b & E & Hr).
  destruct (bitset_run_rep n ops' _ _ H0 Ho') as (b' & E' & Hr').
  exists b, b'. split_and!; [done..| | | |].
  - intros i Hi. by eapply get_rep.
  - by eapply rep_popcnt.
  - by eapply rep_equals.
  - intros EX. rewrite <-EX in Hr'. by rewrite (rep_inj n b b' _ Hr Hr').
Qed.

Lemma bitset_is_set_witness :
  ∃ b b', bitset_run [(true, 65); (true, 3)] (newBitset 70) = Ret b ∧
    bitset_run [(true, 3); (true, 64); (true, 65); (false, 64)] (newBitset 70) = Ret b' ∧
    equals b b' = true.
Proof.
  destruct (bitset_is_set 70 [(true, 65); (true, 3)] [(true, 3); (true, 64); (true, 65); (false, 64)])
    as (b & b' & E & E' & _ & _ & H & _); [lia|repeat constructor; simpl; lia..|].
  exists b, b'. split_and!; [exact E|exact E'|]. apply H. vm_compute. reflexivity.
Defined.

(** ** The key-value model *)

Section kv_claims.
Context (range sort_strings : list string → list string).
Context `{!RangeOrder range, !SortsBy string_less sort_strings}.

(** [KvModel]'s [Partition] splits a history by key: one part per key
    that occurs, in increasing key order whatever the map's iteration order,
    each with that key's operations in history order; together the parts are
    the history. An input that is not a [KvInput] panics. *)
Lemma Partition_by_key history :
  (Forall (λ op, is_Some (kv_key op)) history →
   ∃ keys, kv_Partition range sort_strings history = Ret ((λ k, on_key k history) <$> keys) ∧
     NoDup keys ∧ StronglySorted String.le keys ∧
     (∀ k, k ∈ keys ↔ ∃ op, op ∈ history ∧ kv_key op = Some k) ∧
     concat ((λ k, on_key k history) <$> keys) ≡ₚ history) ∧
  ((∃ op, op ∈ history ∧ kv_key op = None) →
   kv_Partition range sort_strings history = Panic TypeAssertion).
Proof.
  split; [intros Hk|intros (op & Hop & Hn); by eapply kv_Partition_untyped].
  destruct (kv_Partition_spec range sort_strings history Hk) as (keys & E & Hnd & Hs & Hin).
  exists keys. split_and!; [done..| |done|].
  - apply Sorted_StronglySorted; [intros a b c; apply (transitivity (R := String.le))|].
    clear -Hs. induction Hs as [|a l Hs IH Hd]; constructor; [done|].
    destruct Hd; constructor. by apply string_less_le.
  - apply on_key_concat; [done|]. intros op Hop. rewrite Forall_forall in Hk.
    destruct (Hk op Hop) as [k Ek]. exists k. split; [done|]. apply Hin. by exists op.
Qed.

(** C13: checking key by key loses nothing and adds nothing: a history is
    linearizable as a map from keys to values iff, for every key, its
    operations are linearizable as a single value. *)
Theorem KvModel_local history :
  timed history → Forall (λ op, is_Some (kv_key op)) history →
  ops_linearizable KvMap history ↔
    ∀ k, ops_linearizable (KvModel range sort_strings) (on_key k history).
Proof. intros. by apply kv_local. Qed.

(** Typed or not, and nothing else, decides whether [KvModel] panics. *)
Lemma kv_typed_step op s : kv_typed op →
  (∃ b s', kv_Step s (Input op) (Output op) = Ret (b, s')) ∧ ∃ d, kv_DescribeOperation (Input op) (Output op) = Ret d.
Proof.
  intros (i & o & Ei & Eo). unfold kv_Step, kv_DescribeOperation. rewrite Ei, Eo. csimpl.
  split; repeat case_decide; by repeat eexists.
Qed.
Lemma kv_untyped_step op s : ¬ kv_typed op →
  kv_Step s (Input op) (Output op) = Panic TypeAssertion ∧ kv_DescribeOperation (Input op) (Output op) = Panic TypeAssertion.
Proof.
  intros Hn. unfold kv_Step, kv_DescribeOperation. destruct (Input op) as [|i| |] eqn:Ei; [done| |done..].
  destruct (Output op) as [| |o|] eqn:Eo; [done|done| |done]. destruct Hn. by exists i, o.
Qed.

Lemma kv_keyed_dec history :
  Forall (λ op, is_Some (kv_key op)) history ∨ ∃ op, op ∈ history ∧ kv_key op = None.
Proof.
  destruct (decide (Forall (λ op, is_Some (kv_key op)) history)) as [|Hn]; [by left|right].
  apply not_Forall_Exists in Hn; [|apply _]. apply Exists_exists in Hn as (op & Hop & Hn). exists op. split; [done|].
  by apply eq_None_not_Some.
Qed.

(** C14: the type assertions of models/kv.go. Operations with a [KvInput] and
    a [KvOutput] make neither [Step] nor [DescribeOperation] panic, and all
    others make both; [Partition] returns exactly when every input is a
    [KvInput], with parts that are typed exactly when the history is, and its
    panic is that of every entry point of the checker. *)
Theorem KvModel_types sort fuel nilV env history timeout `{Format kvalue, Format string} :
  (∀ op s, kv_typed op →
     (∃ b s', kv_Step s (Input op) (Output op) = Ret (b, s')) ∧ ∃ d, kv_DescribeOperation (Input op) (Output op) = Ret d) ∧
  (∀ op s, ¬ kv_typed op →
     kv_Step s (Input op) (Output op) = Panic TypeAssertion ∧ kv_DescribeOperation (Input op) (Output op) = Panic TypeAssertion) ∧
  (Forall (λ op, is_Some (kv_key op)) history → ∃ parts, kv_Partition range sort_strings history = Ret parts ∧
     (Forall kv_typed history ↔ Forall (Forall kv_typed) parts)) ∧
  (∀ op, op ∈ history → kv_key op = None →
     CheckOperations fuel nilV env sort (KvModel range sort_strings) history = Panic TypeAssertion ∧
     CheckOperationsTimeout fuel nilV env sort (KvModel range sort_strings) history timeout = Panic TypeAssertion ∧
     CheckOperationsVerbose fuel nilV env sort (KvModel range sort_strings) history timeout = Panic TypeAssertion).
Proof.
  split_and!; [apply kv_typed_step|apply kv_untyped_step| |].
  - intros Hk. destruct (proj1 (Partition_by_key history) Hk) as (keys & E & _ & _ & _ & Hperm).
    exists ((λ k, on_key k history) <$> keys). split; [done|]. by rewrite <-Forall_concat, Hperm.
  - intros op Hop Hn. assert (∀ verbose t, checkOperations fuel nilV env sort (KvModel range sort_strings) history verbose t =
      Panic TypeAssertion) as Hc.
    { intros verbose t. unfold checkOperations. cbn [fillDefault KvModel Partition default nonnil mbind result_bind].
      unfold Datatypes.id. by rewrite (kv_Partition_untyped _ _ history op Hop Hn). }
    unfold CheckOperations, CheckOperationsTimeout, CheckOperationsVerbose. by rewrite !Hc.
Qed.

(** An empty history has no partition to wait for: the [select] of
    [checkParallel] then has no channel that can ever be ready, so that
    without a timeout the check returns under no schedule at all. *)
Lemma CheckOperations_empty_blocks sort fuel nilV env `{Format kvalue, Format string} :
  CheckOperations fuel nilV env sort (KvModel range sort_strings) [] = OutOfFuel.
Proof.
  assert (kv_Partition range sort_strings [] = Ret []) as E.
  { unfold kv_Partition. cbn [foldM mbind result_bind]. rewrite map_to_list_empty.
    assert (sort_strings (range []) = []) as E; [|csimpl; by rewrite E].
    apply Permutation_nil_r. rewrite (sort_perm _). apply (range_perm _). }
  unfold CheckOperations, checkOperations.
  cbn [fillDefault KvModel Partition default nonnil mbind result_bind].
  unfold Datatypes.id. rewrite E. simpl. unfold checkParallel. by destruct (sched env) as [|[]].
Qed.
End kv_claims.

Example Partition_by_key_sample :
  ∃ keys, kv_Partition reverse (sort_by string_less) sample = Ret ((λ k, on_key k sample) <$> keys) ∧
    StronglySorted String.le keys.
Proof.
  destruct (Partition_by_key reverse (sort_by string_less) sample) as [H _].
  destruct H as (keys & E & _ & Hs & _); [apply kv_typed_key, sample_typed|].
  exists keys. by split.
Defined.

Lemma KvModel_types_witness :
  (∃ parts, kv_Partition reverse (sort_by string_less) sample = Ret parts ∧ Forall (Forall kv_typed) parts) ∧
  CheckOperations 20 VNil (results [1; 0]%nat) by_time sample_model (sample ++ [mkOperation 4 VNil 30 VNil 31]) = Panic TypeAssertion.
Proof.
  split.
  - destruct (KvModel_types reverse (sort_by string_less) by_time 20 VNil (results [1; 0]%nat) sample 0) as (_ & _ & H & _).
    destruct H as (parts & E & Ht); [apply kv_typed_key, sample_typed|]. exists parts. split; [exact E|apply Ht, sample_typed].
  - destruct (KvModel_types reverse (sort_by string_less) by_time 20 VNil (results [1; 0]%nat)
      (sample ++ [mkOperation 4 VNil 30 VNil 31]) 0) as (_ & _ & _ & H).
    apply (H (mkOperation 4 VNil 30 VNil 31)); [do 4 right; left|reflexivity].
Defined.

Lemma KvModel_local_witness :
  ops_linearizable KvMap sample ↔ ∀ k, ops_linearizable sample_model (on_key k sample).
Proof. apply KvModel_local; [apply sample_timed|apply kv_typed_key, sample_typed]. Defined.

Example CheckOperations_empty_blocks_sample :
  CheckOperations 20 VNil (results []) by_time sample_model [] = OutOfFuel.
Proof. apply (CheckOperations_empty_blocks reverse (sort_by string_less)). Qed.
