(* ===== verification/Html.v ===== *)
(** porcupine/visualization.go, [Visualize] and [VisualizePath]: the page is
    its template with the report's data as JSON in the middle.

    [json.Marshal] of encoding/json is written out for the types of the data,
    as Go does it: fields in order, a map's keys sorted as strings, [<], [>]
    and [&] escaped, what is not UTF-8 replaced. *)
From Stdlib Require Import ZArith Lia Ascii.
From stdpp Require Import base gmap sets list strings sorting pretty.
From S2P Require Import Prelude Model Entries Checker Visualization.

Definition code (c : ascii) : Z := Z.of_N (N_of_ascii c).
Definition of_code (z : Z) : ascii := ascii_of_N (Z.to_N z).
Fixpoint concat_text (l : list string) : string := match l with [] => "" | s :: l => s +:+ concat_text l end.
Definition bytes (l : list Z) : string := String.string_of_list_ascii (of_code <$> l).

(** ** UTF-8 *)

Definition cont (c : ascii) : bool := bool_decide (128 ≤ code c < 192).
Definition two_bytes (b0 b1 : ascii) : bool := bool_decide (194 ≤ code b0 < 224) && cont b1.
Definition three_bytes (b0 b1 b2 : ascii) : bool :=
  (bool_decide (code b0 = 224 ∧ 160 ≤ code b1 < 192) || bool_decide (225 ≤ code b0 < 237) && cont b1 ||
   bool_decide (code b0 = 237 ∧ 128 ≤ code b1 < 160) || bool_decide (238 ≤ code b0 < 240) && cont b1) && cont b2.
Definition four_bytes (b0 b1 b2 b3 : ascii) : bool :=
  (bool_decide (code b0 = 240 ∧ 144 ≤ code b1 < 192) || bool_decide (241 ≤ code b0 < 244) && cont b1 ||
   bool_decide (code b0 = 244 ∧ 128 ≤ code b1 < 144)) && cont b2 && cont b3.

(** What [utf8.DecodeRuneInString] finds, one after the other: an ASCII
    character, the bytes of another character, or a byte that starts none. *)
Inductive rune := Byte (b : ascii) | Multi (bytes : string) | Invalid (b : ascii).

Fixpoint runes (s : string) : list rune :=
  match s with
  | "" => []
  | String b0 r0 =>
      if decide (code b0 < 128) then Byte b0 :: runes r0 else
      match r0 with
      | String b1 r1 =>
          if two_bytes b0 b1 then Multi (String b0 (String b1 "")) :: runes r1 else
          match r1 with
          | String b2 r2 =>
              if three_bytes b0 b1 b2 then Multi (String b0 (String b1 (String b2 ""))) :: runes r2 else
              match r2 with
              | String b3 r3 =>
                  if four_bytes b0 b1 b2 b3 then Multi (String b0 (String b1 (String b2 (String b3 "")))) :: runes r3
                  else Invalid b0 :: runes r0
              | "" => Invalid b0 :: runes r0
              end
          | "" => Invalid b0 :: runes r0
          end
      | "" => Invalid b0 :: runes r0
      end
  end%string.

(** ** [encodeState.string] *)

Definition hex (n : Z) : ascii := default "0"%char (String.get (Z.to_nat n) "0123456789abcdef").
Definition quote : ascii := "034"%char.
Definition backslash : ascii := "\"%char.

Definition escape (b : ascii) : string :=
  if decide (b = quote ∨ b = backslash) then String backslash (String b "")
  else if decide (code b = 10) then String backslash "n"
  else if decide (code b = 13) then String backslash "r"
  else if decide (code b = 9) then String backslash "t"
  else if decide (code b < 32 ∨ b = "<"%char ∨ b = ">"%char ∨ b = "&"%char) then
    String backslash ("u00" +:+ String (hex (code b / 16)) (String (hex (code b mod 16)) ""))
  else String b "".

(** Go writes the replacement character for an invalid byte, and an escape
    for U+2028 and U+2029. *)
Definition encode_rune (r : rune) : string :=
  match r with
  | Byte b => escape b
  | Multi t => if decide (t = bytes [226; 128; 168]) then String backslash "u2028"
               else if decide (t = bytes [226; 128; 169]) then String backslash "u2029" else t
  | Invalid _ => String backslash "ufffd"
  end.
Definition encode_string (s : string) : string :=
  String quote (concat_text (encode_rune <$> runes s) +:+ String quote "").

(** ** Arrays, objects and the data *)

Fixpoint commas (l : list string) : string :=
  match l with [] => "" | [s] => s | s :: l => s +:+ "," +:+ commas l end.
Definition encode_array (l : list string) : string := "[" +:+ commas l +:+ "]".
Definition encode_object (l : list (string * string)) : string :=
  "{" +:+ commas ((λ kv, encode_string kv.1 +:+ ":" +:+ kv.2) <$> l) +:+ "}".

Definition encode_element (he : historyElement) : string :=
  encode_object [("ClientId", Itoa (he_ClientId he)); ("Start", Itoa (Start he)); ("End", Itoa (he_End he));
    ("Description", encode_string (Description he))].
Definition encode_step (st : linearizationStep) : string :=
  encode_object [("Index", Itoa (Index st)); ("StateDescription", encode_string (StateDescription st))].
(** The keys are sorted as strings. *)
Definition key_before (a b : string * Z) : bool := string_less a.1 b.1.
Definition sorted_keys (m : gmap Z Z) : list (string * Z) := sort_by key_before ((λ kv, (Itoa kv.1, kv.2)) <$> map_to_list m).
Definition encode_map (m : gmap Z Z) : string := encode_object ((λ kv, (kv.1, Itoa kv.2)) <$> sorted_keys m).
Definition encode_partition (d : partitionVisualizationData) : string :=
  encode_object [("History", encode_array (encode_element <$> History d));
    ("PartialLinearizations", encode_array ((λ lin, encode_array (encode_step <$> lin)) <$> PartialLinearizations d));
    ("Largest", encode_map (Largest d))].
Definition Marshal (data : list partitionVisualizationData) : string := encode_array (encode_partition <$> data).

(** ** The page *)

(** [html] around its only verb, the [%s] of [const data]. [write] is the
    writer's: it returns the error, if any. *)
Section page.
Context {Val State : Type} `{EqDecision State, Format Val, Format State} (nilV : Val).
Context (sort_partials : list (list Z) → list (list Z)) (html_before html_after : string).
Context {World error : Type} (write : World → string → option error * World).

Definition Visualize (model : Model Val State) (info : linearizationInfo Val) (w : World)
    : result (option error * World) :=
  '(data, _) ← computeVisualizationData nilV sort_partials model info;
  Ret (write w (html_before +:+ Marshal data +:+ html_after)).

(** [create] is [os.Create]; closing a file is left to the system. *)
Definition VisualizePath (create : World → string → option error * World)
    (model : Model Val State) (info : linearizationInfo Val) (path : string) (w : World) : result (option error * World) :=
  let '(err, w) := create w path in
  match err with
  | Some err => Ret (Some err, w)
  | None => Visualize model info w
  end.
End page.
