(* ===== verification/Literal.v ===== *)
(** Reading the data back out of the page: JavaScript's literals for numbers,
    strings, arrays and objects, and the proof that [print] writes them.

    [print] is [json.Marshal] on a tree of values, [parse] the script's
    reader; they meet up to [coerce], what becomes of text that is not UTF-8,
    and [Number], the double nearest to a number literal. *)
From Stdlib Require Import ZArith Lia Ascii.
From stdpp Require Import base list strings pretty.
From S2P Require Import Prelude Page Html.

(** ** Text *)

Lemma app_text s t u : (s +:+ t) +:+ u = s +:+ (t +:+ u).
Proof. induction s as [|c s IH]; [done|]. change (String c ((s +:+ t) +:+ u) = String c (s +:+ (t +:+ u))). by rewrite IH. Qed.
Lemma app_text_nil s : s +:+ "" = s.
Proof. induction s as [|c s IH]; [done|]. change (String c (s +:+ "") = String c s). by rewrite IH. Qed.
Lemma length_text s t : String.length (s +:+ t) = (String.length s + String.length t)%nat.
Proof. induction s as [|c s IH]; [done|]. change (S (String.length (s +:+ t)) = S (String.length s) + String.length t)%nat. lia. Qed.

(** Every character satisfies [P]. *)
Fixpoint all_text (P : ascii → Prop) (s : string) : Prop := match s with "" => True | String c s => P c ∧ all_text P s end.
Lemma all_text_app P s t : all_text P (s +:+ t) ↔ all_text P s ∧ all_text P t.
Proof. induction s as [|c s IH]; [by split; [|intros []]|]. change (P c ∧ all_text P (s +:+ t) ↔ (P c ∧ all_text P s) ∧ all_text P t). tauto. Qed.
Lemma all_text_mono (P Q : ascii → Prop) s : (∀ c, P c → Q c) → all_text P s → all_text Q s.
Proof. intros HPQ. induction s as [|c s IH]; simpl; naive_solver. Qed.

(** ** Values *)

Inductive js := Num (n : Z) | Str (s : string) | Arr (l : list js) | Obj (l : list (string * js)).

Section js_ind.
Context (P : js → Prop) (Hn : ∀ n, P (Num n)) (Hs : ∀ s, P (Str s)).
Context (Ha : ∀ l, Forall P l → P (Arr l)) (Ho : ∀ l, Forall (λ kv, P kv.2) l → P (Obj l)).
Fixpoint js_tree_ind (v : js) : P v :=
  match v with
  | Num n => Hn n
  | Str s => Hs s
  | Arr l => Ha l ((fix go l : Forall P l := match l with [] => Forall_nil_2 _ | v :: l => Forall_cons_2 _ _ _ (js_tree_ind v) (go l) end) l)
  | Obj l => Ho l ((fix go l : Forall (λ kv, P kv.2) l :=
      match l with [] => Forall_nil_2 _ | kv :: l => Forall_cons_2 _ _ _ (js_tree_ind kv.2) (go l) end) l)
  end.
End js_ind.

Fixpoint print (v : js) : string :=
  match v with
  | Num n => Itoa n
  | Str s => encode_string s
  | Arr l => encode_array (map print l)
  | Obj l => encode_object (map (λ kv, (kv.1, print kv.2)) l)
  end.

(** A value as the browser sees it: strings in UTF-8, numbers as doubles. *)
Definition rune_text (r : rune) : string :=
  match r with Byte b => String b "" | Multi t => t | Invalid _ => bytes [239; 191; 189] end.
Definition coerce (s : string) : string := concat_text (rune_text <$> runes s).
Fixpoint clean (v : js) : js :=
  match v with
  | Num n => Num (Number n)
  | Str s => Str (coerce s)
  | Arr l => Arr (map clean l)
  | Obj l => Obj (map (λ kv, (coerce kv.1, clean kv.2)) l)
  end.

(** ** The reader *)

Fixpoint digits (v : Z) (s : string) : Z * string :=
  match s with
  | String c r => match digit_value c with Some d => digits (10 * v + d) r | None => (v, s) end
  | "" => (v, "")
  end.
Definition parse_unsigned (s : string) : option (Z * string) :=
  match s with String c r => d ← digit_value c; Some (digits d r) | "" => None end.
Definition parse_num (s : string) : option (Z * string) :=
  match s with
  | String c r => if decide (c = "-"%char) then '(n, r) ← parse_unsigned r; Some (- n, r) else parse_unsigned s
  | "" => None
  end.

Definition hex_digit (c : ascii) : option Z :=
  if decide (48 ≤ code c < 58) then Some (code c - 48)
  else if decide (97 ≤ code c < 103) then Some (code c - 87)
  else if decide (65 ≤ code c < 71) then Some (code c - 55) else None.
Definition hex4 (a b c d : ascii) : option Z :=
  a ← hex_digit a; b ← hex_digit b; c ← hex_digit c; d ← hex_digit d; Some (4096 * a + 256 * b + 16 * c + d).
Definition utf8 (z : Z) : string :=
  if decide (z < 128) then bytes [z]
  else if decide (z < 2048) then bytes [192 + z / 64; 128 + z mod 64]
  else bytes [224 + z / 4096; 128 + z / 64 mod 64; 128 + z mod 64].
Definition single_escape (c : ascii) : option ascii :=
  if decide (c = quote ∨ c = backslash ∨ c = "/"%char) then Some c
  else if decide (c = "n"%char) then Some (of_code 10)
  else if decide (c = "r"%char) then Some (of_code 13)
  else if decide (c = "t"%char) then Some (of_code 9) else None.

Definition prepend (p : string) (x : string * string) : string * string := (p +:+ x.1, x.2).
(** The characters up to the closing quote; a line may not end in them. *)
Fixpoint parse_chars (s : string) : option (string * string) :=
  match s with
  | "" => None
  | String c r =>
      if decide (c = quote) then Some ("", r)
      else if decide (c = backslash) then
        match r with
        | "" => None
        | String e r =>
            if decide (e = "u"%char) then
              match r with
              | String h1 (String h2 (String h3 (String h4 r))) => z ← hex4 h1 h2 h3 h4; prepend (utf8 z) <$> parse_chars r
              | _ => None
              end
            else x ← single_escape e; prepend (String x "") <$> parse_chars r
        end
      else if decide (code c = 10 ∨ code c = 13) then None
      else prepend (String c "") <$> parse_chars r
  end.

Section sequences.
Context {A} (item : string → option (A * string)) (close : ascii).
Fixpoint parse_more (n : nat) (s : string) : option (list A * string) :=
  match n, s with
  | S n, String c r =>
      if decide (c = close) then Some ([], r)
      else if decide (c = ","%char) then '(x, r) ← item r; '(l, r) ← parse_more n r; Some (x :: l, r)
      else None
  | _, _ => None
  end.
Definition parse_seq (n : nat) (s : string) : option (list A * string) :=
  match s with
  | String c r => if decide (c = close) then Some ([], r) else '(x, r) ← item s; '(l, r) ← parse_more n r; Some (x :: l, r)
  | "" => None
  end.
End sequences.

Definition parse_member (item : string → option (js * string)) (s : string) : option ((string * js) * string) :=
  match s with
  | String c r =>
      if decide (c = quote) then
        '(k, r) ← parse_chars r;
        match r with
        | String c r => if decide (c = ":"%char) then '(v, r) ← item r; Some ((k, v), r) else None
        | "" => None
        end
      else None
  | "" => None
  end.

(** [fuel] bounds the nesting. The value of a number literal is the nearest
    double. *)
Fixpoint parse_value (fuel : nat) (s : string) : option (js * string) :=
  match fuel, s with
  | S fuel, String c r =>
      if decide (c = quote) then '(t, r) ← parse_chars r; Some (Str t, r)
      else if decide (c = "["%char) then '(l, r) ← parse_seq (parse_value fuel) "]" (String.length r) r; Some (Arr l, r)
      else if decide (c = "{"%char) then
        '(l, r) ← parse_seq (parse_member (parse_value fuel)) "}" (String.length r) r; Some (Obj l, r)
      else '(n, r) ← parse_num s; Some (Num (Number n), r)
  | _, _ => None
  end.
(** The whole text is one literal. *)
Definition parse (s : string) : option js :=
  '(v, r) ← parse_value (String.length s) s; if decide (r = "") then Some v else None.

#[local] Definition sample := Arr [Obj [("a<b", Num (-12)); ("k", Arr [])]; Str (bytes [34; 10; 226; 128; 168; 195; 40; 65])].
Example parse_sample : parse (print sample) = Some (clean sample).
Proof. vm_compute. reflexivity. Qed.

(** ** Numbers *)

Lemma digit_value_not c d : digit_value c = Some d → c ≠ "-"%char ∧ c ≠ quote ∧ c ≠ "["%char ∧ c ≠ "{"%char ∧ c ≠ "]"%char ∧ c ≠ "}"%char.
Proof. intros Hd. repeat split; intros ->; discriminate Hd. Qed.

Lemma go_app x s t : pretty_N_go x s +:+ t = pretty_N_go x (s +:+ t).
Proof.
  revert s. induction (N.lt_wf_0 x) as [x _ IH]. intros s.
  destruct (decide (x = 0)%N) as [->|Hx]; [by rewrite !pretty_N_go_0|].
  rewrite !(pretty_N_go_step x) by lia. apply IH, N.div_lt; lia.
Qed.

Lemma digits_go x s : digits 0 (pretty_N_go x s) = digits (Z.of_N x) s.
Proof.
  revert s. induction (N.lt_wf_0 x) as [x _ IH]. intros s.
  destruct (decide (x = 0)%N) as [->|Hx]; [done|]. rewrite pretty_N_go_step by lia.
  assert (x `mod` 10 < 10)%N as Hm by (apply N.mod_lt; lia).
  rewrite IH by (apply N.div_lt; lia). cbn [digits]. rewrite digit_value_char by done.
  f_equal. rewrite (N.div_mod x 10) at 3 by lia. lia.
Qed.

(** No digit follows. *)
Definition no_digit (s : string) : Prop := match s with String c _ => digit_value c = None | "" => True end.
Lemma digits_stop v s : no_digit s → digits v s = (v, s).
Proof. destruct s as [|c r]; [done|]. intros Hc. cbn [digits]. by rewrite Hc. Qed.

Lemma parse_unsigned_go x rest : (0 < x)%N → no_digit rest →
  parse_unsigned (pretty_N_go x "" +:+ rest) = Some (Z.of_N x, rest).
Proof.
  intros Hx Hr. rewrite go_app. change ("" +:+ rest) with rest.
  pose proof (digits_go x rest) as Hd. destruct (go_starts x rest Hx) as (c & r & d & E & Hc).
  rewrite E in Hd |- *. cbn [parse_unsigned]. rewrite Hc. cbn [digits] in Hd. rewrite Hc in Hd.
  cbn [mbind option_bind]. rewrite Z.mul_0_r, Z.add_0_l in Hd. rewrite Hd. by rewrite digits_stop.
Qed.

Lemma parse_num_Itoa n rest : no_digit rest → parse_num (Itoa n +:+ rest) = Some (n, rest).
Proof.
  intros Hr. unfold Itoa. destruct n as [|p|p].
  - change (Some (digits 0 rest) = Some (0, rest)). by rewrite digits_stop.
  - pose proof (parse_unsigned_go (N.pos p) rest eq_refl Hr) as Hp.
    change (pretty (Z.pos p)) with (pretty_N_go (N.pos p) "").
    destruct (go_starts (N.pos p) rest eq_refl) as (c & r & d & E & Hc).
    rewrite go_app in Hp |- *. change ("" +:+ rest) with rest in *. rewrite E in Hp |- *.
    cbn [parse_num]. rewrite decide_False by (by destruct (digit_value_not _ _ Hc)). done.
  - change (parse_num (String "-" (pretty_N_go (N.pos p) "" +:+ rest)) = Some (Z.neg p, rest)).
    cbn [parse_num]. rewrite decide_True by done. by rewrite parse_unsigned_go.
Qed.

(** What [Itoa] writes: digits, perhaps after a sign. *)
Lemma Itoa_chars (P : ascii → Prop) n : P "-"%char → (∀ d, (d < 10)%N → P (pretty_N_char d)) → all_text P (Itoa n).
Proof.
  intros Hm Hd. assert (∀ x s, all_text P s → all_text P (pretty_N_go x s)) as Hgo.
  { intros x. induction (N.lt_wf_0 x) as [x _ IH]. intros s Hs.
    destruct (decide (x = 0)%N) as [->|Hx]; [done|]. rewrite pretty_N_go_step by lia.
    apply IH; [apply N.div_lt; lia|]. split; [apply Hd, N.mod_lt; lia|done]. }
  unfold Itoa. destruct n as [|p|p].
  - split; [by apply (Hd 0%N)|done].
  - by apply (Hgo (N.pos p)).
  - change (P "-"%char ∧ all_text P (pretty_N_go (N.pos p) "")). split; [done|by apply Hgo].
Qed.

Lemma Itoa_starts n : ∃ c r, Itoa n = String c r ∧ (c = "-"%char ∨ is_Some (digit_value c)).
Proof.
  unfold Itoa. destruct n as [|p|p].
  - exists "0"%char, "". split; [done|right; by eexists].
  - destruct (go_starts (N.pos p) "" eq_refl) as (c & r & d & E & Hc). exists c, r. split; [exact E|right; by eexists].
  - exists "-"%char, (pretty_N_go (N.pos p) ""). split; [done|by left].
Qed.

(** ** Strings *)

(** What [runes] yields. *)
Definition rune_ok (r : rune) : Prop :=
  match r with Byte b => code b < 128 | Multi t => t ≠ "" ∧ all_text (λ c, 128 ≤ code c) t | Invalid _ => True end.

Lemma cont_high c : cont c = true → 128 ≤ code c.
Proof. unfold cont. rewrite bool_decide_eq_true. lia. Qed.
Lemma three_bytes_high b0 b1 b2 : three_bytes b0 b1 b2 = true → 128 ≤ code b1 ∧ 128 ≤ code b2.
Proof.
  unfold three_bytes. rewrite !andb_true_iff, !orb_true_iff, !andb_true_iff, !bool_decide_eq_true.
  intros [H1 H2]. pose proof (cont_high b2 H2). pose proof (cont_high b1). destruct H1 as [[[?|[_ ?]]|?]|[_ ?]]; intuition lia.
Qed.
Lemma four_bytes_high b0 b1 b2 b3 : four_bytes b0 b1 b2 b3 = true → 128 ≤ code b1 ∧ 128 ≤ code b2 ∧ 128 ≤ code b3.
Proof.
  unfold four_bytes. rewrite !andb_true_iff, !orb_true_iff, !andb_true_iff, !bool_decide_eq_true.
  intros [[H1 H2] H3]. pose proof (cont_high b2 H2). pose proof (cont_high b3 H3). pose proof (cont_high b1).
  destruct H1 as [[?|[_ ?]]|?]; intuition lia.
Qed.

Lemma runes_ok s : Forall rune_ok (runes s).
Proof.
  remember (String.length s) as n eqn:E. revert s E. induction (Nat.lt_wf_0 n) as [n _ IH]. intros s ->.
  destruct s as [|b0 r0]; [constructor|].
  assert (Forall rune_ok (runes r0)) as IH0 by (eapply IH; [|done]; simpl; lia). cbn [runes].
  destruct (decide _) as [Hl|Hh]; [by constructor|]. destruct r0 as [|b1 r1]; [by constructor|].
  assert (Forall rune_ok (runes r1)) as IH1 by (eapply IH; [|done]; simpl; lia).
  destruct (two_bytes b0 b1) eqn:E2.
  { constructor; [|done]. apply andb_true_iff in E2 as [_ E2%cont_high]. simpl. repeat split; [done|lia..]. }
  destruct r1 as [|b2 r2]; [by constructor|].
  destruct (three_bytes b0 b1 b2) eqn:E3.
  { constructor; [|eapply IH; [|done]; simpl; lia]. apply three_bytes_high in E3. simpl. repeat split; [done|lia..]. }
  destruct r2 as [|b3 r3]; [by constructor|].
  destruct (four_bytes b0 b1 b2 b3) eqn:E4; [|by constructor].
  constructor; [|eapply IH; [|done]; simpl; lia]. apply four_bytes_high in E4. simpl. repeat split; [done|lia..].
Qed.

Lemma prepend_comp p q x : prepend p (prepend q x) = prepend (p +:+ q) x.
Proof. unfold prepend. simpl. by rewrite app_text. Qed.
Lemma prepend_nil (o : option (string * string)) : prepend "" <$> o = o.
Proof. by destruct o as [[]|]. Qed.

Lemma high_ne c d : 128 ≤ code c → code d < 128 → c ≠ d.
Proof. intros H1 H2 ->. lia. Qed.

Lemma parse_raw t s : all_text (λ c, 128 ≤ code c) t → parse_chars (t +:+ s) = prepend t <$> parse_chars s.
Proof.
  induction t as [|c t IH]; [by rewrite prepend_nil|]. intros [Hc Ht].
  change (String c t +:+ s) with (String c (t +:+ s)). cbn [parse_chars].
  rewrite !decide_False by (first [by apply high_ne|lia]).
  rewrite IH by done. rewrite <-option_fmap_compose. by destruct (parse_chars s).
Qed.

Lemma parse_escape b s : code b < 128 → parse_chars (escape b +:+ s) = prepend (String b "") <$> parse_chars s.
Proof. destruct b as [[] [] [] [] [] [] [] []]; intros Hb; first [reflexivity|by vm_compute in Hb]. Qed.

Lemma parse_rune r s : rune_ok r → parse_chars (encode_rune r +:+ s) = prepend (rune_text r) <$> parse_chars s.
Proof.
  destruct r as [b|t|b]; cbn [rune_ok encode_rune rune_text].
  - apply parse_escape.
  - intros [_ Ht]. repeat (destruct (decide _) as [->|]; [reflexivity|]). by apply parse_raw.
  - reflexivity.
Qed.

Lemma parse_runes l s : Forall rune_ok l →
  parse_chars (concat_text (encode_rune <$> l) +:+ s) = prepend (concat_text (rune_text <$> l)) <$> parse_chars s.
Proof.
  induction 1 as [|r l Hr _ IH]; [by rewrite prepend_nil|]. cbn [fmap list_fmap concat_text].
  rewrite app_text, parse_rune by done. fold (encode_rune <$> l) (rune_text <$> l). rewrite IH.
  destruct (parse_chars s); [|done]. simpl. by rewrite prepend_comp.
Qed.

Lemma parse_string s rest :
  parse_chars (concat_text (encode_rune <$> runes s) +:+ String quote rest) = Some (coerce s, rest).
Proof. rewrite parse_runes by apply runes_ok. simpl. unfold prepend. simpl. by rewrite app_text_nil. Qed.

(** ASCII text is read as it is. *)
Lemma coerce_ascii s : all_text (λ c, code c < 128) s → coerce s = s.
Proof.
  unfold coerce. induction s as [|c s IH]; [done|]. intros [Hc Hs]. cbn [runes]. rewrite decide_True by done.
  cbn [fmap list_fmap concat_text rune_text]. fold (rune_text <$> runes s). rewrite IH by done. done.
Qed.
Lemma coerce_Itoa n : coerce (Itoa n) = Itoa n.
Proof. apply coerce_ascii, Itoa_chars; [done|]. intros d Hd. destruct d as [|p]; [done|]. do 4 (try (destruct p as [p|p|]; try reflexivity; try lia)). Qed.

(** ** Sequences *)

(** What may follow a value: nothing that a number would take in. *)
Definition starts_not (close : ascii) (s : string) : Prop := match s with String c _ => c ≠ close | "" => False end.

Lemma starts_app close s t : starts_not close s → starts_not close (s +:+ t).
Proof. by destruct s. Qed.

Section sequences.
Context {A : Type} (text : A → string) (read : A → A) (item : string → option (A * string)) (close : ascii).
Context (Hclose : digit_value close = None) (Hcomma : close ≠ ","%char).

Definition item_ok (x : A) : Prop :=
  starts_not close (text x) ∧ ∀ rest, no_digit rest → item (text x +:+ rest) = Some (read x, rest).

Lemma commas_cons s t l : commas (s :: t :: l) = s +:+ "," +:+ commas (t :: l).
Proof. done. Qed.

Lemma parse_more_ok x l n rest : Forall item_ok (x :: l) → (length l < n)%nat →
  ('(y, r) ← item (commas (map text (x :: l)) +:+ String close rest); '(l, r) ← parse_more item close n r; Some (y :: l, r))
  = Some (map read (x :: l), rest).
Proof.
  revert x n. induction l as [|x' l IH]; intros x n [[_ Hx] Hl]%Forall_cons Hn.
  - cbn [map commas]. rewrite Hx by done. cbn [mbind option_bind]. destruct n as [|n]; [simpl in Hn; lia|].
    cbn [parse_more]. by rewrite decide_True.
  - cbn [map]. rewrite commas_cons, !app_text, Hx by done. cbn [mbind option_bind]. destruct n as [|n]; [simpl in Hn; lia|].
    change ("," +:+ ?s) with (String "," s). cbn [parse_more]. rewrite decide_False by done. rewrite decide_True by done.
    specialize (IH x' n Hl). cbn [map] in IH. cbn [mbind option_bind] in IH |- *. rewrite IH by (simpl in Hn; lia). done.
Qed.

Lemma parse_seq_ok l n rest : Forall item_ok l → (length l ≤ n)%nat →
  parse_seq item close n (commas (map text l) +:+ String close rest) = Some (map read l, rest).
Proof.
  intros Hl Hn. destruct l as [|x l].
  - change (parse_seq item close n (String close rest) = Some ([], rest)). cbn [parse_seq]. by rewrite decide_True.
  - pose proof (parse_more_ok x l n rest Hl Hn) as Hm. apply Forall_cons in Hl as [[Hs _] _].
    assert (starts_not close (commas (map text (x :: l)) +:+ String close rest)) as Hst.
    { apply starts_app. destruct l; [done|]. cbn [map]. rewrite commas_cons. by apply starts_app. }
    unfold parse_seq. destruct (commas (map text (x :: l)) +:+ String close rest) as [|c r]; [done|].
    by rewrite decide_False.
Qed.
End sequences.

Lemma length_commas (l : list string) : Forall (λ s, s ≠ "") l → (length l ≤ String.length (commas l))%nat.
Proof.
  induction 1 as [|s l Hs _ IH]; [done|]. destruct s as [|c s]; [done|]. destruct l as [|t l]; [simpl; lia|].
  rewrite commas_cons, !length_text. simpl length in *. cbn [String.length]. lia.
Qed.

(** ** Values *)

Fixpoint depth (v : js) : nat :=
  match v with
  | Num _ | Str _ => 1
  | Arr l => S (max_list (map depth l))
  | Obj l => S (max_list (map (λ kv, depth kv.2) l))
  end.

Lemma print_starts v : ∃ c r, print v = String c r ∧ c ≠ "]"%char ∧ c ≠ "}"%char.
Proof.
  destruct v as [n|s|l|l]; [|by do 2 eexists..].
  destruct (Itoa_starts n) as (c & r & E & Hc). exists c, r. split; [exact E|].
  destruct Hc as [->|[d Hd]]; [done|]. by apply digit_value_not in Hd as (?&?&?&?&?&?).
Qed.

Lemma parse_number fuel n rest : no_digit rest → parse_value (S fuel) (Itoa n +:+ rest) = Some (Num (Number n), rest).
Proof.
  intros Hr. pose proof (parse_num_Itoa n rest Hr) as Hp. destruct (Itoa_starts n) as (c & r & E & Hc).
  rewrite E in Hp |- *. change (String c r +:+ rest) with (String c (r +:+ rest)) in Hp |- *.
  assert (c ≠ quote ∧ c ≠ "["%char ∧ c ≠ "{"%char) as (? & ? & ?).
  { destruct Hc as [->|[d Hd]]; [done|]. by apply digit_value_not in Hd as (?&?&?&?&?&?). }
  cbn [parse_value]. rewrite !decide_False by done. by rewrite Hp.
Qed.

Lemma encode_string_app s rest :
  encode_string s +:+ rest = String quote (concat_text (encode_rune <$> runes s) +:+ String quote rest).
Proof. unfold encode_string. change (String quote ?s +:+ rest) with (String quote (s +:+ rest)). by rewrite app_text. Qed.

(** A member of an object, given how its value reads. *)
Definition member_text (kv : string * js) : string := encode_string kv.1 +:+ ":" +:+ print kv.2.
Lemma print_obj l : print (Obj l) = "{" +:+ commas (map member_text l) +:+ "}".
Proof. cbn [print]. unfold encode_object. do 3 f_equal. induction l as [|kv l IH]; [done|]. cbn. f_equal. exact IH. Qed.
Lemma member_ok item kv : (∀ rest, no_digit rest → item (print kv.2 +:+ rest) = Some (clean kv.2, rest)) →
  item_ok member_text (λ kv, (coerce kv.1, clean kv.2)) (parse_member item) "}" kv.
Proof.
  intros Hv. split; [done|]. intros rest Hr. unfold member_text. rewrite app_text, encode_string_app. cbn [parse_member].
  rewrite decide_True by done. change ((":" +:+ ?s) +:+ ?t) with (String ":" (s +:+ t)). rewrite parse_string.
  cbn [mbind option_bind]. rewrite decide_True by done. by rewrite Hv.
Qed.

Lemma nonempty_parts {A} (text : A → string) c (l : list A) : (∀ x, starts_not c (text x)) →
  (length l ≤ String.length (commas (map text l)))%nat.
Proof.
  intros Ht. rewrite <-(length_map text l) at 1. apply length_commas, Forall_map, Forall_true.
  intros x Hx. specialize (Ht x). by rewrite Hx in Ht.
Qed.

(** Every tree reads back, whatever text follows it. *)
Lemma parse_print v : ∀ fuel rest, (depth v ≤ fuel)%nat → no_digit rest →
  parse_value fuel (print v +:+ rest) = Some (clean v, rest).
Proof.
  induction v as [n|s|l IH|l IH] using js_tree_ind; intros fuel rest Hf Hr; (destruct fuel as [|fuel]; [simpl in Hf; lia|]).
  - by apply parse_number.
  - cbn [print]. rewrite encode_string_app. cbn [parse_value]. rewrite decide_True by done. by rewrite parse_string.
  - cbn [print]. unfold encode_array. rewrite !app_text.
    change ("[" +:+ ?s) with (String "[" s). change ("]" +:+ ?s) with (String "]" s). cbn [parse_value].
    rewrite decide_False by done. rewrite decide_True by done. rewrite (parse_seq_ok print clean); [done..| |].
    + apply list.Forall_forall. intros x Hx. pose proof (proj1 (list.Forall_forall _ _) IH x Hx) as Hx'. cbn beta in Hx'.
      split; [destruct (print_starts x) as (c & r & -> & ? & ?); done|]. intros rest' Hr'. apply Hx'; [|done].
      simpl in Hf. assert (depth x ≤ max_list (map depth l))%nat; [|lia].
      apply max_list_elem_of_le, list_elem_of_fmap. by exists x.
    + rewrite length_text. pose proof (nonempty_parts print "]" l) as Hc.
      assert (∀ x, starts_not "]" (print x)) as Hs; [|specialize (Hc Hs); lia].
      intros x. destruct (print_starts x) as (c & r & -> & ? & ?); done.
  - rewrite print_obj, !app_text.
    change ("{" +:+ ?s) with (String "{" s). change ("}" +:+ ?s) with (String "}" s). cbn [parse_value].
    rewrite !decide_False by done. rewrite decide_True by done.
    rewrite (parse_seq_ok member_text (λ kv, (coerce kv.1, clean kv.2))); [done..| |].
    + apply list.Forall_forall. intros x Hx. pose proof (proj1 (list.Forall_forall _ _) IH x Hx) as Hx'. cbn beta in Hx'.
      apply member_ok. intros rest' Hr'. apply Hx'; [|done].
      simpl in Hf. assert (depth x.2 ≤ max_list (map (λ kv, depth kv.2) l))%nat; [|lia].
      apply max_list_elem_of_le, list_elem_of_fmap. by exists x.
    + rewrite length_text. pose proof (nonempty_parts member_text "}" l (λ _, ltac:(done))). lia.
Qed.

Lemma max_list_commas {A} (f : A → nat) (text : A → string) (l : list A) :
  Forall (λ x, (f x ≤ String.length (text x))%nat) l → (max_list (map f l) ≤ String.length (commas (map text l)))%nat.
Proof.
  induction 1 as [|x l Hx _ IH]; [simpl; lia|]. destruct l as [|y l]; [simpl; lia|].
  cbn [map] in IH |- *. rewrite commas_cons, !length_text. change (max_list (f x :: ?l)) with (f x `max` max_list l)%nat. lia.
Qed.

Lemma depth_print v : (depth v ≤ String.length (print v))%nat.
Proof.
  induction v as [n|s|l IH|l IH] using js_tree_ind.
  - destruct (Itoa_starts n) as (c & r & E & _). cbn [print depth]. rewrite E. simpl. lia.
  - simpl. lia.
  - cbn [print depth]. unfold encode_array. rewrite !length_text. pose proof (max_list_commas depth print l IH). simpl. lia.
  - rewrite print_obj, !length_text. cbn [depth].
    assert (max_list (map (λ kv, depth kv.2) l) ≤ String.length (commas (map member_text l)))%nat; [|simpl; lia].
    apply max_list_commas. eapply Forall_impl; [exact IH|]. intros kv Hkv. unfold member_text. rewrite !length_text.
    cbn beta in Hkv. lia.
Qed.

Lemma parse_printed v : parse (print v) = Some (clean v).
Proof. unfold parse. rewrite <-(app_text_nil (print v)) at 2. by rewrite parse_print by (done || apply depth_print). Qed.

(** ** What the text around the data relies on *)

(** No [<]: nothing in the data ends the script element. *)
Definition no_tag : string → Prop := all_text (λ c, c ≠ "<"%char).

Lemma no_tag_rune r : rune_ok r → no_tag (encode_rune r).
Proof.
  destruct r as [b|t|b]; [| |by repeat split].
  - destruct b as [[] [] [] [] [] [] [] []]; intros Hb; first [by vm_compute in Hb|vm_compute; repeat split; discriminate].
  - intros [_ Ht]. cbn [encode_rune]. repeat (destruct (decide _); [by repeat split|]).
    eapply all_text_mono; [|exact Ht]. intros c Hc. by apply high_ne.
Qed.

Lemma no_tag_string s : no_tag (encode_string s).
Proof.
  unfold encode_string. split; [done|]. apply all_text_app. split; [|by repeat split].
  pose proof (runes_ok s) as Hs. induction Hs as [|r l Hr _ IH]; [done|]. apply all_text_app. split; [by apply no_tag_rune|exact IH].
Qed.

Lemma no_tag_commas {A} (text : A → string) l : Forall (λ x, no_tag (text x)) l → no_tag (commas (map text l)).
Proof.
  induction 1 as [|x l Hx _ IH]; [done|]. destruct l as [|y l]; [done|]. cbn [map] in IH |- *. rewrite commas_cons.
  apply all_text_app. split; [done|]. split; [done|exact IH].
Qed.

Lemma no_tag_Itoa n : no_tag (Itoa n).
Proof. apply Itoa_chars; [done|]. intros d Hd. destruct d as [|p]; [done|]. do 4 (try (destruct p as [p|p|]; try discriminate; try lia)). Qed.

Lemma no_tag_print v : no_tag (print v).
Proof.
  induction v as [n|s|l IH|l IH] using js_tree_ind.
  - apply no_tag_Itoa.
  - apply no_tag_string.
  - split; [done|]. apply (all_text_app _ (commas _) "]"). split; [by apply no_tag_commas|by repeat split].
  - rewrite print_obj. split; [done|]. apply (all_text_app _ (commas _) "}"). split; [|by repeat split].
    apply no_tag_commas. eapply Forall_impl; [exact IH|]. intros kv Hkv. unfold member_text.
    apply all_text_app. split; [apply no_tag_string|]. by split.
Qed.
