(* ===== verification/HtmlProof.v ===== *)
(** The data in the page: the text that [Visualize] puts into the template
    is a literal from which the script reads the report's data. *)
From Stdlib Require Import ZArith Lia Ascii.
From stdpp Require Import base gmap sets list strings sorting pretty.
From S2P Require Import Prelude Model Entries KvModel Checker Operations Visualization Page Html Literal Porcupine.

(** ** Data as a tree *)

Definition js_element (he : historyElement) : js :=
  Obj [("ClientId", Num (he_ClientId he)); ("Start", Num (Start he)); ("End", Num (he_End he));
    ("Description", Str (Description he))].
Definition js_step (st : linearizationStep) : js :=
  Obj [("Index", Num (Index st)); ("StateDescription", Str (StateDescription st))].
Definition js_map (m : gmap Z Z) : js := Obj ((λ kv, (kv.1, Num kv.2)) <$> sorted_keys m).
Definition js_partition (d : partitionVisualizationData) : js :=
  Obj [("History", Arr (js_element <$> History d));
    ("PartialLinearizations", Arr ((λ lin, Arr (js_step <$> lin)) <$> PartialLinearizations d));
    ("Largest", js_map (Largest d))].
Definition js_data (data : list partitionVisualizationData) : js := Arr (js_partition <$> data).

Lemma fmap_map {A B C} (f : A → B) (g : B → C) (l : list A) : map g (f <$> l) = (λ x, g (f x)) <$> l.
Proof. exact (map_map f g l). Qed.

Lemma encode_array_print {A} (f : A → js) (g : A → string) l :
  (∀ x, g x = print (f x)) → encode_array (g <$> l) = print (Arr (f <$> l)).
Proof.
  intros E. cbn [print]. f_equal. rewrite fmap_map. apply list_fmap_ext. intros i x _. apply E.
Qed.

Lemma encode_map_print m : encode_map m = print (js_map m).
Proof. unfold encode_map, js_map. cbn [print]. f_equal. by rewrite fmap_map. Qed.

Lemma encode_partition_print d : encode_partition d = print (js_partition d).
Proof.
  unfold encode_partition. rewrite (encode_array_print js_element) by done.
  rewrite (encode_array_print (λ lin, Arr (js_step <$> lin))) by (intros lin; by apply encode_array_print).
  by rewrite encode_map_print.
Qed.

Lemma Marshal_print data : Marshal data = print (js_data data).
Proof. apply encode_array_print, encode_partition_print. Qed.

(** ** Reading it *)

Fixpoint member (k : string) (l : list (string * js)) : option js :=
  match l with [] => None | (k', v) :: l => if decide (k' = k) then Some v else member k l end.
Definition field (k : string) (v : js) : option js := match v with Obj l => member k l | _ => None end.
Definition num (v : js) : option Z := match v with Num n => Some n | _ => None end.
Definition str (v : js) : option string := match v with Str s => Some s | _ => None end.
Definition arr (v : js) : option (list js) := match v with Arr l => Some l | _ => None end.

Definition read_element (v : js) : option historyElement :=
  client ← field "ClientId" v ≫= num; start ← field "Start" v ≫= num; end_ ← field "End" v ≫= num;
  desc ← field "Description" v ≫= str; Some (mkHistoryElement client start end_ desc).
Definition read_step (v : js) : option linearizationStep :=
  index ← field "Index" v ≫= num; desc ← field "StateDescription" v ≫= str; Some (mkLinearizationStep index desc).
Definition read_key (kv : string * js) : option (Z * Z) :=
  '(k, r) ← parse_num kv.1; n ← num kv.2; if decide (r = "") then Some (k, n) else None.
Definition read_map (v : js) : option (gmap Z Z) :=
  match v with Obj l => list_to_map <$> mapM read_key l | _ => None end.
Definition read_partition (v : js) : option partitionVisualizationData :=
  history ← (field "History" v ≫= arr) ≫= mapM read_element;
  partials ← (field "PartialLinearizations" v ≫= arr) ≫= mapM (λ lin, arr lin ≫= mapM read_step);
  largest ← field "Largest" v ≫= read_map; Some (mkPartitionData history partials largest).
Definition read_data (v : js) : option (list partitionVisualizationData) := arr v ≫= mapM read_partition.

(** The data as the browser has it: strings in UTF-8, and every number but the
    keys of [Largest], which are strings, the nearest double. *)
Definition seen_element (he : historyElement) : historyElement :=
  mkHistoryElement (Number (he_ClientId he)) (Number (Start he)) (Number (he_End he)) (coerce (Description he)).
Definition seen_step (st : linearizationStep) : linearizationStep :=
  mkLinearizationStep (Number (Index st)) (coerce (StateDescription st)).
Definition seen (d : partitionVisualizationData) : partitionVisualizationData :=
  mkPartitionData (seen_element <$> History d) ((λ lin : list linearizationStep, seen_step <$> lin) <$> PartialLinearizations d)
    (Number <$> Largest d).

Lemma mapM_read {A B} (f : A → js) (read : js → option B) (g : A → B) l :
  (∀ x, read (clean (f x)) = Some (g x)) → arr (clean (Arr (f <$> l))) ≫= mapM read = Some (g <$> l).
Proof.
  intros E. cbn [clean arr mbind option_bind]. rewrite fmap_map. apply mapM_Some.
  apply Forall2_fmap. apply Forall_Forall2_diag, Forall_true. intros x. apply E.
Qed.

Lemma sorted_keys_perm m : sorted_keys m ≡ₚ (λ kv, (Itoa kv.1, kv.2)) <$> map_to_list m.
Proof. apply merge_sort_Permutation. Qed.

Lemma read_map_clean m : read_map (clean (js_map m)) = Some (Number <$> m).
Proof.
  cbn [clean js_map read_map]. rewrite fmap_map.
  destruct (Permutation_map_inv _ _ (sorted_keys_perm m)) as (l & El & Hl).
  rewrite El. change (map _ l) with ((λ kv : Z * Z, (Itoa kv.1, kv.2)) <$> l). rewrite <-list_fmap_compose.
  match goal with |- _ <$> mapM read_key ?X = _ =>
    assert (mapM read_key X = Some ((λ kv : Z * Z, (kv.1, Number kv.2)) <$> l)) as -> end.
  { apply mapM_Some. apply Forall2_fmap, Forall_Forall2_diag, Forall_true.
    intros [k n]. unfold read_key. cbn [compose fst snd clean]. rewrite coerce_Itoa.
    pose proof (parse_num_Itoa k "" I) as Hp. rewrite app_text_nil in Hp. rewrite Hp. done. }
  cbn [fmap option_fmap option_map]. f_equal. rewrite <-(list_to_map_to_list m) at 1.
  rewrite <-list_to_map_fmap. change (prod_map (λ x, x) Number <$> ?x) with ((λ kv : Z * Z, (kv.1, Number kv.2)) <$> x).
  apply list_to_map_proper; [|by rewrite Hl]. rewrite <-list_fmap_compose.
  change (NoDup (fst <$> l)). rewrite <-Hl. apply NoDup_fst_map_to_list.
Qed.

Lemma read_partition_clean d : read_partition (clean (js_partition d)) = Some (seen d).
Proof.
  unfold read_partition.
  change (field "History" _) with (Some (clean (Arr (js_element <$> History d)))).
  change (field "PartialLinearizations" _) with
    (Some (clean (Arr ((λ lin, Arr (js_step <$> lin)) <$> PartialLinearizations d)))).
  change (field "Largest" _) with (Some (clean (js_map (Largest d)))).
  cbn [mbind option_bind]. rewrite (mapM_read _ _ seen_element) by done. cbn [mbind option_bind].
  rewrite (mapM_read _ _ (λ lin : list linearizationStep, seen_step <$> lin)) by (intros lin; by apply mapM_read). cbn [mbind option_bind].
  by rewrite read_map_clean.
Qed.

Lemma read_Marshal data : parse (Marshal data) ≫= read_data = Some (seen <$> data).
Proof.
  rewrite Marshal_print, parse_printed. apply (mapM_read js_partition), read_partition_clean.
Qed.

Lemma no_tag_Marshal data : no_tag (Marshal data).
Proof. rewrite Marshal_print. apply no_tag_print. Qed.

(** What the browser has is the data, when doubles can hold its numbers and
    its strings are UTF-8. *)
Definition representable (d : partitionVisualizationData) : Prop :=
  (∀ he, he ∈ History d → Number (he_ClientId he) = he_ClientId he ∧ Number (Start he) = Start he ∧
     Number (he_End he) = he_End he ∧ coerce (Description he) = Description he) ∧
  (∀ lin st, lin ∈ PartialLinearizations d → st ∈ lin →
     Number (Index st) = Index st ∧ coerce (StateDescription st) = StateDescription st) ∧
  (∀ k n, Largest d !! k = Some n → Number n = n).

Lemma fmap_elem_id {A} (f : A → A) (l : list A) : (∀ x, x ∈ l → f x = x) → f <$> l = l.
Proof.
  intros Hf. induction l as [|x l IH]; [done|]. csimpl. rewrite (Hf x) by left. f_equal.
  apply IH. intros y Hy. apply Hf. by right.
Qed.

Lemma seen_exact d : representable d → seen d = d.
Proof.
  intros (Hh & Hp & Hl). destruct d as [h p l]. unfold seen. simpl in *. f_equal.
  - apply fmap_elem_id. intros [c st e ds] (E1 & E2 & E3 & E4)%Hh. unfold seen_element. simpl in *. congruence.
  - apply fmap_elem_id. intros lin Hlin. apply fmap_elem_id. intros [i ds] [E1 E2]%(Hp lin _ Hlin). unfold seen_step.
    simpl in *. congruence.
  - apply map_eq. intros k. rewrite lookup_fmap. destruct (l !! k) as [n|] eqn:E; [|done]. simpl. f_equal. by eapply Hl.
Qed.

(** ** The page *)

(** C7: [VisualizePath] returns [os.Create]'s error, or writes the template
    with a text in place of its verb; the script reads that text back as the
    report's data with each number (client, times, indexes) the nearest double
    and each string in UTF-8, an invalid byte replaced: exactly the report's
    data when its numbers are below 2^53 in absolute value and its strings are
    UTF-8 ([seen_exact]). There is no [<] in the text to end the script. *)
Theorem page_carries_data {Val State : Type} `{EqDecision State, Format Val, Format State} (nilV : Val)
    (sort_partials : list (list Z) → list (list Z)) (before after : string) {World error : Type}
    (write create : World → string → option error * World) (model : Model Val State) (info info' : linearizationInfo Val)
    (data : list partitionVisualizationData) (path : string) (w : World) :
  computeVisualizationData nilV sort_partials model info = Ret (data, info') →
  ∃ text, VisualizePath nilV sort_partials before after write create model info path w =
      Ret (match create w path with
           | (Some err, w) => (Some err, w)
           | (None, w) => write w (before +:+ text +:+ after)
           end) ∧
    parse text ≫= read_data = Some (seen <$> data) ∧ no_tag text.
Proof.
  intros E. exists (Marshal data). split; [|split; [apply read_Marshal|apply no_tag_Marshal]].
  unfold VisualizePath, Visualize. rewrite E. by destruct (create w path) as [[err|] w'].
Qed.

(** A file system of the files written, one after the other. *)
#[local] Definition put_file (w : list string) (text : string) : option string * list string := (None, w ++ [text]).
#[local] Definition sample_info : linearizationInfo kvalue :=
  mkInfo [makeEntries by_time [put_op 0 "a" "</script>" 0 10; get_op 1 "a" "</script>" 5 20]] [[[0; 1]]].
#[local] Instance kvalue_format : Format kvalue := λ _, "".
#[local] Instance string_format : Format string := λ s, s.

Lemma page_carries_data_witness :
  ∃ text, VisualizePath VNil (sort_by longer) "<script>" "</script>" put_file (λ w _, (None, w)) sample_model sample_info
      "out.html" [] = Ret (None, ["<script>" +:+ text +:+ "</script>"]) ∧
    (∃ data, parse text ≫= read_data = Some data ∧ length data = 1%nat) ∧ no_tag text.
Proof.
  edestruct (page_carries_data VNil (sort_by longer) "<script>" "</script>" put_file (λ w _, (None, w)) sample_model
    sample_info) as (text & E & Hread & Hno); [vm_compute; reflexivity|].
  exists text. split; [exact E|]. split; [|exact Hno]. eexists. split; [exact Hread|reflexivity].
Defined.

(** A time that needs more than 53 bits comes back as its nearest double. *)
Example large_time_rounded : ∃ data, parse (Marshal data) ≫= read_data = Some (seen <$> data) ∧
  Start <$> (data ≫= History) = [1600000000000000100] ∧
  Start <$> ((seen <$> data) ≫= History) = [1600000000000000000].
Proof.
  exists [mkPartitionData [mkHistoryElement 0 1600000000000000100 1600000000000000200 ""] [] ∅].
  split; [apply read_Marshal|by vm_compute].
Qed.

(** Text that is not UTF-8 does not come back: the invalid byte is replaced. *)
Example invalid_byte_lost : ∃ data, parse (Marshal data) ≫= read_data ≠ Some data.
Proof. exists [mkPartitionData [mkHistoryElement 0 0 1 (bytes [255])] [] ∅]. vm_compute. discriminate. Qed.
