(* ===== verification/Pages.v ===== *)
(** The page of a verbose report: the checker's data is data the page can
    show, and the properties of the page. *)
From Stdlib Require Import ZArith QArith Lia.
From stdpp Require Import base gmap sets list strings sorting.
From S2P Require Import Prelude Model Entries KvModel History Search SearchProof Checker Operations CheckerProof Verdicts.
From S2P Require Import Visualization VisualizationProof Porcupine Page PageLayout PagePrep PageDraw PageProof PagePicture PageMouse.
#[local] Open Scope Z_scope.

(** ** Partial linearizations follow real time *)

Section runs.
Context {Val State : Type} (M : Model Val State).
Implicit Types L : list (entry Val).

Lemma runs_ids L s π L' s' : runs M L s π L' s' → balanced L → op_ids L ≡ₚ π ++ op_ids L'.
Proof.
  induction 1 as [L s|L s i L1 s1 π L2 s2 Hp Hr IH]; intros Hb; [done|].
  destruct (pick_inv _ _ _ _ _ _ Hp Hb) as (A & c & B & r & C & _ & _ & _ & _ & _ & _ & _ & _ & _ & Hperm & Hb').
  rewrite Hperm. simpl. constructor. by apply IH.
Qed.

(** What returns after the [k]-th operation was picked, or has not been
    picked, returned no earlier than that operation was called. *)
Lemma runs_real_time L s π L' s' k i : runs M L s π L' s' → balanced L → StronglySorted (λ a b, time a ≤ time b) L →
  π !! k = Some i → ∃ c, c ∈ L ∧ is_call c ∧ id c = i ∧
    ∀ e, e ∈ L → is_return e → id e ∉ take (S k) π → time c ≤ time e.
Proof.
  intros Hr. revert k. induction Hr as [L s|L s j L1 s1 π L2 s2 Hp Hr IH]; intros k Hb Hs Hk; [done|].
  destruct (pick_inv _ _ _ _ _ _ Hp Hb) as (A & c & B & r & C & EL & Hc & Hcall & Hret & Hrid & HA & _ & E1 & _ & _ & Hb').
  destruct k as [|k]; simpl in Hk.
  - injection Hk as ->. exists c. split_and!; [rewrite EL; set_solver|done|done|]. intros e He Hre Hne.
    rewrite EL in He, Hs. apply StronglySorted_app in Hs as (_ & _ & [_ Hs]%StronglySorted_inv).
    rewrite Forall_forall in HA, Hs. apply elem_of_app in He as [He|[->|He]%elem_of_cons]; [|lia|by apply Hs].
    apply HA in He. unfold is_call, is_return in *. congruence.
  - destruct (IH k Hb') as (c' & Hc' & Hcall' & Hid' & Hle); [|done|].
    { rewrite E1. clear -Hs. unfold drop_id. induction Hs as [|a L Hs IH Ha]; [constructor|]. rewrite filter_cons.
      case_decide; [|done]. constructor; [done|]. rewrite Forall_forall in *. intros b [_ Hb]%list_elem_of_filter. by apply Ha. }
    exists c'. rewrite E1 in Hc'. apply list_elem_of_filter in Hc' as [_ Hc']. split_and!; [done..|].
    intros e He Hre Hne. simpl in Hne. apply not_elem_of_cons in Hne as [Hne Hne']. apply Hle; [|done|done].
    rewrite E1. by apply list_elem_of_filter.
Qed.
End runs.

(** ** The data of one partition *)

Section partition.
Context {Val State : Type} `{EqDecision State, Format Val, Format State} (M : Model Val State).
Context (sort : list (entry Val) → list (entry Val)) `{!SortsBy byTime_Less sort}.
Context (sort_partials : list (list Z) → list (list Z)) `{!SortsBy longer sort_partials}.
Context (p : list (Operation Val)) (ps : list (list Z)) (d : partitionVisualizationData).
Abbreviation es := (makeEntries sort p).
Hypothesis Ht : timed p.
Hypothesis Hdrawn : drawn M sort_partials es ps d.
Hypothesis Hps : partials_ok (fillDefault M) es ps.

Lemma entries_by_time : StronglySorted (λ a b, time a ≤ time b) es.
Proof.
  assert (∀ L : list (entry Val), StronglySorted (λ a b, byTime_Less b a = false) L → StronglySorted (λ a b, time a ≤ time b) L) as Hw.
  { induction 1 as [|a L Hs IH Ha]; constructor; [done|]. eapply Forall_impl; [exact Ha|]. intros b.
    unfold byTime_Less. rewrite bool_decide_eq_false. lia. }
  apply Hw, (sort_strongly byTime_Less sort).
Qed.

Lemma history_length : length (History d) = length p.
Proof. pose proof (dr_length _ _ _ _ _ Hdrawn) as E. rewrite (entries_half sort p) in E. lia. Qed.

(** Elements are the operations. *)
Lemma history_operation i he : History d !! i = Some he → ∃ op, p !! i = Some op ∧ op ∈ p ∧
  Start he = Call op ∧ he_End he = Return op ∧ of_id (Z.of_nat i) es = [call_of (Z.of_nat i) op; return_of (Z.of_nat i) op].
Proof.
  intros Hi. destruct (lookup_lt_is_Some_2 p i) as [op Hop].
  { rewrite <-history_length. by eapply lookup_lt_Some. }
  assert (p.[Z.of_nat i] = Ret op) as Hgo by (apply go_index_ret; split; [lia|by rewrite Nat2Z.id]).
  pose proof (list_elem_of_lookup_2 _ _ _ Hop) as Hin.
  pose proof (entries_of_id sort p (Z.of_nat i) op Hgo (Ht op Hin)) as Eof.
  destruct (dr_element _ _ _ _ _ Hdrawn _ _ _ Eof) as (s & _ & E). apply go_index_ret in E as [_ E]. rewrite Nat2Z.id, Hi in E.
  injection E as ->. by exists op.
Qed.

Lemma shows_indices s seq ls : VisualizationProof.shows M (default DefaultDescribeState (DescribeState M)) es s seq ls →
  seq = Index <$> ls ∧ ∀ i, i ∈ seq → 0 ≤ i < Z.of_nat (length p).
Proof.
  revert s ls. induction seq as [|i seq IH]; intros s [|l ls]; simpl; [| |done|].
  - intros _. split; [done|]. by intros i ?%not_elem_of_nil.
  - done.
  - intros (v & w & s' & Hio & _ & -> & Hs). destruct (IH _ _ Hs) as [E Hr]. split; [by rewrite E at 1|].
    intros j [->|Hj]%elem_of_cons; [|by apply Hr]. destruct Hio as (c & r & Eof & _ & _).
    assert (c ∈ of_id i es) as [<- Hc]%list_elem_of_filter by (rewrite Eof; left).
    pose proof (entries_ids sort p c Hc) as Hi. rewrite (entries_half sort p) in Hi. done.
Qed.

(** Each linearization of the data comes from a run of the model. *)
Lemma linearization_run lin : lin ∈ PartialLinearizations d → ∃ L' s', lin ≠ [] ∧
  runs (fillDefault M) es (Init (fillDefault M)) (Index <$> lin) L' s' ∧ NoDup (Index <$> lin) ∧
  ∀ step, step ∈ lin → 0 ≤ Index step < Z.of_nat (length (History d)).
Proof.
  intros [j Hj]%list_elem_of_lookup.
  destruct (Forall2_lookup_r _ _ _ _ _ (dr_partials _ _ _ _ _ Hdrawn) Hj) as (seq & Hseq & Hsh).
  destruct (shows_indices _ _ _ Hsh) as [-> Hr]. destruct Hps as [Hv Hne].
  assert ((Index <$> lin) ∈ ps) as Hin.
  { rewrite <-(sort_perm (less := longer) (sort := sort_partials) ps). by eapply list_elem_of_lookup_2. }
  rewrite Forall_forall in Hv. destruct (Hv _ Hin) as (L' & s' & Hrun). exists L', s'. split_and!; [|done| |].
  - intros ->. done.
  - pose proof (entries_balanced sort p Ht) as Hb. pose proof (balanced_op_ids_NoDup _ Hb) as Hnd.
    rewrite (runs_ids _ _ _ _ _ _ Hrun Hb) in Hnd. by apply NoDup_app in Hnd as [? _].
  - intros step Hs. rewrite history_length. apply Hr, list_elem_of_fmap. by exists step.
Qed.

(** An operation in a linearization was called before whatever is not yet in
    it had returned. *)
Lemma linearization_order lin k step h u hu : lin ∈ PartialLinearizations d → lin !! k = Some step →
  History d !! Z.to_nat (Index step) = Some h → History d !! u = Some hu → Z.of_nat u ∉ take (S k) (Index <$> lin) →
  Start h ≤ he_End hu.
Proof.
  intros Hlin Hk Hh Hu Hni. destruct (linearization_run lin Hlin) as (L' & s' & _ & Hrun & _ & Hr).
  destruct (runs_real_time _ _ _ _ _ _ k (Index step) Hrun (entries_balanced sort p Ht) entries_by_time) as (c & Hc & Hcall & Hid & Hle).
  { by rewrite list_lookup_fmap, Hk. }
  destruct (history_operation _ h Hh) as (op & _ & _ & -> & _ & Eof).
  destruct (history_operation _ hu Hu) as (opu & _ & _ & _ & -> & Eofu).
  rewrite Z2Nat.id in Eof by (by apply Hr, list_elem_of_lookup_2 with k).
  assert (c = call_of (Index step) op) as ->.
  { assert (c ∈ of_id (Index step) es) as Hin by (by apply list_elem_of_filter). rewrite Eof in Hin.
    apply elem_of_cons in Hin as [->|Hin%list_elem_of_singleton]; [done|]. by rewrite Hin in Hcall. }
  apply (Hle (return_of (Z.of_nat u) opu)); [|done|done].
  assert (return_of (Z.of_nat u) opu ∈ of_id (Z.of_nat u) es) as [_ ?]%list_elem_of_filter by (rewrite Eofu; right; left). done.
Qed.
End partition.

(** ** From reports to pages *)

(** Times that doubles can tell apart well enough: all of them are small, or
    none at which an operation returns is rounded to one at which one is
    called. *)
Definition times_fit {Val} (parts : list (list (Operation Val))) : Prop :=
  (∀ op, op ∈ concat parts → - 2^52 < Call op ∧ Return op < 2^52) ∨
  (∀ a b, a ∈ concat parts → b ∈ concat parts → Number (Return a) ≠ Number (Call b)).

Lemma elem_of_parts {A} (p : list A) (parts : list (list A)) a : p ∈ parts → a ∈ p → a ∈ concat parts.
Proof. rewrite !list_elem_of_In, in_concat. intros Hp Ha. by exists p. Qed.

Section report.
Context {Val State : Type} `{EqDecision State, Format Val, Format State} (M : Model Val State).
Context (sort : list (entry Val) → list (entry Val)) `{!SortsBy byTime_Less sort}.
Context (sort_partials : list (list Z) → list (list Z)) `{!SortsBy longer sort_partials}.

Lemma report_drawable (parts : list (list (Operation Val))) (data : list partitionVisualizationData) :
  (∀ p, p ∈ parts → timed p) → times_fit parts →
  length data = length parts →
  (∀ k p, parts !! k = Some p → ∃ ps d, data !! k = Some d ∧ drawn M sort_partials (makeEntries sort p) ps d ∧
     partials_ok (fillDefault M) (makeEntries sort p) ps) →
  drawable data.
Proof.
  intros Htimed Htimes Hlen Hparts.
  assert (∀ d, d ∈ data → ∃ p ps, p ∈ parts ∧ timed p ∧ drawn M sort_partials (makeEntries sort p) ps d ∧
    partials_ok (fillDefault M) (makeEntries sort p) ps) as Hd.
  { intros d [k Hk]%list_elem_of_lookup. destruct (lookup_lt_is_Some_2 parts k) as [p Hp]; [apply lookup_lt_Some in Hk; lia|].
    destruct (Hparts k p Hp) as (ps & d' & Hd' & Hdr & Hpo). simplify_eq. pose proof (list_elem_of_lookup_2 _ _ _ Hp).
    exists p, ps. split_and!; [done|by apply Htimed|done|done]. }
  assert (∀ he, he ∈ shown_elements data → ∃ op, op ∈ concat parts ∧ Call op < Return op ∧
    Start he = Call op ∧ he_End he = Return op) as Hel.
  { intros he (d & [i Hi]%list_elem_of_lookup & Hin)%list_elem_of_bind. destruct (Hd d Hin) as (p & ps & Hp & Ht & Hdr & _).
    destruct (history_operation M sort sort_partials p ps d Ht Hdr i he Hi) as (op & _ & Hop & E1 & E2 & _). exists op.
    split_and!; [by eapply elem_of_parts|by apply Ht|done|done]. }
  split.
  - split.
    + intros he (op & _ & ? & -> & ->)%Hel. lia.
    + intros he he' Hhe Hhe' Hn. destruct (Hel he Hhe) as (op & Hop & Hlt & E1 & E2).
      destruct (Hel he' Hhe') as (op' & Hop' & Hlt' & E1' & E2'). rewrite E2, E1' in Hn.
      destruct Htimes as [Hsmall|Hno]; [|by destruct (Hno op op' Hop Hop')]. split.
      * intros h (o & Ho & ? & -> & ->)%Hel. specialize (Hsmall o Ho). lia.
      * exists he'. split; [done|lia].
  - intros d lin Hin Hlin. destruct (Hd d Hin) as (p & ps & Hp & Ht & Hdr & Hpo).
    destruct (linearization_run M sort sort_partials p ps d Ht Hdr Hpo lin Hlin) as (_ & _ & Hne & _ & _ & Hr). done.
  - intros d lin i j s s' h h' Hin Hlin Hi Hj Hij Hh Hh'. destruct (Hd d Hin) as (p & ps & Hp & Ht & Hdr & Hpo).
    destruct (linearization_run M sort sort_partials p ps d Ht Hdr Hpo lin Hlin) as (_ & _ & _ & _ & Hnd & Hr).
    eapply (linearization_order M sort sort_partials p ps d Ht Hdr Hpo lin i s h); [done..|].
    rewrite Z2Nat.id by (by apply Hr, list_elem_of_lookup_2 with j). intros (j' & Hj' & Hlt)%elem_of_take.
    assert ((Index <$> lin) !! j = Some (Index s')) as Hj2 by (by rewrite list_lookup_fmap, Hj).
    pose proof (NoDup_lookup _ _ _ _ Hnd Hj' Hj2). lia.
  - intros d lin u s h hu Hin Hlin [k Hs]%list_elem_of_lookup Hh Hu Hni. destruct (Hd d Hin) as (p & ps & Hp & Ht & Hdr & Hpo).
    eapply (linearization_order M sort sort_partials p ps d Ht Hdr Hpo lin k s h); [done..|].
    intros (j & Hj & _)%elem_of_take. apply Hni. unfold included_of. apply elem_of_list_to_set.
    by eapply list_elem_of_lookup_2.
  - intros d i m Hin Hm. destruct (Hd d Hin) as (p & ps & Hp & Ht & Hdr & _).
    rewrite (dr_largest _ _ _ _ _ Hdr) in Hm. apply fmap_Some in Hm as ([m' q] & Hf & ->). simpl.
    apply list_find_Some in Hf as (Hf & _ & _). apply lookup_lt_Some in Hf.
    rewrite <-(Forall2_length _ _ _ (dr_partials _ _ _ _ _ Hdr)). lia.
Qed.
End report.

(** ** What the drawing gives to the mouse *)

Lemma drawn_page_ok text_width data L x lp (sort : list errorPoint → list errorPoint) pic :
  drawable data → laid_out text_width data L x lp → drawn_right L sort pic → (∀ l, sort l ≡ₚ l) →
  page_ok (la_parts L) pic.
Proof.
  intros Hd Hlo Hdr Hsort. pose proof (lo_parts _ _ _ _ _ Hlo) as Ep.
  assert (∀ k p, la_parts L !! k = Some p → ∃ d, d ∈ data ∧ PartialLinearizations d = pp_PartialLinearizations p ∧
    Largest d = pp_Largest p ∧ length (History d) = length (pp_History p)) as Hpart.
  { intros k p Hp%list_elem_of_lookup_2. rewrite Ep in Hp.
    destruct (part_data data p Hp) as (d & ? & ? & ? & HF). exists d. split_and!; [done..|by eapply Forall2_length]. }
  split.
  - apply Hdr.
  - intros k p st Hp Hst. destruct (dn_partial _ _ _ Hdr k p st Hp Hst). done.
  - intros k p lin Hp Hlin. destruct (Hpart k p Hp) as (d & Hdd & El & _). by apply (dw_lin _ Hd d lin); [|rewrite El].
  - intros k p st i m Hp Hst Hm. destruct (dn_partial _ _ _ Hdr k p st Hp Hst) as [Hlen _ _ _ Hla _]. rewrite Hlen.
    destruct Hm as [Hm|Hm]; [|by eapply Hla]. destruct (Hpart k p Hp) as (d & Hdd & <- & EL & _). rewrite <-EL in Hm.
    by eapply (dw_largest _ Hd).
  - intros pt Hpt. rewrite (dn_errors _ _ _ Hdr), Hsort in Hpt.
    apply list_elem_of_bind in Hpt as (st & Hpt & [k Hst]%list_elem_of_lookup).
    destruct (lookup_lt_is_Some_2 (la_parts L) k) as [p Hp].
    { rewrite <-(dn_partials _ _ _ Hdr). by eapply lookup_lt_Some. }
    destruct (dn_partial _ _ _ Hdr k p st Hp Hst) as [Hlen _ _ _ _ He]. rewrite He in Hpt.
    apply list_elem_of_In, in_concat in Hpt as (errs & [j Hj]%list_elem_of_In%list_elem_of_lookup & Hin%list_elem_of_In).
    rewrite list_lookup_imap in Hj. apply fmap_Some in Hj as ([lin g] & Hj & ->).
    apply lookup_zip_with_Some in Hj as (lin' & g' & [= <- <-] & Hlin & Hg).
    apply list_elem_of_fmap in Hin as (s & -> & _). simpl.
    exists k, p, st. split_and!; [done..|lia|apply lookup_lt_Some in Hg; lia| |];
      destruct (Hpart k p Hp) as (d & Hdd & El & _ & Eh);
      destruct (dw_lin _ Hd d lin Hdd) as [Hne Hr]; try (rewrite El; by eapply list_elem_of_lookup_2);
      (destruct (last lin) as [step|] eqn:Elast; [|by apply last_None in Elast]);
      destruct (Hr step) as [H0 H1]; try (by rewrite last_lookup in Elast; eapply list_elem_of_lookup_2); simpl; lia.
Qed.

(** ** The properties *)

(** C8: the layout of a page for data that can be drawn ([drawable]: doubles
    tell its times apart, its partial linearizations name operations of their
    partition and follow real time, as all that the checker reports do): the
    script computes a position for every timestamp and for every point of every partial linearization,
    never NaN, by which timestamps are [BOX_GAP] apart, the box of every
    operation is wide enough for its text, every point lies inside the box of
    its operation and [EPSILON] right of the one before, and the box of an
    operation that could illegally come next reaches [EPSILON] past the last
    point; and it solves this optimally: no other positions from 0 on that
    meet the constraints put anything further left. *)
Theorem layout_solves text_width sort data : SortsBy ends_before sort → drawable data →
  ∃ L x lp, layout text_width sort data = Ret L ∧
    prep_spec (length (pp_elements (la_parts L))) (all_lins (la_parts L)) (la_prep L) ∧
    (∀ t, t ∈ la_sorted L → x_of (la_scan L) t = Some (x t)) ∧
    (∀ l lin, allLinearizations (la_prep L) !! l = Some lin →
       linearizationPositions (la_scan L) !! l = Some ((λ p, Some (lp l p)) <$> seq 0 (length lin))) ∧
    fits (la_parts L) (la_prep L) (box_of text_width <$> pp_elements (la_parts L)) (la_sorted L) x lp ∧
    ∀ x' lp', fits (la_parts L) (la_prep L) (box_of text_width <$> pp_elements (la_parts L)) (la_sorted L) x' lp' →
      (∀ t, head (la_sorted L) = Some t → (0 <= x' t)%Q) →
      (∀ t, t ∈ la_sorted L → (x t <= x' t)%Q) ∧
      ∀ l lin p, allLinearizations (la_prep L) !! l = Some lin → (p < length lin)%nat → (lp l p <= lp' l p)%Q.
Proof.
  intros Hsort Hd. destruct (layout_ok text_width sort data Hsort Hd) as (L & x & lp & E & []).
  exists L, x, lp. split_and!; done.
Qed.

(** C6: when doubles can tell the times of a history apart, the page shows
    what a verbose check of it reports. The condition is [times_fit]: every call
    and return lies within 2^52 of 0, or no return is rounded to the same double
    as a call; nanoseconds since 1970 less than 256 ns apart break it
    ([unix_times_collide]). Under it the script runs to its end on the data of
    the report and draws, for every partition, each partial linearization
    through the rectangles of its operations, one point per step and [EPSILON]
    apart, with one point in red inside the rectangle of each operation that
    could only come next illegally, and lists these for the link from left to
    right. *)
Theorem verbose_report_page {Val State} `{EqDecision State, Format Val, Format State} (M : Model Val State) `{!GoodEqual M}
    fuel nilV env `{!RangeOrder (ptr_order env)} (sort : list (entry Val) → list (entry Val)) `{!SortsBy byTime_Less sort}
    (sort_partials : list (list Z) → list (list Z)) `{!SortsBy longer sort_partials}
    history parts timeout res info text_width sort_boxes sort_errors :
  partition_of M history = Ret parts → (∀ p, p ∈ parts → good_part M fuel sort p) →
  (∀ p op, p ∈ parts → op ∈ p → ∃ s,
     default DefaultDescribeOperation (DescribeOperation M) (Input op) (Output op) = Ret s) →
  times_fit parts →
  CheckOperationsVerbose fuel nilV env sort M history timeout = Ret (res, info) →
  SortsBy ends_before sort_boxes → SortsBy error_before sort_errors →
  ∃ data info' L pic, computeVisualizationData nilV sort_partials M info = Ret (data, info') ∧
    layout text_width sort_boxes data = Ret L ∧ draw sort_errors L = Ret pic ∧ drawn_right L sort_errors pic ∧
    Sorted (λ a b, error_before b a = false) (errorPoints pic) ∧
    Forall2 (λ d p, PartialLinearizations d = pp_PartialLinearizations p ∧ Largest d = pp_Largest p ∧
      Forall2 shown (History d) (pp_History p)) data (la_parts L) ∧
    ∀ el, el ∈ pp_elements (la_parts L) → ∃ rx w,
      (draw_element (x_of (la_scan L)) el).2 = Rect "target-rect" (Some rx) (row_y (el_ClientId el)) (Some w) BOX_HEIGHT ∧
      (text_width (el_Description el) + 2 * BOX_TEXT_PADDING <= w)%Q.
Proof.
  intros Ep Hg Hdesc Htimes Ev Hsb Hse.
  destruct (verbose_data M fuel nilV env sort sort_partials history parts timeout res info Ep Hg Hdesc Ev)
    as (data & info' & Ed & Hlen & Hdata).
  assert (drawable data) as Hd.
  { apply (report_drawable M sort sort_partials parts data); [|done|done|].
    - intros p Hp. by destruct (Hg p Hp).
    - intros k p Hk. destruct (Hdata k p Hk) as (ps & d & _ & ? & ? & ?). by exists ps, d. }
  destruct (layout_ok text_width sort_boxes data Hsb Hd) as (L & x & lp & EL & Hlo).
  destruct (draw_ok text_width data Hd L x lp Hlo sort_errors) as (pic & Epic & Hpic).
  exists data, info', L, pic. split_and!; [done..| | |].
  - rewrite (dn_errors _ _ _ Hpic). apply (sort_ordered (less := error_before)).
  - rewrite (lo_parts _ _ _ _ _ Hlo). apply parts_ok.
  - intros el [g Hel]%list_elem_of_lookup.
    destruct (target_rect text_width data Hd L x lp Hlo g el Hel) as (rx & w & ? & _ & _ & ?). by exists rx, w.
Qed.

(** C9: how a drawn page answers the mouse, for any sequence of events on its
    rectangles, its background and its link: no handler ever fails, and the
    flags are always those of one of two views, the longest linearizations of
    all partitions or the one of the operation in focus; an operation is
    marked exactly while it is selected, and then it is the one in focus; the
    link is there exactly when an illegal point is in view, and leads to the
    first; and the tooltip that is not redrawn is never stale. *)
Theorem mouse_keeps_focus text_width sort_boxes sort_errors number_text data L pic events :
  SortsBy ends_before sort_boxes → (∀ l, sort_errors l ≡ₚ l) → drawable data →
  layout text_width sort_boxes data = Ret L → draw sort_errors L = Ret pic →
  Forall (on_target (la_parts L)) events →
  ∃ u, foldM (handle (la_parts L) pic number_text) (initial (la_parts L) pic) events = Ret u ∧
    shows (la_parts L) pic number_text (foldl (focus_step (la_parts L) pic) (None, Default) events) u.
Proof.
  intros Hsort Hperm Hd EL Ed He. destruct (layout_ok text_width sort_boxes data Hsort Hd) as (L' & x & lp & EL' & Hlo).
  rewrite EL in EL'. injection EL' as <-.
  destruct (draw_ok text_width data Hd L x lp Hlo sort_errors) as (pic' & Ed' & Hpic).
  rewrite Ed in Ed'. injection Ed' as <-.
  pose proof (drawn_page_ok text_width data L x lp sort_errors pic Hd Hlo Hpic Hperm) as Hok.
  pose proof (initial_ok _ _ number_text Hok) as H0. revert He H0. generalize (initial (la_parts L) pic) (None : option (Z * Z), Default).
  induction events as [|e events IH]; intros u f He Hs; [by exists u|]. apply Forall_cons in He as [He Hes].
  destruct (handle_ok _ _ number_text Hok f u e Hs He) as (u' & E & Hs'). cbn [foldM foldl]. rewrite E. by apply IH.
Qed.

(** ** A sample *)

(** The history of Porcupine.v in a font of seven pixels a letter. *)
Definition mono (s : string) : Q := (7 * inject_Z (Z.of_nat (String.length s)))%Q.

#[local] Instance kvalue_format' : Format kvalue := λ _, "".
#[local] Instance string_format' : Format string := λ s, s.
#[local] Instance results_order' order : RangeOrder (ptr_order (results order)) := range_reverse.
#[local] Instance error_sort : SortsBy error_before (sort_by error_before).
Proof.
  apply sort_by_total. intros a b. unfold error_before. destruct (ep_x a) as [x|], (ep_x b) as [y|]; [|by left..].
  destruct (Qle_bool y x) eqn:E; [by left|]. right. assert ((x <= y)%Q) as H.
  { destruct (Qlt_le_dec x y) as [H|H]; [by apply Qlt_le_weak|]. apply Qle_bool_iff in H. congruence. }
  apply Qle_bool_iff in H. by rewrite H.
Qed.

Definition sample_info : linearizationInfo kvalue :=
  match CheckOperationsVerbose 20 VNil (results [1; 0]%nat) by_time sample_model sample 0 with
  | Ret (_, info) => info | _ => mkInfo [] [] end.
Definition sample_data : list partitionVisualizationData :=
  match computeVisualizationData VNil (sort_by longer) sample_model sample_info with Ret (d, _) => d | _ => [] end.

Lemma sample_verbose : ∃ res, CheckOperationsVerbose 20 VNil (results [1; 0]%nat) by_time sample_model sample 0 = Ret (res, sample_info).
Proof. eexists. vm_compute. reflexivity. Qed.
Lemma sample_data_ret : ∃ info', computeVisualizationData VNil (sort_by longer) sample_model sample_info = Ret (sample_data, info').
Proof. eexists. vm_compute. reflexivity. Qed.

#[local] Opaque sample_info sample_data.

Abbreviation sample_keys := [on_key "a" sample; on_key "b" sample].

Lemma sample_op p op : p ∈ sample_keys → op ∈ p → op ∈ sample.
Proof.
  intros Hp Hop. by apply elem_of_cons in Hp as [->| ->%list_elem_of_singleton]; apply list_elem_of_filter in Hop as [_ ?].
Qed.
Lemma sample_key_timed p : p ∈ sample_keys → timed p.
Proof. intros Hp op Hop. by apply sample_timed, (sample_op p). Qed.
Lemma sample_times : times_fit sample_keys.
Proof.
  left. apply Forall_forall. apply (bool_decide_unpack _). vm_compute. exact I.
Qed.

Lemma ret_pair_inv {A B} (a a' : A) (b b' : B) : Ret (a, b) = Ret (a', b') → a = a' ∧ b = b'.
Proof. intros H. by injection H. Qed.

Lemma sample_drawable : drawable sample_data.
Proof.
  pose proof (KvModel_GoodEqual reverse (sort_by string_less)) as HG.
  destruct sample_verbose as [res Ev]. destruct sample_data_ret as [info' Ed].
  destruct (verbose_data sample_model 20 VNil (results [1; 0]%nat) by_time (sort_by longer) sample
    sample_keys 0 res sample_info sample_parts sample_good) as (data & i & Ed' & Hlen & Hdata).
  - intros p op Hp Hop. by apply sample_describes, (sample_op p).
  - exact Ev.
  - rewrite Ed in Ed'. apply ret_pair_inv in Ed' as [<- _].
    apply (report_drawable sample_model by_time (sort_by longer) sample_keys);
      [exact sample_key_timed|exact sample_times|exact Hlen|].
    intros k p Hk. destruct (Hdata k p Hk) as (ps & d & _ & H1 & H2 & H3). exists ps, d.
    split; [exact H1|]. split; [exact H2|exact H3].
Qed.

Definition no_laid : laid := mkLaid [] [] (mkPrep [] [] []) (mkScan ∅ []).
Definition sample_laid : laid := match layout mono (sort_by ends_before) sample_data with Ret L => L | _ => no_laid end.
Definition sample_picture : picture :=
  match draw (sort_by error_before) sample_laid with Ret p => p | _ => mkPicture [] [] [] [] [] end.

Lemma sample_laid_ret : layout mono (sort_by ends_before) sample_data = Ret sample_laid.
Proof. vm_compute. reflexivity. Qed.
Lemma sample_picture_ret : draw (sort_by error_before) sample_laid = Ret sample_picture.
Proof. vm_compute. reflexivity. Qed.

#[local] Opaque sample_picture.

Definition hover_and_click : list mouse := [MouseOver 0 1; MouseMove 0 1 5 5; Click 0 1; MouseOut; JumpClick; Click 1 0; BgClick].

Lemma hover_on_target : Forall (on_target (la_parts sample_laid)) hover_and_click.
Proof. repeat constructor; eexists; vm_compute; (split; [discriminate|split; [reflexivity|split; [discriminate|reflexivity]]]). Qed.

Lemma layout_solves_witness : ∃ L x lp, layout mono (sort_by ends_before) sample_data = Ret L ∧
  fits (la_parts L) (la_prep L) (box_of mono <$> pp_elements (la_parts L)) (la_sorted L) x lp.
Proof.
  destruct (layout_solves mono (sort_by ends_before) sample_data _ sample_drawable) as (L & x & lp & E & _ & _ & _ & Hf & _).
  exists L, x, lp. split; [exact E|exact Hf].
Defined.

Lemma verbose_report_page_witness : ∃ data info' L pic,
  computeVisualizationData VNil (sort_by longer) sample_model sample_info = Ret (data, info') ∧
  layout mono (sort_by ends_before) data = Ret L ∧ draw (sort_by error_before) L = Ret pic ∧
  drawn_right L (sort_by error_before) pic.
Proof.
  pose proof (KvModel_GoodEqual reverse (sort_by string_less)) as HG.
  destruct sample_verbose as [res Ev].
  destruct (verbose_report_page sample_model 20 VNil (results [1; 0]%nat) by_time (sort_by longer) sample
    sample_keys 0 res sample_info mono (sort_by ends_before) (sort_by error_before)
    sample_parts sample_good) as (data & info' & L & pic & Ed & EL & Ep & Hpic & _).
  - intros p op Hp Hop. by apply sample_describes, (sample_op p).
  - exact sample_times.
  - exact Ev.
  - apply _.
  - apply _.
  - exists data, info', L, pic. split; [exact Ed|]. split; [exact EL|]. split; [exact Ep|exact Hpic].
Defined.

Lemma mouse_keeps_focus_witness : ∃ u,
  foldM (handle (la_parts sample_laid) sample_picture Itoa) (initial (la_parts sample_laid) sample_picture) hover_and_click = Ret u ∧
  shows (la_parts sample_laid) sample_picture Itoa
    (foldl (focus_step (la_parts sample_laid) sample_picture) (None, Default) hover_and_click) u.
Proof.
  apply (mouse_keeps_focus mono (sort_by ends_before) (sort_by error_before) Itoa sample_data sample_laid sample_picture hover_and_click).
  - apply _.
  - intros l. apply (sort_perm (less := error_before)).
  - exact sample_drawable.
  - exact sample_laid_ret.
  - exact sample_picture_ret.
  - exact hover_on_target.
Defined.

(** ** Outside its bounds *)

(** An operation that starts when the last one ends is not saved by moving
    ends: nothing comes after, and its rectangle has no position. *)
Example late_start_nan : ∃ L, layout mono (sort_by ends_before)
    [mkPartitionData [mkHistoryElement 0 0 10 "put"; mkHistoryElement 1 10 10 "get"] [] ∅] = Ret L ∧
  x_of (la_scan L) 20 = None.
Proof. eexists. split; [vm_compute; reflexivity|vm_compute; reflexivity]. Qed.

(** Nanoseconds since 1970 are too large for a double: two times 200 ns apart
    become one. *)
Example unix_times_collide : Number 1600000000000000000 = Number 1600000000000000100 ∧
  Number 1600000000000000100 = 1600000000000000000.
Proof. split; reflexivity. Qed.
