(* ===== verification/Rpc.v ===== *)
(** The properties of the simulated network: what [ClientEnd.Call] promises
    its callers under every interleaving. *)
From Stdlib Require Import ZArith Lia Ascii.
From stdpp Require Import base gmap list strings.
From S2P Require Import Prelude Labrpc Calls CallsProof.

(** ** Splitting "Service.Method" *)

Lemma substring_all t : String.substring 0 (String.length t) t = t.
Proof. induction t as [|c t IH]; simpl; [done|]. by rewrite IH. Qed.
Lemma substring_app s t : String.substring (String.length s) (String.length t) (s +:+ t) = t.
Proof. induction s as [|c s IH]; [apply substring_all|done]. Qed.
Lemma substring_prefix s t : String.substring 0 (String.length s) (s +:+ t) = s.
Proof. induction s as [|c s IH]; simpl; [by destruct t|]. by rewrite IH. Qed.
Lemma string_app_assoc s t u : s +:+ (t +:+ u) = (s +:+ t) +:+ u.
Proof. induction s as [|c s IH]; [done|]. apply (f_equal (String c)), IH. Qed.
Lemma length_string_app s t : String.length (s +:+ t) = (String.length s + String.length t)%nat.
Proof. induction s as [|c s IH]; simpl; [done|]. by rewrite IH. Qed.

Fixpoint dotless (s : string) : bool :=
  match s with EmptyString => true | String c s => bool_decide (c ≠ "."%char) && dotless s end.

Lemma LastIndexDot_dotless s : dotless s = true ↔ LastIndexDot s = -1.
Proof.
  induction s as [|c s IH]; simpl; [done|]. rewrite andb_true_iff, bool_decide_eq_true, IH.
  assert (-1 ≤ LastIndexDot s) as Hlo.
  { clear. induction s as [|c s IH]; simpl; [lia|]. repeat case_decide; lia. }
  repeat case_decide; naive_solver lia.
Qed.

Lemma LastIndexDot_app s m : dotless m = true →
  LastIndexDot (s +:+ "." +:+ m) = Z.of_nat (String.length s).
Proof.
  intros Hm%LastIndexDot_dotless. induction s as [|c s IH].
  { change ("" +:+ "." +:+ m) with (String "."%char m). cbn [LastIndexDot]. by rewrite Hm. }
  change (String c s +:+ "." +:+ m) with (String c (s +:+ "." +:+ m)). cbn [LastIndexDot String.length].
  rewrite IH. case_decide; lia.
Qed.

Section rpc.
Context {name : Type} `{Countable name}.
Context {V rtype World : Type} (gob : Gob V rtype).
Abbreviation call := (call name V rtype World).
Abbreviation state := (state name V rtype World).
Abbreviation event := (event name V rtype).
Implicit Types (g : state) (c : call) (e : event) (cid : nat) (rt : route name).

Abbreviation add_handler := (λ (methods : gmap string (Method V rtype World)) method,
  if suitable method then <[m_Name method := method]> methods else methods).

Lemma foldl_other acc (l : list (Method V rtype World)) x :
  x ∉ m_Name <$> l → foldl add_handler acc l !! x = acc !! x.
Proof.
  revert acc. induction l as [|m l IH]; intros acc Hx; [done|]. csimpl in Hx.
  apply not_elem_of_cons in Hx as [Hne Hx]. simpl. rewrite IH by done.
  destruct (suitable m); [|done]. by rewrite lookup_insert_ne.
Qed.

Lemma MakeService_lookup typeName (methods : list (Method V rtype World)) m :
  NoDup (m_Name <$> methods) → m ∈ methods →
  svc_methods (MakeService typeName methods) !! m_Name m = if suitable m then Some m else None.
Proof.
  intros Hnd (l1 & l2 & ->)%list_elem_of_split. unfold MakeService. simpl.
  rewrite fmap_app, fmap_cons in Hnd. apply NoDup_app in Hnd as (_ & Hl1 & [Hl2 _]%NoDup_cons).
  rewrite foldl_app. simpl. rewrite foldl_other by done.
  assert (foldl add_handler ∅ l1 !! m_Name m = None) as E.
  { rewrite foldl_other; [apply lookup_empty|]. intros Hin. apply (Hl1 _ Hin). left. }
  destruct (suitable m); [by rewrite lookup_insert_eq|done].
Qed.

(** C15: dispatching an RPC: a request for "Type.Method" increments the
    server's count, finds the service registered under the text before the
    last dot, and in it exactly those methods of the receiver that qualify as
    handlers (exported, two arguments, the second a pointer, no result). The
    method runs on what the request's bytes decode to, in a zero value of the
    arguments' type, and on a zero reply; the reply message holds the bytes of
    what it left in the reply, and a handler that panics, panics the server. A
    name without a dot panics on the slice; an unknown service, or a method
    that does not qualify, is fatal. *)
Theorem dispatch_routes (rs : Server V rtype World) typeName (methods : list (Method V rtype World)) m
    (req : reqMsg name rtype) meth :
  NoDup (m_Name <$> methods) → m ∈ methods → dotless (m_Name m) = true → dotless meth = true →
  let svc := MakeService typeName methods in
  (svcMeth req = typeName +:+ "." +:+ m_Name m →
   Server_lookup (AddService rs svc) req =
     Ret (mkServer (services (AddService rs svc)) (int64 (srv_count rs + 1)), svc, m_Name m) ∧
   svc_methods svc !! m_Name m = (if suitable m then Some m else None) ∧
   ∀ w, suitable m = false →
     Service_dispatch gob svc (m_Name m) req w = Panic (Fatal "labrpc.Service.dispatch(): unknown method")) ∧
  (suitable m = true → ∀ w args err, gob_decode gob (req_args req) (gob_zero gob (argsType req)) = (args, err) →
   (∀ w' reply, m_Func m w args (gob_zero gob (m_In2Elem m)) = Ret (w', reply) →
     Service_dispatch gob svc (m_Name m) req w = Ret (w', mkReplyMsg true (gob_encode gob reply).1)) ∧
   (∀ reason, m_Func m w args (gob_zero gob (m_In2Elem m)) = Panic reason →
     Service_dispatch gob svc (m_Name m) req w = Panic reason)) ∧
  (∀ other, services rs !! other = None → svcMeth req = other +:+ "." +:+ meth →
   Server_lookup rs req = Panic (Fatal "labrpc.Server.dispatch(): unknown service")) ∧
  (svcMeth req = meth → Server_lookup rs req = Panic IndexOutOfRange).
Proof.
  intros Hnd Hin Hdot Hdot' svc.
  assert (∀ s t, dotless t = true → svcMeth req = s +:+ "." +:+ t →
    ∀ rs0 : Server V rtype World, Server_lookup rs0 req =
      match services rs0 !! s with
      | Some service => Ret (mkServer (services rs0) (int64 (srv_count rs0 + 1)), service, t)
      | None => Panic (Fatal "labrpc.Server.dispatch(): unknown service")
      end) as Hsplit.
  { intros s t Ht E rs0. unfold Server_lookup. rewrite E, LastIndexDot_app by done.
    assert (String.length (s +:+ "." +:+ t) = (String.length s + S (String.length t))%nat) as El
      by (by rewrite length_string_app).
    unfold go_slice_string. rewrite El, !decide_True by lia. cbn [mbind result_bind].
    replace (Z.to_nat (Z.of_nat (String.length s) - 0)) with (String.length s) by lia.
    change (Z.to_nat 0) with 0%nat. rewrite substring_prefix.
    replace (Z.to_nat (Z.of_nat (String.length s) + 1)) with (String.length (s +:+ "."))
      by (rewrite length_string_app; simpl; lia).
    replace (Z.to_nat (Z.of_nat (String.length s + S (String.length t)) - (Z.of_nat (String.length s) + 1)))
      with (String.length t) by lia.
    by rewrite string_app_assoc, substring_app. }
  split_and!.
  - intros E. rewrite (Hsplit _ _ Hdot E). unfold svc at 1 2. simpl. rewrite lookup_insert_eq.
    split_and!; [done|by apply (MakeService_lookup typeName methods)|].
    intros w Hs. unfold Service_dispatch. unfold svc. by rewrite (MakeService_lookup typeName methods), Hs.
  - intros Hs w args err Ed. unfold Service_dispatch, svc. rewrite (MakeService_lookup typeName methods), Hs, Ed by done.
    split; [intros w' reply Ef|intros reason Ef]; simpl; by rewrite Ef.
  - intros other Ho E. by rewrite (Hsplit _ _ Hdot' E), Ho.
  - intros E. unfold Server_lookup. rewrite E. apply LastIndexDot_dotless in Hdot'. by rewrite Hdot'.
Qed.
(** C16: a request is executed at most once: in any run of the network from
    its creation, whatever is lost, delayed, reordered or reconfigured, the
    handler of a call runs at most once. *)
Theorem rpc_at_most_once g0 events g cid :
  fresh g0 → run gob g0 events = Ret g → (executions cid events ≤ 1)%nat.
Proof.
  intros H0 E. pose proof (run_handlers gob g0 events g H0 E cid) as Hh.
  destruct (s_calls g !! cid) as [c|]; [|lia]. destruct Hh as [_ ->]. destruct (c_handler c); simpl; lia.
Qed.

(** C17: a [Call] that returns [true] was executed, and the caller has its
    reply: the request carries the encoded arguments of the call; it was looked
    up, and its handler run exactly once, on the server it was routed to; the
    reply message the handler gave passed the final check, at a moment when the
    client's end was enabled and that server was still the one registered under
    its name; and the caller's reply variable holds what decoding that message
    into the variable it passed gave, without an error. *)
Theorem rpc_true_means_executed g0 events g cid c :
  fresh g0 → run gob g0 events = Ret g →
  s_calls g !! cid = Some c → c_phase c = Returned true →
  executions cid events = 1%nat ∧
  ∃ endname meth ty args v0 reply,
    ECall cid endname meth ty args v0 ∈ events ∧ gob_encode gob args = (req_args (c_req c), false) ∧
    c_req c = mkReqMsg endname meth ty (req_args (c_req c)) ∧
    c_handler c = HReply reply ∧ acknowledged gob g0 events cid (c_req c) reply ∧
    gob_decode gob (rep_reply reply) v0 = (c_reply c, false).
Proof.
  intros H0 E Ec Ep. pose proof (run_handlers gob g0 events g H0 E cid) as Hh.
  rewrite Ec in Hh. destruct Hh as [_ Hex].
  destruct (run_positive gob g0 events g cid c H0 E Ec) as (reply & Eh & Hack); [by rewrite Ep|].
  rewrite Hex, Eh. split; [done|].
  destruct (run_holds gob g0 events g cid c H0 E Ec) as (x & meth & ty & args & v0 & Hin & He & Hreq & Hd).
  rewrite Ep in Hd. destruct Hd as (reply' & Eh' & Hd). assert (reply' = reply) as -> by congruence.
  exists x, meth, ty, args, v0, reply. rewrite Hreq in Hack |- *. by split_and!.
Qed.

(** How a step changes the registration of a server. *)
Lemma step_registered g e g' s p : step gob g e = Ret g' → e ≠ EAddServer s p →
  registered (s_net g) s ≠ Some p → registered (s_net g') s ≠ Some p.
Proof.
  unfold step. destruct (draws_ok e); [|done]. destruct (event_call e) as [cid|] eqn:He.
  - destruct (s_calls g !! cid) as [c|] eqn:Ec; [|done]. intros E _.
    destruct (call_step_trans gob g cid c e g' He E) as (c' & _ & _ & _ & (_ & Hreg & _) & _).
    by rewrite Hreg.
  - intros E Hne Hreg. destruct e; try discriminate He; simpl in E.
    + unfold start_call in E. destruct (s_calls g !! cid); [done|].
      destruct (ends (s_net g) !! endname); [|done]. destruct (gob_encode gob args) as [bytes []]; [done|].
      by injection E as <-.
    + apply bind_ret_inv in E as (rn & Em & [= <-]). unfold MakeEnd in Em.
      destruct (ends (s_net g) !! endname); [done|]. by injection Em as <-.
    + injection E as <-. unfold registered, AddServer, set_server. simpl.
      destruct (decide (servername = s)) as [->|Hs].
      * rewrite lookup_insert_eq. simpl. congruence.
      * by rewrite lookup_insert_ne.
    + injection E as <-. unfold registered, DeleteServer, set_server. simpl.
      destruct (decide (servername = s)) as [->|Hs]; [by rewrite lookup_insert_eq|].
      by rewrite lookup_insert_ne.
    + by injection E as <-.
    + by injection E as <-.
    + by injection E as <-.
    + by injection E as <-.
    + by injection E as <-.
    + apply bind_ret_inv in E as (rn & Em & [= <-]). unfold Cleanup in Em.
      destruct (net_done (s_net g)); [done|]. by injection Em as <-.
Qed.

(** C18: once a server has been deleted or replaced, a call routed to it whose
    reply has not yet passed the final check never returns [true], unless that
    very server object is registered again under the name: the call cannot
    acknowledge an update made to a persister that has been superseded. A reply
    that had passed the check before (sent, or held back by long reordering)
    may still arrive: [late_reply_arrives]. *)
Theorem deleted_server_never_acknowledges g events g' cid c rt :
  s_calls g !! cid = Some c →
  (c_phase c = Connected rt ∨ ∃ reply d, c_phase c = Waiting rt reply d) →
  registered (s_net g) (r_servername rt) ≠ Some (r_server rt) →
  Forall (λ e, e ≠ EAddServer (r_servername rt) (r_server rt)) events →
  run gob g events = Ret g' →
  ∃ c', s_calls g' !! cid = Some c' ∧ ¬ positive (c_phase c').
Proof.
  intros Ec Hp Hreg Hall. revert g'.
  assert (∀ g', run gob g events = Ret g' →
    registered (s_net g') (r_servername rt) ≠ Some (r_server rt) ∧
    ∃ c', s_calls g' !! cid = Some c' ∧
      (c_phase c' = Connected rt ∨ (∃ reply d, c_phase c' = Waiting rt reply d) ∨
       c_phase c' = Replied failure ∨ c_phase c' = Returned false)) as Hinv.
  { induction events as [|e events IH] using rev_ind; intros g' E.
    { injection E as <-. split; [done|]. exists c. split; [done|tauto]. }
    apply Forall_app in Hall as [Hall [He _]%Forall_cons].
    rewrite run_snoc in E. apply bind_ret_inv in E as (g1 & E1 & E).
    destruct (IH Hall g1 E1) as (Hreg1 & c1 & Ec1 & Hp1). split; [by eapply step_registered|].
    destruct (step_call gob g1 e g' cid E) as [[Esame _]|[(c0 & Ec0 & _)|(c0 & c' & Ec0 & _ & Ec' & Ht & _)]].
    - exists c1. by rewrite Esame.
    - congruence.
    - rewrite Ec1 in Ec0. injection Ec0 as <-. exists c'. split; [done|].
      assert (∀ q, isServerDead (s_net g1) q (r_servername rt) (Some (r_server rt)) = true) as Hdead.
      { intros q. unfold isServerDead. rewrite decide_True; [done|]. by right. }
      clear -Ht Hp1 Hdead. revert Ht. generalize (c_phase c') (c_handler c'). intros p h Ht.
      destruct Hp1 as [E|[(reply & d & E)|[E|E]]]; destruct Ht; rewrite E in *; simplify_eq; eauto 10.
      all: try (rewrite Hdead in *; discriminate). all: by simplify_eq/=. }
  intros g' E. destruct (Hinv g' E) as (_ & c' & Ec' & Hp'). exists c'. split; [done|].
  destruct Hp' as [->|[(reply & d & ->)|[->| ->]]]; simpl; naive_solver.
Qed.
(** ** A call nothing interferes with *)

(** Events that may cut end [x] off from server name [s], or make the network lossy. *)
Definition disturbs (x s : name) e : Prop :=
  match e with
  | EEnable y _ | EConnect y _ | EMakeEnd y => y = x
  | EDeleteServer t | EAddServer t _ => t = s
  | EReliable yes => yes = false
  | ECleanup => True
  | _ => False
  end.

(** End [x] is enabled and connected to server [p], registered as [s], on a
    reliable network. *)
Record linked g (x s : name) (p : ptr) : Prop := {
  lk_enabled : is_enabled (s_net g) x = true;
  lk_connection : connection (s_net g) x = Some s;
  lk_registered : registered (s_net g) s = Some p;
  lk_reliable : reliable (s_net g) = true;
  lk_open : net_done (s_net g) = false
}.

Lemma step_linked g e g' x s p : step gob g e = Ret g' → ¬ disturbs x s e → linked g x s p → linked g' x s p.
Proof.
  unfold step. destruct (draws_ok e); [|done]. destruct (event_call e) as [cid|] eqn:He.
  - destruct (s_calls g !! cid) as [c|] eqn:Ec; [|done]. intros E _ [H1 H2 H3 H4 H5].
    pose proof (proj1 (call_step_flags gob g cid c e g' He E)) as Hrel.
    destruct (call_step_trans gob g cid c e g' He E) as (c' & _ & _ & _ & (Ha & Hb & Hc & Hd) & _).
    split; by rewrite ?Ha, ?Hb, ?Hc, ?Hd, ?Hrel.
  - intros E Hd [H1 H2 H3 H4 H5]. destruct e; try discriminate He; simpl in E, Hd.
    + unfold start_call in E. destruct (s_calls g !! cid); [done|].
      destruct (ends (s_net g) !! endname); [|done]. destruct (gob_encode gob args) as [bytes []]; [done|].
      by injection E as <-.
    + apply bind_ret_inv in E as (rn & Em & [= <-]). unfold MakeEnd in Em.
      destruct (ends (s_net g) !! endname); [done|]. injection Em as <-.
      split; unfold is_enabled, connection in *; simpl; try done; by rewrite lookup_insert_ne.
    + injection E as <-. split; try done. unfold registered in *. simpl. by rewrite lookup_insert_ne.
    + injection E as <-. split; try done. unfold registered in *. simpl. by rewrite lookup_insert_ne.
    + injection E as <-. split; try done. unfold connection in *. simpl. by rewrite lookup_insert_ne.
    + injection E as <-. split; try done. unfold is_enabled in *. simpl. by rewrite lookup_insert_ne.
    + injection E as <-. split; try done. by destruct yes.
    + by injection E as <-.
    + by injection E as <-.
    + done.
Qed.

(** Where an undisturbed call can be. *)
Definition on_track (s : name) (p : ptr) (ph : phase name) : Prop :=
  match ph with
  | Sending | Accepted | Returned true => True
  | Connected rt | Waiting rt _ false => r_servername rt = s ∧ r_server rt = p ∧ r_reliable rt = true
  | Delayed _ reply | Replied reply => rep_ok reply = true
  | _ => False
  end.

Lemma trans_on_track g cid c e ph h s p :
  trans gob g cid c e ph h → phase_ok (c_phase c) (c_handler c) →
  linked g (req_endname (c_req c)) s p → on_track s p (c_phase c) → on_track s p ph.
Proof.
  intros Ht Hok [H1 H2 H3 H4 H5] Htr.
  assert (isServerDead (s_net g) (req_endname (c_req c)) s (Some p) = false) as Halive.
  { unfold isServerDead. rewrite decide_False; [done|]. rewrite H1, H3. by intros [|]. }
  destruct Ht as [Ep Hdone|Ep|r rt Ep Hen Hcn Hrg Hrl Hlr|r Ep Hx|r rt Ep Hr|r rt Ep|p' svc m ?? Eh ??|svc m w reply Eh Ed
    |rt reply Ep Eh|rt Ep|r i j rt reply d Ep Hx|r i j rt reply d Ep Hd Hl|r i j rt reply d Ep Hd|ms Ep|ms reply Ep
    |reply Ep Hrep|reply Ep Hrep]; try (rewrite Ep in Htr, Hok); simpl in *; try done.
  - congruence.
  - assert (r_servername rt = s) as Es by congruence. rewrite Es in Hrg. split_and!; congruence.
  - destruct Hx as [Hx|Hx]; [congruence|]. rewrite H2 in Hx. simpl in Hx. congruence.
  - destruct Htr as (_ & _ & ?). congruence.
  - destruct Htr as (-> & -> & ?). by rewrite Halive.
  - destruct d; [done|]. destruct Htr as (Es & Epp & Hr). rewrite Es, Epp, Halive in Hx.
    destruct Hx as [[_ Hx]|[Hx|Hx]]; congruence.
  - destruct Hok as [-> Hok]. by apply Hok.
  - destruct Hok as [-> Hok]. by apply Hok.
  - congruence.
Qed.

(** Undisturbed, a linked call stays on track. *)
Lemma undisturbed_call g0 pre g events g' cid c s p :
  fresh g0 → run gob g0 pre = Ret g → s_calls g !! cid = Some c → c_phase c = Sending →
  linked g (req_endname (c_req c)) s p →
  Forall (λ e, ¬ disturbs (req_endname (c_req c)) s e) events → run gob g events = Ret g' →
  linked g' (req_endname (c_req c)) s p ∧
  ∃ c', s_calls g' !! cid = Some c' ∧ c_req c' = c_req c ∧ on_track s p (c_phase c').
Proof.
  intros H0 E0 Ec Ep Hl Hall. revert g'. induction events as [|e events IH] using rev_ind; intros g' E.
  { injection E as <-. split; [done|]. exists c. by rewrite Ep. }
  apply Forall_app in Hall as [Hall [He _]%Forall_cons].
  rewrite run_snoc in E. apply bind_ret_inv in E as (g1 & E1 & E).
  destruct (IH Hall g1 E1) as (Hl1 & c1 & Ec1 & Hq1 & Htr1). split; [by eapply step_linked|].
  destruct (step_call gob g1 e g' cid E) as [[Esame _]|[(c0 & Ec0 & _)|(c0 & c' & Ec0 & _ & Ec' & Ht & Hq & _)]].
  - exists c1. by rewrite Esame.
  - congruence.
  - rewrite Ec1 in Ec0. injection Ec0 as <-. exists c'. split_and!; [done|congruence|].
    pose proof (run_handlers gob g0 (pre ++ events) g1 H0) as Hh.
    unfold run in Hh, E0, E1. rewrite foldM_app, E0 in Hh. specialize (Hh E1 cid). rewrite Ec1 in Hh.
    eapply trans_on_track; [done|by apply Hh|by rewrite Hq1|done].
Qed.

(** C19: on a reliable network, a call on an end that is enabled and connected
    to a registered server, and that nothing disconnects while it is in
    flight, never fails, in any interleaving with other calls and whatever
    delays apply: when it returns, it returns [true]. *)
Theorem reliable_call_succeeds g0 pre g events g' cid c s p :
  fresh g0 → run gob g0 pre = Ret g → s_calls g !! cid = Some c → c_phase c = Sending →
  linked g (req_endname (c_req c)) s p →
  Forall (λ e, ¬ disturbs (req_endname (c_req c)) s e) events → run gob g events = Ret g' →
  ∃ c', s_calls g' !! cid = Some c' ∧ c_phase c' ≠ Returned false ∧
    (∀ ok, c_phase c' = Returned ok → executions cid (pre ++ events) = 1%nat).
Proof.
  intros H0 E0 Ec Ep Hl Hall E.
  destruct (undisturbed_call _ _ _ _ _ _ _ _ _ H0 E0 Ec Ep Hl Hall E) as (_ & c' & Ec' & _ & Htr).
  exists c'. split; [done|]. split; [intros E'; by rewrite E' in Htr|].
  intros ok Eok. pose proof (run_handlers gob g0 (pre ++ events) g' H0) as Hh.
  unfold run in Hh, E0, E. rewrite foldM_app, E0 in Hh. specialize (Hh E cid). rewrite Ec' in Hh.
  destruct Hh as [[Hok _] ->]. rewrite Eok in Hok, Htr. destruct ok; [|done].
  by destruct (Hok eq_refl) as [reply ->].
Qed.

(** ** A call that is cut off *)

(** A call is never forgotten. *)
Lemma run_call_stays g events g' cid c :
  s_calls g !! cid = Some c → run gob g events = Ret g' → ∃ c', s_calls g' !! cid = Some c'.
Proof.
  intros Ec. revert g'. induction events as [|e events IH] using rev_ind; intros g' E; [injection E as <-; eauto|].
  rewrite run_snoc in E. apply bind_ret_inv in E as (g1 & E1 & E). destruct (IH g1 E1) as [c1 Ec1].
  destruct (step_call gob g1 e g' cid E) as [[Esame _]|[(c0 & Ec0 & _)|(c0 & c' & _ & _ & Ec' & _)]];
    [rewrite Esame; eauto|congruence|eauto].
Qed.

(** A call on a disabled end gets no positive reply under way. *)
Lemma trans_cut g cid c e ph h :
  trans gob g cid c e ph h → is_enabled (s_net g) (req_endname (c_req c)) = false →
  ¬ positive (c_phase c) → ¬ positive ph.
Proof.
  intros Ht Hoff Hpos. assert (∀ s p, isServerDead (s_net g) (req_endname (c_req c)) s p = true) as Hdead.
  { intros s p. unfold isServerDead. rewrite decide_True; [done|]. by left. }
  destruct Ht; simpl; try done; rewrite ?Hdead in *; try done.
  all: try (intros []; fail).
  - match goal with H : c_phase c = _ |- _ => rewrite H in Hpos end. by destruct Hpos.
  - match goal with H : c_phase c = _ |- _ => rewrite H in Hpos end. by destruct Hpos.
Qed.

Lemma step_still_off g e g' x : step gob g e = Ret g' → e ≠ EEnable x true →
  is_enabled (s_net g) x = false → is_enabled (s_net g') x = false.
Proof.
  unfold step. destruct (draws_ok e); [|done]. destruct (event_call e) as [cid|] eqn:He.
  - destruct (s_calls g !! cid) as [c|] eqn:Ec; [|done]. intros E _.
    destruct (call_step_trans gob g cid c e g' He E) as (c' & _ & _ & _ & (Ha & _) & _). by rewrite Ha.
  - intros E Hne Hoff. destruct e; try discriminate He; simpl in E; try (by injection E as <-).
    + unfold start_call in E. destruct (s_calls g !! cid); [done|].
      destruct (ends (s_net g) !! endname); [|done]. destruct (gob_encode gob args) as [bytes []]; [done|].
      by injection E as <-.
    + apply bind_ret_inv in E as (rn & Em & [= <-]). unfold MakeEnd in Em.
      destruct (ends (s_net g) !! endname); [done|]. injection Em as <-.
      unfold is_enabled in *. simpl. rewrite lookup_insert. by case_decide.
    + injection E as <-. unfold is_enabled in *. simpl. rewrite lookup_insert. case_decide; [|done].
      subst. simpl. destruct yes; [done|done].
    + apply bind_ret_inv in E as (rn & Em & [= <-]). unfold Cleanup in Em.
      destruct (net_done (s_net g)); [done|]. by injection Em as <-.
Qed.

Lemma cut_off_call g events g' cid c :
  s_calls g !! cid = Some c → ¬ positive (c_phase c) → is_enabled (s_net g) (req_endname (c_req c)) = false →
  Forall (λ e, e ≠ EEnable (req_endname (c_req c)) true) events → run gob g events = Ret g' →
  ∃ c', s_calls g' !! cid = Some c' ∧ ¬ positive (c_phase c').
Proof.
  intros Ec Hpos Hoff Hall E.
  enough (is_enabled (s_net g') (req_endname (c_req c)) = false ∧
    ∃ c', s_calls g' !! cid = Some c' ∧ c_req c' = c_req c ∧ ¬ positive (c_phase c')) as (_ & c' & ? & _ & ?) by eauto.
  revert g' E. induction events as [|e events IH] using rev_ind; intros g' E.
  { injection E as <-. split; [done|]. by exists c. }
  apply Forall_app in Hall as [Hall [He _]%Forall_cons].
  rewrite run_snoc in E. apply bind_ret_inv in E as (g1 & E1 & E).
  destruct (IH Hall g1 E1) as (Hoff1 & c1 & Ec1 & Hq1 & Hp1). split; [by eapply step_still_off|].
  destruct (step_call gob g1 e g' cid E) as [[Esame _]|[(c0 & Ec0 & _)|(c0 & c' & Ec0 & _ & Ec' & Ht & Hq & _)]].
  - exists c1. by rewrite Esame.
  - congruence.
  - rewrite Ec1 in Ec0. injection Ec0 as <-. exists c'. split_and!; [done|congruence|].
    eapply trans_cut; [done|by rewrite Hq1|done].
Qed.

(** ** Returning *)

(** A call has returned, or all it waits for is the handler of a server that
    is alive. *)
Definition settled g c : Prop :=
  (∃ ok, c_phase c = Returned ok) ∨
  ∃ rt, c_phase c = Waiting rt None false ∧ replied (c_handler c) = 0%nat ∧
    isServerDead (s_net g) (req_endname (c_req c)) (r_servername rt) (Some (r_server rt)) = false.

Definition settles g cid : Prop :=
  ∃ events, Forall (λ e, event_call e = Some cid ∧ e ≠ ELookup cid ∧ e ≠ EMethod cid) events ∧
    match run gob g events with
    | Ret g' => ∃ c', s_calls g' !! cid = Some c' ∧ settled g' c'
    | Panic p => p = Fatal "ClientEnd.Call(): decode reply"
    | OutOfFuel => False
    end.

Lemma settles_step g e g' cid : event_call e = Some cid → e ≠ ELookup cid → e ≠ EMethod cid →
  step gob g e = Ret g' → settles g' cid → settles g cid.
Proof.
  intros He H1 H2 E (events & Hall & Hrun). exists (e :: events).
  split; [by constructor|]. unfold run. simpl. by rewrite E.
Qed.

Lemma settles_now g cid c : s_calls g !! cid = Some c → settled g c → settles g cid.
Proof. intros Ec Hs. exists []. split; [constructor|]. by exists c. Qed.

Lemma step_of g cid c e : s_calls g !! cid = Some c → event_call e = Some cid → draws_ok e = true →
  step gob g e = call_step gob g cid c e.
Proof. intros Ec He Hd. unfold step. by rewrite Hd, He, Ec. Qed.

Lemma settles_replied g cid c reply :
  s_calls g !! cid = Some c → c_phase c = Replied reply → settles g cid.
Proof.
  intros Ec Ep. pose proof (step_of g cid c (EReturn cid) Ec eq_refl eq_refl) as E.
  unfold call_step in E. rewrite Ep in E. unfold return_call in E.
  destruct (rep_ok reply).
  - destruct (gob_decode gob (rep_reply reply) (c_reply c)) as [v []].
    + exists [EReturn cid]. split; [by repeat constructor|]. unfold run. simpl. by rewrite E.
    + eapply settles_step; [..|exact E|]; [done..|].
      eapply settles_now; [simpl; apply lookup_insert_eq|]. left. by eexists.
  - eapply settles_step; [..|exact E|]; [done..|].
    eapply settles_now; [simpl; apply lookup_insert_eq|]. left. by eexists.
Qed.

Lemma settles_fire g cid c : s_calls g !! cid = Some c →
  (∃ ms, c_phase c = NoReply ms) ∨ (∃ ms reply, c_phase c = Delayed ms reply) → settles g cid.
Proof.
  intros Ec Hp. pose proof (step_of g cid c (EFire cid) Ec eq_refl eq_refl) as E. unfold call_step in E.
  destruct Hp as [[ms Ep]|(ms & reply & Ep)]; rewrite Ep in E;
    (eapply settles_step; [..|exact E|]; [done..|]);
    (eapply settles_replied; [simpl; apply lookup_insert_eq|done]).
Qed.

Lemma settles_finish g cid c rt reply d : s_calls g !! cid = Some c →
  c_phase c = Waiting rt reply d → (reply = None → d = true) → settles g cid.
Proof.
  intros Ec Ep Hd. pose proof (step_of g cid c (EFinish cid 100 899 0) Ec eq_refl eq_refl) as E.
  assert (call_step gob g cid c (EFinish cid 100 899 0) = Ret (finish_req g cid c rt reply 100 899 0)) as E'.
  { unfold call_step. rewrite Ep. destruct reply; [done|]. by rewrite Hd. }
  rewrite E' in E. eapply settles_step; [..|exact E|]; [done..|]. unfold finish_req.
  destruct reply as [reply|]; [|eapply settles_replied; [simpl; apply lookup_insert_eq|done]].
  destruct (isServerDead _ _ _ _); [eapply settles_replied; [simpl; apply lookup_insert_eq|done]|].
  rewrite decide_False by (intros [_ ?]; done).
  rewrite decide_False by (intros [_ ?]; done).
  eapply settles_replied; [simpl; apply lookup_insert_eq|done].
Qed.

Lemma settles_waiting g cid c rt : s_calls g !! cid = Some c → c_phase c = Waiting rt None false → settles g cid.
Proof.
  intros Ec Ep. destruct (c_handler c) as [| | |reply] eqn:Eh.
  4: { pose proof (step_of g cid c (EReply cid) Ec eq_refl eq_refl) as E. unfold call_step in E.
       rewrite Ep, Eh in E. eapply settles_step; [..|exact E|]; [done..|].
       by eapply settles_finish; [simpl; apply lookup_insert_eq|done|]. }
  all: destruct (isServerDead (s_net g) (req_endname (c_req c)) (r_servername rt) (Some (r_server rt))) eqn:Ed.
  2,4,6: eapply settles_now; [done|]; right; exists rt; by rewrite Eh.
  all: pose proof (step_of g cid c (ETick cid) Ec eq_refl eq_refl) as E; unfold call_step in E; rewrite Ep in E;
    eapply settles_step; [..|exact E|]; [done..|]; rewrite Ed;
    by eapply settles_finish; [simpl; apply lookup_insert_eq|done|].
Qed.

Lemma settles_accept g cid c : s_calls g !! cid = Some c →
  c_phase c = Sending ∨ c_phase c = Accepted ∨ (∃ rt, c_phase c = Connected rt) → settles g cid.
Proof.
  assert (∀ g c, s_calls g !! cid = Some c → (∃ rt, c_phase c = Connected rt) → settles g cid) as Hconn.
  { intros g1 c1 Ec [rt Ep]. pose proof (step_of g1 cid c1 (EDispatch cid 100) Ec eq_refl eq_refl) as E.
    unfold call_step in E. rewrite Ep in E. unfold dispatch_or_drop in E.
    rewrite decide_False in E by (intros [_ ?]; done).
    eapply settles_step; [..|exact E|]; [done..|].
    by eapply settles_waiting; [simpl; apply lookup_insert_eq|]. }
  assert (∀ g c, s_calls g !! cid = Some c → c_phase c = Accepted → settles g cid) as Hacc.
  { intros g1 c1 Ec Ep. pose proof (step_of g1 cid c1 (ERead cid 0) Ec eq_refl eq_refl) as E.
    unfold call_step in E. rewrite Ep in E. unfold read_info in E.
    destruct (readEndnameInfo (s_net g1) (req_endname (c_req c1))) as [[[[en sn] sv] rl] lr].
    destruct en, sn, sv; (eapply settles_step; [..|exact E|]; [done..|]);
      first [ eapply Hconn; [simpl; apply lookup_insert_eq|by eexists]
            | eapply settles_fire; [simpl; apply lookup_insert_eq|left; by eexists] ]. }
  intros Ec [Ep|[Ep|Hp]]; [|by eapply Hacc|by eapply Hconn].
  pose proof (step_of g cid c (EAccept cid) Ec eq_refl eq_refl) as E. unfold call_step in E. rewrite Ep in E.
  eapply settles_step; [..|exact E|]; [done..|]. by eapply Hacc; [simpl; apply lookup_insert_eq|].
Qed.

(** C20: [Call] returns unless the handler does not: from any state, a call
    can be brought to its return by steps of its own goroutines other than the
    handler (timers, the accept loop, the reply), or else all it still waits
    for is a handler that has not replied on a server that is alive. The only
    failure on the way is a reply that does not decode. *)
Theorem call_returns_or_waits g cid c : s_calls g !! cid = Some c → settles g cid.
Proof.
  intros Ec. destruct (c_phase c) as [| |rt|ms|rt [reply|] d|ms reply|reply|ok] eqn:Ep.
  all: try (by eapply settles_finish). all: try (by eapply settles_replied).
  all: try (by eapply settles_fire; eauto).
  - apply (settles_accept g cid c); [done|by left].
  - apply (settles_accept g cid c); [done|right; by left].
  - apply (settles_accept g cid c); [done|right; right; by exists rt].
  - destruct d; [by eapply settles_finish|by eapply settles_waiting].
  - eapply settles_now; [done|]. left. by exists ok.
Qed.

(** [GetTotalCount] counts the requests the network has accepted, in an
    int32: it wraps around after 2^31 of them. *)
Lemma total_count_int32 events g g' :
  s_net g = MakeNetwork → run gob g events = Ret g' →
  GetTotalCount (s_net g') = int32 (Z.of_nat (List.length (List.filter is_accept events))).
Proof.
  intros H0. revert g'. induction events as [|e events IH] using rev_ind; intros g' E.
  { injection E as <-. by rewrite H0. }
  rewrite run_snoc in E. apply bind_ret_inv in E as (g1 & E1 & E). specialize (IH g1 E1).
  apply step_count in E. unfold GetTotalCount in *. rewrite E, List.filter_app, length_app. simpl.
  destruct (is_accept e); simpl.
  - rewrite IH. unfold int32. rewrite swrap_add by lia. f_equal. lia.
  - by rewrite Nat.add_0_r.
Qed.
End rpc.

(** ** A concrete network *)

(** Values are integers, a handler adds its argument to the world's counter. *)
Definition int_gob : Gob Z unit := mkGob (λ v, ([v], false)) (λ b v, (match b with [x] => x | _ => v end, false)) (λ _, 0).
Definition add_method : Method Z unit Z := mkMethod "Add" "" 3 true 0 tt (λ w a _, Ret (w + a, w + a)).
Definition adder : Service Z unit Z := MakeService "Adder" [add_method].
Definition start : state string Z unit Z :=
  mkState MakeNetwork {[ 0%nat := AddService MakeServer adder ]} ∅ 100.

Definition setup : list (event string Z unit) :=
  [EMakeEnd "e"; EAddServer "s" 0%nat; EConnect "e" "s"; EEnable "e" true;
   ECall 7%nat "e" "Adder.Add" tt 5 0].
Definition serve : list (event string Z unit) :=
  [EAccept 7%nat; ERead 7%nat 0; EDispatch 7%nat 0; ELookup 7%nat; EMethod 7%nat; EReply 7%nat].
Definition answer : list (event string Z unit) := [EFinish 7%nat 0 899 0; EReturn 7%nat].

Definition state_after (events : list (event string Z unit)) : state string Z unit Z :=
  match run int_gob start events with Ret g => g | _ => start end.
Definition call_after (events : list (event string Z unit)) : call string Z unit Z :=
  match s_calls (state_after events) !! 7%nat with
  | Some c => c | None => mkCall (mkReqMsg "" "" tt []) (Returned false) HIdle 0 end.

(** The adder's reply reaches the caller. *)
Example adder_returns : c_phase (call_after (setup ++ serve ++ answer)) = Returned true ∧
  c_reply (call_after (setup ++ serve ++ answer)) = 105 ∧
  GetCount (s_servers (state_after (setup ++ serve ++ answer)))
    (s_net (state_after (setup ++ serve ++ answer))) "s" = Ret 1.
Proof. vm_compute. repeat split. Qed.

Lemma dispatch_routes_witness :
  Server_lookup (AddService MakeServer adder) (mkReqMsg "e" "Adder.Add" tt [5]) =
    Ret (mkServer (services (AddService MakeServer adder)) 1, adder, "Add") ∧
  Service_dispatch int_gob adder "Add" (mkReqMsg "e" "Adder.Add" tt [5]) 100 = Ret (105, mkReplyMsg true [105]).
Proof.
  destruct (dispatch_routes (name := string) int_gob MakeServer "Adder" [add_method] add_method
    (mkReqMsg "e" "Adder.Add" tt [5]) "Add") as (Hfound & Hruns & _).
  - apply NoDup_singleton.
  - left.
  - reflexivity.
  - reflexivity.
  - split; [apply (Hfound eq_refl)|].
    destruct (Hruns eq_refl 100 5 false eq_refl) as [Hreply _]. apply (Hreply 105 105 eq_refl).
Defined.

Lemma rpc_at_most_once_witness : (executions 7 (setup ++ serve ++ answer) ≤ 1)%nat.
Proof.
  apply (rpc_at_most_once int_gob start _ (state_after (setup ++ serve ++ answer))); [reflexivity|].
  vm_compute. reflexivity.
Defined.

Lemma rpc_true_means_executed_witness :
  let c := call_after (setup ++ serve ++ answer) in
  executions 7 (setup ++ serve ++ answer) = 1%nat ∧
  ∃ endname meth ty args v0 reply,
    ECall 7%nat endname meth ty args v0 ∈ setup ++ serve ++ answer ∧
    gob_encode int_gob args = (req_args (c_req c), false) ∧ c_req c = mkReqMsg endname meth ty (req_args (c_req c)) ∧
    c_handler c = HReply reply ∧ acknowledged int_gob start (setup ++ serve ++ answer) 7 (c_req c) reply ∧
    gob_decode int_gob (rep_reply reply) v0 = (c_reply c, false).
Proof.
  apply (rpc_true_means_executed int_gob start _ (state_after (setup ++ serve ++ answer)));
    [reflexivity|vm_compute; reflexivity..].
Defined.

(** A reply that passed the check before the server was deleted, held back by
    long reordering, arrives after it. *)
Example late_reply_arrives :
  c_phase (call_after (ELongReordering true :: setup ++ serve ++
    [EFinish 7%nat 0 599 0; EDeleteServer "s"; EFire 7%nat; EReturn 7%nat])) = Returned true.
Proof. vm_compute. reflexivity. Qed.

(** The server is replaced while the handler's reply is on its way. *)
Lemma deleted_server_never_acknowledges_witness :
  ∃ c', s_calls (state_after (setup ++ serve ++ [EDeleteServer "s"] ++ answer)) !! 7%nat = Some c' ∧
    ¬ positive (c_phase c').
Proof.
  apply (deleted_server_never_acknowledges int_gob (state_after (setup ++ serve ++ [EDeleteServer "s"])) answer
    _ 7 (call_after (setup ++ serve ++ [EDeleteServer "s"])) (mkRoute "s" 0%nat true false)).
  - vm_compute. reflexivity.
  - right. eexists _, _. vm_compute. reflexivity.
  - vm_compute. discriminate.
  - repeat constructor; discriminate.
  - vm_compute. reflexivity.
Defined.

Lemma reliable_call_succeeds_witness :
  ∃ c', s_calls (state_after (setup ++ serve ++ answer)) !! 7%nat = Some c' ∧ c_phase c' ≠ Returned false ∧
    (∀ ok, c_phase c' = Returned ok → executions 7 (setup ++ serve ++ answer) = 1%nat).
Proof.
  apply (reliable_call_succeeds int_gob start setup (state_after setup) (serve ++ answer) _ 7
    (call_after setup) "s" 0%nat).
  - reflexivity.
  - vm_compute. reflexivity.
  - vm_compute. reflexivity.
  - vm_compute. reflexivity.
  - split; vm_compute; reflexivity.
  - repeat (constructor; [by intros []|]). constructor.
  - vm_compute. reflexivity.
Defined.

Lemma call_returns_or_waits_witness : settles int_gob (state_after setup) 7.
Proof. apply (call_returns_or_waits int_gob _ _ (call_after setup)). vm_compute. reflexivity. Defined.
