(* ===== verification/HarnessCalls.v ===== *)
(** The harness of the key/value service over the network: what [partition]
    means for the calls that servers and clerks make. *)
From Stdlib Require Import ZArith Lia.
From stdpp Require Import base gmap sets list strings.
From S2P Require Import Prelude Labrpc Persister Iface Tables Raft RaftConfig RaftNet KvConfig KvNet KvHarness KvPartition Calls CallsProof Rpc.

Section calls.
Context {S : Type} (svc : ServiceOps S).
Context {V rtype World : Type} (gob : Gob V rtype).
Abbreviation state := (Calls.state iface V rtype World).
Abbreviation event := (Calls.event iface V rtype).

(** The network of [g] is set up as [rn]: counters and delays apart. *)
Record set_up (rn : net) (g : state) : Prop := {
  su_enabled x : is_enabled (s_net g) x = is_enabled rn x;
  su_connection x : connection (s_net g) x = connection rn x;
  su_registered x : registered (s_net g) x = registered rn x;
  su_reliable : reliable (s_net g) = reliable rn;
  su_open : net_done (s_net g) = net_done rn
}.

(** Calls start, move and return; nothing is reconfigured. *)
Definition only_calls (e : event) : Prop :=
  match e with ECall _ _ _ _ _ _ => True | _ => event_call e ≠ None end.

Lemma only_calls_quiet (e : event) x s : only_calls e → ¬ disturbs x s e ∧ e ≠ EEnable x true.
Proof. destruct e; simpl; (split; [tauto|congruence]). Qed.

(** In a partition, servers of the same side and whoever a clerk was connected to. *)
Definition reaches (w : kvworld S) (p1 p2 : list Z) (o : owner) (j : Z) (e : string) : Prop :=
  match o with
  | inl i => (i ∈ p1 ∧ j ∈ p1) ∨ (i ∈ p2 ∧ j ∈ p2)
  | inr _ => is_enabled (kv_net (kw_cfg w)) (Str e) = true
  end.

(** C22: what a partition does to calls: in any state a test has reached,
    split by [make_partition] and [partition], let a server or a clerk start a
    call on its end for server [j], with any other calls going on and whatever
    is delayed. Across the two sides, or on a clerk's end that is disabled,
    the call never returns true; within a side, or on a clerk's end that is
    enabled, it never returns false when the network is reliable and [j] is
    running. *)
Theorem partition_decides_calls draws n unreliable maxraftstate now s w0 ops w p1 p2 w' cfg g0 pre g o j e cid c events g' :
  kv_make_config svc draws n unreliable maxraftstate now s = Ret w0 → foldM (kv_step svc) w0 ops = Ret w →
  3 ≤ n → Z.odd n = true → make_partition svc w = Ret (p1, p2, w') → partition (kw_cfg w') p1 p2 = Ret cfg →
  fresh g0 → run gob g0 pre = Ret g → set_up (kv_net cfg) g →
  end_of cfg o j = Ret e → s_calls g !! cid = Some c → c_phase c = Sending → req_endname (c_req c) = Str e →
  Forall only_calls events → run gob g events = Ret g' →
  ∃ c', s_calls g' !! cid = Some c' ∧
    (¬ reaches w p1 p2 o j e → c_phase c' ≠ Returned true) ∧
    (reaches w p1 p2 o j e → reliable (kv_net cfg) = true → net_done (kv_net cfg) = false →
     (∃ kv, (kv_kvservers (kw_cfg w)).[j] = Ret (Some kv)) → c_phase c' ≠ Returned false).
Proof.
  intros Hmk Hr Hn3 Hodd Hmp Hpart H0 Hpre [Hen Hcn Hrg Hrl Hop] He Ec Ep Hreq Hq Hrun.
  destruct (kv_run_wired _ _ _ _ _ _ _ _ _ _ Hmk Hr) as ([Hn Hrt] & Hrows & <-).
  destruct (make_partition_spec svc w p1 p2 w' Hn Hrows Hn3 Hodd Hmp) as (Ecfg & _ & _ & _ & Hall & rn & Hp & Hw & Hends & Hrest).
  rewrite Ecfg, Hp in Hpart. injection Hpart as <-. pose proof (named_wiring _ _ Hw Hn) as Hn'.
  assert (end_of (kw_cfg w) o j = Ret e) as He0 by exact He.
  assert (is_enabled rn (Str e) = true ↔ reaches w p1 p2 o j e) as Hreach.
  { destruct o as [i|ck]; simpl.
    - rewrite (Hends _ _ _ He0). unfold apart. destruct (kv_endname_in _ _ _ _ Hn He0) as [Hi Hj]. apply Hall in Hi, Hj. tauto.
    - apply Hrest. intros a b Hab. by destruct (nm_distinct _ Hn (inl a) b (inr ck) j e Hab He0). }
  simpl in Hen, Hcn, Hrg, Hrl, Hop.
  destruct (run_call_stays gob g events g' cid c Ec Hrun) as [c' Ec']. exists c'. split; [done|].
  rewrite <-Hreach. split.
  - intros Hoff%not_true_is_false Epos.
    destruct (cut_off_call gob g events g' cid c Ec) as (c2 & Ec2 & Hpos); [rewrite Ep; by intros []|by rewrite Hreq, Hen| |done|].
    { eapply Forall_impl; [exact Hq|]. intros x Hx. exact (proj2 (only_calls_quiet x _ (Int j) Hx)). }
    replace c2 with c' in Hpos by congruence. by rewrite Epos in Hpos.
  - intros Hon Hrel Hopen [kv Hkv].
    assert (kv_in (kw_cfg w) j) as Hj.
    { destruct o as [i|ck]; [by apply (kv_endname_in _ _ _ _ Hn He0)|].
      simpl in He0. destruct (kv_clerks (kw_cfg w) !! ck) as [row|] eqn:Hck; apply go_index_lt in He0; simpl in He0; [|lia].
      rewrite (nm_clerks _ Hn _ _ Hck) in He0. unfold kv_in. lia. }
    pose proof (Hrt j Hj) as Hj'. unfold kv_routed in Hj'. rewrite Hkv in Hj'. destruct Hj' as (p & Hreg & _).
    assert (linked g (req_endname (c_req c)) (Int j) p) as Hl.
    { rewrite Hreq. split; [by rewrite Hen|rewrite Hcn; by apply (nm_leads _ Hn' o j e He)| |by rewrite Hrl|by rewrite Hop].
      rewrite Hrg. unfold registered in *. destruct Hw as (_ & -> & _). done. }
    destruct (undisturbed_call gob g0 pre g events g' cid c (Int j) p H0 Hpre Ec Ep Hl) as (_ & c2 & Ec2 & _ & Htr);
      [|done|].
    { eapply Forall_impl; [exact Hq|]. intros x Hx. exact (proj1 (only_calls_quiet x _ (Int j) Hx)). }
    replace c2 with c' in Htr by congruence. intros Efalse. by rewrite Efalse in Htr.
Qed.
End calls.

(** ** A sample *)

(** The three servers of KvPartition.v, split into 1, 2 and 0; server 1 calls
    server 0. *)
Definition cut_cfg : kvconfig := get (partition (kw_cfg split_kv.2) [1; 2] [0]) (kw_cfg no_kv_world).
Definition across : string := get (kv_endname cut_cfg 1 0) "".
Definition cut_start : Calls.state iface Z unit Z := mkState (kv_net cut_cfg) ∅ ∅ 0.
Definition cut_call : Calls.event iface Z unit := ECall 0%nat (Str across) "KVServer.Get" tt 5 0.
Definition cut_called : Calls.state iface Z unit Z :=
  with_call cut_start 0 (mkCall (mkReqMsg (Str across) "KVServer.Get" tt [5]) Sending HIdle 0).
Definition cut_events : list (Calls.event iface Z unit) := [EAccept 0%nat; ERead 0%nat 0; EFire 0%nat; EReturn 0%nat].
Definition cut_end : Calls.state iface Z unit Z := get (run int_gob cut_called cut_events) cut_start.

Lemma cut_cfg_ret : partition (kw_cfg split_kv.2) [1; 2] [0] = Ret cut_cfg.
Proof. apply get_ret. vm_compute. reflexivity. Qed.
Lemma across_ret : end_of cut_cfg (inl 1) 0 = Ret across.
Proof. apply get_ret. vm_compute. reflexivity. Qed.
Lemma across_end : is_Some (ends (kv_net cut_cfg) !! Str across).
Proof. apply (bool_decide_unpack _). vm_compute. exact I. Qed.
Lemma cut_end_ret : run int_gob cut_called cut_events = Ret cut_end.
Proof. apply get_ret. vm_compute. reflexivity. Qed.
Lemma cut_split : make_partition kv_skeleton restarted_kv = Ret ([1; 2], [0], split_kv.2).
Proof.
  assert (split_kv.1 = ([1; 2], [0])) as <- by (vm_compute; reflexivity).
  rewrite <-surjective_pairing. exact split_kv_ret.
Qed.
#[local] Opaque three_kv restarted_kv split_kv cut_cfg across cut_end.

Lemma cut_called_ret : run int_gob cut_start [cut_call] = Ret cut_called.
Proof.
  destruct across_end as [x Hx]. unfold run, step, cut_call. cbn [foldM draws_ok event_call net_step].
  unfold start_call. cbn [s_calls cut_start s_net]. rewrite lookup_empty, Hx. reflexivity.
Qed.

Lemma apart_sides : ¬ ((1 ∈ [1; 2] ∧ 0 ∈ [1; 2]) ∨ (1 ∈ [0] ∧ 0 ∈ [0])).
Proof. apply (bool_decide_unpack _). vm_compute. exact I. Qed.

Lemma partition_decides_calls_witness :
  ∃ c', s_calls cut_end !! 0%nat = Some c' ∧ c_phase c' ≠ Returned true.
Proof.
  destruct (partition_decides_calls kv_skeleton int_gob _ _ _ _ _ _ _ _ _ [1; 2] [0] split_kv.2 cut_cfg cut_start [cut_call]
    cut_called (inl 1) 0 across 0 (mkCall (mkReqMsg (Str across) "KVServer.Get" tt [5]) Sending HIdle 0) cut_events cut_end
    three_kv_ret restarted_kv_ret) as (c' & Hc' & Hcut & _).
  - lia.
  - reflexivity.
  - exact cut_split.
  - exact cut_cfg_ret.
  - reflexivity.
  - exact cut_called_ret.
  - split; reflexivity.
  - exact across_ret.
  - reflexivity.
  - reflexivity.
  - reflexivity.
  - repeat constructor; discriminate.
  - exact cut_end_ret.
  - exists c'. split; [exact Hc'|]. apply Hcut. exact apart_sides.
Defined.
