(* ===== verification/ClerkNet.v ===== *)
(** The clerks on the simulated network: the environment of Clerks.v built
    from the calls of Calls.v.

    A clerk's call is one of the concurrent calls of the network. While it
    waits, a script decides what happens: steps of this and other calls,
    drops, delays, crashes, reconfigurations. *)
From Stdlib Require Import ZArith Lia Ascii.
From stdpp Require Import base gmap list strings.
From S2P Require Import Prelude Labrpc Calls CallsProof Clerks ClerksProof Rpc.

(** How a kind of message is put into gob's values: the type of its arguments,
    the arguments, a zero reply, and the reply read back. *)
Record Message (V rtype A R : Type) := mkMessage {
  msg_type : rtype;
  msg_args : A → V;
  msg_zero : V;
  msg_reply : V → R
}.
Arguments mkMessage {V rtype A R}.
Arguments msg_type {V rtype A R}.
Arguments msg_args {V rtype A R}.
Arguments msg_zero {V rtype A R}.
Arguments msg_reply {V rtype A R}.

Class Messages (V rtype : Type) := {
  m_Query : Message V rtype QueryArgs QueryReply;
  m_Join : Message V rtype JoinArgs JoinReply;
  m_Leave : Message V rtype LeaveArgs LeaveReply;
  m_Move : Message V rtype MoveArgs MoveReply;
  m_Get : Message V rtype GetArgs GetReply;
  m_PutAppend : Message V rtype PutAppendArgs PutAppendReply
}.

Section clerknet.
Context {name : Type} `{Countable name} (end_name : string → name).
Context {V rtype World : Type} (gob : Gob V rtype) `{Messages V rtype}.
Abbreviation call := (call name V rtype World).
Abbreviation state := (state name V rtype World).
Abbreviation event := (event name V rtype).

(** The network, what has happened on it, and what is going to. *)
Record networld := mkNetWorld {
  nw_state : state;
  nw_past : list event;
  nw_script : list event
}.

(** Wait for the call [cid], while the script goes on. *)
Fixpoint wait_call (cid : nat) (g : state) (past script : list event) : result (bool * V * networld) :=
  match s_calls g !! cid with
  | Some c =>
      match c_phase c with
      | Returned ok => Ret (ok, c_reply c, mkNetWorld g past script)
      | _ =>
          match script with
          | [] => blocked
          | e :: script => g ← step gob g e; wait_call cid g (past ++ [e]) script
          end
      end
  | None => blocked
  end.

(** [var reply R; ok := srv.Call(meth, &args, &reply)] *)
Definition rpc {A R} (m : Message V rtype A R) (meth srv : string) (args : A) (w : networld) : result (bool * R * networld) :=
  let cid := base.fresh (dom (s_calls (nw_state w))) in
  let e := ECall cid (end_name srv) meth (msg_type m) (msg_args m args) (msg_zero m) in
  g ← step gob (nw_state w) e;
  '(ok, v, w) ← wait_call cid g (nw_past w ++ [e]) (nw_script w);
  Ret (ok, msg_reply m v, w).

(** What happens during a pause may as well happen once the next call has
    started and waits to be accepted. *)
#[export] Instance net_clerk : ClerkEnv networld := {|
  call_Query srv args := rpc m_Query "ShardCtrler.Query" srv args;
  call_Join srv args := rpc m_Join "ShardCtrler.Join" srv args;
  call_Leave srv args := rpc m_Leave "ShardCtrler.Leave" srv args;
  call_Move srv args := rpc m_Move "ShardCtrler.Move" srv args;
  call_Get srv args := rpc m_Get "ShardKV.Get" srv args;
  call_PutAppend srv args := rpc m_PutAppend "ShardKV.PutAppend" srv args;
  clerk_sleep _ w := w
|}.

(** The harness's [make_end]: a new end, connected to the server and enabled. *)
Definition net_make_end (draw : networld → string) (servername : string) (w : networld) : result (string * networld) :=
  let e := draw w in
  let events := [EMakeEnd (end_name e); EConnect (end_name e) (end_name servername); EEnable (end_name e) true] in
  g ← run gob (nw_state w) events;
  Ret (e, mkNetWorld g (nw_past w ++ events) (nw_script w)).

(** ** Worlds that the network can be in *)

Section proofs.
Context (g0 : state) (Hfresh : fresh g0).
Implicit Types (g : state) (c : call) (e : event) (cid : nat).

Definition happened (w : networld) : Prop := run gob g0 (nw_past w) = Ret (nw_state w).

(** A call of [meth] with [args] on the end [srv] was executed, exactly once;
    its reply was let through while the end was enabled and the server that
    executed it registered, and [reply] is what decoding it gave. *)
Definition served {A R} (m : Message V rtype A R) (meth srv : string) (args : A) (reply : R) (w : networld) : Prop :=
  ∃ cid c rep v,
    s_calls (nw_state w) !! cid = Some c ∧ c_phase c = Returned true ∧
    c_req c = mkReqMsg (end_name srv) meth (msg_type m) (gob_encode gob (msg_args m args)).1 ∧
    executions cid (nw_past w) = 1%nat ∧ c_handler c = HReply rep ∧ acknowledged gob g0 (nw_past w) cid (c_req c) rep ∧
    gob_decode gob (rep_reply rep) (msg_zero m) = (v, false) ∧ reply = msg_reply m v.

Lemma step_keeps g past e g' cid c req v0 :
  run gob g0 past = Ret g → step gob g e = Ret g' → s_calls g !! cid = Some c → holds gob c req v0 →
  ∃ c', s_calls g' !! cid = Some c' ∧ holds gob c' req v0.
Proof.
  intros Hrun E Ec Hh. pose proof (run_handlers gob g0 past g Hfresh Hrun cid) as Hok. rewrite Ec in Hok.
  assert (∃ c', s_calls g' !! cid = Some c') as [c' Ec'].
  { destruct (step_call gob g e g' cid E) as [[Esame _]|[(c0 & Ec0 & _)|(c0 & c1 & _ & _ & Ec1 & _)]]; [|congruence|eauto].
    rewrite Esame. eauto. }
  exists c'. split; [done|]. eapply step_holds; [exact E|exact Ec|apply Hok|done|done].
Qed.

(** Waiting for a call keeps the past true, and ends when it has returned. *)
Lemma wait_call_ret cid g past script c req v0 ok v w :
  run gob g0 past = Ret g → s_calls g !! cid = Some c → holds gob c req v0 →
  wait_call cid g past script = Ret (ok, v, w) →
  happened w ∧ ∃ c', s_calls (nw_state w) !! cid = Some c' ∧ c_phase c' = Returned ok ∧ c_reply c' = v ∧ holds gob c' req v0.
Proof.
  revert g past c. induction script as [|e script IH]; intros g past c Hrun Ec Hh Hw; cbn [wait_call] in Hw; rewrite Ec in Hw.
  { destruct (c_phase c) eqn:Ep; try done. injection Hw as <- <- <-. split; [done|]. by exists c. }
  destruct (c_phase c) eqn:Ep; [..|injection Hw as <- <- <-; split; [done|by exists c]].
  all: apply bind_ret_inv in Hw as (g' & E & Hw); destruct (step_keeps _ _ _ _ _ _ _ _ Hrun E Ec Hh) as (c' & Ec' & Hh').
  all: eapply IH; [|exact Ec'|exact Hh'|exact Hw]; by rewrite run_snoc, Hrun.
Qed.

(** A call keeps the past true, and one that returns true was served. *)
Lemma rpc_ret {A R} (m : Message V rtype A R) meth srv args w ok r w' :
  happened w → rpc m meth srv args w = Ret (ok, r, w') → happened w' ∧ (ok = true → served m meth srv args r w').
Proof.
  unfold rpc. intros Hw Hr. set (cid := base.fresh (dom (s_calls (nw_state w)))) in *.
  apply bind_ret_inv in Hr as (g & E & Hr). apply bind_ret_inv in Hr as ([[ok' v] w1] & Hwait & [= <- <- <-]).
  assert (run gob g0 (nw_past w ++ [ECall cid (end_name srv) meth (msg_type m) (msg_args m args) (msg_zero m)]) = Ret g) as Hrun.
  { rewrite run_snoc. unfold happened in Hw. by rewrite Hw. }
  simpl in E. unfold step in E. simpl in E. unfold start_call in E.
  assert (s_calls (nw_state w) !! cid = None) as Hnone by (apply not_elem_of_dom, is_fresh). rewrite Hnone in E.
  destruct (ends (s_net (nw_state w)) !! end_name srv); [|done].
  destruct (gob_encode gob (msg_args m args)) as [bytes []] eqn:Eenc; [done|]. injection E as <-.
  destruct (wait_call_ret cid _ _ _ _ (mkReqMsg (end_name srv) meth (msg_type m) bytes) (msg_zero m) _ _ _ Hrun
    (lookup_insert_eq _ _ _) (conj eq_refl eq_refl) Hwait) as (Hw1 & c & Ec & Ep & Ev & Hreq & Hrep).
  split; [done|]. intros ->. rewrite Ep in Hrep. destruct Hrep as (rep & Eh & Hd).
  destruct (run_positive gob g0 (nw_past w1) (nw_state w1) cid c Hfresh Hw1 Ec) as (rep' & Eh' & Hack); [by rewrite Ep|].
  assert (rep' = rep) as -> by congruence.
  pose proof (run_handlers gob g0 _ _ Hfresh Hw1 cid) as Hh. rewrite Ec, Eh in Hh. destruct Hh as [_ Hex].
  exists cid, c, rep, v. rewrite Eenc, <-Ev. by split_and!.
Qed.

Lemma net_make_end_ret draw servername w srv w' :
  happened w → net_make_end draw servername w = Ret (srv, w') → happened w'.
Proof.
  unfold net_make_end. intros Hw Hr. apply bind_ret_inv in Hr as (g & E & [= <- <-]).
  unfold happened, run in *. simpl. rewrite foldM_app, Hw. exact E.
Qed.

(** ** What has returned stays *)

(** The calls that have returned true in [g] are the same in [g']. *)
Definition later g g' : Prop := ∀ cid c, s_calls g !! cid = Some c → c_phase c = Returned true → s_calls g' !! cid = Some c.

Lemma step_later past g e g' : run gob g0 past = Ret g → step gob g e = Ret g' → later g g'.
Proof.
  intros Hrun E cid c Ec Ep. pose proof (run_handlers gob g0 past g Hfresh Hrun cid) as Hok. rewrite Ec in Hok.
  destruct (step_call gob g e g' cid E) as [[Esame _]|[(c0 & Ec0 & _)|(c0 & c1 & Ec0 & _ & _ & Ht & _)]]; [congruence..|].
  assert (c0 = c) as -> by congruence. by destruct (returned_done gob _ _ _ _ _ _ (proj1 Hok) Ep Ht).
Qed.

Lemma run_later past g events g' : run gob g0 past = Ret g → run gob g events = Ret g' → later g g'.
Proof.
  revert past g. induction events as [|e events IH]; intros past g Hrun E; [by injection E as <-; intros ? ?|].
  apply bind_ret_inv in E as (g1 & E1 & E). intros cid c Ec Ep.
  eapply IH; [by rewrite run_snoc, Hrun|exact E|eapply step_later; [exact Hrun|exact E1|exact Ec|exact Ep]|exact Ep].
Qed.

(** Waiting runs events. *)
Lemma wait_call_run cid g past script ok v w : wait_call cid g past script = Ret (ok, v, w) →
  ∃ events, nw_past w = past ++ events ∧ run gob g events = Ret (nw_state w).
Proof.
  revert g past. induction script as [|e script IH]; intros g past Hw; cbn [wait_call] in Hw;
    (destruct (s_calls g !! cid) as [c|]; [|done]).
  { destruct (c_phase c); try done. injection Hw as <- <- <-. exists []. by rewrite app_nil_r. }
  destruct (c_phase c); [..|injection Hw as <- <- <-; exists []; by rewrite app_nil_r].
  all: apply bind_ret_inv in Hw as (g' & E & (events & Hp & Hr)%IH); exists (e :: events).
  all: split; [by rewrite Hp, <-app_assoc|]; unfold run in *; cbn [foldM]; by rewrite E.
Qed.

(** So does a call, and the making of an end. *)
Lemma rpc_later {A R} (m : Message V rtype A R) meth srv args w ok r w' :
  happened w → rpc m meth srv args w = Ret (ok, r, w') → later (nw_state w) (nw_state w').
Proof.
  unfold rpc. intros Hw Hr. apply bind_ret_inv in Hr as (g & E & Hr).
  apply bind_ret_inv in Hr as ([[ok' v] w1] & (events & _ & Hrun)%wait_call_run & [= <- <- <-]).
  eapply run_later with (events := _ :: events); [exact Hw|]. unfold run in *. cbn [foldM]. by rewrite E.
Qed.

Lemma net_make_end_later draw servername w srv w' :
  happened w → net_make_end draw servername w = Ret (srv, w') → later (nw_state w) (nw_state w').
Proof. unfold net_make_end. intros Hw Hr. apply bind_ret_inv in Hr as (g & E & [= <- <-]). by eapply run_later. Qed.

(** A call that was served remains so. *)
Lemma served_later {A R} (m : Message V rtype A R) meth srv args reply w w' :
  happened w' → later (nw_state w) (nw_state w') → served m meth srv args reply w → served m meth srv args reply w'.
Proof.
  intros Hw' Hl (cid & c & rep & v & Ec & Ep & Ereq & _ & Eh & _ & Hd & Hv).
  pose proof (Hl cid c Ec Ep) as Ec'. pose proof (run_handlers gob g0 _ _ Hfresh Hw' cid) as Hh.
  rewrite Ec', Eh in Hh. destruct Hh as [_ Hex].
  destruct (run_positive gob g0 (nw_past w') (nw_state w') cid c Hfresh Hw' Ec') as (rep' & Eh' & Hack); [by rewrite Ep|].
  assert (rep' = rep) as -> by congruence. exists cid, c, rep, v. by split_and!.
Qed.

(** ** The clerks *)

Lemma sleep_keeps d w : happened w → happened (clerk_sleep d w).
Proof. done. Qed.

Lemma rpc_keeps {A R} (m : Message V rtype A R) meth args : keeps happened (λ srv, rpc m meth srv args).
Proof. intros srv w ok r w' Hw Hr. by eapply rpc_ret. Qed.

Lemma answered_served {A R} (m : Message V rtype A R) meth args servers reply w' :
  answered happened (λ srv, rpc m meth srv args) servers reply w' → ∃ srv, srv ∈ servers ∧ served m meth srv args reply w'.
Proof.
  intros (srv & w1 & Hin & Hw & Hc). exists srv. split; [done|]. by eapply rpc_ret.
Qed.

Lemma ask_served {A R} (m : Message V rtype A R) meth args wrongLeader fuel servers w reply w' :
  happened w → ask (λ srv, rpc m meth srv args) wrongLeader fuel servers w = Ret (reply, w') →
  happened w' ∧ wrongLeader reply = false ∧ ∃ srv, srv ∈ servers ∧ served m meth srv args reply w'.
Proof.
  intros Hw Hr. destruct (ask_kept happened sleep_keeps _ (rpc_keeps m meth args) _ _ _ _ _ _ Hw Hr) as (? & Ha & ?).
  split_and!; [done..|]. by apply answered_served.
Qed.

(** Where the config [conf] of a clerk comes from: it is [old], or a controller
    that said it was the leader sent it, in reply to a call that was served. *)
Definition sourced (ctrlers : list string) (old conf : Config) (w : networld) : Prop :=
  conf = old ∨ ∃ srv reply, srv ∈ ctrlers ∧ served m_Query "ShardCtrler.Query" srv (mkQueryArgs (-1)) reply w ∧
    qr_WrongLeader reply = false ∧ conf = qr_Config reply.
Definition sourced_now ctrlers old conf w : Prop := happened w ∧ sourced ctrlers old conf w.

Lemma sourced_later ctrlers old conf w w' :
  happened w' → later (nw_state w) (nw_state w') → sourced ctrlers old conf w → sourced ctrlers old conf w'.
Proof.
  intros Hw' Hl [->|(srv & reply & ? & Hs & ? & ?)]; [by left|]. right. exists srv, reply.
  split_and!; [done|by eapply served_later|done..].
Qed.

Lemma rpc_sourced {A R} (m : Message V rtype A R) meth args ctrlers old conf :
  keeps (sourced_now ctrlers old conf) (λ srv, rpc m meth srv args).
Proof.
  intros srv w ok r w' [Hw Hs] Hr. destruct (rpc_ret m _ _ _ _ _ _ _ Hw Hr) as [Hw' _]. split; [done|].
  eapply sourced_later, Hs; [done|by eapply rpc_later].
Qed.

Lemma sleep_sourced ctrlers old conf d w : sourced_now ctrlers old conf w → sourced_now ctrlers old conf (clerk_sleep d w).
Proof. done. Qed.

Lemma make_end_sourced draw ctrlers old conf servername w srv w' :
  sourced_now ctrlers old conf w → net_make_end draw servername w = Ret (srv, w') → sourced_now ctrlers old conf w'.
Proof.
  intros [Hw Hs] Hm. pose proof (net_make_end_ret _ _ _ _ _ Hw Hm) as Hw'. split; [done|].
  eapply sourced_later, Hs; [done|by eapply net_make_end_later].
Qed.

Lemma query_sourced ctrlers old conf reply w' :
  answered (sourced_now ctrlers old conf) (λ srv, rpc m_Query "ShardCtrler.Query" srv (mkQueryArgs (-1))) ctrlers reply w' →
  qr_WrongLeader reply = false → sourced_now ctrlers old (qr_Config reply) w'.
Proof.
  intros (srv & w1 & Hin & [Hw1 _] & Hq) Hl. destruct (rpc_ret m_Query _ _ _ _ _ _ _ Hw1 Hq) as [Hw Hsv].
  split; [done|]. right. exists srv, reply. split_and!; [done|by apply Hsv|done..].
Qed.

Lemma group_served {A R} (m : Message V rtype A R) meth args err done draw fuel qfuel ck key w reply ck' w' :
  kc_make_end ck = net_make_end draw → happened w →
  ask_shard (λ srv, rpc m meth srv args) err done fuel qfuel ck key w = Ret (reply, ck', w') →
  happened w' ∧ sourced (ck_servers (kc_sm ck)) (kc_config ck) (kc_config ck') w' ∧ done (err reply) = true ∧
  ∃ gid servers name srv w1 w2,
    (Shards (kc_config ck')).[key2shard key] = Ret gid ∧ Groups (kc_config ck') !! gid = Some servers ∧ name ∈ servers ∧
    net_make_end draw name w1 = Ret (srv, w2) ∧ served m meth srv args reply w'.
Proof.
  intros Hmk Hw Hr.
  destruct (ask_shard_kept (sourced_now (ck_servers (kc_sm ck)) (kc_config ck)) (sleep_sourced _ _) _
    (rpc_sourced m meth args _ _) err done (net_make_end draw) (make_end_sourced draw _ _)
    (λ conf num, rpc_sourced m_Query "ShardCtrler.Query" (mkQueryArgs num) _ _ conf) _ (query_sourced _ _)
    _ _ _ _ _ _ _ _ Hmk eq_refl (conj Hw (or_introl eq_refl)) Hr)
    as ([Hw' Hs] & gid & servers & nm & Hg & Hsv & Hin & (srv & w1 & w2 & _ & Hmake & [Hw2 _] & Hc) & Hd).
  split_and!; [by trivial..|]. exists gid, servers, nm, srv, w1, w2. split_and!; [by trivial..|]. by eapply rpc_ret.
Qed.

(** C21: the clerks on the network, whatever it does to their messages: what
    Query returns was in the reply of a controller that said it was the
    leader, and Join, Leave and Move return only after such a reply; the value
    of a Get, and the success of a Put or Append, came from a server of the
    group that the clerk's config gives the key, on an end made for it, and
    that config is the one it had or came in the reply of a leader. The call
    that brought a reply was executed exactly once, by a server that
    was registered after the execution, when the reply was let through; and no
    call, of this clerk or another, was executed twice. *)
Theorem net_clerks_served fuel qfuel w :
  happened w →
  (∀ w', happened w' → ∀ cid, (executions cid (nw_past w') ≤ 1)%nat) ∧
  (∀ ck num config w', Query fuel ck num w = Ret (config, w') → happened w' ∧ ∃ srv reply, srv ∈ ck_servers ck ∧
     served m_Query "ShardCtrler.Query" srv (mkQueryArgs num) reply w' ∧ qr_WrongLeader reply = false ∧ config = qr_Config reply) ∧
  (∀ ck groups w', Join fuel ck groups w = Ret w' → happened w' ∧ ∃ srv reply, srv ∈ ck_servers ck ∧
     served m_Join "ShardCtrler.Join" srv (mkJoinArgs groups) reply w' ∧ jr_WrongLeader reply = false) ∧
  (∀ ck gids w', Leave fuel ck gids w = Ret w' → happened w' ∧ ∃ srv reply, srv ∈ ck_servers ck ∧
     served m_Leave "ShardCtrler.Leave" srv (mkLeaveArgs gids) reply w' ∧ lr_WrongLeader reply = false) ∧
  (∀ ck shard gid w', Move fuel ck shard gid w = Ret w' → happened w' ∧ ∃ srv reply, srv ∈ ck_servers ck ∧
     served m_Move "ShardCtrler.Move" srv (mkMoveArgs shard gid) reply w' ∧ mr_WrongLeader reply = false) ∧
  (∀ draw ck key v ck' w', kc_make_end ck = net_make_end draw → Get fuel qfuel ck key w = Ret (v, ck', w') →
     happened w' ∧ sourced (ck_servers (kc_sm ck)) (kc_config ck) (kc_config ck') w' ∧
     ∃ gid servers name srv w1 w2 reply,
       (Shards (kc_config ck')).[key2shard key] = Ret gid ∧ Groups (kc_config ck') !! gid = Some servers ∧ name ∈ servers ∧
       net_make_end draw name w1 = Ret (srv, w2) ∧ served m_Get "ShardKV.Get" srv (mkGetArgs key) reply w' ∧
       (gr_Err reply = OK ∨ gr_Err reply = ErrNoKey) ∧ v = gr_Value reply) ∧
  (∀ draw ck key value op ck' w', kc_make_end ck = net_make_end draw →
     PutAppend fuel qfuel ck key value op w = Ret (ck', w') →
     happened w' ∧ sourced (ck_servers (kc_sm ck)) (kc_config ck) (kc_config ck') w' ∧
     ∃ gid servers name srv w1 w2 reply,
       (Shards (kc_config ck')).[key2shard key] = Ret gid ∧ Groups (kc_config ck') !! gid = Some servers ∧ name ∈ servers ∧
       net_make_end draw name w1 = Ret (srv, w2) ∧
       served m_PutAppend "ShardKV.PutAppend" srv (mkPutAppendArgs key value op) reply w' ∧ pr_Err reply = OK).
Proof.
  intros Hw. split_and!.
  - intros w' Hw' cid. pose proof (run_handlers gob g0 _ _ Hfresh Hw' cid) as Hh.
    destruct (s_calls (nw_state w') !! cid) as [c|]; [|lia]. destruct Hh as [_ ->]. destruct (c_handler c); simpl; lia.
  - intros ck num config w' Hr. unfold Query in Hr. inv_ret. destruct x as [reply w1]. simplify_eq.
    destruct (ask_served _ _ _ _ _ _ _ _ _ Hw E) as (? & ? & srv & ? & ?). split; [done|]. by exists srv, reply.
  - intros ck groups w' Hr. unfold Join in Hr. inv_ret. destruct x as [reply w1]. simplify_eq.
    destruct (ask_served _ _ _ _ _ _ _ _ _ Hw E) as (? & ? & srv & ? & ?). split; [done|]. by exists srv, reply.
  - intros ck gids w' Hr. unfold Leave in Hr. inv_ret. destruct x as [reply w1]. simplify_eq.
    destruct (ask_served _ _ _ _ _ _ _ _ _ Hw E) as (? & ? & srv & ? & ?). split; [done|]. by exists srv, reply.
  - intros ck shard gid w' Hr. unfold Move in Hr. inv_ret. destruct x as [reply w1]. simplify_eq.
    destruct (ask_served _ _ _ _ _ _ _ _ _ Hw E) as (? & ? & srv & ? & ?). split; [done|]. by exists srv, reply.
  - intros draw ck key v ck' w' Hmk Hr. unfold Get in Hr. inv_ret. destruct x as [[reply ck1] w1]. simplify_eq.
    destruct (group_served _ _ _ _ _ _ _ _ _ _ _ _ _ _ Hmk Hw E) as (? & ? & Hd & gid & servers & nm & srv & u1 & u2 & ? & ? & ? & ? & ?).
    apply orb_true_iff in Hd. rewrite !bool_decide_eq_true in Hd.
    split_and!; [done..|]. by exists gid, servers, nm, srv, u1, u2, reply.
  - intros draw ck key value op ck' w' Hmk Hr. unfold PutAppend in Hr. inv_ret. destruct x as [[reply ck1] w1]. simplify_eq.
    destruct (group_served _ _ _ _ _ _ _ _ _ _ _ _ _ _ Hmk Hw E) as (? & ? & Hd & gid & servers & nm & srv & u1 & u2 & ? & ? & ? & ? & ?).
    apply bool_decide_eq_true in Hd. split_and!; [done..|]. by exists gid, servers, nm, srv, u1, u2, reply.
Qed.
End proofs.
End clerknet.

(** ** A sample *)

(** One controller that answers with config number [num + 1]; replies carry
    the number alone. *)
#[local] Instance int_messages : Messages Z unit := {|
  m_Query := mkMessage tt qa_Num 0 (λ v, mkQueryReply false OK (mkConfig v [] ∅));
  m_Join := mkMessage tt (λ _, 0) 0 (λ _, mkJoinReply false OK);
  m_Leave := mkMessage tt (λ _, 0) 0 (λ _, mkLeaveReply false OK);
  m_Move := mkMessage tt (λ _, 0) 0 (λ _, mkMoveReply false OK);
  m_Get := mkMessage tt (λ _, 0) 0 (λ _, mkGetReply OK "");
  m_PutAppend := mkMessage tt (λ _, 0) 0 (λ _, mkPutAppendReply OK)
|}.

Definition query_method : Method Z unit Z := mkMethod "Query" "" 3 true 0 tt (λ w a _, Ret (w, a + 1)).
Definition controller : Service Z unit Z := MakeService "ShardCtrler" [query_method].
Definition idle : state string Z unit Z := mkState MakeNetwork {[0%nat := AddService MakeServer controller]} ∅ 0.

(** Two ends: "a" leads nowhere, "b" to the controller. *)
Definition wiring : list (event string Z unit) :=
  [EMakeEnd "a"; EMakeEnd "b"; EAddServer "s" 0%nat; EConnect "b" "s"; EEnable "b" true].
Definition wired_state : state string Z unit Z :=
  match run int_gob idle wiring with Ret g => g | _ => idle end.
(** The first call times out, the second is served. *)
Definition script : list (event string Z unit) :=
  [EAccept 0%nat; ERead 0%nat 0; EFire 0%nat; EReturn 0%nat;
   EAccept 1%nat; ERead 1%nat 0; EDispatch 1%nat 0; ELookup 1%nat; EMethod 1%nat; EReply 1%nat; EFinish 1%nat 0 899 0; EReturn 1%nat].
Definition wired_world : networld := mkNetWorld wired_state wiring script.
Definition asked : result (Config * networld) := @Query _ (net_clerk id int_gob) 1 (MakeClerk ["a"; "b"]) 6 wired_world.
Definition asked_world : networld := match asked with Ret (_, w) => w | _ => wired_world end.

Lemma net_clerks_served_witness :
  asked = Ret (mkConfig 7 [] ∅, asked_world) ∧
  ∃ srv reply, srv ∈ ["a"; "b"] ∧ served id int_gob idle m_Query "ShardCtrler.Query" srv (mkQueryArgs 6) reply asked_world ∧
    qr_WrongLeader reply = false ∧ mkConfig 7 [] ∅ = qr_Config reply.
Proof.
  assert (asked = Ret (mkConfig 7 [] ∅, asked_world)) as Hasked by (vm_compute; reflexivity). split; [exact Hasked|].
  destruct (net_clerks_served id int_gob idle eq_refl 1 1 wired_world) as (_ & HQuery & _); [vm_compute; reflexivity|].
  apply (HQuery (MakeClerk ["a"; "b"]) 6 (mkConfig 7 [] ∅) asked_world Hasked).
Defined.
